(* ===== verification/_CoqProject ===== *)
-Q . S2P
Prelude.v
Fifo.v
WorkStealing.v
WorkStealingConc.v
SpscQueue.v
MailQueue.v
MailQueueConc.v
MailBoxConc.v
EventMessage.v
MailBox.v
GlobalQueue.v
Scheduler.v
SchedulerConc.v
SchedulerPark.v
SchedulerTasks.v
SchedulerSearch.v
SchedulerLife.v
EventBus.v
PluginManager.v
Task.v
Frames.v
ActorModule.v
ActorManager.v
Libraries.v
Supervision.v
CrashCycle.v
Shutdown.v
OneCoroutine.v
Blocked.v
Process.v
CommandLine.v
WeakMem.v
SpscConc.v
MailBoxWeak.v
WorkStealingWeak.v
WorkStealingWeakInv.v
MailQueueWeak.v
MailQueueWeakInv.v
EventBusWeak.v
