(* ===== verification/Prelude.v ===== *)
(** * acnet, an actor framework: a verification of its runtime

    acnet (include/, src/core/, src/modules/) runs actors, called modules, as
    coroutines on a pool of worker threads. A module is loaded from a shared
    library; it receives event messages through its mailbox; a supervisor, the
    manager, loads, stops, reloads and restarts modules on request and when
    they crash. This development models the runtime as executable definitions
    and proves it correct, bottom up.

    ** The parts, and the files that model them

    - Prelude (this file): 64-bit arithmetic with its wrap-around ([u64],
      [add64], [sub64], [s64]), transition systems ([reachable]) with their
      invariant rule and with what every execution comes to ([inevitable],
      [inevitable_measure]), lemmas on lists and maps, the
      hint database and the tactics shared by all files. [None] as the result
      of an operation of the program is undefined behaviour (an index outside
      an array, a message that is not allocated); theorems that give [Some]
      say that it does not occur.
    - Fifo: the class [BoundedFifo], what a bounded queue promises to its
      clients, with the refinement to a list that every instance has.
    - WorkStealing, WorkStealingConc: [WorkStealingQueue] of include/queue.h.
      The methods run alone ([push], [pop], [steal]), cut into single atomic
      accesses ([owner_step], [thief_step]) and interleaved ([ws_step]).
      WorkStealingWeak, WorkStealingWeakInv: the same methods with their memory
      orders and fences on the memory of WeakMem ([WsWeak.deque_act]), and the
      invariant of that system.
    - WeakMem: memory in which a load may return an old value: writes carry the
      view of their thread, release and acquire pass views on, an exchange or
      a successful compare-exchange reads the last write, seq_cst fences join
      the views of the threads (the release/acquire part of the C++ memory model).
    - SpscQueue, SpscConc: [SPSCQueue], an instance of [BoundedFifo] across the
      wrap of its indices; producer and consumer interleaved on the memory of
      WeakMem.
    - MailQueue, MailQueueConc: [MailQueue], the ring of many producers and
      one consumer: alone (an instance of [BoundedFifo]) and interleaved
      ([Mail.mq_step]). MailQueueWeak, MailQueueWeakInv: the same on the
      memory of WeakMem ([MqWeak.mail_act]), and its invariant.
    - GlobalQueue: [GlobalQueue], the injection queue with the idle counter
      and the epoch.
    - EventMessage: event types, messages and their reference counts on a heap
      (include/event_message.h), [generate_unique_id] (include/helper.h).
    - MailBox, MailBoxConc: [MailBox] (include/mail_box.h, src/core/mail_box.cc):
      [Send], [try_receive], [Wait], the destructor, over any [BoundedFifo];
      and the protocol by which senders wake a sleeping consumer, access by
      access ([Wake.mb_step]).
    - MailBoxWeak: the same protocol on the memory of WeakMem
      ([WakeWeak.wake_step]).
    - Scheduler, SchedulerConc, SchedulerPark, SchedulerTasks, SchedulerSearch,
      SchedulerLife:
      [ActorScheduler] (include/actor_scheduler.h, src/core/actor_scheduler.cc).
      [Enqueue], [try_get_task] and [Shutdown] alone; the loop of
      [scheduler_thread] for any number of workers, with the deques of
      WorkStealing access by access, the critical sections of the global queue
      and the condition variable (spurious wake-ups included), and external
      threads; the parking invariant; where every task is; that a search ends; construction and
      destruction of the scheduler around that loop ([life_step]).
    - EventBus: [ActorEventBus] (include/event_bus.h, src/core/event_bus.cc):
      subscriptions, publication through thread-local copies of the table;
      EventBusWeak: subscribers and publishers on the memory of WeakMem
      ([BusWeak.bus_act]).
    - PluginManager: the configuration (src/core/plugin_manager.h, .cc).
    - Task, Frames: [Task] with its promises, for values and for [void] (class
      [ResultVariant]), and [LaunchTask] (include/task.h): caller and callee
      interleaved; the coroutine frames, from their allocation to their
      destruction, with the launch coroutine and the threads that resume the
      module's task interleaved ([life_step] of Frames).
    - ActorModule: [ActorModule::RunCoroutine] (src/core/actor_module.cc) and
      the gateway module (src/modules/network_module/gateway_actor.cc).
    - ActorManager, Supervision: [ActorManager] (src/core/actor_manager.h, .cc):
      every handler, the event loop, the coroutine of a child, and the theorems
      about manager and children together. CrashCycle repeats crash and restart
      of the gateway module ([CrashCycle.cycle]). Shutdown interleaves the
      manager, message by message, with the coroutines of its children, cut at
      [error_handle] ([Shutdown.net_step]). Libraries: how long the shared
      libraries stay loaded ([LoadedModule] and the [shared_ptr]s to it), over
      the class [Loader] of dynamic loaders. OneCoroutine: which children have a
      coroutine, over all messages ([OneCoroutine.system_step]); Blocked: a child
      without one, over the same steps.
    - Process: the static objects of the whole program (the manager, the
      scheduler, the plugin manager, the event bus, the logger) from their
      construction on first use to their destruction at exit, used by the main
      thread, the worker threads and the signal handler ([Process.proc_step]),
      and which of them were used after their destructor ([Process.faults]).
    - CommandLine: src/core/main.cc: every function as a program ([prog]) over
      files, output, signals and exit handlers; the client that leaves a command
      for a running server, the server's [main] and signal handler, and sessions
      in which commands are given and signals delivered in any order ([session]).

    ** What the theorems show

    - No task is lost and none runs twice: [deque_release_acquire] for a deque
      in every execution of the C++ memory model ([ws_exactly_once] for
      interleavings), [sched_exactly_once] for the scheduler; [sched_no_lost_wakeup], [sched_shutdown_wakes],
      [sched_progress] and [search_terminates] say that workers never all sleep
      over a task, that shutdown wakes them, that no worker gets stuck and that
      its search for a task ends; [scheduler_lifecycle] and [destructor_returns]
      that the constructor and the destructor surround the loops as they should.
    - No message is lost and none reordered: [mq_fifo], [mq_enqueue_outcome]
      and [mq_dequeue_outcome] for the ring, [wake_no_lost_message],
      [wake_mutual_exclusion], [wake_quiescent_empty] and [wake_return_final]
      for the wake-up of a consumer, [mailbox_conservation] for the counters of
      a mailbox. [mail_release_acquire], [polled_dequeue_succeeds],
      [wake_release_acquire], [spsc_release_acquire] and [bus_release_acquire]
      show that the memory orders the code asks for are enough.
    - References and frames are balanced: [mailbox_destructor],
      [publish_delivers], [receive_loop_handles], [manager_exit_stops_all];
      [launch_frames_freed] for the coroutine frames ([launch_frames_lost]
      without its condition on other threads), [libraries_stay_loaded] for the
      shared libraries.
    - Optimised structures refine lists: [ws_refines_deque],
      [spsc_refines_fifo], [mail_queue_refines_fifo]; [ws_accesses_compose]
      links the atomic accesses with the direct definitions.
    - The supervisor keeps its promises: [crashed_module_restarts] and, for any
      number of restarts of the program as it stands, [crash_restart_forever],
      [manager_shutdown_completes], [dispatch_keeps_children],
      [load_modules_starts], [reload_all_restarts], [reload_replaces_module];
      [one_coroutine_per_child]: a child never has two coroutines, so that a
      mailbox has one consumer, as the theorems about mailboxes ask for.
      [crashing_shutdown_ends_loop] goes from the call of [Shutdown] to the
      return of the event loop, which every execution comes to.
      [command_reaches_manager] takes a command from the client's
      arguments to the manager's mailbox, [server_session] a whole run of the
      server with its clients; [process_exit_safe] that the static objects
      outlive their users when the process ends.
    - Where the code does not do what it means to, a theorem says so:
      [ws_signed_boundary], [mail_queue_one_slot], [wake_unarmed_double_run],
      [mark_running_loses_message], [wake_awaiter_outlives_frame],
      [joined_worker_touched], [task_continuation_lost], [run_coroutine_crashes],
      [failed_reload_blocks_shutdown], [lost_report_blocks_shutdown],
      [stale_stop_ends_reloaded_module], [reload_keeps_old_code],
      [long_signal_ignored], [bad_command], [signals_outlive_objects],
      [same_name_two_coroutines], [late_reload_blocks_shutdown],
      [reload_all_restarts].

    ** Modelling decisions

    - A step of an interleaving is one atomic access (or one critical section
      of a mutex). The structures that synchronise threads (the three lock-free
      queues, the wake-up protocol of the mailbox, the event bus) are treated on
      the release/acquire memory of WeakMem, where a load may return any write
      the C++ memory model allows; [wake_no_lost_message] and its companions in
      MailBoxConc are about sequentially consistent interleavings, MailBoxWeak
      says what remains of them. A publication synchronises sender and
      receiver, so that the receiver knows what the sender knew. The scheduler,
      which composes the deques with a mutex and a condition variable, is
      interleaved on sequentially consistent memory.
    - As the code stands, [ActorModule::RunCoroutine] throws before its receive
      loop ([run_coroutine_crashes]), and no module ever waits for a message.
      [crashed_module_restarts], [crash_restart_forever] and
      [crashing_shutdown_ends_loop] are about that code; [receive_loop_handles]
      is about the loop that follows the throw.
    - Counters are kept at 64 bits. Bounds such as fewer than [2^63] pushes,
      or at most [2^61] calls, appear as hypotheses where the code compares
      counters as signed numbers; [ws_signed_boundary] shows what happens
      beyond.
    - The capacity of a queue is [2^k] for a variable [k], so that the
      theorems hold for the capacities of the code (256 for mailboxes and
      deques) and witnesses can use small ones.
    - Loops that need not be structural take fuel: [MailBox.drain] gets one
      more than the number of slots; [ActorModule.receive_loop] and
      [Manager.run_loop] one more than the messages to handle, and the theorems
      show that this is enough; a step of Shutdown gives a child's coroutine one
      more than the slots of its mailbox. The retry loop of
      [MailQueue::try_enqueue] needs one iteration when it runs alone, which the
      refinement [mail_queue_refines_fifo] shows to be enough; its retries are
      steps of their own in MailQueueConc. The search of [try_get_task] needs no
      fuel: it is a sequence of steps, bounded by [search_terminates].
    - [process_exit_safe] has two conditions: the signal handler runs, at once,
      while the main thread waits for the event loop, and coroutines are started
      only for children that have none, which holds when the module names of a
      configuration are unique ([one_coroutine_per_child]).
      [signals_outlive_objects] shows what happens without the one and without
      the other. The loading of the modules is one step of the main thread there.
    - A client of the command line runs to its end between two runs of the
      server's signal handler, and a pending SIGHUP is pending once.
    - Code outside the repository is a parameter: [dlopen], [dlsym], [dlclose]
      and the functions of the loaded libraries, the TOML reader, the answers of the
      system calls and of [getopt_long], the iteration order of unordered
      containers, [ProcessEvent] and [error_handle] of a module.

    ** Not modelled

    Log output (quill; only the lifetime of the logger is in Process); naming and affinity of threads; memory orders weaker
    than sequential consistency for the loop of the scheduler and the awaiter of
    [Task]; src/core/time_wheel, whose files are empty. *)

From Stdlib Require Import ZArith Lia.
From stdpp Require Import base list list_numbers relations gmap strings.

Local Open Scope Z_scope.

(** ** Machine integers

    [std::size_t] and [uint64_t] are 64-bit; a value is a [Z] in
    [0 .. 2^64-1] and every addition and subtraction the code performs on them
    wraps around explicitly. *)

Definition u64 (x : Z) : Z := x mod 2 ^ 64.

Definition add64 (a b : Z) : Z := u64 (a + b).

Definition sub64 (a b : Z) : Z := u64 (a - b).

(** [static_cast<std::int64_t>] / [static_cast<std::ptrdiff_t>] of a
    [std::size_t] (C++20: two's complement). *)
Definition s64 (x : Z) : Z := if x <? 2 ^ 63 then x else x - 2 ^ 64.

(** Signed 64-bit subtraction: the result when it is representable, [None]
    when the subtraction overflows (undefined behaviour in C++). *)
Definition ssub64 (a b : Z) : option Z :=
  let d := s64 a - s64 b in
  if (- 2 ^ 63 <=? d) && (d <? 2 ^ 63) then Some d else None.

Declare Scope u64_scope.
Delimit Scope u64_scope with u64.
Notation "a ⊕ b" := (add64 a b) (at level 50, left associativity) : u64_scope.
Notation "a ⊖ b" := (sub64 a b) (at level 50, left associativity) : u64_scope.

#[global] Arguments u64 : simpl never.
#[global] Arguments add64 : simpl never.
#[global] Arguments sub64 : simpl never.
#[global] Arguments s64 : simpl never.
#[global] Arguments ssub64 : simpl never.

(** ** Arrays

    [queue_[i]] of a C++ array: reading or writing outside the array is
    undefined behaviour, [None] here. *)

Definition mask_index (i mask : Z) : nat := Z.to_nat (Z.land i mask).

Definition array_store {A} (l : list A) (i : nat) (v : A) : option (list A) :=
  if decide (i < length l)%nat then Some (<[i := v]> l) else None.

(** ** Automation *)

Create HintDb acnet discriminated.
Create Rewrite HintDb acnet.

Ltac destruct_if :=
  match goal with
  | |- context [if ?b then _ else _] => destruct b eqn:?
  | H : context [if ?b then _ else _] |- _ => destruct b eqn:?
  end.

(** Boolean comparisons of [Z] turned into the propositions they decide. *)
Ltac zbool :=
  repeat match goal with
  | H : (_ <=? _) = true |- _ => apply Z.leb_le in H
  | H : (_ <=? _) = false |- _ => apply Z.leb_gt in H
  | H : (_ <? _) = true |- _ => apply Z.ltb_lt in H
  | H : (_ <? _) = false |- _ => apply Z.ltb_ge in H
  | H : (_ =? _) = true |- _ => apply Z.eqb_eq in H
  | H : (_ =? _) = false |- _ => apply Z.eqb_neq in H
  | H : (_ && _) = true |- _ => apply andb_true_iff in H as [? ?]
  | H : negb _ = true |- _ => apply negb_true_iff in H
  | H : negb _ = false |- _ => apply negb_false_iff in H
  end.

(** ** Facts about the machine integers *)

Local Open Scope u64_scope.

Lemma u64_small x : 0 <= x < 2 ^ 64 -> u64 x = x.
Proof. intros. by apply Z.mod_small. Qed.

Lemma u64_range x : 0 <= u64 x < 2 ^ 64.
Proof. apply Z.mod_pos_bound. lia. Qed.

Lemma add64_small a b : 0 <= a + b < 2 ^ 64 -> add64 a b = a + b.
Proof. apply u64_small. Qed.

Lemma sub64_small a b : 0 <= a - b < 2 ^ 64 -> sub64 a b = a - b.
Proof. apply u64_small. Qed.

Lemma s64_small x : 0 <= x < 2 ^ 63 -> s64 x = x.
Proof. intros. unfold s64. destruct (Z.ltb_spec x (2 ^ 63)); lia. Qed.

Lemma s64_range x : 0 <= x < 2 ^ 64 -> - 2 ^ 63 <= s64 x < 2 ^ 63.
Proof. intros. unfold s64. destruct (Z.ltb_spec x (2 ^ 63)); lia. Qed.

Lemma s64_max : s64 (2 ^ 64 - 1) = -1.
Proof. reflexivity. Qed.

(** Decrementing zero and incrementing the result wraps twice. *)
Lemma add64_sub64 x : 0 <= x < 2 ^ 64 -> add64 (sub64 x 1) 1 = x.
Proof.
  intros. unfold add64, sub64, u64.
  rewrite Zplus_mod_idemp_l. rewrite Z.mod_small; lia.
Qed.

(** The predecessor of a counter below [2^63], and its signed reading. *)
Lemma s64_pred x : 0 <= x < 2 ^ 63 -> s64 (sub64 x 1) = x - 1.
Proof.
  intros. destruct (decide (x = 0)) as [->|]; [reflexivity|].
  rewrite sub64_small by lia. apply s64_small. lia.
Qed.

Lemma sub64_pred x : 0 < x < 2 ^ 64 -> sub64 x 1 = x - 1.
Proof. intros. apply sub64_small. lia. Qed.

Lemma u64_add x y : u64 x ⊕ y = u64 (x + y).
Proof. apply Zplus_mod_idemp_l. Qed.

Lemma u64_sub x y : u64 x ⊖ y = u64 (x - y).
Proof. apply Zminus_mod_idemp_l. Qed.

Lemma s64_u64 x : - 2 ^ 63 <= x < 2 ^ 63 -> s64 (u64 x) = x.
Proof.
  intros Hx. unfold s64. destruct (Z.leb_spec 0 x).
  - rewrite u64_small by lia. destruct (Z.ltb_spec x (2 ^ 63)); lia.
  - assert (u64 x = x + 2 ^ 64) as ->.
    { unfold u64. rewrite <- (Z.mod_add x 1) by lia. rewrite Z.mod_small; lia. }
    destruct (Z.ltb_spec (x + 2 ^ 64) (2 ^ 63)); lia.
Qed.

Lemma ssub64_small a b :
  0 <= a < 2 ^ 63 -> 0 <= b < 2 ^ 63 -> ssub64 a b = Some (a - b).
Proof.
  intros. unfold ssub64. rewrite !s64_small by lia.
  destruct (Z.leb_spec (- 2 ^ 63) (a - b)); [|lia].
  destruct (Z.ltb_spec (a - b) (2 ^ 63)); [done|lia].
Qed.

(** ** Masked indices *)

Lemma land_mask k x : Z.land x (2 ^ Z.of_nat k - 1) = x mod 2 ^ Z.of_nat k.
Proof.
  replace (2 ^ Z.of_nat k - 1) with (Z.ones (Z.of_nat k)).
  - apply Z.land_ones. lia.
  - rewrite Z.ones_equiv. lia.
Qed.

Lemma pow2_pos k : 0 < 2 ^ Z.of_nat k.
Proof. apply Z.pow_pos_nonneg; lia. Qed.

Lemma mask_index_lt k x :
  (mask_index x (2 ^ Z.of_nat k - 1) < Z.to_nat (2 ^ Z.of_nat k))%nat.
Proof.
  unfold mask_index. rewrite land_mask.
  pose proof (Z.mod_pos_bound x _ (pow2_pos k)). lia.
Qed.

(** Two indices less than one lap apart share a slot only if they are equal. *)
Lemma mask_index_inj k x y :
  mask_index x (2 ^ Z.of_nat k - 1) = mask_index y (2 ^ Z.of_nat k - 1) ->
  Z.abs (x - y) < 2 ^ Z.of_nat k -> x = y.
Proof.
  unfold mask_index. rewrite !land_mask. intros E L.
  pose proof (pow2_pos k) as Hp.
  pose proof (Z.mod_pos_bound x _ Hp). pose proof (Z.mod_pos_bound y _ Hp).
  assert (Em : x mod 2 ^ Z.of_nat k = y mod 2 ^ Z.of_nat k) by lia.
  pose proof (Z.div_mod x (2 ^ Z.of_nat k)). pose proof (Z.div_mod y (2 ^ Z.of_nat k)).
  set (p := 2 ^ Z.of_nat k) in *. set (a := x / p) in *. set (b := y / p) in *.
  assert (x - y = p * (a - b)) by nia.
  assert (a - b = 0) by nia. nia.
Qed.

(** Adding whole laps does not change the slot. *)
Lemma mask_index_lap k x :
  mask_index (x + 2 ^ Z.of_nat k) (2 ^ Z.of_nat k - 1)
  = mask_index x (2 ^ Z.of_nat k - 1).
Proof.
  unfold mask_index. rewrite !land_mask.
  replace (x + 2 ^ Z.of_nat k) with (x + 1 * 2 ^ Z.of_nat k) by lia.
  by rewrite Z.mod_add by (pose proof (pow2_pos k); lia).
Qed.

(** ** Array facts *)

Lemma array_store_Some {A} (l : list A) i v :
  (i < length l)%nat -> array_store l i v = Some (<[i := v]> l).
Proof. intros. unfold array_store. by rewrite decide_True. Qed.

(** ** Sequences of indices *)

Lemma seqZ_snoc m n : 0 <= n -> seqZ m (n + 1) = seqZ m n ++ [m + n].
Proof.
  intros. rewrite seqZ_app by lia. f_equal.
Qed.

Lemma fmap_seqZ_ext {A} (f g : Z -> A) m n :
  (forall i, m <= i < m + n -> f i = g i) -> f <$> seqZ m n = g <$> seqZ m n.
Proof.
  intros Hfg. apply list_fmap_ext. intros i x Hx.
  apply lookup_seqZ in Hx as [-> ?]. apply Hfg. lia.
Qed.

(** Updating one element of a list changes one part of its concatenation. *)
Lemma concat_fmap_update {A B} (f : A -> list B) (l : list A) i x :
  l !! i = Some x ->
  exists rest, concat (f <$> l) ≡ₚ f x ++ rest /\
    forall y, concat (f <$> <[i := y]> l) ≡ₚ f y ++ rest.
Proof.
  intros Hi. exists (concat (f <$> take i l) ++ concat (f <$> drop (S i) l)).
  assert (forall y, concat (f <$> take i l ++ y :: drop (S i) l)
    ≡ₚ f y ++ concat (f <$> take i l) ++ concat (f <$> drop (S i) l)) as Hc.
  { intros y. rewrite fmap_app, concat_app. simpl. rewrite !(assoc_L (++)).
    by rewrite (Permutation_app_comm (concat _)). }
  split.
  - rewrite <- (take_drop_middle l i x Hi) at 1. apply Hc.
  - intros y. rewrite insert_take_drop by by eapply lookup_lt_Some. apply Hc.
Qed.

(** ** Sums over a finite map *)

Section MapSum.
Context `{Countable K} {A : Type} (f : A -> nat).

Definition map_sum (m : gmap K A) : nat := sum_list (f <$> (map_to_list m).*2).

Lemma map_sum_empty : map_sum ∅ = 0%nat.
Proof. unfold map_sum. by rewrite map_to_list_empty. Qed.

Lemma map_sum_insert m i x : m !! i = None -> map_sum (<[i := x]> m) = (f x + map_sum m)%nat.
Proof.
  intros. unfold map_sum. rewrite map_to_list_insert by done. done.
Qed.

Lemma map_sum_singleton i x : map_sum {[ i := x ]} = f x.
Proof. rewrite <- insert_empty, map_sum_insert, map_sum_empty by apply lookup_empty. lia. Qed.

Lemma map_sum_delete m i x : m !! i = Some x -> map_sum m = (f x + map_sum (delete i m))%nat.
Proof.
  intros Hi. rewrite <- map_sum_insert with (i := i) by apply lookup_delete_eq.
  by rewrite insert_delete_id.
Qed.

Lemma map_sum_update m i x y :
  m !! i = Some x -> (map_sum (<[i := y]> m) + f x = map_sum m + f y)%nat.
Proof.
  intros Hi. rewrite (map_sum_delete m i x) by done. rewrite <- insert_delete_eq.
  rewrite map_sum_insert by apply lookup_delete_eq. lia.
Qed.

Lemma map_sum_le m i x : m !! i = Some x -> (f x <= map_sum m)%nat.
Proof. intros Hi. rewrite (map_sum_delete m i x) by done. lia. Qed.

Lemma map_sum_le2 m i j x y :
  m !! i = Some x -> m !! j = Some y -> i <> j -> (f x + f y <= map_sum m)%nat.
Proof.
  intros Hi Hj Hne. rewrite (map_sum_delete m i x) by done.
  pose proof (map_sum_le (delete i m) j y). rewrite lookup_delete_ne in * by done.
  specialize (H0 Hj). lia.
Qed.

Lemma map_sum_pos m : (0 < map_sum m)%nat -> exists i x, m !! i = Some x /\ (0 < f x)%nat.
Proof.
  induction m as [|i x m Hi IH] using map_ind; [rewrite map_sum_empty; lia|].
  rewrite map_sum_insert by done. intros Hp. destruct (decide (f x = 0%nat)) as [E|].
  - destruct IH as (j & y & Hj & Hy); [lia|]. exists j, y.
    rewrite lookup_insert_ne; [done|]. intros <-. by simplify_eq.
  - exists i, x. rewrite lookup_insert_eq. split; [done|lia].
Qed.

End MapSum.

(** ** Transition systems

    A concurrent component is a type of states, a set of initial states and a
    step relation whose steps are single atomic accesses; an invariant is
    established by induction over the reachable states. *)

Section Systems.
Context {S : Type} (init : S -> Prop) (step : S -> S -> Prop).

Definition reachable (s : S) : Prop := exists s0, init s0 /\ rtc step s0 s.

Lemma reachable_init s : init s -> reachable s.
Proof. intros. exists s. split; [done|apply rtc_refl]. Qed.

Lemma reachable_step s s' : reachable s -> step s s' -> reachable s'.
Proof. intros (s0 & H0 & Hr) Hs. exists s0. split; [done|by eapply rtc_r]. Qed.

Lemma reachable_ind (I : S -> Prop) :
  (forall s, init s -> I s) ->
  (forall s s', reachable s -> I s -> step s s' -> I s') ->
  forall s, reachable s -> I s.
Proof.
  intros Hi Hs s (s0 & H0 & Hr). revert s Hr. apply rtc_ind_r; [by apply Hi|].
  intros s1 s2 H1 H2 IH. apply (Hs s1); [by exists s0|done|done].
Qed.

(** Every execution from the state comes to [P]: it is never stuck before, and
    does not go on for ever without it. *)
Inductive inevitable (P : S -> Prop) (s : S) : Prop :=
  | inevitable_now : P s -> inevitable P s
  | inevitable_step : (exists s', step s s') -> (forall s', step s s' -> inevitable P s') -> inevitable P s.

(** By a measure [n] that every step decreases. *)
Lemma inevitable_measure (P : S -> Prop) (I : nat -> S -> Prop) :
  (forall n s, I n s -> P s \/
     (exists s', step s s') /\ forall s', step s s' -> exists n', (n' < n)%nat /\ I n' s') ->
  forall n s, I n s -> inevitable P s.
Proof.
  intros H n. induction (lt_wf n) as [n _ IH]. intros s Hs.
  destruct (H n s Hs) as [HP|[Hex Hall]]; [by left|]. right; [done|].
  intros s' (n' & Hlt & Hs')%Hall. by apply (IH n').
Qed.

(** A schedule, executed: [act] performs one chosen step. *)
Context {C : Type} (act : C -> S -> option S).

Fixpoint run_schedule (cs : list C) (s : S) : option S :=
  match cs with
  | [] => Some s
  | c :: cs' => s' ← act c s; run_schedule cs' s'
  end.

Lemma run_schedule_reachable :
  (forall c s s', act c s = Some s' -> step s s') ->
  forall cs s s', reachable s -> run_schedule cs s = Some s' -> reachable s'.
Proof.
  intros Hact cs. induction cs as [|c cs IH]; simpl; intros s s' Hr Hs.
  - by injection Hs as <-.
  - destruct (act c s) as [s1|] eqn:E; [|done]. simpl in Hs.
    apply (IH s1); [|done]. apply (reachable_step s); [done|by apply (Hact c)].
Qed.

End Systems.
