(* ===== verification/Fifo.v ===== *)
(** * The interface of a bounded FIFO queue

    What the ring buffers of include/queue.h promise to the components built
    on them: [enq] appends unless [fifo_cap] elements are waiting, [deq] takes
    the oldest element. [None] as the result of an operation is undefined
    behaviour, so that each law also says the operation is defined.
    [fifo_budget] is the number of [enq] calls before an index counter
    reaches the end of its range. *)

From Stdlib Require Import ZArith Lia.
From stdpp Require Import base list.
From S2P Require Import Prelude.

Local Open Scope Z_scope.

Class BoundedFifo {Q A : Type}
    (enq : A -> Q -> option (bool * Q)) (deq : Q -> option (option A * Q)) := {
  fifo_wf : Q -> Prop;
  fifo_view : Q -> list A;
  fifo_cap : Q -> nat;
  fifo_budget : Q -> Z;
  fifo_enq_room a q :
    fifo_wf q -> 0 < fifo_budget q -> (length (fifo_view q) < fifo_cap q)%nat ->
    exists q', enq a q = Some (true, q') /\ fifo_wf q' /\
      fifo_view q' = fifo_view q ++ [a] /\ fifo_cap q' = fifo_cap q /\
      fifo_budget q - 1 <= fifo_budget q';
  fifo_enq_full a q :
    fifo_wf q -> (fifo_cap q <= length (fifo_view q))%nat -> enq a q = Some (false, q);
  fifo_deq_some a l q :
    fifo_wf q -> fifo_view q = a :: l ->
    exists q', deq q = Some (Some a, q') /\ fifo_wf q' /\
      fifo_view q' = l /\ fifo_cap q' = fifo_cap q /\
      fifo_budget q <= fifo_budget q';
  fifo_deq_none q :
    fifo_wf q -> fifo_view q = [] -> deq q = Some (None, q)
}.

(** ** Consequences every client uses *)

Section Clients.
Context {Q A : Type} {enq : A -> Q -> option (bool * Q)}
  {deq : Q -> option (option A * Q)} `{F : !BoundedFifo enq deq}.

(** Calls on the queue, the contract and the implementation. *)
Inductive fifo_call := Enq (a : A) | Deq.
Inductive fifo_ret := EnqRet (ok : bool) | DeqRet (a : option A).

Definition fifo_impl (c : fifo_call) (q : Q) : option (fifo_ret * Q) :=
  match c with
  | Enq a => '(ok, q') ← enq a q; Some (EnqRet ok, q')
  | Deq => '(a, q') ← deq q; Some (DeqRet a, q')
  end.

Definition fifo_spec (cap : nat) (c : fifo_call) (l : list A) : fifo_ret * list A :=
  match c with
  | Enq a => if decide (length l < cap)%nat then (EnqRet true, l ++ [a]) else (EnqRet false, l)
  | Deq => match l with a :: l' => (DeqRet (Some a), l') | [] => (DeqRet None, []) end
  end.

Fixpoint fifo_impl_run (cs : list fifo_call) (q : Q) : option (list fifo_ret * Q) :=
  match cs with
  | [] => Some ([], q)
  | c :: cs' =>
      '(r, q1) ← fifo_impl c q; '(rs, q2) ← fifo_impl_run cs' q1; Some (r :: rs, q2)
  end.

Fixpoint fifo_spec_run (cap : nat) (cs : list fifo_call) (l : list A) : list fifo_ret * list A :=
  match cs with
  | [] => ([], l)
  | c :: cs' =>
      let (r, l1) := fifo_spec cap c l in
      let (rs, l2) := fifo_spec_run cap cs' l1 in (r :: rs, l2)
  end.

Lemma fifo_call_refines c q :
  fifo_wf q -> 0 < fifo_budget q ->
  exists r q', fifo_impl c q = Some (r, q') /\ fifo_wf q' /\
    fifo_cap q' = fifo_cap q /\ fifo_budget q - 1 <= fifo_budget q' /\
    fifo_spec (fifo_cap q) c (fifo_view q) = (r, fifo_view q').
Proof.
  intros Hwf Hb. destruct c as [a|]; simpl.
  - case_decide.
    + destruct (fifo_enq_room a q) as (q' & -> & ? & Ev & ? & ?); [done..|].
      simpl. exists (EnqRet true), q'. rewrite Ev. done.
    + rewrite fifo_enq_full by (done || lia). exists (EnqRet false), q.
      split_and!; done || lia.
  - destruct (fifo_view q) as [|a l] eqn:E.
    + rewrite fifo_deq_none by done. exists (DeqRet None), q. rewrite E.
      split_and!; done || lia.
    + destruct (fifo_deq_some a l q) as (q' & -> & ? & Ev & ? & ?); [done..|].
      exists (DeqRet (Some a)), q'. simpl. rewrite Ev. split_and!; done || lia.
Qed.

(** Any run of calls behaves as the list. *)
Lemma fifo_run_refines cs q :
  fifo_wf q -> Z.of_nat (length cs) <= fifo_budget q ->
  exists rs q', fifo_impl_run cs q = Some (rs, q') /\ fifo_wf q' /\
    fifo_spec_run (fifo_cap q) cs (fifo_view q) = (rs, fifo_view q').
Proof.
  revert q. induction cs as [|c cs IH]; simpl; intros q Hwf Hb.
  { exists [], q. done. }
  destruct (fifo_call_refines c q) as (r & q1 & -> & Hwf1 & Ec & Hb1 & ->); [done|lia|].
  simpl. destruct (IH q1) as (rs & q2 & -> & Hwf2 & E2); [done|lia|].
  rewrite <- Ec, E2. by exists (r :: rs), q2.
Qed.

End Clients.
Arguments fifo_call : clear implicits.
Arguments fifo_ret : clear implicits.
