(* ===== verification/WorkStealing.v ===== *)
(** * The work-stealing deque of a worker (include/queue.h, [WorkStealingQueue])

    [push], [pop], [steal] and [approx_size] as the code executes them when no
    other thread interferes, over 64-bit counters; and the same operations cut
    into their single atomic accesses, the form in which the owner and any
    number of thieves interleave. *)

From Stdlib Require Import ZArith Lia.
From stdpp Require Import base list list_numbers relations gmap.
From S2P Require Import Prelude.

Local Open Scope Z_scope.
Local Open Scope u64_scope.

(** [enum class StealState] *)
Inductive StealState := kEmpty | kSuccess | kAbort.

#[export] Instance StealState_eq_dec : EqDecision StealState.
Proof. solve_decision. Defined.

(** A [void *]: a coroutine address, [nullptr] is 0. *)
Definition nullptr : Z := 0.

(** [top_], [bottom_] and the slots [queue_] *)
Record WorkStealingQueue := mkWSQ {
  top_ : Z;
  bottom_ : Z;
  queue_ : list Z
}.

Definition set_top (q : WorkStealingQueue) (v : Z) : WorkStealingQueue :=
  mkWSQ v (bottom_ q) (queue_ q).

Definition set_bottom (q : WorkStealingQueue) (v : Z) : WorkStealingQueue :=
  mkWSQ (top_ q) v (queue_ q).

Definition set_queue (q : WorkStealingQueue) (l : list Z) : WorkStealingQueue :=
  mkWSQ (top_ q) (bottom_ q) l.

Definition kWorkStealingQueueSize : Z := Z.shiftl 1 8.

Section Operations.
(** The template argument [N], a power of two. *)
Context (k : nat).
Definition qsize : Z := 2 ^ Z.of_nat k.
Definition kMask : Z := qsize - 1.

(** The constructor. *)
Definition new_queue : WorkStealingQueue :=
  mkWSQ 0 0 (replicate (Z.to_nat qsize) nullptr).

Definition push (handle : Z) (q : WorkStealingQueue)
    : option (bool * WorkStealingQueue) :=
  let bt := bottom_ q in
  let tp := top_ q in
  if qsize <=? bt ⊖ tp then Some (false, q)
  else
    l ← array_store (queue_ q) (mask_index bt kMask) handle;
    Some (true, set_bottom (set_queue q l) (bt ⊕ 1)).

Definition approx_size (q : WorkStealingQueue) : option Z :=
  diff ← ssub64 (bottom_ q) (top_ q);
  Some (if 0 <? diff then u64 diff else 0).

Definition pop_result (ptr : Z) : StealState :=
  if ptr =? nullptr then kEmpty else kSuccess.

Definition pop (q : WorkStealingQueue)
    : option (StealState * Z * WorkStealingQueue) :=
  let bt := bottom_ q ⊖ 1 in
  let q1 := set_bottom q bt in
  let tp := top_ q1 in
  if s64 tp <=? s64 bt then
    ptr ← queue_ q1 !! mask_index bt kMask;
    if tp =? bt then
      (* nobody else runs: the compare-exchange on [top_] succeeds *)
      let q2 := set_top q1 (tp ⊕ 1) in
      Some (pop_result ptr, ptr, set_bottom q2 (bt ⊕ 1))
    else Some (pop_result ptr, ptr, q1)
  else Some (kEmpty, nullptr, set_bottom q1 (bt ⊕ 1)).

Definition steal (q : WorkStealingQueue)
    : option (StealState * Z * WorkStealingQueue) :=
  let tp := top_ q in
  let bt := bottom_ q in
  if s64 tp <? s64 bt then
    ptr ← queue_ q !! mask_index tp kMask;
    Some (kSuccess, ptr, set_top q (tp ⊕ 1))
  else Some (kEmpty, nullptr, q).

(** ** The operations, one atomic access at a time *)

(** Where the owner is inside [push] or [pop]; the values are its locals. *)
Inductive owner_pc :=
  | OIdle
  | PushLoadBottom (h : Z)
  | PushLoadTop (h bt : Z)
  | PushStoreSlot (h bt : Z)
  | PushStoreBottom (h bt : Z)
  | PopLoadBottom
  | PopStoreBottom (bt : Z)
  | PopLoadTop (bt : Z)
  | PopLoadSlot (bt tp : Z)
  | PopCas (bt tp ptr : Z)
  | PopRestore (bt ptr : Z).

(** What a completed call returns to its caller. *)
Inductive outcome :=
  | Running
  | Pushed (ok : bool)
  | Popped (st : StealState) (ptr : Z).

Definition owner_step (q : WorkStealingQueue) (pc : owner_pc)
    : option (WorkStealingQueue * owner_pc * outcome) :=
  match pc with
  | OIdle => None
  | PushLoadBottom h => Some (q, PushLoadTop h (bottom_ q), Running)
  | PushLoadTop h bt =>
      if qsize <=? bt ⊖ top_ q then Some (q, OIdle, Pushed false)
      else Some (q, PushStoreSlot h bt, Running)
  | PushStoreSlot h bt =>
      l ← array_store (queue_ q) (mask_index bt kMask) h;
      Some (set_queue q l, PushStoreBottom h bt, Running)
  | PushStoreBottom h bt => Some (set_bottom q (bt ⊕ 1), OIdle, Pushed true)
  | PopLoadBottom => Some (q, PopStoreBottom (bottom_ q ⊖ 1), Running)
  | PopStoreBottom bt => Some (set_bottom q bt, PopLoadTop bt, Running)
  | PopLoadTop bt =>
      let tp := top_ q in
      if s64 tp <=? s64 bt then Some (q, PopLoadSlot bt tp, Running)
      else Some (q, PopRestore bt nullptr, Running)
  | PopLoadSlot bt tp =>
      ptr ← queue_ q !! mask_index bt kMask;
      if tp =? bt then Some (q, PopCas bt tp ptr, Running)
      else Some (q, OIdle, Popped (pop_result ptr) ptr)
  | PopCas bt tp ptr =>
      if top_ q =? tp then Some (set_top q (tp ⊕ 1), PopRestore bt ptr, Running)
      else Some (q, PopRestore bt nullptr, Running)
  | PopRestore bt ptr =>
      Some (set_bottom q (bt ⊕ 1), OIdle, Popped (pop_result ptr) ptr)
  end.

(** Where a thief is inside [steal]. *)
Inductive thief_pc :=
  | TLoadTop
  | TLoadBottom (tp : Z)
  | TLoadSlot (tp : Z)
  | TCas (tp ptr : Z).

(** [None] as the next program point: the call returned. *)
Definition thief_step (q : WorkStealingQueue) (pc : thief_pc)
    : option (WorkStealingQueue * option thief_pc * outcome) :=
  match pc with
  | TLoadTop => Some (q, Some (TLoadBottom (top_ q)), Running)
  | TLoadBottom tp =>
      if s64 tp <? s64 (bottom_ q) then Some (q, Some (TLoadSlot tp), Running)
      else Some (q, None, Popped kEmpty nullptr)
  | TLoadSlot tp =>
      ptr ← queue_ q !! mask_index tp kMask;
      Some (q, Some (TCas tp ptr), Running)
  | TCas tp ptr =>
      if top_ q =? tp then Some (set_top q (tp ⊕ 1), None, Popped kSuccess ptr)
      else Some (q, None, Popped kAbort nullptr)
  end.

(** The owner and the thieves (by thread id), each inside at most one call,
    over one shared deque. [pushed] and [taken] are the history: the handles
    of the [push] calls that returned true and the handles returned with
    [kSuccess]. *)
Record ws_state := mkWS {
  shared : WorkStealingQueue;
  owner : owner_pc;
  thieves : gmap nat thief_pc;
  pushed : list Z;
  taken : list Z
}.

Definition record_pushed (pc : owner_pc) (o : outcome) : list Z :=
  match pc, o with PushStoreBottom h _, Pushed true => [h] | _, _ => [] end.

Definition record_taken (o : outcome) : list Z :=
  match o with Popped kSuccess ptr => [ptr] | _ => [] end.

Definition update_thief (m : gmap nat thief_pc) (t : nat) (pc : option thief_pc)
    : gmap nat thief_pc :=
  match pc with Some p => <[t := p]> m | None => delete t m end.

(** One access by one thread, or the start of a call. Handles given to [push]
    are coroutine addresses, never null. *)
Inductive ws_step : ws_state -> ws_state -> Prop :=
  | WsCallPush q th pu ta h :
      h <> nullptr ->
      ws_step (mkWS q OIdle th pu ta) (mkWS q (PushLoadBottom h) th pu ta)
  | WsCallPop q th pu ta :
      ws_step (mkWS q OIdle th pu ta) (mkWS q PopLoadBottom th pu ta)
  | WsCallSteal q ow th pu ta t :
      th !! t = None ->
      ws_step (mkWS q ow th pu ta) (mkWS q ow (<[t := TLoadTop]> th) pu ta)
  | WsOwner q ow th pu ta q' ow' o :
      owner_step q ow = Some (q', ow', o) ->
      ws_step (mkWS q ow th pu ta)
        (mkWS q' ow' th (pu ++ record_pushed ow o) (ta ++ record_taken o))
  | WsThief q ow th pu ta t pc q' pc' o :
      th !! t = Some pc ->
      thief_step q pc = Some (q', pc', o) ->
      ws_step (mkWS q ow th pu ta)
        (mkWS q' ow (update_thief th t pc') pu (ta ++ record_taken o)).

Definition ws_init (s : ws_state) : Prop := s = mkWS new_queue OIdle ∅ [] [].

End Operations.

(** ** Contents of the deque *)

Section Contents.
Context (k : nat).
Implicit Types (l : list Z) (q : WorkStealingQueue).

(** The slot that the (unbounded) index [i] addresses. *)
Definition slot_at l (i : Z) : Z := default nullptr (l !! mask_index i (kMask k)).

(** The handles at indices [a .. b-1]. *)
Definition segment l (a b : Z) : list Z := slot_at l <$> seqZ a (b - a).

Definition contents q : list Z := segment (queue_ q) (top_ q) (bottom_ q).

(** Well-formedness between calls. *)
Record ws_wf q : Prop := {
  wf_len : length (queue_ q) = Z.to_nat (qsize k);
  wf_top : 0 <= top_ q <= bottom_ q;
  wf_cap : bottom_ q - top_ q <= qsize k;
  wf_max : bottom_ q < 2 ^ 63
}.

Lemma slot_index_lt l i :
  length l = Z.to_nat (qsize k) -> (mask_index i (kMask k) < length l)%nat.
Proof. intros ->. apply mask_index_lt. Qed.

Lemma slot_lookup l i :
  length l = Z.to_nat (qsize k) ->
  l !! mask_index i (kMask k) = Some (slot_at l i).
Proof.
  intros Hl. unfold slot_at.
  destruct (lookup_lt_is_Some_2 l _ (slot_index_lt l i Hl)) as [v Hv].
  by rewrite Hv.
Qed.

Lemma slot_store l i h :
  length l = Z.to_nat (qsize k) ->
  array_store l (mask_index i (kMask k)) h = Some (<[mask_index i (kMask k) := h]> l).
Proof. intros. apply array_store_Some. by apply slot_index_lt. Qed.

Lemma slot_at_store_eq l i h :
  length l = Z.to_nat (qsize k) ->
  slot_at (<[mask_index i (kMask k) := h]> l) i = h.
Proof.
  intros. unfold slot_at. rewrite list_lookup_insert_eq; [done|].
  by apply slot_index_lt.
Qed.

Lemma slot_at_store_ne l i j h :
  i <> j -> Z.abs (i - j) < qsize k ->
  slot_at (<[mask_index i (kMask k) := h]> l) j = slot_at l j.
Proof.
  intros Hne Hlt. unfold slot_at. rewrite list_lookup_insert_ne; [done|].
  intros E. apply Hne. by apply (mask_index_inj k).
Qed.

Lemma segment_nil l a : segment l a a = [].
Proof. unfold segment. by rewrite Z.sub_diag. Qed.

Lemma segment_snoc l a b :
  a <= b -> segment l a (b + 1) = segment l a b ++ [slot_at l b].
Proof.
  intros. unfold segment. replace (b + 1 - a) with ((b - a) + 1) by lia.
  rewrite seqZ_snoc by lia. rewrite fmap_app. simpl. do 3 f_equal. lia.
Qed.

Lemma segment_cons l a b :
  a < b -> segment l a b = slot_at l a :: segment l (a + 1) b.
Proof.
  intros. unfold segment. rewrite (seqZ_cons a) by lia. simpl.
  replace (Z.pred (b - a)) with (b - (a + 1)) by lia. done.
Qed.

Lemma segment_length l a b : a <= b -> length (segment l a b) = Z.to_nat (b - a).
Proof. intros. unfold segment. by rewrite length_fmap, length_seqZ. Qed.

(** Writing the slot of [b] leaves a segment that ends at [b] alone, as long
    as the segment is shorter than the array. *)
Lemma segment_store l a b h :
  b - a < qsize k -> segment (<[mask_index b (kMask k) := h]> l) a b = segment l a b.
Proof.
  intros. unfold segment. apply fmap_seqZ_ext. intros.
  apply slot_at_store_ne; lia.
Qed.

End Contents.

#[export] Hint Rewrite segment_nil : acnet.

(** ** Calls that run without interference *)

Section Sequential.
Context (k : nat).
Implicit Types q : WorkStealingQueue.

Lemma pop_result_nonnull ptr : ptr <> nullptr -> pop_result ptr = kSuccess.
Proof. intros. unfold pop_result. destruct (Z.eqb_spec ptr nullptr); done. Qed.

Lemma new_queue_wf : ws_wf k (new_queue k).
Proof.
  pose proof (pow2_pos k). split; simpl; unfold qsize; rewrite ?length_replicate; lia.
Qed.

Lemma push_room h q :
  ws_wf k q -> bottom_ q + 1 < 2 ^ 63 -> bottom_ q - top_ q < qsize k ->
  exists q', push k h q = Some (true, q') /\ ws_wf k q' /\
             contents k q' = contents k q ++ [h] /\ bottom_ q' = bottom_ q + 1.
Proof.
  intros [Hl Ht Hc Hm] Hb Hr. unfold push.
  rewrite (sub64_small (bottom_ q)) by lia.
  destruct (Z.leb_spec (qsize k) (bottom_ q - top_ q)); [lia|].
  rewrite slot_store by done. simpl. rewrite add64_small by lia.
  eexists. split; [done|]. split; [|split; [|done]].
  - split; simpl; rewrite ?length_insert; lia.
  - unfold contents. simpl. rewrite segment_snoc by lia.
    by rewrite segment_store, slot_at_store_eq by (done || lia).
Qed.

Lemma push_full h q :
  ws_wf k q -> bottom_ q - top_ q = qsize k -> push k h q = Some (false, q).
Proof.
  intros [Hl Ht Hc Hm] Hr. unfold push. rewrite (sub64_small (bottom_ q)) by lia.
  destruct (Z.leb_spec (qsize k) (bottom_ q - top_ q)); [done|lia].
Qed.

Lemma pop_empty q :
  ws_wf k q -> bottom_ q = top_ q -> pop k q = Some (kEmpty, nullptr, q).
Proof.
  intros [Hl Ht Hc Hm] He. unfold pop. simpl. rewrite He.
  rewrite s64_pred, (s64_small (top_ q)) by lia.
  destruct (Z.leb_spec (top_ q) (top_ q - 1)); [lia|].
  rewrite add64_sub64 by lia. destruct q; simpl in *; by subst.
Qed.

Lemma pop_nonempty q :
  ws_wf k q -> top_ q < bottom_ q ->
  exists q', pop k q = Some (pop_result (slot_at k (queue_ q) (bottom_ q - 1)),
                             slot_at k (queue_ q) (bottom_ q - 1), q') /\
             ws_wf k q' /\ bottom_ q' <= bottom_ q /\
             contents k q = contents k q' ++ [slot_at k (queue_ q) (bottom_ q - 1)].
Proof.
  intros [Hl Ht Hc Hm] Hn. unfold pop. simpl.
  rewrite s64_pred, (s64_small (top_ q)) by lia. rewrite sub64_pred by lia.
  destruct (Z.leb_spec (top_ q) (bottom_ q - 1)); [|lia].
  rewrite (slot_lookup k) by done. simpl.
  assert (Hsnoc : contents k q = segment k (queue_ q) (top_ q) (bottom_ q - 1)
                                 ++ [slot_at k (queue_ q) (bottom_ q - 1)]).
  { unfold contents. rewrite <- segment_snoc by lia. do 2 f_equal. lia. }
  destruct (Z.eqb_spec (top_ q) (bottom_ q - 1)) as [He|].
  - eexists. split; [done|]. rewrite !add64_small by lia. split.
    + split; simpl; lia.
    + split; [simpl; lia|]. rewrite Hsnoc. f_equal. unfold contents. simpl.
      by rewrite He, !segment_nil.
  - eexists. split; [done|]. split; [split; simpl; lia|]. split; [simpl; lia|].
    by rewrite Hsnoc.
Qed.

Lemma steal_empty q :
  ws_wf k q -> bottom_ q = top_ q -> steal k q = Some (kEmpty, nullptr, q).
Proof.
  intros [Hl Ht Hc Hm] He. unfold steal. rewrite He.
  destruct (Z.ltb_spec (s64 (top_ q)) (s64 (top_ q))); [lia|done].
Qed.

Lemma steal_nonempty q :
  ws_wf k q -> top_ q < bottom_ q ->
  exists q', steal k q = Some (kSuccess, slot_at k (queue_ q) (top_ q), q') /\
             ws_wf k q' /\ bottom_ q' = bottom_ q /\
             contents k q = slot_at k (queue_ q) (top_ q) :: contents k q'.
Proof.
  intros [Hl Ht Hc Hm] Hn. unfold steal. rewrite !s64_small by lia.
  destruct (Z.ltb_spec (top_ q) (bottom_ q)); [|lia].
  rewrite (slot_lookup k) by done. simpl. rewrite add64_small by lia.
  eexists. split; [done|]. split; [split; simpl; lia|]. split; [done|].
  unfold contents. simpl. by apply segment_cons.
Qed.

Lemma approx_size_exact q :
  ws_wf k q -> approx_size q = Some (Z.of_nat (length (contents k q))).
Proof.
  intros [Hl Ht Hc Hm]. unfold approx_size, contents.
  rewrite ssub64_small, segment_length by lia. simpl.
  destruct (Z.ltb_spec 0 (bottom_ q - top_ q)); rewrite ?u64_small by lia; f_equal; lia.
Qed.

End Sequential.

(** ** Refinement: a bounded double-ended list *)

Section Refinement.
Context (k : nat).

Inductive ws_op := OpPush (h : Z) | OpPop | OpSteal.

(** The contract: a list of at most [cap] handles, [push] and [pop] at its
    end, [steal] at its front. *)
Definition deque_exec (cap : Z) (op : ws_op) (d : list Z) : outcome * list Z :=
  match op with
  | OpPush h =>
      if Z.of_nat (length d) <? cap then (Pushed true, d ++ [h]) else (Pushed false, d)
  | OpPop =>
      match last d with
      | Some x => (Popped (pop_result x) x, take (length d - 1) d)
      | None => (Popped kEmpty nullptr, d)
      end
  | OpSteal =>
      match d with
      | x :: d' => (Popped kSuccess x, d')
      | [] => (Popped kEmpty nullptr, d)
      end
  end.

Fixpoint deque_run (cap : Z) (ops : list ws_op) (d : list Z) : list outcome * list Z :=
  match ops with
  | [] => ([], d)
  | op :: ops' =>
      let (o, d1) := deque_exec cap op d in
      let (os, d2) := deque_run cap ops' d1 in (o :: os, d2)
  end.

(** The same call on the deque of the code. *)
Definition ws_exec (op : ws_op) (q : WorkStealingQueue)
    : option (outcome * WorkStealingQueue) :=
  match op with
  | OpPush h => '(ok, q') ← push k h q; Some (Pushed ok, q')
  | OpPop => '(st, ptr, q') ← pop k q; Some (Popped st ptr, q')
  | OpSteal => '(st, ptr, q') ← steal k q; Some (Popped st ptr, q')
  end.

Fixpoint ws_run (ops : list ws_op) (q : WorkStealingQueue)
    : option (list outcome * WorkStealingQueue) :=
  match ops with
  | [] => Some ([], q)
  | op :: ops' =>
      '(o, q1) ← ws_exec op q;
      '(os, q2) ← ws_run ops' q1;
      Some (o :: os, q2)
  end.

Fixpoint pushes (ops : list ws_op) : Z :=
  match ops with
  | [] => 0
  | OpPush _ :: ops' => 1 + pushes ops'
  | _ :: ops' => pushes ops'
  end.

Lemma pushes_cons op ops : pushes (op :: ops) = pushes [op] + pushes ops.
Proof. destruct op; simpl; lia. Qed.

Lemma pushes_nonneg ops : 0 <= pushes ops.
Proof. induction ops as [|[] ? ?]; simpl; lia. Qed.

Lemma ws_exec_refines op q :
  ws_wf k q -> bottom_ q + pushes [op] < 2 ^ 63 ->
  exists o q', ws_exec op q = Some (o, q') /\ ws_wf k q' /\
    bottom_ q' <= bottom_ q + pushes [op] /\
    deque_exec (qsize k) op (contents k q) = (o, contents k q').
Proof.
  intros Hwf Hb. pose proof Hwf as [Hl Ht Hc Hm].
  destruct op as [h| |]; simpl in Hb |- *.
  - unfold contents at 1. rewrite segment_length by lia.
    destruct (Z.ltb_spec (Z.of_nat (Z.to_nat (bottom_ q - top_ q))) (qsize k)).
    + destruct (push_room k h q) as (q' & -> & Hw & Hcn & Hbt); try done; try lia.
      exists (Pushed true), q'. simpl. rewrite Hcn. repeat split_and; done || lia.
    + rewrite push_full by (done || lia). exists (Pushed false), q.
      repeat split_and; done || lia.
  - destruct (decide (bottom_ q = top_ q)) as [He|].
    + rewrite pop_empty by done. exists (Popped kEmpty nullptr), q. simpl.
      repeat split_and; try done; try lia. unfold contents. by rewrite He, segment_nil.
    + destruct (pop_nonempty k q) as (q' & -> & Hw & Hbt & Hcn); try done; try lia.
      eexists _, q'. simpl. repeat split_and; try done; try lia.
      rewrite Hcn, last_snoc, length_app. simpl.
      rewrite take_app_length' by lia. done.
  - destruct (decide (bottom_ q = top_ q)) as [He|].
    + rewrite steal_empty by done. exists (Popped kEmpty nullptr), q. simpl.
      repeat split_and; try done; try lia. unfold contents. by rewrite He, segment_nil.
    + destruct (steal_nonempty k q) as (q' & -> & Hw & Hbt & Hcn); try done; try lia.
      eexists _, q'. simpl. rewrite Hcn. repeat split_and; done || lia.
Qed.

Lemma ws_run_refines ops q :
  ws_wf k q -> bottom_ q + pushes ops < 2 ^ 63 ->
  exists os q', ws_run ops q = Some (os, q') /\ ws_wf k q' /\
    deque_run (qsize k) ops (contents k q) = (os, contents k q').
Proof.
  revert q. induction ops as [|op ops IH]; intros q Hwf Hb; simpl.
  { exists [], q. done. }
  rewrite pushes_cons in Hb. pose proof (pushes_nonneg ops).
  destruct (ws_exec_refines op q) as (o & q1 & -> & Hwf1 & Hb1 & ->); [done|lia|].
  simpl. destruct (IH q1) as (os & q2 & -> & Hwf2 & E2); [done|lia|]. simpl.
  rewrite E2. by exists (o :: os), q2.
Qed.

(** C27. Run from an empty deque of [2^k] slots, any sequence of [push], [pop]
    and [steal] calls with fewer than [2^63] pushes never leaves the array and
    returns exactly what a list of capacity [2^k] returns: [push] fails only
    when the list is full, [pop] gives the most recent handle and [steal] the
    oldest. *)
Theorem ws_refines_deque (ops : list ws_op) :
  pushes ops < 2 ^ 63 ->
  exists os q, ws_run ops (new_queue k) = Some (os, q) /\
    deque_run (qsize k) ops [] = (os, contents k q).
Proof.
  intros Hp. destruct (ws_run_refines ops (new_queue k)) as (os & q & E & _ & Ed).
  - apply new_queue_wf.
  - simpl. lia.
  - exists os, q. split; [done|]. rewrite <- Ed. unfold contents. simpl.
    by rewrite segment_nil.
Qed.

End Refinement.

(** [ws_refines_deque] on a run over a deque of four slots: the fifth push is
    refused, the owner pops the newest handle, a thief the oldest. *)
Lemma ws_refines_deque_witness :
  exists os q,
    ws_run 2 [OpPush 1; OpPush 2; OpPush 3; OpPush 4; OpPush 5; OpPop; OpSteal] (new_queue 2)
      = Some (os, q) /\
    os = [Pushed true; Pushed true; Pushed true; Pushed true; Pushed false;
          Popped kSuccess 4; Popped kSuccess 1] /\
    contents 2 q = [2; 3].
Proof.
  destruct (ws_refines_deque 2
    [OpPush 1; OpPush 2; OpPush 3; OpPush 4; OpPush 5; OpPop; OpSteal])
    as (os & q & E & D); [vm_compute; reflexivity|].
  exists os, q. split; [exact E|].
  split; symmetry; [exact (f_equal fst D) | exact (f_equal snd D)].
Defined.

(** ** The step machines run the direct definitions *)

Section Solo.
Context (k : nat).

(** A call executed access by access, nobody interfering. *)
Fixpoint owner_run (fuel : nat) (q : WorkStealingQueue) (pc : owner_pc)
    : option (outcome * WorkStealingQueue) :=
  match fuel with
  | O => None
  | S fuel' =>
      '(q', pc', o) ← owner_step k q pc;
      match o with Running => owner_run fuel' q' pc' | _ => Some (o, q') end
  end.

Fixpoint thief_run (fuel : nat) (q : WorkStealingQueue) (pc : thief_pc)
    : option (outcome * WorkStealingQueue) :=
  match fuel with
  | O => None
  | S fuel' =>
      '(q', pc', o) ← thief_step k q pc;
      match pc' with Some p => thief_run fuel' q' p | None => Some (o, q') end
  end.

(** Executed alone, the sequences of atomic accesses of [push], [pop] and
    [steal] finish within 4, 6 and 4 accesses and do what the direct
    definitions do, in every state of the deque, the undefined ones (an index
    outside the array) included. *)
Theorem ws_accesses_compose (q : WorkStealingQueue) (h : Z) :
  owner_run 4 q (PushLoadBottom h) = ws_exec k (OpPush h) q /\
  owner_run 6 q PopLoadBottom = ws_exec k OpPop q /\
  thief_run 4 q TLoadTop = ws_exec k OpSteal q.
Proof.
  split_and!; simpl.
  - unfold push. destruct (qsize k <=? _); [done|]. simpl.
    by destruct (array_store _ _ _).
  - unfold pop. simpl. destruct (s64 (top_ q) <=? _); [|done]. simpl.
    destruct (queue_ q !! _); [|done]. simpl.
    destruct (top_ q =? _); [|done]. simpl. by rewrite Z.eqb_refl.
  - unfold steal. simpl. destruct (s64 (top_ q) <? _); [|done]. simpl.
    destruct (queue_ q !! _); [|done]. simpl. by rewrite Z.eqb_refl.
Qed.

End Solo.

(** ** The signed comparison at [2^63]

    Two handles at indices [2^63-1] and [2^63]. *)

Definition boundary_queue : WorkStealingQueue :=
  mkWSQ (2 ^ 63 - 1) (2 ^ 63 + 1) [22; 11].

(** Once [top_] is [2^63-1] and [bottom_] has passed [2^63] the signed
    comparisons of [pop] and [steal] see an empty deque although it holds two
    handles: both calls return [kEmpty] and leave the deque as it was, so that
    no later call of either gets a handle out. *)
Theorem ws_signed_boundary :
  contents 1 boundary_queue = [11; 22] /\
  pop 1 boundary_queue = Some (kEmpty, nullptr, boundary_queue) /\
  steal 1 boundary_queue = Some (kEmpty, nullptr, boundary_queue).
Proof. split_and!; vm_compute; reflexivity. Qed.
