(* ===== verification/WorkStealingConc.v ===== *)
(** * The owner and the thieves of a deque, interleaved

    The invariant of [ws_step] and what it gives: no handle is lost, none is
    handed out twice, no access leaves the array. *)

From Stdlib Require Import ZArith Lia.
From stdpp Require Import base list list_numbers relations gmap.
From S2P Require Import Prelude WorkStealing.

Local Open Scope Z_scope.
Local Open Scope u64_scope.

Section Invariant.
Context (k : nat).
Implicit Types (q : WorkStealingQueue) (ow : owner_pc) (s : ws_state).

(** The end of the deque that the owner has not yet given up: between the
    provisional decrement of [bottom_] and the load of [top_] (and while the
    race for the last handle is undecided) the last handle still belongs to
    the deque. *)
Definition logical_bottom q ow : Z :=
  match ow with
  | PopLoadTop bt | PopCas bt _ _ | PopRestore bt _ => bt ⊕ 1
  | PopLoadSlot bt tp => if tp =? bt then bt ⊕ 1 else bt
  | _ => bottom_ q
  end.

(** A handle the owner has taken but not yet returned. *)
Definition in_flight q ow : list Z :=
  match ow with
  | PopLoadSlot bt tp => if tp =? bt then [] else [slot_at k (queue_ q) bt]
  | PopRestore _ ptr => if ptr =? nullptr then [] else [ptr]
  | _ => []
  end.

Definition remaining q ow : list Z :=
  segment k (queue_ q) (top_ q) (logical_bottom q ow).

Definition owner_ok q ow : Prop :=
  match ow with
  | OIdle | PopLoadBottom => True
  | PushLoadBottom h => h <> nullptr
  | PushLoadTop h bt => h <> nullptr /\ bt = bottom_ q
  | PushStoreSlot h bt => h <> nullptr /\ bt = bottom_ q /\ bt - top_ q < qsize k
  | PushStoreBottom h bt =>
      h <> nullptr /\ bt = bottom_ q /\ bt - top_ q < qsize k /\
      slot_at k (queue_ q) bt = h
  | PopStoreBottom bt => bt = bottom_ q ⊖ 1
  | PopLoadTop bt => bottom_ q = bt /\ bt = logical_bottom q ow ⊖ 1
  | PopLoadSlot bt tp => bottom_ q = bt /\ 0 <= tp <= bt /\ tp <= top_ q
  | PopCas bt tp ptr =>
      bottom_ q = bt /\ 0 <= tp /\ tp = bt /\ tp <= top_ q /\
      ptr = slot_at k (queue_ q) bt
  | PopRestore bt ptr =>
      bottom_ q = bt /\ bt = logical_bottom q ow ⊖ 1 /\ top_ q = logical_bottom q ow
  end.

(** A thief whose [tp] is still the top may win its compare-exchange: then the
    handle at the top belongs to the deque and is the one it read. *)
Definition thief_ok (l : list Z) (top lb : Z) (pc : thief_pc) : Prop :=
  match pc with
  | TLoadTop => True
  | TLoadBottom tp => 0 <= tp <= top
  | TLoadSlot tp => 0 <= tp <= top /\ (tp = top -> top < lb)
  | TCas tp ptr =>
      0 <= tp <= top /\ (tp = top -> top < lb /\ ptr = slot_at k l top)
  end.

Record ws_inv s : Prop := {
  inv_len : length (queue_ (shared s)) = Z.to_nat (qsize k);
  inv_top : 0 <= top_ (shared s) <= logical_bottom (shared s) (owner s);
  inv_cap : logical_bottom (shared s) (owner s) - top_ (shared s) <= qsize k;
  inv_count : logical_bottom (shared s) (owner s) <= Z.of_nat (length (pushed s));
  inv_owner : owner_ok (shared s) (owner s);
  inv_thieves :
    map_Forall (fun _ => thief_ok (queue_ (shared s)) (top_ (shared s))
                           (logical_bottom (shared s) (owner s))) (thieves s);
  inv_nonnull : Forall (fun h => h <> nullptr) (pushed s);
  inv_perm : pushed s ≡ₚ taken s ++ in_flight (shared s) (owner s)
                                 ++ remaining (shared s) (owner s)
}.

(** What a thief relies on survives any change that keeps the handle at the
    top in place. *)
Lemma thief_ok_mono l l' top top' lb lb' pc :
  top <= top' ->
  (top' = top -> top < lb -> top < lb' /\ slot_at k l' top = slot_at k l top) ->
  thief_ok l top lb pc -> thief_ok l' top' lb' pc.
Proof.
  intros Ht Hs. destruct pc as [|tp|tp|tp ptr]; simpl; [done|lia|lia|].
  intros [Hr H]. split; [lia|]. intros ->.
  assert (top' = top) as -> by lia. destruct (H eq_refl) as [Hlt ->].
  destruct (Hs eq_refl Hlt) as [? E]. by rewrite E.
Qed.

Lemma thieves_ok_mono l l' top top' lb lb' (th : gmap nat thief_pc) :
  top <= top' ->
  (top' = top -> top < lb -> top < lb' /\ slot_at k l' top = slot_at k l top) ->
  map_Forall (fun _ => thief_ok l top lb) th ->
  map_Forall (fun _ => thief_ok l' top' lb') th.
Proof.
  intros Ht Hs H. eapply map_Forall_impl; [exact H|].
  intros t pc Hpc. by eapply thief_ok_mono.
Qed.

(** A handle of the deque is one that was pushed, hence not null. *)
Lemma slot_nonnull l a b i pu rest :
  Forall (fun h => h <> nullptr) pu -> pu ≡ₚ rest ++ segment k l a b ->
  a <= i < b -> slot_at k l i <> nullptr.
Proof.
  intros Hn Hp Hi. rewrite Hp in Hn. apply Forall_app in Hn as [_ Hn].
  rewrite Forall_forall in Hn. apply Hn. unfold segment.
  apply list_elem_of_fmap. exists i. split; [done|].
  apply elem_of_seqZ. lia.
Qed.

(** ** Preservation *)

(** A step of the owner that only changes its locals. *)
Lemma inv_local q ow ow' th pu ta :
  ws_inv (mkWS q ow th pu ta) ->
  logical_bottom q ow' = logical_bottom q ow ->
  in_flight q ow' = in_flight q ow -> owner_ok q ow' ->
  ws_inv (mkWS q ow' th pu ta).
Proof.
  intros [] Hlb Hfl Hok. split; simpl in *; unfold remaining in *;
    rewrite ?Hlb, ?Hfl; done.
Qed.

Lemma inv_push_store_slot q th pu ta h bt :
  ws_inv (mkWS q (PushStoreSlot h bt) th pu ta) ->
  ws_inv (mkWS (set_queue q (<[mask_index bt (kMask k) := h]> (queue_ q)))
               (PushStoreBottom h bt) th pu ta).
Proof.
  intros [Hl Ht Hc Hn Ho Hth Hnn Hp]; simpl in *. destruct Ho as (Hh & -> & Hr).
  split; simpl; try done; unfold remaining in *; simpl in *.
  - by rewrite length_insert.
  - by rewrite slot_at_store_eq.
  - eapply thieves_ok_mono; [| |exact Hth]; [lia|]. intros _ Hlt.
    split; [done|]. apply slot_at_store_ne; lia.
  - by rewrite segment_store.
Qed.

Lemma inv_push_store_bottom q th pu ta h bt :
  Z.of_nat (length (pu ++ [h])) < 2 ^ 63 ->
  ws_inv (mkWS q (PushStoreBottom h bt) th pu ta) ->
  ws_inv (mkWS (set_bottom q (bt ⊕ 1)) OIdle th (pu ++ [h]) ta).
Proof.
  intros Hb [Hl Ht Hc Hn Ho Hth Hnn Hp]; simpl in *. destruct Ho as (Hh & -> & Hr & Hs).
  rewrite length_app in Hb. simpl in Hb.
  split; simpl; unfold remaining in *; simpl in *; rewrite ?length_app; simpl;
    rewrite ?add64_small by lia; try lia; try done.
  - eapply thieves_ok_mono; [| |exact Hth]; [lia|]. intros. split; [lia|done].
  - apply Forall_app. by split; [|apply Forall_singleton].
  - rewrite segment_snoc by lia. rewrite Hs, Hp. by rewrite (assoc_L (++)).
Qed.

Lemma inv_pop_store_bottom q th pu ta bt :
  Z.of_nat (length pu) < 2 ^ 63 ->
  ws_inv (mkWS q (PopStoreBottom bt) th pu ta) ->
  ws_inv (mkWS (set_bottom q bt) (PopLoadTop bt) th pu ta).
Proof.
  intros Hb [Hl Ht Hc Hn Ho Hth Hnn Hp]; simpl in *. subst bt.
  assert (E : bottom_ q ⊖ 1 ⊕ 1 = bottom_ q) by (apply add64_sub64; lia).
  split; simpl; unfold remaining in *; simpl in *; rewrite ?E; done.
Qed.

Lemma inv_pop_load_top q th pu ta bt :
  Z.of_nat (length pu) < 2 ^ 63 ->
  ws_inv (mkWS q (PopLoadTop bt) th pu ta) ->
  ws_inv (mkWS q (if s64 (top_ q) <=? s64 bt then PopLoadSlot bt (top_ q)
                  else PopRestore bt nullptr) th pu ta).
Proof.
  intros Hb Hi. pose proof Hi as [Hl Ht Hc Hn [Hbt Ho] Hth Hnn Hp]; simpl in *.
  set (lb := bt ⊕ 1) in *.
  rewrite (s64_small (top_ q)) by lia. rewrite Ho, s64_pred by lia.
  destruct (Z.leb_spec (top_ q) (lb - 1)).
  - rewrite sub64_pred in Ho |- * by lia. rewrite <- Ho in *.
    assert (Elb : lb = bt + 1) by lia.
    destruct (Z.eq_dec (top_ q) bt) as [He|Hne].
    + apply (inv_local _ _ _ _ _ _ Hi); simpl; rewrite ?He, ?Z.eqb_refl; try done.
      split_and!; lia.
    + split; simpl; unfold remaining in *; simpl in *;
        destruct (Z.eqb_spec (top_ q) bt); try done; try lia.
      * eapply thieves_ok_mono; [| |exact Hth]; [lia|]. intros. split; [lia|done].
      * rewrite Hp. fold lb. rewrite Elb, segment_snoc by lia. f_equiv.
        by rewrite Permutation_app_comm.
  - rewrite <- Ho. apply (inv_local _ _ _ _ _ _ Hi); try done. simpl. fold lb.
    split_and!; [done|done|lia].
Qed.

(** The owner returns the handle it had taken below the race. *)
Lemma inv_pop_load_slot_take q th pu ta bt tp :
  tp <> bt -> Z.of_nat (length pu) < 2 ^ 63 ->
  ws_inv (mkWS q (PopLoadSlot bt tp) th pu ta) ->
  pop_result (slot_at k (queue_ q) bt) = kSuccess /\
  ws_inv (mkWS q OIdle th pu (ta ++ [slot_at k (queue_ q) bt])).
Proof.
  intros Hne Hb [Hl Ht Hc Hn Ho Hth Hnn Hp]; simpl in *. unfold remaining in *.
  simpl in *. destruct (Z.eqb_spec tp bt); [done|]. destruct Ho as (Hbt & Hr & Htp).
  split.
  - apply pop_result_nonnull. rewrite Hp in Hnn.
    apply Forall_app in Hnn as [_ Hnn]. by inversion Hnn.
  - split; simpl; rewrite ?Hbt; try done. unfold remaining. simpl. rewrite Hp, Hbt.
    by rewrite <- (assoc_L (++)).
Qed.

(** The owner loads the last handle and goes on to race for it. *)
Lemma inv_pop_load_slot_last q th pu ta bt :
  ws_inv (mkWS q (PopLoadSlot bt bt) th pu ta) ->
  ws_inv (mkWS q (PopCas bt bt (slot_at k (queue_ q) bt)) th pu ta).
Proof.
  intros Hi. pose proof (inv_owner _ Hi) as (Hbt & Hr & Htp).
  apply (inv_local _ _ _ _ _ _ Hi); simpl; rewrite ?Z.eqb_refl; try done.
  split_and!; (done || lia).
Qed.

Lemma inv_pop_cas_win q th pu ta bt ptr :
  Z.of_nat (length pu) < 2 ^ 63 -> top_ q = bt ->
  ws_inv (mkWS q (PopCas bt bt ptr) th pu ta) ->
  ws_inv (mkWS (set_top q (bt ⊕ 1)) (PopRestore bt ptr) th pu ta).
Proof.
  intros Hb He [Hl Ht Hc Hn Ho Hth Hnn Hp]; simpl in *. unfold remaining in *.
  simpl in *. destruct Ho as (Hbt & Hr & _ & Htp & ->). subst bt.
  assert (E : top_ q ⊕ 1 = top_ q + 1) by (apply add64_small; lia).
  rewrite E in *.
  assert (Hs : slot_at k (queue_ q) (top_ q) <> nullptr).
  { eapply slot_nonnull; [done|exact Hp|lia]. }
  split; simpl; unfold remaining; simpl; rewrite ?E; try done; try lia.
  - rewrite sub64_pred by lia. lia.
  - eapply thieves_ok_mono; [| |exact Hth]; lia.
  - destruct (Z.eqb_spec (slot_at k (queue_ q) (top_ q)) nullptr); [done|].
    rewrite Hp, segment_nil. f_equiv. by rewrite segment_cons, segment_nil by lia.
Qed.

Lemma inv_pop_cas_lose q th pu ta bt ptr :
  Z.of_nat (length pu) < 2 ^ 63 -> top_ q <> bt ->
  ws_inv (mkWS q (PopCas bt bt ptr) th pu ta) ->
  ws_inv (mkWS q (PopRestore bt nullptr) th pu ta).
Proof.
  intros Hb He Hi. pose proof Hi as [Hl Ht Hc Hn Ho Hth Hnn Hp]; simpl in *.
  destruct Ho as (Hbt & Hr & _ & Htp & ->).
  apply (inv_local _ _ _ _ _ _ Hi); try done. simpl.
  assert (E : bt ⊕ 1 = bt + 1) by (apply add64_small; lia).
  rewrite E in *. split_and!; [done| |lia]. rewrite sub64_pred; lia.
Qed.

Lemma inv_pop_restore q th pu ta bt ptr :
  Z.of_nat (length pu) < 2 ^ 63 ->
  ws_inv (mkWS q (PopRestore bt ptr) th pu ta) ->
  ws_inv (mkWS (set_bottom q (bt ⊕ 1)) OIdle th pu
               (ta ++ record_taken (Popped (pop_result ptr) ptr))).
Proof.
  intros Hb [Hl Ht Hc Hn Ho Hth Hnn Hp]; simpl in *. unfold remaining in *.
  simpl in *. split; simpl; try done. unfold remaining. simpl. rewrite Hp.
  unfold pop_result. destruct (Z.eqb_spec ptr nullptr); simpl.
  - by rewrite app_nil_r.
  - by rewrite <- (assoc_L (++)).
Qed.

Lemma inv_owner_step q ow th pu ta q' ow' o :
  Z.of_nat (length (pu ++ record_pushed ow o)) < 2 ^ 63 ->
  ws_inv (mkWS q ow th pu ta) -> owner_step k q ow = Some (q', ow', o) ->
  ws_inv (mkWS q' ow' th (pu ++ record_pushed ow o) (ta ++ record_taken o)).
Proof.
  intros Hb Hi Hs. pose proof Hi as [Hl Ht Hc Hn Ho Hth Hnn Hp]; simpl in *.
  assert (Hpu : Z.of_nat (length pu) < 2 ^ 63) by (rewrite length_app in Hb; lia).
  destruct ow as [|h|h bt|h bt|h bt| |bt|bt|bt tp|bt tp ptr|bt ptr]; simpl in *;
    try (simplify_eq; rewrite ?app_nil_r).
  - apply (inv_local _ _ _ _ _ _ Hi); done.
  - rewrite sub64_small in Hs by lia.
    destruct (Z.leb_spec (qsize k) (bt - top_ q)); simplify_eq; simpl; rewrite ?app_nil_r;
      apply (inv_local _ _ _ _ _ _ Hi); simpl; try done. split_and!; done || lia.
  - rewrite slot_store in Hs by done. simplify_eq/=. rewrite ?app_nil_r.
    by apply inv_push_store_slot.
  - by apply inv_push_store_bottom.
  - apply (inv_local _ _ _ _ _ _ Hi); done.
  - by apply inv_pop_store_bottom.
  - pose proof (inv_pop_load_top _ _ _ _ _ Hpu Hi) as Hn'.
    destruct (s64 (top_ q) <=? s64 bt); simplify_eq; simpl; by rewrite ?app_nil_r.
  - rewrite (slot_lookup k) in Hs by done. simpl in Hs.
    destruct (Z.eqb_spec tp bt) as [->|Hne]; simplify_eq; simpl; rewrite ?app_nil_r.
    + by apply inv_pop_load_slot_last.
    + destruct (inv_pop_load_slot_take _ _ _ _ _ _ Hne Hpu Hi) as [-> ?]. done.
  - destruct Ho as (? & ? & -> & ?).
    destruct (Z.eqb_spec (top_ q) bt); simplify_eq; simpl; rewrite ?app_nil_r.
    + by apply inv_pop_cas_win.
    + by eapply inv_pop_cas_lose.
  - by apply inv_pop_restore.
Qed.

(** The published [bottom_], read as a signed number, is never beyond the
    logical end of the deque. *)
Lemma bottom_le_logical q ow th pu ta :
  Z.of_nat (length pu) < 2 ^ 63 -> ws_inv (mkWS q ow th pu ta) ->
  s64 (bottom_ q) <= logical_bottom q ow.
Proof.
  intros Hb [Hl Ht Hc Hn Ho Hth Hnn Hp]; simpl in *.
  destruct ow as [|h|h bt|h bt|h bt| |bt|bt|bt tp|bt tp ptr|bt ptr]; simpl in *;
    try (rewrite s64_small; lia).
  - destruct Ho as [-> Ho]. set (lb := bt ⊕ 1) in *. rewrite Ho, s64_pred; lia.
  - destruct Ho as (-> & ? & ?). destruct (Z.eqb_spec tp bt).
    + rewrite s64_small by lia. rewrite add64_small in *; lia.
    + rewrite s64_small; lia.
  - destruct Ho as (-> & Ho & ?). set (lb := bt ⊕ 1) in *. rewrite Ho, s64_pred; lia.
Qed.

(** The owner's assertions survive the removal of the oldest handle. *)
Lemma owner_ok_top q ow :
  top_ q < logical_bottom q ow -> owner_ok q ow -> owner_ok (set_top q (top_ q + 1)) ow.
Proof. destruct ow; simpl; intros; intuition (done || lia). Qed.

Lemma inv_steal q ow th pu ta t ptr :
  Z.of_nat (length pu) < 2 ^ 63 ->
  ws_inv (mkWS q ow th pu ta) -> th !! t = Some (TCas (top_ q) ptr) ->
  ws_inv (mkWS (set_top q (top_ q ⊕ 1)) ow (delete t th) pu (ta ++ [ptr])).
Proof.
  intros Hb [Hl Ht Hc Hn Ho Hth Hnn Hp] Hpc; simpl in *.
  destruct (Hth _ _ Hpc) as [Hr Hcas]. destruct (Hcas eq_refl) as [Hlt ->].
  rewrite add64_small by lia.
  assert (Elb : logical_bottom (set_top q (top_ q + 1)) ow = logical_bottom q ow)
    by by destruct ow.
  assert (Efl : in_flight (set_top q (top_ q + 1)) ow = in_flight q ow) by by destruct ow.
  pose proof (owner_ok_top _ _ Hlt Ho). split; simpl; rewrite ?Elb; try done; try lia.
  - apply map_Forall_delete. eapply thieves_ok_mono; [| |exact Hth]; lia.
  - rewrite Hp, Efl. unfold remaining. rewrite Elb. simpl. rewrite segment_cons by done.
    rewrite <- (assoc_L (++)). f_equiv. by rewrite <- Permutation_middle.
Qed.

(** A step of a thief that changes its locals only, or returns empty-handed. *)
Lemma inv_thief_local q ow th pu ta t pc' :
  ws_inv (mkWS q ow th pu ta) ->
  (forall pc, pc' = Some pc -> thief_ok (queue_ q) (top_ q) (logical_bottom q ow) pc) ->
  ws_inv (mkWS q ow (update_thief th t pc') pu (ta ++ [])).
Proof.
  intros [Hl Ht Hc Hn Ho Hth Hnn Hp] Hpc; simpl in *. rewrite app_nil_r.
  split; simpl; try done. destruct pc' as [pc|]; simpl.
  - apply map_Forall_insert_2; [by apply Hpc|done].
  - by apply map_Forall_delete.
Qed.

Lemma inv_thief_step q ow th pu ta t pc q' pc' o :
  Z.of_nat (length pu) < 2 ^ 63 ->
  ws_inv (mkWS q ow th pu ta) -> th !! t = Some pc ->
  thief_step k q pc = Some (q', pc', o) ->
  ws_inv (mkWS q' ow (update_thief th t pc') pu (ta ++ record_taken o)).
Proof.
  intros Hb Hi Hpc Hs. pose proof Hi as [Hl Ht Hc Hn Ho Hth Hnn Hp]; simpl in *.
  pose proof (Hth _ _ Hpc) as Hok. destruct pc as [|tp|tp|tp ptr]; simpl in Hs, Hok.
  - simplify_eq/=. apply (inv_thief_local _ _ _ _ _ t (Some _) Hi). intros. simplify_eq. simpl. lia.
  - pose proof (bottom_le_logical _ _ _ _ _ Hb Hi) as Hbl.
    rewrite (s64_small tp) in Hs by lia.
    destruct (Z.ltb_spec tp (s64 (bottom_ q))); simplify_eq/=.
    + apply (inv_thief_local _ _ _ _ _ t (Some _) Hi). intros. simplify_eq. simpl. lia.
    + by apply (inv_thief_local _ _ _ _ _ t None Hi).
  - rewrite (slot_lookup k) in Hs by done. simplify_eq/=.
    apply (inv_thief_local _ _ _ _ _ t (Some _) Hi). intros. simplify_eq. simpl.
    split; [lia|]. intros ->. split; [lia|done].
  - destruct (Z.eqb_spec (top_ q) tp) as [<-|]; simplify_eq/=.
    + by apply inv_steal.
    + by apply (inv_thief_local _ _ _ _ _ t None Hi).
Qed.

(** A [pop] that returns [kEmpty] leaves an empty deque. *)
Lemma inv_pop_empty s q' ow' ptr :
  ws_inv s -> Z.of_nat (length (pushed s)) < 2 ^ 63 ->
  owner_step k (shared s) (owner s) = Some (q', ow', Popped kEmpty ptr) ->
  remaining (shared s) (owner s) = [] /\ in_flight (shared s) (owner s) = [] /\
  top_ (shared s) = logical_bottom (shared s) (owner s) /\ ow' = OIdle /\
  top_ q' = bottom_ q' /\ ptr = nullptr.
Proof.
  intros Hi Hb Hs.
  destruct s as [q ow th pu ta]; simpl in *.
  destruct ow as [|h|h bt|h bt|h bt| |bt|bt|bt tp|bt tp p|bt p]; simpl in Hs; try done.
  - by destruct_if.
  - destruct (array_store _ _ _); done.
  - by destruct_if.
  - rewrite (slot_lookup k) in Hs by apply Hi. simpl in Hs.
    destruct (Z.eqb_spec tp bt) as [|Hne]; [done|].
    destruct (inv_pop_load_slot_take _ _ _ _ _ _ Hne Hb Hi) as [E _]. congruence.
  - by destruct_if.
  - destruct (inv_owner _ Hi) as (_ & _ & Ht). simpl in Ht. unfold remaining. simpl.
    rewrite Ht, segment_nil. unfold pop_result in Hs.
    destruct (Z.eqb_spec p nullptr); [|done]. simplify_eq/=. done.
Qed.

(** No access of the owner or of a thief leaves the array. *)
Lemma inv_accesses_defined s :
  ws_inv s ->
  (owner s <> OIdle -> is_Some (owner_step k (shared s) (owner s))) /\
  (forall t pc, thieves s !! t = Some pc -> is_Some (thief_step k (shared s) pc)).
Proof.
  intros Hi. pose proof (inv_len _ Hi) as Hl. split.
  - intros Hne. destruct (owner s); simpl; try done; try destruct_if; try done;
      rewrite ?slot_store, ?(slot_lookup k) by done; simpl; try destruct_if; done.
  - intros t pc _. destruct pc; simpl; try destruct_if; try done.
    by rewrite (slot_lookup k).
Qed.

(** The published [bottom_] is at most one below the logical end. *)
Lemma bottom_ge_logical q ow th pu ta :
  Z.of_nat (length pu) < 2 ^ 63 -> ws_inv (mkWS q ow th pu ta) ->
  -1 <= s64 (bottom_ q).
Proof.
  intros Hb [Hl Ht Hc Hn Ho Hth Hnn Hp]; simpl in *.
  destruct ow as [|h|h bt|h bt|h bt| |bt|bt|bt tp|bt tp ptr|bt ptr]; simpl in *;
    try (rewrite s64_small; lia).
  - destruct Ho as [-> Ho]. set (lb := bt ⊕ 1) in *. rewrite Ho, s64_pred; lia.
  - destruct Ho as (-> & ? & ?). destruct (Z.eqb_spec tp bt).
    + rewrite s64_small by lia. lia.
    + rewrite s64_small; lia.
  - destruct Ho as (-> & Ho & ?). set (lb := bt ⊕ 1) in *. rewrite Ho, s64_pred; lia.
Qed.

Lemma inv_init s : ws_init k s -> ws_inv s.
Proof.
  intros ->. pose proof (pow2_pos k).
  split; simpl; rewrite ?length_replicate; try done; try lia.
  all: unfold qsize, remaining; simpl; rewrite ?segment_nil; try done; lia.
Qed.

(** The history only grows, so a bound on it holds for all earlier states. *)
Lemma ws_step_inv s s' :
  Z.of_nat (length (pushed s')) < 2 ^ 63 -> ws_inv s -> ws_step k s s' -> ws_inv s'.
Proof.
  intros Hb Hi Hs. destruct Hs; simpl in *.
  - apply (inv_local _ _ _ _ _ _ Hi); done.
  - apply (inv_local _ _ _ _ _ _ Hi); done.
  - rewrite <- (app_nil_r ta). apply (inv_thief_local _ _ _ _ _ t (Some _) Hi).
    intros. by simplify_eq.
  - by eapply inv_owner_step.
  - by eapply inv_thief_step.
Qed.

Lemma ws_step_pushed s s' :
  ws_step k s s' -> (length (pushed s) <= length (pushed s'))%nat.
Proof. destruct 1; simpl; rewrite ?length_app; lia. Qed.

Lemma ws_reachable_inv s :
  reachable (ws_init k) (ws_step k) s -> Z.of_nat (length (pushed s)) < 2 ^ 63 -> ws_inv s.
Proof.
  intros Hr. pattern s. revert s Hr. apply reachable_ind; [by intros; apply inv_init|].
  intros s s' _ IH Hs Hb. eapply ws_step_inv; [done| |done]. apply IH.
  pose proof (ws_step_pushed _ _ Hs). lia.
Qed.

End Invariant.

(** ** Executable schedules *)

Section Schedules.
Context (k : nat).

Inductive ws_choice := CallPush (h : Z) | CallPop | CallSteal (t : nat) | OwnerGo | ThiefGo (t : nat).

Definition ws_act (c : ws_choice) (s : ws_state) : option ws_state :=
  let 'mkWS q ow th pu ta := s in
  match c with
  | CallPush h =>
      if ow is OIdle then
        if h =? nullptr then None else Some (mkWS q (PushLoadBottom h) th pu ta)
      else None
  | CallPop => if ow is OIdle then Some (mkWS q PopLoadBottom th pu ta) else None
  | CallSteal t =>
      if th !! t is None then Some (mkWS q ow (<[t := TLoadTop]> th) pu ta) else None
  | OwnerGo =>
      '(q', ow', o) ← owner_step k q ow;
      Some (mkWS q' ow' th (pu ++ record_pushed ow o) (ta ++ record_taken o))
  | ThiefGo t =>
      pc ← th !! t;
      '(q', pc', o) ← thief_step k q pc;
      Some (mkWS q' ow (update_thief th t pc') pu (ta ++ record_taken o))
  end.

Lemma ws_act_step c s s' : ws_act c s = Some s' -> ws_step k s s'.
Proof.
  destruct s as [q ow th pu ta], c as [h| |t| |t]; simpl; intros H.
  - destruct ow; try done. destruct (Z.eqb_spec h nullptr); simplify_eq. by constructor.
  - destruct ow; simplify_eq. constructor.
  - destruct (th !! t) eqn:?; simplify_eq. by constructor.
  - destruct (owner_step k q ow) as [[[q' ow'] o]|] eqn:?; simplify_eq/=. by constructor.
  - destruct (th !! t) as [pc|] eqn:?; [|done]. simpl in H.
    destruct (thief_step k q pc) as [[[q' pc'] o]|] eqn:?; simplify_eq/=.
    by econstructor.
Qed.

Lemma ws_schedule_reachable cs s :
  run_schedule ws_act cs (mkWS (new_queue k) OIdle ∅ [] []) = Some s ->
  reachable (ws_init k) (ws_step k) s.
Proof.
  apply (run_schedule_reachable _ _ _ ws_act_step).
  by apply reachable_init.
Qed.

End Schedules.

(** ** The theorems *)

(** In every interleaving of one owner (pushing and popping) with any
    number of thieves, as long as fewer than [2^63] handles were pushed, the
    handles pushed so far are, with multiplicity, exactly the ones already
    returned by [pop] and [steal], the one the owner is about to return and
    the ones still in the deque: none is lost and none is handed out twice. *)
Theorem ws_exactly_once (k : nat) (s : ws_state) :
  reachable (ws_init k) (ws_step k) s ->
  Z.of_nat (length (pushed s)) < 2 ^ 63 ->
  pushed s ≡ₚ taken s ++ in_flight k (shared s) (owner s)
                      ++ remaining k (shared s) (owner s).
Proof. intros Hr Hb. by apply inv_perm, ws_reachable_inv. Qed.

(** The owner pops the last handle while thief 0 steals it: the thief's
    compare-exchange comes first, the owner finds the deque empty. *)
Definition race_schedule : list ws_choice :=
  [CallPush 7; OwnerGo; OwnerGo; OwnerGo; OwnerGo;
   CallSteal 0; ThiefGo 0; ThiefGo 0; ThiefGo 0;
   CallPop; OwnerGo; OwnerGo; OwnerGo; OwnerGo; ThiefGo 0; OwnerGo; OwnerGo].

Lemma ws_exactly_once_witness :
  exists s, run_schedule (ws_act 2) race_schedule (mkWS (new_queue 2) OIdle ∅ [] []) = Some s /\
    pushed s = [7] /\ taken s = [7] /\
    pushed s ≡ₚ taken s ++ in_flight 2 (shared s) (owner s) ++ remaining 2 (shared s) (owner s).
Proof.
  eexists. split; [vm_compute; reflexivity|]. split; [reflexivity|]. split; [reflexivity|].
  apply ws_exactly_once; [|reflexivity].
  apply (ws_schedule_reachable 2 race_schedule). vm_compute. reflexivity.
Defined.

(** No access of any thread is undefined: in every reachable state each
    thread that is inside a call can take its next step (no index leaves the
    array). *)
Theorem ws_accesses_defined (k : nat) (s : ws_state) :
  reachable (ws_init k) (ws_step k) s ->
  Z.of_nat (length (pushed s)) < 2 ^ 63 ->
  (owner s <> OIdle -> is_Some (owner_step k (shared s) (owner s))) /\
  (forall t pc, thieves s !! t = Some pc -> is_Some (thief_step k (shared s) pc)).
Proof.
  intros Hr Hb. apply inv_accesses_defined. by apply ws_reachable_inv.
Qed.

Lemma ws_accesses_defined_witness :
  exists s, run_schedule (ws_act 2) (take 9 race_schedule) (mkWS (new_queue 2) OIdle ∅ [] []) = Some s /\
    thieves s !! 0%nat = Some (TCas 0 7) /\ is_Some (thief_step 2 (shared s) (TCas 0 7)).
Proof.
  eexists. split; [vm_compute; reflexivity|]. split; [reflexivity|].
  apply (proj2 (ws_accesses_defined 2 _
    (ws_schedule_reachable 2 (take 9 race_schedule) _ ltac:(vm_compute; reflexivity))
    ltac:(reflexivity)) 0%nat). reflexivity.
Defined.

(** [pop] reports [kEmpty] only when the deque really is empty: at the
    access that returns it no handle remains and the owner holds none. *)
Theorem ws_pop_empty (k : nat) (s : ws_state) q' ow' ptr :
  reachable (ws_init k) (ws_step k) s ->
  Z.of_nat (length (pushed s)) < 2 ^ 63 ->
  owner_step k (shared s) (owner s) = Some (q', ow', Popped kEmpty ptr) ->
  remaining k (shared s) (owner s) = [] /\ in_flight k (shared s) (owner s) = [].
Proof.
  intros Hr Hb Hs. by destruct (inv_pop_empty _ _ _ _ _ (ws_reachable_inv _ _ Hr Hb) Hb Hs) as (? & ? & _).
Qed.

Lemma ws_pop_empty_witness :
  exists s q' ow' ptr,
    run_schedule (ws_act 2) (take 16 race_schedule) (mkWS (new_queue 2) OIdle ∅ [] []) = Some s /\
    owner_step 2 (shared s) (owner s) = Some (q', ow', Popped kEmpty ptr) /\
    remaining 2 (shared s) (owner s) = [] /\ in_flight 2 (shared s) (owner s) = [].
Proof.
  eexists _, _, _, _. split; [vm_compute; reflexivity|]. split; [vm_compute; reflexivity|].
  eapply (ws_pop_empty 2); [|reflexivity|vm_compute; reflexivity].
  apply (ws_schedule_reachable 2 (take 16 race_schedule)). vm_compute. reflexivity.
Defined.
