(* ===== verification/SpscQueue.v ===== *)
(** * The single-producer single-consumer ring (include/queue.h, [SPSCQueue])

    Free-running 64-bit indices, masked on use; one slot always stays unused.
    The capacity [2^k] divides [2^64], so the ring is correct across the wrap
    around of its indices and its [BoundedFifo] budget never runs out. *)

From Stdlib Require Import ZArith Lia.
From stdpp Require Import base list list_numbers.
From S2P Require Import Prelude Fifo.

Local Open Scope Z_scope.
Local Open Scope u64_scope.

Module Spsc.

Record SPSCQueue (T : Type) := mkSPSC {
  write_index_ : Z;
  read_index_ : Z;
  queue_ : list T
}.
Arguments mkSPSC {T} _ _ _.
Arguments write_index_ {T} _.
Arguments read_index_ {T} _.
Arguments queue_ {T} _.

Section Operations.
Context {T : Type} `{!Inhabited T} (k : nat).
Implicit Types q : SPSCQueue T.

Definition kMask : Z := 2 ^ Z.of_nat k - 1.

Definition try_enqueue (item : T) q : option (bool * SPSCQueue T) :=
  let tail := write_index_ q in
  let front := read_index_ q in
  if Z.land (tail ⊕ 1) kMask =? Z.land front kMask then Some (false, q)
  else
    l ← array_store (queue_ q) (mask_index tail kMask) item;
    Some (true, mkSPSC (tail ⊕ 1) front l).

Definition try_dequeue q : option (option T * SPSCQueue T) :=
  let front := read_index_ q in
  let tail := write_index_ q in
  if front =? tail then Some (None, q)
  else
    item ← queue_ q !! mask_index front kMask;
    Some (Some item, mkSPSC tail (front ⊕ 1) (queue_ q)).

(** ** Invariant and contents *)

Definition count q : Z := write_index_ q ⊖ read_index_ q.

Definition items q : list T :=
  (fun i => queue_ q !!! mask_index (read_index_ q + i) kMask) <$> seqZ 0 (count q).

Record spsc_wf q : Prop := {
  spsc_len : length (queue_ q) = Z.to_nat (2 ^ Z.of_nat k);
  spsc_w : 0 <= write_index_ q < 2 ^ 64;
  spsc_r : 0 <= read_index_ q < 2 ^ 64;
  spsc_count : count q < 2 ^ Z.of_nat k
}.

End Operations.

Section Proofs.
Context {T : Type} `{!Inhabited T} (k : nat) (Hk : (k <= 64)%nat).
Implicit Types q : SPSCQueue T.

Lemma pow2_divides : (2 ^ Z.of_nat k | 2 ^ 64).
Proof.
  exists (2 ^ (64 - Z.of_nat k)). rewrite <- Z.pow_add_r by lia. f_equal. lia.
Qed.

(** Masking does not see the wrap around of the index. *)
Lemma land_u64 x : Z.land (u64 x) (kMask k) = Z.land x (kMask k).
Proof.
  unfold kMask. rewrite !land_mask. unfold u64. 
  apply Z.mod_mod_divide. apply pow2_divides.
Qed.

Lemma mask_index_u64 x : mask_index (u64 x) (kMask k) = mask_index x (kMask k).
Proof. unfold mask_index. by rewrite land_u64. Qed.

(** The difference of the indices, as a number of laps. *)
Lemma count_spec q :
  0 <= count q /\ exists c, write_index_ q = read_index_ q + count q + c * 2 ^ 64.
Proof.
  unfold count, sub64, u64. split; [apply Z.mod_pos_bound; lia|].
  exists ((write_index_ q - read_index_ q) / 2 ^ 64).
  pose proof (Z.div_mod (write_index_ q - read_index_ q) (2 ^ 64)). lia.
Qed.

Lemma write_index_mask q :
  mask_index (write_index_ q) (kMask k) = mask_index (read_index_ q + count q) (kMask k).
Proof.
  destruct (count_spec q) as [_ [c E]]. rewrite E.
  rewrite <- (mask_index_u64 (_ + _ + _)), <- (mask_index_u64 (_ + _)).
  unfold u64. by rewrite Z.mod_add by lia.
Qed.

(** The test for a full ring. *)
Lemma full_test q :
  spsc_wf k q ->
  (Z.land (write_index_ q ⊕ 1) (kMask k) =? Z.land (read_index_ q) (kMask k))
  = (count q =? 2 ^ Z.of_nat k - 1).
Proof.
  intros Hwf. destruct (count_spec q) as [Hc [c E]]. pose proof (spsc_count _ _ Hwf) as Hlt.
  unfold add64. rewrite land_u64. rewrite E.
  replace (Z.land (read_index_ q + count q + c * 2 ^ 64 + 1) (kMask k))
    with (Z.land (read_index_ q + (count q + 1)) (kMask k)).
  2:{ rewrite <- (land_u64 (_ + _)), <- (land_u64 (_ + _ + _ + _)). f_equal. unfold u64.
      replace (read_index_ q + count q + c * 2 ^ 64 + 1)
        with (read_index_ q + (count q + 1) + c * 2 ^ 64) by lia.
      by rewrite Z.mod_add by lia. }
  unfold kMask. rewrite !land_mask. pose proof (pow2_pos k) as Hp.
  set (n := 2 ^ Z.of_nat k) in *. set (r := read_index_ q). set (x := count q) in *.
  destruct (Z.eqb_spec x (n - 1)) as [Ex|Nx].
  - apply Z.eqb_eq. rewrite Ex. replace (r + (n - 1 + 1)) with (r + 1 * n) by lia.
    by rewrite Z.mod_add by lia.
  - apply Z.eqb_neq. intros Em. apply Nx.
    pose proof (Z.div_mod (r + (x + 1)) n). pose proof (Z.div_mod r n).
    assert (x + 1 = n * ((r + (x + 1)) / n - r / n)) by lia.
    assert (0 < (r + (x + 1)) / n - r / n) by nia. nia.
Qed.

Lemma items_length q : length (items k q) = Z.to_nat (count q).
Proof. unfold items. by rewrite length_fmap, length_seqZ. Qed.

Lemma ring_slot_in_range q i : spsc_wf k q -> (mask_index i (kMask k) < length (queue_ q))%nat.
Proof. intros Hwf. rewrite (spsc_len _ _ Hwf). apply mask_index_lt. Qed.

Lemma ring_enqueue_room item q :
  spsc_wf k q -> count q < 2 ^ Z.of_nat k - 1 ->
  exists q', try_enqueue k item q = Some (true, q') /\ spsc_wf k q' /\
             items k q' = items k q ++ [item].
Proof.
  intros Hwf Hr. unfold try_enqueue. rewrite full_test by done.
  destruct (Z.eqb_spec (count q) (2 ^ Z.of_nat k - 1)); [lia|].
  rewrite array_store_Some by by apply ring_slot_in_range. simpl.
  destruct (count_spec q) as [Hc _].
  assert (Hle : 2 ^ Z.of_nat k <= 2 ^ 64) by (apply Z.pow_le_mono_r; lia).
  set (q' := mkSPSC _ _ _).
  assert (Ec : count q' = count q + 1).
  { unfold count at 1, q', sub64, add64. simpl. unfold u64.
    rewrite Zminus_mod_idemp_l.
    replace (write_index_ q + 1 - read_index_ q)
      with (write_index_ q - read_index_ q + 1) by lia.
    rewrite <- Zplus_mod_idemp_l. fold (u64 (write_index_ q - read_index_ q)).
    fold (sub64 (write_index_ q) (read_index_ q)). fold (count q).
    apply Z.mod_small. lia. }
  exists q'. split; [done|]. split.
  - destruct Hwf. split; try done; simpl; rewrite ?length_insert; try done.
    + apply u64_range.
    + rewrite Ec. lia.
  - unfold items. rewrite Ec, seqZ_snoc by lia. rewrite fmap_app. f_equal.
    + apply fmap_seqZ_ext. intros i Hi. unfold q'. simpl.
      apply list_lookup_total_insert_ne. rewrite write_index_mask. intros E.
      apply mask_index_inj in E; lia.
    + unfold q'. simpl. f_equal. rewrite write_index_mask.
      apply list_lookup_total_insert_eq. by apply ring_slot_in_range.
Qed.

Lemma ring_dequeue_some q :
  spsc_wf k q -> 0 < count q ->
  exists q', try_dequeue k q = Some (Some (queue_ q !!! mask_index (read_index_ q) (kMask k)), q') /\
             spsc_wf k q' /\
             items k q = (queue_ q !!! mask_index (read_index_ q) (kMask k)) :: items k q'.
Proof.
  intros Hwf Hr. unfold try_dequeue.
  destruct (Z.eqb_spec (read_index_ q) (write_index_ q)) as [E|].
  { unfold count, sub64 in Hr. rewrite E, Z.sub_diag in Hr. done. }
  rewrite (list_lookup_lookup_total_lt (queue_ q)) by by apply ring_slot_in_range. simpl.
  set (q' := mkSPSC _ _ _). destruct (count_spec q) as [Hc _].
  assert (Ec : count q' = count q - 1).
  { unfold count at 1, q', sub64, add64. simpl. unfold u64.
    rewrite Zminus_mod_idemp_r.
    replace (write_index_ q - (read_index_ q + 1))
      with (write_index_ q - read_index_ q - 1) by lia.
    rewrite <- Zminus_mod_idemp_l. fold (u64 (write_index_ q - read_index_ q)).
    fold (sub64 (write_index_ q) (read_index_ q)). fold (count q).
    apply Z.mod_small. pose proof (u64_range (write_index_ q - read_index_ q)).
    unfold count, sub64 in *. lia. }
  exists q'. split; [done|]. split.
  - destruct Hwf. split; try done; simpl; [apply u64_range|rewrite Ec; lia].
  - unfold items. rewrite (seqZ_cons 0) by done. simpl. rewrite Z.add_0_r. f_equal.
    rewrite Ec. replace (Z.pred (count q)) with (count q - 1) by lia.
    change (Z.succ 0) with (1 + 0). rewrite <- fmap_add_seqZ, <- list_fmap_compose.
    apply fmap_seqZ_ext. intros i Hi. simpl. unfold q', add64. simpl. f_equal.
    rewrite <- (mask_index_u64 (u64 _ + _)). rewrite <- (mask_index_u64 (_ + (_ + _))).
    f_equal. unfold u64. rewrite Zplus_mod_idemp_l. f_equal. lia.
Qed.

#[export] Instance spsc_fifo : BoundedFifo (try_enqueue (T := T) k) (try_dequeue k).
Proof.
  refine {| fifo_wf := spsc_wf k; fifo_view := items k;
            fifo_cap := fun _ => Z.to_nat (2 ^ Z.of_nat k - 1);
            fifo_budget := fun _ => 2 ^ 64 |}.
  - intros a q Hwf _ Hl. rewrite items_length in Hl. destruct (count_spec q) as [Hc _].
    destruct (ring_enqueue_room a q) as (q' & ? & ? & ?); [done|lia|]. exists q'.
    split_and!; done || lia.
  - intros a q Hwf Hl. rewrite items_length in Hl. unfold try_enqueue.
    rewrite full_test by done. pose proof (spsc_count _ _ Hwf).
    destruct (count_spec q) as [Hc _].
    destruct (Z.eqb_spec (count q) (2 ^ Z.of_nat k - 1)); [done|]. lia.
  - intros a l q Hwf Hv. destruct (ring_dequeue_some q) as (q' & E & Hwf' & Hi); [done| |].
    + apply (f_equal length) in Hv. rewrite items_length in Hv. simpl in Hv. lia.
    + rewrite Hi in Hv. injection Hv as <- <-. exists q'. split_and!; done || lia.
  - intros q Hwf Hv. apply (f_equal length) in Hv. rewrite items_length in Hv. simpl in Hv.
    destruct (count_spec q) as [Hc [c E]]. unfold try_dequeue.
    destruct Hwf as [_ Hw Hr _].
    destruct (Z.eqb_spec (read_index_ q) (write_index_ q)); [done|]. nia.
Defined.

(** Any sequence of calls on the ring of [2^k] slots, from any
    well-formed state and whatever the indices (their wrap around at [2^64]
    included), is defined and answers as a list of capacity [2^k - 1]. *)
Theorem spsc_refines_fifo (cs : list (fifo_call T)) q :
  spsc_wf k q -> Z.of_nat (length cs) <= 2 ^ 64 ->
  exists rs q', fifo_impl_run (enq := try_enqueue k) (deq := try_dequeue k) cs q = Some (rs, q') /\
    spsc_wf k q' /\
    fifo_spec_run (Z.to_nat (2 ^ Z.of_nat k - 1)) cs (items k q) = (rs, items k q').
Proof. exact (fifo_run_refines (F := spsc_fifo) cs q). Qed.

End Proofs.

(** A ring of four slots whose write index is about to wrap around. *)
Definition wrapping_ring : SPSCQueue Z := mkSPSC (2 ^ 64 - 1) (2 ^ 64 - 1) [0; 0; 0; 0].

Lemma spsc_refines_fifo_witness :
  exists rs q', fifo_impl_run (enq := try_enqueue 2) (deq := try_dequeue 2)
      [Enq 5; Enq 6; Enq 7; Enq 8; Deq; Deq] wrapping_ring = Some (rs, q') /\
    rs = [EnqRet true; EnqRet true; EnqRet true; EnqRet false;
          DeqRet (Some 5); DeqRet (Some 6)] /\
    items 2 q' = [7].
Proof.
  destruct (spsc_refines_fifo (T := Z) 2 ltac:(lia) [Enq 5; Enq 6; Enq 7; Enq 8; Deq; Deq] wrapping_ring)
    as (rs & q' & E & _ & D); [split; vm_compute; auto; split; congruence|vm_compute; congruence|].
  exists rs, q'. split; [exact E|].
  split; symmetry; [exact (f_equal fst D) | exact (f_equal snd D)].
Defined.

End Spsc.
