(* ===== verification/MailQueue.v ===== *)
(** * The multi-producer single-consumer ring (include/queue.h, [MailQueue])

    Each slot carries a sequence number: [i] when the slot is free for ticket
    [i], [i + 1] when the message of ticket [i] is published in it. The
    operations as they run without interference, the [BoundedFifo] instance
    the mailbox relies on, and the operations cut into their atomic accesses. *)

From Stdlib Require Import ZArith Lia.
From stdpp Require Import base list list_numbers gmap.
From S2P Require Import Prelude Fifo.

Local Open Scope Z_scope.
Local Open Scope u64_scope.

Module Mail.

Definition kMailBoxSize : Z := Z.shiftl 1 8.

(** [struct Slot]; a message is the address of an [EventMessage], null is 0. *)
Record Slot := mkSlot { sequence : Z; message : Z }.

#[export] Instance Slot_inhabited : Inhabited Slot := populate (mkSlot 0 0).

Record MailQueue := mkMQ {
  write_index_ : Z;
  read_index_ : Z;
  queue_ : list Slot;
  size_ : Z;
  mask_ : Z
}.

Definition set_write_index (q : MailQueue) (v : Z) : MailQueue :=
  mkMQ v (read_index_ q) (queue_ q) (size_ q) (mask_ q).

Definition set_read_index (q : MailQueue) (v : Z) : MailQueue :=
  mkMQ (write_index_ q) v (queue_ q) (size_ q) (mask_ q).

Definition set_slots (q : MailQueue) (l : list Slot) : MailQueue :=
  mkMQ (write_index_ q) (read_index_ q) l (size_ q) (mask_ q).

(** [std::bit_ceil]: the smallest power of two not below [n]. *)
Definition bit_ceil (n : Z) : Z := 2 ^ Z.log2_up n.

(** The constructor. *)
Definition new_mail_queue (size : Z) : MailQueue :=
  let size_ := bit_ceil size in
  mkMQ 0 0 ((fun i => mkSlot i 0) <$> seqZ 0 size_) size_ (size_ - 1).

(** [slot->message = m] and [slot->sequence.store(v)] *)
Definition store_message (q : MailQueue) (i m : Z) : option MailQueue :=
  s ← queue_ q !! mask_index i (mask_ q);
  l ← array_store (queue_ q) (mask_index i (mask_ q)) (mkSlot (sequence s) m);
  Some (set_slots q l).

Definition store_sequence (q : MailQueue) (i v : Z) : option MailQueue :=
  s ← queue_ q !! mask_index i (mask_ q);
  l ← array_store (queue_ q) (mask_index i (mask_ q)) (mkSlot v (message s));
  Some (set_slots q l).

(** [sequence - index] as the code computes it, on the slot of [i]. *)
Definition seq_diff (q : MailQueue) (i index : Z) : option Z :=
  s ← queue_ q !! mask_index i (mask_ q);
  ssub64 (sequence s) index.

(** The retry loop of [try_enqueue]; [None] when [fuel] runs out. *)
Fixpoint enqueue_loop (fuel : nat) (q : MailQueue) (write_idx message : Z)
    : option (bool * MailQueue) :=
  match fuel with
  | O => None
  | S fuel' =>
      diff ← seq_diff q write_idx write_idx;
      if diff <? 0 then Some (false, q)
      else if (diff =? 0) && (write_index_ q =? write_idx) then
        let q1 := set_write_index q (write_idx ⊕ 1) in
        q2 ← store_message q1 write_idx message;
        q3 ← store_sequence q2 write_idx (write_idx ⊕ 1);
        Some (true, q3)
      else enqueue_loop fuel' q (write_index_ q) message
  end.

Definition try_enqueue (message : Z) (q : MailQueue) : option (bool * MailQueue) :=
  enqueue_loop 1 q (write_index_ q) message.

Definition try_dequeue (q : MailQueue) : option (option Z * MailQueue) :=
  let read_idx := read_index_ q in
  diff ← seq_diff q read_idx (read_idx ⊕ 1);
  if diff <? 0 then Some (None, q)
  else
    s ← queue_ q !! mask_index read_idx (mask_ q);
    q1 ← store_message q read_idx 0;
    let q2 := set_read_index q1 (read_idx ⊕ 1) in
    q3 ← store_sequence q2 read_idx (read_idx ⊕ size_ q);
    Some (Some (message s), q3).

Definition can_dequeue (q : MailQueue) : option bool :=
  let read_idx := read_index_ q in
  diff ← seq_diff q read_idx (read_idx ⊕ 1);
  Some (0 <=? diff).

(** ** One access at a time *)

(** A producer inside [try_enqueue]. *)
Inductive prod_pc :=
  | ELoadIndex
  | ELoadSeq (w : Z)
  | ECas (w : Z)
  | EStoreMsg (w : Z)
  | EPublish (w : Z).

(** [inl pc]: goes on; [inr b]: the call returned [b]. *)
Definition producer_step (q : MailQueue) (m : Z) (pc : prod_pc)
    : option (MailQueue * (prod_pc + bool)) :=
  match pc with
  | ELoadIndex => Some (q, inl (ELoadSeq (write_index_ q)))
  | ELoadSeq w =>
      diff ← seq_diff q w w;
      Some (q, if diff <? 0 then inr false
               else if diff =? 0 then inl (ECas w) else inl ELoadIndex)
  | ECas w =>
      if write_index_ q =? w then Some (set_write_index q (w ⊕ 1), inl (EStoreMsg w))
      else Some (q, inl ELoadIndex)
  | EStoreMsg w => q' ← store_message q w m; Some (q', inl (EPublish w))
  | EPublish w => q' ← store_sequence q w (w ⊕ 1); Some (q', inr true)
  end.

(** The consumer inside [try_dequeue] or [can_dequeue]. *)
Inductive cons_pc :=
  | CIdle
  | DLoadIndex
  | DLoadSeq (r : Z)
  | DLoadMsg (r : Z)
  | DClearMsg (r m : Z)
  | DStoreIndex (r m : Z)
  | DStoreSeq (r m : Z)
  | QLoadIndex
  | QLoadSeq (r : Z).

(** What a call of the consumer returned. *)
Inductive cons_ret := CNone | CDequeued (m : option Z) | CCanDequeue (b : bool).

Definition consumer_step (q : MailQueue) (pc : cons_pc)
    : option (MailQueue * cons_pc * cons_ret) :=
  match pc with
  | CIdle => None
  | DLoadIndex => Some (q, DLoadSeq (read_index_ q), CNone)
  | DLoadSeq r =>
      diff ← seq_diff q r (r ⊕ 1);
      Some (if diff <? 0 then (q, CIdle, CDequeued None) else (q, DLoadMsg r, CNone))
  | DLoadMsg r =>
      s ← queue_ q !! mask_index r (mask_ q);
      Some (q, DClearMsg r (message s), CNone)
  | DClearMsg r m => q' ← store_message q r 0; Some (q', DStoreIndex r m, CNone)
  | DStoreIndex r m => Some (set_read_index q (r ⊕ 1), DStoreSeq r m, CNone)
  | DStoreSeq r m =>
      q' ← store_sequence q r (r ⊕ size_ q);
      Some (q', CIdle, CDequeued (Some m))
  | QLoadIndex => Some (q, QLoadSeq (read_index_ q), CNone)
  | QLoadSeq r =>
      diff ← seq_diff q r (r ⊕ 1);
      Some (q, CIdle, CCanDequeue (0 <=? diff))
  end.

(** Producers (by thread id, with the message they send), the consumer, and
    the history: [tickets] the messages in the order of the successful
    compare-exchanges on [write_index_], [received] the messages returned by
    [try_dequeue]. *)
Record mq_state := mkMQS {
  mq : MailQueue;
  producers : gmap nat (Z * prod_pc);
  consumer : cons_pc;
  tickets : list Z;
  received : list Z
}.

Definition update_producer (ps : gmap nat (Z * prod_pc)) (t : nat) (m : Z)
    (r : prod_pc + bool) : gmap nat (Z * prod_pc) :=
  match r with inl pc => <[t := (m, pc)]> ps | inr _ => delete t ps end.

Definition record_ticket (pc : prod_pc) (r : prod_pc + bool) (m : Z) : list Z :=
  match pc, r with ECas _, inl (EStoreMsg _) => [m] | _, _ => [] end.

Definition record_received (r : cons_ret) : list Z :=
  match r with CDequeued (Some m) => [m] | _ => [] end.

Inductive mq_step : mq_state -> mq_state -> Prop :=
  | MqCallEnqueue q ps c tk rc t m :
      ps !! t = None ->
      mq_step (mkMQS q ps c tk rc) (mkMQS q (<[t := (m, ELoadIndex)]> ps) c tk rc)
  | MqCallDequeue q ps tk rc :
      mq_step (mkMQS q ps CIdle tk rc) (mkMQS q ps DLoadIndex tk rc)
  | MqCallCanDequeue q ps tk rc :
      mq_step (mkMQS q ps CIdle tk rc) (mkMQS q ps QLoadIndex tk rc)
  | MqProducer q ps c tk rc t m pc q' r :
      ps !! t = Some (m, pc) ->
      producer_step q m pc = Some (q', r) ->
      mq_step (mkMQS q ps c tk rc)
        (mkMQS q' (update_producer ps t m r) c (tk ++ record_ticket pc r m) rc)
  | MqCasSpurious q ps c tk rc t m w :
      (* [compare_exchange_weak] may fail without reason *)
      ps !! t = Some (m, ECas w) ->
      mq_step (mkMQS q ps c tk rc) (mkMQS q (<[t := (m, ELoadIndex)]> ps) c tk rc)
  | MqConsumer q ps c tk rc q' c' r :
      consumer_step q c = Some (q', c', r) ->
      mq_step (mkMQS q ps c tk rc) (mkMQS q' ps c' tk (rc ++ record_received r)).

Definition mq_init (size : Z) (s : mq_state) : Prop :=
  s = mkMQS (new_mail_queue size) ∅ CIdle [] [].

(** ** Slots *)

Section Slots.
Context (k : nat).
Local Abbreviation N := (2 ^ Z.of_nat k).
Implicit Types q : MailQueue.

(** The shape of a queue of [2^k] slots. *)
Record mq_shape q : Prop := {
  shape_size : size_ q = N;
  shape_mask : mask_ q = N - 1;
  shape_len : length (queue_ q) = Z.to_nat N
}.

Definition slot_at q (i : Z) : Slot := queue_ q !!! mask_index i (N - 1).

Lemma slot_in_range q i : mq_shape q -> (mask_index i (N - 1) < length (queue_ q))%nat.
Proof. intros []. rewrite shape_len0. apply mask_index_lt. Qed.

Lemma mail_slot_lookup q i :
  mq_shape q -> queue_ q !! mask_index i (mask_ q) = Some (slot_at q i).
Proof.
  intros Hs. rewrite (shape_mask _ Hs). unfold slot_at.
  by rewrite (list_lookup_lookup_total_lt (queue_ q)) by by apply slot_in_range.
Qed.

Lemma seq_diff_eq q i index :
  mq_shape q -> seq_diff q i index = ssub64 (sequence (slot_at q i)) index.
Proof. intros. unfold seq_diff. by rewrite mail_slot_lookup. Qed.

Definition put_slot q (i : Z) (s : Slot) : MailQueue :=
  set_slots q (<[mask_index i (N - 1) := s]> (queue_ q)).

Lemma store_message_eq q i m :
  mq_shape q -> store_message q i m = Some (put_slot q i (mkSlot (sequence (slot_at q i)) m)).
Proof.
  intros Hs. unfold store_message. rewrite mail_slot_lookup by done. simpl.
  rewrite (shape_mask _ Hs), array_store_Some by by apply slot_in_range. done.
Qed.

Lemma store_sequence_eq q i v :
  mq_shape q -> store_sequence q i v = Some (put_slot q i (mkSlot v (message (slot_at q i)))).
Proof.
  intros Hs. unfold store_sequence. rewrite mail_slot_lookup by done. simpl.
  rewrite (shape_mask _ Hs), array_store_Some by by apply slot_in_range. done.
Qed.

Lemma put_slot_shape q i s : mq_shape q -> mq_shape (put_slot q i s).
Proof. intros []. split; try done. simpl. by rewrite length_insert. Qed.

Lemma slot_put_eq q i s : mq_shape q -> slot_at (put_slot q i s) i = s.
Proof.
  intros. unfold slot_at. simpl. apply list_lookup_total_insert_eq. by apply slot_in_range.
Qed.

Lemma slot_put_ne q i j s :
  i <> j -> Z.abs (i - j) < N -> slot_at (put_slot q i s) j = slot_at q j.
Proof.
  intros Hne Hd. unfold slot_at. simpl. apply list_lookup_total_insert_ne.
  intros E. apply Hne. by apply (mask_index_inj k).
Qed.

Lemma slot_lap q i : slot_at q (i + N) = slot_at q i.
Proof. unfold slot_at. by rewrite mask_index_lap. Qed.

Lemma put_put q i s s' : put_slot (put_slot q i s) i s' = put_slot q i s'.
Proof. unfold put_slot, set_slots. simpl. by rewrite list_insert_insert_eq. Qed.

Lemma new_mail_queue_shape size :
  bit_ceil size = N -> mq_shape (new_mail_queue size).
Proof.
  intros E. unfold new_mail_queue. rewrite E. split; try done. simpl.
  by rewrite length_fmap, length_seqZ.
Qed.

Lemma new_mail_queue_slot size i :
  bit_ceil size = N -> 0 <= i < N -> slot_at (new_mail_queue size) i = mkSlot i 0.
Proof.
  intros E Hi. unfold new_mail_queue, slot_at. rewrite E. simpl.
  assert (Em : mask_index i (N - 1) = Z.to_nat i).
  { unfold mask_index. rewrite land_mask. by rewrite Z.mod_small. }
  rewrite Em. apply list_lookup_total_correct. rewrite list_lookup_fmap.
  rewrite (proj2 (lookup_seqZ 0 N (Z.to_nat i) i)); [done|lia].
Qed.

End Slots.

#[export] Hint Resolve put_slot_shape : acnet.

(** [std::bit_ceil] of a positive size is a power of two. *)
Lemma bit_ceil_pow size : bit_ceil size = 2 ^ Z.of_nat (Z.to_nat (Z.log2_up size)).
Proof. unfold bit_ceil. rewrite Z2Nat.id; [done|apply Z.log2_up_nonneg]. Qed.

(** ** Calls without interference *)

Section Sequential.
Context (k : nat).
Local Abbreviation N := (2 ^ Z.of_nat k).
Implicit Types q : MailQueue.

Record mq_wf q : Prop := {
  wf_shape : mq_shape k q;
  wf_index : 0 <= read_index_ q <= write_index_ q;
  wf_cap : write_index_ q <= read_index_ q + N;
  wf_max : write_index_ q + N < 2 ^ 63;
  wf_used : forall i, read_index_ q <= i < write_index_ q -> sequence (slot_at k q i) = i + 1;
  wf_free : forall i, write_index_ q <= i < read_index_ q + N -> sequence (slot_at k q i) = i
}.

Definition waiting q : list Z :=
  (fun i => message (slot_at k q i)) <$> seqZ (read_index_ q) (write_index_ q - read_index_ q).

Lemma waiting_length q :
  length (waiting q) = Z.to_nat (write_index_ q - read_index_ q).
Proof. unfold waiting. by rewrite length_fmap, length_seqZ. Qed.

Lemma enqueue_room m q :
  mq_wf q -> write_index_ q < read_index_ q + N -> write_index_ q + 1 + N < 2 ^ 63 ->
  exists q', try_enqueue m q = Some (true, q') /\ mq_wf q' /\
    waiting q' = waiting q ++ [m] /\ write_index_ q' = write_index_ q + 1.
Proof.
  intros [Hs Hi Hc Hm Hu Hf] Hr Hb. unfold try_enqueue. simpl.
  rewrite (seq_diff_eq k) by done. rewrite (Hf (write_index_ q)) by lia.
  rewrite ssub64_small, Z.sub_diag by lia. simpl. rewrite Z.eqb_refl, add64_small by lia.
  set (w := write_index_ q) in *. set (q1 := set_write_index q (w + 1)).
  assert (Hs1 : mq_shape k q1) by by destruct Hs.
  rewrite (store_message_eq k) by done. simpl.
  rewrite (store_sequence_eq k) by auto with acnet. simpl.
  rewrite slot_put_eq by done. simpl. rewrite put_put.
  eexists. split; [done|].
  split; [split; simpl; auto with acnet; try lia|split; [|done]].
  - intros i Hi'. destruct (decide (i = w)) as [->|].
    + by rewrite slot_put_eq.
    + rewrite slot_put_ne by lia. apply Hu. lia.
  - intros i Hi'. rewrite slot_put_ne by lia. apply Hf. lia.
  - unfold waiting. simpl. fold w. replace (w + 1 - read_index_ q) with (w - read_index_ q + 1) by lia.
    rewrite seqZ_snoc, fmap_app by lia. f_equal.
    + apply fmap_seqZ_ext. intros i Hi'. by rewrite slot_put_ne by lia.
    + simpl. replace (read_index_ q + (w - read_index_ q)) with w by lia.
      by rewrite slot_put_eq.
Qed.

(** The sequence numbers of a full queue of one slot cannot be told from
    those of an empty one, hence the hypothesis on [k]. *)
Lemma enqueue_full m q :
  (1 <= k)%nat -> mq_wf q -> write_index_ q = read_index_ q + N ->
  try_enqueue m q = Some (false, q).
Proof.
  intros Hk [Hs Hi Hc Hm Hu Hf] Hr. unfold try_enqueue. simpl.
  assert (2 <= N) by (change 2 with (2 ^ 1) at 1; apply Z.pow_le_mono_r; lia).
  rewrite (seq_diff_eq k) by done. rewrite Hr, slot_lap, (Hu (read_index_ q)) by lia.
  rewrite ssub64_small by lia. simpl.
  destruct (Z.ltb_spec (read_index_ q + 1 - (read_index_ q + N)) 0); [done|lia].
Qed.

Lemma dequeue_some q :
  mq_wf q -> read_index_ q < write_index_ q ->
  exists q', try_dequeue q = Some (Some (message (slot_at k q (read_index_ q))), q') /\
    mq_wf q' /\ waiting q = message (slot_at k q (read_index_ q)) :: waiting q' /\
    write_index_ q' = write_index_ q.
Proof.
  intros [Hs Hi Hc Hm Hu Hf] Hr. unfold try_dequeue.
  rewrite (seq_diff_eq k) by done. rewrite (Hu (read_index_ q)) by lia.
  rewrite add64_small by lia. rewrite ssub64_small, Z.sub_diag by lia. simpl.
  set (r := read_index_ q) in *.
  rewrite (mail_slot_lookup k) by done. simpl. rewrite (store_message_eq k) by done. simpl.
  set (q1 := put_slot k q r _). set (q2 := set_read_index q1 (r + 1)).
  assert (Hs1 : mq_shape k q2) by (destruct (put_slot_shape k q r (mkSlot (sequence (slot_at k q r)) 0) Hs); done).
  rewrite (store_sequence_eq k) by done. simpl.
  rewrite (shape_size _ _ Hs), add64_small by lia.
  eexists. split; [done|].
  split; [split; simpl; auto with acnet; try lia|split; [|done]].
  - intros i Hi'. rewrite slot_put_ne by lia. unfold q2, q1.
    change (slot_at k (set_read_index (put_slot k q r _) (r + 1)) i)
      with (slot_at k (put_slot k q r (mkSlot (sequence (slot_at k q r)) 0)) i).
    rewrite slot_put_ne by lia. apply Hu. lia.
  - intros i Hi'. destruct (decide (i = r + N)) as [->|].
    + rewrite slot_lap. by rewrite slot_put_eq.
    + rewrite slot_put_ne by lia.
      change (slot_at k q2 i) with (slot_at k (put_slot k q r (mkSlot (sequence (slot_at k q r)) 0)) i).
      rewrite slot_put_ne by lia. apply Hf. lia.
  - unfold waiting. simpl. fold r. rewrite (seqZ_cons r) by lia. simpl. f_equal.
    change (Z.succ r) with (r + 1).
    replace (Z.pred (write_index_ q - r)) with (write_index_ q - (r + 1)) by lia.
    apply fmap_seqZ_ext. intros i Hi'. rewrite slot_put_ne by lia.
    change (slot_at k q2 i) with (slot_at k (put_slot k q r (mkSlot (sequence (slot_at k q r)) 0)) i).
    by rewrite slot_put_ne by lia.
Qed.

Lemma dequeue_none q :
  (1 <= k)%nat -> mq_wf q -> read_index_ q = write_index_ q -> try_dequeue q = Some (None, q).
Proof.
  intros Hk [Hs Hi Hc Hm Hu Hf] Hr. unfold try_dequeue. pose proof (pow2_pos k).
  rewrite (seq_diff_eq k) by done. rewrite (Hf (read_index_ q)) by lia.
  rewrite add64_small by lia. rewrite ssub64_small by lia. simpl.
  destruct (Z.ltb_spec (read_index_ q - (read_index_ q + 1)) 0); [done|lia].
Qed.

Lemma can_dequeue_spec q :
  mq_wf q -> can_dequeue q = Some (bool_decide (waiting q <> [])).
Proof.
  intros [Hs Hi Hc Hm Hu Hf]. unfold can_dequeue. pose proof (pow2_pos k).
  rewrite (seq_diff_eq k) by done. rewrite add64_small by lia.
  assert (El := waiting_length q).
  destruct (decide (read_index_ q = write_index_ q)) as [E|].
  - rewrite (Hf (read_index_ q)), ssub64_small by lia. simpl.
    rewrite E, Z.sub_diag in El. apply length_zero_iff_nil in El. rewrite El.
    rewrite bool_decide_eq_false_2 by naive_solver.
    destruct (Z.leb_spec 0 (read_index_ q - (read_index_ q + 1))); [lia|done].
  - rewrite (Hu (read_index_ q)), ssub64_small, Z.sub_diag by lia. simpl.
    rewrite bool_decide_eq_true_2; [done|]. intros E. rewrite E in El. simpl in El. lia.
Qed.

Lemma new_mail_queue_wf size :
  bit_ceil size = N -> N < 2 ^ 63 -> mq_wf (new_mail_queue size).
Proof.
  intros E Hlt. pose proof (pow2_pos k). pose proof (new_mail_queue_shape k size E).
  split; simpl; try done; try lia. intros i Hi. by rewrite new_mail_queue_slot by (done || lia).
Qed.

(** What the mailbox may rely on. *)
Definition mail_queue_fifo (Hk1 : (1 <= k)%nat) : BoundedFifo try_enqueue try_dequeue.
Proof.
  refine {| fifo_wf := mq_wf; fifo_view := waiting;
            fifo_cap := fun _ => Z.to_nat N;
            fifo_budget := fun q => 2 ^ 63 - 1 - N - write_index_ q |}.
  - intros a q Hwf Hb Hl. rewrite waiting_length in Hl. pose proof Hwf as [].
    destruct (enqueue_room a q) as (q' & ? & ? & ? & ?); [done|lia|lia|].
    exists q'. split_and!; done || lia.
  - intros a q Hwf Hl. rewrite waiting_length in Hl. pose proof Hwf as [].
    apply enqueue_full; [done|done|lia].
  - intros a l q Hwf Hv. pose proof (f_equal length Hv) as Hl.
    rewrite waiting_length in Hl. simpl in Hl. pose proof Hwf as [].
    destruct (dequeue_some q) as (q' & E & Hwf' & Hw & Hwi); [done|lia|].
    rewrite Hw in Hv. injection Hv as <- <-. exists q'. split_and!; done || lia.
  - intros q Hwf Hv. pose proof (f_equal length Hv) as Hl.
    rewrite waiting_length in Hl. simpl in Hl. pose proof Hwf as [].
    apply dequeue_none; [done|done|lia].
Defined.

End Sequential.

(** The queue of a mailbox, [kMailBoxSize] slots. *)
#[export] Instance mailbox_fifo : BoundedFifo try_enqueue try_dequeue :=
  mail_queue_fifo 8 (le_n_S _ _ (Nat.le_0_l 7)).

(** Alone, a second iteration of the retry loop sees what the first one saw:
    one iteration decides whatever the fuel. *)
Lemma enqueue_loop_fuel n q m :
  enqueue_loop (S n) q (write_index_ q) m = enqueue_loop 1 q (write_index_ q) m.
Proof.
  induction n as [|n IH]; [done|]. simpl in *.
  destruct (seq_diff q _ _) as [d|]; simpl in *; [|done].
  destruct (d <? 0); [done|]. destruct (_ && _); done.
Qed.

(** C26. A [MailQueue] constructed for [size] messages with [2 <= size <= 2^61]
    answers any sequence of at most [2^61] calls made without interference as
    a list of capacity [bit_ceil size]: defined, first in first out, refusing
    a message only when full. *)
Theorem mail_queue_refines_fifo (size : Z) (cs : list (fifo_call Z)) :
  2 <= size <= 2 ^ 61 -> Z.of_nat (length cs) <= 2 ^ 61 ->
  exists rs q,
    fifo_impl_run (enq := try_enqueue) (deq := try_dequeue) cs (new_mail_queue size)
      = Some (rs, q) /\
    fifo_spec_run (Z.to_nat (bit_ceil size)) cs []
      = (rs, waiting (Z.to_nat (Z.log2_up size)) q).
Proof.
  intros Hs Hl. set (k := Z.to_nat (Z.log2_up size)).
  pose proof (bit_ceil_pow size) as E. fold k in E.
  assert (Hk : (1 <= k <= 61)%nat).
  { pose proof (Z.log2_up_le_mono 2 size). pose proof (Z.log2_up_le_mono size (2 ^ 61)).
    rewrite Z.log2_up_pow2 in * by lia. change (Z.log2_up 2) with 1 in *. lia. }
  assert (HN : 2 ^ Z.of_nat k <= 2 ^ 61) by (apply Z.pow_le_mono_r; lia).
  destruct (fifo_run_refines (F := mail_queue_fifo k (proj1 Hk)) cs (new_mail_queue size))
    as (rs & q & Er & _ & Es); simpl.
  - apply new_mail_queue_wf; [done|lia].
  - lia.
  - exists rs, q. split; [done|]. rewrite E. exact Es.
Qed.

Lemma mail_queue_refines_fifo_witness :
  exists rs q,
    fifo_impl_run (enq := try_enqueue) (deq := try_dequeue)
      [Enq 8; Enq 16; Enq 24; Enq 32; Enq 40; Deq; Deq] (new_mail_queue 3) = Some (rs, q) /\
    rs = [EnqRet true; EnqRet true; EnqRet true; EnqRet true; EnqRet false;
          DeqRet (Some 8); DeqRet (Some 16)] /\
    waiting 2 q = [24; 32].
Proof.
  destruct (mail_queue_refines_fifo 3 [Enq 8; Enq 16; Enq 24; Enq 32; Enq 40; Deq; Deq])
    as (rs & q & E & D); [lia|vm_compute; congruence|].
  exists rs, q. split; [exact E|].
  split; symmetry; [exact (f_equal fst D) | exact (f_equal snd D)].
Defined.

(** ** A queue of one slot *)

Definition one_slot (w r seq m : Z) : MailQueue := mkMQ w r [mkSlot seq m] 1 0.

Lemma mask_index_0 i : mask_index i 0 = O.
Proof. unfold mask_index. by rewrite Z.land_0_r. Qed.

Lemma one_slot_enqueue w r seq m a :
  0 <= w < 2 ^ 62 -> 0 <= seq <= w ->
  try_enqueue a (one_slot w r seq m) =
    Some (if decide (seq = w) then (true, one_slot (w + 1) r (w + 1) a) else (false, one_slot w r seq m)).
Proof.
  intros Hw Hs. unfold try_enqueue, enqueue_loop, seq_diff, store_message, store_sequence. cbn [queue_ mask_ one_slot set_write_index set_slots].
  rewrite !mask_index_0. cbn [lookup list_lookup]. simpl mbind. rewrite ssub64_small by lia. simpl. case_decide as E.
  - subst seq. rewrite Z.sub_diag. simpl. rewrite !mask_index_0. simpl.
    rewrite add64_small by lia. by destruct (w =? w) eqn:Ew; [|apply Z.eqb_neq in Ew].
  - by rewrite (proj2 (Z.ltb_lt _ _)) by lia.
Qed.

Lemma one_slot_dequeue w r seq m :
  0 <= r < 2 ^ 62 -> 0 <= seq < 2 ^ 62 ->
  try_dequeue (one_slot w r seq m) =
    Some (if decide (r < seq) then (Some m, one_slot w (r + 1) (r + 1) 0) else (None, one_slot w r seq m)).
Proof.
  intros Hr Hs. unfold try_dequeue, seq_diff, store_message, store_sequence.
  cbn [queue_ mask_ read_index_ one_slot set_read_index set_slots].
  rewrite !mask_index_0, add64_small by lia. cbn [lookup list_lookup]. simpl mbind. rewrite ssub64_small by lia. simpl. case_decide as E.
  - rewrite (proj2 (Z.ltb_ge _ _)) by lia. simpl. rewrite !mask_index_0. simpl. by rewrite add64_small by lia.
  - by rewrite (proj2 (Z.ltb_lt _ _)) by lia.
Qed.

(** The answer of a queue that neither takes nor gives. *)
Definition refused (c : fifo_call Z) : fifo_ret Z := match c with Enq _ => EnqRet false | Deq => DeqRet None end.

Lemma one_slot_dead w cs :
  2 <= w < 2 ^ 62 ->
  fifo_impl_run (enq := try_enqueue) (deq := try_dequeue) cs (one_slot w 1 1 0) = Some (refused <$> cs, one_slot w 1 1 0).
Proof.
  intros Hw. induction cs as [|[a|] cs IH]; [done|..]; cbn [fifo_impl_run fifo_impl].
  - rewrite one_slot_enqueue, decide_False by lia. simpl. by rewrite IH.
  - rewrite one_slot_dequeue, decide_False by lia. simpl. by rewrite IH.
Qed.

Lemma one_slot_accepts ms m0 w cs :
  0 <= w -> w + Z.of_nat (length ms) < 2 ^ 62 ->
  fifo_impl_run (enq := try_enqueue) (deq := try_dequeue) ((Enq <$> ms) ++ cs) (one_slot w 0 w m0) =
  ('(rs, q) ← fifo_impl_run (enq := try_enqueue) (deq := try_dequeue) cs
     (one_slot (w + Z.of_nat (length ms)) 0 (w + Z.of_nat (length ms)) (List.last ms m0));
   Some (((fun _ => EnqRet true) <$> ms) ++ rs, q)).
Proof.
  revert m0 w. induction ms as [|m ms IH]; intros m0 w Hw Hl; cbn [length] in *.
  - rewrite Z.add_0_r. simpl. by destruct (fifo_impl_run _ _) as [[rs q]|].
  - cbn [fmap list_fmap app fifo_impl_run fifo_impl]. rewrite one_slot_enqueue, decide_True by lia. simpl. rewrite IH by lia.
    replace (w + 1 + Z.of_nat (length ms)) with (w + Z.of_nat (S (length ms))) by lia.
    replace (List.last ms m) with (match ms with [] => m | _ => List.last ms m0 end).
    2: { clear. revert m. induction ms as [|x [|y ms] IH]; intros m; [done..|]. apply (IH m). }
    by destruct (fifo_impl_run _ _) as [[rs q]|].
Qed.

(** C32. A [MailQueue] of one slot (requested size 0 or 1) is not a queue. The
    published sequence number of a ticket equals the free one of the next, so
    any number of messages is accepted one after the other without anything
    being taken out, each overwriting the one before. The consumer then gets
    the last message only; and if there were two or more, the queue is dead
    from then on: whatever calls follow, every message is refused and nothing
    is ever taken out. *)
Theorem mail_queue_one_slot (size : Z) (ms : list Z) (m : Z) (cs : list (fifo_call Z)) :
  0 <= size <= 1 -> ms <> [] -> Z.of_nat (length ms) + 1 < 2 ^ 62 ->
  exists q,
    fifo_impl_run (enq := try_enqueue) (deq := try_dequeue)
      ((Enq <$> (ms ++ [m])) ++ Deq :: cs) (new_mail_queue size)
    = Some (((fun _ => EnqRet true) <$> (ms ++ [m])) ++ DeqRet (Some m) :: (refused <$> cs), q).
Proof.
  intros Hs Hne Hl. assert (new_mail_queue size = one_slot 0 0 0 0) as ->.
  { assert (size = 0 \/ size = 1) as [-> | ->] by lia; reflexivity. }
  assert (1 <= Z.of_nat (length ms)) by (destruct ms; simpl; [done|lia]).
  rewrite one_slot_accepts by (rewrite ?length_app; simpl; lia). rewrite List.last_last, length_app.
  cbn [fifo_impl_run fifo_impl length]. rewrite one_slot_dequeue, decide_True by lia. simpl.
  rewrite one_slot_dead by lia. simpl. by eexists.
Qed.

Lemma mail_queue_one_slot_witness :
  exists q,
    fifo_impl_run (enq := try_enqueue) (deq := try_dequeue) [Enq 8; Enq 16; Deq; Deq; Enq 24] (new_mail_queue 1)
    = Some ([EnqRet true; EnqRet true; DeqRet (Some 16); DeqRet None; EnqRet false], q).
Proof. apply (mail_queue_one_slot 1 [8] 16 [Deq; Enq 24]); [lia|discriminate|vm_compute; reflexivity]. Defined.

End Mail.
