(* ===== verification/MailQueueConc.v ===== *)
(** * Producers and the consumer of a [MailQueue], interleaved

    The invariant of [mq_step]: which sequence number each slot carries, what
    each thread may rely on at each access, and the theorems that follow. *)

From Stdlib Require Import ZArith Lia.
From stdpp Require Import base list list_numbers relations gmap.
From S2P Require Import Prelude Fifo MailQueue.

Local Open Scope Z_scope.
Local Open Scope u64_scope.
Import Mail.

Section Invariant.
Context (k : nat) (Hk : (1 <= k)%nat).
Local Abbreviation N := (2 ^ Z.of_nat k).
Implicit Types (q : MailQueue) (ps : gmap nat (Z * prod_pc)) (c : cons_pc).

(** Ticket [w] is taken but its message is not yet published. *)
Definition pc_pending (pc : prod_pc) (w : Z) : Prop :=
  match pc with EStoreMsg w' | EPublish w' => w' = w | _ => False end.

Definition pending ps (w : Z) : Prop :=
  exists t m pc, ps !! t = Some (m, pc) /\ pc_pending pc w.

(** Tickets whose slot the consumer has handed back. *)
Definition released q c : Z :=
  match c with DStoreSeq r _ => r | _ => read_index_ q end.

(** The consumer has read the message of ticket [i] and cleared its slot. *)
Definition cleared c (i : Z) : Prop :=
  match c with DStoreIndex r _ | DStoreSeq r _ => r = i | _ => False end.

Definition producer_ok q c (tk : list Z) (m : Z) (pc : prod_pc) : Prop :=
  match pc with
  | ELoadIndex => True
  | ELoadSeq w => 0 <= w <= write_index_ q
  | ECas w => 0 <= w <= write_index_ q /\ w < released q c + N
  | EStoreMsg w => read_index_ q <= w < write_index_ q /\ tk !! Z.to_nat w = Some m
  | EPublish w =>
      read_index_ q <= w < write_index_ q /\ tk !! Z.to_nat w = Some m /\
      message (slot_at k q w) = m
  end.

Definition consumer_ok q ps c (tk : list Z) : Prop :=
  match c with
  | CIdle | DLoadIndex | QLoadIndex => True
  | DLoadSeq r | QLoadSeq r => r = read_index_ q
  | DLoadMsg r => r = read_index_ q /\ r < write_index_ q /\ ~ pending ps r
  | DClearMsg r m | DStoreIndex r m =>
      r = read_index_ q /\ r < write_index_ q /\ ~ pending ps r /\
      tk !! Z.to_nat r = Some m
  | DStoreSeq r m =>
      read_index_ q = r + 1 /\ 0 <= r /\ r < write_index_ q /\ ~ pending ps r /\
      tk !! Z.to_nat r = Some m
  end.

Record mq_inv (s : mq_state) : Prop := {
  inv_shape : mq_shape k (mq s);
  inv_read : 0 <= released (mq s) (consumer s) <= read_index_ (mq s);
  inv_write : read_index_ (mq s) <= write_index_ (mq s);
  inv_cap : write_index_ (mq s) <= released (mq s) (consumer s) + N;
  inv_count : write_index_ (mq s) = Z.of_nat (length (tickets s));
  inv_unique : forall t1 t2 m1 m2 pc1 pc2 w,
    producers s !! t1 = Some (m1, pc1) -> producers s !! t2 = Some (m2, pc2) ->
    pc_pending pc1 w -> pc_pending pc2 w -> t1 = t2;
  inv_producers : map_Forall (fun _ p =>
    producer_ok (mq s) (consumer s) (tickets s) p.1 p.2) (producers s);
  inv_consumer : consumer_ok (mq s) (producers s) (consumer s) (tickets s);
  inv_free : forall i, write_index_ (mq s) <= i < released (mq s) (consumer s) + N ->
    sequence (slot_at k (mq s) i) = i;
  inv_pending : forall i, released (mq s) (consumer s) <= i < write_index_ (mq s) ->
    pending (producers s) i -> sequence (slot_at k (mq s) i) = i;
  inv_published : forall i, released (mq s) (consumer s) <= i < write_index_ (mq s) ->
    ~ pending (producers s) i ->
    sequence (slot_at k (mq s) i) = i + 1 /\
    (~ cleared (consumer s) i ->
     tickets s !! Z.to_nat i = Some (message (slot_at k (mq s) i)));
  inv_received : received s = take (Z.to_nat (released (mq s) (consumer s))) (tickets s)
}.

#[export] Instance pc_pending_dec pc w : Decision (pc_pending pc w).
Proof. destruct pc; simpl; apply _. Defined.

#[export] Instance pending_dec ps w : Decision (pending ps w).
Proof.
  destruct (decide (map_Exists (fun _ p => pc_pending p.2 w) ps)) as [H|H].
  - left. destruct H as (t & [m pc] & ? & ?). by exists t, m, pc.
  - right. intros (t & m & pc & ? & ?). apply H. by exists t, (m, pc).
Defined.

Lemma two_le_N : 2 <= N.
Proof. change 2 with (2 ^ 1) at 1. apply Z.pow_le_mono_r; lia. Qed.

(** ** Who is pending, after a producer moved *)

Definition unique_pending ps : Prop :=
  forall t1 t2 m1 m2 pc1 pc2 w,
    ps !! t1 = Some (m1, pc1) -> ps !! t2 = Some (m2, pc2) ->
    pc_pending pc1 w -> pc_pending pc2 w -> t1 = t2.

Lemma pending_intro ps t m pc w : ps !! t = Some (m, pc) -> pc_pending pc w -> pending ps w.
Proof. intros. by exists t, m, pc. Qed.

Lemma pending_insert ps t m pc' w :
  pending (<[t := (m, pc')]> ps) w <-> pc_pending pc' w \/ pending (delete t ps) w.
Proof.
  split.
  - intros (t' & m' & p & Hl & Hp). apply lookup_insert_Some in Hl as [[<- ?]|[Hne Hl]].
    + simplify_eq. by left.
    + right. exists t', m', p. by rewrite lookup_delete_ne.
  - intros [Hp|(t' & m' & p & Hl & Hp)].
    + exists t, m, pc'. by rewrite lookup_insert_eq.
    + apply lookup_delete_Some in Hl as [Hne Hl]. exists t', m', p. by rewrite lookup_insert_ne.
Qed.

Lemma pending_delete ps t m pc w :
  unique_pending ps -> ps !! t = Some (m, pc) ->
  pending (delete t ps) w <-> pending ps w /\ ~ pc_pending pc w.
Proof.
  intros Hu Ht. split.
  - intros (t' & m' & p & Hl & Hp). apply lookup_delete_Some in Hl as [Hne Hl].
    split; [by exists t', m', p|]. intros Hp'. apply Hne. by eapply Hu.
  - intros [(t' & m' & p & Hl & Hp) Hn]. exists t', m', p. split; [|done].
    apply lookup_delete_Some. split; [|done]. intros <-. by simplify_eq.
Qed.

Lemma unique_delete ps t : unique_pending ps -> unique_pending (delete t ps).
Proof.
  intros Hu t1 t2 m1 m2 pc1 pc2 w H1 H2.
  apply lookup_delete_Some in H1 as [_ H1], H2 as [_ H2]. by eapply Hu.
Qed.

Lemma unique_insert ps t m pc' :
  unique_pending ps -> (forall w, pc_pending pc' w -> ~ pending (delete t ps) w) ->
  unique_pending (<[t := (m, pc')]> ps).
Proof.
  intros Hu Hn t1 t2 m1 m2 pc1 pc2 w H1 H2 P1 P2.
  apply lookup_insert_Some in H1 as [[<- ?]|[? H1]], H2 as [[<- ?]|[? H2]]; simplify_eq; try done.
  - exfalso. apply (Hn w P1). exists t2, m2, pc2. by rewrite lookup_delete_ne.
  - exfalso. apply (Hn w P2). exists t1, m1, pc1. by rewrite lookup_delete_ne.
  - by eapply Hu.
Qed.

Lemma unique_fresh ps t m pc' :
  unique_pending ps -> (forall w, ~ pc_pending pc' w) -> unique_pending (<[t := (m, pc')]> ps).
Proof. intros Hu Hn. apply unique_insert; [done|]. intros w Hp. by destruct (Hn w). Qed.

(** ** Preservation: steps that do not touch the shared queue *)

Lemma consumer_ok_pending q ps ps' c tk :
  (forall w, w < write_index_ q -> pending ps' w -> pending ps w) ->
  consumer_ok q ps c tk -> consumer_ok q ps' c tk.
Proof. intros Hp. destruct c; simpl; intuition eauto. Qed.

Lemma inv_producers_local q ps ps' c tk rc :
  mq_inv (mkMQS q ps c tk rc) ->
  (forall w, pending ps' w <-> pending ps w) -> unique_pending ps' ->
  map_Forall (fun _ p => producer_ok q c tk p.1 p.2) ps' ->
  mq_inv (mkMQS q ps' c tk rc).
Proof.
  intros [] Hp Hu Hok. split; simpl in *; try done.
  - eapply consumer_ok_pending; [|done]. intros w _. apply Hp.
  - intros i Hi Hpi. apply inv_pending0; [done|]. by apply Hp.
  - intros i Hi Hpi. apply inv_published0; [done|]. by rewrite <- Hp.
Qed.

(** A producer moves between two program points that hold no ticket. *)
Lemma inv_producer_move q ps c tk rc t m pc pc' :
  mq_inv (mkMQS q ps c tk rc) ->
  (ps !! t = Some (m, pc) \/ ps !! t = None) ->
  (forall w, ~ pc_pending pc w) -> (forall w, ~ pc_pending pc' w) ->
  producer_ok q c tk m pc' ->
  mq_inv (mkMQS q (<[t := (m, pc')]> ps) c tk rc).
Proof.
  intros Hi Ht Hn Hn' Hok. pose proof (inv_unique _ Hi) as Hu. simpl in Hu.
  apply (inv_producers_local _ _ _ _ _ _ Hi).
  - intros w. rewrite pending_insert. destruct Ht as [Ht|Ht].
    + rewrite (pending_delete _ _ _ _ _ Hu Ht). naive_solver.
    + rewrite delete_id by done. naive_solver.
  - by apply unique_fresh.
  - apply map_Forall_insert_2; [done|]. apply Hi.
Qed.

(** [try_enqueue] returns false. *)
Lemma inv_producer_return q ps c tk rc t m pc :
  mq_inv (mkMQS q ps c tk rc) -> ps !! t = Some (m, pc) ->
  (forall w, ~ pc_pending pc w) -> mq_inv (mkMQS q (delete t ps) c tk rc).
Proof.
  intros Hi Ht Hn. pose proof (inv_unique _ Hi) as Hu. simpl in Hu.
  apply (inv_producers_local _ _ _ _ _ _ Hi).
  - intros w. rewrite (pending_delete _ _ _ _ _ Hu Ht). naive_solver.
  - by apply unique_delete.
  - apply map_Forall_delete. apply Hi.
Qed.

(** The consumer moves between two program points that leave its slot alone. *)
Lemma inv_consumer_move q ps c c' tk rc :
  mq_inv (mkMQS q ps c tk rc) ->
  released q c' = released q c -> (forall i, cleared c i -> cleared c' i) ->
  consumer_ok q ps c' tk ->
  mq_inv (mkMQS q ps c' tk rc).
Proof.
  intros [] Er Hcl Hok. split; simpl in *; rewrite ?Er; try done.
  - intros t [m pc] Ht. specialize (inv_producers0 t _ Ht). simpl in *.
    destruct pc; simpl in *; rewrite ?Er; done.
  - intros i Hi Hp. destruct (inv_published0 i Hi Hp) as [? Hm]. split; [done|].
    intros Hc. apply Hm. eauto.
Qed.

(** ** Preservation: accesses to the shared queue *)

(** A ticket is pending only between [read_index_] and [write_index_]. *)
Lemma pending_range q ps c tk rc w :
  mq_inv (mkMQS q ps c tk rc) -> pending ps w -> read_index_ q <= w < write_index_ q.
Proof.
  intros [] (t & m & pc & Ht & Hp). specialize (inv_producers0 t _ Ht). simpl in *.
  destruct pc; simpl in *; intuition lia.
Qed.

Lemma producer_ok_ticket q c tk m pc m' :
  write_index_ q = Z.of_nat (length tk) ->
  producer_ok q c tk m pc ->
  producer_ok (set_write_index q (write_index_ q + 1)) c (tk ++ [m']) m pc.
Proof.
  intros El. destruct pc; simpl; intros; split_and?; try (intuition (done || lia)).
  - intuition. by apply lookup_app_l_Some.
  - intuition. by apply lookup_app_l_Some.
Qed.

Lemma inv_take_ticket q ps c tk rc t m :
  mq_inv (mkMQS q ps c tk rc) -> ps !! t = Some (m, ECas (write_index_ q)) ->
  mq_inv (mkMQS (set_write_index q (write_index_ q + 1))
            (<[t := (m, EStoreMsg (write_index_ q))]> ps) c (tk ++ [m]) rc).
Proof.
  intros Hi Ht. pose proof Hi as []; simpl in *. set (w := write_index_ q) in *.
  pose proof (inv_producers0 t _ Ht) as [Hw Hroom]. simpl in Hw, Hroom.
  assert (Er : released (set_write_index q (w + 1)) c = released q c) by by destruct c.
  assert (Hnp : forall i, pending (delete t ps) i -> i < w).
  { intros i Hp. rewrite (pending_delete _ _ _ _ _ inv_unique0 Ht) in Hp.
    destruct Hp as [Hp _]. apply (pending_range _ _ _ _ _ _ Hi) in Hp. lia. }
  assert (Hpe : forall i, i < w ->
    pending (<[t := (m, EStoreMsg w)]> ps) i <-> pending ps i).
  { intros i Hlt. rewrite pending_insert, (pending_delete _ _ _ _ _ inv_unique0 Ht).
    simpl. intuition lia. }
  split; simpl; rewrite ?Er, ?length_app; simpl; try done; try lia.
  - by destruct inv_shape0.
  - apply unique_insert; [done|]. simpl. intros i <- Hp. apply Hnp in Hp. lia.
  - apply map_Forall_insert_2; simpl.
    + split; [lia|]. apply list_lookup_middle. lia.
    + intros t' [m' pc'] Ht'. apply producer_ok_ticket; [done|]. by apply (inv_producers0 t').
  - destruct c; simpl in *; intuition (lia || eauto using lookup_app_l_Some);
      match goal with H : pending _ _ |- _ => apply Hpe in H; [done|lia] end.
  - intros i Hr. apply inv_free0. lia.
  - intros i Hr Hp. destruct (decide (i = w)) as [->|].
    + apply inv_free0. lia.
    + apply inv_pending0; [lia|]. apply Hpe; [lia|done].
  - intros i Hr Hp. assert (i <> w).
    { intros ->. apply Hp. apply pending_insert. by left. }
    destruct (inv_published0 i) as [E Hm]; [lia|rewrite <- Hpe by lia; done|].
    split; [done|]. intros Hc. apply lookup_app_l_Some. by apply Hm.
  - rewrite inv_received0, take_app_le by lia. done.
Qed.

(** Storing a message leaves every sequence number alone. *)
Lemma sequence_store_message q i j m :
  mq_shape k q ->
  sequence (slot_at k (put_slot k q i (mkSlot (sequence (slot_at k q i)) m)) j)
  = sequence (slot_at k q j).
Proof.
  intros Hs. unfold slot_at at 1. simpl.
  destruct (decide (mask_index i (N - 1) = mask_index j (N - 1))) as [E|].
  - rewrite <- E, list_lookup_total_insert_eq by by apply slot_in_range.
    simpl. unfold slot_at. by rewrite E.
  - by rewrite list_lookup_total_insert_ne.
Qed.

Lemma inv_store_message q ps c tk rc t m w :
  mq_inv (mkMQS q ps c tk rc) -> ps !! t = Some (m, EStoreMsg w) ->
  mq_inv (mkMQS (put_slot k q w (mkSlot (sequence (slot_at k q w)) m))
            (<[t := (m, EPublish w)]> ps) c tk rc).
Proof.
  intros Hi Ht. pose proof Hi as []; simpl in *.
  pose proof (inv_producers0 t _ Ht) as [Hw Htk]. simpl in Hw, Htk.
  assert (Hpw : pending ps w) by by eapply pending_intro.
  set (q' := put_slot k q w _).
  assert (Er : released q' c = released q c) by by destruct c.
  assert (Hpe : forall i, pending (<[t := (m, EPublish w)]> ps) i <-> pending ps i).
  { intros i. rewrite pending_insert, (pending_delete _ _ _ _ _ inv_unique0 Ht). simpl.
    split; [intros [<-|[? ?]]; done|]. intros. destruct (decide (w = i)); naive_solver. }
  assert (Hsq : forall i, sequence (slot_at k q' i) = sequence (slot_at k q i))
    by by intros; apply sequence_store_message.
  assert (Hms : forall i, released q c <= i < write_index_ q -> i <> w ->
                 slot_at k q' i = slot_at k q i).
  { intros i Hr Hne. apply slot_put_ne; lia. }
  split; simpl; rewrite ?Er; try done.
  - by apply put_slot_shape.
  - apply unique_insert; [done|]. simpl. intros i <- Hp.
    rewrite (pending_delete _ _ _ _ _ inv_unique0 Ht) in Hp. by apply Hp.
  - intros t' [m' pc'] Ht'. simpl. apply lookup_insert_Some in Ht' as [[<- ?]|[Hne Ht']].
    + simplify_eq. simpl. split_and!; try done; try lia. unfold q'. by rewrite slot_put_eq.
    + specialize (inv_producers0 t' _ Ht'). simpl in *.
      destruct pc'; simpl in *; rewrite ?Er; try done. rewrite Hms; [done|lia|].
      intros ->. apply Hne. eapply (inv_unique0 t t' _ _ _ _ w); done.
  - eapply consumer_ok_pending; [by intros ? _; apply Hpe|]. by destruct c.
  - intros. rewrite Hsq. by apply inv_free0.
  - intros. rewrite Hsq. apply inv_pending0; [done|]. by apply Hpe.
  - intros i Hr Hp. rewrite Hpe in Hp. rewrite Hsq, Hms; [by apply inv_published0|lia|].
    by intros ->.
Qed.

Lemma inv_publish q ps c tk rc t m w :
  mq_inv (mkMQS q ps c tk rc) -> ps !! t = Some (m, EPublish w) ->
  mq_inv (mkMQS (put_slot k q w (mkSlot (w + 1) (message (slot_at k q w))))
            (delete t ps) c tk rc).
Proof.
  intros Hi Ht. pose proof Hi as []; simpl in *.
  pose proof (inv_producers0 t _ Ht) as (Hw & Htk & Hmsg). simpl in Hw, Htk, Hmsg.
  set (q' := put_slot k q w _).
  assert (Er : released q' c = released q c) by by destruct c.
  assert (Hpe : forall i, pending (delete t ps) i <-> pending ps i /\ i <> w).
  { intros i. rewrite (pending_delete _ _ _ _ _ inv_unique0 Ht). simpl. naive_solver. }
  assert (Hms : forall i, released q c <= i < released q c + N -> i <> w ->
                 slot_at k q' i = slot_at k q i).
  { intros i Hr Hne. apply slot_put_ne; lia. }
  split; simpl; rewrite ?Er; try done.
  - by apply put_slot_shape.
  - by apply unique_delete.
  - intros t' [m' pc'] Ht'. simpl. apply lookup_delete_Some in Ht' as [Hne Ht'].
    specialize (inv_producers0 t' _ Ht'). simpl in *.
    destruct pc' as [| | | |w']; simpl in *; rewrite ?Er; try done. rewrite Hms; [done|lia|].
    intros ->. apply Hne. eapply (inv_unique0 t t' _ _ _ _ w); done.
  - eapply (consumer_ok_pending _ ps); [by intros ? _ [? _]%Hpe|]. by destruct c.
  - intros i Hr. rewrite Hms by lia. by apply inv_free0.
  - intros i Hr [Hp Hne]%Hpe. rewrite Hms by lia. by apply inv_pending0.
  - intros i Hr Hp. destruct (decide (i = w)) as [->|Hne].
    + unfold q'. rewrite slot_put_eq by done. simpl. split; [done|]. intros _.
      by rewrite Hmsg.
    + rewrite Hms by lia. apply inv_published0; [done|]. naive_solver.
Qed.

Lemma inv_clear_message q ps tk rc r m :
  mq_inv (mkMQS q ps (DClearMsg r m) tk rc) ->
  mq_inv (mkMQS (put_slot k q r (mkSlot (sequence (slot_at k q r)) 0))
            ps (DStoreIndex r m) tk rc).
Proof.
  intros Hi. pose proof Hi as []; simpl in *.
  destruct inv_consumer0 as (-> & Hw & Hnp & Htk). set (r := read_index_ q) in *.
  set (q' := put_slot k q r _).
  assert (Hsq : forall i, sequence (slot_at k q' i) = sequence (slot_at k q i))
    by by intros; apply sequence_store_message.
  assert (Hms : forall i, r <= i < write_index_ q -> i <> r -> slot_at k q' i = slot_at k q i).
  { intros i Hr Hne. apply slot_put_ne; lia. }
  split; simpl; try done.
  - by apply put_slot_shape.
  - intros t' [m' pc'] Ht'. specialize (inv_producers0 t' _ Ht'). simpl in *.
    destruct pc' as [| | | |w']; simpl in *; try done. rewrite Hms; [done|subst r; lia|].
    intros ->. apply Hnp. by eapply pending_intro.
  - intros. rewrite Hsq. by apply inv_free0.
  - intros. rewrite Hsq. by apply inv_pending0.
  - intros i Hr Hp. destruct (inv_published0 i Hr Hp) as [E Hm]. rewrite Hsq. split; [done|].
    intros Hne. rewrite Hms; [|done|congruence]. apply Hm. tauto.
Qed.

Lemma inv_store_index q ps tk rc r m :
  mq_inv (mkMQS q ps (DStoreIndex r m) tk rc) ->
  mq_inv (mkMQS (set_read_index q (r + 1)) ps (DStoreSeq r m) tk rc).
Proof.
  intros Hi. pose proof Hi as []; simpl in *.
  destruct inv_consumer0 as (-> & Hw & Hnp & Htk).
  split; simpl; try done; try lia.
  - by destruct inv_shape0.
  - intros t' [m' pc'] Ht'. pose proof (inv_producers0 t' _ Ht') as Hok. simpl in *.
    destruct pc' as [| | |w'|w']; simpl in *; try done; assert (w' <> read_index_ q)
      by (intros ->; apply Hnp; by eapply pending_intro); intuition lia.
  - split_and!; done || lia.
Qed.

Lemma inv_store_sequence q ps tk rc r m :
  mq_inv (mkMQS q ps (DStoreSeq r m) tk rc) ->
  mq_inv (mkMQS (put_slot k q r (mkSlot (r + N) (message (slot_at k q r))))
            ps CIdle tk (rc ++ [m])).
Proof.
  intros Hi. pose proof Hi as []; simpl in *.
  destruct inv_consumer0 as (Er & H0 & Hw & Hnp & Htk). set (q' := put_slot k q r _).
  assert (Hms : forall i, r < i < r + N -> slot_at k q' i = slot_at k q i).
  { intros i Hr. apply slot_put_ne; lia. }
  split; simpl; try done; try lia.
  - by apply put_slot_shape.
  - intros t' [m' pc'] Ht'. pose proof (inv_producers0 t' _ Ht') as Hok. simpl in *.
    destruct pc' as [| | | |w']; simpl in *; try (intuition lia). rewrite Hms by lia. done.
  - intros i Hr. destruct (decide (i = r + N)) as [->|].
    + rewrite slot_lap. unfold q'. by rewrite slot_put_eq.
    + rewrite Hms by lia. apply inv_free0. lia.
  - intros i Hr Hp. rewrite Hms by lia. apply inv_pending0; [lia|done].
  - intros i Hr Hp. rewrite Hms by lia.
    destruct (inv_published0 i) as [? Hm]; [lia|done|]. split; [done|]. intros _.
    apply Hm. lia.
  - rewrite inv_received0, Er. replace (Z.to_nat (r + 1)) with (S (Z.to_nat r)) by lia.
    symmetry. by apply take_S_r.
Qed.

(** ** Reading a sequence number *)

(** Every slot is the slot of one index of the current lap, and carries that
    index or its successor. *)
Lemma current_lap q ps c tk rc w :
  mq_inv (mkMQS q ps c tk rc) ->
  exists i, released q c <= i < released q c + N /\ slot_at k q w = slot_at k q i /\
    (exists z, i = w + z * N) /\
    (sequence (slot_at k q i) = i \/
     sequence (slot_at k q i) = i + 1 /\ i < write_index_ q /\ ~ pending ps i).
Proof.
  intros []; simpl in *. set (rel := released q c) in *.
  pose proof (Z.mod_pos_bound (w - rel) N (pow2_pos k)).
  pose proof (Z.div_mod (w - rel) N ltac:(pose proof (pow2_pos k); lia)).
  exists (rel + (w - rel) mod N). split_and!; [lia|lia| | |].
  - unfold slot_at. f_equal. unfold mask_index. rewrite !land_mask. f_equal.
    rewrite Zplus_mod_idemp_r. f_equal. lia.
  - exists (- ((w - rel) / N)). lia.
  - set (i := rel + (w - rel) mod N). destruct (decide (i < write_index_ q)).
    + destruct (decide (pending ps i)).
      * left. apply inv_pending0; [lia|done].
      * right. split; [|done]. apply inv_published0; [lia|done].
    + left. apply inv_free0. lia.
Qed.

Lemma load_producer_seq q ps c tk rc w :
  Z.of_nat (length tk) + N < 2 ^ 63 -> mq_inv (mkMQS q ps c tk rc) ->
  0 <= w <= write_index_ q ->
  exists d, seq_diff q w w = Some d /\
    (d < 0 -> released q c + N <= w) /\
    (d = 0 -> w < released q c + N) /\
    (0 < d -> w < write_index_ q).
Proof.
  intros Hb Hi Hw. destruct (current_lap _ _ _ _ _ w Hi) as (i & Hr & Es & [z Ez] & Hseq).
  pose proof Hi as []; simpl in *. pose proof two_le_N.
  exists (sequence (slot_at k q i) - w). split.
  - rewrite (seq_diff_eq k), Es by done. apply ssub64_small; lia.
  - destruct (Z_lt_le_dec w (released q c)); [lia|].
    destruct (Z_lt_le_dec w (released q c + N)).
    + assert (z = 0) by nia. subst z. lia.
    + assert (z = -1) by nia. subst z. lia.
Qed.

Lemma load_consumer_seq q ps c tk rc :
  Z.of_nat (length tk) + N < 2 ^ 63 -> mq_inv (mkMQS q ps c tk rc) ->
  released q c = read_index_ q ->
  exists d, seq_diff q (read_index_ q) (read_index_ q ⊕ 1) = Some d /\
    (0 <= d <-> read_index_ q < write_index_ q /\ ~ pending ps (read_index_ q)).
Proof.
  intros Hb [] Er; simpl in *. pose proof two_le_N. rewrite (seq_diff_eq k) by done.
  rewrite add64_small by lia.
  destruct (decide (read_index_ q < write_index_ q)) as [Hlt|].
  - destruct (decide (pending ps (read_index_ q))) as [Hp|Hp].
    + rewrite inv_pending0 by (done || lia). rewrite ssub64_small by lia.
      eexists. split; [done|]. split; [lia|tauto].
    + destruct (inv_published0 (read_index_ q)) as [-> _]; [lia|done|].
      rewrite ssub64_small by lia. eexists. split; [done|]. split; [done|lia].
  - rewrite inv_free0, ssub64_small by lia. eexists. split; [done|]. lia.
Qed.

(** ** All steps *)

Lemma inv_producer_step q ps c tk rc t m pc q' r :
  Z.of_nat (length (tk ++ record_ticket pc r m)) + N < 2 ^ 63 ->
  mq_inv (mkMQS q ps c tk rc) -> ps !! t = Some (m, pc) ->
  producer_step q m pc = Some (q', r) ->
  mq_inv (mkMQS q' (update_producer ps t m r) c (tk ++ record_ticket pc r m) rc).
Proof.
  intros Hb Hi Ht Hs. pose proof Hi as []; simpl in *.
  pose proof (inv_producers0 t _ Ht) as Hok. simpl in Hok. rewrite length_app in Hb.
  assert (Hb' : Z.of_nat (length tk) + N < 2 ^ 63) by lia. simpl in Hb.
  destruct pc as [|w|w|w|w]; simpl in Hs, Hok.
  - simplify_eq/=. rewrite app_nil_r.
    eapply inv_producer_move; [done|by left|by intros ? []|by intros ? []|]. simpl. lia.
  - destruct (load_producer_seq _ _ _ _ _ w Hb' Hi Hok) as (d & E & Hn & Hz & Hp).
    rewrite E in Hs. simplify_eq/=. rewrite app_nil_r.
    destruct (Z.ltb_spec d 0); simpl.
    + by eapply inv_producer_return; [done|done|intros ? []].
    + destruct (Z.eqb_spec d 0); simpl;
        (eapply inv_producer_move; [done|by left|by intros ? []|by intros ? []|]); simpl; [lia|done].
  - destruct (Z.eqb_spec (write_index_ q) w) as [<-|]; simplify_eq/=.
    + rewrite add64_small by lia. by apply inv_take_ticket.
    + rewrite app_nil_r. by eapply inv_producer_move; [done|by left|intros ? []|intros ? []|].
  - rewrite (store_message_eq k) in Hs by done. simplify_eq/=. rewrite app_nil_r.
    by apply inv_store_message.
  - rewrite (store_sequence_eq k) in Hs by done. simplify_eq/=. rewrite app_nil_r.
    rewrite add64_small by lia. by eapply inv_publish.
Qed.

Lemma inv_consumer_step q ps c tk rc q' c' r :
  Z.of_nat (length tk) + N < 2 ^ 63 ->
  mq_inv (mkMQS q ps c tk rc) -> consumer_step q c = Some (q', c', r) ->
  mq_inv (mkMQS q' ps c' tk (rc ++ record_received r)).
Proof.
  intros Hb Hi Hs. pose proof Hi as []; simpl in *. pose proof two_le_N.
  destruct c as [| |r'|r'|r' m|r' m|r' m| |r']; simpl in Hs, inv_consumer0; try done.
  - simplify_eq/=. rewrite app_nil_r. by apply (inv_consumer_move _ _ _ _ _ _ Hi).
  - subst r'. destruct (load_consumer_seq _ _ _ _ _ Hb Hi eq_refl) as (d & E & Hd).
    rewrite E in Hs. simplify_eq/=. destruct (Z.ltb_spec d 0); simplify_eq/=; rewrite app_nil_r;
      apply (inv_consumer_move _ _ _ _ _ _ Hi); simpl; try done. split; [done|]. by apply Hd.
  - rewrite (mail_slot_lookup k) in Hs by done. simplify_eq/=. rewrite app_nil_r.
    destruct inv_consumer0 as (-> & Hlt & Hnp).
    apply (inv_consumer_move _ _ _ _ _ _ Hi); simpl; try done. split_and!; try done.
    apply inv_published0; [lia|done|tauto].
  - rewrite (store_message_eq k) in Hs by done. simplify_eq/=. rewrite app_nil_r.
    by apply inv_clear_message.
  - simplify_eq/=. rewrite app_nil_r. rewrite add64_small by lia. by apply inv_store_index.
  - rewrite (store_sequence_eq k) in Hs by done. simplify_eq/=.
    rewrite (shape_size _ _ inv_shape0), add64_small by lia. by apply inv_store_sequence.
  - simplify_eq/=. rewrite app_nil_r. by apply (inv_consumer_move _ _ _ _ _ _ Hi).
  - subst r'. destruct (load_consumer_seq _ _ _ _ _ Hb Hi eq_refl) as (d & E & Hd).
    rewrite E in Hs. simplify_eq/=. rewrite app_nil_r. by apply (inv_consumer_move _ _ _ _ _ _ Hi).
Qed.

Lemma mq_step_inv s s' :
  Z.of_nat (length (tickets s')) + N < 2 ^ 63 -> mq_inv s -> mq_step s s' -> mq_inv s'.
Proof.
  intros Hb Hi Hs. destruct Hs as [q ps c tk rc t m Ht|q ps tk rc|q ps tk rc|
    q ps c tk rc t m pc q' r Ht Hs|q ps c tk rc t m w Ht|q ps c tk rc q' c' r Hs]; simpl in *.
  - by apply (inv_producer_move _ _ _ _ _ _ _ ELoadIndex _ Hi (or_intror Ht)); [intros ? []..|].
  - by apply (inv_consumer_move _ _ _ _ _ _ Hi).
  - by apply (inv_consumer_move _ _ _ _ _ _ Hi).
  - by eapply inv_producer_step.
  - by apply (inv_producer_move _ _ _ _ _ _ _ _ _ Hi (or_introl Ht)); [intros ? []..|].
  - by eapply inv_consumer_step.
Qed.

Lemma mq_step_tickets s s' : mq_step s s' -> (length (tickets s) <= length (tickets s'))%nat.
Proof. destruct 1; simpl; rewrite ?length_app; lia. Qed.

Lemma mq_inv_init size s : bit_ceil size = N -> mq_init size s -> mq_inv s.
Proof.
  intros E ->. pose proof (pow2_pos k). pose proof (new_mail_queue_shape k size E).
  split; simpl; try done; try lia.
  - intros i Hi. by rewrite new_mail_queue_slot by (done || lia).
Qed.

Lemma mq_reachable_inv size s :
  bit_ceil size = N -> reachable (mq_init size) mq_step s ->
  Z.of_nat (length (tickets s)) + N < 2 ^ 63 -> mq_inv s.
Proof.
  intros E Hr. pattern s. revert s Hr.
  apply reachable_ind; [by intros; eapply mq_inv_init|].
  intros s s' _ IH Hs Hb. eapply mq_step_inv; [done| |done]. apply IH.
  pose proof (mq_step_tickets _ _ Hs). lia.
Qed.

End Invariant.

(** ** Executable schedules *)

Inductive mq_choice :=
  | CallEnqueue (t : nat) (m : Z) | CallDequeue | CallCanDequeue | ProducerGo (t : nat) | ConsumerGo.

Definition mq_act (ch : mq_choice) (s : mq_state) : option mq_state :=
  let 'mkMQS q ps c tk rc := s in
  match ch with
  | CallEnqueue t m =>
      if ps !! t is None then Some (mkMQS q (<[t := (m, ELoadIndex)]> ps) c tk rc) else None
  | CallDequeue => if c is CIdle then Some (mkMQS q ps DLoadIndex tk rc) else None
  | CallCanDequeue => if c is CIdle then Some (mkMQS q ps QLoadIndex tk rc) else None
  | ProducerGo t =>
      '(m, pc) ← ps !! t;
      '(q', r) ← producer_step q m pc;
      Some (mkMQS q' (update_producer ps t m r) c (tk ++ record_ticket pc r m) rc)
  | ConsumerGo =>
      '(q', c', r) ← consumer_step q c;
      Some (mkMQS q' ps c' tk (rc ++ record_received r))
  end.

Lemma mq_act_step ch s s' : mq_act ch s = Some s' -> mq_step s s'.
Proof.
  destruct s as [q ps c tk rc], ch as [t m| | |t|]; simpl; intros H.
  - destruct (ps !! t) eqn:?; simplify_eq. by constructor.
  - destruct c; simplify_eq. constructor.
  - destruct c; simplify_eq. constructor.
  - destruct (ps !! t) as [[m pc]|] eqn:?; [|done]. simpl in H.
    destruct (producer_step q m pc) as [[q' r]|] eqn:?; simplify_eq/=. by econstructor.
  - destruct (consumer_step q c) as [[[q' c'] r]|] eqn:?; simplify_eq/=. by constructor.
Qed.

Lemma mq_schedule_reachable size cs s :
  run_schedule mq_act cs (mkMQS (new_mail_queue size) ∅ CIdle [] []) = Some s ->
  reachable (mq_init size) mq_step s.
Proof.
  apply (run_schedule_reachable _ _ _ mq_act_step). by apply reachable_init.
Qed.

(** ** The theorems *)

Section Theorems.
Context (size : Z) (Hsize : 2 <= size <= 2 ^ 61).

Lemma size_exponent :
  bit_ceil size = 2 ^ Z.of_nat (Z.to_nat (Z.log2_up size)) /\
  (1 <= Z.to_nat (Z.log2_up size))%nat.
Proof.
  split; [apply bit_ceil_pow|].
  pose proof (Z.log2_up_le_mono 2 size). change (Z.log2_up 2) with 1 in *. lia.
Qed.

Lemma mq_inv_of s :
  reachable (mq_init size) mq_step s ->
  Z.of_nat (length (tickets s)) + bit_ceil size < 2 ^ 63 ->
  mq_inv (Z.to_nat (Z.log2_up size)) s.
Proof.
  destruct size_exponent as [E Hk]. intros Hr Hb. rewrite E in Hb.
  by apply (mq_reachable_inv _ Hk size).
Qed.

(** In every interleaving of any number of producers with the consumer,
    the messages the consumer has received are an initial segment of the
    messages in ticket order (the order of the successful compare-exchanges
    on [write_index_]), and at most [bit_ceil size] tickets are outstanding:
    nothing is lost, duplicated or reordered. *)
Theorem mq_fifo (s : mq_state) :
  reachable (mq_init size) mq_step s ->
  Z.of_nat (length (tickets s)) + bit_ceil size < 2 ^ 63 ->
  received s `prefix_of` tickets s /\
  Z.of_nat (length (tickets s)) <= Z.of_nat (length (received s)) + bit_ceil size.
Proof.
  intros Hr Hb. pose proof (mq_inv_of s Hr Hb) as []. destruct size_exponent as [E _].
  rewrite inv_received0. split.
  - exists (drop (Z.to_nat (released (mq s) (consumer s))) (tickets s)). by rewrite take_drop.
  - rewrite length_take. rewrite E. lia.
Qed.

(** [try_enqueue] gives up (returns false) only when the queue is full:
    [bit_ceil size] tickets are taken and not yet handed back; and it retries
    only after another producer has taken a ticket. *)
Theorem mq_enqueue_outcome (s : mq_state) t m w q' r :
  reachable (mq_init size) mq_step s ->
  Z.of_nat (length (tickets s)) + bit_ceil size < 2 ^ 63 ->
  producers s !! t = Some (m, ELoadSeq w) ->
  producer_step (mq s) m (ELoadSeq w) = Some (q', r) ->
  (r = inr false -> Z.of_nat (length (tickets s)) = Z.of_nat (length (received s)) + bit_ceil size) /\
  (r = inl ELoadIndex -> w < write_index_ (mq s)).
Proof.
  intros Hr Hb Ht Hs. pose proof (mq_inv_of s Hr Hb) as Hi. destruct size_exponent as [E Hk].
  destruct s as [q ps c tk rc]. pose proof Hi as []. simpl in *. rewrite E in *.
  pose proof (inv_producers0 t _ Ht) as Hw. simpl in Hw.
  destruct (load_producer_seq _ Hk _ _ _ _ _ w Hb Hi Hw) as (d & Ed & Hn & _ & Hp).
  rewrite Ed in Hs. simplify_eq/=. rewrite length_take.
  destruct (Z.ltb_spec d 0); [split; [lia|done]|].
  destruct (Z.eqb_spec d 0); [done|]. split; [done|lia].
Qed.

Ltac no_answer := split; [intros [?|?]|intros ?]; congruence.

Lemma clamp_index x n : 0 <= x <= Z.of_nat n -> Z.of_nat (Z.to_nat x `min` n) = x.
Proof. lia. Qed.

Lemma nothing_published q (ps : gmap nat (Z * prod_pc)) (tk : list Z) (n : nat) d :
  write_index_ q = Z.of_nat (length tk) ->
  0 <= read_index_ q <= write_index_ q ->
  n = (Z.to_nat (read_index_ q) `min` length tk)%nat ->
  (0 <= d <-> read_index_ q < write_index_ q /\ ~ pending ps (read_index_ q)) ->
  d < 0 -> length tk = n \/ pending ps (read_index_ q).
Proof.
  intros Hw Hr -> Hd Hneg.
  destruct (decide (read_index_ q < write_index_ q)); [|left; lia]. right.
  destruct (decide (pending ps (read_index_ q))); [done|].
  assert (0 <= d) by by apply Hd. lia.
Qed.

(** [try_dequeue] and [can_dequeue] answer for the oldest ticket: the
    consumer is told that there is nothing exactly when the next ticket is
    not taken or its message is not published yet. *)
Theorem mq_dequeue_outcome (s : mq_state) q' c' r :
  reachable (mq_init size) mq_step s ->
  Z.of_nat (length (tickets s)) + bit_ceil size < 2 ^ 63 ->
  consumer_step (mq s) (consumer s) = Some (q', c', r) ->
  (r = CDequeued None \/ r = CCanDequeue false ->
     length (tickets s) = length (received s) \/
     pending (producers s) (Z.of_nat (length (received s)))) /\
  (r = CCanDequeue true ->
     (length (received s) < length (tickets s))%nat /\
     ~ pending (producers s) (Z.of_nat (length (received s)))).
Proof.
  intros Hr Hb Hs. pose proof (mq_inv_of s Hr Hb) as Hi. destruct size_exponent as [E Hk].
  destruct s as [q ps c tk rc]. pose proof Hi as []. simpl in *. rewrite E in *.
  rewrite inv_received0, length_take.
  pose proof (inv_read0) as Hrd. pose proof (inv_write0) as Hwr.
  destruct c as [| |i|i|i m|i m|i m| |i]; simpl in Hs, inv_consumer0, Hrd |- *; try done;
    try (simplify_eq/=; no_answer).
  - subst i. destruct (load_consumer_seq _ Hk _ _ _ _ _ Hb Hi eq_refl) as (d & Ed & Hd).
    rewrite Ed in Hs. simpl in Hs.
    destruct (Z.ltb_spec d 0); simplify_eq; [|no_answer]. split; [|congruence]. intros _.
    rewrite clamp_index by lia. apply (nothing_published _ _ _ _ d); done || lia.
  - destruct (queue_ q !! _); simplify_eq/=. no_answer.
  - destruct (store_message q _ _); simplify_eq/=. no_answer.
  - destruct (store_sequence q _ _); simplify_eq/=. no_answer.
  - subst i. destruct (load_consumer_seq _ Hk _ _ _ _ _ Hb Hi eq_refl) as (d & Ed & Hd).
    rewrite Ed in Hs. simplify_eq/=. rewrite clamp_index by lia.
    destruct (Z.leb_spec 0 d) as [Hge|]; (split; [intros [?|?]|intros ?]); try congruence.
    + apply Hd in Hge as [? ?]. split; [lia|done].
    + apply (nothing_published _ _ _ _ d); done || lia.
Qed.

End Theorems.

(** Two producers on a queue of two slots: thread 0 takes the first ticket,
    thread 1 takes the second and publishes first. *)
Definition overtaking : list mq_choice :=
  [CallEnqueue 0 100; ProducerGo 0; ProducerGo 0; ProducerGo 0;
   CallEnqueue 1 200; ProducerGo 1; ProducerGo 1; ProducerGo 1; ProducerGo 1; ProducerGo 1].

Definition drain_one : list mq_choice :=
  [ProducerGo 0; ProducerGo 0; CallDequeue; ConsumerGo; ConsumerGo; ConsumerGo; ConsumerGo;
   ConsumerGo; ConsumerGo].

Lemma mq_fifo_witness :
  exists s, run_schedule mq_act (overtaking ++ drain_one)
      (mkMQS (new_mail_queue 2) ∅ CIdle [] []) = Some s /\
    tickets s = [100; 200] /\ received s = [100] /\ received s `prefix_of` tickets s.
Proof.
  eexists. split; [vm_compute; reflexivity|]. split; [reflexivity|]. split; [reflexivity|].
  apply (proj1 (mq_fifo 2 ltac:(lia) _
    (mq_schedule_reachable 2 (overtaking ++ drain_one) _ ltac:(vm_compute; reflexivity))
    ltac:(vm_compute; reflexivity))).
Defined.

Lemma mq_enqueue_outcome_witness :
  exists s q', run_schedule mq_act (overtaking ++ [CallEnqueue 2 300; ProducerGo 2])
      (mkMQS (new_mail_queue 2) ∅ CIdle [] []) = Some s /\
    producer_step (mq s) 300 (ELoadSeq 2) = Some (q', inr false) /\
    Z.of_nat (length (tickets s)) = Z.of_nat (length (received s)) + bit_ceil 2.
Proof.
  eexists _, _. split; [vm_compute; reflexivity|]. split; [vm_compute; reflexivity|].
  eapply (proj1 (mq_enqueue_outcome 2 ltac:(lia) _ 2%nat 300 2 _ (inr false)
    (mq_schedule_reachable 2 (overtaking ++ [CallEnqueue 2 300; ProducerGo 2]) _
       ltac:(vm_compute; reflexivity))
    ltac:(vm_compute; reflexivity) ltac:(reflexivity) ltac:(vm_compute; reflexivity))).
  reflexivity.
Defined.

Lemma mq_dequeue_outcome_witness :
  exists s q' c', run_schedule mq_act (overtaking ++ [CallCanDequeue; ConsumerGo])
      (mkMQS (new_mail_queue 2) ∅ CIdle [] []) = Some s /\
    consumer_step (mq s) (consumer s) = Some (q', c', CCanDequeue false) /\
    (length (tickets s) = length (received s) \/ pending (producers s) 0).
Proof.
  eexists _, _, _. split; [vm_compute; reflexivity|]. split; [vm_compute; reflexivity|].
  eapply (proj1 (mq_dequeue_outcome 2 ltac:(lia) _ _ _ (CCanDequeue false)
    (mq_schedule_reachable 2 (overtaking ++ [CallCanDequeue; ConsumerGo]) _
       ltac:(vm_compute; reflexivity))
    ltac:(vm_compute; reflexivity) ltac:(vm_compute; reflexivity))).
  right. reflexivity.
Defined.
