(* ===== verification/MailBoxConc.v ===== *)
(** * Sleeping and waking the consumer of a mailbox

    [MailBox::Send] (src/core/mail_box.cc), [ArmConsumer], [MarkRunning] and
    the [WaitAwaiter] of include/mail_box.h, interleaved access by access. The
    [MailQueue] underneath appears as what MailQueueConc.v proves it to be: a
    FIFO of tickets whose messages are published one by one, of which the
    consumer sees the oldest ([mq_fifo], [mq_enqueue_outcome],
    [mq_dequeue_outcome]). *)

From Stdlib Require Import ZArith Lia.
From stdpp Require Import base list relations gmap.
From S2P Require Import Prelude.

Module Wake.

(** A thread inside [Send] ([S...]), one that executes the consumer coroutine
    ([C...]), or one still inside [await_suspend] after it has cleared
    [scheduled_] ([R...]): from that moment the coroutine counts as suspended
    and another thread may already be running it. *)
Inductive agent :=
  | SEnqueue (m : Z)      (* about to call [try_enqueue] *)
  | SPublish (w : nat) (m : Z) (* holds ticket [w], message not published *)
  | SExchange             (* [scheduled_.exchange(true)] *)
  | SLoadConsumer         (* [consumer_.load()] *)
  | SSchedule             (* [ActorScheduler::Enqueue(handle)] *)
  | CMarkRunning          (* first resumption: [MarkRunning()] *)
  | CRun                  (* in the receive loop *)
  | CReady                (* [await_ready] *)
  | CStoreConsumer        (* [await_suspend]: [consumer_.store(handle)] *)
  | CClear                (* [scheduled_.exchange(false)] *)
  | RCheck                (* [can_dequeue()] of [await_suspend] *)
  | RExchange             (* [scheduled_.exchange(true)] of [await_suspend] *)
  | CDone.                (* the coroutine returned *)

Record mb_state := mkMB {
  cells : list (option Z);  (* outstanding tickets, oldest first; [Some] published *)
  rd : nat;                 (* tickets consumed *)
  scheduled_ : bool;
  consumer_ : bool;         (* [consumer_] is not null *)
  started : bool;           (* the coroutine has been resumed once *)
  runq : nat;               (* occurrences of the handle in the run queues *)
  agents : gmap nat agent
}.

Definition head_published (cs : list (option Z)) : bool :=
  match cs with Some _ :: _ => true | _ => false end.

Definition move (s : mb_state) (t : nat) (a : agent) : mb_state :=
  mkMB (cells s) (rd s) (scheduled_ s) (consumer_ s) (started s) (runq s) (<[t := a]> (agents s)).

Definition leave (s : mb_state) (t : nat) : mb_state :=
  mkMB (cells s) (rd s) (scheduled_ s) (consumer_ s) (started s) (runq s) (delete t (agents s)).

Definition set_cells (s : mb_state) (cs : list (option Z)) (r : nat) : mb_state :=
  mkMB cs r (scheduled_ s) (consumer_ s) (started s) (runq s) (agents s).

Definition set_scheduled (s : mb_state) (b : bool) : mb_state :=
  mkMB (cells s) (rd s) b (consumer_ s) (started s) (runq s) (agents s).

Definition set_consumer (s : mb_state) (b : bool) : mb_state :=
  mkMB (cells s) (rd s) (scheduled_ s) b (started s) (runq s) (agents s).

Definition set_runq (s : mb_state) (st : bool) (n : nat) : mb_state :=
  mkMB (cells s) (rd s) (scheduled_ s) (consumer_ s) st n (agents s).

Section Steps.
Context (cap : nat).

(** The next access of agent [a] of thread [t]. *)
Inductive agent_step (s : mb_state) (t : nat) : agent -> mb_state -> Prop :=
  | StFull m : length (cells s) = cap -> agent_step s t (SEnqueue m) (leave s t)
  | StTicket m : length (cells s) < cap ->
      agent_step s t (SEnqueue m)
        (move (set_cells s (cells s ++ [None]) (rd s)) t (SPublish (rd s + length (cells s)) m))
  | StPublish w m :
      agent_step s t (SPublish w m)
        (move (set_cells s (<[w - rd s := Some m]> (cells s)) (rd s)) t SExchange)
  | StExchangeTrue : scheduled_ s = true -> agent_step s t SExchange (leave s t)
  | StExchangeFalse : scheduled_ s = false ->
      agent_step s t SExchange (move (set_scheduled s true) t SLoadConsumer)
  | StLoadNull : consumer_ s = false -> agent_step s t SLoadConsumer (leave s t)
  | StLoadHandle : consumer_ s = true -> agent_step s t SLoadConsumer (move s t SSchedule)
  | StSchedule : agent_step s t SSchedule (leave (set_runq s (started s) (S (runq s))) t)
  | StMarkRunning : agent_step s t CMarkRunning (move (set_scheduled s true) t CRun)
  | StReceive m cs : cells s = Some m :: cs ->
      agent_step s t CRun (move (set_cells s cs (S (rd s))) t CRun)
  | StDrained : head_published (cells s) = false -> agent_step s t CRun (move s t CReady)
  | StReturn : agent_step s t CRun (move s t CDone)
  | StReadyTrue : head_published (cells s) = true -> agent_step s t CReady (move s t CRun)
  | StReadyFalse : head_published (cells s) = false ->
      agent_step s t CReady (move s t CStoreConsumer)
  | StStoreConsumer : agent_step s t CStoreConsumer (move (set_consumer s true) t CClear)
  | StClear : agent_step s t CClear (move (set_scheduled s false) t RCheck)
  | StCheckFalse : head_published (cells s) = false -> agent_step s t RCheck (leave s t)
  | StCheckTrue :
      (* also taken when the index that was read is no longer the oldest: its
         slot then carries a later sequence number and the test succeeds *)
      agent_step s t RCheck (move s t RExchange)
  | StReclaimTrue : scheduled_ s = true -> agent_step s t RExchange (leave s t)
  | StReclaimFalse : scheduled_ s = false ->
      agent_step s t RExchange (move (set_scheduled s true) t CRun).

Inductive mb_step : mb_state -> mb_state -> Prop :=
  | MbSend s t m : agents s !! t = None -> mb_step s (move s t (SEnqueue m))
  | MbResume s t n :
      (* a worker takes the handle from a run queue and resumes it *)
      agents s !! t = None -> runq s = S n ->
      mb_step s (move (set_runq s true n) t (if started s then CRun else CMarkRunning))
  | MbAgent s t a s' : agents s !! t = Some a -> agent_step s t a s' -> mb_step s s'.

(** The coroutine has been put into a run queue for the first time; [armed]
    when [ArmConsumer] was called before. *)
Definition mb_start (armed : bool) : mb_state := mkMB [] 0 armed armed false 1 ∅.

Definition mb_init (armed : bool) (s : mb_state) : Prop := s = mb_start armed.

(** ** The right to run the coroutine *)

(** Agents that hold the right: they execute the coroutine, or are committed
    to put it into a run queue. *)
Definition token (a : agent) : nat :=
  match a with
  | SLoadConsumer | SSchedule | CMarkRunning | CRun | CReady | CStoreConsumer | CClear => 1
  | _ => 0
  end.

(** Agents on whose account [scheduled_] is set: these, and the one that has
    returned from the coroutine (it leaves the flag set). *)
Definition owner (a : agent) : nat := match a with CDone => 1 | _ => token a end.

Definition tokens (s : mb_state) : nat := runq s + map_sum owner (agents s).

(** Agents that are going to look at [scheduled_] or at the queue again. *)
Definition watching (a : agent) : bool :=
  match a with SExchange | RCheck | RExchange => true | _ => false end.

Record mb_inv (s : mb_state) : Prop := {
  inv_tokens : tokens s = (if scheduled_ s then 1 else 0)%nat;
  inv_consumer : consumer_ s = true;
  inv_watched : head_published (cells s) = true -> scheduled_ s = false ->
    exists t a, agents s !! t = Some a /\ watching a = true
}.

Lemma tokens_move s t a b :
  agents s !! t = Some a -> tokens (move s t b) + owner a = tokens s + owner b.
Proof.
  intros Ht. unfold tokens. simpl. pose proof (map_sum_update owner _ _ _ b Ht). lia.
Qed.

Lemma tokens_leave s t a :
  agents s !! t = Some a -> tokens (leave s t) + owner a = tokens s.
Proof.
  intros Ht. unfold tokens. simpl. pose proof (map_sum_delete owner _ _ _ Ht). lia.
Qed.

Lemma tokens_enter s t a :
  agents s !! t = None -> tokens (move s t a) = tokens s + owner a.
Proof. intros Ht. unfold tokens. simpl. rewrite map_sum_insert by done. lia. Qed.

(** An agent that holds the right implies [scheduled_]. *)
Lemma token_scheduled s t a :
  mb_inv s -> agents s !! t = Some a -> owner a = 1 -> scheduled_ s = true.
Proof.
  intros [Hi _ _] Ht Ha. pose proof (map_sum_le owner _ _ _ Ht). unfold tokens in Hi.
  destruct (scheduled_ s); [done|lia].
Qed.

(** The watchers other than thread [t] stay. *)
Lemma watched_move s t a b :
  (exists t' a', agents s !! t' = Some a' /\ watching a' = true) ->
  agents s !! t = Some a -> (watching a = true -> watching b = true) ->
  exists t' a', <[t := b]> (agents s) !! t' = Some a' /\ watching a' = true.
Proof.
  intros (t' & a' & Ht' & Hw) Ht Hb. destruct (decide (t = t')) as [<-|Hne].
  - exists t, b. rewrite lookup_insert_eq. simplify_eq. auto.
  - exists t', a'. by rewrite lookup_insert_ne.
Qed.

Lemma watched_here s t b :
  watching b = true -> exists t' a', <[t := b]> (agents s) !! t' = Some a' /\ watching a' = true.
Proof. intros Hb. exists t, b. by rewrite lookup_insert_eq. Qed.

(** Token accounting of one step. *)
Ltac count_tokens Ht :=
  match goal with
  | |- tokens (move ?s ?t ?b) = _ =>
      pose proof (tokens_move s t _ b Ht) as Hc; unfold tokens in *; simpl in *
  | |- tokens (leave ?s ?t) = _ =>
      pose proof (tokens_leave s t _ Ht) as Hc; unfold tokens in *; simpl in *
  end.

Lemma agent_step_tokens s t a s' :
  mb_inv s -> agents s !! t = Some a -> agent_step s t a s' ->
  tokens s' = (if scheduled_ s' then 1 else 0).
Proof.
  intros Hi Ht Hs. pose proof (inv_tokens _ Hi) as Hk. pose proof (inv_consumer _ Hi) as Hcn.
  pose proof (token_scheduled s t a Hi Ht) as Hsch.
  destruct Hs; count_tokens Ht; try specialize (Hsch eq_refl);
    destruct (scheduled_ s); try discriminate; try congruence; lia.
Qed.

Lemma agent_step_watched s t a s' :
  mb_inv s -> agents s !! t = Some a -> agent_step s t a s' ->
  head_published (cells s') = true -> scheduled_ s' = false ->
  exists t' a', agents s' !! t' = Some a' /\ watching a' = true.
Proof.
  intros Hi Ht Hs Hh Hf. pose proof (inv_watched _ Hi) as Hw.
  pose proof (token_scheduled s t a Hi Ht) as Hsch.
  destruct Hs; simpl in *; try congruence; try (specialize (Hsch eq_refl); congruence);
    try (by apply watched_here).
  - (* dropped message *)
    destruct (Hw Hh Hf) as (t' & a' & Ht' & Ha'). exists t', a'.
    rewrite lookup_delete_ne; [done|]. intros <-. by simplify_eq.
  - (* a ticket appended *)
    eapply watched_move; [|done|done]. apply Hw; [|done].
    by destruct (cells s) as [|[]].
Qed.

Lemma mb_step_inv s s' : mb_inv s -> mb_step s s' -> mb_inv s'.
Proof.
  intros Hi Hs. pose proof Hi as [Hk Hc Hw]. destruct Hs as [s t m Ht|s t n Ht Hq|s t a s' Ht Hs].
  - split; simpl; try done.
    + rewrite tokens_enter by done. simpl. lia.
    + intros Hh Hf. destruct (Hw Hh Hf) as (t' & a' & Ht' & Ha'). exists t', a'.
      rewrite lookup_insert_ne; [done|]. intros <-. by simplify_eq.
  - split; simpl; try done.
    + rewrite tokens_enter by done. unfold tokens in *. simpl. rewrite Hq in Hk.
      destruct (started s); simpl; lia.
    + intros Hh Hf. destruct (Hw Hh Hf) as (t' & a' & Ht' & Ha'). exists t', a'.
      rewrite lookup_insert_ne; [done|]. intros <-. by simplify_eq.
  - split.
    + by eapply agent_step_tokens.
    + by destruct Hs.
    + by eapply agent_step_watched.
Qed.

Lemma mb_reachable_inv s : reachable (mb_init true) mb_step s -> mb_inv s.
Proof.
  revert s. apply reachable_ind.
  - intros s ->. split; done.
  - intros s s' _. apply mb_step_inv.
Qed.

(** ** Every unpublished ticket has its sender *)

Record tickets_inv (s : mb_state) : Prop := {
  inv_holder : forall i, cells s !! i = Some None ->
    exists t m, agents s !! t = Some (SPublish (rd s + i) m);
  inv_ticket : forall t w m, agents s !! t = Some (SPublish w m) ->
    rd s <= w /\ cells s !! (w - rd s) = Some None;
  inv_once : forall t1 t2 w m1 m2, agents s !! t1 = Some (SPublish w m1) ->
    agents s !! t2 = Some (SPublish w m2) -> t1 = t2
}.

Definition publishing (a : agent) : bool := if a is SPublish _ _ then true else false.

(** A step that leaves the queue alone and starts or ends no publication. *)
Lemma tickets_inv_agents s s' :
  tickets_inv s -> cells s' = cells s -> rd s' = rd s ->
  (forall t w m, agents s' !! t = Some (SPublish w m) <-> agents s !! t = Some (SPublish w m)) ->
  tickets_inv s'.
Proof.
  intros [Hh Ht Ho] Ec Er Hag. split; rewrite ?Ec, ?Er.
  - intros i Hi. destruct (Hh i Hi) as (t & m & H). exists t, m. by apply Hag.
  - intros t w m H%Hag. by eapply Ht.
  - intros t1 t2 w m1 m2 H1%Hag H2%Hag. by eapply Ho.
Qed.

Lemma publish_insert (ag : gmap nat agent) t a b t' w m :
  ag !! t = a -> (forall x, a = Some x -> publishing x = false) -> publishing b = false ->
  <[t := b]> ag !! t' = Some (SPublish w m) <-> ag !! t' = Some (SPublish w m).
Proof.
  intros Ha Hx Hb. destruct (decide (t = t')) as [<-|]; [|by rewrite lookup_insert_ne].
  rewrite lookup_insert_eq. split; intros E.
  - by simplify_eq.
  - rewrite E in Ha. subst a. by specialize (Hx _ eq_refl).
Qed.

Lemma publish_delete (ag : gmap nat agent) t a t' w m :
  ag !! t = Some a -> publishing a = false ->
  delete t ag !! t' = Some (SPublish w m) <-> ag !! t' = Some (SPublish w m).
Proof.
  intros Ha Hx. destruct (decide (t = t')) as [<-|]; [|by rewrite lookup_delete_ne].
  rewrite lookup_delete_eq. split; intros E; [done|]. by simplify_eq.
Qed.

Lemma tickets_append s t m0 m :
  tickets_inv s -> agents s !! t = Some (SEnqueue m0) ->
  tickets_inv (move (set_cells s (cells s ++ [None]) (rd s)) t (SPublish (rd s + length (cells s)) m)).
Proof.
  intros [Hh Ht Ho] Ha. split; simpl.
  - intros i Hi. apply lookup_app_Some in Hi as [Hi|[Hge Hi]].
    + destruct (Hh i Hi) as (t' & m' & H). exists t', m'. rewrite lookup_insert_ne; [done|].
      intros <-. by simplify_eq.
    + exists t, m. rewrite lookup_insert_eq. do 2 f_equal. apply list_lookup_singleton_Some in Hi.
      lia.
  - intros t' w m' H. apply lookup_insert_Some in H as [[<- ?]|[Hne H]]; simplify_eq.
    + split; [lia|]. apply list_lookup_middle. lia.
    + destruct (Ht _ _ _ H). split; [done|]. by apply lookup_app_l_Some.
  - assert (Hlt : forall t' w m', agents s !! t' = Some (SPublish w m') -> w < rd s + length (cells s)).
    { intros t' w m' H. destruct (Ht _ _ _ H) as [? Hl%lookup_lt_Some]. lia. }
    intros t1 t2 w m1 m2 H1 H2.
    apply lookup_insert_Some in H1 as [[<- ?]|[? H1]], H2 as [[<- ?]|[? H2]]; simplify_eq; try done.
    + apply Hlt in H2. lia.
    + apply Hlt in H1. lia.
    + by eapply Ho.
Qed.

Lemma tickets_publish s t w m :
  tickets_inv s -> agents s !! t = Some (SPublish w m) ->
  tickets_inv (move (set_cells s (<[w - rd s := Some m]> (cells s)) (rd s)) t SExchange).
Proof.
  intros [Hh Ht Ho] Ha. destruct (Ht _ _ _ Ha) as [Hw Hc]. split; simpl.
  - intros i Hi. destruct (decide (i = w - rd s)) as [->|Hne].
    { rewrite list_lookup_insert_eq in Hi by by eapply lookup_lt_Some. done. }
    rewrite list_lookup_insert_ne in Hi by done. destruct (Hh i Hi) as (t' & m' & H).
    exists t', m'. rewrite lookup_insert_ne; [done|]. intros <-. simplify_eq. lia.
  - intros t' w' m' H. apply lookup_insert_Some in H as [[<- ?]|[Hne H]]; simplify_eq.
    destruct (Ht _ _ _ H). split; [done|]. rewrite list_lookup_insert_ne; [done|].
    intros E. apply Hne. apply (Ho t t' w m m'); [done|]. assert (w' = w) as -> by lia. done.
  - intros t1 t2 w' m1 m2 H1 H2.
    apply lookup_insert_Some in H1 as [[<- ?]|[? H1]], H2 as [[<- ?]|[? H2]]; simplify_eq.
    by eapply Ho.
Qed.

Lemma tickets_receive s t m cs :
  tickets_inv s -> agents s !! t = Some CRun -> cells s = Some m :: cs ->
  tickets_inv (move (set_cells s cs (S (rd s))) t CRun).
Proof.
  intros [Hh Ht Ho] Ha Ec.
  assert (Hag : forall t' w m', <[t := CRun]> (agents s) !! t' = Some (SPublish w m') <->
                 agents s !! t' = Some (SPublish w m')).
  { intros. eapply publish_insert; [done|by intros; simplify_eq|done]. }
  rewrite Ec in *. split; simpl.
  - intros i Hi. destruct (Hh (S i) Hi) as (t' & m' & H). exists t', m'. apply Hag.
    by rewrite <- Nat.add_succ_comm in H.
  - intros t' w m' H%Hag. destruct (Ht _ _ _ H) as [? Hw].
    destruct (w - rd s) as [|n] eqn:E; [done|]. split; [lia|].
    replace (w - S (rd s)) with n by lia. done.
  - intros t1 t2 w m1 m2 H1%Hag H2%Hag. by eapply Ho.
Qed.

Lemma mb_step_tickets s s' : tickets_inv s -> mb_step s s' -> tickets_inv s'.
Proof.
  intros Hi Hs. destruct Hs as [s t m Ht|s t n Ht Hq|s t a s' Ht Hs].
  - apply (tickets_inv_agents _ _ Hi); [done..|]. intros. by eapply publish_insert.
  - apply (tickets_inv_agents _ _ Hi); [done..|]. intros. eapply publish_insert; [done..|].
    by destruct (started s).
  - destruct Hs;
      first [ by eapply tickets_append | by apply tickets_publish | by eapply tickets_receive
            | apply (tickets_inv_agents _ _ Hi); [done..|]; intros; simpl;
              first [ by eapply publish_insert; [done|by intros; simplify_eq|]
                    | by eapply publish_delete ] ].
Qed.

Lemma mb_reachable_tickets armed s : reachable (mb_init armed) mb_step s -> tickets_inv s.
Proof.
  revert s. apply reachable_ind.
  - intros s ->. split; simpl; intros; simplify_map_eq; done.
  - intros s s' _. apply mb_step_tickets.
Qed.

(** ** Executable schedules *)

Inductive mb_choice :=
  | ChSend (t : nat) (m : Z)
  | ChResume (t : nat)
  | ChGo (t : nat)      (* the next access; a receive loop takes a message or drains *)
  | ChSpurious (t : nat). (* [can_dequeue] of [await_suspend] read an old index *)

Definition agent_act (s : mb_state) (t : nat) (a : agent) : option mb_state :=
  match a with
  | SEnqueue m =>
      if decide (length (cells s) = cap) then Some (leave s t)
      else if decide (length (cells s) < cap) then
        Some (move (set_cells s (cells s ++ [None]) (rd s)) t (SPublish (rd s + length (cells s)) m))
      else None
  | SPublish w m =>
      Some (move (set_cells s (<[w - rd s := Some m]> (cells s)) (rd s)) t SExchange)
  | SExchange =>
      Some (if scheduled_ s then leave s t else move (set_scheduled s true) t SLoadConsumer)
  | SLoadConsumer => Some (if consumer_ s then move s t SSchedule else leave s t)
  | SSchedule => Some (leave (set_runq s (started s) (S (runq s))) t)
  | CMarkRunning => Some (move (set_scheduled s true) t CRun)
  | CRun =>
      Some match cells s with
           | Some _ :: cs => move (set_cells s cs (S (rd s))) t CRun
           | _ => move s t CReady
           end
  | CReady => Some (move s t (if head_published (cells s) then CRun else CStoreConsumer))
  | CStoreConsumer => Some (move (set_consumer s true) t CClear)
  | CClear => Some (move (set_scheduled s false) t RCheck)
  | RCheck => Some (if head_published (cells s) then move s t RExchange else leave s t)
  | RExchange => Some (if scheduled_ s then leave s t else move (set_scheduled s true) t CRun)
  | CDone => None
  end.

Lemma agent_act_step s t a s' : agent_act s t a = Some s' -> agent_step s t a s'.
Proof.
  destruct a; simpl; intros H; simplify_eq; repeat case_decide; simplify_eq; try by constructor.
  - destruct (scheduled_ s) eqn:?; by constructor.
  - destruct (consumer_ s) eqn:?; by constructor.
  - destruct (cells s) as [|[m|] cs] eqn:E; first [by econstructor|constructor; by rewrite E].
  - destruct (head_published (cells s)) eqn:?; by constructor.
  - destruct (head_published (cells s)) eqn:?; by constructor.
  - destruct (scheduled_ s) eqn:?; by constructor.
Qed.

Definition mb_act (c : mb_choice) (s : mb_state) : option mb_state :=
  match c with
  | ChSend t m => if agents s !! t is None then Some (move s t (SEnqueue m)) else None
  | ChResume t =>
      if agents s !! t is None then
        if runq s is S n then
          Some (move (set_runq s true n) t (if started s then CRun else CMarkRunning))
        else None
      else None
  | ChGo t => a ← agents s !! t; agent_act s t a
  | ChSpurious t => if agents s !! t is Some RCheck then Some (move s t RExchange) else None
  end.

Lemma mb_act_step c s s' : mb_act c s = Some s' -> mb_step s s'.
Proof.
  destruct c as [t m|t|t|t]; simpl; intros H.
  - destruct (agents s !! t) eqn:?; simplify_eq. by constructor.
  - destruct (agents s !! t) eqn:?; [done|]. destruct (runq s) eqn:?; simplify_eq. by constructor.
  - destruct (agents s !! t) as [a|] eqn:?; [|done]. econstructor; [done|].
    by apply agent_act_step.
  - destruct (agents s !! t) as [[]|] eqn:?; simplify_eq. econstructor; [done|]. constructor.
Qed.

Lemma mb_schedule_reachable armed cs s :
  run_schedule mb_act cs (mb_start armed) = Some s -> reachable (mb_init armed) mb_step s.
Proof.
  apply (run_schedule_reachable _ _ _ mb_act_step). by apply reachable_init.
Qed.

(** ** The theorems *)

(** Agents that execute the body of the coroutine. *)
Definition executing (a : agent) : bool :=
  match a with CMarkRunning | CRun | CReady | CStoreConsumer | CClear => true | _ => false end.

Lemma executing_token a : executing a = true -> owner a = 1.
Proof. by destruct a. Qed.

Lemma returned_stays s s' t :
  agents s !! t = Some CDone -> mb_step s s' -> agents s' !! t = Some CDone.
Proof.
  intros Ht Hs. destruct Hs as [s u m Hu|s u n Hu Hq|s u a s' Hu Hs];
    [simpl; rewrite lookup_insert_ne; congruence..|].
  assert (u <> t) as Hne by (intros ->; simplify_eq; inversion Hs).
  destruct Hs; simpl; by rewrite ?lookup_insert_ne, ?lookup_delete_ne by done.
Qed.

(** C21. When the consumer was armed before its first run, at most one thread
    executes the coroutine at any time, its handle sits in the run queues at
    most once, and never while a thread executes it. *)
Theorem wake_mutual_exclusion (s : mb_state) :
  reachable (mb_init true) mb_step s ->
  runq s <= 1 /\
  (forall t a, agents s !! t = Some a -> executing a = true -> runq s = 0) /\
  (forall t1 t2 a1 a2, agents s !! t1 = Some a1 -> agents s !! t2 = Some a2 ->
     executing a1 = true -> executing a2 = true -> t1 = t2).
Proof.
  intros Hr. pose proof (inv_tokens _ (mb_reachable_inv _ Hr)) as Hk.
  assert (Hle : runq s + map_sum owner (agents s) <= 1).
  { unfold tokens in Hk. destruct (scheduled_ s); lia. }
  split_and!; [lia| |].
  - intros t a Ht Ha%executing_token. pose proof (map_sum_le owner _ _ _ Ht). lia.
  - intros t1 t2 a1 a2 H1 H2 Ha1%executing_token Ha2%executing_token.
    destruct (decide (t1 = t2)) as [|Hne]; [done|].
    pose proof (map_sum_le2 owner _ _ _ _ _ H1 H2 Hne). lia.
Qed.

(** C5. No wake-up is lost, in every sequentially consistent interleaving from an
    armed start, as long as the coroutine has not returned: whenever the oldest
    message of the mailbox is published, the coroutine is running or in a run
    queue, or a thread is committed to schedule it, or a thread is still going
    to look. ([mark_running_loses_message] of MailBoxWeak.v is about executions
    that are not sequentially consistent.) *)
Theorem wake_no_lost_message (s : mb_state) :
  reachable (mb_init true) mb_step s ->
  head_published (cells s) = true -> (forall t, agents s !! t <> Some CDone) ->
  runq s = 1 \/ exists t a, agents s !! t = Some a /\ (token a = 1 \/ watching a = true).
Proof.
  intros Hr Hh Hd. pose proof (mb_reachable_inv _ Hr) as [Hk _ Hw].
  destruct (scheduled_ s) eqn:E.
  - unfold tokens in Hk. destruct (runq s) as [|n] eqn:Eq; [|left; lia].
    right. destruct (map_sum_pos owner (agents s)) as (t & a & Ht & Ha); [lia|].
    exists t, a. split; [done|]. left. destruct a; simpl in *; lia || by apply Hd in Ht.
  - right. destruct (Hw Hh eq_refl) as (t & a & Ht & Ha). exists t, a. auto.
Qed.

(** When no thread is inside a call and the coroutine is in no run queue
    (everybody sleeps), the mailbox is empty: no message waits for a consumer
    that nobody will wake. *)
Theorem wake_quiescent_empty (s : mb_state) :
  reachable (mb_init true) mb_step s ->
  agents s = ∅ -> runq s = 0 -> cells s = [].
Proof.
  intros Hr Ha Hq. pose proof (mb_reachable_inv _ Hr) as [Hk _ Hw].
  pose proof (mb_reachable_tickets _ _ Hr) as [Hh _ _].
  unfold tokens in Hk. rewrite Ha, Hq, map_sum_empty in *.
  destruct (cells s) as [|[m|] cs]; [done| |].
  - destruct (scheduled_ s); [done|]. destruct Hw as (t & a & Ht & _); try done.
  - destruct (Hh 0 eq_refl) as (t & m & Ht). by rewrite lookup_empty in Ht.
Qed.

(** Once the coroutine of an armed mailbox has returned, its handle is not
    used again: it is in no run queue, no thread executes the coroutine, and no
    sender is between finding [scheduled_] clear and [Enqueue], where it would
    call [done()] on the handle or schedule it. This stays so. *)
Theorem wake_return_final (s s' : mb_state) (t : nat) :
  reachable (mb_init true) mb_step s -> agents s !! t = Some CDone -> rtc mb_step s s' ->
  agents s' !! t = Some CDone /\ runq s' = 0 /\
  forall t' a, agents s' !! t' = Some a -> t' <> t -> token a = 0.
Proof.
  intros Hr Ht Hs.
  assert (agents s' !! t = Some CDone /\ reachable (mb_init true) mb_step s') as [Ht' Hr'].
  { induction Hs as [s|s1 s2 s3 H12 _ IH]; [done|].
    apply IH; [by apply (reachable_step _ _ s1)|]. by apply (returned_stays s1). }
  pose proof (inv_tokens _ (mb_reachable_inv _ Hr')) as Hk. unfold tokens in Hk.
  pose proof (map_sum_le owner _ _ _ Ht') as Hle. simpl in Hle.
  split; [done|]. split; [destruct (scheduled_ s'); lia|].
  intros t1 a H1 Hne. pose proof (map_sum_le2 owner _ _ _ _ _ H1 Ht' Hne). simpl in *.
  assert (token a <= owner a) by (destruct a; simpl; lia). destruct (scheduled_ s'); lia.
Qed.

End Steps.

(** A message arrives while the consumer is falling asleep: the sender sees
    [scheduled_] still set and leaves the wake-up to the re-check. *)
Definition race_to_sleep : list mb_choice :=
  [ChResume 9; ChGo 9; ChGo 9; ChGo 9; ChGo 9;
   ChSend 0 7; ChGo 0; ChGo 0; ChGo 0; ChGo 9].

Lemma wake_mutual_exclusion_witness :
  exists s, run_schedule (mb_act 4) race_to_sleep (mb_start true) = Some s /\
    agents s !! 9 = Some RCheck /\ runq s <= 1.
Proof.
  eexists. split; [vm_compute; reflexivity|]. split; [reflexivity|].
  apply (wake_mutual_exclusion 4).
  apply (mb_schedule_reachable 4 true race_to_sleep). vm_compute. reflexivity.
Defined.

Lemma wake_no_lost_message_witness :
  exists s, run_schedule (mb_act 4) race_to_sleep (mb_start true) = Some s /\
    scheduled_ s = false /\ head_published (cells s) = true /\
    (runq s = 1 \/ exists t a, agents s !! t = Some a /\ (token a = 1 \/ watching a = true)).
Proof.
  destruct (run_schedule (mb_act 4) race_to_sleep (mb_start true)) as [s|] eqn:E; [|vm_compute in E; discriminate].
  assert (scheduled_ s = false /\ head_published (cells s) = true /\ agents s = {[ 9 := RCheck ]}) as (H1 & H2 & H3).
  { vm_compute in E. injection E as <-. split; [reflexivity|]. split; reflexivity. }
  exists s. split; [reflexivity|]. split; [exact H1|]. split; [exact H2|].
  apply (wake_no_lost_message 4); [by apply (mb_schedule_reachable 4 true race_to_sleep)|exact H2|].
  rewrite H3. intros t Ht. apply lookup_singleton_Some in Ht as [_ Ht]. discriminate.
Defined.

(** The re-check takes the message, the consumer drains and sleeps. *)
Definition race_settled : list mb_choice :=
  race_to_sleep ++ [ChGo 9; ChGo 9; ChGo 9; ChGo 9; ChGo 9; ChGo 9; ChGo 9; ChGo 9].

Lemma wake_quiescent_empty_witness :
  exists s, run_schedule (mb_act 4) race_settled (mb_start true) = Some s /\
    rd s = 1 /\ cells s = [].
Proof.
  eexists. split; [vm_compute; reflexivity|]. split; [reflexivity|].
  apply (wake_quiescent_empty 4); [|reflexivity|reflexivity].
  apply (mb_schedule_reachable 4 true race_settled). vm_compute. reflexivity.
Defined.

(** The consumer, falling asleep in thread 9, is overtaken: a sender schedules
    it and thread 1 runs it. *)
Definition overtaken_sleep : list mb_choice :=
  [ChResume 9; ChGo 9; ChGo 9; ChGo 9; ChGo 9; ChGo 9;
   ChSend 0 7; ChGo 0; ChGo 0; ChGo 0; ChGo 0; ChGo 0; ChResume 1].

Lemma overtaken_returned :
  exists s, reachable (mb_init true) (mb_step 4) s /\
    agents s !! 9 = Some RCheck /\ agents s !! 1 = Some CDone.
Proof.
  assert (exists s, run_schedule (mb_act 4) overtaken_sleep (mb_start true) = Some s /\
    agents s !! 9 = Some RCheck /\ agents s !! 1 = Some CRun) as (s & E & H9 & H1).
  { eexists. split; [vm_compute; reflexivity|]. split; reflexivity. }
  exists (move s 1 CDone). split_and!; simpl.
  - apply (reachable_step _ _ s); [by apply (mb_schedule_reachable 4 true overtaken_sleep)|].
    apply (MbAgent 4 s 1 CRun); [done|constructor].
  - by rewrite lookup_insert_ne.
  - apply lookup_insert_eq.
Qed.

Lemma wake_return_final_witness :
  exists s, agents s !! 1 = Some CDone /\ runq s = 0.
Proof.
  destruct overtaken_returned as (s & Hr & _ & H1). exists s. split; [exact H1|].
  exact (proj1 (proj2 (wake_return_final 4 s s 1 Hr H1 (rtc_refl _ s)))).
Defined.

(** C35. [await_suspend] outlives the coroutine: after it has cleared
    [scheduled_], another thread may resume the coroutine and run it to its
    end, so that the awaiter (which lives in the coroutine's frame) is
    destroyed while the first thread is still about to read its [mail_] for the
    last look at the queue. *)
Theorem wake_awaiter_outlives_frame :
  exists s, reachable (mb_init true) (mb_step 4) s /\
    agents s !! 9 = Some RCheck /\ agents s !! 1 = Some CDone.
Proof. exact overtaken_returned. Qed.

(** A sender that saw [scheduled_] unset before the first run of a consumer
    that was not armed is overtaken by the consumer's first sleep; it then
    finds the handle, and the next sender finds it as well. *)
Definition unarmed_race : list mb_choice :=
  [ChSend 0 7; ChGo 0; ChGo 0; ChGo 0;
   ChResume 9; ChGo 9; ChGo 9; ChGo 9; ChGo 9; ChGo 9; ChGo 9; ChGo 9;
   ChGo 0; ChGo 0;
   ChSend 1 8; ChGo 1; ChGo 1; ChGo 1; ChGo 1; ChGo 1;
   ChResume 2; ChResume 3].

(** C33. Without [ArmConsumer] before the first run (as [ActorManager] starts
    the modules) the protocol fails: there is an interleaving at whose end two
    threads execute the same coroutine at once. *)
Theorem wake_unarmed_double_run :
  exists s, reachable (mb_init false) (mb_step 4) s /\
    agents s !! 2 = Some CRun /\ agents s !! 3 = Some CRun.
Proof.
  eexists. split; [|split].
  - apply (mb_schedule_reachable 4 false unarmed_race). vm_compute. reflexivity.
  - reflexivity.
  - reflexivity.
Qed.

End Wake.
