(* ===== verification/EventMessage.v ===== *)
(** * Event messages and their reference counts (include/event_message.h)

    Messages live in a heap, a map from addresses to [EventMessage] records;
    dereferencing an address that is not allocated is undefined behaviour
    ([None]). Also [generate_unique_id] of include/helper.h. *)

From Stdlib Require Import ZArith Lia.
From stdpp Require Import base list gmap strings.
From S2P Require Import Prelude.

Local Open Scope Z_scope.
Local Open Scope u64_scope.

(** [EVENT_TYPE_MAP] *)
Inductive EventType :=
  | kEventNone
  | kEventCmdExit
  | kEventCmdModuleStop
  | kEventCmdModuleReload
  | kEventCmdModuleRemove
  | kEventModuleExited
  | kEventCrashReport.

#[export] Instance EventType_eq_dec : EqDecision EventType.
Proof. solve_decision. Defined.

(** The values of the enumerators. *)
Definition event_type_value (t : EventType) : Z :=
  match t with
  | kEventNone => 0x00
  | kEventCmdExit => 0x01
  | kEventCmdModuleStop => 0x02
  | kEventCmdModuleReload => 0x03
  | kEventCmdModuleRemove => 0x04
  | kEventModuleExited => 0x80
  | kEventCrashReport => 0x81
  end.

(** The enumerator of a [uint8_t], if it is one. *)
Definition event_type_of_value (v : Z) : option EventType :=
  match v with
  | 0x00 => Some kEventNone
  | 0x01 => Some kEventCmdExit
  | 0x02 => Some kEventCmdModuleStop
  | 0x03 => Some kEventCmdModuleReload
  | 0x04 => Some kEventCmdModuleRemove
  | 0x80 => Some kEventModuleExited
  | 0x81 => Some kEventCrashReport
  | _ => None
  end.

#[export] Instance EventType_countable : Countable EventType.
Proof.
  refine (inj_countable event_type_value event_type_of_value _). by intros [].
Defined.

(** The switch of [event_type_to_string], on the underlying value. *)
Definition event_type_to_string (v : Z) : string :=
  match event_type_of_value v with
  | Some kEventNone => "NOP Event"
  | Some kEventCmdExit => "Exit Command Event"
  | Some kEventCmdModuleStop => "Module Stop Command Event"
  | Some kEventCmdModuleReload => "Module Reload Command Event"
  | Some kEventCmdModuleRemove => "Module Remove Command Event"
  | Some kEventModuleExited => "Module Exited Event"
  | Some kEventCrashReport => "Crash Report Event"
  | None => "Unknown Event Type"
  end.

(** Every payload of the program is a [std::string]; null is [None]. *)
Record EventMessage := mkMsg {
  ref_ : Z;
  type_ : EventType;
  sender_id_ : Z;
  payload_ : option string
}.

Definition new_message (ref_count : Z) (type : EventType) (sender_id : Z) : EventMessage :=
  mkMsg ref_count type sender_id None.

(** [set(std::string)] and [get<std::string>()]; reading a null payload is
    undefined. *)
Definition set_payload (m : EventMessage) (value : string) : EventMessage :=
  mkMsg (ref_ m) (type_ m) (sender_id_ m) (Some value).

Definition get_payload (m : EventMessage) : option string := payload_ m.

Definition set_ref (m : EventMessage) (r : Z) : EventMessage :=
  mkMsg r (type_ m) (sender_id_ m) (payload_ m).

(** [event_message_release(&p)] *)
Definition event_message_release (p : Z) (h : gmap Z EventMessage)
    : option (gmap Z EventMessage) :=
  if p =? 0 then Some h
  else
    m ← h !! p;
    let prev := ref_ m in
    Some (if prev =? 1 then delete p h else <[p := set_ref m (prev ⊖ 1)]> h).

Fixpoint release_all (ps : list Z) (h : gmap Z EventMessage) : option (gmap Z EventMessage) :=
  match ps with
  | [] => Some h
  | p :: ps' => h' ← event_message_release p h; release_all ps' h'
  end.

(** [generate_unique_id]: the counter starts at 1; returns the old value. *)
Definition generate_unique_id (count : Z) : Z * Z := (count, count ⊕ 1).

(** ** Reference accounting *)

Fixpoint occurrences (p : Z) (l : list Z) : Z :=
  match l with [] => 0 | q :: l' => (if q =? p then 1 else 0) + occurrences p l' end.

Lemma occurrences_nonneg p l : 0 <= occurrences p l.
Proof. induction l as [|q l IH]; simpl; [done|]. destruct (q =? p); lia. Qed.

Lemma occurrences_app p l1 l2 : occurrences p (l1 ++ l2) = occurrences p l1 + occurrences p l2.
Proof. induction l1 as [|q l1 IH]; simpl; lia. Qed.

Lemma occurrences_elem p l : p ∈ l <-> 0 < occurrences p l.
Proof.
  induction l as [|q l IH]; simpl; [split; [by intros ?%not_elem_of_nil|lia]|].
  pose proof (occurrences_nonneg p l). rewrite elem_of_cons, IH.
  destruct (Z.eqb_spec q p); split; intros; try lia; naive_solver lia.
Qed.

(** The references [l] may be given back: each address is a live message with
    at least that many references. *)
Definition holds (h : gmap Z EventMessage) (l : list Z) : Prop :=
  forall p, p ∈ l -> p <> 0 /\ exists m, h !! p = Some m /\ occurrences p l <= ref_ m < 2 ^ 64.

(** What remains of a message when [n] of its references were given back. *)
Definition after_release (n : Z) (m : EventMessage) : option EventMessage :=
  if n =? ref_ m then None else Some (set_ref m (ref_ m - n)).

Lemma after_release_0 m : 1 <= ref_ m -> after_release 0 m = Some m.
Proof.
  intros. unfold after_release. destruct (Z.eqb_spec 0 (ref_ m)); [lia|].
  unfold set_ref. rewrite Z.sub_0_r. by destruct m.
Qed.

Lemma release_one p l h :
  holds h (p :: l) ->
  exists m h', h !! p = Some m /\ event_message_release p h = Some h' /\
    h' !! p = after_release 1 m /\ (forall q, q <> p -> h' !! q = h !! q) /\ holds h' l.
Proof.
  intros Hh. destruct (Hh p ltac:(by left)) as (Hp0 & m & Hm & Ho). simpl in Ho.
  rewrite Z.eqb_refl in Ho. pose proof (occurrences_nonneg p l) as Hn.
  unfold event_message_release. rewrite Hm. simpl.
  destruct (Z.eqb_spec p 0); [done|].
  exists m. eexists. split; [done|]. split; [done|].
  unfold after_release. rewrite (Z.eqb_sym 1).
  assert (Hother : forall q, q ∈ l -> q <> p -> q <> 0 /\ exists m', h !! q = Some m' /\
            occurrences q l <= ref_ m' < 2 ^ 64).
  { intros q Hq Hne. destruct (Hh q ltac:(by right)) as (? & m' & ? & Ho'). split; [done|].
    exists m'. split; [done|]. simpl in Ho'. destruct (Z.eqb_spec p q); [congruence|lia]. }
  destruct (Z.eqb_spec (ref_ m) 1).
  - rewrite lookup_delete_eq. split; [done|]. split; [intros; by rewrite lookup_delete_ne|].
    intros q Hq. destruct (decide (q = p)) as [->|Hne].
    + apply occurrences_elem in Hq. lia.
    + rewrite lookup_delete_ne by done. by apply Hother.
  - rewrite lookup_insert_eq, sub64_small by lia. split; [done|].
    split; [intros; by rewrite lookup_insert_ne|].
    intros q Hq. destruct (decide (q = p)) as [->|Hne].
    + rewrite lookup_insert_eq. split; [done|]. eexists. split; [done|]. simpl. lia.
    + rewrite lookup_insert_ne by done. by apply Hother.
Qed.

(** Giving back a list of references: every message loses exactly as many
    references as it has occurrences, and dies when none is left. *)
Lemma release_all_spec l h :
  holds h l ->
  exists h', release_all l h = Some h' /\
    (forall p, p ∉ l -> h' !! p = h !! p) /\
    (forall p, p ∈ l -> h' !! p = h !! p ≫= after_release (occurrences p l)).
Proof.
  revert h. induction l as [|p l IH]; intros h Hh; simpl.
  { exists h. split_and!; [done|done|]. by intros p ?%not_elem_of_nil. }
  destruct (release_one _ _ _ Hh) as (m & h1 & Hm & -> & E1 & Hne & Hh1). simpl.
  destruct (IH h1 Hh1) as (h2 & -> & Hout & Hin). exists h2. split; [done|].
  destruct (Hh p ltac:(by left)) as (_ & m' & Hm' & Ho). simplify_eq. simpl in Ho.
  rewrite Z.eqb_refl in Ho. pose proof (occurrences_nonneg p l). split.
  - intros q Hq. apply not_elem_of_cons in Hq as [Hqp Hq]. rewrite Hout, Hne; done.
  - intros q Hq. destruct (decide (q = p)) as [->|Hqp].
    + rewrite Z.eqb_refl, Hm. simpl. destruct (decide (p ∈ l)) as [Hpl|Hpl].
      * rewrite Hin, E1 by done. unfold after_release.
        apply occurrences_elem in Hpl.
        destruct (Z.eqb_spec 1 (ref_ m)), (Z.eqb_spec (1 + occurrences p l) (ref_ m)); try lia;
          simpl; destruct (Z.eqb_spec (occurrences p l) (ref_ m - 1)); try done; try lia.
        unfold set_ref. simpl. do 2 f_equal. lia.
      * rewrite Hout, E1 by done. rewrite occurrences_elem in Hpl.
        replace (1 + occurrences p l) with 1 by lia. done.
    + destruct (Z.eqb_spec p q); [congruence|]. simpl.
      apply elem_of_cons in Hq as [|Hq]; [done|]. rewrite Hin, Hne; done.
Qed.

(** The enumerators and their values convert back and forth, and the
    highest bit of the value is clear exactly for the no-op and the command
    events (the data messages are the exit and crash reports). *)
Theorem event_type_values (t : EventType) :
  event_type_of_value (event_type_value t) = Some t /\
  (Z.testbit (event_type_value t) 7 = true <-> t = kEventModuleExited \/ t = kEventCrashReport).
Proof. destruct t; split; try done; split; intros; try naive_solver; done. Qed.
