(* ===== verification/MailBox.v ===== *)
(** * The mailbox (include/mail_box.h, src/core/mail_box.cc)

    Each call as one atomic operation on the mailbox and the message heap; the
    interleaving of the accesses inside the calls is MailBoxConc.v. The proofs
    use the queue through its [BoundedFifo] interface only. *)

From Stdlib Require Import ZArith Lia.
From stdpp Require Import base list gmap.
From S2P Require Import Prelude Fifo MailQueue EventMessage.

Local Open Scope Z_scope.
Local Open Scope u64_scope.

Record MailBox := mkMailBox {
  discarded_nr_ : Z;
  solved_nr_ : Z;
  consumer_ : Z;
  scheduled_ : bool;
  mailbox_ : Mail.MailQueue
}.

Definition new_mailbox (size : Z) : MailBox :=
  mkMailBox 0 0 0 false (Mail.new_mail_queue size).

Definition ArmConsumer (handle : Z) (mb : MailBox) : MailBox :=
  mkMailBox (discarded_nr_ mb) (solved_nr_ mb) handle true (mailbox_ mb).

Definition MarkRunning (mb : MailBox) : MailBox :=
  mkMailBox (discarded_nr_ mb) (solved_nr_ mb) (consumer_ mb) true (mailbox_ mb).

(** Returns the message received, [None] for [false]. *)
Definition try_receive (mb : MailBox) : option (option Z * MailBox) :=
  '(result, q) ← Mail.try_dequeue (mailbox_ mb);
  Some (result,
    mkMailBox (discarded_nr_ mb)
      (if result is Some _ then solved_nr_ mb ⊕ 1 else solved_nr_ mb)
      (consumer_ mb) (scheduled_ mb) q).

(** [done] tells of a coroutine handle whether the coroutine has finished.
    The result: the mailbox, the heap, and the handles passed to
    [ActorScheduler::Enqueue]. *)
Definition Send (done : Z -> bool) (message : Z) (mb : MailBox) (h : gmap Z EventMessage)
    : option (MailBox * gmap Z EventMessage * list Z) :=
  '(ok, q) ← Mail.try_enqueue message (mailbox_ mb);
  if ok : bool then
    let mb' := mkMailBox (discarded_nr_ mb) (solved_nr_ mb) (consumer_ mb) true q in
    let handle := consumer_ mb in
    Some (mb', h,
      if negb (scheduled_ mb) && negb (handle =? 0) && negb (done handle)
      then [handle] else [])
  else
    h' ← event_message_release message h;
    Some (mkMailBox (discarded_nr_ mb ⊕ 1) (solved_nr_ mb) (consumer_ mb) (scheduled_ mb) q, h', []).

Definition get_dropped_count (mb : MailBox) : Z := discarded_nr_ mb.

Definition get_solved_count (mb : MailBox) : Z := solved_nr_ mb.

(** [co_await mailbox->Wait()]: [await_ready], then [await_suspend] of the
    coroutine [handle]; the flag says whether the coroutine is suspended. *)
Definition await_ready (mb : MailBox) : option bool := Mail.can_dequeue (mailbox_ mb).

Definition await_suspend (handle : Z) (mb : MailBox) : option (bool * MailBox) :=
  let mb1 := mkMailBox (discarded_nr_ mb) (solved_nr_ mb) handle false (mailbox_ mb) in
  can ← Mail.can_dequeue (mailbox_ mb1);
  Some (if (can : bool) && negb (scheduled_ mb1) then (false, MarkRunning mb1)
        else (true, mb1)).

Definition Wait (handle : Z) (mb : MailBox) : option (bool * MailBox) :=
  ready ← await_ready mb;
  if ready : bool then Some (false, mb) else await_suspend handle mb.

(** The loop of the destructor. *)
Fixpoint drain (fuel : nat) (q : Mail.MailQueue) (h : gmap Z EventMessage)
    : option (Mail.MailQueue * gmap Z EventMessage) :=
  match fuel with
  | O => None
  | S fuel' =>
      '(r, q') ← Mail.try_dequeue q;
      match r with
      | None => Some (q', h)
      | Some msg => h' ← event_message_release msg h; drain fuel' q' h'
      end
  end.

(** [~MailBox]: the queue has [size_] slots, one more iteration finds it
    empty. *)
Definition destroy_mailbox (mb : MailBox) (h : gmap Z EventMessage)
    : option (gmap Z EventMessage) :=
  '(_, h') ← drain (S (Z.to_nat (Mail.size_ (mailbox_ mb)))) (mailbox_ mb) h; Some h'.

(** ** Calls without interference *)

Section Calls.
Context {F : BoundedFifo Mail.try_enqueue Mail.try_dequeue} (done : Z -> bool).
Implicit Types (mb : MailBox) (h : gmap Z EventMessage).

Definition box_wf mb : Prop := fifo_wf (mailbox_ mb).
Definition letters mb : list Z := fifo_view (mailbox_ mb).
Definition box_room mb : Prop := (length (letters mb) < fifo_cap (mailbox_ mb))%nat.

Lemma send_accepted p mb h :
  box_wf mb -> 0 < fifo_budget (mailbox_ mb) -> box_room mb ->
  exists q, Send done p mb h =
      Some (mkMailBox (discarded_nr_ mb) (solved_nr_ mb) (consumer_ mb) true q, h,
        if negb (scheduled_ mb) && negb (consumer_ mb =? 0) && negb (done (consumer_ mb))
        then [consumer_ mb] else []) /\
    fifo_wf q /\ fifo_view q = letters mb ++ [p] /\
    fifo_budget (mailbox_ mb) - 1 <= fifo_budget q.
Proof.
  intros Hwf Hb Hr. unfold Send.
  destruct (fifo_enq_room p (mailbox_ mb)) as (q & -> & ? & ? & ? & ?); [done..|].
  exists q. simpl. done.
Qed.

Lemma send_dropped p l mb h :
  box_wf mb -> ~ box_room mb -> holds h (p :: l) ->
  exists h', Send done p mb h =
      Some (mkMailBox (discarded_nr_ mb ⊕ 1) (solved_nr_ mb) (consumer_ mb) (scheduled_ mb)
              (mailbox_ mb), h', []) /\
    event_message_release p h = Some h' /\ holds h' l.
Proof.
  intros Hwf Hr Hh. unfold Send, box_room, letters in *.
  rewrite fifo_enq_full by (done || lia). simpl.
  destruct (release_one _ _ _ Hh) as (m & h' & _ & -> & _ & _ & Hh'). simpl. by exists h'.
Qed.

Lemma receive_letter p l mb :
  box_wf mb -> letters mb = p :: l ->
  exists q, try_receive mb =
      Some (Some p, mkMailBox (discarded_nr_ mb) (solved_nr_ mb ⊕ 1) (consumer_ mb) (scheduled_ mb) q) /\
    fifo_wf q /\ fifo_view q = l /\ fifo_budget (mailbox_ mb) <= fifo_budget q.
Proof.
  intros Hwf Hl. unfold try_receive.
  destruct (fifo_deq_some p l (mailbox_ mb)) as (q & -> & ? & ? & ? & ?); [done..|].
  exists q. simpl. done.
Qed.

Lemma receive_nothing mb :
  box_wf mb -> letters mb = [] -> try_receive mb = Some (None, mb).
Proof.
  intros Hwf Hl. unfold try_receive. rewrite fifo_deq_none by done. simpl. by destruct mb.
Qed.

(** A history of calls; the messages received, in order. *)
Inductive box_call := BSend (p : Z) | BReceive.

Fixpoint box_run (cs : list box_call) mb h : option (list Z * MailBox * gmap Z EventMessage) :=
  match cs with
  | [] => Some ([], mb, h)
  | BSend p :: cs' => '(mb', h', _) ← Send done p mb h; box_run cs' mb' h'
  | BReceive :: cs' =>
      '(r, mb') ← try_receive mb;
      '(rs, mb2, h2) ← box_run cs' mb' h;
      Some (option_list r ++ rs, mb2, h2)
  end.

Definition box_sent (cs : list box_call) : list Z :=
  omap (fun c => if c is BSend p then Some p else None) cs.

Lemma letters_mk d s c b q : letters (mkMailBox d s c b q) = fifo_view q.
Proof. done. Qed.

Lemma box_run_spec cs mb h :
  box_wf mb -> Z.of_nat (length cs) <= fifo_budget (mailbox_ mb) ->
  0 <= discarded_nr_ mb -> discarded_nr_ mb + Z.of_nat (length cs) < 2 ^ 64 ->
  0 <= solved_nr_ mb -> solved_nr_ mb + Z.of_nat (length cs) < 2 ^ 64 ->
  holds h (box_sent cs) ->
  exists rs mb' h', box_run cs mb h = Some (rs, mb', h') /\ box_wf mb' /\
    rs ++ letters mb' `sublist_of` letters mb ++ box_sent cs /\
    solved_nr_ mb' = solved_nr_ mb + Z.of_nat (length rs) /\
    Z.of_nat (length (letters mb) + length (box_sent cs)) =
      Z.of_nat (length rs + length (letters mb')) + (discarded_nr_ mb' - discarded_nr_ mb).
Proof.
  revert mb h. induction cs as [|[p|] cs IH]; intros mb h Hwf Hb Hd0 Hd Hs0 Hs Hh; simpl in *.
  - exists [], mb, h. rewrite app_nil_r. simpl. split_and!; done || lia.
  - destruct (decide (length (letters mb) < fifo_cap (mailbox_ mb))%nat) as [Hr|Hr].
    + destruct (send_accepted p mb h) as (q & -> & Hq & Hv & Hbq); [done|lia|done|]. simpl.
      edestruct (IH (mkMailBox (discarded_nr_ mb) (solved_nr_ mb) (consumer_ mb) true q) h)
        as (rs & mb' & h' & -> & Hwf' & Hsub & Hsv & Hcnt); simpl; try done; try lia.
      { intros x Hx. destruct (Hh x ltac:(by right)) as (? & m & ? & Ho). split; [done|].
        exists m. split; [done|]. simpl in Ho. destruct (p =? x); lia. }
      exists rs, mb', h'. rewrite letters_mk, Hv in Hsub, Hcnt. simpl in *.
      rewrite <- (assoc_L (++)) in Hsub. rewrite length_app in Hcnt. simpl in *.
      split_and!; done || lia.
    + destruct (send_dropped p (box_sent cs) mb h) as (h1 & -> & _ & Hh1); [done..|]. simpl.
      rewrite add64_small by lia.
      edestruct (IH (mkMailBox (discarded_nr_ mb + 1) (solved_nr_ mb) (consumer_ mb)
        (scheduled_ mb) (mailbox_ mb)) h1)
        as (rs & mb' & h' & -> & Hwf' & Hsub & Hsv & Hcnt); simpl; try done; try lia.
      exists rs, mb', h'. rewrite letters_mk in Hsub, Hcnt. fold (letters mb) in Hsub, Hcnt.
      simpl in *.
      split_and!; try done; [|lia].
      etrans; [exact Hsub|]. apply sublist_app; [done|]. by apply sublist_cons.
  - destruct (letters mb) as [|p l] eqn:El.
    + rewrite receive_nothing by done. simpl.
      destruct (IH mb h) as (rs & mb' & h' & -> & Hwf' & Hsub & Hsv & Hcnt); try done; try lia.
      rewrite El in *. simpl in *. exists rs, mb', h'. done.
    + destruct (receive_letter p l mb) as (q & -> & Hq & Hv & Hbq); [done..|]. simpl.
      rewrite add64_small by lia.
      edestruct (IH (mkMailBox (discarded_nr_ mb) (solved_nr_ mb + 1) (consumer_ mb)
        (scheduled_ mb) q) h)
        as (rs & mb' & h' & -> & Hwf' & Hsub & Hsv & Hcnt); simpl; try done; try lia.
      rewrite letters_mk, Hv in Hsub, Hcnt. simpl in *.
      exists (p :: rs), mb', h'. simpl. split_and!; try done; try lia.
      by apply sublist_skip.
Qed.

(** The destructor's loop releases what is waiting, oldest first. *)
Lemma drain_spec fuel q h :
  fifo_wf q -> (length (fifo_view q) < fuel)%nat -> holds h (fifo_view q) ->
  exists q' h', drain fuel q h = Some (q', h') /\ release_all (fifo_view q) h = Some h' /\
    fifo_view q' = [].
Proof.
  revert q h. induction fuel as [|fuel IH]; intros q h Hwf Hf Hh; [lia|]. simpl.
  destruct (fifo_view q) as [|p l] eqn:Ev.
  - rewrite fifo_deq_none by done. simpl. exists q, h. done.
  - destruct (fifo_deq_some p l q) as (q1 & -> & Hwf1 & Ev1 & _); [done..|]. simpl.
    destruct (release_one _ _ _ Hh) as (m & h1 & _ & -> & _ & _ & Hh1). simpl.
    rewrite <- Ev1 in *. simpl in Hf. destruct (IH q1 h1) as (q2 & h2 & ? & ? & ?); [done|lia|done|].
    exists q2, h2. done.
Qed.

End Calls.

(** ** The theorems *)

Lemma size_exponent_ok size : 2 <= size -> (1 <= Z.to_nat (Z.log2_up size))%nat.
Proof.
  intros. pose proof (Z.log2_up_le_mono 2 size). change (Z.log2_up 2) with 1 in *. lia.
Qed.

Lemma bit_ceil_bound size n : size <= 2 ^ n -> 0 <= n -> Mail.bit_ceil size <= 2 ^ n.
Proof.
  intros Hs Hn. unfold Mail.bit_ceil. apply Z.pow_le_mono_r; [lia|].
  rewrite <- (Z.log2_up_pow2 n) by done. by apply Z.log2_up_le_mono.
Qed.

(** C20. Whatever the order of at most [2^61] calls of [Send] and
    [try_receive] on a mailbox made for [size] messages, every call is
    defined, the messages received and still waiting are messages sent, in
    the order they were sent, and every message sent is accounted for: sent =
    [get_solved_count] + [get_dropped_count] + waiting. *)
Theorem mailbox_conservation (done : Z -> bool) (size : Z) (cs : list box_call)
    (h : gmap Z EventMessage) :
  2 <= size <= 2 ^ 61 -> Z.of_nat (length cs) <= 2 ^ 61 -> holds h (box_sent cs) ->
  exists rs mb h', box_run done cs (new_mailbox size) h = Some (rs, mb, h') /\
    let waiting := Mail.waiting (Z.to_nat (Z.log2_up size)) (mailbox_ mb) in
    rs ++ waiting `sublist_of` box_sent cs /\
    get_solved_count mb = Z.of_nat (length rs) /\
    Z.of_nat (length (box_sent cs)) =
      get_solved_count mb + get_dropped_count mb + Z.of_nat (length waiting).
Proof.
  intros Hs Hl Hh. pose proof (size_exponent_ok size ltac:(lia)) as Hk.
  set (k := Z.to_nat (Z.log2_up size)) in *.
  pose proof (Mail.bit_ceil_pow size) as E. fold k in E.
  pose proof (bit_ceil_bound size 61 ltac:(lia) ltac:(lia)) as HN. rewrite E in HN.
  destruct (box_run_spec (F := Mail.mail_queue_fifo k Hk) done cs (new_mailbox size) h)
    as (rs & mb & h' & Er & _ & Hsub & Hsv & Hcnt); simpl; try lia; try done.
  - apply Mail.new_mail_queue_wf; [done|lia].
  - exists rs, mb, h'. split; [done|]. unfold get_solved_count, get_dropped_count.
    unfold letters in *. simpl in *. split; [done|]. split; lia.
Qed.

(** Three messages sent into a mailbox of two slots; [ref_] 1 each. *)
Definition three_messages : gmap Z EventMessage :=
  {[ 8 := new_message 1 kEventNone 1; 16 := new_message 1 kEventNone 2;
     24 := new_message 1 kEventNone 3 ]}.

Lemma three_messages_held : holds three_messages [8; 16; 24].
Proof.
  intros p Hp. repeat (apply elem_of_cons in Hp as [->|Hp]); [..|by apply not_elem_of_nil in Hp];
    (split; [done|]); eexists; (split; [reflexivity|]); done.
Qed.

Lemma mailbox_conservation_witness :
  exists rs mb h', box_run (fun _ => false) [BSend 8; BSend 16; BSend 24; BReceive]
      (new_mailbox 2) three_messages = Some (rs, mb, h') /\
    rs = [8] /\ get_dropped_count mb = 1 /\ 3 = get_solved_count mb + get_dropped_count mb + 1.
Proof.
  destruct (mailbox_conservation (fun _ => false) 2 [BSend 8; BSend 16; BSend 24; BReceive]
    three_messages ltac:(lia) ltac:(vm_compute; congruence) three_messages_held)
    as (rs & mb & h' & E & _ & _ & C).
  exists rs, mb, h'. split; [exact E|]. vm_compute in E. injection E as <- <- <-.
  split; [reflexivity|]. split; [reflexivity|]. exact C.
Defined.

(** [~MailBox] terminates and gives back exactly one reference for each
    message still in the queue: a message with no other reference is freed,
    the others lose that many references, nothing else is touched. *)
Theorem mailbox_destructor (k : nat) (mb : MailBox) (h : gmap Z EventMessage) :
  (1 <= k)%nat -> Mail.mq_wf k (mailbox_ mb) -> holds h (Mail.waiting k (mailbox_ mb)) ->
  exists h', destroy_mailbox mb h = Some h' /\
    (forall p, p ∉ Mail.waiting k (mailbox_ mb) -> h' !! p = h !! p) /\
    (forall p, p ∈ Mail.waiting k (mailbox_ mb) ->
       h' !! p = h !! p ≫= after_release (occurrences p (Mail.waiting k (mailbox_ mb)))).
Proof.
  intros Hk Hwf Hh. unfold destroy_mailbox.
  destruct (drain_spec (F := Mail.mail_queue_fifo k Hk)
    (S (Z.to_nat (Mail.size_ (mailbox_ mb)))) (mailbox_ mb) h) as (q & h' & -> & Hr & _).
  - exact Hwf.
  - simpl. rewrite Mail.waiting_length, (Mail.shape_size _ _ (Mail.wf_shape _ _ Hwf)).
    destruct Hwf. lia.
  - exact Hh.
  - destruct (release_all_spec _ _ Hh) as (h2 & Hr2 & Hout & Hin).
    simpl in *. rewrite Hr2 in Hr. simplify_eq. exists h'. done.
Qed.

(** Two references to one message of three, one to another. *)
Definition loaded_box : option (list Z * MailBox * gmap Z EventMessage) :=
  box_run (fun _ => false) [BSend 8; BSend 16; BSend 8] (new_mailbox 4)
    {[ 8 := new_message 3 kEventNone 1; 16 := new_message 1 kEventNone 2 ]}.

Lemma mailbox_destructor_witness :
  exists mb h h', loaded_box = Some ([], mb, h) /\ destroy_mailbox mb h = Some h' /\
    h' !! 16 = None /\ h' !! 8 = Some (new_message 1 kEventNone 1).
Proof.
  eexists _, _. destruct (mailbox_destructor 2 (mkMailBox 0 0 0 true
      (Mail.mkMQ 3 0 [Mail.mkSlot 1 8; Mail.mkSlot 2 16; Mail.mkSlot 3 8; Mail.mkSlot 3 0] 4 3))
    {[ 8 := new_message 3 kEventNone 1; 16 := new_message 1 kEventNone 2 ]})
    as (h' & E & _ & Hin).
  - lia.
  - split; simpl; try lia; [done| |].
    + intros i Hi. assert (i = 0 \/ i = 1 \/ i = 2) as [->|[->| ->]] by lia; reflexivity.
    + intros i Hi. assert (i = 3) as -> by lia. reflexivity.
  - intros p Hp. vm_compute in Hp.
    repeat (apply elem_of_cons in Hp as [->|Hp]); [..|by apply not_elem_of_nil in Hp];
      (split; [done|]); eexists; (split; [reflexivity|]); done.
  - exists h'. split; [vm_compute; reflexivity|]. split; [exact E|].
    split; (rewrite Hin; [vm_compute; reflexivity|]); vm_compute; set_solver.
Defined.

(** A consumer that found its mailbox empty and went to sleep in [Wait] is
    put back into the run queue by the next [Send], exactly once: the second
    [Send] leaves it alone. *)
Theorem mailbox_sleep_wake (done : Z -> bool) (k : nat) (mb : MailBox) (handle p1 p2 : Z)
    (h : gmap Z EventMessage) :
  (1 <= k)%nat -> Mail.mq_wf k (mailbox_ mb) -> Mail.waiting k (mailbox_ mb) = [] ->
  Mail.write_index_ (mailbox_ mb) + 2 + 2 ^ Z.of_nat k < 2 ^ 63 ->
  handle <> 0 -> done handle = false ->
  exists mb1 mb2 mb3,
    Wait handle mb = Some (true, mb1) /\
    Send done p1 mb1 h = Some (mb2, h, [handle]) /\
    Send done p2 mb2 h = Some (mb3, h, []) /\
    Mail.waiting k (mailbox_ mb3) = [p1; p2].
Proof.
  intros Hk Hwf Hw Hb Hh Hd.
  assert (HN : 2 <= 2 ^ Z.of_nat k)
    by (change 2 with (2 ^ 1) at 1; apply Z.pow_le_mono_r; lia).
  unfold Wait, await_ready, await_suspend. simpl.
  rewrite !(Mail.can_dequeue_spec k) by done. rewrite !Hw. simpl.
  set (mb1 := mkMailBox _ _ handle false _). eexists mb1.
  destruct (send_accepted (F := Mail.mail_queue_fifo k Hk) done p1 mb1 h)
    as (q1 & -> & Hq1 & Hv1 & Hb1); [done|simpl; lia| |].
  { unfold box_room, letters. simpl. rewrite Hw. simpl. lia. }
  set (mb2 := mkMailBox _ _ _ true q1).
  destruct (send_accepted (F := Mail.mail_queue_fifo k Hk) done p2 mb2 h)
    as (q2 & E2 & Hq2 & Hv2 & Hb2); [done|simpl in *; lia| |].
  { unfold box_room, letters. simpl in *. rewrite Hv1. unfold letters. simpl. rewrite Hw. simpl. lia. }
  eexists mb2, _. split; [done|]. split.
  { simpl. destruct (Z.eqb_spec handle 0); [done|]. by rewrite Hd. }
  split; [exact E2|]. unfold letters in *. simpl in *. rewrite Hv2, Hv1, Hw. done.
Qed.

Lemma mailbox_sleep_wake_witness :
  exists mb1 mb2 mb3,
    Wait 4096 (new_mailbox 2) = Some (true, mb1) /\
    Send (fun _ => false) 8 mb1 ∅ = Some (mb2, ∅, [4096]) /\
    Send (fun _ => false) 16 mb2 ∅ = Some (mb3, ∅, []) /\
    Mail.waiting 1 (mailbox_ mb3) = [8; 16].
Proof.
  apply (mailbox_sleep_wake (fun _ => false) 1 (new_mailbox 2) 4096 8 16 ∅);
    [lia| |reflexivity|vm_compute; reflexivity|lia|reflexivity].
  apply Mail.new_mail_queue_wf; vm_compute; reflexivity.
Defined.
