(* ===== verification/GlobalQueue.v ===== *)
(** * The injection queue and the parking place of idle workers
      (include/queue.h, [GlobalQueue])

    Every method is one critical section on [mutex_] (or one atomic access)
    followed by calls on the condition variable after the lock is released;
    here a method returns the new state and the number of [notify_one] calls it
    goes on to make. *)

From Stdlib Require Import ZArith Lia.
From stdpp Require Import base list.
From S2P Require Import Prelude WorkStealing.

Local Open Scope Z_scope.
Local Open Scope u64_scope.

Module Global.

Record GlobalQueue := mkGQ {
  queue_ : list Z;
  idle_threads_ : Z;
  wake_epoch_ : Z;
  stop_flag : bool
}.

Definition new_global_queue : GlobalQueue := mkGQ [] 0 0 false.

Definition set_queue (g : GlobalQueue) (l : list Z) : GlobalQueue :=
  mkGQ l (idle_threads_ g) (wake_epoch_ g) (stop_flag g).

Definition set_idle (g : GlobalQueue) (n : Z) : GlobalQueue :=
  mkGQ (queue_ g) n (wake_epoch_ g) (stop_flag g).

(** [++wake_epoch_] *)
Definition bump_epoch (g : GlobalQueue) : GlobalQueue :=
  mkGQ (queue_ g) (idle_threads_ g) (wake_epoch_ g ⊕ 1) (stop_flag g).

Definition push (task : Z) (g : GlobalQueue) : GlobalQueue * nat :=
  let g1 := set_queue g (queue_ g ++ [task]) in
  if 0 <? idle_threads_ g1 then (bump_epoch g1, 1%nat) else (g1, 0%nat).

Definition push_batch (tasks : list Z) (g : GlobalQueue) : GlobalQueue * nat :=
  match tasks with
  | [] => (g, 0%nat)
  | _ =>
      let g1 := set_queue g (queue_ g ++ tasks) in
      let idle_nr := idle_threads_ g1 in
      let wake_count := Z.min (Z.of_nat (length tasks)) idle_nr in
      (if 0 <? wake_count then bump_epoch g1 else g1, Z.to_nat wake_count)
  end.

Definition try_pop (g : GlobalQueue) : Z * GlobalQueue :=
  match queue_ g with
  | [] => (nullptr, g)
  | task :: rest => (task, set_queue g rest)
  end.

Definition notify_one_idle (g : GlobalQueue) : GlobalQueue * nat :=
  if 0 <? idle_threads_ g then (bump_epoch g, 1%nat) else (g, 0%nat).

Definition prepare_park (g : GlobalQueue) : Z * GlobalQueue :=
  let g1 := set_idle g (idle_threads_ g ⊕ 1) in (wake_epoch_ g1, g1).

Definition cancel_park (g : GlobalQueue) : GlobalQueue :=
  set_idle g (idle_threads_ g ⊖ 1).

(** The predicate [park] waits for. *)
Definition park_ready (observed_epoch : Z) (g : GlobalQueue) : bool :=
  stop_flag g || negb (wake_epoch_ g =? observed_epoch).

(** One turn of [park] under the lock: the state it leaves when it returns,
    [None] when the thread blocks on [cond_]. *)
Definition park (observed_epoch : Z) (g : GlobalQueue) : option GlobalQueue :=
  if park_ready observed_epoch g then Some (set_idle g (idle_threads_ g ⊖ 1)) else None.

(** The boolean: whether [notify_all] follows. *)
Definition stop (g : GlobalQueue) : GlobalQueue * bool :=
  if stop_flag g then (g, false)
  else (mkGQ (queue_ g) (idle_threads_ g) (wake_epoch_ g ⊕ 1) true, true).

(** How often a call advances the epoch. *)
Definition bumps (g g' : GlobalQueue) : nat :=
  if wake_epoch_ g' =? wake_epoch_ g then 0%nat else 1%nat.

(** ** What the critical sections do *)

Lemma try_pop_spec g task g' :
  Forall (fun h => h <> nullptr) (queue_ g) -> try_pop g = (task, g') ->
  queue_ g = (if task =? nullptr then [] else [task]) ++ queue_ g' /\
  (task = nullptr -> queue_ g = []) /\
  idle_threads_ g' = idle_threads_ g /\ wake_epoch_ g' = wake_epoch_ g /\
  stop_flag g' = stop_flag g.
Proof.
  unfold try_pop. intros Hn. destruct (queue_ g) as [|x l] eqn:E; intros; simplify_eq/=.
  - by rewrite E.
  - inversion Hn; simplify_eq. destruct (Z.eqb_spec task nullptr); [done|]. done.
Qed.

(** A submission appends and, when a thread is registered as idle, moves the
    epoch and notifies. *)
Lemma push_spec task g :
  queue_ (push task g).1 = queue_ g ++ [task] /\
  idle_threads_ (push task g).1 = idle_threads_ g /\
  stop_flag (push task g).1 = stop_flag g /\
  (0 < idle_threads_ g ->
     wake_epoch_ (push task g).1 = wake_epoch_ g ⊕ 1 /\ (push task g).2 = 1%nat) /\
  (idle_threads_ g <= 0 -> wake_epoch_ (push task g).1 = wake_epoch_ g /\ (push task g).2 = 0%nat).
Proof.
  unfold push. simpl. destruct (Z.ltb_spec 0 (idle_threads_ g)); simpl;
    split_and!; try done; lia.
Qed.

Lemma push_batch_spec tasks g :
  tasks <> [] ->
  queue_ (push_batch tasks g).1 = queue_ g ++ tasks /\
  idle_threads_ (push_batch tasks g).1 = idle_threads_ g /\
  stop_flag (push_batch tasks g).1 = stop_flag g /\
  (0 < idle_threads_ g ->
     wake_epoch_ (push_batch tasks g).1 = wake_epoch_ g ⊕ 1 /\ (0 < (push_batch tasks g).2)%nat) /\
  (idle_threads_ g <= 0 ->
     wake_epoch_ (push_batch tasks g).1 = wake_epoch_ g /\ (push_batch tasks g).2 = 0%nat).
Proof.
  intros Hne. unfold push_batch. destruct tasks as [|t ts]; [done|]. simpl.
  destruct (Z.ltb_spec 0 (Z.min (Z.of_nat (S (length ts))) (idle_threads_ g)));
    simpl; split_and!; intros; split_and?; try done; lia.
Qed.

Lemma notify_one_idle_spec g :
  queue_ (notify_one_idle g).1 = queue_ g /\
  idle_threads_ (notify_one_idle g).1 = idle_threads_ g /\
  stop_flag (notify_one_idle g).1 = stop_flag g /\
  (wake_epoch_ (notify_one_idle g).1 = wake_epoch_ g \/
   wake_epoch_ (notify_one_idle g).1 = wake_epoch_ g ⊕ 1).
Proof. unfold notify_one_idle. destruct_if; simpl; auto. Qed.

End Global.
