(* ===== verification/Scheduler.v ===== *)
(** * The scheduler's submission and search paths
      (include/actor_scheduler.h, src/core/actor_scheduler.cc)

    [Enqueue], [EnqueueBatch], the [try_get_task] lambda of a worker thread and
    [Shutdown], each run without interference over the global queue and the
    workers' deques of the code. The interleaved form is in SchedulerConc. *)

From Stdlib Require Import ZArith Lia.
From stdpp Require Import base list.
From S2P Require Import Prelude WorkStealing GlobalQueue.

Local Open Scope Z_scope.

(** The template argument of [WorkStealingQueue<kWorkStealingQueueSize>]: 2^8. *)
Definition worker_bits : nat := 8.

(** [workers_] holds the deque of each worker; [thread_entries_] is its length.
    The deque of worker [i] is [workers_ !! i]. *)
Record ActorScheduler := mkSched {
  workers_ : list WorkStealingQueue;
  running_ : bool;
  global_queue_ : Global.GlobalQueue
}.

Definition thread_entries_ (s : ActorScheduler) : Z := Z.of_nat (length (workers_ s)).

Definition set_worker (s : ActorScheduler) (i : nat) (q : WorkStealingQueue) : ActorScheduler :=
  mkSched (<[i := q]> (workers_ s)) (running_ s) (global_queue_ s).

Definition set_global (s : ActorScheduler) (g : Global.GlobalQueue) : ActorScheduler :=
  mkSched (workers_ s) (running_ s) g.

(** The constructor, for [n] = [std::thread::hardware_concurrency()]. *)
Definition new_scheduler (n : nat) : ActorScheduler :=
  mkSched (replicate n (new_queue worker_bits)) true Global.new_global_queue.

(** [tls_worker] is the calling worker, [None] on an external thread. The
    second result is the number of [notify_one] calls. *)
Definition Enqueue (tls_worker : option nat) (handle : Z) (s : ActorScheduler)
    : option (ActorScheduler * nat) :=
  let to_global s :=
    let (g, n) := Global.push handle (global_queue_ s) in Some (set_global s g, n) in
  match tls_worker with
  | None => to_global s
  | Some w =>
      q ← workers_ s !! w;
      '(ok, q') ← push worker_bits handle q;
      let s1 := set_worker s w q' in
      if (ok : bool) then
        size ← approx_size q';
        if 1 <? size then
          let (g, n) := Global.notify_one_idle (global_queue_ s1) in Some (set_global s1 g, n)
        else Some (s1, 0%nat)
      else to_global s1
  end.

Definition EnqueueBatch (tasks : list Z) (s : ActorScheduler) : ActorScheduler * nat :=
  let (g, n) := Global.push_batch tasks (global_queue_ s) in (set_global s g, n).

(** [Shutdown]; the boolean: whether [notify_all] is called. *)
Definition Shutdown (s : ActorScheduler) : ActorScheduler * bool :=
  let (g, b) := Global.stop (global_queue_ s) in (mkSched (workers_ s) false g, b).

(** [(target_id + 1) % thread_entries_] on [uint32_t]. *)
Definition next_target (n target_id : Z) : Z := ((target_id + 1) mod 2 ^ 32) mod n.

(** The stealing loop: [i] counts the turns that are left. *)
Fixpoint steal_loop (i : nat) (self target_id : Z) (s : ActorScheduler)
    : option (Z * ActorScheduler * nat) :=
  match i with
  | O => Some (nullptr, s, 0%nat)
  | S i' =>
      if target_id =? self then steal_loop i' self (next_target (thread_entries_ s) target_id) s
      else
        q ← workers_ s !! Z.to_nat target_id;
        '(result, task, q') ← steal worker_bits q;
        let s1 := set_worker s (Z.to_nat target_id) q' in
        if decide (result = kSuccess) then
          size ← approx_size q';
          if 1 <? size then
            let (g, n) := Global.notify_one_idle (global_queue_ s1) in
            Some (task, set_global s1 g, n)
          else Some (task, s1, 0%nat)
        else steal_loop i' self (next_target (thread_entries_ s1) target_id) s1
  end.

Definition next_tick (tick : Z) : Z := (tick + 1) mod 2 ^ 32.

(** [try_get_task] of worker [self]; [rng] is the draw of the generator. The
    results: the task (null when nothing was found), the advanced [tick], the
    scheduler, the number of [notify_one] calls. *)
Definition try_get_task (self : nat) (rng : Z) (tick : Z) (s : ActorScheduler)
    : option (Z * Z * ActorScheduler * nat) :=
  let tick' := next_tick tick in
  let (polled, s0) :=
    if tick' mod 61 =? 0 then
      let (task, g) := Global.try_pop (global_queue_ s) in (task, set_global s g)
    else (nullptr, s) in
  if negb (polled =? nullptr) then Some (polled, tick', s0, 0%nat) else
  q ← workers_ s0 !! self;
  '(_, task, q') ← pop worker_bits q;
  let s1 := set_worker s0 self q' in
  if negb (task =? nullptr) then Some (task, tick', s1, 0%nat) else
  let (task2, g) := Global.try_pop (global_queue_ s1) in
  let s2 := set_global s1 g in
  if negb (task2 =? nullptr) then Some (task2, tick', s2, 0%nat) else
  let target_id := rng mod thread_entries_ s2 in
  '(task3, s3, n) ← steal_loop (length (workers_ s2)) (Z.of_nat self) target_id s2;
  Some (task3, tick', s3, n).

(** ** Where the tasks are *)

Definition local_tasks (s : ActorScheduler) : list Z :=
  concat (contents worker_bits <$> workers_ s).

Definition all_tasks (s : ActorScheduler) : list Z :=
  Global.queue_ (global_queue_ s) ++ local_tasks s.

Record sched_wf (s : ActorScheduler) : Prop := {
  wf_deques : Forall (ws_wf worker_bits) (workers_ s);
  wf_entries : 0 < thread_entries_ s < 2 ^ 32;
  wf_tasks : Forall (fun h => h <> nullptr) (all_tasks s)
}.

Lemma new_scheduler_wf n :
  0 < Z.of_nat n < 2 ^ 32 -> sched_wf (new_scheduler n) /\ all_tasks (new_scheduler n) = [].
Proof.
  intros Hn. assert (all_tasks (new_scheduler n) = []) as E.
  { unfold all_tasks, local_tasks. simpl. clear. rewrite fmap_replicate.
    change (contents worker_bits (new_queue worker_bits)) with (@nil Z).
    induction n; simpl; done. }
  split; [|done]. split.
  - apply Forall_replicate, new_queue_wf.
  - unfold thread_entries_. simpl. by rewrite length_replicate.
  - by rewrite E.
Qed.

(** Putting another deque in the place of worker [i]'s. *)
Lemma set_worker_spec s i q q' :
  sched_wf s -> workers_ s !! i = Some q -> ws_wf worker_bits q' ->
  Forall (fun h => h <> nullptr) (contents worker_bits q') ->
  sched_wf (set_worker s i q') /\
  exists rest, all_tasks s ≡ₚ contents worker_bits q ++ rest /\
    all_tasks (set_worker s i q') ≡ₚ contents worker_bits q' ++ rest.
Proof.
  intros [Hd Hn Ht] Hi Hq Hnn.
  destruct (concat_fmap_update (contents worker_bits) _ _ _ Hi) as (rest & E & E').
  assert (exists rest', all_tasks s ≡ₚ contents worker_bits q ++ rest' /\
    all_tasks (set_worker s i q') ≡ₚ contents worker_bits q' ++ rest') as (rest' & H1 & H2).
  { exists (Global.queue_ (global_queue_ s) ++ rest). unfold all_tasks, local_tasks. simpl.
    rewrite E, E', !(assoc_L (++)). split; f_equiv; apply Permutation_app_comm. }
  split; [|by exists rest']. split.
  - simpl. by apply Forall_insert.
  - unfold thread_entries_ in *. simpl. by rewrite length_insert.
  - rewrite H2. rewrite H1 in Ht. apply Forall_app in Ht as [_ ?]. by apply Forall_app.
Qed.

Lemma set_worker_id s i q : workers_ s !! i = Some q -> set_worker s i q = s.
Proof. intros. destruct s. unfold set_worker. simpl in *. by rewrite list_insert_id. Qed.

(** Only the global queue's list matters for the whereabouts of tasks. *)
Lemma set_global_wf s g :
  sched_wf s -> Global.queue_ g = Global.queue_ (global_queue_ s) ->
  sched_wf (set_global s g) /\ all_tasks (set_global s g) = all_tasks s.
Proof.
  intros [Hd Hn Ht] E. assert (all_tasks (set_global s g) = all_tasks s) as Ea.
  { unfold all_tasks, local_tasks. simpl. by rewrite E. }
  split; [|done]. split; [done|done|by rewrite Ea].
Qed.

Lemma notify_one_idle_wf s :
  sched_wf s ->
  sched_wf (set_global s (Global.notify_one_idle (global_queue_ s)).1) /\
  all_tasks (set_global s (Global.notify_one_idle (global_queue_ s)).1) = all_tasks s.
Proof. intros. apply set_global_wf; [done|]. apply Global.notify_one_idle_spec. Qed.

(** Taking from the global queue. *)
Lemma try_pop_sched s task g :
  sched_wf s -> Global.try_pop (global_queue_ s) = (task, g) ->
  sched_wf (set_global s g) /\
  all_tasks s = (if task =? nullptr then [] else [task]) ++ all_tasks (set_global s g) /\
  (task = nullptr -> set_global s g = s /\ Global.queue_ (global_queue_ s) = []).
Proof.
  intros Hwf E. pose proof Hwf as [Hd Hn Ht]. unfold Global.try_pop in E.
  destruct (Global.queue_ (global_queue_ s)) as [|x l] eqn:Eq; simplify_eq.
  - replace (set_global s (global_queue_ s)) with s by by destruct s. done.
  - assert (Ea : all_tasks s = task :: all_tasks (set_global s (Global.set_queue (global_queue_ s) l))).
    { unfold all_tasks, local_tasks. simpl. by rewrite Eq. }
    rewrite Ea in Ht. inversion Ht; subst. destruct (Z.eqb_spec task nullptr); [done|].
    split; [by split|]. done.
Qed.

Lemma deque_nonnull s i q :
  sched_wf s -> workers_ s !! i = Some q ->
  Forall (fun h => h <> nullptr) (contents worker_bits q).
Proof.
  intros [_ _ Ht] Hi. apply Forall_app in Ht as [_ Ht].
  destruct (concat_fmap_update (contents worker_bits) _ _ _ Hi) as (rest & E & _).
  unfold local_tasks in Ht. rewrite E in Ht. by apply Forall_app in Ht as [? _].
Qed.

(** The local deque of worker [i]: [pop] takes from it, or finds it empty. *)
Lemma pop_sched s i q :
  sched_wf s -> workers_ s !! i = Some q ->
  exists st task q', pop worker_bits q = Some (st, task, q') /\
    sched_wf (set_worker s i q') /\
    all_tasks s ≡ₚ (if task =? nullptr then [] else [task]) ++ all_tasks (set_worker s i q') /\
    (task = nullptr -> set_worker s i q' = s /\ contents worker_bits q = []).
Proof.
  intros Hwf Hi. pose proof (Forall_lookup_1 _ _ _ _ (wf_deques _ Hwf) Hi) as Hq.
  destruct (decide (bottom_ q = top_ q)) as [He|Hne].
  - exists kEmpty, nullptr, q. rewrite pop_empty by done. rewrite set_worker_id by done.
    split_and!; try done. intros _. split; [done|]. unfold contents. rewrite He. apply segment_nil.
  - pose proof (wf_top _ _ Hq).
    destruct (pop_nonempty _ q Hq) as (q' & -> & Hq' & _ & Hc); [lia|].
    set (h := slot_at _ _ _) in *.
    pose proof (deque_nonnull s i q Hwf Hi) as Hnn.
    rewrite Hc in Hnn. apply Forall_app in Hnn as [Hn1 Hn2]. inversion Hn2; subst.
    destruct (set_worker_spec s i q q' Hwf Hi Hq' Hn1) as (Hwf' & rest & E & E').
    eexists _, h, q'. split; [done|]. split; [done|].
    destruct (Z.eqb_spec h nullptr); [done|]. split; [|done].
    rewrite E, E', Hc, <- (assoc_L (++)). simpl. by rewrite <- Permutation_middle.
Qed.

Lemma steal_sched s i q :
  sched_wf s -> workers_ s !! i = Some q ->
  exists st task q', steal worker_bits q = Some (st, task, q') /\
    sched_wf (set_worker s i q') /\ ws_wf worker_bits q' /\
    match st with
    | kSuccess => task <> nullptr /\ all_tasks s ≡ₚ task :: all_tasks (set_worker s i q')
    | _ => task = nullptr /\ set_worker s i q' = s /\ contents worker_bits q = []
    end.
Proof.
  intros Hwf Hi. pose proof (Forall_lookup_1 _ _ _ _ (wf_deques _ Hwf) Hi) as Hq.
  destruct (decide (bottom_ q = top_ q)) as [He|Hne].
  - exists kEmpty, nullptr, q. rewrite steal_empty by done. rewrite set_worker_id by done.
    split_and!; try done. unfold contents. rewrite He. apply segment_nil.
  - pose proof (wf_top _ _ Hq). pose proof (deque_nonnull s i q Hwf Hi) as Hnn.
    destruct (steal_nonempty _ q Hq) as (q' & -> & Hq' & _ & Hc); [lia|].
    set (h := slot_at _ _ _) in *. rewrite Hc in Hnn. inversion Hnn; subst.
    destruct (set_worker_spec s i q q' Hwf Hi Hq') as (Hwf' & rest & E & E'); [done|].
    eexists _, h, q'. split; [done|]. split; [done|]. split; [done|]. split; [done|].
    by rewrite E, E', Hc.
Qed.

(** ** The stealing loop *)

Lemma next_target_spec n t : 0 < n < 2 ^ 32 -> 0 <= t < n -> next_target n t = (t + 1) mod n.
Proof. intros. unfold next_target. by rewrite (Z.mod_small (t + 1)) by lia. Qed.

Lemma local_tasks_nil s :
  (forall i q, workers_ s !! i = Some q -> contents worker_bits q = []) -> local_tasks s = [].
Proof.
  unfold local_tasks. generalize (workers_ s). intros l H. induction l as [|q l IH]; [done|].
  simpl. rewrite (H 0%nat q) by done. apply IH. intros i. apply (H (S i)).
Qed.

(** The loop takes one task from some other worker or, when it gives up, has
    found the deque of every worker it visited empty. *)
Lemma steal_loop_spec i self t s :
  sched_wf s -> 0 <= t < thread_entries_ s ->
  exists task s' n, steal_loop i self t s = Some (task, s', n) /\ sched_wf s' /\
    if task =? nullptr then
      s' = s /\ forall j q, 0 <= j < Z.of_nat i -> (t + j) mod thread_entries_ s <> self ->
        workers_ s !! Z.to_nat ((t + j) mod thread_entries_ s) = Some q ->
        contents worker_bits q = []
    else all_tasks s ≡ₚ task :: all_tasks s'.
Proof.
  revert t. induction i as [|i IH]; intros t Hwf Ht; simpl.
  { exists nullptr, s, 0%nat. split; [done|]. split; [done|]. split; [done|]. lia. }
  pose proof (wf_entries _ Hwf) as Hn.
  destruct (IH (next_target (thread_entries_ s) t) Hwf) as (task & s' & n & E & Hwf' & Hr).
  { rewrite next_target_spec by done. apply Z.mod_pos_bound. lia. }
  assert (Hshift : forall j, (next_target (thread_entries_ s) t + j) mod thread_entries_ s
                             = (t + (j + 1)) mod thread_entries_ s).
  { intros j. rewrite next_target_spec by done. rewrite Zplus_mod_idemp_l. f_equal. lia. }
  assert (Hcons : (t <> self -> forall q, workers_ s !! Z.to_nat t = Some q ->
                     contents worker_bits q = []) ->
    if task =? nullptr then
      s' = s /\ forall j q, 0 <= j < Z.of_nat (S i) -> (t + j) mod thread_entries_ s <> self ->
        workers_ s !! Z.to_nat ((t + j) mod thread_entries_ s) = Some q ->
        contents worker_bits q = []
    else all_tasks s ≡ₚ task :: all_tasks s').
  { intros H0. destruct (task =? nullptr); [|done]. destruct Hr as [-> Hr]. split; [done|].
    intros j q Hj. destruct (decide (j = 0)) as [->|].
    - rewrite Z.add_0_r, Z.mod_small by done. intros. by apply H0.
    - specialize (Hr (j - 1) q). rewrite Hshift in Hr.
      replace (j - 1 + 1) with j in Hr by lia. apply Hr. lia. }
  destruct (Z.eqb_spec t self) as [->|Hne].
  { exists task, s', n. split; [done|]. split; [done|]. by apply Hcons. }
  destruct (lookup_lt_is_Some_2 (workers_ s) (Z.to_nat t)) as [q Hq].
  { unfold thread_entries_ in Ht. lia. }
  rewrite Hq. simpl. destruct (steal_sched s _ q Hwf Hq) as (st & x & q' & -> & Hwf1 & Hq' & Hst).
  simpl. destruct (decide (st = kSuccess)) as [->|Hs].
  - destruct Hst as [Hx Hp]. rewrite (approx_size_exact worker_bits) by done. simpl.
    destruct (1 <? _).
    + destruct (notify_one_idle_wf _ Hwf1) as [Hw Ea].
      destruct (Global.notify_one_idle _) as [g m]. simpl in *.
      exists x, (set_global (set_worker s (Z.to_nat t) q') g), m.
      split; [done|]. split; [done|]. destruct (Z.eqb_spec x nullptr); [done|]. by rewrite Ea.
    + exists x, (set_worker s (Z.to_nat t) q'), 0%nat. split; [done|]. split; [done|].
      destruct (Z.eqb_spec x nullptr); done.
  - assert (x = nullptr /\ set_worker s (Z.to_nat t) q' = s /\ contents worker_bits q = [])
      as (_ & -> & Hc) by (by destruct st).
    exists task, s', n. split; [done|]. split; [done|]. apply Hcons. intros _ q0 Hq0. congruence.
Qed.

(** ** The search and the submissions *)

(** C25. Run without interference, the search of a worker finds a task whenever there
    is one anywhere (its own deque, the global queue, any other worker's deque,
    whatever victim the generator picks first): it returns null exactly when
    every queue is empty, and otherwise removes exactly the task it returns. *)
Theorem try_get_task_complete (self : nat) (rng tick : Z) (s : ActorScheduler) :
  sched_wf s -> (self < length (workers_ s))%nat -> 0 <= rng ->
  exists task tick' s' n,
    try_get_task self rng tick s = Some (task, tick', s', n) /\ sched_wf s' /\
    (task = nullptr <-> all_tasks s = []) /\
    (task <> nullptr -> all_tasks s ≡ₚ task :: all_tasks s').
Proof.
  intros Hwf Hself Hrng. unfold try_get_task.
  destruct (if next_tick tick mod 61 =? 0 then _ else _) as [polled s0] eqn:Ep.
  assert (sched_wf s0 /\ length (workers_ s0) = length (workers_ s) /\
    all_tasks s = (if polled =? nullptr then [] else [polled]) ++ all_tasks s0)
    as (Hwf0 & Hl & E0).
  { destruct (next_tick tick mod 61 =? 0); simplify_eq; [|done].
    destruct (Global.try_pop (global_queue_ s)) as [x g] eqn:Ex. simplify_eq.
    destruct (try_pop_sched _ _ _ Hwf Ex) as (? & ? & _). done. }
  rewrite E0. destruct (Z.eqb_spec polled nullptr) as [->|Hne]; simpl.
  2:{ exists polled, (next_tick tick), s0, 0%nat. done. }
  clear Ep. destruct (lookup_lt_is_Some_2 (workers_ s0) self) as [q Hq]; [lia|].
  rewrite Hq. simpl. destruct (pop_sched s0 _ q Hwf0 Hq) as (st & x & q' & -> & Hwf1 & E1 & H1).
  simpl. destruct (Z.eqb_spec x nullptr) as [->|Hx]; simpl.
  2:{ exists x, (next_tick tick), (set_worker s0 self q'), 0%nat. split_and!; try done.
      split; [done|]. intros En. rewrite En in E1. by apply Permutation_nil_cons in E1. }
  destruct (H1 eq_refl) as [Es Hown]. rewrite Es in *.
  destruct (Global.try_pop (global_queue_ s0)) as [y g] eqn:Ey.
  destruct (try_pop_sched _ _ _ Hwf0 Ey) as (Hwf2 & E2 & H2).
  destruct (Z.eqb_spec y nullptr) as [->|Hy]; simpl.
  2:{ exists y, (next_tick tick), (set_global s0 g), 0%nat. rewrite E2. done. }
  destruct (H2 eq_refl) as [-> Hglob]. rewrite length_insert.
  destruct (steal_loop_spec (length (workers_ s0)) (Z.of_nat self) (rng mod thread_entries_ s0) s0)
    as (z & s' & n & -> & Hwf' & Hz); [done|apply Z.mod_pos_bound, Hwf0|]. simpl.
  exists z, (next_tick tick), s', n. split; [done|]. split; [done|].
  destruct (Z.eqb_spec z nullptr) as [->|Hnz].
  2:{ split; [|done]. split; [done|]. intros En. rewrite En in Hz. by apply Permutation_nil_cons in Hz. }
  split; [|done]. split; [intros _|done]. destruct Hz as [_ Hz].
  unfold all_tasks. rewrite Hglob. simpl. apply local_tasks_nil. intros i qi Hi.
  destruct (decide (i = self)) as [->|Hne]; [congruence|].
  apply lookup_lt_Some in Hi as Hlt. pose proof (wf_entries _ Hwf0).
  set (n0 := thread_entries_ s0) in *. assert (Z.of_nat i < n0) by (unfold n0, thread_entries_; lia).
  apply (Hz ((Z.of_nat i - rng) mod n0)).
  - pose proof (Z.mod_pos_bound (Z.of_nat i - rng) n0). unfold n0, thread_entries_ in *. lia.
  - rewrite <- Zplus_mod. replace (rng + (Z.of_nat i - rng)) with (Z.of_nat i) by lia.
    rewrite Z.mod_small; lia.
  - rewrite <- Zplus_mod. replace (rng + (Z.of_nat i - rng)) with (Z.of_nat i) by lia.
    rewrite Z.mod_small by lia. by rewrite Nat2Z.id.
Qed.

(** Three workers: a task in the deque of worker 2 only. *)
Definition one_remote_task : ActorScheduler :=
  set_worker (new_scheduler 3) 2 (mkWSQ 0 1 (<[0%nat := 64]> (queue_ (new_queue worker_bits)))).

Lemma one_remote_task_wf : sched_wf one_remote_task.
Proof.
  apply (set_worker_spec (new_scheduler 3) 2 (new_queue worker_bits)).
  - by apply new_scheduler_wf.
  - reflexivity.
  - split; vm_compute; try done; by split.
  - vm_compute. by repeat constructor.
Qed.

Lemma try_get_task_complete_witness :
  exists task tick' s' n,
    try_get_task 0 7 0 one_remote_task = Some (task, tick', s', n) /\
    task = 64 /\ all_tasks one_remote_task ≡ₚ 64 :: all_tasks s'.
Proof.
  destruct (try_get_task_complete 0 7 0 one_remote_task one_remote_task_wf)
    as (task & tick' & s' & n & E & _ & _ & Hp); [vm_compute; lia|lia|].
  assert (task = 64) as -> by (vm_compute in E; congruence).
  exists 64, tick', s', n. split; [exact E|]. split; [reflexivity|]. by apply Hp.
Defined.

(** A submitted task is stored exactly once, whoever submits it (a worker
    with room in its deque, a worker whose deque is full, an external thread):
    afterwards the queues hold what they held and the task. *)
Theorem enqueue_stores_once (tls_worker : option nat) (handle : Z) (s : ActorScheduler) :
  sched_wf s -> handle <> nullptr ->
  (forall w q, tls_worker = Some w -> workers_ s !! w = Some q -> bottom_ q + 1 < 2 ^ 63) ->
  (forall w, tls_worker = Some w -> (w < length (workers_ s))%nat) ->
  exists s' n, Enqueue tls_worker handle s = Some (s', n) /\ sched_wf s' /\
    all_tasks s' ≡ₚ handle :: all_tasks s /\
    (tls_worker = None ->
       Global.queue_ (global_queue_ s') = Global.queue_ (global_queue_ s) ++ [handle]).
Proof.
  intros Hwf Hh Hmax Hw.
  assert (Hglobal : exists s' n,
    (let (g, n) := Global.push handle (global_queue_ s) in Some (set_global s g, n)) = Some (s', n) /\
    sched_wf s' /\ all_tasks s' ≡ₚ handle :: all_tasks s /\
    Global.queue_ (global_queue_ s') = Global.queue_ (global_queue_ s) ++ [handle]).
  { destruct (Global.push_spec handle (global_queue_ s)) as (Eq & _).
    destruct (Global.push handle (global_queue_ s)) as [g n]. simpl in Eq.
    exists (set_global s g), n. split; [done|].
    assert (all_tasks (set_global s g) ≡ₚ handle :: all_tasks s) as Hp.
    { unfold all_tasks, local_tasks. simpl. rewrite Eq, <- (assoc_L (++)). simpl.
      by rewrite <- Permutation_middle. }
    split; [|done]. destruct Hwf as [Hd Hn Ht]. split; [done|done|].
    rewrite Hp. by constructor. }
  destruct tls_worker as [w|]; unfold Enqueue.
  2:{ destruct Hglobal as (s' & n & E & Hwf' & Hp & Eq). by exists s', n. }
  destruct (lookup_lt_is_Some_2 (workers_ s) w (Hw _ eq_refl)) as [q Hq]. rewrite Hq. simpl.
  pose proof (Forall_lookup_1 _ _ _ _ (wf_deques _ Hwf) Hq) as Hqwf.
  destruct (decide (bottom_ q - top_ q < qsize worker_bits)) as [Hroom|Hroom].
  - destruct (push_room worker_bits handle q Hqwf) as (q' & -> & Hq' & Hc & _);
      [by eapply Hmax|done|]. simpl.
    rewrite (approx_size_exact worker_bits) by done. simpl.
    destruct (set_worker_spec s w q q' Hwf Hq Hq') as (Hwf' & rest & E & E').
    { rewrite Hc. apply Forall_app. split; [by eapply deque_nonnull|by constructor]. }
    assert (all_tasks (set_worker s w q') ≡ₚ handle :: all_tasks s).
    { rewrite E, E', Hc, <- (assoc_L (++)). simpl. by rewrite <- Permutation_middle. }
    destruct (1 <? _); [|by exists (set_worker s w q'), 0%nat].
    destruct (notify_one_idle_wf _ Hwf') as [Hw2 Ea].
    destruct (Global.notify_one_idle _) as [g m]. simpl in *.
    exists (set_global (set_worker s w q') g), m. by rewrite Ea.
  - rewrite push_full by (done || destruct Hqwf; lia). simpl.
    rewrite set_worker_id by done.
    destruct Hglobal as (s' & n & E & Hwf' & Hp & Eq). by exists s', n.
Qed.

Lemma enqueue_stores_once_witness :
  exists s' n, Enqueue (Some 2%nat) 72 one_remote_task = Some (s', n) /\
    all_tasks s' ≡ₚ 72 :: all_tasks one_remote_task.
Proof.
  destruct (enqueue_stores_once (Some 2%nat) 72 one_remote_task one_remote_task_wf)
    as (s' & n & E & _ & Hp & _).
  - done.
  - intros w q [= <-] [= <-]. vm_compute. reflexivity.
  - intros w [= <-]. vm_compute. lia.
  - by exists s', n.
Defined.

(** [tick] after [j] searches. *)
Definition tick_after (j : nat) (tick : Z) : Z := Nat.iter j next_tick tick.

Lemma tick_after_spec j tick : 0 <= tick < 2 ^ 32 -> tick_after j tick = (tick + Z.of_nat j) mod 2 ^ 32.
Proof.
  intros Ht. induction j as [|j IH].
  - simpl. rewrite Z.mod_small; lia.
  - change (tick_after (S j) tick) with (next_tick (tick_after j tick)). rewrite IH.
    unfold next_tick. rewrite Zplus_mod_idemp_l. f_equal. lia.
Qed.

(** A busy worker cannot starve the global queue: among any 61
    consecutive searches of a worker, also across the wrap-around of its
    32-bit [tick], at least one hands out the oldest task of a non-empty global
    queue although the worker's own deque may be full of tasks. *)
Theorem global_queue_polled (tick : Z) :
  0 <= tick < 2 ^ 32 ->
  exists j, (j < 61)%nat /\
    forall self rng s task rest,
      Global.queue_ (global_queue_ s) = task :: rest -> task <> nullptr ->
      try_get_task self rng (tick_after j tick) s
      = Some (task, tick_after (S j) tick,
              set_global s (Global.set_queue (global_queue_ s) rest), 0%nat).
Proof.
  intros Ht.
  assert (exists j, (j < 61)%nat /\ tick_after (S j) tick mod 61 = 0) as (j & Hj & E).
  { remember (60 - tick mod 61) as d eqn:Hd.
    pose proof (Z.mod_pos_bound tick 61 ltac:(lia)). pose proof (Z.div_mod tick 61 ltac:(lia)).
    destruct (decide (tick + d + 1 < 2 ^ 32)) as [Hlt|Hge].
    - exists (Z.to_nat d). split; [lia|]. rewrite tick_after_spec by lia.
      rewrite (Z.mod_small (tick + _)) by lia. replace (tick + Z.of_nat (S (Z.to_nat d)))
        with ((tick / 61 + 1) * 61) by lia. apply Z.mod_mul. lia.
    - exists (Z.to_nat (2 ^ 32 - tick - 1)). split; [lia|]. rewrite tick_after_spec by lia.
      replace (tick + Z.of_nat (S (Z.to_nat (2 ^ 32 - tick - 1)))) with (2 ^ 32) by lia.
      reflexivity. }
  exists j. split; [done|]. intros self rng s task rest Hq Hn. unfold try_get_task.
  change (next_tick (tick_after j tick)) with (tick_after (S j) tick).
  destruct (Z.eqb_spec (tick_after (S j) tick mod 61) 0); [|done].
  unfold Global.try_pop. rewrite Hq. destruct (Z.eqb_spec task nullptr); done.
Qed.

Lemma global_queue_polled_witness :
  exists j, (j < 61)%nat /\
    forall self rng s task rest,
      Global.queue_ (global_queue_ s) = task :: rest -> task <> nullptr ->
      try_get_task self rng (tick_after j (2 ^ 32 - 3)) s
      = Some (task, tick_after (S j) (2 ^ 32 - 3),
              set_global s (Global.set_queue (global_queue_ s) rest), 0%nat).
Proof. apply (global_queue_polled (2 ^ 32 - 3)). lia. Defined.
