(* ===== verification/SchedulerConc.v ===== *)
(** * The worker threads of the scheduler, interleaved
      (src/core/actor_scheduler.cc, [scheduler_thread])

    Every worker runs the loop of [scheduler_thread]; a step is one critical
    section of the global queue, one access to a deque, or one call on the
    condition variable. The deque of each worker is the [ws_state] of
    WorkStealing: it records where its owner and its thieves are inside
    [push], [pop] and [steal]. External threads submit tasks and shut the
    scheduler down. *)

From Stdlib Require Import ZArith Lia.
From stdpp Require Import base list relations gmap.
From S2P Require Import Prelude WorkStealing WorkStealingConc GlobalQueue Scheduler.

Local Open Scope Z_scope.

(** The search before and after [prepare_park]; the second one carries the
    observed epoch. *)
Inductive phase := First | Second (observed_epoch : Z).

(** Where a worker is inside [try_get_task]. *)
Inductive try_pc :=
  | TryTick
  | TryPoll
  | TryLocal
  | TryGlobal
  | TryPick
  | TrySteal (i : nat) (target_id : Z)
  | TryStealing (i : nat) (target_id : Z)
  | TrySizeTop (target_id task : Z)
  | TrySizeBottom (target_id task tp : Z)
  | TryNotifyIdle (task : Z).

(** Where a worker is: in the loop of [scheduler_thread], in a task it
    resumed ([WTask]), or in a scheduler call that task made. *)
Inductive worker_pc :=
  | WLoop
  | WTry (ph : phase) (t : try_pc)
  | WPrepare
  | WPark (observed_epoch : Z)
  | WAsleep (observed_epoch : Z)
  | WCancel (task : Z)
  | WResume (task : Z)
  | WTask
  | WEnqPush (h : Z)
  | WEnqSizeTop
  | WEnqSizeBottom (tp : Z)
  | WEnqNotifyIdle
  | WEnqGlobal (h : Z)
  | WNotify (n : nat) (next : worker_pc)
  | WStop
  | WNotifyAll
  | WExit.

Record sched_state := mkSS {
  glob : Global.GlobalQueue;
  running : bool;
  deques : list ws_state;
  workers : list worker_pc;
  ticks : list Z;
  (* external threads: [notify_one] calls still to make, threads inside
     [Shutdown] before [stop] and before [notify_all] *)
  ext_notify : nat;
  ext_stop : nat;
  ext_all : nat;
  (* history: advances of the epoch, tasks through the global queue, tasks
     submitted, tasks a worker got and resumed (or found already done) *)
  epochs : nat;
  gpushed : list Z;
  gpopped : list Z;
  submitted : list Z;
  resumed : list Z
}.

(** ** State updates *)

Definition with_pc (w : nat) (pc : worker_pc) (s : sched_state) : sched_state :=
  mkSS (glob s) (running s) (deques s) (<[w := pc]> (workers s)) (ticks s)
    (ext_notify s) (ext_stop s) (ext_all s) (epochs s) (gpushed s) (gpopped s)
    (submitted s) (resumed s).

Definition with_glob (g : Global.GlobalQueue) (s : sched_state) : sched_state :=
  mkSS g (running s) (deques s) (workers s) (ticks s)
    (ext_notify s) (ext_stop s) (ext_all s) (epochs s + Global.bumps (glob s) g)
    (gpushed s) (gpopped s) (submitted s) (resumed s).

Definition with_deque (w : nat) (d : ws_state) (s : sched_state) : sched_state :=
  mkSS (glob s) (running s) (<[w := d]> (deques s)) (workers s) (ticks s)
    (ext_notify s) (ext_stop s) (ext_all s) (epochs s) (gpushed s) (gpopped s)
    (submitted s) (resumed s).

Definition with_workers (l : list worker_pc) (s : sched_state) : sched_state :=
  mkSS (glob s) (running s) (deques s) l (ticks s)
    (ext_notify s) (ext_stop s) (ext_all s) (epochs s) (gpushed s) (gpopped s)
    (submitted s) (resumed s).

Definition with_tick (w : nat) (t : Z) (s : sched_state) : sched_state :=
  mkSS (glob s) (running s) (deques s) (workers s) (<[w := t]> (ticks s))
    (ext_notify s) (ext_stop s) (ext_all s) (epochs s) (gpushed s) (gpopped s)
    (submitted s) (resumed s).

Definition with_running (b : bool) (s : sched_state) : sched_state :=
  mkSS (glob s) b (deques s) (workers s) (ticks s)
    (ext_notify s) (ext_stop s) (ext_all s) (epochs s) (gpushed s) (gpopped s)
    (submitted s) (resumed s).

Definition with_ext (en es ea : nat) (s : sched_state) : sched_state :=
  mkSS (glob s) (running s) (deques s) (workers s) (ticks s)
    en es ea (epochs s) (gpushed s) (gpopped s) (submitted s) (resumed s).

(** Additions to the history: pushed to and popped from the global queue,
    submitted, resumed. *)
Definition log (gp gq su re : list Z) (s : sched_state) : sched_state :=
  mkSS (glob s) (running s) (deques s) (workers s) (ticks s)
    (ext_notify s) (ext_stop s) (ext_all s) (epochs s) (gpushed s ++ gp) (gpopped s ++ gq)
    (submitted s ++ su) (resumed s ++ re).

(** ** The condition variable *)

Definition asleep (pc : worker_pc) : bool :=
  match pc with WAsleep _ => true | _ => false end.

(** A woken thread takes the lock again and tests the predicate. *)
Definition wake (pc : worker_pc) : worker_pc :=
  match pc with WAsleep e => WPark e | _ => pc end.

(** [cond_.notify_one()] wakes a sleeping thread (which one is [v]'s choice),
    if there is one. *)
Definition notify_one (v : nat) (l : list worker_pc) : option (list worker_pc) :=
  if existsb asleep l then
    match l !! v with
    | Some (WAsleep e) => Some (<[v := WPark e]> l)
    | _ => None
    end
  else Some l.

Definition notify_all (l : list worker_pc) : list worker_pc := wake <$> l.

Definition mk_notify (n : nat) (next : worker_pc) : worker_pc :=
  match n with O => next | _ => WNotify n next end.

(** ** The loop of a worker *)

(** After [try_get_task] returned null. *)
Definition not_found (ph : phase) : worker_pc :=
  match ph with First => WPrepare | Second e => WPark e end.

(** After [try_get_task] returned [task]. *)
Definition found (ph : phase) (task : Z) : worker_pc :=
  if task =? nullptr then not_found ph
  else match ph with First => WResume task | Second _ => WCancel task end.

(** [approx_size() > 1] from the two values it loads. *)
Definition size_gt_1 (tp bt : Z) : option bool :=
  diff ← ssub64 bt tp; Some (1 <? (if 0 <? diff then u64 diff else 0)).

(** What a running task does next. *)
Inductive task_action :=
  | Return
  | CallEnqueue (h : Z)
  | CallEnqueueBatch (l : list Z)
  | CallShutdown.

(** What a step leaves open: the draw of the generator, [task.done()], the
    thread that [notify_one] wakes, what the running task does. *)
Record oracle := mkOracle {
  o_rng : Z;
  o_done : bool;
  o_wake : nat;
  o_action : task_action
}.

(** The outcome of the next access of the owner, of a thief. *)
Definition owner_outcome (d : ws_state) : option outcome :=
  '(_, _, o) ← owner_step worker_bits (shared d) (owner d); Some o.

Definition thief_outcome (t : nat) (d : ws_state) : option outcome :=
  pc ← thieves d !! t;
  '(_, _, o) ← thief_step worker_bits (shared d) pc; Some o.

Definition start_pop (w : nat) (ph : phase) (s : sched_state) : option sched_state :=
  d ← deques s !! w;
  d' ← ws_act worker_bits CallPop d;
  Some (with_pc w (WTry ph TryLocal) (with_deque w d' s)).

(** [try_pop] on the global queue. *)
Definition global_pop (s : sched_state) : Z * sched_state :=
  let (task, g) := Global.try_pop (glob s) in
  (task, log [] (if task =? nullptr then [] else [task]) [] [] (with_glob g s)).

Definition try_act (w : nat) (o : oracle) (ph : phase) (t : try_pc) (s : sched_state)
    : option sched_state :=
  let n := Z.of_nat (length (workers s)) in
  match t with
  | TryTick =>
      tick ← ticks s !! w;
      let s1 := with_tick w (next_tick tick) s in
      if next_tick tick mod 61 =? 0 then Some (with_pc w (WTry ph TryPoll) s1)
      else start_pop w ph s1
  | TryPoll =>
      let (task, s1) := global_pop s in
      if task =? nullptr then start_pop w ph s1 else Some (with_pc w (found ph task) s1)
  | TryLocal =>
      d ← deques s !! w;
      out ← owner_outcome d;
      d' ← ws_act worker_bits OwnerGo d;
      match out with
      | Running => Some (with_deque w d' s)
      | Popped _ task =>
          Some (with_pc w (if task =? nullptr then WTry ph TryGlobal else found ph task)
                  (with_deque w d' s))
      | Pushed _ => None
      end
  | TryGlobal =>
      let (task, s1) := global_pop s in
      Some (with_pc w (if task =? nullptr then WTry ph TryPick else found ph task) s1)
  | TryPick => Some (with_pc w (WTry ph (TrySteal (length (workers s)) (o_rng o mod n))) s)
  | TrySteal O _ => Some (with_pc w (not_found ph) s)
  | TrySteal (S i) target =>
      if target =? Z.of_nat w then
        Some (with_pc w (WTry ph (TrySteal i (next_target n target))) s)
      else
        d ← deques s !! Z.to_nat target;
        d' ← ws_act worker_bits (CallSteal w) d;
        Some (with_pc w (WTry ph (TryStealing i target)) (with_deque (Z.to_nat target) d' s))
  | TryStealing i target =>
      d ← deques s !! Z.to_nat target;
      out ← thief_outcome w d;
      d' ← ws_act worker_bits (ThiefGo w) d;
      let s1 := with_deque (Z.to_nat target) d' s in
      match out with
      | Running => Some s1
      | Popped kSuccess task => Some (with_pc w (WTry ph (TrySizeTop target task)) s1)
      | Popped _ _ => Some (with_pc w (WTry ph (TrySteal i (next_target n target))) s1)
      | Pushed _ => None
      end
  | TrySizeTop target task =>
      d ← deques s !! Z.to_nat target;
      Some (with_pc w (WTry ph (TrySizeBottom target task (top_ (shared d)))) s)
  | TrySizeBottom target task tp =>
      d ← deques s !! Z.to_nat target;
      big ← size_gt_1 tp (bottom_ (shared d));
      Some (with_pc w (if (big : bool) then WTry ph (TryNotifyIdle task) else found ph task) s)
  | TryNotifyIdle task =>
      let (g, k) := Global.notify_one_idle (glob s) in
      Some (with_pc w (mk_notify k (found ph task)) (with_glob g s))
  end.

(** A step inside a resumed task. *)
Definition task_act (w : nat) (a : task_action) (s : sched_state) : option sched_state :=
  match a with
  | Return => Some (with_pc w WLoop s)
  | CallEnqueue h =>
      d ← deques s !! w;
      d' ← ws_act worker_bits (CallPush h) d;
      Some (log [] [] [h] [] (with_pc w (WEnqPush h) (with_deque w d' s)))
  | CallEnqueueBatch l =>
      if decide (Forall (fun h => h <> nullptr) l) then
        let (g, k) := Global.push_batch l (glob s) in
        Some (log l [] l [] (with_pc w (mk_notify k WTask) (with_glob g s)))
      else None
  | CallShutdown => Some (with_pc w WStop (with_running false s))
  end.

Definition worker_act (w : nat) (o : oracle) (s : sched_state) : option sched_state :=
  pc ← workers s !! w;
  match pc with
  | WLoop => Some (with_pc w (if running s then WTry First TryTick else WExit) s)
  | WTry ph t => try_act w o ph t s
  | WPrepare =>
      let (e, g) := Global.prepare_park (glob s) in
      Some (with_pc w (WTry (Second e) TryTick) (with_glob g s))
  | WPark e =>
      match Global.park e (glob s) with
      | Some g => Some (with_pc w WLoop (with_glob g s))
      | None => Some (with_pc w (WAsleep e) s)
      end
  | WAsleep e => Some (with_pc w (WPark e) s) (* a spurious wake-up *)
  | WCancel task => Some (with_pc w (WResume task) (with_glob (Global.cancel_park (glob s)) s))
  | WResume task =>
      Some (log [] [] [] [task] (with_pc w (if o_done o then WLoop else WTask) s))
  | WTask => task_act w (o_action o) s
  | WEnqPush h =>
      d ← deques s !! w;
      out ← owner_outcome d;
      d' ← ws_act worker_bits OwnerGo d;
      match out with
      | Running => Some (with_deque w d' s)
      | Pushed ok =>
          Some (with_pc w (if (ok : bool) then WEnqSizeTop else WEnqGlobal h) (with_deque w d' s))
      | Popped _ _ => None
      end
  | WEnqSizeTop =>
      d ← deques s !! w; Some (with_pc w (WEnqSizeBottom (top_ (shared d))) s)
  | WEnqSizeBottom tp =>
      d ← deques s !! w;
      big ← size_gt_1 tp (bottom_ (shared d));
      Some (with_pc w (if (big : bool) then WEnqNotifyIdle else WTask) s)
  | WEnqNotifyIdle =>
      let (g, k) := Global.notify_one_idle (glob s) in
      Some (with_pc w (mk_notify k WTask) (with_glob g s))
  | WEnqGlobal h =>
      let (g, k) := Global.push h (glob s) in
      Some (log [h] [] [] [] (with_pc w (mk_notify k WTask) (with_glob g s)))
  | WNotify O next => Some (with_pc w next s)
  | WNotify (S k) next =>
      l ← notify_one (o_wake o) (workers s);
      Some (with_pc w (mk_notify k next) (with_workers l s))
  | WStop =>
      let (g, b) := Global.stop (glob s) in
      Some (with_pc w (if (b : bool) then WNotifyAll else WTask) (with_glob g s))
  | WNotifyAll => Some (with_pc w WTask (with_workers (notify_all (workers s)) s))
  | WExit => None
  end.

(** ** External threads *)

Inductive sched_choice :=
  | Go (w : nat) (o : oracle)
  | ExtEnqueue (h : Z)
  | ExtEnqueueBatch (l : list Z)
  | ExtNotify (v : nat)
  | ExtShutdown
  | ExtStop
  | ExtNotifyAll.

Definition sched_act (c : sched_choice) (s : sched_state) : option sched_state :=
  match c with
  | Go w o => worker_act w o s
  | ExtEnqueue h =>
      if h =? nullptr then None else
      let (g, k) := Global.push h (glob s) in
      Some (log [h] [] [h] [] (with_ext (ext_notify s + k) (ext_stop s) (ext_all s) (with_glob g s)))
  | ExtEnqueueBatch l =>
      if decide (Forall (fun h => h <> nullptr) l) then
        let (g, k) := Global.push_batch l (glob s) in
        Some (log l [] l [] (with_ext (ext_notify s + k) (ext_stop s) (ext_all s) (with_glob g s)))
      else None
  | ExtNotify v =>
      match ext_notify s with
      | O => None
      | S k =>
          l ← notify_one v (workers s);
          Some (with_ext k (ext_stop s) (ext_all s) (with_workers l s))
      end
  | ExtShutdown => Some (with_ext (ext_notify s) (S (ext_stop s)) (ext_all s) (with_running false s))
  | ExtStop =>
      match ext_stop s with
      | O => None
      | S k =>
          let (g, b) := Global.stop (glob s) in
          Some (with_ext (ext_notify s) k (if (b : bool) then S (ext_all s) else ext_all s)
                  (with_glob g s))
      end
  | ExtNotifyAll =>
      match ext_all s with
      | O => None
      | S k => Some (with_ext (ext_notify s) (ext_stop s) k
                       (with_workers (notify_all (workers s)) s))
      end
  end.

Definition sched_step (s s' : sched_state) : Prop := exists c, sched_act c s = Some s'.

(** The barrier has been passed: every worker is at the head of its loop. *)
Definition sched_start (n : nat) : sched_state :=
  mkSS Global.new_global_queue true
    (replicate n (mkWS (new_queue worker_bits) OIdle ∅ [] [])) (replicate n WLoop)
    (replicate n 0) 0 0 0 0 [] [] [] [].

Definition sched_init (n : nat) (s : sched_state) : Prop := s = sched_start n.
