(* ===== verification/SchedulerPark.v ===== *)
(** * The parking protocol of the workers

    The invariant behind [prepare_park], [cancel_park], [park] and the epoch:
    the idle counter counts the registered workers, and a worker that would
    sleep on the current epoch has seen the global queue empty since. *)

From Stdlib Require Import ZArith Lia.
From stdpp Require Import base list relations gmap.
From S2P Require Import Prelude WorkStealing WorkStealingConc GlobalQueue Scheduler SchedulerConc.

Local Open Scope Z_scope.

(** ** The parking protocol *)

(** Between [prepare_park] and [cancel_park] or the end of [park]. *)
Fixpoint registered (pc : worker_pc) : nat :=
  match pc with
  | WTry (Second _) _ | WPark _ | WAsleep _ | WCancel _ => 1
  | WNotify _ next => registered next
  | _ => 0
  end.

(** The epoch a registered worker observed. *)
Fixpoint observed (pc : worker_pc) : option Z :=
  match pc with
  | WTry (Second e) _ | WPark e | WAsleep e => Some e
  | WNotify _ next => observed next
  | _ => None
  end.

(** The same, once the worker has found the global queue empty since. *)
Fixpoint past (pc : worker_pc) : option Z :=
  match pc with
  | WTry (Second e) t =>
      match t with TryTick | TryPoll | TryLocal | TryGlobal => None | _ => Some e end
  | WPark e | WAsleep e => Some e
  | WNotify _ next => past next
  | _ => None
  end.

Definition at_stop (pc : worker_pc) : bool := match pc with WStop => true | _ => false end.

Definition at_notify_all (pc : worker_pc) : bool :=
  match pc with WNotifyAll => true | _ => false end.

(** Handles on their way into a queue are not null; what follows a
    notification is not a sleep. *)
Fixpoint pc_ok (pc : worker_pc) : Prop :=
  match pc with
  | WEnqPush h | WEnqGlobal h => h <> nullptr
  | WNotify _ next => asleep next = false /\ pc_ok next
  | _ => True
  end.

Definition park_ok (g : Global.GlobalQueue) (ep : nat) (pc : worker_pc) : Prop :=
  (forall e, observed pc = Some e -> 0 <= e <= Z.of_nat ep) /\
  (forall e, past pc = Some e -> e = Global.wake_epoch_ g -> Global.queue_ g = []) /\
  pc_ok pc.

Definition registrations (l : list worker_pc) : nat := sum_list_with registered l.

Record park_inv (s : sched_state) : Prop := {
  inv_idle : Global.idle_threads_ (glob s) = Z.of_nat (registrations (workers s));
  inv_epoch : Global.wake_epoch_ (glob s) = Z.of_nat (epochs s);
  inv_queue : Forall (fun h => h <> nullptr) (Global.queue_ (glob s));
  inv_park : Forall (park_ok (glob s) (epochs s)) (workers s);
  inv_awake : Forall (fun pc => asleep pc = true) (workers s) -> ext_notify s = O ->
              Global.queue_ (glob s) = [];
  inv_stop : Global.stop_flag (glob s) = true -> Exists (fun pc => asleep pc = true) (workers s) ->
             (0 < ext_all s)%nat \/ Exists (fun pc => at_notify_all pc = true) (workers s);
  inv_running : running s = false ->
             Global.stop_flag (glob s) = true \/ (0 < ext_stop s)%nat \/
             Exists (fun pc => at_stop pc = true) (workers s)
}.

(** What a step may do to the global queue while others are registered. *)
Definition glob_mono (g g' : Global.GlobalQueue) : Prop :=
  (Global.wake_epoch_ g' = Global.wake_epoch_ g /\
   ((Global.queue_ g = [] -> Global.queue_ g' = []) \/ Global.idle_threads_ g = 0)) \/
  Global.wake_epoch_ g' = add64 (Global.wake_epoch_ g) 1.

Lemma glob_mono_refl g : glob_mono g g.
Proof. left. auto. Qed.

Lemma glob_mono_push h g : glob_mono g (Global.push h g).1 \/ Global.idle_threads_ g < 0.
Proof.
  destruct (Global.push_spec h g) as (_ & _ & _ & H1 & H0).
  destruct (decide (0 < Global.idle_threads_ g)) as [Hp|Hp].
  - left. right. by apply H1.
  - destruct (decide (Global.idle_threads_ g = 0)) as [E|]; [|right; lia].
    left. left. split; [apply H0; lia|auto].
Qed.

Lemma registered_0 pc : registered pc = O -> observed pc = None /\ past pc = None.
Proof. induction pc; simpl; intros; try done; [by destruct ph|auto]. Qed.

Lemma registered_le pc : (registered pc <= 1)%nat.
Proof. induction pc; simpl; try lia. destruct ph; lia. Qed.

Lemma registrations_update l w pc pc' :
  l !! w = Some pc ->
  (registrations (<[w := pc']> l) + registered pc = registrations l + registered pc')%nat.
Proof.
  intros Hw. unfold registrations.
  rewrite <- (take_drop_middle l w pc Hw) at 2.
  rewrite insert_take_drop by by eapply lookup_lt_Some.
  rewrite !sum_list_with_app. simpl. lia.
Qed.

Lemma registrations_lookup l w pc :
  l !! w = Some pc -> (registered pc <= registrations l)%nat.
Proof.
  intros Hw. pose proof (registrations_update l w pc WLoop Hw). simpl in *. lia.
Qed.

Lemma registrations_length l : (registrations l <= length l)%nat.
Proof.
  unfold registrations. induction l as [|pc l IH]; simpl; [lia|].
  pose proof (registered_le pc). lia.
Qed.

Lemma bumps_same g g' :
  Global.wake_epoch_ g' = Global.wake_epoch_ g -> Global.bumps g g' = O.
Proof. unfold Global.bumps. intros ->. by rewrite Z.eqb_refl. Qed.

Lemma bumps_next g g' ep :
  Global.wake_epoch_ g = Z.of_nat ep -> Global.wake_epoch_ g' = add64 (Global.wake_epoch_ g) 1 ->
  Z.of_nat (ep + Global.bumps g g') < 2 ^ 64 ->
  Global.bumps g g' = 1%nat /\ Global.wake_epoch_ g' = Z.of_nat (ep + 1).
Proof.
  unfold Global.bumps. intros E E' Hb.
  destruct (Z.eqb_spec (Global.wake_epoch_ g') (Global.wake_epoch_ g)) as [Es|].
  - exfalso. rewrite E' in Es. unfold add64, u64 in Es. rewrite E in Es.
    destruct (decide (Z.of_nat ep + 1 < 2 ^ 64)).
    + rewrite Z.mod_small in Es. all: lia.
    + replace (Z.of_nat ep + 1) with (2 ^ 64) in Es by lia.
      rewrite Z_mod_same_full in Es. lia.
  - split; [done|]. rewrite E', E, add64_small; lia.
Qed.

(** The other workers' assertions survive. *)
Lemma park_ok_mono s g' :
  park_inv s -> Z.of_nat (epochs s + Global.bumps (glob s) g') < 2 ^ 64 ->
  glob_mono (glob s) g' ->
  Global.wake_epoch_ g' = Z.of_nat (epochs s + Global.bumps (glob s) g') /\
  Forall (park_ok g' (epochs s + Global.bumps (glob s) g')) (workers s).
Proof.
  intros Hi Hb [[Ew Hq]|Ew].
  - rewrite bumps_same by done. rewrite Nat.add_0_r, Ew. split; [apply Hi|].
    apply Forall_lookup_2. intros w pc Hw.
    destruct (Forall_lookup_1 _ _ _ _ (inv_park _ Hi) Hw) as (Ho & Hp & Hpc).
    split; [done|]. split; [|done]. intros e He ->. destruct Hq as [Hq|Hq].
    + apply Hq, (Hp _ He). done.
    + exfalso. pose proof (registrations_lookup _ _ _ Hw). rewrite (inv_idle _ Hi) in Hq.
      destruct (registered_0 pc) as [_ E]; [lia|]. congruence.
  - destruct (bumps_next _ _ _ (inv_epoch _ Hi) Ew Hb) as [-> E]. split; [done|].
    apply Forall_lookup_2. intros w pc Hw.
    destruct (Forall_lookup_1 _ _ _ _ (inv_park _ Hi) Hw) as (Ho & Hp & Hpc).
    split; [intros e He; specialize (Ho e He); lia|]. split; [|done].
    intros e He Ee. exfalso. assert (observed pc = Some e) as Hob.
    { clear -He. induction pc; simpl in *; try done; [|auto]. by destruct ph, t. }
    specialize (Ho e Hob). lia.
Qed.

(** A step of worker [w] that changes its program point and the global queue. *)
Lemma park_worker s s' w pc pc' :
  park_inv s -> workers s !! w = Some pc ->
  workers s' = <[w := pc']> (workers s) ->
  epochs s' = (epochs s + Global.bumps (glob s) (glob s'))%nat ->
  ext_notify s' = ext_notify s -> ext_stop s' = ext_stop s -> ext_all s' = ext_all s ->
  Z.of_nat (epochs s') < 2 ^ 64 ->
  glob_mono (glob s) (glob s') ->
  Global.idle_threads_ (glob s') + Z.of_nat (registered pc)
    = Global.idle_threads_ (glob s) + Z.of_nat (registered pc') ->
  (park_ok (glob s') (epochs s') pc -> Global.wake_epoch_ (glob s') = Z.of_nat (epochs s') ->
   park_ok (glob s') (epochs s') pc') ->
  Forall (fun h => h <> nullptr) (Global.queue_ (glob s')) ->
  (asleep pc' = true -> Global.queue_ (glob s') = [] /\ Global.stop_flag (glob s') = false) ->
  (Global.stop_flag (glob s') = Global.stop_flag (glob s) \/
   Global.stop_flag (glob s') = true /\ at_notify_all pc' = true) ->
  (at_notify_all pc = true -> Forall (fun p => asleep p = false) (workers s)) ->
  (running s' = running s /\ (at_stop pc = true -> Global.stop_flag (glob s') = true) \/
   at_stop pc' = true) ->
  park_inv s'.
Proof.
  intros Hi Hw El Ee Ee1 Ee2 Ee3 Hb Hg Hid Hok Hnn Hsl Hst Hna Hrun.
  rewrite Ee in Hb. destruct (park_ok_mono s _ Hi Hb Hg) as [Hwe Hoth].
  assert (Hlt : (w < length (workers s))%nat) by by eapply lookup_lt_Some.
  assert (Hself : Exists (fun p => p = pc') (workers s')).
  { rewrite El. apply Exists_exists. exists pc'. split; [|done].
    by eapply list_elem_of_lookup_2, list_lookup_insert_eq. }
  assert (Hkeep : forall P : worker_pc -> bool, P pc = false ->
    Exists (fun p => P p = true) (workers s) -> Exists (fun p => P p = true) (workers s')).
  { intros P Hp Hex. apply Exists_exists in Hex as (p & Hin & HP).
    apply list_elem_of_lookup in Hin as [v Hv]. rewrite El. apply Exists_exists. exists p.
    split; [|done]. apply list_elem_of_lookup. exists v. rewrite list_lookup_insert_ne; [done|].
    intros <-. congruence. }
  rewrite Ee in Hok. specialize (Hok (Forall_lookup_1 _ _ _ _ Hoth Hw) Hwe).
  split; rewrite ?Ee, ?Ee1, ?Ee2, ?Ee3.
  - rewrite El. pose proof (registrations_update _ _ _ pc' Hw). pose proof (inv_idle _ Hi). lia.
  - done.
  - done.
  - rewrite El. by apply Forall_insert.
  - intros Hall _. rewrite Forall_forall in Hall. apply Exists_exists in Hself as (p & Hin & ->).
    by apply Hsl, Hall.
  - intros Hs Hex. destruct Hst as [Es|[_ Hn]].
    2:{ right. apply Exists_exists in Hself as (p & Hin & ->). apply Exists_exists. by exists pc'. }
    assert (Hex0 : Exists (fun p => asleep p = true) (workers s)).
    2:{ destruct (inv_stop _ Hi) as [?|?]; [congruence|done|by left|right].
        apply Hkeep; [|done]. destruct (at_notify_all pc); [|done]. specialize (Hna eq_refl).
        apply Exists_exists in Hex0 as (p & Hin & Hp). rewrite Forall_forall in Hna.
        rewrite (Hna _ Hin) in Hp. done. }
    rewrite El in Hex. apply Exists_exists in Hex as (p & Hin & Hp).
    apply list_elem_of_lookup in Hin as [v Hv].
    apply list_lookup_insert_Some in Hv as [(-> & <- & _)|[_ Hv]].
    + destruct (Hsl Hp). congruence.
    + apply Exists_exists. exists p. split; [by eapply list_elem_of_lookup_2|done].
  - intros Hr. destruct Hrun as [[Er Hs]|Hs].
    2:{ right. right. apply Exists_exists in Hself as (p & Hin & ->). apply Exists_exists. by exists pc'. }
    destruct (at_stop pc) eqn:Hat; [left; by apply Hs|].
    destruct (inv_running _ Hi) as [Hf|[?|?]]; [congruence| |by right; left|].
    + left. destruct Hst as [->|[-> _]]; done.
    + right. right. by apply Hkeep.
Qed.

(** Waking sleepers changes nothing else. *)
Lemma wake_ok g ep pc : park_ok g ep pc -> park_ok g ep (wake pc).
Proof. by destruct pc. Qed.

Lemma registered_wake pc : registered (wake pc) = registered pc.
Proof. by destruct pc. Qed.

Lemma registrations_wake l : registrations (wake <$> l) = registrations l.
Proof. unfold registrations. induction l; csimpl; [done|]. by rewrite registered_wake, IHl. Qed.

Lemma notify_one_spec v l l' :
  notify_one v l = Some l' ->
  (l' = l /\ Forall (fun pc => asleep pc = false) l) \/
  exists e, l !! v = Some (WAsleep e) /\ l' = <[v := WPark e]> l.
Proof.
  unfold notify_one. destruct (existsb asleep l) eqn:E.
  - destruct (l !! v) as [[]|]; intros; simplify_eq; eauto.
  - intros [= <-]. left. split; [done|]. apply Forall_forall. intros pc Hin.
    destruct (asleep pc) eqn:Ea; [|done]. rewrite <- E. symmetry. apply existsb_exists.
    exists pc. by rewrite <- list_elem_of_In.
Qed.

Lemma park_with_workers s l en ea :
  park_inv s -> registrations l = registrations (workers s) ->
  Forall (park_ok (glob s) (epochs s)) l ->
  ~ Forall (fun pc => asleep pc = true) l ->
  (Exists (fun pc => asleep pc = true) l -> ea = ext_all s /\
   Exists (fun pc => asleep pc = true) (workers s)) ->
  (forall P : worker_pc -> bool, P = at_stop \/ P = at_notify_all ->
     Exists (fun pc => P pc = true) (workers s) -> Exists (fun pc => P pc = true) l) ->
  park_inv (with_ext en (ext_stop s) ea (with_workers l s)).
Proof.
  intros [] Hr Hl Hna Hex Hp. split; simpl; try done.
  - by rewrite Hr.
  - intros Hs He. destruct (Hex He) as [-> He']. destruct inv_stop0 as [?|?]; auto.
  - intros Hf. destruct inv_running0 as [?|[?|?]]; auto.
Qed.

Lemma park_notify s v l en :
  park_inv s -> (0 < length (workers s))%nat -> notify_one v (workers s) = Some l ->
  park_inv (with_ext en (ext_stop s) (ext_all s) (with_workers l s)).
Proof.
  intros Hi Hn Hl. apply notify_one_spec in Hl as [[-> Hf]|(e & Hv & ->)].
  - apply park_with_workers; auto; [apply Hi|]. intros Hall.
    destruct (workers s); [simpl in Hn; lia|]. inversion Hf; inversion Hall; congruence.
  - pose proof (registrations_update _ _ _ (WPark e) Hv). simpl in *.
    assert (Hlt : (v < length (workers s))%nat) by by eapply lookup_lt_Some.
    apply park_with_workers; auto.
    + lia.
    + apply Forall_insert; [apply Hi|]. apply (wake_ok _ _ (WAsleep e)).
      by apply (Forall_lookup_1 _ _ _ _ (inv_park _ Hi) Hv).
    + intros Hall. apply (Forall_lookup_1 _ _ v (WPark e)) in Hall; [done|].
      by apply list_lookup_insert_eq.
    + intros _. split; [done|]. apply Exists_exists. exists (WAsleep e).
      split; [by eapply list_elem_of_lookup_2|done].
    + intros P HP Hex. apply Exists_exists in Hex as (p & Hin & Hp).
      apply list_elem_of_lookup in Hin as [u Hu]. apply Exists_exists. exists p. split; [|done].
      apply list_elem_of_lookup. exists u. rewrite list_lookup_insert_ne; [done|].
      intros ->. rewrite Hv in Hu. simplify_eq. by destruct HP as [-> | ->].
Qed.

Lemma wake_awake l : Forall (fun p => asleep p = false) (wake <$> l).
Proof. apply Forall_fmap, Forall_true. intros []; done. Qed.

Lemma park_notify_all s ea :
  park_inv s -> (0 < length (workers s))%nat ->
  park_inv (with_ext (ext_notify s) (ext_stop s) ea (with_workers (notify_all (workers s)) s)).
Proof.
  intros Hi Hn. pose proof (wake_awake (workers s)) as Haw.
  apply park_with_workers; auto.
  - apply registrations_wake.
  - apply Forall_fmap. eapply Forall_impl; [apply Hi|]. intros pc. apply wake_ok.
  - unfold notify_all. intros Hall. destruct (workers s); [simpl in Hn; lia|].
    inversion Haw; inversion Hall; congruence.
  - intros Hex. apply Exists_exists in Hex as (p & Hin & Hp). rewrite Forall_forall in Haw.
    rewrite (Haw p Hin) in Hp. done.
  - intros P HP Hex. unfold notify_all. apply Exists_fmap. eapply Exists_impl; [exact Hex|].
    intros pc Hpc. by destruct HP as [-> | ->], pc.
Qed.

(** ** Steps of the workers preserve the protocol *)

Lemma found_registered ph t task : registered (found ph task) = registered (WTry ph t).
Proof. unfold found. destruct ph, (task =? nullptr); done. Qed.

Lemma found_ok g ep ph t task :
  task <> nullptr \/ past (WTry ph t) = observed (WTry ph t) ->
  park_ok g ep (WTry ph t) -> park_ok g ep (found ph task).
Proof.
  unfold found. intros H (Ho & Hp & _). destruct (Z.eqb_spec task nullptr) as [En|En].
  - destruct H as [?|E]; [done|]. destruct ph as [|e]; [done|]. split; [done|]. simpl in *.
    split; [|done]. by rewrite <- E.
  - by destruct ph.
Qed.

Lemma found_awake ph task :
  asleep (found ph task) = false /\ at_notify_all (found ph task) = false /\
  at_stop (found ph task) = false.
Proof. unfold found. destruct (task =? nullptr), ph; done. Qed.

Lemma mk_notify_spec k next :
  registered (mk_notify k next) = registered next /\
  observed (mk_notify k next) = observed next /\ past (mk_notify k next) = past next /\
  (asleep next = false -> asleep (mk_notify k next) = false).
Proof. by destruct k. Qed.

Lemma mk_notify_ok g ep k next :
  park_ok g ep next -> asleep next = false -> park_ok g ep (mk_notify k next).
Proof. intros (? & ? & ?) ?. by destruct k. Qed.

(** A step that leaves the global queue alone. *)
Lemma park_local s s' w pc pc' :
  park_inv s -> workers s !! w = Some pc ->
  workers s' = <[w := pc']> (workers s) -> glob s' = glob s -> epochs s' = epochs s ->
  ext_notify s' = ext_notify s -> ext_stop s' = ext_stop s -> ext_all s' = ext_all s ->
  Z.of_nat (epochs s') < 2 ^ 64 ->
  registered pc' = registered pc ->
  (park_ok (glob s) (epochs s) pc -> park_ok (glob s) (epochs s) pc') ->
  asleep pc' = false ->
  (at_notify_all pc = true -> Forall (fun p => asleep p = false) (workers s)) ->
  (running s' = running s /\ at_stop pc = false \/ at_stop pc' = true) ->
  park_inv s'.
Proof.
  intros Hi Hw El Eg Ee E1 E2 E3 Hb Hr Hok Hsl Hna Hrun.
  eapply (park_worker s s' w pc pc'); rewrite ?Eg, ?Ee; try done.
  - rewrite bumps_same by done. lia.
  - congruence.
  - apply glob_mono_refl.
  - lia.
  - auto.
  - apply Hi.
  - congruence.
  - auto.
  - destruct Hrun as [[? ?]|?]; [left; split; [done|congruence]|by right].
Qed.

(** A critical section that only submits or only notifies. *)
Lemma park_submit s s' w pc pc' g' :
  park_inv s -> workers s !! w = Some pc ->
  workers s' = <[w := pc']> (workers s) -> glob s' = g' ->
  epochs s' = (epochs s + Global.bumps (glob s) g')%nat ->
  ext_notify s' = ext_notify s -> ext_stop s' = ext_stop s -> ext_all s' = ext_all s ->
  running s' = running s -> Z.of_nat (epochs s') < 2 ^ 64 ->
  glob_mono (glob s) g' ->
  Global.idle_threads_ g' = Global.idle_threads_ (glob s) ->
  Global.stop_flag g' = Global.stop_flag (glob s) ->
  Forall (fun h => h <> nullptr) (Global.queue_ g') ->
  registered pc' = registered pc ->
  (park_ok g' (epochs s') pc -> park_ok g' (epochs s') pc') ->
  asleep pc' = false -> at_notify_all pc = false -> at_stop pc = false ->
  park_inv s'.
Proof.
  intros Hi Hw El <- Ee E1 E2 E3 Er Hb Hg Hid Hst Hnn Hr Hok Hsl Hna Hrun.
  eapply (park_worker s s' w pc pc'); try done.
  - lia.
  - auto.
  - congruence.
  - by left.
  - congruence.
  - left. split; [done|congruence].
Qed.

Lemma glob_mono_pushed s h :
  park_inv s -> glob_mono (glob s) (Global.push h (glob s)).1.
Proof.
  intros Hi. destruct (glob_mono_push h (glob s)); [done|]. rewrite (inv_idle _ Hi) in *. lia.
Qed.

Lemma glob_mono_batch s l :
  park_inv s -> glob_mono (glob s) (Global.push_batch l (glob s)).1.
Proof.
  intros Hi. destruct (decide (l = [])) as [->|Hne]; [apply glob_mono_refl|].
  destruct (Global.push_batch_spec l (glob s) Hne) as (_ & _ & _ & H1 & H0).
  pose proof (inv_idle _ Hi). destruct (decide (0 < Global.idle_threads_ (glob s))).
  - right. by apply H1.
  - left. split; [apply H0; lia|]. right. lia.
Qed.

Lemma push_batch_keeps l g :
  Global.idle_threads_ (Global.push_batch l g).1 = Global.idle_threads_ g /\
  Global.stop_flag (Global.push_batch l g).1 = Global.stop_flag g /\
  Global.queue_ (Global.push_batch l g).1 = Global.queue_ g ++ l.
Proof.
  destruct (decide (l = [])) as [->|Hne]; [simpl; by rewrite app_nil_r|].
  by destruct (Global.push_batch_spec l g Hne) as (? & ? & ? & _).
Qed.

Lemma glob_mono_notify g : glob_mono g (Global.notify_one_idle g).1.
Proof.
  destruct (Global.notify_one_idle_spec g) as (E & _ & _ & [Ew|Ew]); [left|by right].
  rewrite E. auto.
Qed.

(** [try_pop] by a searching worker. *)
Lemma park_pop s s' w pc pc' task g :
  park_inv s -> workers s !! w = Some pc ->
  Global.try_pop (glob s) = (task, g) ->
  workers s' = <[w := pc']> (workers s) -> glob s' = g ->
  epochs s' = (epochs s + Global.bumps (glob s) g)%nat ->
  ext_notify s' = ext_notify s -> ext_stop s' = ext_stop s -> ext_all s' = ext_all s ->
  running s' = running s -> Z.of_nat (epochs s') < 2 ^ 64 ->
  registered pc' = registered pc ->
  (park_ok g (epochs s') pc -> (task = nullptr -> Global.queue_ g = []) ->
   park_ok g (epochs s') pc') ->
  asleep pc' = false -> at_notify_all pc = false -> at_stop pc = false ->
  park_inv s'.
Proof.
  intros Hi Hw Ep El Eg Ee E1 E2 E3 Er Hb Hr Hok Hsl Hna Hrun.
  destruct (Global.try_pop_spec _ _ _ (inv_queue _ Hi) Ep) as (Eq & Hnull & Eid & Ew & Est).
  assert (Hnil : Global.queue_ (glob s) = [] -> Global.queue_ g = []).
  { intros E. rewrite E in Eq. symmetry in Eq. by apply app_eq_nil in Eq as [_ ?]. }
  eapply (park_submit s s' w pc pc' g); try done.
  - left. auto.
  - pose proof (inv_queue _ Hi) as Hn. rewrite Eq in Hn. by apply Forall_app in Hn as [_ ?].
  - intros. apply Hok; auto.
Qed.

Ltac act_cases H :=
  repeat first
    [ progress simplify_eq/=
    | match type of H with
      | context [match ?x with _ => _ end] => destruct x eqn:?
      | context [?x ≫= _] => destruct x eqn:?
      end ].

Lemma start_pop_fields w ph s s' :
  start_pop w ph s = Some s' ->
  workers s' = <[w := WTry ph TryLocal]> (workers s) /\ glob s' = glob s /\
  epochs s' = epochs s /\ ext_notify s' = ext_notify s /\ ext_stop s' = ext_stop s /\
  ext_all s' = ext_all s /\ running s' = running s.
Proof. unfold start_pop. intros H. act_cases H. done. Qed.

Lemma global_pop_spec s task s1 :
  global_pop s = (task, s1) ->
  exists g, Global.try_pop (glob s) = (task, g) /\
    s1 = log [] (if task =? nullptr then [] else [task]) [] [] (with_glob g s).
Proof.
  unfold global_pop. destruct (Global.try_pop (glob s)) as [x g] eqn:E. intros [= <- <-]. eauto.
Qed.

(** Closes the side conditions of [park_local] and its variants. *)
Ltac park_side :=
  simpl; try done;
  try (by rewrite ?list_insert_id by done);
  try (by left);
  repeat match goal with
  | |- context [registered (mk_notify ?k ?n)] => rewrite (proj1 (mk_notify_spec k n))
  | |- asleep (mk_notify _ _) = false => apply mk_notify_spec
  end; try done;
  try apply (found_registered _ TryTick); try apply found_awake;
  try (match goal with ph : phase |- _ => by destruct ph end).

Lemma park_try_act w o ph t s s' :
  park_inv s -> workers s !! w = Some (WTry ph t) -> try_act w o ph t s = Some s' ->
  Z.of_nat (epochs s') < 2 ^ 64 -> park_inv s'.
Proof.
  intros Hi Hw Ha Hb. destruct t; simpl in Ha.
  - destruct (ticks s !! w) as [tick|]; [|done]. simpl in Ha. destruct (_ =? 0).
    + simplify_eq. eapply (park_local s _ w _ _ Hi Hw); park_side.
    + apply start_pop_fields in Ha as (El & Eg & Ee & E1 & E2 & E3 & E4). simpl in *.
      eapply (park_local s _ w _ _ Hi Hw El); park_side.
  - destruct (global_pop s) as [task s1] eqn:E. apply global_pop_spec in E as (g & Ep & ->).
    destruct (Z.eqb_spec task nullptr) as [->|Hne].
    + apply start_pop_fields in Ha as (El & Eg & Ee & E1 & E2 & E3 & E4). simpl in *.
      eapply (park_pop s _ w _ _ _ _ Hi Hw Ep El); park_side.
    + simplify_eq. eapply (park_pop s _ w _ _ _ _ Hi Hw Ep); park_side.
      intros Hok _. eapply found_ok; [by left|done].
  - act_cases Ha; (eapply (park_local s _ w _ _ Hi Hw); park_side).
    apply found_ok. zbool. by left.
  - destruct (global_pop s) as [task s1] eqn:E. apply global_pop_spec in E as (g & Ep & ->).
    simplify_eq. destruct (Z.eqb_spec task nullptr) as [->|Hne];
      (eapply (park_pop s _ w _ _ _ _ Hi Hw Ep); park_side).
    + intros Hok Hq. destruct ph as [|e]; [done|]. destruct Hok as (Ho & _). split; [done|].
      split; [|done]. intros. by apply Hq.
    + intros Hok _. eapply found_ok; [by left|done].
  - simplify_eq. eapply (park_local s _ w _ _ Hi Hw); park_side.
  - destruct i as [|i]; [|destruct (target_id =? Z.of_nat w)]; act_cases Ha;
      (eapply (park_local s _ w _ _ Hi Hw); park_side).
  - act_cases Ha; (eapply (park_local s _ w _ _ Hi Hw); park_side).
  - act_cases Ha; (eapply (park_local s _ w _ _ Hi Hw); park_side).
  - act_cases Ha. destruct b; (eapply (park_local s _ w _ _ Hi Hw); park_side).
    apply found_ok. right. by destruct ph.
  - destruct (Global.notify_one_idle (glob s)) as [g k] eqn:E.
    pose proof (Global.notify_one_idle_spec (glob s)) as (Eq & Eid & Est & _).
    pose proof (glob_mono_notify (glob s)) as Hm. rewrite E in *. simpl in *. simplify_eq.
    eapply (park_submit s _ w _ _ g Hi Hw); park_side.
    + rewrite Eq. apply Hi.
    + intros Hok. apply mk_notify_ok; [|apply found_awake].
      eapply found_ok; [|exact Hok]. right. by destruct ph.
Qed.

Lemma ws_act_push_nonnull k h d d' : ws_act k (CallPush h) d = Some d' -> h <> nullptr.
Proof. destruct d as [q [] th pu ta]; simpl; try done. by destruct (Z.eqb_spec h nullptr). Qed.

Lemma park_task_act w a s s' :
  park_inv s -> workers s !! w = Some WTask -> task_act w a s = Some s' ->
  Z.of_nat (epochs s') < 2 ^ 64 -> park_inv s'.
Proof.
  intros Hi Hw Ha Hb. destruct a as [|h|l|]; simpl in Ha.
  - simplify_eq. eapply (park_local s _ w _ _ Hi Hw); park_side.
  - act_cases Ha. eapply (park_local s _ w _ _ Hi Hw); park_side.
    intros _. split; [done|]. split; [done|]. by eapply ws_act_push_nonnull.
  - destruct (decide _) as [Hl|]; [|done].
    pose proof (push_batch_keeps l (glob s)) as (Eid & Est & Eq).
    pose proof (glob_mono_batch s l Hi) as Hm.
    destruct (Global.push_batch l (glob s)) as [g k]. simpl in *. simplify_eq.
    eapply (park_submit s _ w _ _ g Hi Hw); park_side.
    + rewrite Eq. apply Forall_app. split; [apply Hi|done].
    + intros _. by apply mk_notify_ok.
  - simplify_eq. eapply (park_local s _ w _ _ Hi Hw); park_side. by right.
Qed.

(** Notifications do not move a worker that is awake. *)
Lemma notify_one_keeps v l l' w pc :
  notify_one v l = Some l' -> l !! w = Some pc -> asleep pc = false -> l' !! w = Some pc.
Proof.
  intros El Hw Ha. apply notify_one_spec in El as [[-> _]|(e & Hv & ->)]; [done|].
  rewrite list_lookup_insert_ne; [done|]. intros ->. rewrite Hw in Hv. by simplify_eq.
Qed.

Lemma notify_all_keeps l w pc :
  l !! w = Some pc -> asleep pc = false -> notify_all l !! w = Some pc.
Proof. intros Hw Ha. unfold notify_all. rewrite list_lookup_fmap, Hw. by destruct pc. Qed.

Lemma idle_positive s w pc :
  park_inv s -> workers s !! w = Some pc -> registered pc = 1%nat ->
  Z.of_nat (length (workers s)) < 2 ^ 32 ->
  Global.idle_threads_ (glob s) = Z.of_nat (registrations (workers s)) /\
  0 < Global.idle_threads_ (glob s) < 2 ^ 32.
Proof.
  intros Hi Hw Hr Hn. rewrite (inv_idle _ Hi). split; [done|].
  pose proof (registrations_lookup _ _ _ Hw). pose proof (registrations_length (workers s)). lia.
Qed.

(** The steps of a worker that are more than a local move. *)
Lemma park_at_park w e o s s' :
  park_inv s -> Z.of_nat (length (workers s)) < 2 ^ 32 -> workers s !! w = Some (WPark e) ->
  worker_act w o s = Some s' ->
  Z.of_nat (epochs s') < 2 ^ 64 -> park_inv s'.
Proof.
  intros Hi Hn Hw Ha Hb. unfold worker_act in Ha. rewrite Hw in Ha. simpl in Ha.
  unfold Global.park in Ha. destruct (Global.park_ready e (glob s)) eqn:Ep; simplify_eq.
  - destruct (idle_positive s w _ Hi Hw eq_refl Hn) as [_ ?].
    eapply (park_worker s _ w _ _ Hi Hw); simpl; try done; try (by left; auto).
    + simpl. rewrite sub64_small; lia.
    + apply Hi.
  - unfold Global.park_ready in Ep. apply orb_false_iff in Ep as [Est Ew].
    apply negb_false_iff in Ew. zbool.
    eapply (park_worker s _ w _ _ Hi Hw); simpl; try done; try (by left; auto).
    + rewrite bumps_same by done. lia.
    + apply Hi.
    + intros _. split; [|done]. destruct (Forall_lookup_1 _ _ _ _ (inv_park _ Hi) Hw) as (_ & Hp & _).
      by apply (Hp e).
Qed.

Lemma park_at_notify w n next o s s' :
  park_inv s -> workers s !! w = Some (WNotify n next) -> worker_act w o s = Some s' ->
  Z.of_nat (epochs s') < 2 ^ 64 -> park_inv s'.
Proof.
  intros Hi Hw Ha Hb. unfold worker_act in Ha. rewrite Hw in Ha. simpl in Ha.
  pose proof (Forall_lookup_1 _ _ _ _ (inv_park _ Hi) Hw) as (_ & _ & Hnx & _).
  assert (Hnext : forall g ep, park_ok g ep (WNotify n next) -> park_ok g ep next).
  { by intros g ep (? & ? & ? & ?). }
  destruct n as [|n]; [simplify_eq; eapply (park_local s _ w _ _ Hi Hw); park_side; auto|].
  destruct (notify_one (o_wake o) (workers s)) as [l|] eqn:El; simplify_eq/=.
  assert (Hlen : (0 < length (workers s))%nat) by (apply lookup_lt_Some in Hw; lia).
  pose proof (park_notify s _ l (ext_notify s) Hi Hlen El) as Hi'.
  pose proof (notify_one_keeps _ _ _ _ _ El Hw eq_refl) as Hw'.
  eapply (park_local _ _ w _ _ Hi' Hw'); park_side.
  intros Hok. apply mk_notify_ok; auto.
Qed.

Lemma park_at_stop w o s s' :
  park_inv s -> workers s !! w = Some WStop \/ workers s !! w = Some WNotifyAll ->
  worker_act w o s = Some s' ->
  Z.of_nat (epochs s') < 2 ^ 64 -> park_inv s'.
Proof.
  intros Hi [Hw|Hw] Ha Hb; unfold worker_act in Ha; rewrite Hw in Ha; simpl in Ha.
  - unfold Global.stop in Ha. destruct (Global.stop_flag (glob s)) eqn:Est; simplify_eq.
    + eapply (park_worker s _ w _ _ Hi Hw); simpl; try done; try (by left; auto). apply Hi.
    + eapply (park_worker s _ w _ _ Hi Hw); simpl; try done; try (by left; auto).
      * by right.
      * apply Hi.
      * by right.
  - simplify_eq.
    assert (Hlen : (0 < length (workers s))%nat) by (apply lookup_lt_Some in Hw; lia).
    pose proof (park_notify_all s (ext_all s) Hi Hlen) as Hi'.
    eapply (park_local _ _ w _ _ Hi' (notify_all_keeps _ _ _ Hw eq_refl)); park_side.
    intros _. apply wake_awake.
Qed.

Lemma park_worker_act w o s s' :
  park_inv s -> Z.of_nat (length (workers s)) < 2 ^ 32 -> worker_act w o s = Some s' ->
  Z.of_nat (epochs s') < 2 ^ 64 -> park_inv s'.
Proof.
  intros Hi Hn Ha Hb. pose proof Ha as Hact. unfold worker_act in Ha.
  destruct (workers s !! w) as [pc|] eqn:Hw; [|done]. simpl in Ha.
  destruct pc as [|ph t| |e|e|task|task| |h| |tp| |h|n next| | |].
  - simplify_eq. destruct (running s) eqn:Er; (eapply (park_local s _ w _ _ Hi Hw); park_side).
  - by eapply park_try_act.
  - simplify_eq. pose proof (registrations_length (workers s)). pose proof (inv_idle _ Hi).
    eapply (park_worker s _ w _ _ Hi Hw); simpl; try done; try (by left; auto).
    + simpl. rewrite add64_small; lia.
    + intros _ E. split; [|done]. intros e [= <-]. rewrite E. lia.
    + apply Hi.
  - by eapply park_at_park.
  - simplify_eq. eapply (park_local s _ w _ _ Hi Hw); park_side.
  - simplify_eq. destruct (idle_positive s w _ Hi Hw eq_refl Hn) as [_ ?].
    eapply (park_worker s _ w _ _ Hi Hw); simpl; try done; try (by left; auto).
    + simpl. rewrite sub64_small; lia.
    + apply Hi.
  - simplify_eq. destruct (o_done o); (eapply (park_local s _ w _ _ Hi Hw); park_side).
  - by eapply park_task_act.
  - act_cases Ha; (eapply (park_local s _ w _ _ Hi Hw); park_side).
  - act_cases Ha. eapply (park_local s _ w _ _ Hi Hw); park_side.
  - act_cases Ha. destruct b; (eapply (park_local s _ w _ _ Hi Hw); park_side).
  - pose proof (Global.notify_one_idle_spec (glob s)) as (Eq & Eid & Est & _).
    pose proof (glob_mono_notify (glob s)) as Hm.
    destruct (Global.notify_one_idle (glob s)) as [g k]. simpl in *. simplify_eq.
    eapply (park_submit s _ w _ _ g Hi Hw); park_side.
    + rewrite Eq. apply Hi.
    + intros _. by apply mk_notify_ok.
  - pose proof (Global.push_spec h (glob s)) as (Eq & Eid & Est & _).
    pose proof (glob_mono_pushed s h Hi) as Hm. pose proof (Forall_lookup_1 _ _ _ _ (inv_park _ Hi) Hw) as (_ & _ & Hp).
    destruct (Global.push h (glob s)) as [g k]. simpl in *. simplify_eq.
    eapply (park_submit s _ w _ _ g Hi Hw); park_side.
    + rewrite Eq. apply Forall_app. split; [apply Hi|]. by apply Forall_singleton.
    + intros _. by apply mk_notify_ok.
  - by eapply park_at_notify.
  - eapply park_at_stop; eauto.
  - eapply park_at_stop; eauto.
  - done.
Qed.

(** An external submission. *)
Lemma park_ext_submit s g k gp su :
  park_inv s -> (0 < length (workers s))%nat ->
  Z.of_nat (epochs s + Global.bumps (glob s) g) < 2 ^ 64 ->
  glob_mono (glob s) g ->
  Global.idle_threads_ g = Global.idle_threads_ (glob s) ->
  Global.stop_flag g = Global.stop_flag (glob s) ->
  Forall (fun h => h <> nullptr) (Global.queue_ g) ->
  (0 < Global.idle_threads_ (glob s) -> Global.queue_ g = Global.queue_ (glob s) \/ (0 < k)%nat) ->
  park_inv (log gp [] su []
    (with_ext (ext_notify s + k) (ext_stop s) (ext_all s) (with_glob g s))).
Proof.
  intros Hi Hn Hb Hm Eid Est Hnn Hk. destruct (park_ok_mono s g Hi Hb Hm) as [Hw Hoth].
  pose proof Hi as []. split; simpl; try done.
  - by rewrite Eid.
  - intros Hall He. destruct Hk as [->|]; [|apply inv_awake0; [done|lia]|lia].
    destruct (workers s) as [|pc l]; [simpl in Hn; lia|]. rewrite inv_idle0.
    pose proof (registrations_lookup (pc :: l) 0 pc eq_refl). inversion Hall; subst.
    destruct pc; try done; simpl in *; lia.
  - by rewrite Est.
  - by rewrite Est.
Qed.

Lemma park_sched_act c s s' :
  park_inv s -> (0 < length (workers s))%nat -> Z.of_nat (length (workers s)) < 2 ^ 32 ->
  sched_act c s = Some s' -> Z.of_nat (epochs s') < 2 ^ 64 -> park_inv s'.
Proof.
  intros Hi Hn Hn' Ha Hb. destruct c as [w o|h|l|v| | |]; simpl in Ha.
  - by eapply park_worker_act.
  - pose proof (Global.push_spec h (glob s)) as (Eq & Eid & Est & Hk & _).
    pose proof (glob_mono_pushed s h Hi) as Hm.
    destruct (Z.eqb_spec h nullptr), (Global.push h (glob s)) as [g k]; simplify_eq/=.
    apply park_ext_submit; try done.
    + rewrite Eq. apply Forall_app. split; [apply Hi|by apply Forall_singleton].
    + intros H0. right. destruct (Hk H0) as [_ ->]. lia.
  - destruct (decide _) as [Hl|]; [|done].
    pose proof (push_batch_keeps l (glob s)) as (Eid & Est & Eq).
    pose proof (glob_mono_batch s l Hi) as Hm.
    assert (Hk : 0 < Global.idle_threads_ (glob s) ->
      l = [] \/ (0 < (Global.push_batch l (glob s)).2)%nat).
    { intros H0. destruct (decide (l = [])) as [->|Hne]; [by left|right].
      by apply (Global.push_batch_spec l (glob s) Hne). }
    destruct (Global.push_batch l (glob s)) as [g k]. simplify_eq/=.
    apply park_ext_submit; try done.
    + rewrite Eq. apply Forall_app. split; [apply Hi|done].
    + intros H0. destruct (Hk H0) as [->|]; [left|by right]. by rewrite Eq, app_nil_r.
  - destruct (ext_notify s) as [|k] eqn:Ee; [done|].
    destruct (notify_one v (workers s)) as [l|] eqn:El; simplify_eq/=.
    by eapply park_notify.
  - simplify_eq. destruct Hi as []. split; simpl; try done. intros _. right. left. lia.
  - destruct (ext_stop s) as [|k] eqn:Ee; [done|]. unfold Global.stop in Ha.
    destruct (Global.stop_flag (glob s)) eqn:Est; simplify_eq/=.
    + pose proof Hi as []. rewrite bumps_same in Hb by done.
      split; simpl; rewrite ?bumps_same, ?Nat.add_0_r by done; try done. intros _. by left.
    + destruct (park_ok_mono s _ Hi Hb (or_intror eq_refl)) as [Hw Hoth].
      pose proof Hi as []. split; simpl; try done; [|by left]. intros. left. lia.
  - destruct (ext_all s) as [|k] eqn:Ee; simplify_eq. by apply park_notify_all.
Qed.
