(* ===== verification/SchedulerTasks.v ===== *)
(** * The tasks of the scheduler

    The deques inside the interleaved system, the whereabouts of every task,
    and the theorems about the scheduler as a whole. *)

From Stdlib Require Import ZArith Lia.
From stdpp Require Import base list relations gmap.
From S2P Require Import Prelude WorkStealing WorkStealingConc GlobalQueue Scheduler SchedulerConc SchedulerPark.

Local Open Scope Z_scope.

(** ** The deques inside the system *)

(** Inside [pop]; inside [push] of [h]. *)
Definition in_pop (ow : owner_pc) : bool :=
  match ow with
  | PopLoadBottom | PopStoreBottom _ | PopLoadTop _ | PopLoadSlot _ _
  | PopCas _ _ _ | PopRestore _ _ => true
  | _ => false
  end.

Definition in_push (ow : owner_pc) : option Z :=
  match ow with
  | PushLoadBottom h | PushLoadTop h _ | PushStoreSlot h _ | PushStoreBottom h _ => Some h
  | _ => None
  end.

(** The owner's point in its deque, given the worker's point. *)
Definition owner_at (pc : worker_pc) (ow : owner_pc) : Prop :=
  match pc with
  | WTry _ TryLocal => in_pop ow = true
  | WEnqPush h => in_push ow = Some h
  | _ => ow = OIdle
  end.

(** The worker has found its own deque empty and pushed nothing since. *)
Fixpoint drained (pc : worker_pc) : bool :=
  match pc with
  | WTry _ t => match t with TryTick | TryPoll | TryLocal => false | _ => true end
  | WPark _ | WAsleep _ => true
  | WNotify _ next => drained next
  | _ => false
  end.

(** The deque a worker is stealing from. *)
Definition stealing (pc : worker_pc) : option Z :=
  match pc with WTry _ (TryStealing _ v) => Some v | _ => None end.

(** The task a worker holds; the task it is submitting. *)
Fixpoint in_hand (pc : worker_pc) : list Z :=
  match pc with
  | WTry _ (TrySizeTop _ task) | WTry _ (TrySizeBottom _ task _)
  | WTry _ (TryNotifyIdle task) | WCancel task | WResume task => [task]
  | WNotify _ next => in_hand next
  | _ => []
  end.

Fixpoint pending (pc : worker_pc) : list Z :=
  match pc with
  | WEnqPush h | WEnqGlobal h => [h]
  | WNotify _ next => pending next
  | _ => []
  end.

(** The locals of a worker are in range. *)
Fixpoint args_ok (n : nat) (pc : worker_pc) : Prop :=
  match pc with
  | WTry _ (TrySteal _ v) | WTry _ (TryStealing _ v) | WTry _ (TrySizeTop v _) =>
      0 <= v < Z.of_nat n
  | WTry _ (TrySizeBottom v _ tp) => 0 <= v < Z.of_nat n /\ 0 <= tp < 2 ^ 63
  | WEnqSizeBottom tp => 0 <= tp < 2 ^ 63
  | WNotify _ next =>
      stealing next = None /\ (forall ow, owner_at next ow <-> ow = OIdle) /\ args_ok n next
  | _ => True
  end.

Record worker_ok (n : nat) (pc : worker_pc) (d : ws_state) : Prop := {
  ok_owner : owner_at pc (owner d);
  ok_drained : drained pc = true -> top_ (shared d) = bottom_ (shared d);
  ok_args : args_ok n pc;
  ok_hand : Forall (fun h => h <> nullptr) (in_hand pc)
}.

Record deq_inv (s : sched_state) : Prop := {
  dq_len : length (deques s) = length (workers s);
  dq_ticks : length (ticks s) = length (workers s);
  dq_worker : forall w pc d, workers s !! w = Some pc -> deques s !! w = Some d ->
                worker_ok (length (workers s)) pc d;
  dq_thief : forall v d t, deques s !! v = Some d ->
               is_Some (thieves d !! t) <->
               exists pc, workers s !! t = Some pc /\ stealing pc = Some (Z.of_nat v)
}.

(** What [ws_act] changes. *)
Lemma ws_act_call_pop d d' :
  ws_act worker_bits CallPop d = Some d' ->
  owner d = OIdle /\ owner d' = PopLoadBottom /\ shared d' = shared d /\
  thieves d' = thieves d /\ pushed d' = pushed d /\ taken d' = taken d.
Proof. destruct d as [q [] th pu ta]; simpl; intros; simplify_eq. done. Qed.

Lemma ws_act_call_push h d d' :
  ws_act worker_bits (CallPush h) d = Some d' ->
  owner d = OIdle /\ in_push (owner d') = Some h /\ shared d' = shared d /\
  thieves d' = thieves d /\ pushed d' = pushed d /\ taken d' = taken d.
Proof.
  destruct d as [q [] th pu ta]; simpl; intros H; try done.
  destruct (h =? nullptr); simplify_eq. done.
Qed.

Lemma ws_act_call_steal t d d' :
  ws_act worker_bits (CallSteal t) d = Some d' ->
  owner d' = owner d /\ shared d' = shared d /\
  thieves d' = <[t := TLoadTop]> (thieves d) /\ pushed d' = pushed d /\ taken d' = taken d.
Proof.
  destruct d as [q ow th pu ta]; simpl; intros H; try done.
  destruct (th !! t); simplify_eq. done.
Qed.

Lemma ws_act_owner d d' out :
  ws_act worker_bits OwnerGo d = Some d' -> owner_outcome d = Some out ->
  owner_step worker_bits (shared d) (owner d) = Some (shared d', owner d', out) /\
  thieves d' = thieves d /\ pushed d' = pushed d ++ record_pushed (owner d) out /\
  taken d' = taken d ++ record_taken out.
Proof.
  unfold owner_outcome. destruct d as [q ow th pu ta]; simpl.
  destruct (owner_step worker_bits q ow) as [[[q' ow'] o]|]; simpl; [|done].
  intros ? ?. simplify_eq/=. done.
Qed.

Lemma ws_act_thief t d d' out :
  ws_act worker_bits (ThiefGo t) d = Some d' -> thief_outcome t d = Some out ->
  exists pc pc', thieves d !! t = Some pc /\
    thief_step worker_bits (shared d) pc = Some (shared d', pc', out) /\
    owner d' = owner d /\ thieves d' = update_thief (thieves d) t pc' /\
    pushed d' = pushed d /\ taken d' = taken d ++ record_taken out.
Proof.
  unfold thief_outcome. destruct d as [q ow th pu ta]; simpl.
  destruct (th !! t) as [pc|]; simpl; [|done].
  destruct (thief_step worker_bits q pc) as [[[q' pc'] o]|] eqn:E; simpl; [|done].
  intros ? ?. simplify_eq/=. exists pc, pc'. done.
Qed.

(** The owner inside a call stays inside it until the call returns. *)
Lemma owner_step_call q ow q' ow' out :
  owner_step worker_bits q ow = Some (q', ow', out) ->
  match out with
  | Running => in_pop ow' = in_pop ow /\ in_push ow' = in_push ow
  | Pushed ok => ow' = OIdle /\ exists h, in_push ow = Some h /\
                   record_pushed ow out = if (ok : bool) then [h] else []
  | Popped st ptr => ow' = OIdle /\ in_pop ow = true /\ st = pop_result ptr
  end.
Proof.
  destruct ow; simpl; intros H; act_cases H; try done; eauto.
Qed.

Lemma thief_step_call q pc q' pc' out :
  thief_step worker_bits q pc = Some (q', pc', out) ->
  bottom_ q' = bottom_ q /\
  (out = Running <-> is_Some pc') /\ (forall b, out <> Pushed b).
Proof.
  destruct pc; simpl; intros H; act_cases H; (split; [done|]);
    (split; [|done]); split; try done; eauto; by intros [? ?].
Qed.

(** A step of worker [w] that changes deque [v]. *)
Lemma deq_update s s' w pc pc' v d d' :
  deq_inv s -> workers s !! w = Some pc -> deques s !! v = Some d ->
  workers s' = <[w := pc']> (workers s) -> deques s' = <[v := d']> (deques s) ->
  length (ticks s') = length (ticks s) ->
  (v = w -> worker_ok (length (workers s)) pc' d') ->
  (v <> w ->
     (forall pcv, workers s !! v = Some pcv -> worker_ok (length (workers s)) pcv d ->
        worker_ok (length (workers s)) pcv d') /\
     (forall dw, deques s !! w = Some dw -> worker_ok (length (workers s)) pc dw ->
        worker_ok (length (workers s)) pc' dw)) ->
  (forall t, t <> w -> thieves d' !! t = thieves d !! t) ->
  (is_Some (thieves d' !! w) <-> stealing pc' = Some (Z.of_nat v)) ->
  (forall u, u <> v -> stealing pc = Some (Z.of_nat u) <-> stealing pc' = Some (Z.of_nat u)) ->
  deq_inv s'.
Proof.
  intros [Hl Htk Hwk Hth] Hw Hd Ew Ed Et Hown Hoth Ht1 Ht2 Ht3.
  assert (Hwl : (w < length (workers s))%nat) by by eapply lookup_lt_Some.
  assert (Hvl : (v < length (deques s))%nat) by by eapply lookup_lt_Some.
  split; rewrite ?Ew, ?Ed, ?Et, ?length_insert; try done.
  - intros u pcu du Hu Hdu.
    apply list_lookup_insert_Some in Hu as [(<- & <- & _)|[Hne Hu]];
      apply list_lookup_insert_Some in Hdu as [(<- & <- & _)|[Hne' Hdu]].
    + by apply Hown.
    + apply Hoth; [done|done|]. by eapply Hwk.
    + apply Hoth; [done|done|]. by eapply Hwk.
    + by eapply Hwk.
  - intros u du t Hdu.
    apply list_lookup_insert_Some in Hdu as [(<- & <- & _)|[Hne' Hdu]];
      (destruct (decide (t = w)) as [->|Hne]; [rewrite list_lookup_insert_eq by done|
        rewrite list_lookup_insert_ne by done]).
    + rewrite Ht2. split; [eauto|]. intros (? & [= <-] & ?). done.
    + rewrite Ht1 by done. by apply Hth.
    + rewrite (Hth _ _ _ Hdu). split; intros (p & Hp & Hs).
      * rewrite Hw in Hp. simplify_eq. exists pc'. split; [done|]. by apply Ht3.
      * simplify_eq. exists pc. split; [done|]. by apply Ht3.
    + by apply Hth.
Qed.

(** A step of [w] that touches at most its own deque, and not as a thief. *)
Lemma deq_own s s' w pc pc' d d' :
  deq_inv s -> workers s !! w = Some pc -> deques s !! w = Some d ->
  workers s' = <[w := pc']> (workers s) -> deques s' = <[w := d']> (deques s) ->
  length (ticks s') = length (ticks s) ->
  thieves d' = thieves d -> stealing pc = None -> stealing pc' = None ->
  worker_ok (length (workers s)) pc' d' ->
  deq_inv s'.
Proof.
  intros Hi Hw Hd Ew Ed Et Eth Hs Hs' Hok.
  eapply (deq_update s s' w pc pc' w d d'); try done.
  - by rewrite Eth.
  - rewrite Eth, (dq_thief _ Hi _ _ _ Hd). rewrite Hs'. split; [|done].
    intros (p & Hp & E). congruence.
  - intros. by rewrite Hs, Hs'.
Qed.

Lemma deq_lookup s w pc :
  deq_inv s -> workers s !! w = Some pc -> exists d, deques s !! w = Some d.
Proof.
  intros Hi Hw. apply lookup_lt_is_Some_2. rewrite (dq_len _ Hi). by eapply lookup_lt_Some.
Qed.

Lemma deq_local s s' w pc pc' :
  deq_inv s -> workers s !! w = Some pc ->
  workers s' = <[w := pc']> (workers s) -> deques s' = deques s ->
  length (ticks s') = length (ticks s) ->
  stealing pc = None -> stealing pc' = None ->
  (forall d, deques s !! w = Some d -> worker_ok (length (workers s)) pc d ->
     worker_ok (length (workers s)) pc' d) ->
  deq_inv s'.
Proof.
  intros Hi Hw Ew Ed Et Hs Hs' Hok. destruct (deq_lookup _ _ _ Hi Hw) as [d Hd].
  eapply (deq_own s s' w pc pc' d d); try done.
  - by rewrite list_insert_id.
  - apply Hok; [done|]. by eapply (dq_worker _ Hi).
Qed.

(** Waking changes no other part of a worker's assertion. *)
Lemma deq_wake s s' :
  deq_inv s -> deques s' = deques s -> ticks s' = ticks s ->
  length (workers s') = length (workers s) ->
  (forall w pc', workers s' !! w = Some pc' ->
     exists pc, workers s !! w = Some pc /\ (pc' = pc \/ pc' = wake pc)) ->
  deq_inv s'.
Proof.
  intros [Hl Htk Hwk Hth] Ed Et Eln Hw. split; rewrite ?Ed, ?Et, ?Eln; try done.
  - intros w pc' d Hpc Hd. destruct (Hw _ _ Hpc) as (pc & Hpc0 & [->| ->]); [by eapply Hwk|].
    destruct (Hwk _ _ _ Hpc0 Hd). by destruct pc.
  - intros v d t Hd. rewrite (Hth _ _ _ Hd). split; intros (pc & Hpc & Hs).
    + destruct (lookup_lt_is_Some_2 (workers s') t) as [pc' Hpc'].
      { rewrite Eln. by eapply lookup_lt_Some. }
      exists pc'. split; [done|]. destruct (Hw _ _ Hpc') as (pc0 & E & [->| ->]);
        rewrite E in Hpc; simplify_eq; [done|]. by destruct pc.
    + destruct (Hw _ _ Hpc) as (pc0 & E & [->| ->]); exists pc0; (split; [done|]); [done|].
      by destruct pc0.
Qed.

Lemma notify_one_wakes v l l' :
  notify_one v l = Some l' ->
  length l' = length l /\
  forall w pc', l' !! w = Some pc' -> exists pc, l !! w = Some pc /\ (pc' = pc \/ pc' = wake pc).
Proof.
  intros [[-> _]|(e & Hv & ->)]%notify_one_spec; [by eauto|]. rewrite length_insert.
  split; [done|]. intros w pc' [(<- & <- & _)|[_ Hw]]%list_lookup_insert_Some; eauto.
Qed.

Lemma notify_all_wakes l w pc' :
  notify_all l !! w = Some pc' -> exists pc, l !! w = Some pc /\ (pc' = pc \/ pc' = wake pc).
Proof.
  unfold notify_all. rewrite list_lookup_fmap. intros H.
  destruct (l !! w); simplify_eq/=; eauto.
Qed.

(** All deques satisfy the invariant of WorkStealingConc. *)
Definition deques_ok (s : sched_state) : Prop :=
  Forall (fun d => ws_inv worker_bits d /\ Z.of_nat (length (pushed d)) < 2 ^ 63) (deques s).

Lemma found_worker_ok n ph task d :
  owner d = OIdle -> task <> nullptr -> worker_ok n (found ph task) d.
Proof.
  intros Ho Ht. unfold found. destruct (Z.eqb_spec task nullptr); [done|].
  split; destruct ph; simpl; try done; by apply Forall_singleton.
Qed.

Lemma mk_notify_worker_ok n k next d :
  worker_ok n next d -> stealing next = None ->
  (forall ow, owner_at next ow <-> ow = OIdle) -> worker_ok n (mk_notify k next) d.
Proof.
  intros [Ho Hd Ha Hh] Hs Hiff. destruct k; simpl; [done|]. split; simpl; try done.
  by apply Hiff.
Qed.

Lemma notify_worker_ok n k next d : worker_ok n (WNotify k next) d -> worker_ok n next d.
Proof. intros [Ho Hd (Hs & Hiff & Ha) Hh]. split; try done. by apply Hiff. Qed.

Lemma mk_notify_stealing k next : stealing next = None -> stealing (mk_notify k next) = None.
Proof. by destruct k. Qed.

Lemma found_stealing ph task : stealing (found ph task) = None.
Proof. unfold found. destruct (task =? nullptr), ph; done. Qed.

Lemma found_owner_at ph task ow : owner_at (found ph task) ow <-> ow = OIdle.
Proof. unfold found. destruct (task =? nullptr), ph; done. Qed.

Lemma drained_idle pc ow : drained pc = true -> owner_at pc ow -> ow = OIdle.
Proof. destruct pc as [|ph t| | | | | | | | | | | | | | |]; simpl; try done. by destruct t. Qed.

(** A thief takes nothing from an empty deque. *)
Lemma thief_keeps n t pcv d d' out :
  ws_inv worker_bits d -> ws_act worker_bits (ThiefGo t) d = Some d' ->
  thief_outcome t d = Some out -> worker_ok n pcv d -> worker_ok n pcv d'.
Proof.
  intros Hi Ha Ho [H1 H2 H3 H4].
  destruct (ws_act_thief _ _ _ _ Ha Ho) as (pc & pc' & Hpc & Hs & Eo & _).
  split; try done; [by rewrite Eo|]. intros Hd. specialize (H2 Hd).
  pose proof (drained_idle _ _ Hd H1) as Hidle.
  pose proof (inv_thieves _ _ Hi _ _ Hpc) as Hok. rewrite Hidle in Hok. simpl in Hok.
  destruct pc as [|tp|tp|tp ptr]; simpl in Hs; act_cases Hs; try congruence.
  zbool. subst. simpl in Hok. lia.
Qed.

Lemma deq_start_pop w ph s s' pc :
  deq_inv s -> workers s !! w = Some pc -> stealing pc = None ->
  start_pop w ph s = Some s' -> deq_inv s'.
Proof.
  unfold start_pop. intros Hi Hw Hs Ha.
  destruct (deques s !! w) as [d|] eqn:Hd; simplify_eq/=.
  destruct (ws_act worker_bits CallPop d) as [d'|] eqn:E; simplify_eq/=.
  destruct (ws_act_call_pop _ _ E) as (Eo & Eo' & _ & Eth & _).
  eapply (deq_own s _ w pc _ d d' Hi Hw Hd); try done.
  split; simpl; try done. by rewrite Eo'.
Qed.

(** [start_pop] after an update that leaves workers and deques alone. *)
Lemma deq_inv_same s s' :
  deq_inv s -> workers s' = workers s -> deques s' = deques s ->
  length (ticks s') = length (ticks s) -> deq_inv s'.
Proof. intros [] Ew Ed Et. split; rewrite ?Ew, ?Ed, ?Et; done. Qed.

Lemma next_target_range n t : 0 < n -> 0 <= next_target n t < n.
Proof. intros. by apply Z.mod_pos_bound. Qed.

Ltac deq_side :=
  simpl; try done; rewrite ?length_insert; try done;
  try apply found_stealing; try (apply mk_notify_stealing; try done; apply found_stealing).

Lemma deq_local_search w ph t pc' s s' :
  deq_inv s -> workers s !! w = Some (WTry ph t) ->
  stealing (WTry ph t) = None -> t <> TryLocal ->
  workers s' = <[w := pc']> (workers s) -> deques s' = deques s ->
  length (ticks s') = length (ticks s) -> stealing pc' = None ->
  (forall d, deques s !! w = Some d -> owner d = OIdle ->
     worker_ok (length (workers s)) (WTry ph t) d ->
     worker_ok (length (workers s)) pc' d) ->
  deq_inv s'.
Proof.
  intros Hi Hw Hs Ht Ew Ed Et Hs' Hok.
  eapply (deq_local s s' w _ pc' Hi Hw); try done.
  intros d Hd H. apply Hok; [done| |done]. destruct H as [Ho _ _ _]. simpl in Ho. by destruct t.
Qed.

Lemma deq_owner_popped s s' w ph d d' st task :
  deq_inv s -> deques_ok s -> workers s !! w = Some (WTry ph TryLocal) ->
  deques s !! w = Some d -> ws_act worker_bits OwnerGo d = Some d' ->
  owner_outcome d = Some (Popped st task) ->
  s' = with_pc w (if task =? nullptr then WTry ph TryGlobal else found ph task) (with_deque w d' s) ->
  deq_inv s'.
Proof.
  intros Hi Hds Hw Hd Ha Ho ->.
  destruct (ws_act_owner _ _ _ Ha Ho) as (Hs & Eth & _).
  destruct (owner_step_call _ _ _ _ _ Hs) as (Eo & _ & Est).
  destruct (Forall_lookup_1 _ _ _ _ Hds Hd) as [Hinv Hb].
  destruct (Z.eqb_spec task nullptr) as [->|Hne];
    eapply (deq_own s _ w _ _ d d' Hi Hw Hd); deq_side.
  - subst st. destruct (inv_pop_empty _ _ _ _ _ Hinv Hb Hs) as (_ & _ & _ & _ & E & _).
    by split; simpl.
  - by apply found_worker_ok.
Qed.

Lemma deq_stealing s w ph i v d d' out pc' :
  deq_inv s -> deques_ok s -> deques_ok (with_pc w pc' (with_deque (Z.to_nat v) d' s)) ->
  workers s !! w = Some (WTry ph (TryStealing i v)) ->
  deques s !! Z.to_nat v = Some d -> ws_act worker_bits (ThiefGo w) d = Some d' ->
  thief_outcome w d = Some out ->
  match out with
  | Running => pc' = WTry ph (TryStealing i v)
  | Popped kSuccess task => pc' = WTry ph (TrySizeTop v task)
  | _ => pc' = WTry ph (TrySteal i (next_target (Z.of_nat (length (workers s))) v))
  end ->
  deq_inv (with_pc w pc' (with_deque (Z.to_nat v) d' s)).
Proof.
  intros Hi Hds Hds' Hw Hd Ha Ho Hpc'.
  destruct (Forall_lookup_1 _ _ _ _ Hds Hd) as [Hinv _].
  destruct (ws_act_thief _ _ _ _ Ha Ho) as (pc & pcn & Hpc & Hs & Eo & Eth & Epu & Eta).
  destruct (thief_step_call _ _ _ _ _ Hs) as (_ & Hrun & Hnp).
  destruct (deq_lookup _ _ _ Hi Hw) as [dw Hdw].
  pose proof (dq_worker _ Hi _ _ _ Hw Hdw) as Hok. pose proof (ok_args _ _ _ Hok) as Hv. simpl in Hv.
  assert (Hlen : (w < length (workers s))%nat) by by eapply lookup_lt_Some.
  assert (Hnext : forall d0, worker_ok (length (workers s)) (WTry ph (TryStealing i v)) d0 ->
                  worker_ok (length (workers s)) pc' d0).
  { intros d0 [H1 H2 H3 H4]. destruct out as [|b|st task]; [by subst|by destruct (Hnp b)|].
    destruct st; subst pc'; split; simpl in *; try done.
    - apply next_target_range. lia.
    - apply Forall_singleton. apply Forall_lookup_1 with (i := Z.to_nat v) (x := d') in Hds' as [Hd' _].
      + pose proof (inv_nonnull _ _ Hd') as Hnn. rewrite (inv_perm _ _ Hd') in Hnn.
        apply Forall_app in Hnn as [Hnn _]. rewrite Eta in Hnn.
        apply Forall_app in Hnn as [_ Hnn]. by inversion Hnn.
      + simpl. apply list_lookup_insert_eq. by eapply lookup_lt_Some.
    - apply next_target_range. lia. }
  eapply (deq_update s _ w _ pc' (Z.to_nat v) d d' Hi Hw Hd); try done.
  - intros <-. apply Hnext. eapply thief_keeps; [done..|]. by eapply (dq_worker _ Hi).
  - intros Hne. split.
    + intros pcv Hpcv. by eapply thief_keeps.
    + intros d0 _. apply Hnext.
  - intros t Hne. rewrite Eth. destruct pcn; simpl.
    + by rewrite lookup_insert_ne.
    + by rewrite lookup_delete_ne.
  - rewrite Eth, Z2Nat.id by lia. destruct pcn as [pcn|]; simpl.
    + rewrite lookup_insert_eq. assert (out = Running) as -> by by apply Hrun. subst pc'. by split.
    + rewrite lookup_delete_eq. split; [by intros []|]. destruct out as [|b|st task].
      * destruct Hrun as [Hr _]. destruct (Hr eq_refl). done.
      * by destruct (Hnp b).
      * by destruct st; subst pc'.
  - intros u Hu. simpl. assert (v <> Z.of_nat u) by lia.
    destruct out as [|b|[] task]; subst pc'; simpl; (split; [congruence|done || congruence]).
Qed.

Lemma with_pc_id w pc s : workers s !! w = Some pc -> with_pc w pc s = s.
Proof. intros. destruct s. unfold with_pc. simpl in *. by rewrite list_insert_id. Qed.

(** The accesses of a search to a deque. *)
Lemma deq_at_local w o ph s s' :
  deq_inv s -> deques_ok s -> deques_ok s' -> workers s !! w = Some (WTry ph TryLocal) ->
  try_act w o ph TryLocal s = Some s' -> deq_inv s'.
Proof.
  intros Hi Hds Hds' Hw Ha. simpl in Ha.
  destruct (deques s !! w) as [d|] eqn:Hd; simplify_eq/=.
  destruct (owner_outcome d) as [out|] eqn:Ho; simplify_eq/=.
  destruct (ws_act worker_bits OwnerGo d) as [d'|] eqn:Hact; simplify_eq/=.
  destruct out as [|ok|st task]; simplify_eq; [|by eapply deq_owner_popped].
  destruct (ws_act_owner _ _ _ Hact Ho) as (Hs & Eth & _).
  destruct (owner_step_call _ _ _ _ _ Hs) as [E _].
  pose proof (ok_owner _ _ _ (dq_worker _ Hi _ _ _ Hw Hd)) as Hpop. simpl in Hpop.
  eapply (deq_own s _ w _ (WTry ph TryLocal) d d' Hi Hw Hd); deq_side.
  - by rewrite list_insert_id.
  - split; simpl; try done. congruence.
Qed.

Lemma deq_at_steal w o ph i target_id s s' :
  deq_inv s -> deques_ok s -> deques_ok s' -> workers s !! w = Some (WTry ph (TrySteal i target_id)) ->
  try_act w o ph (TrySteal i target_id) s = Some s' -> deq_inv s'.
Proof.
  intros Hi Hds Hds' Hw Ha. simpl in Ha.
  assert (Hlen : (w < length (workers s))%nat) by by eapply lookup_lt_Some.
  destruct i as [|i]; [|destruct (target_id =? Z.of_nat w) eqn:Et].
  - simplify_eq. eapply (deq_local_search w _ _ _ _ _ Hi Hw); deq_side; [by destruct ph|].
    intros d Hd Ho []. by destruct ph.
  - simplify_eq. eapply (deq_local_search w _ _ _ _ _ Hi Hw); deq_side.
    intros d Hd Ho []. split; try done. simpl. apply next_target_range. lia.
  - destruct (deques s !! Z.to_nat target_id) as [d|] eqn:Hd; simplify_eq/=.
    destruct (ws_act worker_bits (CallSteal w) d) as [d'|] eqn:Hact; simplify_eq/=.
    destruct (ws_act_call_steal _ _ _ Hact) as (Eo & Esh & Eth & _).
    destruct (deq_lookup _ _ _ Hi Hw) as [dw Hdw].
    pose proof (ok_args _ _ _ (dq_worker _ Hi _ _ _ Hw Hdw)) as Hv. simpl in Hv.
    assert (Hkeep : forall pcv, worker_ok (length (workers s)) pcv d ->
                                worker_ok (length (workers s)) pcv d').
    { intros pcv []. split; rewrite ?Eo, ?Esh; done. }
    zbool. eapply (deq_update s _ w _ _ (Z.to_nat target_id) d d' Hi Hw Hd); try done.
    + intros E. lia.
    + intros _. split; [by auto|]. intros d0 _ []. by split.
    + intros t Hne. by rewrite Eth, lookup_insert_ne.
    + rewrite Eth, lookup_insert_eq, Z2Nat.id by lia. by split.
    + intros u Hu. simpl. split; [done|]. intros [= ?]. lia.
Qed.

Lemma deq_at_stealing w o ph i target_id s s' :
  deq_inv s -> deques_ok s -> deques_ok s' -> workers s !! w = Some (WTry ph (TryStealing i target_id)) ->
  try_act w o ph (TryStealing i target_id) s = Some s' -> deq_inv s'.
Proof.
  intros Hi Hds Hds' Hw Ha. simpl in Ha.
  destruct (deques s !! Z.to_nat target_id) as [d|] eqn:Hd; simplify_eq/=.
  destruct (thief_outcome w d) as [out|] eqn:Ho; simplify_eq/=.
  destruct (ws_act worker_bits (ThiefGo w) d) as [d'|] eqn:Hact; simplify_eq/=.
  destruct out as [|ok|[] task]; simplify_eq;
    [|by eapply deq_stealing..].
  rewrite <- (with_pc_id w (WTry ph (TryStealing i target_id)) (with_deque _ d' s)) in Hds' |- *
    by done. by eapply deq_stealing.
Qed.

Lemma deq_try_act w o ph t s s' :
  deq_inv s -> deques_ok s -> deques_ok s' -> workers s !! w = Some (WTry ph t) ->
  try_act w o ph t s = Some s' -> deq_inv s'.
Proof.
  intros Hi Hds Hds' Hw Ha.
  assert (Hlen : (w < length (workers s))%nat) by by eapply lookup_lt_Some.
  destruct t; simpl in Ha.
  - destruct (ticks s !! w) as [tick|]; simplify_eq/=. destruct (_ =? 0).
    + simplify_eq. eapply (deq_local_search w _ _ _ _ _ Hi Hw); deq_side.
    + eapply (deq_start_pop _ _ _ _ (WTry ph TryTick)); [| |done|exact Ha]; [|exact Hw].
      eapply deq_inv_same; [exact Hi|..]; deq_side.
  - destruct (global_pop s) as [task s1] eqn:E. apply global_pop_spec in E as (g & Ep & ->).
    destruct (Z.eqb_spec task nullptr) as [->|Hne].
    + eapply (deq_start_pop _ _ _ _ (WTry ph TryPoll)); [| |done|exact Ha]; [|exact Hw]. by eapply deq_inv_same.
    + simplify_eq. eapply (deq_local_search w _ _ _ _ _ Hi Hw); deq_side.
      intros d Hd Ho _. by apply found_worker_ok.
  - by apply (deq_at_local w o ph s s').
  - destruct (global_pop s) as [task s1] eqn:E. apply global_pop_spec in E as (g & Ep & ->).
    simplify_eq. destruct (Z.eqb_spec task nullptr) as [->|Hne];
      (eapply (deq_local_search w _ _ _ _ _ Hi Hw); deq_side).
    + by intros d Hd Ho [].
    + intros d Hd Ho _. by apply found_worker_ok.
  - simplify_eq. eapply (deq_local_search w _ _ _ _ _ Hi Hw); deq_side.
    intros d Hd Ho []. split; try done. simpl. apply Z.mod_pos_bound. lia.
  - by apply (deq_at_steal w o ph i target_id s s').
  - by apply (deq_at_stealing w o ph i target_id s s').
  - destruct (deques s !! Z.to_nat target_id) as [d|] eqn:Hd; simplify_eq/=.
    eapply (deq_local_search w _ _ _ _ _ Hi Hw); deq_side.
    destruct (Forall_lookup_1 _ _ _ _ Hds Hd) as [[] Hb].
    intros d0 Hd0 Ho [H1 H2 H3 H4]. split; try done. simpl in *. split; [done|]. lia.
  - destruct (deques s !! Z.to_nat target_id) as [d|] eqn:Hd; simplify_eq/=.
    destruct (size_gt_1 _ _) as [big|]; simplify_eq/=.
    destruct big; (eapply (deq_local_search w _ _ _ _ _ Hi Hw); deq_side).
    + by intros d0 Hd0 Ho [].
    + intros d0 Hd0 Ho [_ _ _ H4]. apply found_worker_ok; [done|]. by inversion H4.
  - destruct (Global.notify_one_idle (glob s)) as [g k]. simplify_eq.
    eapply (deq_local_search w _ _ _ _ _ Hi Hw); deq_side.
    intros d0 Hd0 Ho [_ _ _ H4]. apply mk_notify_worker_ok.
    + apply found_worker_ok; [done|]. by inversion H4.
    + apply found_stealing.
    + intros. apply found_owner_at.
Qed.

Lemma deq_task_act w a s s' :
  deq_inv s -> workers s !! w = Some WTask -> task_act w a s = Some s' -> deq_inv s'.
Proof.
  intros Hi Hw Ha. destruct a as [|h|l|]; simpl in Ha.
  - simplify_eq. eapply (deq_local s _ w _ _ Hi Hw); deq_side. by intros d Hd [].
  - destruct (deques s !! w) as [d|] eqn:Hd; simplify_eq/=.
    destruct (ws_act worker_bits (CallPush h) d) as [d'|] eqn:Hact; simplify_eq/=.
    destruct (ws_act_call_push _ _ _ Hact) as (Eo & Eo' & Esh & Eth & _).
    eapply (deq_own s _ w _ _ d d' Hi Hw Hd); deq_side.
  - destruct (decide _) as [Hl|]; [|done].
    destruct (Global.push_batch l (glob s)) as [g k]. simplify_eq/=.
    eapply (deq_local s _ w _ _ Hi Hw); deq_side. intros d Hd []. by apply mk_notify_worker_ok.
  - simplify_eq. eapply (deq_local s _ w _ _ Hi Hw); deq_side. by intros d Hd [].
Qed.

Lemma deq_at_push w h o s s' :
  deq_inv s -> deques_ok s -> workers s !! w = Some (WEnqPush h) ->
  worker_act w o s = Some s' -> deques_ok s' -> deq_inv s'.
Proof.
  intros Hi Hds Hw Ha Hds'. unfold worker_act in Ha. rewrite Hw in Ha. simpl in Ha.
  destruct (deques s !! w) as [d|] eqn:Hd; simplify_eq/=.
  destruct (owner_outcome d) as [out|] eqn:Ho; simplify_eq/=.
  destruct (ws_act worker_bits OwnerGo d) as [d'|] eqn:Hact; simplify_eq/=.
  destruct (ws_act_owner _ _ _ Hact Ho) as (Hs & Eth & _).
  pose proof (owner_step_call _ _ _ _ _ Hs) as Hcall.
  pose proof (ok_owner _ _ _ (dq_worker _ Hi _ _ _ Hw Hd)) as Hpush. simpl in Hpush.
  destruct out as [|ok|]; simplify_eq.
  - eapply (deq_own s _ w _ (WEnqPush h) d d' Hi Hw Hd); deq_side; [by rewrite list_insert_id|].
    destruct Hcall as [_ E]. split; simpl; try done. congruence.
  - destruct Hcall as [E _].
    destruct ok; (eapply (deq_own s _ w _ _ d d' Hi Hw Hd); deq_side).
Qed.

Lemma deq_at_notify w n next o s s' :
  deq_inv s -> deques_ok s -> workers s !! w = Some (WNotify n next) ->
  worker_act w o s = Some s' -> deques_ok s' -> deq_inv s'.
Proof.
  intros Hi Hds Hw Ha Hds'. unfold worker_act in Ha. rewrite Hw in Ha. simpl in Ha.
  assert (Hst : stealing next = None /\ forall ow, owner_at next ow <-> ow = OIdle).
  { destruct (deq_lookup _ _ _ Hi Hw) as [d Hd].
    by destruct (ok_args _ _ _ (dq_worker _ Hi _ _ _ Hw Hd)) as (? & ? & _). }
  destruct Hst as [Hst Hoa]. destruct n as [|n].
  { simplify_eq. eapply (deq_local s _ w _ _ Hi Hw); deq_side. intros d Hd. apply notify_worker_ok. }
  destruct (notify_one (o_wake o) (workers s)) as [l|] eqn:El; simplify_eq/=.
  destruct (notify_one_wakes _ _ _ El) as [Hll Hlw].
  pose proof (notify_one_keeps _ _ _ _ _ El Hw eq_refl) as Hw'.
  assert (Hi' : deq_inv (with_workers l s)) by by eapply deq_wake.
  eapply (deq_local (with_workers l s) _ w _ _ Hi' Hw'); deq_side.
  intros d Hd Hok. apply mk_notify_worker_ok; [by eapply notify_worker_ok|done|done].
Qed.

Lemma deq_at_notify_all w o s s' :
  deq_inv s -> deques_ok s -> workers s !! w = Some WNotifyAll ->
  worker_act w o s = Some s' -> deques_ok s' -> deq_inv s'.
Proof.
  intros Hi Hds Hw Ha Hds'. unfold worker_act in Ha. rewrite Hw in Ha. simpl in Ha.
  simplify_eq.
  assert (Hi' : deq_inv (with_workers (notify_all (workers s)) s)).
  { eapply (deq_wake s); try done; simpl; [by unfold notify_all; rewrite length_fmap|].
    apply notify_all_wakes. }
  pose proof (notify_all_keeps _ _ _ Hw eq_refl) as Hw'.
  eapply (deq_local _ _ w _ _ Hi' Hw'); deq_side. by intros d Hd [].
Qed.

Lemma deq_worker_act w o s s' :
  deq_inv s -> deques_ok s -> deques_ok s' -> worker_act w o s = Some s' -> deq_inv s'.
Proof.
  intros Hi Hds Hds' Ha. pose proof Ha as Hact. unfold worker_act in Ha.
  destruct (workers s !! w) as [pc|] eqn:Hw; simplify_eq/=.
  destruct pc as [|ph t| |e|e|task|task| |h| |tp| |h|n next| | |].
  - simplify_eq. destruct (running s); (eapply (deq_local s _ w _ _ Hi Hw); deq_side);
      by intros d Hd [].
  - by eapply deq_try_act.
  - simplify_eq. eapply (deq_local s _ w _ _ Hi Hw); deq_side. by intros d Hd [].
  - destruct (Global.park e (glob s)); simplify_eq;
      (eapply (deq_local s _ w _ _ Hi Hw); deq_side); by intros d Hd [].
  - simplify_eq. eapply (deq_local s _ w _ _ Hi Hw); deq_side. by intros d Hd [].
  - simplify_eq. eapply (deq_local s _ w _ _ Hi Hw); deq_side. by intros d Hd [].
  - simplify_eq. destruct (o_done o); (eapply (deq_local s _ w _ _ Hi Hw); deq_side);
      intros d Hd []; split; try done; by constructor.
  - by eapply deq_task_act.
  - by eapply deq_at_push.
  - destruct (deques s !! w) as [d|] eqn:Hd; simplify_eq/=.
    eapply (deq_local s _ w _ _ Hi Hw); deq_side. intros d0 Hd0 []. split; try done. simpl.
    destruct (Forall_lookup_1 _ _ _ _ Hds Hd) as [[] Hb]. lia.
  - destruct (deques s !! w) as [d|] eqn:Hd; simplify_eq/=.
    destruct (size_gt_1 _ _) as [[]|]; simplify_eq/=;
      (eapply (deq_local s _ w _ _ Hi Hw); deq_side); by intros d0 Hd0 [].
  - destruct (Global.notify_one_idle (glob s)) as [g k]. simplify_eq/=.
    eapply (deq_local s _ w _ _ Hi Hw); deq_side. intros d Hd []. by apply mk_notify_worker_ok.
  - destruct (Global.push h (glob s)) as [g k]. simplify_eq/=.
    eapply (deq_local s _ w _ _ Hi Hw); deq_side. intros d Hd []. by apply mk_notify_worker_ok.
  - by eapply deq_at_notify.
  - destruct (Global.stop (glob s)) as [g []]; simplify_eq;
      (eapply (deq_local s _ w _ _ Hi Hw); deq_side); by intros d Hd [].
  - by eapply deq_at_notify_all.
  - done.
Qed.

Lemma deq_sched_act c s s' :
  deq_inv s -> deques_ok s -> deques_ok s' -> sched_act c s = Some s' -> deq_inv s'.
Proof.
  intros Hi Hds Hds' Ha. destruct c as [w o|h|l|v| | |]; simpl in Ha.
  - by eapply deq_worker_act.
  - destruct (h =? nullptr), (Global.push h (glob s)); simplify_eq. by eapply deq_inv_same.
  - destruct (decide _), (Global.push_batch l (glob s)); simplify_eq. by eapply deq_inv_same.
  - destruct (ext_notify s); [done|]. destruct (notify_one v (workers s)) as [l|] eqn:El; simplify_eq/=.
    destruct (notify_one_wakes _ _ _ El) as [Hll Hlw]. by eapply deq_wake.
  - simplify_eq. by eapply deq_inv_same.
  - destruct (ext_stop s), (Global.stop (glob s)) as [g b]; simplify_eq. by eapply deq_inv_same.
  - destruct (ext_all s); simplify_eq. eapply (deq_wake s); try done; simpl;
      [by unfold notify_all; rewrite length_fmap|]. apply notify_all_wakes.
Qed.

(** ** Each deque takes steps of its own system *)

Definition deque_moves (s s' : sched_state) : Prop :=
  deques s' = deques s \/
  exists v d d', deques s !! v = Some d /\ deques s' = <[v := d']> (deques s) /\
    ws_step worker_bits d d'.

(** The deque operation [a] on deque [v] is part of a call of worker [u]. *)
Definition acts_for (u v : nat) (a : ws_choice) : Prop :=
  match a with
  | CallPush _ | CallPop | OwnerGo => v = u
  | CallSteal t | ThiefGo t => t = u
  end.

Definition deque_moves_by (u : nat) (s s' : sched_state) : Prop :=
  deques s' = deques s \/
  exists v d d' a, deques s !! v = Some d /\ deques s' = <[v := d']> (deques s) /\
    ws_act worker_bits a d = Some d' /\ acts_for u v a.

Lemma moves_by_act u s s' a v d d' :
  deques s !! v = Some d -> ws_act worker_bits a d = Some d' ->
  deques s' = <[v := d']> (deques s) -> acts_for u v a -> deque_moves_by u s s'.
Proof. intros. right. by exists v, d, d', a. Qed.

Lemma start_pop_by w ph s s' : start_pop w ph s = Some s' -> deque_moves_by w s s'.
Proof. unfold start_pop. intros H. act_cases H. by eapply moves_by_act. Qed.

Lemma try_act_by w o ph t s s' : try_act w o ph t s = Some s' -> deque_moves_by w s s'.
Proof.
  intros Ha. destruct t; unfold try_act in Ha;
    try (destruct (global_pop s) as [task s1] eqn:E; apply global_pop_spec in E as (g & Ep & ->));
    act_cases Ha; try (by left); try (by eapply moves_by_act);
    by (match goal with H : start_pop _ _ _ = _ |- _ => apply start_pop_by in H end).
Qed.

Lemma worker_act_by w o s s' : worker_act w o s = Some s' -> deque_moves_by w s s'.
Proof.
  intros Ha. unfold worker_act in Ha. destruct (workers s !! w) as [pc|]; simplify_eq/=.
  destruct pc as [|ph t| |e|e|task|task| |h| |tp| |h|n next| | |];
    [..|done]; try (by eapply try_act_by); try (act_cases Ha; try (by left); by eapply moves_by_act).
  destruct (o_action o); simpl in Ha; act_cases Ha; try (by left); by eapply moves_by_act.
Qed.

Lemma moves_by_moves u s s' : deque_moves_by u s s' -> deque_moves s s'.
Proof.
  intros [?|(v & d & d' & a & Hv & E & Ha & _)]; [by left|]. right. exists v, d, d'.
  split_and!; try done. by eapply ws_act_step.
Qed.

Lemma act_moves c s s' : sched_act c s = Some s' -> deque_moves s s'.
Proof.
  intros Ha. destruct c as [w o|h|l|v| | |]; simpl in Ha; try (act_cases Ha; by left).
  by eapply moves_by_moves, worker_act_by.
Qed.

(** ** Where every task is *)

Record cons_inv (s : sched_state) : Prop := {
  ci_global : gpushed s = gpopped s ++ Global.queue_ (glob s);
  ci_taken : resumed s ++ concat (in_hand <$> workers s)
             ≡ₚ gpopped s ++ concat (taken <$> deques s);
  ci_submitted : submitted s
             ≡ₚ gpushed s ++ concat (pushed <$> deques s) ++ concat (pending <$> workers s)
}.

(** A step of [w] on deque [v] that moves tasks: [gp], [gq] into and out of the
    global queue, [pu], [ta] into and out of the deque, [su] submitted, [re]
    resumed. *)
Lemma cons_step s s' w pc pc' v d d' gp gq su re pu ta :
  cons_inv s -> workers s !! w = Some pc -> deques s !! v = Some d ->
  workers s' = <[w := pc']> (workers s) -> deques s' = <[v := d']> (deques s) ->
  pushed d' = pushed d ++ pu -> taken d' = taken d ++ ta ->
  gpushed s' = gpushed s ++ gp -> gpopped s' = gpopped s ++ gq ->
  submitted s' = submitted s ++ su -> resumed s' = resumed s ++ re ->
  Global.queue_ (glob s) ++ gp = gq ++ Global.queue_ (glob s') ->
  re ++ in_hand pc' ≡ₚ in_hand pc ++ gq ++ ta ->
  su ++ pending pc ≡ₚ gp ++ pu ++ pending pc' ->
  cons_inv s'.
Proof.
  intros [H1 H2 H3] Hw Hd Ew Ed Epu Eta Egp Egq Esu Ere Hq Hh Hp.
  destruct (concat_fmap_update in_hand _ _ _ Hw) as (rh & Eh & Eh').
  destruct (concat_fmap_update pending _ _ _ Hw) as (rp & Ep & Ep').
  destruct (concat_fmap_update taken _ _ _ Hd) as (rt & Et & Et').
  destruct (concat_fmap_update pushed _ _ _ Hd) as (ru & Eu & Eu').
  split; rewrite ?Ew, ?Ed, ?Egp, ?Egq, ?Esu, ?Ere.
  - rewrite H1, <- !(assoc_L (++)). by rewrite Hq.
  - rewrite Eh', Et', Eta. rewrite Eh, Et in H2.
    transitivity ((resumed s ++ rh) ++ (re ++ in_hand pc')); [solve_Permutation|].
    rewrite Hh. transitivity ((resumed s ++ in_hand pc ++ rh) ++ gq ++ ta); [solve_Permutation|].
    rewrite H2. solve_Permutation.
  - rewrite Eu', Ep', Epu. rewrite Eu, Ep in H3. apply (inj (pending pc ++.)).
    transitivity (submitted s ++ (su ++ pending pc)); [solve_Permutation|].
    rewrite Hp, H3. solve_Permutation.
Qed.

(** A step that leaves the deques alone. *)
Lemma cons_local s s' w pc pc' gp gq su re :
  cons_inv s -> deq_inv s -> workers s !! w = Some pc ->
  workers s' = <[w := pc']> (workers s) -> deques s' = deques s ->
  gpushed s' = gpushed s ++ gp -> gpopped s' = gpopped s ++ gq ->
  submitted s' = submitted s ++ su -> resumed s' = resumed s ++ re ->
  Global.queue_ (glob s) ++ gp = gq ++ Global.queue_ (glob s') ->
  re ++ in_hand pc' ≡ₚ in_hand pc ++ gq ->
  su ++ pending pc ≡ₚ gp ++ pending pc' ->
  cons_inv s'.
Proof.
  intros Hc Hi Hw Ew Ed Egp Egq Esu Ere Hq Hh Hp. destruct (deq_lookup _ _ _ Hi Hw) as [d Hd].
  eapply (cons_step s s' w pc pc' w d d gp gq su re [] []); rewrite ?app_nil_r; try done.
  by rewrite list_insert_id.
Qed.

(** A step that moves no task. *)
Lemma cons_still s s' w pc pc' :
  cons_inv s -> deq_inv s -> workers s !! w = Some pc ->
  workers s' = <[w := pc']> (workers s) -> deques s' = deques s ->
  gpushed s' = gpushed s -> gpopped s' = gpopped s ->
  submitted s' = submitted s -> resumed s' = resumed s ->
  Global.queue_ (glob s') = Global.queue_ (glob s) ->
  in_hand pc' = in_hand pc -> pending pc' = pending pc ->
  cons_inv s'.
Proof.
  intros Hc Hi Hw Ew Ed E1 E2 E3 E4 Eq Hh Hp.
  eapply (cons_local s s' w pc pc' [] [] [] []); rewrite ?app_nil_r; simpl;
    rewrite ?Hh, ?Hp; done.
Qed.

Lemma in_hand_found ph task : task <> nullptr -> in_hand (found ph task) = [task].
Proof. intros. unfold found. destruct (Z.eqb_spec task nullptr); [done|]. by destruct ph. Qed.

Lemma pending_found ph task : pending (found ph task) = [].
Proof. unfold found. destruct (task =? nullptr), ph; done. Qed.

Lemma mk_notify_tasks k next :
  in_hand (mk_notify k next) = in_hand next /\ pending (mk_notify k next) = pending next.
Proof. by destruct k. Qed.

Lemma try_pop_queue s task g :
  park_inv s -> Global.try_pop (glob s) = (task, g) ->
  Global.queue_ (glob s) = (if task =? nullptr then [] else [task]) ++ Global.queue_ g.
Proof. intros Hp E. by apply (Global.try_pop_spec _ _ _ (inv_queue _ Hp) E). Qed.

Lemma cons_start_pop w ph s s' pc gq :
  cons_inv s -> deq_inv s -> workers s !! w = Some pc -> in_hand pc = [] -> pending pc = [] ->
  forall s1, workers s1 = workers s -> deques s1 = deques s ->
  gpushed s1 = gpushed s -> gpopped s1 = gpopped s ++ gq -> submitted s1 = submitted s ->
  resumed s1 = resumed s -> Global.queue_ (glob s) = gq ++ Global.queue_ (glob s1) -> gq = [] ->
  start_pop w ph s1 = Some s' -> cons_inv s'.
Proof.
  intros Hc Hi Hw Hh Hp s1 Ew Ed E1 E2 E3 E4 Hq -> Ha. unfold start_pop in Ha. rewrite Ed in Ha.
  destruct (deques s !! w) as [d|] eqn:Hd; simplify_eq/=.
  destruct (ws_act worker_bits CallPop d) as [d'|] eqn:E; simplify_eq/=.
  destruct (ws_act_call_pop _ _ E) as (_ & _ & _ & _ & Epu & Eta).
  eapply (cons_step s _ w pc (WTry ph TryLocal) w d d' [] [] [] [] [] []); simpl; rewrite ?app_nil_r; try done;
    rewrite ?Ew, ?Ed, ?E2, ?Hh, ?Hp, ?app_nil_r; done.
Qed.

Ltac cons_side :=
  simpl; rewrite ?app_nil_r; try done;
  rewrite ?(proj1 (mk_notify_tasks _ _)), ?(proj2 (mk_notify_tasks _ _)), ?pending_found,
    ?in_hand_found by done; simpl; rewrite ?app_nil_r; try done.

Lemma hand_nonnull s w pc :
  deq_inv s -> workers s !! w = Some pc -> Forall (fun h => h <> nullptr) (in_hand pc).
Proof.
  intros Hi Hw. destruct (deq_lookup _ _ _ Hi Hw) as [d Hd].
  apply (dq_worker _ Hi _ _ _ Hw Hd).
Qed.

Lemma cons_at_local w o ph s s' :
  cons_inv s -> park_inv s -> deq_inv s -> workers s !! w = Some (WTry ph TryLocal) ->
  try_act w o ph TryLocal s = Some s' -> cons_inv s'.
Proof.
  intros Hc Hp Hi Hw Ha. simpl in Ha.
  destruct (deques s !! w) as [d|] eqn:Hd; simplify_eq/=.
  destruct (owner_outcome d) as [out|] eqn:Ho; simplify_eq/=.
  destruct (ws_act worker_bits OwnerGo d) as [d'|] eqn:Hact; simplify_eq/=.
  destruct (ws_act_owner _ _ _ Hact Ho) as (Hs & _ & Epu & Eta).
  pose proof (owner_step_call _ _ _ _ _ Hs) as Hcall.
  assert (Hpu : out = Running \/ (exists st p, out = Popped st p) -> record_pushed (owner d) out = []).
  { intros [->|(st & p & ->)]; by destruct (owner d). }
  destruct out as [|ok|st task]; simplify_eq; rewrite Hpu in Epu by eauto;
    simpl in Eta; rewrite ?app_nil_r in *.
  - eapply (cons_step s _ w _ (WTry ph TryLocal) w d d' [] [] [] [] [] [] Hc Hw Hd); cons_side.
    by rewrite list_insert_id.
  - destruct Hcall as (_ & _ & ->). unfold pop_result in Eta.
    destruct (Z.eqb_spec task nullptr); simpl in Eta; rewrite ?app_nil_r in *.
    + eapply (cons_step s _ w _ _ w d d' [] [] [] [] [] [] Hc Hw Hd); cons_side.
    + eapply (cons_step s _ w _ _ w d d' [] [] [] [] [] [task] Hc Hw Hd); cons_side.
Qed.

Lemma cons_at_stealing w o ph i target_id s s' :
  cons_inv s -> park_inv s -> deq_inv s -> workers s !! w = Some (WTry ph (TryStealing i target_id)) ->
  try_act w o ph (TryStealing i target_id) s = Some s' -> cons_inv s'.
Proof.
  intros Hc Hp Hi Hw Ha. simpl in Ha.
  destruct (deques s !! Z.to_nat target_id) as [d|] eqn:Hd; simplify_eq/=.
  destruct (thief_outcome w d) as [out|] eqn:Ho; simplify_eq/=.
  destruct (ws_act worker_bits (ThiefGo w) d) as [d'|] eqn:Hact; simplify_eq/=.
  destruct (ws_act_thief _ _ _ _ Hact Ho) as (pc & pcn & _ & _ & _ & _ & Epu & Eta).
  destruct out as [|ok|[] task]; simplify_eq; simpl in Eta; rewrite ?app_nil_r in *.
  - eapply (cons_step s _ w _ (WTry ph (TryStealing i target_id)) _ d d' [] [] [] [] [] [] Hc Hw Hd);
      cons_side. by rewrite list_insert_id.
  - eapply (cons_step s _ w _ _ _ d d' [] [] [] [] [] [] Hc Hw Hd); cons_side.
  - eapply (cons_step s _ w _ _ _ d d' [] [] [] [] [] [task] Hc Hw Hd); cons_side.
  - eapply (cons_step s _ w _ _ _ d d' [] [] [] [] [] [] Hc Hw Hd); cons_side.
Qed.

Lemma cons_try_act w o ph t s s' :
  cons_inv s -> park_inv s -> deq_inv s -> workers s !! w = Some (WTry ph t) ->
  try_act w o ph t s = Some s' -> cons_inv s'.
Proof.
  intros Hc Hp Hi Hw Ha. pose proof (hand_nonnull _ _ _ Hi Hw) as Hnn.
  destruct t; simpl in Ha, Hnn.
  - destruct (ticks s !! w) as [tick|]; simplify_eq/=. destruct (_ =? 0).
    + simplify_eq. eapply (cons_still s _ w _ _ Hc Hi Hw); cons_side.
    + eapply (cons_start_pop w ph s s' _ [] Hc Hi Hw); [done|done|..|exact Ha]; cons_side.
  - destruct (global_pop s) as [task s1] eqn:E. apply global_pop_spec in E as (g & Ep & ->).
    pose proof (try_pop_queue _ _ _ Hp Ep) as Eq.
    destruct (Z.eqb_spec task nullptr) as [->|Hne].
    + eapply (cons_start_pop w ph s s' _ [] Hc Hi Hw); [done|done|..|exact Ha]; cons_side.
    + simplify_eq. eapply (cons_local s _ w _ _ [] [task] [] [] Hc Hi Hw); cons_side.
  - by apply (cons_at_local w o ph s s').
  - destruct (global_pop s) as [task s1] eqn:E. apply global_pop_spec in E as (g & Ep & ->).
    pose proof (try_pop_queue _ _ _ Hp Ep) as Eq.
    simplify_eq. destruct (Z.eqb_spec task nullptr) as [->|Hne].
    + eapply (cons_still s _ w _ _ Hc Hi Hw); cons_side.
    + eapply (cons_local s _ w _ _ [] [task] [] [] Hc Hi Hw); cons_side.
  - simplify_eq. eapply (cons_still s _ w _ _ Hc Hi Hw); cons_side.
  - destruct i as [|i]; [|destruct (target_id =? Z.of_nat w) eqn:Et].
    + simplify_eq. eapply (cons_still s _ w _ _ Hc Hi Hw); cons_side; by destruct ph.
    + simplify_eq. eapply (cons_still s _ w _ _ Hc Hi Hw); cons_side.
    + destruct (deques s !! Z.to_nat target_id) as [d|] eqn:Hd; simplify_eq/=.
      destruct (ws_act worker_bits (CallSteal w) d) as [d'|] eqn:Hact; simplify_eq/=.
      destruct (ws_act_call_steal _ _ _ Hact) as (_ & _ & _ & Epu & Eta).
      eapply (cons_step s _ w _ _ _ d d' [] [] [] [] [] [] Hc Hw Hd); cons_side.
  - by apply (cons_at_stealing w o ph i target_id s s').
  - destruct (deques s !! Z.to_nat target_id) as [d|] eqn:Hd; simplify_eq/=.
    eapply (cons_still s _ w _ _ Hc Hi Hw); cons_side.
  - inversion Hnn; subst. destruct (deques s !! Z.to_nat target_id) as [d|] eqn:Hd; simplify_eq/=.
    destruct (size_gt_1 _ _) as [[]|]; simplify_eq/=; (eapply (cons_still s _ w _ _ Hc Hi Hw); cons_side).
  - inversion Hnn; subst. pose proof (Global.notify_one_idle_spec (glob s)) as (Eq & _).
    destruct (Global.notify_one_idle (glob s)) as [g k]. simplify_eq/=.
    eapply (cons_still s _ w _ _ Hc Hi Hw); cons_side.
Qed.

Lemma wake_tasks pc : in_hand (wake pc) = in_hand pc /\ pending (wake pc) = pending pc.
Proof. by destruct pc. Qed.

Lemma notify_one_tasks v l l' :
  notify_one v l = Some l' -> in_hand <$> l' = in_hand <$> l /\ pending <$> l' = pending <$> l.
Proof.
  intros [[-> _]|(e & Hv & ->)]%notify_one_spec; [done|]. rewrite !list_fmap_insert.
  split; apply list_insert_id; by rewrite list_lookup_fmap, Hv.
Qed.

Lemma notify_all_tasks l :
  in_hand <$> notify_all l = in_hand <$> l /\ pending <$> notify_all l = pending <$> l.
Proof.
  unfold notify_all. rewrite <- !list_fmap_compose.
  split; apply list_fmap_ext; intros ? pc _; apply wake_tasks.
Qed.

Lemma cons_wake s s' :
  cons_inv s -> in_hand <$> workers s' = in_hand <$> workers s ->
  pending <$> workers s' = pending <$> workers s -> deques s' = deques s ->
  glob s' = glob s -> gpushed s' = gpushed s -> gpopped s' = gpopped s ->
  submitted s' = submitted s -> resumed s' = resumed s -> cons_inv s'.
Proof.
  intros [H1 H2 H3] E1 E2 E3 E4 E5 E6 E7 E8.
  split; rewrite ?E1, ?E2, ?E3, ?E4, ?E5, ?E6, ?E7, ?E8; done.
Qed.

Lemma cons_task_act w a s s' :
  cons_inv s -> deq_inv s -> workers s !! w = Some WTask ->
  task_act w a s = Some s' -> cons_inv s'.
Proof.
  intros Hc Hi Hw Ha. destruct a as [|h|l|]; simpl in Ha.
  - simplify_eq. eapply (cons_still s _ w _ _ Hc Hi Hw); cons_side.
  - destruct (deques s !! w) as [d|] eqn:Hd; simplify_eq/=.
    destruct (ws_act worker_bits (CallPush h) d) as [d'|] eqn:Hact; simplify_eq/=.
    destruct (ws_act_call_push _ _ _ Hact) as (_ & _ & _ & _ & Epu & Eta).
    eapply (cons_step s _ w _ _ w d d' [] [] [h] [] [] [] Hc Hw Hd); cons_side.
  - destruct (decide _) as [Hl|]; [|done].
    pose proof (push_batch_keeps l (glob s)) as (_ & _ & Eq).
    destruct (Global.push_batch l (glob s)) as [g k]. simplify_eq/=.
    eapply (cons_local s _ w _ _ l [] l [] Hc Hi Hw); cons_side.
  - simplify_eq. eapply (cons_still s _ w _ _ Hc Hi Hw); cons_side.
Qed.

Lemma cons_at_push w h o s s' :
  cons_inv s -> park_inv s -> deq_inv s -> workers s !! w = Some (WEnqPush h) ->
  worker_act w o s = Some s' -> cons_inv s'.
Proof.
  intros Hc Hp Hi Hw Ha. unfold worker_act in Ha. rewrite Hw in Ha. simpl in Ha.
  destruct (deques s !! w) as [d|] eqn:Hd; simplify_eq/=.
  destruct (owner_outcome d) as [out|] eqn:Ho; simplify_eq/=.
  destruct (ws_act worker_bits OwnerGo d) as [d'|] eqn:Hact; simplify_eq/=.
  destruct (ws_act_owner _ _ _ Hact Ho) as (Hs & _ & Epu & Eta).
  pose proof (owner_step_call _ _ _ _ _ Hs) as Hcall.
  pose proof (ok_owner _ _ _ (dq_worker _ Hi _ _ _ Hw Hd)) as Hpush. simpl in Hpush.
  destruct out as [|ok|]; simplify_eq; simpl in Eta; rewrite app_nil_r in Eta.
  - assert (record_pushed (owner d) Running = []) as E by by destruct (owner d).
    rewrite E, app_nil_r in Epu.
    eapply (cons_step s _ w _ (WEnqPush h) w d d' [] [] [] [] [] [] Hc Hw Hd); cons_side.
    by rewrite list_insert_id.
  - destruct Hcall as (_ & h' & Eh & Er). rewrite Eh in Hpush. simplify_eq. rewrite Er in Epu.
    destruct ok; rewrite ?app_nil_r in Epu.
    + eapply (cons_step s _ w _ _ w d d' [] [] [] [] [h] [] Hc Hw Hd); cons_side.
    + eapply (cons_step s _ w _ _ w d d' [] [] [] [] [] [] Hc Hw Hd); cons_side.
Qed.

Lemma cons_at_notify w n next o s s' :
  cons_inv s -> park_inv s -> deq_inv s -> workers s !! w = Some (WNotify n next) ->
  worker_act w o s = Some s' -> cons_inv s'.
Proof.
  intros Hc Hp Hi Hw Ha. unfold worker_act in Ha. rewrite Hw in Ha. simpl in Ha.
  destruct n as [|n].
  { simplify_eq. eapply (cons_still s _ w _ _ Hc Hi Hw); cons_side. }
  destruct (notify_one (o_wake o) (workers s)) as [l|] eqn:El; simplify_eq/=.
  destruct (notify_one_tasks _ _ _ El) as [E1 E2]. destruct (notify_one_wakes _ _ _ El) as [Hll Hlw].
  assert (Hc' : cons_inv (with_workers l s)) by by eapply cons_wake.
  assert (Hi' : deq_inv (with_workers l s)) by by eapply deq_wake.
  pose proof (notify_one_keeps _ _ _ _ _ El Hw eq_refl) as Hw'.
  eapply (cons_still (with_workers l s) _ w _ _ Hc' Hi' Hw'); cons_side.
Qed.

Lemma cons_at_notify_all w o s s' :
  cons_inv s -> park_inv s -> deq_inv s -> workers s !! w = Some WNotifyAll ->
  worker_act w o s = Some s' -> cons_inv s'.
Proof.
  intros Hc Hp Hi Hw Ha. unfold worker_act in Ha. rewrite Hw in Ha. simpl in Ha.
  simplify_eq. destruct (notify_all_tasks (workers s)) as [E1 E2].
  assert (Hc' : cons_inv (with_workers (notify_all (workers s)) s)) by by eapply cons_wake.
  assert (Hi' : deq_inv (with_workers (notify_all (workers s)) s)).
  { eapply (deq_wake s); try done; simpl; [by unfold notify_all; rewrite length_fmap|].
    apply notify_all_wakes. }
  pose proof (notify_all_keeps _ _ _ Hw eq_refl) as Hw'.
  eapply (cons_still _ _ w _ _ Hc' Hi' Hw'); cons_side.
Qed.

Lemma cons_worker_act w o s s' :
  cons_inv s -> park_inv s -> deq_inv s -> worker_act w o s = Some s' -> cons_inv s'.
Proof.
  intros Hc Hp Hi Ha. pose proof Ha as Hact. unfold worker_act in Ha.
  destruct (workers s !! w) as [pc|] eqn:Hw; simplify_eq/=.
  destruct pc as [|ph t| |e|e|task|task| |h| |tp| |h|n next| | |].
  - simplify_eq. destruct (running s); (eapply (cons_still s _ w _ _ Hc Hi Hw); cons_side).
  - by eapply cons_try_act.
  - simplify_eq. eapply (cons_still s _ w _ _ Hc Hi Hw); cons_side.
  - unfold Global.park in Ha. destruct (Global.park_ready _ _); simplify_eq;
      (eapply (cons_still s _ w _ _ Hc Hi Hw); cons_side).
  - simplify_eq. eapply (cons_still s _ w _ _ Hc Hi Hw); cons_side.
  - simplify_eq. eapply (cons_still s _ w _ _ Hc Hi Hw); cons_side.
  - simplify_eq. destruct (o_done o);
      (eapply (cons_local s _ w _ _ [] [] [] [task] Hc Hi Hw); cons_side).
  - by eapply cons_task_act.
  - by eapply cons_at_push.
  - destruct (deques s !! w) as [d|] eqn:Hd; simplify_eq/=.
    eapply (cons_still s _ w _ _ Hc Hi Hw); cons_side.
  - destruct (deques s !! w) as [d|] eqn:Hd; simplify_eq/=.
    destruct (size_gt_1 _ _) as [[]|]; simplify_eq/=; (eapply (cons_still s _ w _ _ Hc Hi Hw); cons_side).
  - pose proof (Global.notify_one_idle_spec (glob s)) as (Eq & _).
    destruct (Global.notify_one_idle (glob s)) as [g k]. simplify_eq/=.
    eapply (cons_still s _ w _ _ Hc Hi Hw); cons_side.
  - pose proof (Global.push_spec h (glob s)) as (Eq & _).
    destruct (Global.push h (glob s)) as [g k]. simplify_eq/=.
    eapply (cons_local s _ w _ _ [h] [] [] [] Hc Hi Hw); cons_side.
  - by eapply cons_at_notify.
  - unfold Global.stop in Ha. destruct (Global.stop_flag (glob s)); simplify_eq;
      (eapply (cons_still s _ w _ _ Hc Hi Hw); cons_side).
  - by eapply cons_at_notify_all.
  - done.
Qed.

Lemma cons_ext s g l k en :
  cons_inv s -> Global.queue_ g = Global.queue_ (glob s) ++ l ->
  cons_inv (log l [] l [] (with_ext en (ext_stop s) k (with_glob g s))).
Proof.
  intros [H1 H2 H3] Eq. split; simpl; rewrite ?app_nil_r.
  - by rewrite H1, Eq, (assoc_L (++)).
  - done.
  - rewrite H3. solve_Permutation.
Qed.

Lemma cons_sched_act c s s' :
  cons_inv s -> park_inv s -> deq_inv s -> sched_act c s = Some s' -> cons_inv s'.
Proof.
  intros Hc Hp Hi Ha. destruct c as [w o|h|l|v| | |]; simpl in Ha.
  - by eapply cons_worker_act.
  - pose proof (Global.push_spec h (glob s)) as (Eq & _).
    destruct (h =? nullptr), (Global.push h (glob s)); simplify_eq. by apply cons_ext.
  - pose proof (push_batch_keeps l (glob s)) as (_ & _ & Eq).
    destruct (decide _), (Global.push_batch l (glob s)); simplify_eq. by apply cons_ext.
  - destruct (ext_notify s); [done|]. destruct (notify_one v (workers s)) as [l|] eqn:El; simplify_eq/=.
    destruct (notify_one_tasks _ _ _ El). by eapply cons_wake.
  - simplify_eq. by eapply cons_wake.
  - unfold Global.stop in Ha. destruct (ext_stop s), (Global.stop_flag (glob s)); simplify_eq;
      destruct Hc as [H1 H2 H3]; by split.
  - destruct (ext_all s); simplify_eq. destruct (notify_all_tasks (workers s)).
    by eapply cons_wake.
Qed.

(** ** The invariant of the reachable states *)

Definition sched_bounds (s : sched_state) : Prop :=
  Z.of_nat (epochs s) < 2 ^ 64 /\
  Forall (fun d => Z.of_nat (length (pushed d)) < 2 ^ 63) (deques s).

Record sched_inv (n : nat) (s : sched_state) : Prop := {
  si_workers : length (workers s) = n;
  si_deques : Forall (reachable (ws_init worker_bits) (ws_step worker_bits)) (deques s);
  si_ok : deques_ok s;
  si_park : park_inv s;
  si_deq : deq_inv s;
  si_cons : cons_inv s
}.

Lemma notify_one_length v l l' : notify_one v l = Some l' -> length l' = length l.
Proof. intros H. by apply notify_one_wakes in H as [? _]. Qed.

Lemma notify_all_length l : length (notify_all l) = length l.
Proof. apply length_fmap. Qed.

Lemma start_pop_grows w ph s s' :
  start_pop w ph s = Some s' -> length (workers s') = length (workers s) /\ epochs s' = epochs s.
Proof.
  intros H. apply start_pop_fields in H as (-> & _ & -> & _). by rewrite length_insert.
Qed.

(** The number of workers is fixed and the epoch only advances. *)
Lemma act_grows c s s' :
  sched_act c s = Some s' ->
  length (workers s') = length (workers s) /\ (epochs s <= epochs s')%nat.
Proof.
  assert (Ht : forall w o ph t, try_act w o ph t s = Some s' ->
    length (workers s') = length (workers s) /\ (epochs s <= epochs s')%nat).
  { intros w o ph t Ha. destruct t; unfold try_act in Ha;
      try (destruct (global_pop s) as [task s1] eqn:E; apply global_pop_spec in E as (g & Ep & ->));
      act_cases Ha; rewrite ?length_insert; try (split; [done|lia]);
      match goal with H : start_pop _ _ _ = _ |- _ => apply start_pop_grows in H as [-> ->] end;
      simpl; split; (done || lia). }
  intros Ha. destruct c as [w o|h|l|v| | |]; simpl in Ha;
    try (act_cases Ha; rewrite ?notify_all_length;
         repeat match goal with H : notify_one _ _ = _ |- _ => apply notify_one_length in H end;
         split; (done || lia)).
  unfold worker_act in Ha. destruct (workers s !! w) as [pc|]; simplify_eq/=.
  destruct pc as [|ph t| |e|e|task|task| |h| |tp| |h|n next| | |];
    [..|done]; try (by eapply Ht);
    try (destruct (o_action o); simpl in Ha);
    act_cases Ha; rewrite ?length_insert, ?notify_all_length;
    repeat match goal with H : notify_one _ _ = _ |- _ => apply notify_one_length in H end;
    split; (done || lia).
Qed.

Lemma act_bounds c s s' : sched_act c s = Some s' -> sched_bounds s' -> sched_bounds s.
Proof.
  intros Ha [He Hd]. destruct (act_grows _ _ _ Ha) as [_ Hg]. split; [lia|].
  destruct (act_moves _ _ _ Ha) as [<-|(v & d & d' & Hv & E & Hs)]; [done|].
  rewrite E in Hd. apply Forall_lookup_2. intros i x Hx.
  destruct (decide (i = v)) as [->|Hne].
  - simplify_eq. apply ws_step_pushed in Hs.
    apply (Forall_lookup_1 _ _ v d') in Hd; [simpl in Hd; lia|]. apply list_lookup_insert_eq.
    by eapply lookup_lt_Some.
  - apply (Forall_lookup_1 _ _ i x Hd). by rewrite list_lookup_insert_ne.
Qed.

Lemma deques_ok_reachable s :
  Forall (reachable (ws_init worker_bits) (ws_step worker_bits)) (deques s) ->
  sched_bounds s -> deques_ok s.
Proof.
  intros Hr [_ Hb]. apply Forall_lookup_2. intros i d Hd.
  pose proof (Forall_lookup_1 _ _ _ _ Hr Hd). pose proof (Forall_lookup_1 _ _ _ _ Hb Hd) as Hbd.
  simpl in Hbd. split; [by apply ws_reachable_inv|done].
Qed.

Lemma sched_start_inv n : sched_bounds (sched_start n) -> (0 < n)%nat -> sched_inv n (sched_start n).
Proof.
  intros Hb Hn.
  assert (Hr : Forall (reachable (ws_init worker_bits) (ws_step worker_bits)) (deques (sched_start n))).
  { simpl. apply Forall_replicate. by apply reachable_init. }
  assert (Hcat : forall (A : Type) (f : A -> list Z) x, f x = [] -> concat (f <$> replicate n x) = []).
  { intros A f x E. rewrite fmap_replicate, E. clear. induction n; simpl; done. }
  split; try done.
  - apply length_replicate.
  - by apply deques_ok_reachable.
  - split; simpl; try done.
    + clear. induction n; [done|]. simpl. done.
    + by apply Forall_replicate.
  - split; simpl; rewrite ?length_replicate; try done.
    + intros w pc d [-> _]%lookup_replicate [-> _]%lookup_replicate. by split.
    + intros v d t [-> _]%lookup_replicate. split; [by intros []|].
      intros (pc & [-> _]%lookup_replicate & ?). done.
  - split; simpl; rewrite ?Hcat; done.
Qed.

Lemma sched_reachable_inv n s :
  Z.of_nat n < 2 ^ 32 -> (0 < n)%nat ->
  reachable (sched_init n) sched_step s -> sched_bounds s -> sched_inv n s.
Proof.
  intros Hn Hn0 Hr. pattern s. revert s Hr. apply reachable_ind.
  - intros s -> Hb. by apply sched_start_inv.
  - intros s s' _ IH [c Ha] Hb. pose proof (act_bounds _ _ _ Ha Hb) as Hb0.
    specialize (IH Hb0). destruct IH as [Hl Hr Hok Hp Hd Hc].
    assert (Hr' : Forall (reachable (ws_init worker_bits) (ws_step worker_bits)) (deques s')).
    { destruct (act_moves _ _ _ Ha) as [->|(v & d & d' & Hv & -> & Hs)]; [done|].
      apply Forall_insert; [done|]. apply (reachable_step _ _ d); [|done].
      by apply (Forall_lookup_1 _ _ _ _ Hr Hv). }
    pose proof (deques_ok_reachable _ Hr' Hb) as Hok'.
    split; try done.
    + destruct (act_grows _ _ _ Ha) as [-> _]. done.
    + eapply park_sched_act; [done| | |done|apply Hb]; rewrite Hl; done.
    + by eapply deq_sched_act.
    + by eapply cons_sched_act.
Qed.

(** Executable schedules. *)
Lemma sched_schedule_reachable n cs s :
  run_schedule sched_act cs (sched_start n) = Some s -> reachable (sched_init n) sched_step s.
Proof.
  apply run_schedule_reachable; [|by apply reachable_init]. intros c s1 s2 H. by exists c.
Qed.

(** ** The theorems *)

(** The tasks inside a deque: taken by its owner but not yet returned, or
    still stored. *)
Definition in_deque (d : ws_state) : list Z :=
  in_flight worker_bits (shared d) (owner d) ++ remaining worker_bits (shared d) (owner d).

Lemma deques_split s :
  deques_ok s ->
  concat (pushed <$> deques s) ≡ₚ concat (taken <$> deques s) ++ concat (in_deque <$> deques s).
Proof.
  unfold deques_ok. induction (deques s) as [|d l IH]; [done|]. intros H. inversion H; subst.
  csimpl. rewrite IH by done. destruct H2 as [Hi _]. rewrite (inv_perm _ _ Hi) at 1.
  unfold in_deque at 2. solve_Permutation.
Qed.

(** C2. In every interleaving of the workers, the tasks they run and external
    threads, a task given to [Enqueue] or [EnqueueBatch] is in exactly one
    place, with multiplicity: being submitted, in the global queue, in a deque,
    in the hands of one worker, or resumed. None is lost and none is resumed
    twice per submission. *)
Theorem sched_exactly_once (n : nat) (s : sched_state) :
  Z.of_nat n < 2 ^ 32 -> (0 < n)%nat ->
  reachable (sched_init n) sched_step s -> sched_bounds s ->
  submitted s ≡ₚ resumed s ++ concat (in_hand <$> workers s) ++ Global.queue_ (glob s)
                 ++ concat (in_deque <$> deques s) ++ concat (pending <$> workers s).
Proof.
  intros Hn Hn0 Hr Hb. destruct (sched_reachable_inv _ _ Hn Hn0 Hr Hb) as [_ _ Hok _ _ [H1 H2 H3]].
  rewrite H3, H1, (deques_split _ Hok).
  transitivity ((gpopped s ++ concat (taken <$> deques s)) ++ Global.queue_ (glob s) ++
     concat (in_deque <$> deques s) ++ concat (pending <$> workers s)); [solve_Permutation|].
  rewrite <- H2. solve_Permutation.
Qed.

(** The steps of worker [w] with nothing left to choice but a return. *)
Definition plain : oracle := mkOracle 0 false 0 Return.

Definition go (w : nat) (k : nat) : list sched_choice := replicate k (Go w plain).

(** An external thread submits task 64; worker 0 finds it and resumes it, and
    the task submits 72, which worker 1 steals. *)
Definition steal_schedule : list sched_choice :=
  [ExtEnqueue 64] ++ go 0 8 ++ [Go 0 (mkOracle 0 false 0 (CallEnqueue 72))] ++ go 0 6
  ++ go 1 9 ++ [Go 1 plain] ++ go 1 7.

Lemma steal_bounds s :
  run_schedule sched_act steal_schedule (sched_start 2) = Some s -> sched_bounds s.
Proof.
  intros E. vm_compute in E. injection E as <-. split; [reflexivity|].
  repeat (apply Forall_cons; split; [reflexivity|]). by apply Forall_nil.
Qed.

Lemma sched_exactly_once_witness :
  exists s, run_schedule sched_act steal_schedule (sched_start 2) = Some s /\
    resumed s = [64; 72] /\
    submitted s ≡ₚ resumed s ++ concat (in_hand <$> workers s) ++ Global.queue_ (glob s)
                   ++ concat (in_deque <$> deques s) ++ concat (pending <$> workers s).
Proof.
  assert (exists s, run_schedule sched_act steal_schedule (sched_start 2) = Some s /\
    resumed s = [64; 72]) as (s & E & Hr).
  { eexists. split; vm_compute; reflexivity. }
  exists s. split; [exact E|]. split; [exact Hr|].
  exact (sched_exactly_once 2 s ltac:(lia) ltac:(lia)
    (sched_schedule_reachable 2 steal_schedule s E) (steal_bounds s E)).
Defined.

Lemma asleep_pc pc : asleep pc = true -> exists e, pc = WAsleep e.
Proof. destruct pc; try done. eauto. Qed.

Lemma all_asleep_tasks l :
  Forall (fun pc => asleep pc = true) l ->
  concat (in_hand <$> l) = [] /\ concat (pending <$> l) = [].
Proof.
  induction 1 as [|pc l Hpc _ [IH1 IH2]]; [done|]. apply asleep_pc in Hpc as [e ->]. done.
Qed.

(** The deque of a sleeping worker is empty. *)
Lemma asleep_deque n s w pc d :
  sched_inv n s -> workers s !! w = Some pc -> asleep pc = true -> deques s !! w = Some d ->
  in_deque d = [].
Proof.
  intros [_ _ _ _ Hi _] Hw [e ->]%asleep_pc Hd.
  destruct (dq_worker _ Hi _ _ _ Hw Hd) as [Ho Ht _ _]. simpl in *. unfold in_deque, remaining.
  rewrite Ho, (Ht eq_refl). simpl. by rewrite segment_nil.
Qed.

(** C1. No wake-up is lost: when every worker sleeps on the condition
    variable and no external thread still has a [notify_one] to call, then no
    task is waiting anywhere (neither in the global queue nor in a deque) and
    every task ever submitted has been resumed. *)
Theorem sched_no_lost_wakeup (n : nat) (s : sched_state) :
  Z.of_nat n < 2 ^ 32 -> (0 < n)%nat ->
  reachable (sched_init n) sched_step s -> sched_bounds s ->
  Forall (fun pc => asleep pc = true) (workers s) -> ext_notify s = O ->
  Global.queue_ (glob s) = [] /\ Forall (fun d => in_deque d = []) (deques s) /\
  submitted s ≡ₚ resumed s.
Proof.
  intros Hn Hn0 Hr Hb Hall He. pose proof (sched_reachable_inv _ _ Hn Hn0 Hr Hb) as Hi.
  pose proof (inv_awake _ (si_park _ _ Hi) Hall He) as Hq.
  assert (Hd : Forall (fun d => in_deque d = []) (deques s)).
  { apply Forall_lookup_2. intros w d Hd.
    destruct (lookup_lt_is_Some_2 (workers s) w) as [pc Hw].
    { rewrite <- (dq_len _ (si_deq _ _ Hi)). by eapply lookup_lt_Some. }
    eapply asleep_deque; [done..| |done]. by apply (Forall_lookup_1 _ _ _ _ Hall Hw). }
  split; [done|]. split; [done|].
  destruct Hi as [_ _ Hok _ _ [H1 H2 H3]]. destruct (all_asleep_tasks _ Hall) as [Eh Ep].
  rewrite H3, H1, (deques_split _ Hok), Hq, Ep. rewrite Eh in H2.
  assert (concat (in_deque <$> deques s) = []) as ->.
  { clear -Hd. induction Hd as [|d l E _ IH]; [done|]. csimpl. by rewrite E, IH. }
  rewrite !app_nil_r in *. by symmetry.
Qed.

(** Afterwards both workers find nothing and go to sleep. *)
Definition sleep_schedule : list sched_choice := steal_schedule ++ go 0 28 ++ go 1 27.

Lemma sleep_bounds s :
  run_schedule sched_act sleep_schedule (sched_start 2) = Some s -> sched_bounds s.
Proof.
  intros E. vm_compute in E. injection E as <-. split; [reflexivity|].
  repeat (apply Forall_cons; split; [reflexivity|]). by apply Forall_nil.
Qed.

Lemma sched_no_lost_wakeup_witness :
  exists s, run_schedule sched_act sleep_schedule (sched_start 2) = Some s /\
    resumed s = [64; 72] /\ submitted s ≡ₚ resumed s.
Proof.
  assert (exists s, run_schedule sched_act sleep_schedule (sched_start 2) = Some s /\
    resumed s = [64; 72] /\ workers s = [WAsleep 0; WAsleep 0] /\ ext_notify s = O)
    as (s & E & Hr & Hw & He).
  { eexists. split; [vm_compute; reflexivity|]. split_and!; vm_compute; reflexivity. }
  exists s. split; [exact E|]. split; [exact Hr|].
  apply (sched_no_lost_wakeup 2 s ltac:(lia) ltac:(lia)
    (sched_schedule_reachable 2 sleep_schedule s E) (sleep_bounds s E));
    [rewrite Hw; by repeat constructor|exact He].
Defined.

(** C31. [Shutdown] reaches every worker: once [running_] is false, a worker
    can only still be asleep while some thread is in the middle of [Shutdown]
    (it has yet to set the stop flag or to call [notify_all]); when the calls
    of [Shutdown] have returned, nobody sleeps and [park] blocks nobody. *)
Theorem sched_shutdown_wakes (n : nat) (s : sched_state) :
  Z.of_nat n < 2 ^ 32 -> (0 < n)%nat ->
  reachable (sched_init n) sched_step s -> sched_bounds s ->
  running s = false -> ext_stop s = O -> ext_all s = O ->
  Forall (fun pc => at_stop pc = false /\ at_notify_all pc = false) (workers s) ->
  Forall (fun pc => asleep pc = false) (workers s) /\
  forall e, is_Some (Global.park e (glob s)).
Proof.
  intros Hn Hn0 Hr Hb Hrun Hes Hea Hw. pose proof (sched_reachable_inv _ _ Hn Hn0 Hr Hb) as Hi.
  assert (Hnone : forall P, (P = at_stop \/ P = at_notify_all) ->
    ~ Exists (fun pc => P pc = true) (workers s)).
  { intros P HP (pc & Hin & Hpc)%Exists_exists. rewrite Forall_forall in Hw.
    destruct (Hw _ Hin) as [H1 H2]. destruct HP as [-> | ->]; congruence. }
  assert (Hst : Global.stop_flag (glob s) = true).
  { destruct (inv_running _ (si_park _ _ Hi) Hrun) as [?|[?|?]]; [done|lia|].
    by destruct (Hnone at_stop (or_introl eq_refl)). }
  split.
  - apply Forall_forall. intros pc Hin. destruct (asleep pc) eqn:Ha; [|done].
    destruct (inv_stop _ (si_park _ _ Hi) Hst) as [?|?]; [|lia|].
    + apply Exists_exists. by exists pc.
    + by destruct (Hnone at_notify_all (or_intror eq_refl)).
  - intros e. unfold Global.park, Global.park_ready. by rewrite Hst.
Qed.

Definition stop_schedule : list sched_choice :=
  sleep_schedule ++ [ExtShutdown; ExtStop; ExtNotifyAll].

Lemma stop_bounds s :
  run_schedule sched_act stop_schedule (sched_start 2) = Some s -> sched_bounds s.
Proof.
  intros E. vm_compute in E. injection E as <-. split; [reflexivity|].
  repeat (apply Forall_cons; split; [reflexivity|]). by apply Forall_nil.
Qed.

Lemma sched_shutdown_wakes_witness :
  exists s, run_schedule sched_act stop_schedule (sched_start 2) = Some s /\
    workers s = [WPark 0; WPark 0] /\ is_Some (Global.park 0 (glob s)).
Proof.
  assert (exists s, run_schedule sched_act stop_schedule (sched_start 2) = Some s /\
    workers s = [WPark 0; WPark 0] /\ running s = false /\ ext_stop s = O /\ ext_all s = O)
    as (s & E & Hw & Hr & He1 & He2).
  { eexists. split; [vm_compute; reflexivity|]. split_and!; vm_compute; reflexivity. }
  exists s. split; [exact E|]. split; [exact Hw|].
  apply (sched_shutdown_wakes 2 s ltac:(lia) ltac:(lia)
    (sched_schedule_reachable 2 stop_schedule s E) (stop_bounds s E) Hr He1 He2).
  rewrite Hw. by repeat constructor.
Defined.

(** ** Every worker can go on *)

Lemma size_defined d tp :
  ws_inv worker_bits d -> Z.of_nat (length (pushed d)) < 2 ^ 63 -> 0 <= tp < 2 ^ 63 ->
  is_Some (size_gt_1 tp (bottom_ (shared d))).
Proof.
  intros Hi Hb Ht. destruct d as [q ow th pu ta]. simpl in *.
  pose proof (bottom_le_logical _ _ _ _ _ _ Hb Hi). pose proof (bottom_ge_logical _ _ _ _ _ _ Hb Hi).
  pose proof (inv_count _ _ Hi). simpl in *.
  unfold size_gt_1, ssub64. rewrite (s64_small tp) by lia.
  destruct (Z.leb_spec (- 2 ^ 63) (s64 (bottom_ q) - tp)); [|lia].
  destruct (Z.ltb_spec (s64 (bottom_ q) - tp) (2 ^ 63)); [|lia]. by eexists.
Qed.

Lemma start_pop_defined w ph s d :
  deques s !! w = Some d -> owner d = OIdle -> is_Some (start_pop w ph s).
Proof.
  intros Hd Ho. unfold start_pop. rewrite Hd. destruct d as [q ow th pu ta]. simpl in *.
  rewrite Ho. by eexists.
Qed.

Lemma owner_go_defined d :
  ws_inv worker_bits d -> owner d <> OIdle ->
  exists d' out, ws_act worker_bits OwnerGo d = Some d' /\ owner_outcome d = Some out /\
    match out with
    | Running => True
    | Pushed _ => exists h, in_push (owner d) = Some h
    | Popped _ _ => in_pop (owner d) = true
    end.
Proof.
  intros Hi Hne. destruct (proj1 (inv_accesses_defined _ _ Hi) Hne) as [[[q' ow'] o] E].
  pose proof (owner_step_call _ _ _ _ _ E) as Hc. unfold owner_outcome.
  destruct d as [q ow th pu ta]. simpl in *. rewrite E. simpl. eexists _, o.
  split; [done|]. split; [done|]. destruct o; [done|destruct Hc as (_ & h & ? & _); eauto|by apply Hc].
Qed.

Lemma thief_go_defined t d :
  ws_inv worker_bits d -> is_Some (thieves d !! t) ->
  exists d' out, ws_act worker_bits (ThiefGo t) d = Some d' /\ thief_outcome t d = Some out /\
    forall b, out <> Pushed b.
Proof.
  intros Hi [pc Hpc]. destruct (proj2 (inv_accesses_defined _ _ Hi) _ _ Hpc) as [[[q' pc'] o] E].
  destruct (thief_step_call _ _ _ _ _ E) as (_ & _ & Hn). unfold thief_outcome.
  destruct d as [q ow th pu ta]. simpl in *. rewrite Hpc. simpl. rewrite E. simpl.
  eexists _, o. done.
Qed.

Lemma try_act_defined n w ph t s :
  sched_inv n s -> workers s !! w = Some (WTry ph t) -> is_Some (try_act w plain ph t s).
Proof.
  intros Hi Hw. pose proof (si_deq _ _ Hi) as Hdq. destruct (deq_lookup _ _ _ Hdq Hw) as [d Hd].
  destruct (dq_worker _ Hdq _ _ _ Hw Hd) as [Ho _ Ha _].
  destruct (Forall_lookup_1 _ _ _ _ (si_ok _ _ Hi) Hd) as [Hinv Hb].
  assert (Htarget : forall v, 0 <= v < Z.of_nat (length (workers s)) ->
    exists dv, deques s !! Z.to_nat v = Some dv /\ ws_inv worker_bits dv /\
      Z.of_nat (length (pushed dv)) < 2 ^ 63).
  { intros v Hv. destruct (lookup_lt_is_Some_2 (deques s) (Z.to_nat v)) as [dv Hdv].
    { rewrite (dq_len _ Hdq). lia. }
    exists dv. split; [done|]. by apply (Forall_lookup_1 _ _ _ _ (si_ok _ _ Hi) Hdv). }
  destruct t; simpl in *.
  - destruct (lookup_lt_is_Some_2 (ticks s) w) as [tk ->].
    { rewrite (dq_ticks _ Hdq). by eapply lookup_lt_Some. }
    simpl. destruct (_ =? 0); [done|]. by eapply start_pop_defined.
  - destruct (global_pop s) as [task s1] eqn:E. apply global_pop_spec in E as (g & Ep & ->).
    destruct (task =? nullptr); [|done]. by eapply start_pop_defined.
  - destruct (owner_go_defined d Hinv) as (d' & out & E1 & E2 & Hout).
    { intros E. by rewrite E in Ho. }
    rewrite Hd. simpl. rewrite E2. simpl. rewrite E1. simpl.
    destruct out as [|ok|]; [done| |done]. destruct Hout as [h Hh]. by destruct (owner d).
  - by destruct (global_pop s).
  - done.
  - destruct i as [|i]; [done|]. destruct (_ =? _); [done|].
    destruct (Htarget _ Ha) as (dv & Hdv & _). rewrite Hdv. simpl.
    assert (thieves dv !! w = None) as Hth.
    { destruct (thieves dv !! w) eqn:E; [|done].
      destruct (proj1 (dq_thief _ Hdq _ _ w Hdv)) as (pc & Hpc & Hst); [by rewrite E|].
      rewrite Hw in Hpc. by simplify_eq. }
    destruct dv as [q ow th pu ta]. simpl in *. by rewrite Hth.
  - destruct (Htarget _ Ha) as (dv & Hdv & Hiv & _). rewrite Hdv. simpl.
    destruct (thief_go_defined w dv Hiv) as (d' & out & E1 & E2 & Hout).
    { apply (dq_thief _ Hdq _ _ w Hdv). eexists. split; [exact Hw|]. simpl.
      rewrite Z2Nat.id; [done|lia]. }
    rewrite E2. simpl. rewrite E1. simpl. destruct out as [|b|[] ?]; try done. by destruct (Hout b).
  - destruct (Htarget _ Ha) as (dv & Hdv & _). by rewrite Hdv.
  - destruct Ha as [Hv Htp]. destruct (Htarget _ Hv) as (dv & Hdv & Hiv & Hbv). rewrite Hdv. simpl.
    destruct (size_defined dv tp Hiv Hbv Htp) as [big ->]. done.
  - by destruct (Global.notify_one_idle (glob s)).
Qed.

Lemma notify_one_defined l : exists v l', notify_one v l = Some l'.
Proof.
  unfold notify_one. destruct (existsb asleep l) eqn:E; [|by exists O, l].
  apply existsb_exists in E as (pc & Hin & Ha). apply asleep_pc in Ha as [e ->].
  apply list_elem_of_In, list_elem_of_lookup in Hin as [v Hv]. exists v. rewrite Hv. eauto.
Qed.

(** A worker that has not left its loop can take its next step; a task that
    runs returns. *)
Lemma worker_act_defined (n : nat) (s : sched_state) (w : nat) (pc : worker_pc) :
  sched_inv n s -> workers s !! w = Some pc -> pc <> WExit ->
  exists v s', worker_act w (mkOracle 0 false v Return) s = Some s'.
Proof.
  intros Hi Hw Hne.
  pose proof (si_deq _ _ Hi) as Hdq. destruct (deq_lookup _ _ _ Hdq Hw) as [d Hd].
  destruct (dq_worker _ Hdq _ _ _ Hw Hd) as [Ho _ Ha _].
  destruct (Forall_lookup_1 _ _ _ _ (si_ok _ _ Hi) Hd) as [Hinv Hbd].
  destruct (notify_one_defined (workers s)) as (v & l & Hl).
  exists v. unfold worker_act. rewrite Hw. simpl.
  destruct pc as [|ph t| |e|e|task|task| |h| |tp| |h|k next| | |]; simpl in *; [..|done];
    try (by eexists).
  - destruct (try_act_defined n w ph t s Hi Hw) as [s' E]. destruct t; eauto.
  - destruct (Global.park e (glob s)); by eexists.
  - destruct (owner_go_defined d Hinv) as (d' & out & E1 & E2 & Hout).
    { intros E. by rewrite E in Ho. }
    rewrite Hd. simpl. rewrite E2. simpl. rewrite E1. simpl.
    destruct out; try by eexists. by destruct (owner d).
  - rewrite Hd. by eexists.
  - rewrite Hd. simpl. destruct (size_defined d tp Hinv Hbd Ha) as [big ->]. by eexists.
  - destruct (Global.notify_one_idle (glob s)). by eexists.
  - destruct (Global.push h (glob s)). by eexists.
  - destruct k; [by eexists|]. rewrite Hl. by eexists.
  - destruct (Global.stop (glob s)) as [g []]; by eexists.
Qed.

(** C15. No worker ever gets stuck, and no access it makes is undefined
    (indices stay inside the arrays, the signed size computation does not
    overflow, every victim exists): a worker that has neither left its loop nor
    sleeps on the condition variable can take its next step. *)
Theorem sched_progress (n : nat) (s : sched_state) (w : nat) (pc : worker_pc) :
  Z.of_nat n < 2 ^ 32 -> (0 < n)%nat ->
  reachable (sched_init n) sched_step s -> sched_bounds s ->
  workers s !! w = Some pc -> pc <> WExit ->
  exists o s', worker_act w o s = Some s'.
Proof.
  intros Hn Hn0 Hr Hb Hw Hne.
  destruct (worker_act_defined n s w pc (sched_reachable_inv _ _ Hn Hn0 Hr Hb) Hw Hne) as (v & s' & E). eauto.
Qed.

Lemma sched_progress_witness :
  exists s, run_schedule sched_act steal_schedule (sched_start 2) = Some s /\
    exists o s', worker_act 0 o s = Some s'.
Proof.
  assert (exists s, run_schedule sched_act steal_schedule (sched_start 2) = Some s /\
    workers s !! 0%nat = Some WTask) as (s & E & Hw).
  { eexists. split; vm_compute; reflexivity. }
  exists s. split; [exact E|].
  exact (sched_progress 2 s 0 WTask ltac:(lia) ltac:(lia)
    (sched_schedule_reachable 2 steal_schedule s E) (steal_bounds s E) Hw ltac:(discriminate)).
Defined.

(** [idle_threads_] is exact: it is the number of workers between
    [prepare_park] and the end of [park] or [cancel_park], so the unsigned
    counter never wraps below zero, and the epoch counts the advances made. *)
Theorem sched_idle_exact (n : nat) (s : sched_state) :
  Z.of_nat n < 2 ^ 32 -> (0 < n)%nat ->
  reachable (sched_init n) sched_step s -> sched_bounds s ->
  Global.idle_threads_ (glob s) = Z.of_nat (registrations (workers s)) /\
  0 <= Global.idle_threads_ (glob s) <= Z.of_nat n /\
  Global.wake_epoch_ (glob s) = Z.of_nat (epochs s).
Proof.
  intros Hn Hn0 Hr Hb. pose proof (sched_reachable_inv _ _ Hn Hn0 Hr Hb) as [Hl _ _ Hp _ _].
  rewrite (inv_idle _ Hp). pose proof (registrations_length (workers s)).
  split; [done|]. split; [lia|]. apply Hp.
Qed.

Lemma sched_idle_exact_witness :
  exists s, run_schedule sched_act sleep_schedule (sched_start 2) = Some s /\
    Global.idle_threads_ (glob s) = Z.of_nat (registrations (workers s)).
Proof.
  assert (exists s, run_schedule sched_act sleep_schedule (sched_start 2) = Some s) as (s & E).
  { eexists. vm_compute. reflexivity. }
  exists s. split; [exact E|].
  apply (sched_idle_exact 2 s ltac:(lia) ltac:(lia)
    (sched_schedule_reachable 2 sleep_schedule s E) (sleep_bounds s E)).
Defined.
