(* ===== verification/SchedulerSearch.v ===== *)
(** * The search for a task ends

    [try_get_task] of a worker (src/core/actor_scheduler.cc) makes a bounded
    number of accesses, whatever the other workers and the external threads do
    in between: [pop] and [steal] do not retry, and the loop over the victims
    runs once around. *)

From Stdlib Require Import ZArith Lia.
From stdpp Require Import base list relations gmap.
From S2P Require Import Prelude WorkStealing WorkStealingConc GlobalQueue Scheduler SchedulerConc SchedulerPark SchedulerTasks.

Local Open Scope nat_scope.

(** ** What is left to do *)

(** Accesses left in a [pop], in a [steal]. *)
Definition owner_rank (ow : owner_pc) : nat :=
  match ow with
  | PopLoadBottom => 6
  | PopStoreBottom _ => 5
  | PopLoadTop _ => 4
  | PopLoadSlot _ _ => 3
  | PopCas _ _ _ => 2
  | PopRestore _ _ => 1
  | _ => 0
  end.

Definition thief_rank (pc : thief_pc) : nat :=
  match pc with TLoadTop => 4 | TLoadBottom _ => 3 | TLoadSlot _ => 2 | TCas _ _ => 1 end.

Definition owner_of (w : nat) (s : sched_state) : owner_pc := default OIdle (owner <$> deques s !! w).

Definition thief_in (w v : nat) (s : sched_state) : option thief_pc :=
  d ← deques s !! v; thieves d !! w.

Definition try_rank (w : nat) (t : try_pc) (s : sched_state) : nat :=
  let n := length (workers s) in
  match t with
  | TryTick => 5 * n + 13
  | TryPoll => 5 * n + 12
  | TryLocal => 5 * n + 5 + owner_rank (owner_of w s)
  | TryGlobal => 5 * n + 5
  | TryPick => 5 * n + 4
  | TrySteal i _ => 5 * i + 3
  | TryStealing i v => 5 * i + 3 + from_option thief_rank 0 (thief_in w (Z.to_nat v) s)
  | TrySizeTop _ _ => 3
  | TrySizeBottom _ _ _ => 2
  | TryNotifyIdle _ => 1
  end.

Definition search_rank (w : nat) (s : sched_state) : nat :=
  match workers s !! w with Some (WTry _ t) => try_rank w t s | _ => 0 end.

Definition searching (w : nat) (s : sched_state) : bool :=
  match workers s !! w with Some (WTry _ _) => true | _ => false end.

Lemma searching_rank w s : searching w s = true -> 0 < search_rank w s.
Proof.
  unfold searching, search_rank. destruct (workers s !! w) as [pc|]; [|done].
  destruct pc; try done. intros _. destruct t; simpl; lia.
Qed.

(** ** Steps of others *)

Lemma ws_act_other a d d' u v w :
  ws_act worker_bits a d = Some d' -> acts_for u v a -> u <> w ->
  (v = w -> owner d' = owner d) /\ thieves d' !! w = thieves d !! w.
Proof.
  intros Ha Hf Hne. destruct d as [q ow th pu ta], a as [h| |t| |t]; simpl in *; act_cases Ha;
    split; try done; try (intros ->; done); try (by apply lookup_insert_ne).
  unfold update_thief. case_match; [by apply lookup_insert_ne|by apply lookup_delete_ne].
Qed.

(** Where worker [w] is in the deques depends on its own steps only. *)
Lemma moves_by_other u w s s' :
  deque_moves_by u s s' -> u <> w ->
  owner_of w s' = owner_of w s /\ forall v, thief_in w v s' = thief_in w v s.
Proof.
  unfold owner_of, thief_in. intros [->|(v & d & d' & a & Hv & -> & Ha & Hf)] Hne; [done|].
  destruct (ws_act_other a d d' u v w Ha Hf Hne) as [Ho Ht].
  pose proof (lookup_lt_Some _ _ _ Hv) as Hlt. split.
  - destruct (decide (v = w)) as [->|]; [|by rewrite list_lookup_insert_ne].
    rewrite list_lookup_insert_eq, Hv by done. simpl. by apply Ho.
  - intros v'. destruct (decide (v = v')) as [<-|]; [|by rewrite list_lookup_insert_ne].
    rewrite list_lookup_insert_eq, Hv by done. done.
Qed.

Lemma start_pop_workers w ph s s' :
  start_pop w ph s = Some s' -> workers s' = <[w := WTry ph TryLocal]> (workers s).
Proof. intros H. by apply start_pop_fields in H as [-> _]. Qed.

(** A step of one worker leaves the others where they are, or wakes them. *)
Lemma notify_one_others v l l' w :
  notify_one v l = Some l' -> l' !! w = l !! w \/ l' !! w = wake <$> l !! w.
Proof.
  intros [[-> _]|(e & Hv & ->)]%notify_one_spec; [by left|].
  destruct (decide (v = w)) as [->|]; [right|left; by apply list_lookup_insert_ne].
  rewrite list_lookup_insert_eq by (by eapply lookup_lt_Some). by rewrite Hv.
Qed.

Lemma notify_all_others l w : notify_all l !! w = l !! w \/ notify_all l !! w = wake <$> l !! w.
Proof. right. apply list_lookup_fmap. Qed.

Lemma worker_act_others u o s s' w :
  worker_act u o s = Some s' -> u <> w ->
  workers s' !! w = workers s !! w \/ workers s' !! w = wake <$> workers s !! w.
Proof.
  intros Ha Hne. unfold worker_act in Ha. destruct (workers s !! u) as [pc|]; simplify_eq/=.
  destruct pc as [|ph' t'| |e|e|task|task| |h| |tp| |h|n next| | |]; [..|done];
    try (destruct t'; simpl in Ha;
         try (destruct (global_pop s) as [task s1] eqn:E; apply global_pop_spec in E as (g & Ep & ->)));
    try (destruct (o_action o); simpl in Ha);
    act_cases Ha;
    repeat match goal with
    | H : start_pop _ _ _ = _ |- _ => apply start_pop_workers in H; rewrite H
    end; simpl; rewrite ?list_lookup_insert_ne by done; auto.
  all: first [by eapply notify_one_others|by apply notify_all_others].
Qed.

Lemma act_others c w s s' :
  sched_act c s = Some s' -> (forall o, c <> Go w o) ->
  (workers s' !! w = workers s !! w \/ workers s' !! w = wake <$> workers s !! w) /\
  owner_of w s' = owner_of w s /\ forall v, thief_in w v s' = thief_in w v s.
Proof.
  intros Ha Hc. destruct c as [u o|h|l|v| | |]; simpl in Ha.
  - assert (u <> w) as Hne by (intros ->; by destruct (Hc o)).
    split; [by eapply worker_act_others|]. by eapply moves_by_other; [eapply worker_act_by|].
  - act_cases Ha; auto.
  - act_cases Ha; auto.
  - act_cases Ha. split; [by eapply notify_one_others|done].
  - act_cases Ha; auto.
  - act_cases Ha; auto.
  - act_cases Ha. split; [by apply notify_all_others|done].
Qed.

Lemma search_rank_other c w s s' :
  sched_act c s = Some s' -> (forall o, c <> Go w o) -> searching w s = true ->
  search_rank w s' = search_rank w s /\ searching w s' = true.
Proof.
  unfold searching, search_rank. destruct (workers s !! w) as [pc|] eqn:Hw; [|done]. destruct pc; try done.
  intros Ha Hc _. pose proof (proj1 (act_grows _ _ _ Ha)) as Hn.
  destruct (act_others c w s s' Ha Hc) as (Hw' & Ho & Ht). rewrite Hw in Hw'. simpl in Hw'.
  assert (workers s' !! w = Some (WTry ph t)) as -> by (by destruct Hw').
  split; [|done]. destruct t; simpl; rewrite ?Hn, ?Ho, ?Ht; done.
Qed.

(** ** Its own steps *)

Lemma owner_step_rank q ow q' ow' out :
  owner_step worker_bits q ow = Some (q', ow', out) -> in_pop ow = true ->
  (out = Running -> owner_rank ow' < owner_rank ow) /\ 0 < owner_rank ow.
Proof. destruct ow; simpl; intros H Hp; try done; act_cases H; split; (done || lia). Qed.

Lemma thief_step_rank q pc q' pc' out :
  thief_step worker_bits q pc = Some (q', pc', out) ->
  (out = Running -> from_option thief_rank 0 pc' < thief_rank pc) /\ 0 < thief_rank pc.
Proof. destruct pc; simpl; intros H; act_cases H; split; (done || lia). Qed.

(** The rank of worker [w] once it has moved to [pc]. *)
Lemma search_rank_moved w s s' pc0 pc :
  workers s !! w = Some pc0 -> workers s' = <[w := pc]> (workers s) ->
  search_rank w s' = (match pc with WTry _ t => try_rank w t s' | _ => 0 end) /\
  length (workers s') = length (workers s).
Proof.
  intros Hw E. unfold search_rank. rewrite E, list_lookup_insert_eq by (by eapply lookup_lt_Some).
  by rewrite length_insert.
Qed.

(** With its result, the worker is outside the search. *)
Lemma found_rank w s s' pc0 ph task k :
  workers s !! w = Some pc0 -> workers s' = <[w := mk_notify k (found ph task)]> (workers s) ->
  search_rank w s' = 0.
Proof.
  intros Hw E. rewrite (proj1 (search_rank_moved w s s' _ _ Hw E)).
  unfold found, not_found. destruct k; simpl; [|done]. by destruct (Z.eqb task nullptr), ph.
Qed.

(** The worker moved on inside the search; it has its result. *)
Ltac moved Hw :=
  match goal with
  | |- search_rank ?w ?s1 < _ => destruct (search_rank_moved w _ s1 _ _ Hw eq_refl) as [-> ?Hn]
  end; simpl in *.

Ltac returned Hw ph task k :=
  match goal with
  | |- search_rank ?w ?s1 < _ => rewrite (found_rank w _ s1 _ ph task k Hw eq_refl)
  end; lia.

Lemma start_pop_rank w ph s s' :
  start_pop w ph s = Some s' -> search_rank w s' <= 5 * length (workers s) + 11.
Proof.
  intros H. pose proof (start_pop_workers _ _ _ _ H) as E. unfold start_pop in H.
  destruct (deques s !! w) as [d|] eqn:Hd; simpl in H; [|done].
  destruct (ws_act worker_bits CallPop d) as [d'|] eqn:Ha; simpl in H; [|done]. injection H as <-.
  apply ws_act_call_pop in Ha as (_ & Ho & _). unfold search_rank. rewrite E.
  destruct (decide (w < length (workers s))).
  - rewrite list_lookup_insert_eq by done. simpl. unfold owner_of. simpl.
    rewrite list_lookup_insert_eq by (by eapply lookup_lt_Some). simpl. rewrite Ho, length_insert. simpl. lia.
  - rewrite (proj2 (lookup_ge_None _ _)); [lia|]. rewrite length_insert. lia.
Qed.

Lemma rank_local w o ph s s' :
  deq_inv s -> workers s !! w = Some (WTry ph TryLocal) ->
  try_act w o ph TryLocal s = Some s' -> search_rank w s' < search_rank w s.
Proof.
  intros Hi Hw Ha. destruct (deq_lookup _ _ _ Hi Hw) as [d Hd].
  pose proof (ok_owner _ _ _ (dq_worker _ Hi _ _ _ Hw Hd)) as Ho. simpl in Ho.
  unfold search_rank at 2. rewrite Hw. simpl. unfold owner_of. rewrite Hd. simpl.
  unfold try_act, owner_outcome in Ha. rewrite Hd in Ha. simpl in Ha. destruct d as [q ow th pu ta]. simpl in *.
  destruct (owner_step worker_bits q ow) as [[[q' ow'] out]|] eqn:Es; simpl in Ha; [|done].
  destruct (owner_step_rank _ _ _ _ _ Es Ho) as [Hr Hp].
  assert (Hlt := lookup_lt_Some _ _ _ Hd). destruct out as [|b|st task]; simpl in Ha; [|done|]; injection Ha as <-.
  - unfold search_rank. simpl. rewrite Hw. unfold try_rank, owner_of. simpl.
    rewrite list_lookup_insert_eq by done. simpl. specialize (Hr eq_refl). lia.
  - destruct (Z.eqb task nullptr) eqn:Et.
    + moved Hw. rewrite Hn. lia.
    + returned Hw ph task 0.
Qed.

Lemma rank_stealing w o ph i v s s' :
  deq_inv s -> workers s !! w = Some (WTry ph (TryStealing i v)) ->
  try_act w o ph (TryStealing i v) s = Some s' -> search_rank w s' < search_rank w s.
Proof.
  intros Hi Hw Ha. unfold search_rank at 2. rewrite Hw. simpl. unfold thief_in.
  unfold try_act, thief_outcome in Ha.
  destruct (deques s !! Z.to_nat v) as [d|] eqn:Hd; simpl in *; [|done]. destruct d as [q ow th pu ta]. simpl in *.
  destruct (th !! w) as [pc|] eqn:Ht; simpl in *; [|done].
  destruct (thief_step worker_bits q pc) as [[[q' pc'] out]|] eqn:Es; simpl in Ha; [|done].
  destruct (thief_step_rank _ _ _ _ _ Es) as [Hr Hp].
  assert (Hlt := lookup_lt_Some _ _ _ Hd). destruct out as [|b|st task]; simpl in Ha; [|done|].
  - injection Ha as <-. unfold search_rank. simpl. rewrite Hw. unfold try_rank, thief_in. simpl.
    rewrite list_lookup_insert_eq by done. simpl. specialize (Hr eq_refl).
    destruct pc' as [pc'|]; simpl in *; [rewrite lookup_insert_eq|rewrite lookup_delete_eq]; simpl; lia.
  - destruct st; injection Ha as <-;
      moved Hw;
      simpl; lia.
Qed.

Lemma rank_steal w o ph i v s s' :
  workers s !! w = Some (WTry ph (TrySteal i v)) ->
  try_act w o ph (TrySteal i v) s = Some s' -> search_rank w s' < search_rank w s.
Proof.
  intros Hw Ha. unfold search_rank at 2. rewrite Hw. simpl in *. destruct i as [|i].
  - injection Ha as <-. moved Hw. destruct ph; simpl; lia.
  - destruct (Z.eqb v (Z.of_nat w)).
    + injection Ha as <-. moved Hw. lia.
    + destruct (deques s !! Z.to_nat v) as [d|] eqn:Hd; simpl in Ha; [|done].
      destruct (ws_act worker_bits (CallSteal w) d) as [d'|] eqn:Ew; simpl in Ha; [|done]. injection Ha as <-.
      moved Hw. apply ws_act_call_steal in Ew as (_ & _ & Et & _). unfold thief_in. simpl.
      rewrite list_lookup_insert_eq by (by eapply lookup_lt_Some). simpl. rewrite Et, lookup_insert_eq. simpl. lia.
Qed.

Lemma rank_stolen w o ph t s s' :
  workers s !! w = Some (WTry ph t) ->
  match t with TrySizeTop _ _ | TrySizeBottom _ _ _ | TryNotifyIdle _ => True | _ => False end ->
  try_act w o ph t s = Some s' -> search_rank w s' < search_rank w s.
Proof.
  intros Hw Ht Ha. unfold search_rank at 2. rewrite Hw. destruct t; try done; simpl in *.
  - destruct (deques s !! _) as [d|]; simpl in Ha; [|done]. injection Ha as <-. moved Hw. lia.
  - destruct (deques s !! _) as [d|]; simpl in Ha; [|done].
    destruct (size_gt_1 _ _) as [[]|]; simpl in Ha; [| |done]; injection Ha as <-; [moved Hw; lia|].
    returned Hw ph task 0.
  - destruct (Global.notify_one_idle (glob s)) as [g k]. injection Ha as <-. returned Hw ph task k.
Qed.

(** Every access of the search brings its end nearer. *)
Lemma search_rank_own w o ph t s s' :
  deq_inv s -> workers s !! w = Some (WTry ph t) ->
  try_act w o ph t s = Some s' -> search_rank w s' < search_rank w s.
Proof.
  intros Hi Hw Ha. destruct t; try (by eapply rank_local); try (by eapply rank_stealing);
    try (by eapply rank_steal); try (by eapply rank_stolen);
    unfold search_rank at 2; rewrite Hw; unfold try_act in Ha; simpl in *.
  - destruct (ticks s !! w) as [tk|]; simpl in Ha; [|done]. destruct (Z.eqb _ 0).
    + injection Ha as <-. moved Hw. rewrite Hn. lia.
    + apply start_pop_rank in Ha. simpl in Ha. lia.
  - destruct (global_pop s) as [task s1] eqn:E. apply global_pop_spec in E as (g & Ep & ->).
    destruct (Z.eqb task nullptr) eqn:Et.
    + apply start_pop_rank in Ha. simpl in Ha. lia.
    + injection Ha as <-. returned Hw ph task 0.
  - destruct (global_pop s) as [task s1] eqn:E. apply global_pop_spec in E as (g & Ep & ->). injection Ha as <-.
    destruct (Z.eqb task nullptr) eqn:Et; [moved Hw; rewrite Hn; lia|returned Hw ph task 0].
  - injection Ha as <-. moved Hw. lia.
Qed.

(** ** Termination *)

(** How many of the steps are worker [w]'s. *)
Definition by_worker (w : nat) (c : sched_choice) : bool :=
  match c with Go u _ => u =? w | _ => false end.

Definition steps_of (w : nat) (cs : list sched_choice) : nat := length (filter (fun c => by_worker w c = true) cs).

Lemma run_bounds cs s s' :
  run_schedule sched_act cs s = Some s' -> sched_bounds s' -> sched_bounds s.
Proof.
  revert s. induction cs as [|c cs IH]; simpl; intros s Hr Hb; [by injection Hr as ->|].
  destruct (sched_act c s) as [s1|] eqn:E; [|done]. eapply act_bounds; [done|]. by apply IH.
Qed.

Lemma steps_of_cons w c cs : steps_of w (c :: cs) = steps_of w [c] + steps_of w cs.
Proof. unfold steps_of. by rewrite (filter_app _ [c] cs), length_app. Qed.

(** Each step of [w] lowers the rank, and no step of others raises it. *)
Lemma search_rank_step n w c s s' :
  sched_inv n s -> sched_act c s = Some s' -> searching w s = true ->
  search_rank w s' + steps_of w [c] <= search_rank w s.
Proof.
  intros Hi Ea Es. unfold steps_of. destruct (by_worker w c) eqn:Ec.
  - destruct c as [u o| | | | | |]; try done. apply Nat.eqb_eq in Ec as ->.
    rewrite filter_cons_True by (simpl; apply Nat.eqb_refl). simpl. unfold searching in Es.
    destruct (workers s !! w) as [pc|] eqn:Hw; [|done]. destruct pc; try done.
    simpl in Ea. unfold worker_act in Ea. rewrite Hw in Ea. simpl in Ea.
    pose proof (search_rank_own w o ph t s s' (si_deq _ _ Hi) Hw Ea). lia.
  - rewrite filter_cons_False by (by rewrite Ec). simpl.
    assert (forall o, c <> Go w o) as Hc by (intros o ->; simpl in Ec; by rewrite Nat.eqb_refl in Ec).
    destruct (search_rank_other c w s s' Ea Hc Es) as [-> _]. lia.
Qed.

Lemma search_ends_in n w cs s s' :
  (Z.of_nat n < 2 ^ 32)%Z -> 0 < n -> reachable (sched_init n) sched_step s ->
  run_schedule sched_act cs s = Some s' -> sched_bounds s' -> search_rank w s <= steps_of w cs ->
  exists cs1 cs2 s1, cs = cs1 ++ cs2 /\ run_schedule sched_act cs1 s = Some s1 /\
    searching w s1 = false /\ steps_of w cs1 <= search_rank w s.
Proof.
  intros Hn Hn0. revert s. induction cs as [|c cs IH]; intros s Hr Hrun Hb Hle.
  - exists [], [], s. split_and!; try done; [|unfold steps_of; simpl; lia].
    destruct (searching w s) eqn:E; [|done]. apply searching_rank in E. unfold steps_of in Hle. simpl in Hle. lia.
  - destruct (searching w s) eqn:Es.
    2: { exists [], (c :: cs), s. split_and!; try done. unfold steps_of. simpl. lia. }
    pose proof (run_bounds _ _ _ Hrun Hb) as Hb0. simpl in Hrun.
    destruct (sched_act c s) as [s2|] eqn:Ea; [|done]. simpl in Hrun.
    pose proof (search_rank_step n w c s s2 (sched_reachable_inv n s Hn Hn0 Hr Hb0) Ea Es) as Hstep.
    rewrite steps_of_cons in Hle.
    destruct (IH s2) as (cs1 & cs2 & s1 & -> & Hrun1 & Hs1 & Hle1); [|done|done|lia|].
    { apply (reachable_step _ _ s); [done|by exists c]. }
    exists (c :: cs1), cs2, s1. simpl. rewrite Ea. simpl. split_and!; try done.
    rewrite steps_of_cons. lia.
Qed.

(** ** Alone *)

Lemma bounds_insert s v d d' :
  sched_bounds s -> deques s !! v = Some d -> pushed d' = pushed d ->
  Forall (fun d => (Z.of_nat (length (pushed d)) < 2 ^ 63)%Z) (<[v := d']> (deques s)).
Proof.
  intros [_ Hb] Hd E. apply Forall_insert; [done|]. rewrite E. by apply (Forall_lookup_1 _ _ _ _ Hb Hd).
Qed.

Lemma start_pop_bounds w ph s s' : start_pop w ph s = Some s' -> sched_bounds s -> sched_bounds s'.
Proof.
  intros H Hb. unfold start_pop in H. act_cases H.
  match goal with Ha : ws_act _ _ _ = _ |- _ => apply ws_act_call_pop in Ha as (_ & _ & _ & _ & E & _) end.
  split; [apply Hb|by eapply bounds_insert].
Qed.

Lemma global_pop_bounds s task s1 : global_pop s = (task, s1) -> sched_bounds s -> sched_bounds s1.
Proof.
  intros (g & Ep & ->)%global_pop_spec Hb. split; [|apply Hb]. simpl.
  assert (Global.wake_epoch_ g = Global.wake_epoch_ (glob s)) as E.
  { unfold Global.try_pop in Ep. by destruct (Global.queue_ (glob s)); simplify_eq. }
  unfold Global.bumps. rewrite E, Z.eqb_refl, Nat.add_0_r. apply Hb.
Qed.

Lemma pop_pushes_nothing d d' out :
  ws_act worker_bits OwnerGo d = Some d' -> owner_outcome d = Some out -> (forall b, out <> Pushed b) ->
  pushed d' = pushed d.
Proof.
  intros Ha Ho Hne. destruct (ws_act_owner _ _ _ Ha Ho) as (_ & _ & -> & _).
  destruct out as [|b|]; [|by destruct (Hne b)|]; destruct (owner d); simpl; by rewrite app_nil_r.
Qed.

(** The search submits nothing. *)
Lemma search_bounds w o ph t s s' :
  try_act w o ph t s = Some s' -> (forall task, t <> TryNotifyIdle task) -> sched_bounds s -> sched_bounds s'.
Proof.
  intros Ha Ht Hb. destruct t; try (by destruct (Ht task)); unfold try_act in Ha.
  - act_cases Ha; [done|]. by eapply start_pop_bounds.
  - destruct (global_pop s) as [task s1] eqn:E. pose proof (global_pop_bounds _ _ _ E Hb).
    destruct (Z.eqb task nullptr); [by eapply start_pop_bounds|by injection Ha as <-].
  - destruct (deques s !! w) as [d|] eqn:Hd; simpl in Ha; [|done].
    destruct (owner_outcome d) as [out|] eqn:Ho; simpl in Ha; [|done].
    destruct (ws_act worker_bits OwnerGo d) as [d'|] eqn:Hw; simpl in Ha; [|done].
    assert ((forall b, out <> Pushed b) /\ epochs s' = epochs s /\ deques s' = <[w := d']> (deques s)) as (Hne & Ee & Ed)
      by (destruct out; by simplify_eq).
    unfold sched_bounds. rewrite Ee, Ed. split; [apply Hb|]. eapply bounds_insert; [done|done|]. by eapply pop_pushes_nothing.
  - destruct (global_pop s) as [task s1] eqn:E. pose proof (global_pop_bounds _ _ _ E Hb). by injection Ha as <-.
  - by injection Ha as <-.
  - act_cases Ha; try done. split; [apply Hb|]. eapply bounds_insert; [done|done|].
    by match goal with H : ws_act _ _ _ = _ |- _ => apply ws_act_call_steal in H as (_ & _ & _ & E & _) end.
  - destruct (deques s !! _) as [d|] eqn:Hd; simpl in Ha; [|done].
    destruct (thief_outcome w d) as [out|] eqn:Ho; simpl in Ha; [|done].
    destruct (ws_act worker_bits (ThiefGo w) d) as [d'|] eqn:Hw; simpl in Ha; [|done].
    destruct (ws_act_thief _ _ _ _ Hw Ho) as (_ & _ & _ & _ & _ & _ & E & _).
    assert (epochs s' = epochs s /\ deques s' = <[Z.to_nat target_id := d']> (deques s)) as (Ee & Ed)
      by (destruct out as [|b|[] ?]; by simplify_eq).
    unfold sched_bounds. rewrite Ee, Ed. split; [apply Hb|by eapply bounds_insert].
  - by act_cases Ha.
  - by act_cases Ha.
Qed.

Lemma search_alone n w s :
  (Z.of_nat n < 2 ^ 32)%Z -> 0 < n -> reachable (sched_init n) sched_step s -> sched_bounds s ->
  exists k s', run_schedule sched_act (replicate k (Go w plain)) s = Some s' /\
    k <= search_rank w s /\ searching w s' = false.
Proof.
  intros Hn Hn0. remember (search_rank w s) as r eqn:Er. revert s Er.
  induction (lt_wf r) as [r _ IH]. intros s -> Hr Hb.
  destruct (searching w s) eqn:Es; [|exists 0, s; split_and!; [done|lia|done]].
  pose proof (sched_reachable_inv n s Hn Hn0 Hr Hb) as Hi. unfold searching in Es.
  destruct (workers s !! w) as [pc|] eqn:Hw; [|done]. destruct pc; try done.
  destruct (try_act_defined n w ph t s Hi Hw) as [s2 Ha].
  assert (Ea : sched_act (Go w plain) s = Some s2) by (simpl; unfold worker_act; by rewrite Hw).
  pose proof (search_rank_own w plain ph t s s2 (si_deq _ _ Hi) Hw Ha) as Hlt.
  destruct (decide (search_rank w s2 = 0)) as [E0|Hne].
  - exists 1, s2. simpl. simpl in Ea. rewrite Ea. split_and!; [done|lia|].
    destruct (searching w s2) eqn:E2; [|done]. apply searching_rank in E2. lia.
  - destruct (IH (search_rank w s2) Hlt s2 eq_refl) as (k & s' & Hrun & Hk & Hs').
    + apply (reachable_step _ _ s); [done|by exists (Go w plain)].
    + eapply search_bounds; [done| |done]. intros task ->. unfold search_rank at 2 in Hlt.
      rewrite Hw in Hlt. simpl in Hlt. lia.
    + exists (S k), s'. split_and!; [|lia|done]. simpl. simpl in Ea. by rewrite Ea.
Qed.

(** C10. The search of a worker for a task ends: with [n] workers, [try_get_task]
    returns after at most [5 * n + 13] accesses of its own, in every
    interleaving with the other workers and the external threads (no retry
    loop, no unbounded wait), and run alone from where it is it does return. *)
Theorem search_terminates (n w : nat) (s : sched_state) (ph : phase) :
  (Z.of_nat n < 2 ^ 32)%Z -> 0 < n -> reachable (sched_init n) sched_step s -> sched_bounds s ->
  workers s !! w = Some (WTry ph TryTick) ->
  (forall cs s', run_schedule sched_act cs s = Some s' -> sched_bounds s' ->
     5 * n + 13 <= steps_of w cs ->
     exists cs1 cs2 s1, cs = cs1 ++ cs2 /\ run_schedule sched_act cs1 s = Some s1 /\
       searching w s1 = false /\ steps_of w cs1 <= 5 * n + 13) /\
  (exists k s', run_schedule sched_act (replicate k (Go w plain)) s = Some s' /\
     k <= 5 * n + 13 /\ searching w s' = false).
Proof.
  intros Hn Hn0 Hr Hb Hw.
  assert (search_rank w s = 5 * n + 13) as <-.
  { unfold search_rank. rewrite Hw. simpl. by rewrite (si_workers _ _ (sched_reachable_inv n s Hn Hn0 Hr Hb)). }
  split; [|by apply (search_alone n)]. intros cs s'. by apply (search_ends_in n).
Qed.

(** Three workers; worker 0 has nothing of its own and looks at both others. *)
Lemma search_terminates_witness :
  exists s, run_schedule sched_act [Go 0 plain] (sched_start 3) = Some s /\
    exists k s', run_schedule sched_act (replicate k (Go 0 plain)) s = Some s' /\
      k <= 28 /\ searching 0 s' = false.
Proof.
  assert (exists s, run_schedule sched_act [Go 0 plain] (sched_start 3) = Some s /\
    workers s !! 0 = Some (WTry First TryTick) /\ sched_bounds s) as (s & E & Hw & Hb).
  { eexists. split; [vm_compute; reflexivity|]. split; [reflexivity|].
    split; [vm_compute; reflexivity|]. repeat constructor. }
  exists s. split; [exact E|].
  exact (proj2 (search_terminates 3 0 s First ltac:(lia) ltac:(lia) (sched_schedule_reachable 3 _ s E) Hb Hw)).
Defined.
