(* ===== verification/SchedulerLife.v ===== *)
(** * The life of the worker threads (include/actor_scheduler.h,
      src/core/actor_scheduler.cc)

    The constructor makes the [Worker] objects and their threads and waits with
    them at a barrier; the destructor shuts down, joins the threads and frees
    the objects. In between the threads run the loop of SchedulerConc. First:
    after a shutdown the workers leave their loops. *)

From Stdlib Require Import ZArith Lia.
From stdpp Require Import base list relations gmap.
From S2P Require Import Prelude WorkStealing WorkStealingConc GlobalQueue Scheduler SchedulerConc SchedulerPark SchedulerTasks SchedulerSearch.

Local Open Scope nat_scope.

(** ** Sums over the workers *)

Lemma sum_mono {A} (f g : A -> nat) l :
  (forall x, x ∈ l -> f x <= g x) -> sum_list_with f l <= sum_list_with g l.
Proof.
  induction l as [|x l IH]; simpl; intros H; [done|].
  pose proof (H x ltac:(by left)). specialize (IH ltac:(intros; apply H; by right)). lia.
Qed.

Lemma sum_strict {A} (f g : A -> nat) l y :
  (forall x, x ∈ l -> f x <= g x) -> y ∈ l -> f y < g y -> sum_list_with f l < sum_list_with g l.
Proof.
  induction l as [|x l IH]; simpl; intros H Hy Hlt; [by apply not_elem_of_nil in Hy|].
  pose proof (H x ltac:(by left)). assert (Hl : forall z, z ∈ l -> f z <= g z) by (intros; apply H; by right).
  pose proof (sum_mono f g l Hl).
  apply elem_of_cons in Hy as [->|Hy]; [lia|]. specialize (IH Hl Hy Hlt). lia.
Qed.

(** ** How far a worker is from the end of its thread *)

Definition push_rank (ow : owner_pc) : nat :=
  match ow with
  | PushLoadBottom _ => 4
  | PushLoadTop _ _ => 3
  | PushStoreSlot _ _ => 2
  | PushStoreBottom _ _ => 1
  | _ => 0
  end.

(** Steps to the end of the loop, once [running_] is false and the tasks that
    run return: at most one more search of each phase. *)
Fixpoint pc_rank (w : nat) (s : sched_state) (pc : worker_pc) : nat :=
  let n := length (workers s) in
  match pc with
  | WExit => 0
  | WLoop => 1
  | WTask | WPark _ => 2
  | WAsleep _ | WResume _ | WNotifyAll => 3
  | WCancel _ | WStop => 4
  | WNotify k next => k + 1 + pc_rank w s next
  | WEnqNotifyIdle | WEnqGlobal _ => 5
  | WEnqSizeBottom _ => 6
  | WEnqSizeTop => 7
  | WEnqPush _ => 7 + push_rank (owner_of w s)
  | WTry (Second _) t => 7 + try_rank w t s
  | WPrepare => 5 * n + 21
  | WTry First t => 5 * n + 24 + try_rank w t s
  end.

Definition exit_rank (w : nat) (s : sched_state) : nat := from_option (pc_rank w s) 0 (workers s !! w).

Definition exit_total (s : sched_state) : nat :=
  sum_list_with (fun w => exit_rank w s) (seq 0 (length (workers s))).

(** The rank depends on where the worker is in the deques, and on nothing else. *)
Lemma pc_rank_same w s s' pc :
  length (workers s') = length (workers s) -> owner_of w s' = owner_of w s ->
  (forall v, thief_in w v s' = thief_in w v s) -> pc_rank w s' pc = pc_rank w s pc.
Proof.
  intros Hl Ho Ht. induction pc as [|ph t| |e|e|task|task| |h| |tp| |h|k next IH| | |]; simpl; rewrite ?Hl, ?Ho, ?IH; try done.
  assert (try_rank w t s' = try_rank w t s) as -> by (destruct t; simpl; by rewrite ?Hl, ?Ho, ?Ht). done.
Qed.

Lemma notified_rank w s s' k next l :
  workers s' = <[w := mk_notify k next]> l -> length l = length (workers s) -> w < length l ->
  deques s' = deques s -> exit_rank w s' = pc_rank w s (mk_notify k next).
Proof.
  intros E Hl Hw Hd. unfold exit_rank. rewrite E, list_lookup_insert_eq by done. simpl.
  apply pc_rank_same; unfold owner_of, thief_in; rewrite ?Hd; [|done..]. by rewrite E, length_insert.
Qed.

(** The worker itself. *)
Lemma exit_rank_moved w s s' pc0 pc :
  workers s !! w = Some pc0 -> workers s' = <[w := pc]> (workers s) -> exit_rank w s' = pc_rank w s' pc.
Proof.
  intros Hw E. unfold exit_rank. by rewrite E, list_lookup_insert_eq by (by eapply lookup_lt_Some).
Qed.

Ltac now_at Hw :=
  match goal with |- exit_rank ?w ?s1 < _ => rewrite (exit_rank_moved w _ s1 _ _ Hw eq_refl) end; simpl.

(** Where a search may lead in one step. *)
Lemma try_act_result w o ph t s s' pc0 :
  workers s !! w = Some pc0 -> try_act w o ph t s = Some s' ->
  workers s' = workers s \/
  exists pc, workers s' = <[w := pc]> (workers s) /\
    ((exists t', pc = WTry ph t') \/ exists k task, k <= 1 /\ pc = mk_notify k (found ph task)).
Proof.
  assert (Hf : forall ph' task, exists k task', k <= 1 /\ found ph' task = mk_notify k (found ph' task'))
    by (intros ph' task; by exists 0, task; split; [lia|]).
  assert (Hn : exists k task, k <= 1 /\ not_found ph = mk_notify k (found ph task)) by (by exists 0, nullptr; split; [lia|]).
  intros Hw Ha. destruct t; unfold try_act in Ha;
    try (destruct (global_pop s) as [task1 s1] eqn:E; apply global_pop_spec in E as (g & _ & ->));
    act_cases Ha; auto;
    try match goal with
    | H : start_pop _ _ _ = _ |- _ => apply start_pop_workers in H; rewrite H
    end; right; eexists; (split; [reflexivity|]); eauto.
  all: try (destruct_if; by eauto).
  all: right; eexists _, _; (split; [|reflexivity]).
  all: unfold Global.notify_one_idle in *; case_match; simplify_eq; lia.
Qed.

(** The step of a search brings the end of the thread nearer. *)
Lemma exit_rank_search w o ph t s s' :
  deq_inv s -> workers s !! w = Some (WTry ph t) -> try_act w o ph t s = Some s' ->
  exit_rank w s' < exit_rank w s.
Proof.
  intros Hi Hw Ha. pose proof (search_rank_own w o ph t s s' Hi Hw Ha) as Hlt.
  assert (length (workers s') = length (workers s)) as Hlen.
  { destruct (try_act_result _ _ _ _ _ _ _ Hw Ha) as [->|(pc & -> & _)]; [done|apply length_insert]. }
  assert (exit_rank w s = (match ph with First => 5 * length (workers s) + 24 | _ => 7 end) + search_rank w s) as ->.
  { unfold exit_rank, search_rank. rewrite Hw. by destruct ph. }
  destruct (try_act_result _ _ _ _ _ _ _ Hw Ha) as [E|(pc & E & [[t' ->]|(k & task & Hk & ->)])].
  - unfold exit_rank, search_rank in *. rewrite E, Hw in *. simpl in *. rewrite E in *. destruct ph; simpl in *; lia.
  - rewrite (exit_rank_moved _ _ _ _ _ Hw E). unfold search_rank in Hlt at 1.
    rewrite E, list_lookup_insert_eq in Hlt by (by eapply lookup_lt_Some). simpl in *. rewrite Hlen.
    destruct ph; lia.
  - rewrite (exit_rank_moved _ _ _ _ _ Hw E).
    assert (pc_rank w s' (found ph task) <= match ph with First => 5 * length (workers s) + 21 | _ => 4 end).
    { unfold found, not_found. destruct (Z.eqb task nullptr), ph; simpl; lia. }
    pose proof (searching_rank w s ltac:(unfold searching; by rewrite Hw)).
    destruct k as [|[]]; simpl; destruct ph; lia.
Qed.

Lemma push_step_rank q ow q' ow' out h :
  owner_step worker_bits q ow = Some (q', ow', out) -> in_push ow = Some h ->
  (out = Running -> push_rank ow' < push_rank ow) /\ 0 < push_rank ow.
Proof. destruct ow; simpl; intros H Hp; try done; act_cases H; split; (done || lia). Qed.

Lemma exit_rank_push w s s' h d d' out :
  workers s !! w = Some (WEnqPush h) -> deques s !! w = Some d -> owner_outcome d = Some out ->
  ws_act worker_bits OwnerGo d = Some d' -> in_push (owner d) = Some h ->
  match out with
  | Running => s' = with_deque w d' s
  | Pushed ok => s' = with_pc w (if ok : bool then WEnqSizeTop else WEnqGlobal h) (with_deque w d' s)
  | Popped _ _ => False
  end -> exit_rank w s' < exit_rank w s.
Proof.
  intros Hw Hd Ho Ha Hp Hs. destruct (ws_act_owner _ _ _ Ha Ho) as [Es _].
  unfold exit_rank at 2. rewrite Hw. simpl. unfold owner_of. rewrite Hd. simpl.
  destruct (push_step_rank _ _ _ _ _ _ Es Hp) as [Hr Hpos]. destruct out as [|ok|]; [| |done]; subst s'.
  - unfold exit_rank. simpl. rewrite Hw. simpl. unfold owner_of. simpl.
    rewrite list_lookup_insert_eq by (by eapply lookup_lt_Some). simpl. specialize (Hr eq_refl). lia.
  - now_at Hw. destruct ok; simpl; lia.
Qed.

(** Every step of a worker, when the scheduler is stopped. *)
Lemma exit_rank_own w o s s' :
  deq_inv s -> running s = false -> Global.stop_flag (glob s) = true -> o_action o = Return ->
  worker_act w o s = Some s' -> exit_rank w s' < exit_rank w s.
Proof.
  intros Hi Hrun Hst Hret Ha. unfold worker_act in Ha. destruct (workers s !! w) as [pc|] eqn:Hw; [|done]. simpl in Ha.
  destruct pc as [|ph t| |e|e|task|task| |h| |tp| |h|k next| | |]; [..|done]; try (by eapply exit_rank_search).
  all: unfold exit_rank at 2; rewrite Hw; simpl; rewrite ?Hrun in Ha.
  all: try (injection Ha as <-; now_at Hw; rewrite ?length_insert; lia).
  - unfold Global.park, Global.park_ready in Ha. rewrite Hst in Ha. simpl in Ha. injection Ha as <-. now_at Hw. lia.
  - injection Ha as <-. now_at Hw. destruct (o_done o); simpl; lia.
  - rewrite Hret in Ha. injection Ha as <-. now_at Hw. lia.
  - destruct (deq_lookup _ _ _ Hi Hw) as [d Hd]. pose proof (ok_owner _ _ _ (dq_worker _ Hi _ _ _ Hw Hd)) as Hp.
    simpl in Hp. rewrite Hd in Ha. simpl in Ha.
    destruct (owner_outcome d) as [out|] eqn:Ho; simpl in Ha; [|done].
    destruct (ws_act worker_bits OwnerGo d) as [d'|] eqn:Hg; simpl in Ha; [|done].
    pose proof (exit_rank_push w s s' h d d' out Hw Hd Ho Hg Hp) as H. unfold exit_rank at 2 in H. rewrite Hw in H.
    apply H. by destruct out; simplify_eq.
  - destruct (deques s !! w); simpl in Ha; [|done]. injection Ha as <-. now_at Hw. lia.
  - destruct (deques s !! w); simpl in Ha; [|done]. destruct (size_gt_1 _ _) as [[]|]; simpl in Ha; [..|done];
      injection Ha as <-; now_at Hw; lia.
  - unfold Global.notify_one_idle in Ha. destruct (Z.ltb _ _); injection Ha as <-; now_at Hw; lia.
  - unfold Global.push in Ha. destruct (Z.ltb _ _); injection Ha as <-; now_at Hw; lia.
  - pose proof (lookup_lt_Some _ _ _ Hw) as Hlt. destruct k as [|k].
    + injection Ha as <-. erewrite (notified_rank w s _ 0 next); [|done..]. simpl. lia.
    + destruct (notify_one _ _) as [l|] eqn:El; simpl in Ha; [|done]. injection Ha as <-.
      pose proof (notify_one_length _ _ _ El) as Hl.
      erewrite (notified_rank w s _ k next l); [|done..|lia|done]. destruct k; simpl; lia.
  - unfold Global.stop in Ha. destruct (Global.stop_flag _); injection Ha as <-; now_at Hw; lia.
  - pose proof (lookup_lt_Some _ _ _ Hw) as Hlt. injection Ha as <-. unfold exit_rank. simpl.
    rewrite list_lookup_insert_eq by (by rewrite notify_all_length). simpl. lia.
Qed.

(** ** The others *)

Lemma wake_rank w s pc : pc_rank w s (wake pc) <= pc_rank w s pc.
Proof. destruct pc; simpl; lia. Qed.

Lemma exit_rank_others c w s s' :
  sched_act c s = Some s' -> (forall o, c <> Go w o) -> exit_rank w s' <= exit_rank w s.
Proof.
  intros Ha Hc. pose proof (proj1 (act_grows _ _ _ Ha)) as Hl.
  destruct (act_others c w s s' Ha Hc) as (Hw & Ho & Ht).
  unfold exit_rank. destruct Hw as [-> | ->]; destruct (workers s !! w) as [pc|]; simpl; try done;
    rewrite (pc_rank_same w s s') by done; [done|apply wake_rank].
Qed.

(** ** Stopping *)

Ltac global_cases :=
  unfold global_pop, Global.push, Global.push_batch, Global.stop, Global.park, Global.prepare_park,
    Global.notify_one_idle, Global.try_pop, Global.cancel_park in *;
  repeat (case_match || simplify_eq/=).

Lemma act_stopped c s s' :
  sched_act c s = Some s' ->
  (running s = false -> running s' = false) /\
  (Global.stop_flag (glob s) = true -> Global.stop_flag (glob s') = true).
Proof.
  intros Ha. destruct c as [w o|h|l|v| | |]; simpl in Ha.
  2-7: act_cases Ha; global_cases; done.
  unfold worker_act in Ha. destruct (workers s !! w) as [pc|]; simplify_eq/=.
  destruct pc as [|ph t| |e|e|task|task| |h| |tp| |h|n next| | |]; [..|done];
    try (destruct t; simpl in Ha);
    try (destruct (o_action o); simpl in Ha);
    unfold start_pop, global_pop in Ha; act_cases Ha; global_cases; done.
Qed.

Lemma act_epochs c s s' : sched_act c s = Some s' -> epochs s' <= S (epochs s).
Proof.
  intros Ha. destruct c as [w o|h|l|v| | |]; simpl in Ha.
  2-7: act_cases Ha; try lia; unfold Global.bumps; repeat destruct_if; lia.
  unfold worker_act in Ha. destruct (workers s !! w) as [pc|]; simplify_eq/=.
  destruct pc as [|ph t| |e|e|task|task| |h| |tp| |h|n next| | |]; [..|done];
    try (destruct t; simpl in Ha;
         try (destruct (global_pop s) as [task s1] eqn:E; apply global_pop_spec in E as (g & Ep & ->)));
    try (destruct (o_action o); simpl in Ha);
    unfold start_pop in Ha; act_cases Ha; try lia;
    unfold Global.bumps; repeat destruct_if; lia.
Qed.

Lemma ws_step_pushed_le d d' : ws_step worker_bits d d' -> length (pushed d') <= S (length (pushed d)).
Proof.
  destruct 1 as [| | |q ow th pu ta q' ow' o E|]; simpl; rewrite ?length_app; try lia.
  destruct ow, o; simpl; try lia; by destruct ok; simpl; lia.
Qed.

(** The counters have room for [m] more steps. *)
Definition sched_room (m : nat) (s : sched_state) : Prop :=
  (Z.of_nat (epochs s + m) < 2 ^ 64)%Z /\
  Forall (fun d => Z.of_nat (length (pushed d) + m) < 2 ^ 63)%Z (deques s).

Lemma room_bounds m s : sched_room m s -> sched_bounds s.
Proof.
  intros [He Hd]. split; [lia|]. eapply Forall_impl; [exact Hd|]. simpl. intros. lia.
Qed.

Lemma room_step c m m' s s' : sched_act c s = Some s' -> m' < m -> sched_room m s -> sched_room m' s'.
Proof.
  intros Ha Hlt [He Hd]. split; [pose proof (act_epochs _ _ _ Ha); lia|].
  destruct (act_moves _ _ _ Ha) as [->|(v & d & d' & Hv & -> & Hs)].
  - eapply Forall_impl; [exact Hd|]. simpl. intros. lia.
  - apply Forall_insert.
    + eapply Forall_impl; [exact Hd|]. simpl. intros. lia.
    + pose proof (Forall_lookup_1 _ _ _ _ Hd Hv) as Hb. pose proof (ws_step_pushed_le _ _ Hs). simpl in *. lia.
Qed.

Definition is_go (c : sched_choice) : bool := match c with Go _ _ => true | _ => false end.

Definition worker_steps (cs : list sched_choice) : nat := length (filter (fun c => is_go c = true) cs).

(** The tasks that workers run do nothing more but return. *)
Definition tasks_return (c : sched_choice) : Prop := if c is Go _ o then o_action o = Return else True.

Definition stopped (s : sched_state) : Prop := running s = false /\ Global.stop_flag (glob s) = true.

Lemma stopped_step c s s' : sched_act c s = Some s' -> stopped s -> stopped s'.
Proof. intros Ha [Hr Hs]. destruct (act_stopped c s s' Ha). split; auto. Qed.

(** Worker steps use up the total, other steps do not raise it. *)
Lemma exit_total_step n c s s' :
  sched_inv n s -> stopped s -> tasks_return c -> sched_act c s = Some s' ->
  worker_steps [c] + exit_total s' <= exit_total s.
Proof.
  intros Hi [Hr Hs] Ht Ha. unfold exit_total. rewrite (proj1 (act_grows _ _ _ Ha)).
  assert (forall w, exit_rank w s' <= exit_rank w s) as Hle.
  { intros w. destruct (by_worker w c) eqn:Ec.
    - destruct c as [u o| | | | | |]; try done. apply Nat.eqb_eq in Ec as ->.
      apply Nat.lt_le_incl. by eapply exit_rank_own; [apply (si_deq _ _ Hi)|..].
    - apply exit_rank_others with c; [done|]. intros o ->. simpl in Ec. by rewrite Nat.eqb_refl in Ec. }
  destruct c as [w o| | | | | |]; try (apply sum_mono; auto).
  unfold worker_steps. simpl. apply (sum_strict _ _ _ w); [auto| |by eapply exit_rank_own; [apply (si_deq _ _ Hi)|..]].
  apply elem_of_seq. simpl in Ha. unfold worker_act in Ha. destruct (workers s !! w) eqn:Hw; [|done].
  apply lookup_lt_Some in Hw. lia.
Qed.

Lemma worker_steps_cons c cs : worker_steps (c :: cs) = worker_steps [c] + worker_steps cs.
Proof. unfold worker_steps. by rewrite (filter_app _ [c] cs), length_app. Qed.

Lemma stopped_steps_bounded n cs s s' :
  (Z.of_nat n < 2 ^ 32)%Z -> 0 < n -> reachable (sched_init n) sched_step s -> stopped s ->
  run_schedule sched_act cs s = Some s' -> sched_bounds s' -> Forall tasks_return cs ->
  worker_steps cs + exit_total s' <= exit_total s.
Proof.
  intros Hn Hn0. revert s. induction cs as [|c cs IH]; intros s Hr Hst Hrun Hb Hf.
  - injection Hrun as ->. done.
  - pose proof (run_bounds _ _ _ Hrun Hb) as Hb0. simpl in Hrun. apply Forall_cons in Hf as [Hc Hf].
    destruct (sched_act c s) as [s1|] eqn:Ea; [|done]. simpl in Hrun.
    pose proof (exit_total_step n c s s1 (sched_reachable_inv n s Hn Hn0 Hr Hb0) Hst Hc Ea).
    pose proof (IH s1 ltac:(by apply (reachable_step _ _ s); [|exists c]) (stopped_step _ _ _ Ea Hst) Hrun Hb Hf).
    rewrite worker_steps_cons. lia.
Qed.

Lemma pc_rank_pos w s pc : pc <> WExit -> 0 < pc_rank w s pc.
Proof. destruct pc as [|[] t| | | | | | | | | | | | | | |]; simpl; intros; try lia; done. Qed.

#[export] Instance worker_exited_dec (pc : worker_pc) : Decision (pc = WExit).
Proof. destruct pc; first [by left|by right]. Defined.

(** The workers can all be brought to their ends. *)
Lemma stopped_can_end n s :
  (Z.of_nat n < 2 ^ 32)%Z -> 0 < n -> reachable (sched_init n) sched_step s -> stopped s ->
  sched_room (exit_total s) s ->
  exists cs s', run_schedule sched_act cs s = Some s' /\ Forall tasks_return cs /\
    Forall (fun c => is_go c = true) cs /\ Forall (fun pc => pc = WExit) (workers s').
Proof.
  intros Hn Hn0. remember (exit_total s) as r eqn:Er. revert s Er.
  induction (lt_wf r) as [r _ IH]. intros s -> Hr Hst Hroom.
  destruct (decide (Forall (fun pc => pc = WExit) (workers s))) as [Hall|Hne]; [by exists [], s|].
  apply not_Forall_Exists in Hne; [|apply _]. apply Exists_exists in Hne as (pc & Hin & Hpc).
  apply list_elem_of_lookup in Hin as [w Hw].
  pose proof (sched_reachable_inv n s Hn Hn0 Hr (room_bounds _ _ Hroom)) as Hi.
  destruct (worker_act_defined n s w pc Hi Hw Hpc) as (v & s1 & Ha).
  set (c := Go w (mkOracle 0 false v Return)). assert (Ea : sched_act c s = Some s1) by done.
  pose proof (exit_total_step n c s s1 Hi Hst eq_refl Ea) as Hlt. unfold worker_steps in Hlt. simpl in Hlt.
  destruct (IH (exit_total s1) ltac:(lia) s1 eq_refl) as (cs & s' & Hrun & Hf & Hg & He).
  - by apply (reachable_step _ _ s); [|exists c].
  - by eapply stopped_step.
  - eapply room_step; [done| |done]. lia.
  - exists (c :: cs), s'. simpl. simpl in Ea. rewrite Ea. split_and!; try done; by apply Forall_cons.
Qed.

(** ** Construction and destruction *)

(** The thread that constructs and destroys the scheduler. *)
Inductive main_pc :=
  | MNew (i : nat)         (* [new (&workers_[i]) Worker(i, this)], or past the loop *)
  | MCreate (i : nat)      (* [pthread_create] *)
  | MBarrier               (* inside [pthread_barrier_wait] *)
  | MUp                    (* the constructor has returned *)
  | MStop                  (* [~ActorScheduler]: inside [Shutdown], before [stop] *)
  | MNotifyAll
  | MJoin (i : nat)        (* [pthread_join] of thread [i], or past the loop *)
  | MDrop (i : nat)        (* [workers_[i].~Worker()] *)
  | MGone.                 (* after [::operator delete(workers_)] *)

(** A worker thread: not created, before the barrier, waiting there, in its loop. *)
Inductive thread_pc := TNone | TEntry | TBarrier | TLoop.

Record life := mkLife {
  main_at : main_pc;
  threads : list thread_pc;
  objects : gset nat;        (* the [Worker] objects that are alive *)
  storage : bool;            (* [workers_] is allocated *)
  arrived : nat;             (* threads that have come to the barrier *)
  sched : sched_state
}.

Inductive life_choice := Main | Thread (w : nat) (o : oracle) | Env (c : sched_choice).

Definition with_main (m : main_pc) (s : life) : life :=
  mkLife m (threads s) (objects s) (storage s) (arrived s) (sched s).

Definition with_sched (x : sched_state) (s : life) : life :=
  mkLife (main_at s) (threads s) (objects s) (storage s) (arrived s) x.

Definition with_objects (o : gset nat) (s : life) : life :=
  mkLife (main_at s) (threads s) o (storage s) (arrived s) (sched s).

Definition with_thread (w : nat) (t : thread_pc) (k : nat) (s : life) : life :=
  mkLife (main_at s) (<[w := t]> (threads s)) (objects s) (storage s) (arrived s + k) (sched s).

Section Life.
Context (n : nat).

(** The barrier is for [thread_entries_ + 1] threads. *)
Definition barrier_open (s : life) : bool := arrived s =? n + 1.

Definition main_act (s : life) : option life :=
  match main_at s with
  | MNew i =>
      Some (if i <? n then with_main (MCreate i) (with_objects ({[ i ]} ∪ objects s) s)
            else mkLife MBarrier (threads s) (objects s) (storage s) (arrived s + 1) (sched s))
  | MCreate i => Some (with_main (MNew (S i)) (with_thread i TEntry 0 s))
  | MBarrier => if barrier_open s then Some (with_main MUp s) else None
  | MUp => x ← sched_act ExtShutdown (sched s); Some (with_main MStop (with_sched x s))
  | MStop =>
      x ← sched_act ExtStop (sched s);
      Some (with_main (if ext_all (sched s) <? ext_all x then MNotifyAll else MJoin 0) (with_sched x s))
  | MNotifyAll => x ← sched_act ExtNotifyAll (sched s); Some (with_main (MJoin 0) (with_sched x s))
  | MJoin i =>
      if i <? n then
        match workers (sched s) !! i with Some WExit => Some (with_main (MDrop i) s) | _ => None end
      else Some (mkLife MGone (threads s) (objects s) false (arrived s) (sched s))
  | MDrop i => Some (with_main (MJoin (S i)) (with_objects (objects s ∖ {[ i ]}) s))
  | MGone => None
  end.

(** [scheduler_thread] of worker [w]. *)
Definition thread_act (w : nat) (o : oracle) (s : life) : option life :=
  t ← threads s !! w;
  match t with
  | TNone => None
  | TEntry => Some (with_thread w TBarrier 1 s)
  | TBarrier => if barrier_open s then Some (with_thread w TLoop 0 s) else None
  | TLoop => x ← sched_act (Go w o) (sched s); Some (with_sched x s)
  end.

(** Calls of other threads, once [Instance()] has returned. The thread that is
    inside [~ActorScheduler] makes its own steps of [Shutdown]. *)
Definition env_ok (c : sched_choice) (s : life) : bool :=
  match main_at s with
  | MNew _ | MCreate _ | MBarrier | MGone => false
  | m =>
      match c with
      | Go _ _ => false
      | ExtStop => match m with MStop => 1 <? ext_stop (sched s) | _ => true end
      | ExtNotifyAll => match m with MNotifyAll => 1 <? ext_all (sched s) | _ => true end
      | _ => true
      end
  end.

Definition life_act (c : life_choice) (s : life) : option life :=
  match c with
  | Main => main_act s
  | Thread w o => thread_act w o s
  | Env c => if env_ok c s then x ← sched_act c (sched s); Some (with_sched x s) else None
  end.

Definition life_step (s s' : life) : Prop := exists c, life_act c s = Some s'.

(** [operator new] has returned, the first [Worker] is about to be made. *)
Definition life_start : life := mkLife (MNew 0) (replicate n TNone) ∅ true 0 (sched_start n).

Definition life_init (s : life) : Prop := s = life_start.

(** The [Worker] objects the next step of worker [w] reads or writes. *)
Definition touches (w : nat) (pc : worker_pc) : list nat :=
  match pc with
  | WTry _ t =>
      match t with
      | TrySteal (S _) v => w :: (if Z.eqb v (Z.of_nat w) then [] else [Z.to_nat v])
      | TryStealing _ v | TrySizeTop v _ | TrySizeBottom v _ _ => [w; Z.to_nat v]
      | _ => [w]
      end
  | WExit => []
  | _ => [w]
  end.

(** The first [joined] threads have been joined. *)
Definition joined (s : life) : nat :=
  match main_at s with MJoin i => i | MDrop i => S i | MGone => n | _ => 0 end.

Definition dropped (s : life) : nat :=
  match main_at s with MJoin i | MDrop i => i | MGone => n | _ => 0 end.

Definition built (s : life) : nat :=
  match main_at s with MNew i => i | MCreate i => S i | _ => n end.

Definition created (s : life) : nat :=
  match main_at s with MNew i | MCreate i => i | _ => n end.

Definition past_entry (t : thread_pc) : nat := match t with TBarrier | TLoop => 1 | _ => 0 end.

Record life_inv (s : life) : Prop := {
  li_sched : reachable (sched_init n) sched_step (sched s);
  li_threads : length (threads s) = n;
  li_main : match main_at s with MNew i => i <= n | MCreate i | MDrop i => i < n | MJoin i => i <= n | _ => True end;
  li_created i : i < n -> (threads s !! i = Some TNone <-> created s <= i);
  li_objects i : i ∈ objects s <-> dropped s <= i < built s;
  li_arrived : arrived s = sum_list_with past_entry (threads s) +
     match main_at s with MNew _ | MCreate _ => 0 | _ => 1 end;
  li_open : (exists w, threads s !! w = Some TLoop) \/
     match main_at s with MNew _ | MCreate _ | MBarrier => False | _ => True end -> arrived s = n + 1;
  li_joined i : i < joined s -> workers (sched s) !! i = Some WExit;
  li_storage : storage s = false -> main_at s = MGone;
  li_stopped : match main_at s with
               | MStop => running (sched s) = false
               | MNotifyAll | MJoin _ | MDrop _ | MGone => stopped (sched s)
               | _ => True
               end
}.

Lemma life_start_inv : life_inv life_start.
Proof.
  split; unfold created, dropped, built, joined; simpl; try lia; try done.
  - by apply reachable_init.
  - apply length_replicate.
  - intros i Hi. split; [lia|]. intros _. by apply lookup_replicate.
  - intros i. split; [by intros ?%not_elem_of_empty|lia].
  - clear. induction n; simpl; lia.
  - intros [[w [H _]%lookup_replicate]|[]]. done.
Qed.

(** A worker that has left its loop does not come back. *)
Lemma exit_stays c x x' i : sched_act c x = Some x' -> workers x !! i = Some WExit -> workers x' !! i = Some WExit.
Proof.
  intros Ha Hw. destruct (by_worker i c) eqn:Ec.
  - destruct c as [u o| | | | | |]; try done. apply Nat.eqb_eq in Ec as ->. simpl in Ha. unfold worker_act in Ha.
    rewrite Hw in Ha. done.
  - destruct (act_others c i x x' Ha) as [[-> | ->] _]; [|done|by rewrite Hw].
    intros o ->. simpl in Ec. by rewrite Nat.eqb_refl in Ec.
Qed.

Lemma inv_sched c x s : sched_act c (sched s) = Some x -> life_inv s -> life_inv (with_sched x s).
Proof.
  intros Ha []. split; try done; simpl.
  - by apply (reachable_step _ _ (sched s)); [|exists c].
  - intros i Hi. by eapply exit_stays; [|apply li_joined0].
  - destruct (main_at s); try done; try (by eapply stopped_step). by apply (act_stopped _ _ _ Ha).
Qed.

Lemma past_entry_sum l w t t' :
  l !! w = Some t ->
  sum_list_with past_entry (<[w := t']> l) + past_entry t = sum_list_with past_entry l + past_entry t'.
Proof.
  revert w. induction l as [|y l IH]; intros [|w] H; simplify_eq/=; [lia|]. specialize (IH w H). lia.
Qed.

Lemma past_entry_le l : sum_list_with past_entry l <= length l.
Proof. induction l as [|[] l IH]; simpl; lia. Qed.

Lemma inv_thread w t t' k s :
  threads s !! w = Some t -> t <> TNone -> t' <> TNone -> past_entry t' = past_entry t + k ->
  (t' = TLoop -> arrived s = n + 1) -> life_inv s -> life_inv (with_thread w t' k s).
Proof.
  intros Hw Ht Ht' Hk Hl [H1 H2 H3 H4 H5 H6 H7 H8 H9 H10]. split; simpl; try done.
  - by rewrite length_insert.
  - intros i Hi. rewrite <- H4 by done. destruct (decide (i = w)) as [->|]; [|by rewrite list_lookup_insert_ne].
    rewrite list_lookup_insert_eq by (by eapply lookup_lt_Some). rewrite Hw. split; congruence.
  - pose proof (past_entry_sum _ _ _ t' Hw). rewrite H6. simpl in *. lia.
  - intros Ho. assert (k = 0 \/ arrived s <= n) as [->|Hle].
    { destruct t, t'; simpl in *; try lia; try done; right; pose proof (past_entry_sum _ _ _ TLoop Hw);
        pose proof (past_entry_le (<[w := TLoop]> (threads s))) as Hl2; rewrite length_insert in Hl2; simpl in *;
        rewrite H6; destruct (main_at s); lia. }
    + rewrite Nat.add_0_r. destruct Ho as [[u Hu]|Ho]; [|by apply H7; right].
      apply list_lookup_insert_Some in Hu as [(_ & E & _)|[_ Hu]]; [by apply Hl|]. apply H7. eauto.
    + destruct Ho as [[u Hu]|Ho]; [|rewrite H7 in Hle; [lia|by right]].
      apply list_lookup_insert_Some in Hu as [(_ & E & _)|[_ Hu]]; [rewrite Hl in Hle; [lia|done]|].
      rewrite H7 in Hle; [lia|eauto].
Qed.

Lemma thread_step_inv w o s s' : thread_act w o s = Some s' -> life_inv s -> life_inv s'.
Proof.
  intros Ha Hi. unfold thread_act in Ha. destruct (threads s !! w) as [t|] eqn:Hw; [|done]. simpl in Ha.
  destruct t; [done|..].
  - injection Ha as <-. by eapply inv_thread.
  - destruct (barrier_open s) eqn:Hb; [|done]. injection Ha as <-. eapply inv_thread; try done.
    intros _. by apply Nat.eqb_eq.
  - destruct (worker_act w o (sched s)) as [x|] eqn:E; simpl in Ha; [|done]. injection Ha as <-.
    by apply (inv_sched (Go w o)).
Qed.

(** The main thread moves on; [Worker] objects and threads stay. *)
Lemma inv_main m s :
  life_inv s -> main_at s <> MGone ->
  created (with_main m s) = created s -> built (with_main m s) = built s -> dropped (with_main m s) = dropped s ->
  match m with MNew _ | MCreate _ | MBarrier | MGone => False | MDrop i => i < n | MJoin i => i <= n | _ => True end ->
  match main_at s with MNew _ | MCreate _ => False | _ => True end ->
  arrived s = n + 1 -> (forall i, i < joined (with_main m s) -> workers (sched s) !! i = Some WExit) ->
  match m with
  | MStop => running (sched s) = false
  | MNotifyAll | MJoin _ | MDrop _ => stopped (sched s)
  | _ => True
  end -> life_inv (with_main m s).
Proof.
  intros [H1 H2 H3 H4 H5 H6 H7 H8 H9 H10] Hg Hc Hb Hd Hm Hm' Ha Hj Hst. split; try done; simpl.
  - by destruct m.
  - intros i Hi. rewrite Hc. by apply H4.
  - intros i. rewrite Hd, Hb. apply H5.
  - rewrite H6. by destruct (main_at s), m.
  - intros Hs. by destruct (Hg (H9 Hs)).
  - by destruct m.
Qed.

Lemma inv_new i s :
  life_inv s -> main_at s = MNew i -> i < n ->
  life_inv (with_main (MCreate i) (with_objects ({[ i ]} ∪ objects s) s)).
Proof.
  intros [H1 H2 H3 H4 H5 H6 H7 H8 H9 H10] Em Hlt. split; try done; simpl.
  - intros j Hj. rewrite (H4 j Hj). unfold created. by rewrite Em.
  - intros j. rewrite elem_of_union, elem_of_singleton, H5. unfold dropped, built. rewrite Em. simpl. lia.
  - by rewrite H6, Em.
  - intros [?|[]]. apply H7. by left.
  - unfold joined. simpl. lia.
  - intros Hs. apply H9 in Hs. congruence.
Qed.

Lemma inv_create i s :
  life_inv s -> main_at s = MCreate i -> life_inv (with_main (MNew (S i)) (with_thread i TEntry 0 s)).
Proof.
  intros [H1 H2 H3 H4 H5 H6 H7 H8 H9 H10] Em. rewrite Em in H3.
  assert (threads s !! i = Some TNone) as Ht by (apply H4; [done|]; unfold created; by rewrite Em).
  split; try done; simpl.
  - by rewrite length_insert.
  - intros j Hj. unfold created. simpl. destruct (decide (j = i)) as [->|Hne].
    + rewrite list_lookup_insert_eq by lia. split; [done|lia].
    + rewrite list_lookup_insert_ne by done. rewrite (H4 j Hj). unfold created. rewrite Em. lia.
  - intros j. rewrite (H5 j). unfold dropped, built. by rewrite Em.
  - pose proof (past_entry_sum _ _ _ TEntry Ht). simpl in *. rewrite H6, Em. lia.
  - intros [[u Hu]|[]]. rewrite Nat.add_0_r. apply H7. left. exists u.
    apply list_lookup_insert_Some in Hu as [(_ & ? & _)|[_ Hu]]; done.
  - unfold joined. simpl. lia.
  - intros Hs. apply H9 in Hs. congruence.
Qed.

Lemma inv_arrive s :
  life_inv s -> main_at s = MNew n ->
  life_inv (mkLife MBarrier (threads s) (objects s) (storage s) (arrived s + 1) (sched s)).
Proof.
  intros [H1 H2 H3 H4 H5 H6 H7 H8 H9 H10] Em. split; try done; simpl.
  - intros j Hj. rewrite (H4 j Hj). unfold created. by rewrite Em.
  - intros j. rewrite (H5 j). unfold dropped, built. by rewrite Em.
  - rewrite H6, Em. lia.
  - intros [Hu|[]]. pose proof (H7 (or_introl Hu)) as E. rewrite H6, Em in E.
    pose proof (past_entry_le (threads s)). lia.
  - unfold joined. simpl. lia.
  - intros Hs. apply H9 in Hs. congruence.
Qed.

Lemma inv_drop i s :
  life_inv s -> main_at s = MDrop i -> life_inv (with_main (MJoin (S i)) (with_objects (objects s ∖ {[ i ]}) s)).
Proof.
  intros [H1 H2 H3 H4 H5 H6 H7 H8 H9 H10] Em. rewrite Em in H3. split; try done; simpl.
  - intros j Hj. rewrite (H4 j Hj). unfold created. by rewrite Em.
  - intros j. rewrite elem_of_difference, elem_of_singleton, H5. unfold dropped, built. rewrite Em. simpl. lia.
  - by rewrite H6, Em.
  - intros _. apply H7. right. by rewrite Em.
  - intros j Hj. apply H8. unfold joined in *. rewrite Em. done.
  - intros Hs. apply H9 in Hs. congruence.
  - by rewrite Em in H10.
Qed.

Lemma inv_free s :
  life_inv s -> main_at s = MJoin n ->
  life_inv (mkLife MGone (threads s) (objects s) false (arrived s) (sched s)).
Proof.
  intros [H1 H2 H3 H4 H5 H6 H7 H8 H9 H10] Em. split; try done; simpl.
  - intros j Hj. rewrite (H4 j Hj). unfold created. by rewrite Em.
  - intros j. rewrite (H5 j). unfold dropped, built. by rewrite Em.
  - by rewrite H6, Em.
  - intros _. apply H7. right. by rewrite Em.
  - intros j Hj. apply H8. unfold joined in *. rewrite Em. done.
  - by rewrite Em in H10.
Qed.

Lemma stop_stops x x' : sched_act ExtStop x = Some x' -> running x = false -> stopped x'.
Proof.
  intros Ha Hr. split; [by apply (act_stopped _ _ _ Ha)|]. simpl in Ha. unfold Global.stop in Ha.
  destruct (ext_stop x); [done|]. destruct (Global.stop_flag (glob x)) eqn:E; by injection Ha as <-.
Qed.

Lemma main_step_inv s s' : main_act s = Some s' -> life_inv s -> life_inv s'.
Proof.
  intros Ha Hi. pose proof (li_main _ Hi) as Hm. pose proof (li_open _ Hi) as Hopen.
  pose proof (li_joined _ Hi) as Hj. pose proof (li_stopped _ Hi) as Hst.
  unfold main_act in Ha. destruct (main_at s) as [i|i| | | | |i|i|] eqn:Em; [..|done].
  - destruct (Nat.ltb_spec i n); injection Ha as <-; [by apply inv_new|]. apply inv_arrive; [done|]. rewrite Em. f_equal. lia.
  - injection Ha as <-. by apply inv_create.
  - destruct (barrier_open s) eqn:Hb; [|done]. injection Ha as <-. apply Nat.eqb_eq in Hb.
    apply inv_main; unfold created, built, dropped, joined; rewrite ?Em; try done. simpl. lia.
  - injection Ha as <-. apply (inv_main MStop (with_sched _ s)); [by apply (inv_sched ExtShutdown)|..];
      unfold created, built, dropped, joined; simpl; rewrite ?Em; try done; [auto|lia].
  - destruct (sched_act ExtStop (sched s)) as [x|] eqn:E; [|done]. injection Ha as <-.
    pose proof (stop_stops _ _ E Hst). apply (inv_main _ (with_sched x s)); [by apply (inv_sched ExtStop)|..]; unfold created, built, dropped, joined; simpl;
      destruct (ext_all (sched s) <? ext_all x); rewrite ?Em; try done; try lia; auto.
  - destruct (sched_act ExtNotifyAll (sched s)) as [x|] eqn:E; [|done]. injection Ha as <-.
    pose proof (stopped_step _ _ _ E Hst). apply (inv_main _ (with_sched x s)); [by apply (inv_sched ExtNotifyAll)|..]; unfold created, built, dropped, joined; simpl;
      rewrite ?Em; try done; try lia; auto.
  - destruct (Nat.ltb_spec i n).
    + destruct (workers (sched s) !! i) as [[]|] eqn:Hw; try done. injection Ha as <-.
      apply inv_main; unfold created, built, dropped; rewrite ?Em; try done; [auto|].
      intros j Hlt. unfold joined in *. rewrite Em in Hj. simpl in Hlt.
      destruct (decide (j = i)) as [->|]; [done|apply Hj; lia].
    + injection Ha as <-. apply inv_free; [done|]. rewrite Em. f_equal. lia.
  - injection Ha as <-. by apply inv_drop.
Qed.

(** ** The end of the destructor *)

Definition main_rank (m : main_pc) : nat :=
  match m with MJoin i => 2 * (n - i) + 1 | MDrop i => 2 * (n - i) | _ => 0 end.

Definition at_barrier (t : thread_pc) : nat := match t with TBarrier => 1 | _ => 0 end.

Definition life_rank (s : life) : nat :=
  exit_total (sched s) + sum_list_with at_barrier (threads s) + main_rank (main_at s).

Definition joining (m : main_pc) : bool := match m with MJoin _ | MDrop _ => true | _ => false end.

Lemma at_barrier_less l w :
  l !! w = Some TBarrier -> sum_list_with at_barrier (<[w := TLoop]> l) < sum_list_with at_barrier l.
Proof.
  revert w. induction l as [|t l IH]; intros [|w] H; simplify_eq/=; [lia|]. specialize (IH w H). lia.
Qed.

(** Once the barrier is open, every thread is past its entry. *)
Lemma threads_past_entry s w t :
  life_inv s -> arrived s = n + 1 -> threads s !! w = Some t -> t = TBarrier \/ t = TLoop.
Proof.
  intros Hi Ha Hw. pose proof (past_entry_sum _ _ _ TLoop Hw) as E.
  pose proof (past_entry_le (<[w := TLoop]> (threads s))) as Hle. rewrite length_insert, (li_threads _ Hi) in Hle.
  pose proof (li_arrived _ Hi) as Hs. rewrite Ha in Hs. destruct t; simpl in *; auto; destruct (main_at s); lia.
Qed.

Lemma joining_progress s :
  (Z.of_nat n < 2 ^ 32)%Z -> life_inv s -> joining (main_at s) = true -> sched_room (exit_total (sched s)) (sched s) ->
  exists c s', life_act c s = Some s' /\ life_rank s' < life_rank s /\
    (joining (main_at s') = true \/ main_at s' = MGone) /\ sched_room (exit_total (sched s')) (sched s').
Proof.
  intros Hn Hi Hm Hroom. pose proof (li_main _ Hi) as Hlt. pose proof (li_stopped _ Hi) as Hst.
  assert (Ha : arrived s = n + 1) by (apply (li_open _ Hi); right; by destruct (main_at s)).
  unfold life_rank. destruct (main_at s) as [| | | | | |i|i|] eqn:Em; try done.
  2: { exists Main. eexists. split; [simpl; unfold main_act; by rewrite Em|]. simpl. split; [lia|]. auto. }
  destruct (Nat.ltb_spec i n) as [Hi'|Hge].
  2: { exists Main. eexists. split.
       - simpl. unfold main_act. rewrite Em. by destruct (Nat.ltb_spec i n); [lia|].
       - simpl. split; [lia|]. auto. }
  pose proof (sched_reachable_inv n _ Hn ltac:(lia) (li_sched _ Hi) (room_bounds _ _ Hroom)) as Hinv.
  destruct (lookup_lt_is_Some_2 (workers (sched s)) i) as [pc Hpc]; [by rewrite (si_workers _ _ Hinv)|].
  destruct (decide (pc = WExit)) as [->|Hpc'].
  { exists Main. eexists. split.
    - simpl. unfold main_act. rewrite Em. destruct (Nat.ltb_spec i n); [|lia]. by rewrite Hpc.
    - simpl. split; [lia|]. auto. }
  destruct (lookup_lt_is_Some_2 (threads s) i) as [t Ht]; [by rewrite (li_threads _ Hi)|].
  destruct (threads_past_entry s i t Hi Ha Ht) as [-> | ->].
  - exists (Thread i plain). eexists. split.
    + simpl. unfold thread_act. rewrite Ht. simpl. unfold barrier_open. by rewrite Ha, Nat.eqb_refl.
    + simpl. rewrite Em. pose proof (at_barrier_less _ _ Ht). split; [simpl; lia|]. auto.
  - destruct (worker_act_defined n _ i pc Hinv Hpc Hpc') as (v & x & E).
    set (o := mkOracle 0 false v Return) in *. assert (Ea : sched_act (Go i o) (sched s) = Some x) by done.
    pose proof (exit_total_step n (Go i o) _ x Hinv Hst eq_refl Ea) as Hlt'. unfold worker_steps in Hlt'. simpl in Hlt'.
    exists (Thread i o), (with_sched x s). split.
    + simpl. unfold thread_act. rewrite Ht. simpl. simpl in Ea. by rewrite Ea.
    + simpl. rewrite Em. split; [simpl; lia|]. split; [auto|]. by eapply room_step.
Qed.

Lemma life_act_inv c s s' : life_act c s = Some s' -> life_inv s -> life_inv s'.
Proof.
  intros Ha Hi. destruct c as [|w o|c]; simpl in Ha.
  - by eapply main_step_inv.
  - by eapply thread_step_inv.
  - destruct (env_ok c s); [|done]. destruct (sched_act c (sched s)) as [x|] eqn:E; [|done].
    injection Ha as <-. by eapply inv_sched.
Qed.

Lemma life_reachable_inv s : reachable life_init life_step s -> life_inv s.
Proof.
  intros Hr. pattern s. revert s Hr. apply reachable_ind; [intros s ->; apply life_start_inv|].
  intros s s' _ Hi [c Ha]. by eapply life_act_inv.
Qed.

Lemma joining_ends s :
  (Z.of_nat n < 2 ^ 32)%Z -> life_inv s -> joining (main_at s) = true -> sched_room (exit_total (sched s)) (sched s) ->
  exists cs s', run_schedule life_act cs s = Some s' /\ main_at s' = MGone.
Proof.
  intros Hn. remember (life_rank s) as r eqn:Er. revert s Er. induction (lt_wf r) as [r _ IH].
  intros s -> Hi Hm Hroom. destruct (joining_progress s Hn Hi Hm Hroom) as (c & s1 & E & Hlt & Hm1 & Hroom1).
  destruct Hm1 as [Hm1|Hm1].
  - destruct (IH _ Hlt s1 eq_refl (life_act_inv _ _ _ E Hi) Hm1 Hroom1) as (cs & s' & Hr & Hg).
    exists (c :: cs), s'. simpl. by rewrite E.
  - exists [c], s1. simpl. by rewrite E.
Qed.

End Life.

(** Every [Worker] a worker touches is one of the [n]. *)
Lemma touches_range n x w pc v :
  sched_inv n x -> workers x !! w = Some pc -> v ∈ touches w pc -> v < n.
Proof.
  intros Hi Hw Hv. pose proof (lookup_lt_Some _ _ _ Hw) as Hlt. rewrite (si_workers _ _ Hi) in Hlt.
  destruct (deq_lookup _ _ _ (si_deq _ _ Hi) Hw) as [d Hd].
  pose proof (ok_args _ _ _ (dq_worker _ (si_deq _ _ Hi) _ _ _ Hw Hd)) as Ha. rewrite (si_workers _ _ Hi) in Ha.
  destruct pc as [|ph t| | | | | | | | | | | | | | |]; simpl in Hv; try (by apply not_elem_of_nil in Hv);
    try (apply list_elem_of_singleton in Hv as ->; done).
  destruct t as [| | | | |[|i] z| | | |]; simpl in Hv, Ha; try (apply list_elem_of_singleton in Hv as ->; done);
    apply elem_of_cons in Hv as [->|Hv]; try done; [destruct (Z.eqb z (Z.of_nat w)); [by apply not_elem_of_nil in Hv|]|..];
    apply list_elem_of_singleton in Hv as ->; lia.
Qed.

(** C11. The life of the scheduler. Whatever the order in which the thread that
    constructs and destroys it, the worker threads and the callers run: the
    state the workers share is one that the interleaving of their loops
    reaches from [sched_start] (the theorems about it apply); no worker is in
    its loop before every [Worker] has been constructed and every thread has
    come to the barrier; the constructor returns after that; a [Worker] is
    destroyed, and the array freed, only after its thread has ended, so that
    the next access of a worker is to a [Worker] in allocated memory that is
    alive or whose thread has been joined. *)
Theorem scheduler_lifecycle (n : nat) (s : life) :
  reachable (life_init n) (life_step n) s ->
  reachable (sched_init n) sched_step (sched s) /\
  (forall w, threads s !! w = Some TLoop -> arrived s = n + 1 /\ built n s = n) /\
  (main_at s = MUp -> forall w, w < n -> w ∈ objects s /\ threads s !! w <> Some TNone) /\
  (storage s = false -> forall w, w < n -> workers (sched s) !! w = Some WExit) /\
  (forall w pc v, threads s !! w = Some TLoop -> workers (sched s) !! w = Some pc -> v ∈ touches w pc ->
     sched_bounds (sched s) -> (Z.of_nat n < 2 ^ 32)%Z ->
     storage s = true /\ (v ∈ objects s \/ v < joined n s /\ v <> w)).
Proof.
  intros Hr. pose proof (life_reachable_inv n s Hr) as Hi. pose proof Hi as [H1 H2 H3 H4 H5 H6 H7 H8 H9 H10].
  assert (Hloop : forall w, threads s !! w = Some TLoop ->
    arrived s = n + 1 /\ match main_at s with MNew _ | MCreate _ => False | _ => True end).
  { intros w Hw. pose proof (H7 (or_introl (ex_intro _ w Hw))) as E. split; [done|]. rewrite E in H6.
    pose proof (past_entry_le (threads s)). destruct (main_at s); lia. }
  split; [done|]. split; [|split; [|split]].
  - intros w Hw. destruct (Hloop w Hw) as [E Hm]. split; [done|]. unfold built. by destruct (main_at s).
  - intros Em w Hw. rewrite H5, (H4 w Hw). unfold dropped, built, created. rewrite Em. lia.
  - intros Hs w Hw. apply H8. unfold joined. by rewrite (H9 Hs).
  - intros w pc v Hw Hpc Hv Hb Hn. pose proof (lookup_lt_Some _ _ _ Hw) as Hlt. rewrite H2 in Hlt.
    assert (Hne : workers (sched s) !! w <> Some WExit) by (rewrite Hpc; intros [= ->]; by apply not_elem_of_nil in Hv).
    pose proof (touches_range n _ w pc v (sched_reachable_inv n _ Hn ltac:(lia) H1 Hb) Hpc Hv) as Hvn.
    assert (dropped n s <= joined n s) by (unfold dropped, joined; destruct (main_at s); lia).
    assert (built n s = n) by (destruct (Hloop w Hw) as [_ Hm]; unfold built; by destruct (main_at s)).
    split.
    + destruct (storage s) eqn:Es; [done|]. destruct Hne. apply H8. unfold joined. by rewrite H9.
    + destruct (decide (dropped n s <= v)); [left; apply H5; lia|]. right. split; [lia|].
      intros ->. apply Hne, H8. lia.
Qed.

(** C12. The destructor returns. When it has come to joining the threads, the
    worker threads make a bounded number of steps in every interleaving in
    which the tasks they run return; there is a continuation in which all of
    them end, all are joined, every [Worker] is destroyed and the destructor
    returns (the epoch and the push counts being far from their limits). *)
Theorem destructor_returns (n i : nat) (s : life) :
  (Z.of_nat n < 2 ^ 32)%Z -> 0 < n -> reachable (life_init n) (life_step n) s -> main_at s = MJoin i ->
  (forall cs x, run_schedule sched_act cs (sched s) = Some x -> sched_bounds x -> Forall tasks_return cs ->
     worker_steps cs <= exit_total (sched s)) /\
  (sched_room (exit_total (sched s)) (sched s) ->
     exists cs s', run_schedule (life_act n) cs s = Some s' /\ main_at s' = MGone).
Proof.
  intros Hn Hn0 Hr Em. pose proof (life_reachable_inv n s Hr) as Hi. split.
  - intros cs x Hrun Hb Hf. pose proof (li_stopped _ _ Hi) as Hst. rewrite Em in Hst.
    pose proof (stopped_steps_bounded n cs (sched s) x Hn Hn0 (li_sched _ _ Hi) Hst Hrun Hb Hf). lia.
  - intros Hroom. apply joining_ends; [done..| |done]. by rewrite Em.
Qed.

(** Two workers: construction, worker 1 searching and about to look at worker
    0, shutdown. *)
Definition up_schedule : list life_choice :=
  replicate 5 Main ++ [Thread 0 plain; Thread 1 plain; Main; Thread 0 plain; Thread 1 plain].

Definition searching_schedule : list life_choice := up_schedule ++ replicate 8 (Thread 1 plain).

Definition joining_schedule : list life_choice := searching_schedule ++ replicate 3 Main.

Lemma life_schedule_reachable n cs s :
  run_schedule (life_act n) cs (life_start n) = Some s -> reachable (life_init n) (life_step n) s.
Proof.
  apply run_schedule_reachable; [intros c x x' E; by exists c|]. by apply reachable_init.
Qed.

Lemma scheduler_lifecycle_witness :
  exists s, run_schedule (life_act 2) searching_schedule (life_start 2) = Some s /\
    main_at s = MUp /\ workers (sched s) !! 1 = Some (WTry First (TrySteal 2 0)) /\
    storage s = true /\ (0 ∈ objects s \/ 0 < joined 2 s /\ 0 <> 1).
Proof.
  assert (exists s, run_schedule (life_act 2) searching_schedule (life_start 2) = Some s /\
    main_at s = MUp /\ workers (sched s) !! 1 = Some (WTry First (TrySteal 2 0)) /\
    threads s !! 1 = Some TLoop /\ sched_bounds (sched s)) as (s & E & Em & Hw & Ht & Hb).
  { eexists. split; [vm_compute; reflexivity|]. split; [reflexivity|]. split; [reflexivity|]. split; [reflexivity|].
    split; [vm_compute; reflexivity|]. repeat constructor. }
  exists s. split; [exact E|]. split; [exact Em|]. split; [exact Hw|].
  apply (proj2 (proj2 (proj2 (proj2 (scheduler_lifecycle 2 s (life_schedule_reachable 2 _ s E))))) 1 _ 0 Ht Hw);
    [simpl; right; left|exact Hb|lia].
Defined.

Lemma destructor_returns_witness :
  exists s, run_schedule (life_act 2) joining_schedule (life_start 2) = Some s /\
    exit_total (sched s) = 48 /\
    exists cs s', run_schedule (life_act 2) cs s = Some s' /\ main_at s' = MGone.
Proof.
  assert (exists s, run_schedule (life_act 2) joining_schedule (life_start 2) = Some s /\
    main_at s = MJoin 0 /\ exit_total (sched s) = 48 /\ sched_room (exit_total (sched s)) (sched s))
    as (s & E & Em & Hx & Hroom).
  { eexists. split; [vm_compute; reflexivity|]. split; [reflexivity|]. split; [vm_compute; reflexivity|].
    split; [vm_compute; reflexivity|]. repeat constructor. }
  exists s. split; [exact E|]. split; [exact Hx|].
  exact (proj2 (destructor_returns 2 0 s ltac:(lia) ltac:(lia) (life_schedule_reachable 2 _ s E) Em) Hroom).
Defined.

(** The destructor destroys [workers_[i]] as soon as thread [i] is joined, while
    the threads after it may still be searching: here worker 1 is about to
    [steal] from the [Worker] 0 that has been destroyed. *)
Theorem joined_worker_touched :
  exists s, reachable (life_init 2) (life_step 2) s /\ main_at s = MJoin 1 /\
    workers (sched s) !! 1 = Some (WTry First (TrySteal 2 0)) /\
    0 ∈ touches 1 (WTry First (TrySteal 2 0)) /\ (0 ∉ objects s).
Proof.
  assert (exists s, run_schedule (life_act 2) (joining_schedule ++ [Thread 0 plain; Main; Main]) (life_start 2) = Some s /\
    main_at s = MJoin 1 /\ workers (sched s) !! 1 = Some (WTry First (TrySteal 2 0)) /\
    bool_decide (0 ∈ objects s) = false) as (s & E & Em & Hw & Ho).
  { eexists. split; [vm_compute; reflexivity|]. split_and!; vm_compute; reflexivity. }
  exists s. split; [by apply (life_schedule_reachable 2 _ s E)|]. split; [done|]. split; [done|].
  split; [right; left|by apply bool_decide_eq_false in Ho].
Qed.
