(* ===== verification/EventBus.v ===== *)
(** * The event bus (include/event_bus.h, src/core/event_bus.cc)

    The routing table maps event types to the mailboxes subscribed to them;
    every thread publishes through a thread-local copy of the table, refreshed
    when the version counter has moved. [Publish] runs the [Send] of MailBox.v
    on every routed mailbox. *)

From Stdlib Require Import ZArith Lia.
From stdpp Require Import base list gmap relations.
From S2P Require Import Prelude Fifo MailQueue EventMessage MailBox.

Local Open Scope Z_scope.
Local Open Scope u64_scope.

(** A routing table; a mailbox is named by its address. *)
Abbreviation route_table := (gmap EventType (list Z)).

(** The shared part of [ActorEventBus], guarded by [mutex_]. *)
Record ActorEventBus := mkBus {
  event_bus_ : route_table;
  version_ : Z
}.

(** The thread-local part. *)
Record local_cache := mkCache {
  local_event_bus : route_table;
  local_version : Z
}.

Definition new_bus : ActorEventBus := mkBus ∅ 0.

Definition new_cache : local_cache := mkCache ∅ 0.

Definition Subscribe (type : EventType) (mailbox : Z) (b : ActorEventBus) : ActorEventBus :=
  mkBus (<[type := default [] (event_bus_ b !! type) ++ [mailbox]]> (event_bus_ b))
        (version_ b ⊕ 1).

(** The loop of [Unsubscribe] over the vector: at the first match the element
    is overwritten by the last one and the vector shortened; [None] when
    nothing matches. [i] is the loop index. *)
Fixpoint swap_remove (mailbox : Z) (i fuel : nat) (v : list Z) : option (list Z) :=
  match fuel with
  | O => None
  | S fuel' =>
      x ← v !! i;
      if x =? mailbox then
        back ← last v;
        Some (take (length v - 1) (<[i := back]> v))
      else swap_remove mailbox (S i) fuel' v
  end.

Definition Unsubscribe (type : EventType) (mailbox : Z) (b : ActorEventBus) : ActorEventBus :=
  match event_bus_ b !! type with
  | None => b
  | Some v =>
      match swap_remove mailbox 0 (length v) v with
      | None => b
      | Some v' =>
          mkBus (if decide (v' = []) then delete type (event_bus_ b)
                 else <[type := v']> (event_bus_ b))
                (version_ b ⊕ 1)
      end
  end.

Definition sync_route_table (b : ActorEventBus) : local_cache :=
  mkCache (event_bus_ b) (version_ b).

(** The test at the head of [Publish]. *)
Definition stale (c : local_cache) (b : ActorEventBus) : bool := local_version c <? version_ b.

(** The loop of [Publish] over the routed mailboxes. *)
Fixpoint send_all (done : Z -> bool) (p : Z) (mbs : list Z) (boxes : gmap Z MailBox)
    (h : gmap Z EventMessage) : option (gmap Z MailBox * gmap Z EventMessage * list Z) :=
  match mbs with
  | [] => Some (boxes, h, [])
  | mb :: mbs' =>
      box ← boxes !! mb;
      '(box', h1, woken) ← Send done p box h;
      '(boxes2, h2, woken2) ← send_all done p mbs' (<[mb := box']> boxes) h1;
      Some (boxes2, h2, woken ++ woken2)
  end.

(** [Publish] by a thread with cache [c]: the cache it leaves, the mailboxes,
    the message heap and the consumers it woke. *)
Definition Publish (done : Z -> bool) (p : Z) (b : ActorEventBus) (c : local_cache)
    (boxes : gmap Z MailBox) (h : gmap Z EventMessage)
    : option (local_cache * gmap Z MailBox * gmap Z EventMessage * list Z) :=
  let c' := if stale c b then sync_route_table b else c in
  m ← h !! p;
  match local_event_bus c' !! type_ m with
  | Some mbs =>
      let h1 := <[p := set_ref m (Z.of_nat (length mbs))]> h in
      '(boxes', h', woken) ← send_all done p mbs boxes h1;
      Some (c', boxes', h', woken)
  | None =>
      h' ← event_message_release p h;
      Some (c', boxes, h', [])
  end.

(** ** The routing table *)

(** No entry of a table is empty: the comment in [Publish] relies on it. *)
Definition table_wf (t : route_table) : Prop := map_Forall (fun _ v => v <> []) t.

Definition subscribers (type : EventType) (t : route_table) : list Z := default [] (t !! type).

Lemma swap_remove_spec mailbox fuel i v v' :
  (length v <= i + fuel)%nat -> swap_remove mailbox i fuel v = Some v' ->
  mailbox ∈ v /\ v ≡ₚ mailbox :: v'.
Proof.
  revert i. induction fuel as [|fuel IH]; intros i Hl; simpl; [done|].
  destruct (v !! i) as [x|] eqn:Hx; simpl; [|done].
  destruct (Z.eqb_spec x mailbox) as [->|Hne]; [|apply IH; lia].
  destruct (last v) as [back|] eqn:Hb; simpl; [|done]. intros [= <-].
  split; [by eapply list_elem_of_lookup_2|].
  apply last_Some in Hb as [w ->].
  rewrite length_app in *. simpl in *. replace (length w + 1 - 1)%nat with (length w) by lia.
  destruct (decide (i = length w)) as [->|Hi].
  - rewrite lookup_app_r, Nat.sub_diag in Hx by lia. simpl in Hx. simplify_eq.
    rewrite insert_app_r_alt by lia. rewrite take_app_length. by rewrite Permutation_app_comm.
  - assert (i < length w)%nat as Hlt.
    { apply lookup_lt_Some in Hx. rewrite length_app in Hx. simpl in Hx. lia. }
    rewrite lookup_app_l in Hx by done. rewrite insert_app_l by done.
    rewrite take_app_length' by by rewrite length_insert.
    rewrite insert_take_drop by done. rewrite <- (take_drop_middle w i mailbox) at 1 by done.
    solve_Permutation.
Qed.

Lemma swap_remove_none mailbox fuel i v :
  (length v <= i + fuel)%nat -> swap_remove mailbox i fuel v = None ->
  forall j, (i <= j)%nat -> v !! j <> Some mailbox.
Proof.
  revert i. induction fuel as [|fuel IH]; intros i Hl; simpl; intros E j Hj Hv.
  { apply lookup_lt_Some in Hv. lia. }
  destruct (v !! i) as [x|] eqn:Hx; simpl in E.
  2:{ apply lookup_ge_None in Hx. apply lookup_lt_Some in Hv. lia. }
  destruct (Z.eqb_spec x mailbox) as [->|Hne].
  - destruct (last v) eqn:Hb; [done|]. apply last_None in Hb as ->. done.
  - destruct (decide (j = i)) as [->|]; [congruence|]. eapply (IH (S i)); [|done| |done]; lia.
Qed.

Lemma subscribe_wf type mb b : table_wf (event_bus_ b) -> table_wf (event_bus_ (Subscribe type mb b)).
Proof.
  intros Hwf. apply map_Forall_insert_2; [|done]. intros E. by apply app_eq_nil in E as [_ ?].
Qed.

Lemma unsubscribe_wf type mb b :
  table_wf (event_bus_ b) -> table_wf (event_bus_ (Unsubscribe type mb b)).
Proof.
  intros Hwf. unfold Unsubscribe. destruct (event_bus_ b !! type) as [v|]; [|done].
  destruct (swap_remove _ _ _ _) as [v'|]; [|done]. simpl. destruct (decide (v' = [])).
  - by apply map_Forall_delete.
  - by apply map_Forall_insert_2.
Qed.

(** [Unsubscribe] removes exactly one subscription of the mailbox, keeps
    every other one (of this and of every other type), leaves no empty entry
    behind, and does nothing, not even move the version, when the mailbox is
    not subscribed. *)
Theorem unsubscribe_removes_one (type : EventType) (mb : Z) (b : ActorEventBus) :
  table_wf (event_bus_ b) ->
  let b' := Unsubscribe type mb b in
  table_wf (event_bus_ b') /\
  (forall type', type' <> type -> event_bus_ b' !! type' = event_bus_ b !! type') /\
  (mb ∈ subscribers type (event_bus_ b) ->
     subscribers type (event_bus_ b) ≡ₚ mb :: subscribers type (event_bus_ b') /\
     version_ b' = version_ b ⊕ 1) /\
  (mb ∉ subscribers type (event_bus_ b) -> b' = b).
Proof.
  intros Hwf b'. split; [by apply unsubscribe_wf|]. unfold b', Unsubscribe, subscribers.
  destruct (event_bus_ b !! type) as [v|] eqn:Hv; simpl.
  2:{ split; [done|]. split; [by intros ?%not_elem_of_nil|done]. }
  destruct (swap_remove mb 0 (length v) v) as [v'|] eqn:E.
  - destruct (swap_remove_spec mb (length v) 0 v v' ltac:(lia) E) as [Hin Hp]. simpl. split_and!.
    + intros type' Hne. destruct (decide (v' = [])).
      * by rewrite lookup_delete_ne.
      * by rewrite lookup_insert_ne.
    + intros _. split; [|done]. rewrite Hp at 1. f_equiv. destruct (decide (v' = [])) as [->|].
      * by rewrite lookup_delete_eq.
      * by rewrite lookup_insert_eq.
    + done.
  - split; [done|]. split; [|done]. intros [j Hj]%list_elem_of_lookup.
    by destruct (swap_remove_none mb (length v) 0 v ltac:(lia) E j ltac:(lia)).
Qed.

Lemma unsubscribe_removes_one_witness :
  subscribers kEventNone
    (event_bus_ (Unsubscribe kEventNone 8
       (mkBus {[ kEventNone := [8; 16; 24]; kEventCmdExit := [8] ]} 4))) ≡ₚ [16; 24].
Proof.
  set (b := mkBus {[ kEventNone := [8; 16; 24]; kEventCmdExit := [8] ]} 4).
  assert (table_wf (event_bus_ b)) as Hwf.
  { intros t v Hv. apply (elem_of_map_to_list (event_bus_ b) t v) in Hv. vm_compute in Hv.
    repeat (apply elem_of_cons in Hv as [[= -> ->]|Hv]; [done|]). by apply not_elem_of_nil in Hv. }
  destruct (unsubscribe_removes_one kEventNone 8 b Hwf) as (_ & _ & Hin & _).
  destruct Hin as [Hp _]; [vm_compute; by left|].
  apply (Permutation_cons_inv (a := 8)). symmetry. exact Hp.
Defined.

(** Subscribing and then unsubscribing a mailbox restores the
    subscriptions of every type, whatever else is subscribed. *)
Theorem subscribe_unsubscribe (type : EventType) (mb : Z) (b : ActorEventBus) :
  table_wf (event_bus_ b) ->
  forall type', subscribers type' (event_bus_ (Unsubscribe type mb (Subscribe type mb b)))
                ≡ₚ subscribers type' (event_bus_ b).
Proof.
  intros Hwf type'. unfold Unsubscribe. simpl. rewrite lookup_insert_eq.
  set (v := default [] (event_bus_ b !! type) ++ [mb]).
  destruct (swap_remove mb 0 (length v) v) as [v'|] eqn:E.
  - destruct (swap_remove_spec mb (length v) 0 v v' ltac:(lia) E) as [_ Hp].
    assert (Hv' : subscribers type (event_bus_ b) ≡ₚ v').
    { apply (Permutation_cons_inv (a := mb)). rewrite <- Hp. unfold v, subscribers.
      by rewrite Permutation_app_comm. }
    simpl. unfold subscribers. destruct (decide (type' = type)) as [->|Hne].
    + destruct (decide (v' = [])) as [->|].
      * rewrite lookup_delete_eq. by symmetry.
      * rewrite lookup_insert_eq. by symmetry.
    + destruct (decide (v' = [])); rewrite ?lookup_delete_ne, ?lookup_insert_ne by done; done.
  - exfalso. eapply (swap_remove_none mb (length v) 0 v ltac:(lia) E (length (default [] (event_bus_ b !! type)))); [lia|].
    unfold v. by apply list_lookup_middle.
Qed.

Lemma subscribe_unsubscribe_witness :
  subscribers kEventNone (event_bus_ (Unsubscribe kEventNone 8 (Subscribe kEventNone 8 new_bus))) ≡ₚ [].
Proof. apply (subscribe_unsubscribe kEventNone 8 new_bus). apply map_Forall_empty. Defined.

(** ** Publication *)

Section Publication.
Context {F : BoundedFifo Mail.try_enqueue Mail.try_dequeue} (done : Z -> bool).
Implicit Types (boxes : gmap Z MailBox) (h : gmap Z EventMessage).

(** A mailbox that can take [n] more calls of [Send]. *)
Definition box_ready (n : nat) (mb : MailBox) : Prop :=
  box_wf mb /\ Z.of_nat n <= fifo_budget (mailbox_ mb).

Definition boxes_ready (n : nat) (mbs : list Z) boxes : Prop :=
  forall a, a ∈ mbs -> exists mb, boxes !! a = Some mb /\ box_ready n mb.

Definition box_letters (a : Z) boxes : list Z :=
  match boxes !! a with Some mb => letters mb | None => [] end.

Definition box_full (a : Z) boxes : Prop :=
  exists mb, boxes !! a = Some mb /\ ~ box_room mb.

Lemma occurrences_0 a l : a ∉ l -> occurrences a l = 0.
Proof. rewrite occurrences_elem. pose proof (occurrences_nonneg a l). lia. Qed.

Lemma holds_tail h p l : holds h (p :: l) -> holds h l.
Proof.
  intros Hh x Hx. destruct (Hh x ltac:(by right)) as (? & m & ? & Ho). split; [done|].
  exists m. split; [done|]. simpl in Ho. destruct (p =? x); lia.
Qed.

(** The loop: [acc] are the mailboxes that took the message. Each of them
    gets it appended; the others are full; the references of the mailboxes
    that refused are given back. *)
(** Handling one mailbox leaves the others ready. *)
Lemma boxes_ready_insert a mbs boxes mb' :
  boxes_ready (length (a :: mbs)) (a :: mbs) boxes -> box_ready (length mbs) mb' ->
  boxes_ready (length mbs) mbs (<[a := mb']> boxes).
Proof.
  intros Hready Hmb' x Hx. destruct (decide (x = a)) as [->|Hne].
  - exists mb'. by rewrite lookup_insert_eq.
  - destruct (Hready x ltac:(by right)) as (mbx & Hx' & [? ?]). exists mbx. simpl in *.
    rewrite lookup_insert_ne by done. split; [done|]. split; [done|lia].
Qed.

Lemma send_all_spec p mbs boxes h :
  boxes_ready (length mbs) mbs boxes -> holds h (replicate (length mbs) p) ->
  exists boxes' h' woken acc,
    send_all done p mbs boxes h = Some (boxes', h', woken) /\
    acc `sublist_of` mbs /\
    (forall a, box_letters a boxes'
               = box_letters a boxes ++ replicate (Z.to_nat (occurrences a acc)) p) /\
    (forall a, occurrences a acc < occurrences a mbs \/ box_full a boxes -> box_full a boxes') /\
    release_all (replicate (length mbs - length acc) p) h = Some h'.
Proof.
  revert boxes h. induction mbs as [|a mbs IH]; intros boxes h Hready Hh; simpl.
  { exists boxes, h, [], []. split_and!; try done; intros a; [by rewrite app_nil_r|].
    intros [?|?]; [simpl in *; lia|done]. }
  destruct (Hready a ltac:(by left)) as (mb & Hmb & Hwf & Hbud). rewrite Hmb. simpl in *.
  pose proof (boxes_ready_insert a mbs boxes) as Hrest.
  destruct (decide (length (letters mb) < fifo_cap (mailbox_ mb))%nat) as [Hroom|Hfull].
  - destruct (send_accepted done p mb h Hwf ltac:(lia) Hroom) as (q & -> & Hq & Hv & Hbq). simpl.
    set (mb' := mkMailBox _ _ _ _ q).
    destruct (IH (<[a := mb']> boxes) h) as (boxes' & h' & woken & acc & -> & Hsub & Hl & Hf & Hrel).
    { apply Hrest; [done|]. split; [done|]. simpl. lia. }
    { by eapply holds_tail. }
    simpl. eexists _, _, _, (a :: acc). split; [done|]. split_and!; try done.
    + by apply sublist_skip.
    + intros x. rewrite Hl. simpl. unfold box_letters. destruct (Z.eqb_spec a x) as [<-|Hne].
      * rewrite lookup_insert_eq, Hmb. change (letters mb') with (fifo_view q). rewrite Hv.
        pose proof (occurrences_nonneg a acc).
        replace (Z.to_nat (1 + occurrences a acc)) with (S (Z.to_nat (occurrences a acc))) by lia.
        simpl. by rewrite <- (assoc_L (++)).
      * by rewrite lookup_insert_ne.
    + intros x [Hx|(mbx & Hx & Hfx)]; apply Hf; [left; simpl in Hx; lia|right].
      exists mbx. rewrite lookup_insert_ne; [done|]. intros ->. by simplify_eq.
  - destruct (send_dropped done p (replicate (length mbs) p) mb h Hwf Hfull Hh) as (h1 & -> & Hr1 & Hh1).
    simpl. set (mb' := mkMailBox _ _ _ _ _).
    destruct (IH (<[a := mb']> boxes) h1) as (boxes' & h' & woken & acc & -> & Hsub & Hl & Hf & Hrel).
    { apply Hrest; [done|]. split; [done|]. simpl. lia. }
    { done. }
    assert (Eb : forall x, box_letters x (<[a := mb']> boxes) = box_letters x boxes).
    { intros x. unfold box_letters. destruct (decide (x = a)) as [E|Hne]; [rewrite E|].
      - by rewrite lookup_insert_eq, Hmb.
      - by rewrite lookup_insert_ne. }
    simpl. eexists _, _, _, acc. split; [done|]. split_and!; try done.
    + by apply sublist_cons.
    + intros x. by rewrite Hl, Eb.
    + intros x Hx. apply Hf. destruct (decide (x = a)) as [E|Hne].
      * right. exists mb'. rewrite E. by rewrite lookup_insert_eq.
      * destruct Hx as [Hx|(mbx & Hx & Hfx)].
        -- left. simpl in Hx. destruct (Z.eqb_spec a x); [congruence|lia].
        -- right. exists mbx. by rewrite lookup_insert_ne.
    + apply sublist_length in Hsub. replace (S (length mbs) - length acc)%nat
        with (S (length mbs - length acc)) by lia. simpl. by rewrite Hr1.
Qed.

End Publication.

(** The cache of a thread agrees with the bus as far as its version says. *)
Definition coherent (c : local_cache) (b : ActorEventBus) : Prop :=
  local_version c <= version_ b /\
  (local_version c = version_ b -> local_event_bus c = event_bus_ b).

Lemma publish_cache_spec c b :
  coherent c b ->
  let c' := if stale c b then sync_route_table b else c in
  local_event_bus c' = event_bus_ b /\ local_version c' = version_ b.
Proof.
  intros [Hle Heq]. unfold stale. destruct (Z.ltb_spec (local_version c) (version_ b)); [done|].
  assert (local_version c = version_ b) by lia. auto.
Qed.

Lemma occurrences_replicate p n : occurrences p (replicate n p) = Z.of_nat n.
Proof. induction n; simpl; [done|]. rewrite Z.eqb_refl. lia. Qed.

Lemma occurrences_length p l : occurrences p l <= Z.of_nat (length l).
Proof. induction l; simpl; [done|]. destruct_if; lia. Qed.

Lemma holds_replicate h p m n :
  p <> 0 -> h !! p = Some m -> Z.of_nat n <= ref_ m < 2 ^ 64 -> holds h (replicate n p).
Proof.
  intros Hp Hm Hr x [-> _]%elem_of_replicate. split; [done|]. exists m. split; [done|].
  by rewrite occurrences_replicate.
Qed.

(** C23. [Publish] of a message (held once, by the publisher) delivers it to
    the mailboxes subscribed at that moment: it is appended, once per
    subscription, to every subscribed mailbox that has room; the subscribed
    mailboxes that do not get it are full; the message's count of references
    ends up as the number of copies delivered, and the message is freed when
    nobody took it. *)
Theorem publish_delivers (done : Z -> bool) (k : nat) (Hk : (1 <= k)%nat) (p : Z) (m : EventMessage)
    (b : ActorEventBus) (c : local_cache) (boxes : gmap Z MailBox) (h : gmap Z EventMessage) :
  let F := Mail.mail_queue_fifo k Hk in
  let subs := subscribers (type_ m) (event_bus_ b) in
  coherent c b -> table_wf (event_bus_ b) -> p <> 0 -> h !! p = Some m -> ref_ m = 1 ->
  Z.of_nat (length subs) < 2 ^ 64 -> boxes_ready (F := F) (length subs) subs boxes ->
  exists c' boxes' h' woken acc,
    Publish done p b c boxes h = Some (c', boxes', h', woken) /\
    local_version c' = version_ b /\
    acc `sublist_of` subs /\
    (forall a, box_letters (F := F) a boxes'
               = box_letters (F := F) a boxes ++ replicate (Z.to_nat (occurrences a acc)) p) /\
    (forall a, occurrences a acc < occurrences a subs -> box_full (F := F) a boxes') /\
    h' !! p = (if decide (acc = []) then None else Some (set_ref m (Z.of_nat (length acc)))) /\
    (forall q, q <> p -> h' !! q = h !! q).
Proof.
  intros F subs Hc Hwf Hp Hm Hr Hn Hready. unfold Publish.
  destruct (publish_cache_spec c b Hc) as [Et Ev]. simpl in *.
  set (c' := if stale c b then sync_route_table b else c) in *. rewrite Hm. simpl. rewrite Et.
  unfold subs, subscribers in *. destruct (event_bus_ b !! type_ m) as [mbs|] eqn:Es; simpl in *.
  - pose proof (Hwf _ _ Es) as Hne. set (h1 := <[p := set_ref m _]> h).
    assert (Hm1 : h1 !! p = Some (set_ref m (Z.of_nat (length mbs)))) by apply lookup_insert_eq.
    assert (Hh1 : holds h1 (replicate (length mbs) p)).
    { eapply holds_replicate; [done|done|]. simpl. lia. }
    destruct (send_all_spec (F := F) done p mbs boxes h1 Hready Hh1)
      as (boxes' & h' & woken & acc & -> & Hsub & Hl & Hf & Hrel). simpl.
    exists c', boxes', h', woken, acc. split_and!; try done; [by auto| |].
    + assert (Hh2 : holds h1 (replicate (length mbs - length acc) p)).
      { eapply holds_replicate; [done|done|]. simpl. lia. }
      destruct (release_all_spec _ _ Hh2) as (h2 & Hrel2 & _ & Hin).
      rewrite Hrel in Hrel2. simplify_eq. apply sublist_length in Hsub as Hlen.
      destruct (length mbs - length acc)%nat as [|d] eqn:Ed.
      * simpl in Hrel. simplify_eq. rewrite Hm1. assert (length acc = length mbs) as -> by lia.
        destruct (decide (acc = [])) as [->|]; [|done]. simpl in *. destruct mbs; done.
      * rewrite Hin by (simpl; by left). rewrite Hm1, occurrences_replicate.
        cbn [mbind option_bind]. unfold after_release. cbn [ref_ set_ref].
        destruct (Z.eqb_spec (Z.of_nat (S d)) (Z.of_nat (length mbs))) as [E|E].
        -- assert (acc = []) as -> by (destruct acc; [done|simpl in *; lia]).
           by rewrite decide_True.
        -- destruct (decide (acc = [])) as [->|]; [simpl in *; lia|].
           unfold set_ref. simpl. do 2 f_equal. lia.
    + intros q Hq. assert (Hh2 : holds h1 (replicate (length mbs - length acc) p)).
      { eapply holds_replicate; [done|done|]. simpl. lia. }
      destruct (release_all_spec _ _ Hh2) as (h2 & Hrel2 & Hout & _).
      rewrite Hrel in Hrel2. simplify_eq. rewrite Hout.
      * unfold h1. by rewrite lookup_insert_ne.
      * intros [? _]%elem_of_replicate. done.
  - unfold event_message_release. destruct (Z.eqb_spec p 0); [done|]. rewrite Hm. simpl.
    rewrite Hr. simpl. exists c', boxes, (delete p h), [], []. simpl. split_and!; try done.
    + intros a. by rewrite app_nil_r.
    + by rewrite lookup_delete_eq.
    + intros q Hq. by rewrite lookup_delete_ne.
Qed.

(** Mailbox 1 (two slots, one letter waiting) and mailbox 2 (full): the
    message goes to mailbox 1 only. *)
Definition full_box : MailBox :=
  mkMailBox 0 0 0 true (Mail.mkMQ 2 0 [Mail.mkSlot 1 40; Mail.mkSlot 2 48] 2 1).

Definition half_box : MailBox :=
  mkMailBox 0 0 0 true (Mail.mkMQ 1 0 [Mail.mkSlot 1 40; Mail.mkSlot 1 0] 2 1).

Lemma full_box_wf : Mail.mq_wf 1 (mailbox_ full_box).
Proof.
  split; simpl; try lia; [done|].
  intros i Hi. assert (i = 0 \/ i = 1) as [->| ->] by lia; reflexivity.
Qed.

Lemma half_box_wf : Mail.mq_wf 1 (mailbox_ half_box).
Proof.
  split; simpl; try lia; [done| |].
  - intros i Hi. assert (i = 0) as -> by lia. reflexivity.
  - intros i Hi. assert (i = 1) as -> by lia. reflexivity.
Qed.

Lemma publish_delivers_witness :
  exists c' boxes' h' woken acc,
    Publish (fun _ => false) 64 (mkBus {[ kEventNone := [1; 2] ]} 2) new_cache
      {[ 1 := half_box; 2 := full_box ]} {[ 64 := new_message 1 kEventNone 0 ]}
      = Some (c', boxes', h', woken) /\
    acc `sublist_of` [1; 2] /\
    h' !! 64 = (if decide (acc = []) then None
                else Some (set_ref (new_message 1 kEventNone 0) (Z.of_nat (length acc)))) /\
    h' !! 64 = Some (new_message 1 kEventNone 0).
Proof.
  destruct (publish_delivers (fun _ => false) 1 ltac:(lia) 64 (new_message 1 kEventNone 0)
    (mkBus {[ kEventNone := [1; 2] ]} 2) new_cache {[ 1 := half_box; 2 := full_box ]}
    {[ 64 := new_message 1 kEventNone 0 ]})
    as (c' & boxes' & h' & woken & acc & E & _ & Hsub & Hl & _ & Hh & _).
  - split; [simpl; lia|]. intros E. vm_compute in E. discriminate.
  - intros t v Hv. cbn [event_bus_] in Hv. apply lookup_singleton_Some in Hv as [_ <-]. discriminate.
  - lia.
  - reflexivity.
  - reflexivity.
  - vm_compute. reflexivity.
  - intros a Ha. vm_compute in Ha. apply elem_of_cons in Ha as [->|Ha].
    { exists half_box. split; [reflexivity|]. split; [exact half_box_wf|]. vm_compute. discriminate. }
    apply elem_of_cons in Ha as [->|Ha]; [|by apply not_elem_of_nil in Ha].
    exists full_box. split; [reflexivity|]. split; [exact full_box_wf|]. vm_compute. discriminate.
  - assert (exists x, Publish (fun _ => false) 64 (mkBus {[ kEventNone := [1; 2] ]} 2) new_cache
      {[ 1 := half_box; 2 := full_box ]} {[ 64 := new_message 1 kEventNone 0 ]} = Some x /\
      x.1.2 !! 64 = Some (new_message 1 kEventNone 0)) as (x & Ex & Hx).
    { eexists. split; vm_compute; reflexivity. }
    rewrite E in Ex. injection Ex as <-. simpl in Hx.
    exists c', boxes', h', woken, acc. split; [exact E|]. split; [exact Hsub|].
    split; [exact Hh|exact Hx].
Defined.

(** ** Threads that publish while others subscribe *)

(** Inside [Publish], after the load of [version_] (which returned [seen]):
    about to refresh the cache, or routing with it. *)
Inductive publish_pc := PubSync (seen : Z) | PubRoute (seen : Z).

(** [hist] lists the table of every version so far. *)
Record bus_state := mkBS {
  bus : ActorEventBus;
  caches : gmap nat local_cache;
  pubs : gmap nat publish_pc;
  hist : list route_table
}.

Definition cache_of (s : bus_state) (t : nat) : local_cache := default new_cache (caches s !! t).

Definition extend_hist (b b' : ActorEventBus) (l : list route_table) : list route_table :=
  if version_ b' =? version_ b then l else l ++ [event_bus_ b'].

Inductive bus_step : bus_state -> bus_state -> Prop :=
  | BsSubscribe s type mb :
      bus_step s (mkBS (Subscribe type mb (bus s)) (caches s) (pubs s)
                    (extend_hist (bus s) (Subscribe type mb (bus s)) (hist s)))
  | BsUnsubscribe s type mb :
      bus_step s (mkBS (Unsubscribe type mb (bus s)) (caches s) (pubs s)
                    (extend_hist (bus s) (Unsubscribe type mb (bus s)) (hist s)))
  | BsCheck s t :
      pubs s !! t = None ->
      bus_step s (mkBS (bus s) (caches s)
        (<[t := if stale (cache_of s t) (bus s) then PubSync (version_ (bus s))
                else PubRoute (version_ (bus s))]> (pubs s)) (hist s))
  | BsSync s t seen :
      pubs s !! t = Some (PubSync seen) ->
      bus_step s (mkBS (bus s) (<[t := sync_route_table (bus s)]> (caches s))
                    (<[t := PubRoute seen]> (pubs s)) (hist s))
  | BsRouted s t seen :
      pubs s !! t = Some (PubRoute seen) ->
      bus_step s (mkBS (bus s) (caches s) (delete t (pubs s)) (hist s)).

Definition bus_init (s : bus_state) : Prop := s = mkBS new_bus ∅ ∅ [∅].

Record bus_inv (s : bus_state) : Prop := {
  bi_version : version_ (bus s) + 1 = Z.of_nat (length (hist s));
  bi_current : hist s !! Z.to_nat (version_ (bus s)) = Some (event_bus_ (bus s));
  bi_wf : Forall table_wf (hist s);
  bi_cache : forall t, 0 <= local_version (cache_of s t) <= version_ (bus s) /\
      hist s !! Z.to_nat (local_version (cache_of s t)) = Some (local_event_bus (cache_of s t));
  bi_pub : map_Forall (fun t pc => match pc with
      | PubSync seen => seen <= version_ (bus s)
      | PubRoute seen => seen <= local_version (cache_of s t) end) (pubs s)
}.

(** A change of the table that moves the version by one. *)
Lemma bus_inv_extend s b' :
  bus_inv s -> Z.of_nat (length (hist s ++ [event_bus_ b'])) < 2 ^ 64 ->
  version_ b' = version_ (bus s) ⊕ 1 -> table_wf (event_bus_ b') ->
  bus_inv (mkBS b' (caches s) (pubs s) (hist s ++ [event_bus_ b'])).
Proof.
  intros [Hv Hcur Hwf Hc Hp] Hb Ev Ht. rewrite length_app in Hb. simpl in Hb.
  assert (version_ b' = version_ (bus s) + 1) as Ev'.
  { rewrite Ev. apply add64_small. lia. }
  split; simpl; rewrite ?length_app, ?Ev'; simpl.
  - lia.
  - replace (Z.to_nat (version_ (bus s) + 1)) with (length (hist s)) by lia.
    by apply list_lookup_middle.
  - apply Forall_app. split; [done|]. by apply Forall_singleton.
  - intros t. destruct (Hc t) as [Hr Hl]. unfold cache_of in *. simpl. split; [lia|].
    rewrite lookup_app_l; [done|]. by eapply lookup_lt_Some.
  - intros t pc Hpc. specialize (Hp t pc Hpc). unfold cache_of in *. destruct pc; simpl in *; lia.
Qed.

Lemma extend_same b l : extend_hist b b l = l.
Proof. unfold extend_hist. by rewrite Z.eqb_refl. Qed.

Lemma extend_next b b' l :
  0 <= version_ b < 2 ^ 64 - 1 -> version_ b' = version_ b ⊕ 1 ->
  extend_hist b b' l = l ++ [event_bus_ b'].
Proof.
  intros Hr E. unfold extend_hist. rewrite E, add64_small by lia.
  destruct (Z.eqb_spec (version_ b + 1) (version_ b)); [lia|done].
Qed.

Lemma unsubscribe_cases type mb b :
  Unsubscribe type mb b = b \/ version_ (Unsubscribe type mb b) = version_ b ⊕ 1.
Proof.
  unfold Unsubscribe. destruct (event_bus_ b !! type); [|by left].
  destruct (swap_remove _ _ _ _); [by right|by left].
Qed.

Lemma bus_current_wf s : bus_inv s -> table_wf (event_bus_ (bus s)).
Proof. intros Hi. by apply (Forall_lookup_1 _ _ _ _ (bi_wf _ Hi) (bi_current _ Hi)). Qed.

Lemma bus_step_inv s s' :
  Z.of_nat (length (hist s)) < 2 ^ 64 - 1 -> bus_inv s -> bus_step s s' -> bus_inv s'.
Proof.
  intros Hb Hi Hs. pose proof Hi as [Hv Hcur Hwf Hc Hp].
  assert (Hv0 : 0 <= version_ (bus s)) by (destruct (Hc O); lia). destruct Hs.
  - rewrite extend_next by (done || lia). apply bus_inv_extend; [done| |done|].
    + rewrite length_app. simpl. lia.
    + apply subscribe_wf. by apply bus_current_wf.
  - destruct (unsubscribe_cases type mb (bus s)) as [->|E].
    + rewrite extend_same. by destruct s.
    + rewrite extend_next by (done || lia). apply bus_inv_extend; [done| |done|].
      * rewrite length_app. simpl. lia.
      * apply unsubscribe_wf. by apply bus_current_wf.
  - split; simpl; try done. apply map_Forall_insert_2; [|done].
    unfold stale. destruct (Z.ltb_spec (local_version (cache_of s t)) (version_ (bus s))); [done|].
    unfold cache_of in *. simpl. lia.
  - pose proof (Hp _ _ H) as Hseen. simpl in Hseen. split; simpl; try done.
    + intros u. unfold cache_of. simpl. destruct (decide (u = t)) as [->|Hne].
      * rewrite lookup_insert_eq. simpl. split; [lia|done].
      * rewrite lookup_insert_ne by done. apply Hc.
    + apply map_Forall_insert_2.
      * unfold cache_of. simpl. by rewrite lookup_insert_eq.
      * intros u pc Hpc. specialize (Hp u pc Hpc). destruct pc; [done|]. unfold cache_of in *. simpl.
        destruct (decide (u = t)) as [->|Hne]; [by simplify_eq|]. by rewrite lookup_insert_ne.
  - split; simpl; try done. by apply map_Forall_delete.
Qed.

Lemma bus_step_hist s s' : bus_step s s' -> (length (hist s) <= length (hist s'))%nat.
Proof.
  destruct 1; simpl; try done; unfold extend_hist; destruct_if; rewrite ?length_app; lia.
Qed.

Lemma bus_init_inv s : bus_init s -> bus_inv s.
Proof.
  intros ->. split; simpl; try done.
  - apply Forall_singleton. apply map_Forall_empty.
Qed.

Lemma bus_reachable_inv s :
  reachable bus_init bus_step s -> Z.of_nat (length (hist s)) < 2 ^ 64 - 1 -> bus_inv s.
Proof.
  intros Hr. pattern s. revert s Hr. apply reachable_ind; [by intros; apply bus_init_inv|].
  intros s s' _ IH Hs Hb. pose proof (bus_step_hist _ _ Hs).
  eapply bus_step_inv; [|apply IH|done]; lia.
Qed.

(** The thread-local caches are coherent: whatever the interleaving of
    subscribers, unsubscribers and publishers, a thread's cached table is
    exactly the table of the version it recorded, and a publisher routes with
    a table at least as new as the version it loaded when [Publish] began; no
    entry it routes to is empty. *)
Theorem bus_cache_coherent (s : bus_state) (t : nat) :
  reachable bus_init bus_step s -> Z.of_nat (length (hist s)) < 2 ^ 64 - 1 ->
  coherent (cache_of s t) (bus s) /\
  hist s !! Z.to_nat (local_version (cache_of s t)) = Some (local_event_bus (cache_of s t)) /\
  table_wf (local_event_bus (cache_of s t)) /\
  (forall seen, pubs s !! t = Some (PubRoute seen) ->
     seen <= local_version (cache_of s t) <= version_ (bus s)).
Proof.
  intros Hr Hb. pose proof (bus_reachable_inv _ Hr Hb) as [Hv Hcur Hwf Hc Hp].
  destruct (Hc t) as [Hle Hl]. split_and!.
  - split; [lia|]. intros E. rewrite E in Hl. congruence.
  - done.
  - by apply (Forall_lookup_1 _ _ _ _ Hwf Hl).
  - intros seen Hs. pose proof (Hp _ _ Hs) as H. simpl in H. lia.
Qed.

Lemma bus_cache_coherent_witness :
  exists s, reachable bus_init bus_step s /\ pubs s !! 0%nat = Some (PubRoute 1) /\
    1 <= local_version (cache_of s 0) <= version_ (bus s).
Proof.
  set (b1 := Subscribe kEventNone 8 new_bus).
  set (s1 := mkBS b1 ∅ ∅ [∅; event_bus_ b1]).
  set (s2 := mkBS b1 ∅ {[ 0%nat := PubSync 1 ]} [∅; event_bus_ b1]).
  set (s3 := mkBS b1 {[ 0%nat := sync_route_table b1 ]} {[ 0%nat := PubRoute 1 ]} [∅; event_bus_ b1]).
  assert (reachable bus_init bus_step s3) as Hr.
  { apply (reachable_step _ _ s2).
    - apply (reachable_step _ _ s1).
      + apply (reachable_step _ _ (mkBS new_bus ∅ ∅ [∅])); [by apply reachable_init|].
        apply (BsSubscribe (mkBS new_bus ∅ ∅ [∅]) kEventNone 8).
      + apply (BsCheck s1 0). reflexivity.
    - apply (BsSync s2 0 1). reflexivity. }
  exists s3. split; [exact Hr|]. split; [reflexivity|].
  apply (bus_cache_coherent s3 0 Hr ltac:(vm_compute; reflexivity)). reflexivity.
Defined.
