(* ===== verification/PluginManager.v ===== *)
(** * The configuration (src/core/plugin_manager.h, src/core/plugin_manager.cc)

    [__config_loader] over the answers of the system calls it makes, with the
    file descriptors it opens and closes; [UpdateConfig] and the constructor.
    [glz::read_toml] is third-party code: a parameter, [None] for an error. *)

From Stdlib Require Import ZArith Lia.
From stdpp Require Import base list strings.
From S2P Require Import Prelude.

Local Open Scope Z_scope.

Record ac_module := mkModule {
  module_name : string;
  library_name : string
}.

Record ac_config := mkConfig {
  library_path : string;
  modules : list ac_module
}.

(** What the system answers for [kConfigPath]: [stat] ([None] when it fails;
    whether the file is regular, and [st_size]), [open], and [read] of a number
    of bytes (its return value and the bytes delivered). *)
Record config_file := mkFile {
  file_stat : option (bool * Z);
  file_open : Z;
  file_read : Z -> Z * list Z
}.

Inductive fd_event := FdOpen (fd : Z) | FdClose (fd : Z).

Section Loader.
Context (read_toml : list Z -> option ac_config).

(** [std::vector<uint8_t> content(st_size)] after [read]: the bytes delivered,
    the rest zero. *)
Definition read_content (size : Z) (bytes : list Z) : list Z :=
  bytes ++ replicate (Z.to_nat size - length bytes) 0.

Definition config_loader (f : config_file) : option ac_config * list fd_event :=
  match file_stat f with
  | None => (None, [])
  | Some (is_reg, st_size) =>
      if negb is_reg then (None, [])
      else
        let fd := file_open f in
        if fd <? 0 then (None, [])
        else
          let (n, bytes) := file_read f st_size in
          if n <=? 0 then (None, [FdOpen fd; FdClose fd])
          else
            match read_toml (read_content st_size bytes) with
            | None => (None, [FdOpen fd; FdClose fd])
            | Some new_config => (Some new_config, [FdOpen fd; FdClose fd])
            end
  end.

(** The result, [config_info_] afterwards, the descriptor events. *)
Definition UpdateConfig (f : config_file) (config_info_ : ac_config)
    : bool * ac_config * list fd_event :=
  let (new_config, ev) := config_loader f in
  match new_config with
  | Some c => (true, c, ev)
  | None => (false, config_info_, ev)
  end.

(** The constructor: [None] is [std::terminate]. *)
Definition new_plugin_manager (f : config_file) : option ac_config := (config_loader f).1.

(** A process: the constructor, then an [UpdateConfig] per element of [fs], in
    states of the file system that may all differ. The answers of the calls
    are listed. *)
Fixpoint update_all (fs : list config_file) (c : ac_config)
    : list bool * ac_config * list fd_event :=
  match fs with
  | [] => ([], c, [])
  | f :: fs' =>
      let '(ok, c1, ev) := UpdateConfig f c in
      let '(oks, c2, evs) := update_all fs' c1 in (ok :: oks, c2, ev ++ evs)
  end.

Fixpoint close_fd (fd : Z) (l : list Z) : option (list Z) :=
  match l with
  | [] => None
  | x :: l' => if x =? fd then Some l' else cons x <$> close_fd fd l'
  end.

(** Descriptors open after a sequence of events; [None] when one that is not
    open is closed. *)
Fixpoint open_fds (evs : list fd_event) (l : list Z) : option (list Z) :=
  match evs with
  | [] => Some l
  | FdOpen fd :: evs' => open_fds evs' (fd :: l)
  | FdClose fd :: evs' => l' ← close_fd fd l; open_fds evs' l'
  end.

(** The configurations that loaded. *)
Definition loaded (fs : list config_file) : list ac_config :=
  omap (fun f => (config_loader f).1) fs.

Lemma config_loader_events f :
  (config_loader f).2 = [] \/
  exists fd, 0 <= fd /\ (config_loader f).2 = [FdOpen fd; FdClose fd].
Proof.
  unfold config_loader. destruct (file_stat f) as [[[] size]|]; simpl; [|by left..].
  destruct (Z.ltb_spec (file_open f) 0); [by left|right].
  destruct (file_read f size) as [n bytes]. destruct (n <=? 0); [eauto|].
  destruct (read_toml _); eauto.
Qed.

Lemma update_config_events f c : (UpdateConfig f c).2 = (config_loader f).2.
Proof. unfold UpdateConfig. by destruct (config_loader f) as [[] ?]. Qed.

Lemma open_fds_balanced f evs l :
  l = [] -> open_fds ((config_loader f).2 ++ evs) l = open_fds evs l.
Proof.
  intros ->. destruct (config_loader_events f) as [->|(fd & _ & ->)]; [done|]. simpl.
  by rewrite Z.eqb_refl.
Qed.

(** C30. Whatever happens to the file between the calls, after any number of
    [UpdateConfig] calls the configuration in force is the last one that
    loaded (the initial one when none did), each call returned true exactly
    when its file loaded, and every file descriptor that was opened has been
    closed, on every path. *)
Theorem update_config_history (fs : list config_file) (c : ac_config) :
  let '(oks, c', evs) := update_all fs c in
  c' = default c (last (loaded fs)) /\
  oks = (fun f => bool_decide (is_Some (config_loader f).1)) <$> fs /\
  open_fds evs [] = Some [].
Proof.
  revert c. induction fs as [|f fs IH]; intros c; simpl; [done|].
  pose proof (update_config_events f c) as Eev. unfold loaded. simpl.
  assert (Eu : UpdateConfig f c = (bool_decide (is_Some (config_loader f).1),
                 default c (config_loader f).1, (config_loader f).2)).
  { unfold UpdateConfig. by destruct (config_loader f) as [[c0|] ev]. }
  rewrite Eu. specialize (IH (default c (config_loader f).1)).
  destruct (update_all fs (default c (config_loader f).1)) as [[oks c'] evs].
  destruct IH as (-> & -> & IH). split_and!; [|done|by rewrite open_fds_balanced].
  fold (loaded fs). destruct (config_loader f).1 as [c0|]; simpl; [|done].
  destruct (loaded fs) as [|x l] eqn:El; [done|].
  rewrite !last_cons. by destruct (last l).
Qed.

End Loader.
