(* ===== verification/Task.v ===== *)
(** * Coroutine tasks (include/task.h)

    [co_await] of a [Task<T>]: the awaiting coroutine and the awaited one share
    the promise ([continuation_], [result_]). The awaited coroutine starts
    eagerly; when it suspends inside, another thread may resume it while the
    caller is still on its way through [await_ready] and [await_suspend]. A
    step is one access to the promise by one of the two threads. *)

From Stdlib Require Import ZArith Lia.
From stdpp Require Import base list relations.
From S2P Require Import Prelude.

(** What the body of a coroutine ends with. *)
Inductive completion (T E : Type) := Returns (v : T) | Throws (e : E).
Arguments Returns {T E} v.
Arguments Throws {T E} e.

(** What [await_resume] gives: the value, the exception rethrown, or
    [std::bad_variant_access]. *)
Inductive resumed_with (T E : Type) := Got (v : T) | Rethrown (e : E) | BadVariantAccess.
Arguments Got {T E} v.
Arguments Rethrown {T E} e.
Arguments BadVariantAccess {T E}.

Definition expected {T E} (c : completion T E) : resumed_with T E :=
  match c with Returns v => Got v | Throws e => Rethrown e end.

(** ** The two kinds of result

    [TaskPromise<T>] and its specialisation [TaskPromise<void>] differ in
    [result_] only: the variant it is, what [return_value] or [return_void] and
    [unhandled_exception] store in it, and what [await_resume] makes of it. *)
Class ResultVariant (T E R : Type) := {
  no_result : R;
  store_result : completion T E -> R -> R;
  read_result : R -> resumed_with T E;
  read_stored : forall c, read_result (store_result c no_result) = expected c
}.
#[global] Hint Mode ResultVariant - - ! : typeclass_instances.

(** [std::variant<std::monostate, T, std::exception_ptr>]; an exception is
    represented by a value of [E]. *)
Inductive task_result (T E : Type) :=
  | Monostate
  | Value (v : T)
  | Exception (e : E).
Arguments Monostate {T E}.
Arguments Value {T E} v.
Arguments Exception {T E} e.

Definition store_value {T E} (c : completion T E) (_ : task_result T E) : task_result T E :=
  match c with Returns v => Value v | Throws e => Exception e end.

Definition resume_value {T E} (r : task_result T E) : resumed_with T E :=
  match r with
  | Exception e => Rethrown e
  | Value v => Got v
  | Monostate => BadVariantAccess
  end.

#[global] Program Instance value_variant T E : ResultVariant T E (task_result T E) := {
  no_result := Monostate;
  store_result := store_value;
  read_result := resume_value
}.
Next Obligation. by intros T E []. Qed.

(** [std::variant<std::monostate, std::exception_ptr>]: [return_void] does
    nothing. *)
Inductive void_result (E : Type) := VoidMonostate | VoidException (e : E).
Arguments VoidMonostate {E}.
Arguments VoidException {E} e.

Definition store_void {E} (c : completion unit E) (r : void_result E) : void_result E :=
  match c with Returns _ => r | Throws e => VoidException e end.

Definition resume_void {E} (r : void_result E) : resumed_with unit E :=
  match r with VoidException e => Rethrown e | VoidMonostate => Got () end.

#[global] Program Instance void_variant E : ResultVariant unit E (void_result E) := {
  no_result := VoidMonostate;
  store_result := store_void;
  read_result := resume_void
}.
Next Obligation. by intros E [[]|]. Qed.

(** [TaskPromise]; a coroutine handle is a [nat]. *)
Record TaskPromise (R : Type) := mkPromise {
  continuation_ : option nat;
  result_ : R
}.
Arguments mkPromise {R}.
Arguments continuation_ {R}.
Arguments result_ {R}.

Section Await.
Context {T E R : Type} `{!ResultVariant T E R}.
Implicit Types p : TaskPromise R.

Definition new_promise : TaskPromise R := mkPromise None no_result.

(** [return_value], [return_void] and [unhandled_exception] *)
Definition complete (c : completion T E) p : TaskPromise R :=
  mkPromise (continuation_ p) (store_result c (result_ p)).

(** [FinalAwaiter::await_suspend]: the coroutine to resume next, [None] for
    [std::noop_coroutine()]. *)
Definition final_await_suspend p : option nat := continuation_ p.

(** [Task::await_ready] (is there a coroutine, is it done),
    [Task::await_suspend], [Task::await_resume] *)
Definition task_await_ready (handle_ inner_done : bool) : bool := negb handle_ || inner_done.

Definition task_await_suspend (caller : nat) p : TaskPromise R := mkPromise (Some caller) (result_ p).

Definition task_await_resume p : resumed_with T E := read_result (result_ p).

(** The caller: about to test [await_ready], about to store itself as the
    continuation, suspended, or resumed with a result. *)
Inductive caller_pc :=
  | AtReady
  | AtSuspend
  | Suspended
  | Resumed (r : resumed_with T E).

(** The awaited coroutine: still running (or suspended inside), its result
    stored and the final suspend point reached, or past the final awaiter. *)
Inductive callee_pc :=
  | Inside
  | AtFinal
  | Finished.

Record await_state := mkAwait {
  promise : TaskPromise R;
  caller : caller_pc;
  callee : callee_pc
}.

(** [handle_.done()]: the coroutine is suspended at its final suspend point. *)
Definition callee_done (i : callee_pc) : bool := match i with Inside => false | _ => true end.

Context (c : completion T E) (self : nat).

(** [exclusive]: the callee completes only while the caller is not between
    [await_ready] and [await_suspend], as when a single thread runs both. *)
Inductive await_step (exclusive : bool) : await_state -> await_state -> Prop :=
  | StepReady p i :
      await_step exclusive (mkAwait p AtReady i)
        (mkAwait p (if task_await_ready true (callee_done i) then Resumed (task_await_resume p)
                    else AtSuspend) i)
  | StepSuspend p i :
      await_step exclusive (mkAwait p AtSuspend i) (mkAwait (task_await_suspend self p) Suspended i)
  | StepComplete p o :
      (exclusive = true -> o <> AtSuspend) ->
      await_step exclusive (mkAwait p o Inside) (mkAwait (complete c p) o AtFinal)
  | StepFinal p o :
      await_step exclusive (mkAwait p o AtFinal)
        (mkAwait p (match final_await_suspend p with
                    | Some _ => Resumed (task_await_resume p)
                    | None => o end) Finished).

Definition await_init (s : await_state) : Prop := s = mkAwait new_promise AtReady Inside.

Record await_inv (s : await_state) : Prop := {
  ai_result : result_ (promise s) =
    (match callee s with Inside => no_result | _ => store_result c no_result end);
  ai_unset : caller s = AtReady \/ caller s = AtSuspend -> continuation_ (promise s) = None;
  ai_set : caller s = Suspended -> continuation_ (promise s) <> None;
  ai_suspend : caller s = AtSuspend -> callee s = Inside;
  ai_waiting : caller s = Suspended -> callee s <> Finished;
  ai_resumed : forall r, caller s = Resumed r -> callee s <> Inside /\ r = expected c;
  ai_once : forall r, caller s = Resumed r -> callee s = AtFinal -> continuation_ (promise s) = None
}.

Lemma await_resume_expected p : result_ p = store_result c no_result -> task_await_resume p = expected c.
Proof. unfold task_await_resume. intros ->. apply read_stored. Qed.

Lemma await_step_inv s s' : await_inv s -> await_step true s s' -> await_inv s'.
Proof.
  intros [H1 Hu Hse H3 H4 H5 H6] Hs. destruct Hs as [p i|p i|p o Hx|p o]; simpl in *.
  - pose proof (Hu (or_introl eq_refl)) as Hc.
    assert (Hr : callee_done i = true -> task_await_resume p = expected c).
    { intros Hd. apply await_resume_expected. by destruct i. }
    destruct i; split; simpl; try done; intros r [= <-]; (split; [done|]); by apply Hr.
  - rewrite H3 in * by done. split; simpl; try done. by intros [].
  - specialize (Hx eq_refl).
    split; simpl; try done; [by rewrite H1|intros r Hr; by destruct (H5 r Hr)..].
  - unfold final_await_suspend. destruct (continuation_ p) as [k|] eqn:Ec.
    + assert (Hr : task_await_resume p = expected c) by by apply await_resume_expected.
      split; simpl; try done; [by intros []|]. intros r [= <-]. done.
    + split; simpl; try done.
      * intros Ho. by destruct (Hse Ho).
      * intros ->. by specialize (H3 eq_refl).
      * intros Ho. by destruct (Hse Ho).
      * intros r Hr. by destruct (H5 r Hr).
Qed.

Lemma await_init_inv s : await_init s -> await_inv s.
Proof. intros ->. by split. Qed.

(** C28. When the awaited coroutine does not complete between the caller's
    [await_ready] and [await_suspend] (one thread runs both, or the hand-over
    happens later), the caller is never left behind: once the coroutine has
    passed its final suspend point the caller has been resumed with the value
    returned or the exception thrown, or is about to find it done; and it is
    never resumed with anything else. *)
Theorem task_await_resumes (s : await_state) :
  reachable await_init (await_step true) s ->
  (callee s = Finished -> caller s = AtReady \/ caller s = Resumed (expected c)) /\
  (forall r, caller s = Resumed r -> r = expected c).
Proof.
  intros Hr. assert (await_inv s) as [H1 Hu Hse H3 H4 H5 H6].
  { revert s Hr. apply reachable_ind; [apply await_init_inv|]. intros s s' _. apply await_step_inv. }
  split.
  - intros Hf. destruct (caller s) as [| | |r]; [by left| | |].
    + by rewrite (H3 eq_refl) in Hf.
    + by destruct (H4 eq_refl).
    + right. f_equal. by apply H5.
  - intros r Hr'. by apply H5.
Qed.

End Await.

Lemma task_await_resumes_witness :
  exists s : await_state (T := nat) (E := nat) (R := task_result nat nat),
    callee s = Finished /\ caller s = Resumed (Got 7).
Proof.
  set (s0 := mkAwait (T := nat) (E := nat) (R := task_result nat nat) new_promise AtReady Inside).
  set (s1 := mkAwait (T := nat) (E := nat) (R := task_result nat nat) new_promise AtSuspend Inside).
  set (s2 := mkAwait (T := nat) (E := nat) (R := task_result nat nat) (mkPromise (Some 1) Monostate) Suspended Inside).
  set (s3 := mkAwait (T := nat) (E := nat) (R := task_result nat nat) (mkPromise (Some 1) (Value 7)) Suspended AtFinal).
  set (s4 := mkAwait (T := nat) (E := nat) (R := task_result nat nat) (mkPromise (Some 1) (Value 7)) (Resumed (Got 7)) Finished).
  assert (reachable await_init (await_step (Returns 7) 1 true) s4) as Hr.
  { apply (reachable_step _ _ s3); [|exact (StepFinal (Returns 7) 1 true (mkPromise (Some 1) (Value 7)) Suspended)].
    apply (reachable_step _ _ s2); [|exact (StepComplete (Returns 7) 1 true (mkPromise (Some 1) Monostate) Suspended ltac:(done))].
    apply (reachable_step _ _ s1); [|exact (StepSuspend (Returns 7) 1 true new_promise Inside)].
    apply (reachable_step _ _ s0); [by apply reachable_init|exact (StepReady (Returns 7) 1 true new_promise Inside)]. }
  exists s4. split; [reflexivity|].
  destruct (proj1 (task_await_resumes (Returns 7) 1 s4 Hr) eq_refl) as [E|E]; [discriminate|exact E].
Defined.

(** C40. Without that, the resumption can be lost: when the awaited coroutine
    suspended inside and another thread completes it after the caller's
    [await_ready] and before its [await_suspend], the final awaiter finds no
    continuation, the caller then suspends, and nothing ever resumes it. *)
Theorem task_continuation_lost {T E R : Type} `{!ResultVariant T E R} (c : completion T E) (self : nat) :
  exists s : await_state (T := T) (E := E) (R := R),
    reachable await_init (await_step c self false) s /\
    caller s = Suspended /\ callee s = Finished /\
    forall s', ~ await_step c self false s s'.
Proof.
  set (s0 := mkAwait (T := T) (E := E) (R := R) new_promise AtReady Inside).
  set (s1 := mkAwait (T := T) (E := E) (R := R) new_promise AtSuspend Inside).
  set (s2 := mkAwait (T := T) (E := E) (R := R) (complete c new_promise) AtSuspend AtFinal).
  set (s3 := mkAwait (T := T) (E := E) (R := R) (complete c new_promise) AtSuspend Finished).
  set (s4 := mkAwait (T := T) (E := E) (R := R) (task_await_suspend self (complete c new_promise)) Suspended Finished).
  exists s4. split; [|split; [done|split; [done|]]].
  - apply (reachable_step _ _ s3); [|exact (StepSuspend c self false (complete c new_promise) Finished)].
    apply (reachable_step _ _ s2); [|exact (StepFinal c self false (complete c new_promise) AtSuspend)].
    apply (reachable_step _ _ s1); [|by apply (StepComplete c self false new_promise AtSuspend)].
    apply (reachable_step _ _ s0); [by apply reachable_init|exact (StepReady c self false new_promise Inside)].
  - intros s' Hs. inversion Hs.
Qed.
