(* ===== verification/Frames.v ===== *)
(** * Coroutine frames (include/task.h)

    The frames of [Task] and [LaunchTask] coroutines: where they are created,
    where they suspend, who resumes them and who destroys them. Every operation
    the language leaves undefined (resuming or destroying a frame that runs or
    is gone, touching the promise of a frame that is gone) is [None]. The life
    of the two frames of a module, the [LaunchTask] of [__launch_actor]
    (src/core/actor_manager.cc) and the [Task] of [RunCoroutine] it awaits, is
    followed from the first resumption to the end, in every interleaving of the
    thread that runs the launch coroutine with those that resume the task. *)

From Stdlib Require Import ZArith Lia.
From stdpp Require Import base list gmap.
From S2P Require Import Prelude Task.

Inductive frame_status := AtInitialSuspend | Running | AtSuspend | AtFinalSuspend.

#[global] Instance frame_status_eq_dec : EqDecision frame_status.
Proof. solve_decision. Defined.

Section Frames.
Context {T E R : Type} `{!ResultVariant T E R}.

(** A [LaunchTask] has no data in its promise. *)
Inductive frame_promise := LaunchPromise | PromiseOf (p : TaskPromise R).

Record frame := mkFrame { status : frame_status; frame_data : frame_promise }.

(** The frames by address. *)
Local Abbreviation frames := (gmap nat frame).

Implicit Types fs : frames.

Definition set_status (st : frame_status) (f : frame) : frame := mkFrame st (frame_data f).

(** The body suspends at a [co_await]. *)
Definition suspend (h : nat) fs : option frames :=
  f ← fs !! h;
  match status f with Running => Some (<[h := set_status AtSuspend f]> fs) | _ => None end.

(** [coroutine_handle::resume], also by symmetric transfer. *)
Definition resume (h : nat) fs : option frames :=
  f ← fs !! h;
  match status f with
  | AtInitialSuspend | AtSuspend => Some (<[h := set_status Running f]> fs)
  | _ => None
  end.

(** [coroutine_handle::destroy] *)
Definition destroy (h : nat) fs : option frames :=
  f ← fs !! h;
  match status f with Running => None | _ => Some (delete h fs) end.

(** [coroutine_handle::done] *)
Definition done (h : nat) fs : option bool :=
  f ← fs !! h;
  match status f with
  | Running => None
  | AtFinalSuspend => Some true
  | _ => Some false
  end.

(** The promise of a [Task] frame. *)
Definition promise_at (h : nat) fs : option (TaskPromise R) :=
  f ← fs !! h;
  match frame_data f with PromiseOf p => Some p | LaunchPromise => None end.

Definition set_promise (h : nat) (p : TaskPromise R) fs : option frames :=
  f ← fs !! h;
  match frame_data f with
  | PromiseOf _ => Some (<[h := mkFrame (status f) (PromiseOf p)]> fs)
  | LaunchPromise => None
  end.

(** ** LaunchTask *)

(** A call of a [LaunchTask] coroutine: [initial_suspend] suspends, the handle
    goes to the caller ([get_return_object]). The allocator gives an address
    that is not in use. *)
Definition launch_call (h : nat) fs : option frames :=
  match fs !! h with
  | None => Some (<[h := mkFrame AtInitialSuspend LaunchPromise]> fs)
  | Some _ => None
  end.

(** [co_return]: [final_suspend] does not suspend, the frame is destroyed. *)
Definition launch_return (h : nat) fs : option frames :=
  f ← fs !! h;
  match status f, frame_data f with Running, LaunchPromise => Some (delete h fs) | _, _ => None end.

(** ** Task *)

(** A call of a [Task] coroutine: [initial_suspend] does not suspend. *)
Definition task_call (h : nat) fs : option frames :=
  match fs !! h with
  | None => Some (<[h := mkFrame Running (PromiseOf new_promise)]> fs)
  | Some _ => None
  end.

(** The body ends: the result is stored, the coroutine is at its final suspend
    point and the final awaiter resumes the continuation, if there is one. *)
Definition task_return (h : nat) (c : completion T E) fs : option frames :=
  f ← fs !! h;
  match status f, frame_data f with
  | Running, PromiseOf p =>
      let p' := complete c p in
      let fs1 := <[h := mkFrame AtFinalSuspend (PromiseOf p')]> fs in
      match final_await_suspend p' with Some k => resume k fs1 | None => Some fs1 end
  | _, _ => None
  end.

(** [~Task()] *)
Definition task_destructor (handle_ : option nat) fs : option frames :=
  match handle_ with Some h => destroy h fs | None => Some fs end.

(** [Task::await_ready] *)
Definition await_ready (handle_ : option nat) fs : option bool :=
  match handle_ with
  | Some h => d ← done h fs; Some (task_await_ready true d)
  | None => Some (task_await_ready false false)
  end.

(** [Task::await_suspend] *)
Definition await_suspend (h caller : nat) fs : option frames :=
  p ← promise_at h fs; set_promise h (task_await_suspend caller p) fs.

(** [Task::await_resume] *)
Definition await_resume (h : nat) fs : option (resumed_with T E) :=
  p ← promise_at h fs; Some (task_await_resume p).

(** ** A module's coroutines *)

(** How the launch coroutine ends: with the module's exit state, or in
    [std::terminate] ([unhandled_exception] of [LaunchTask]). *)
Inductive launch_end := Finished (v : T) | Terminated (e : E) | BadAccess.

(** Where the launch coroutine is: inside the call of [RunCoroutine], whose body
    starts at once; about to call [await_ready], [await_suspend]; suspended; past
    the [co_await]; at its end. [LUndefined]: something undefined was done. *)
Inductive launch_pc := LBody | LReady | LStore | LWait | LResume | LEnded (e : launch_end) | LUndefined.

Record life := mkLife { life_frames : gmap nat frame; at_pc : launch_pc }.

Context (lh th : nat) (c : completion T E).

(** The launch coroutine goes on, or the task does: it is resumed by the worker
    that has its handle, suspends at a [co_await] of the mailbox, or ends with
    [c]. The last three may happen on another thread than the first. *)
Inductive move := Caller | TaskResume | TaskSuspend | TaskReturn.

Definition then_at (pc : launch_pc) (o : option frames) (s : life) : life :=
  match o with Some fs => mkLife fs pc | None => mkLife (life_frames s) LUndefined end.

Definition status_at (h : nat) (s : life) : option frame_status := status <$> life_frames s !! h.

(** Past the [co_await]: the result is read; the [Task], a temporary, is
    destroyed at the end of the expression; the coroutine runs to its end. *)
Definition launch_rest fs : option (launch_end * frames) :=
  r ← await_resume th fs;
  fs1 ← task_destructor (Some th) fs;
  match r with
  | Got v => fs2 ← launch_return lh fs1; Some (Finished v, fs2)
  | Rethrown e => Some (Terminated e, fs1)
  | BadVariantAccess => Some (BadAccess, fs1)
  end.

(** [co_await actor->RunCoroutine(mailbox)] and what follows. *)
Definition launch_act (s : life) : option life :=
  match at_pc s with
  | LReady =>
      Some match await_ready (Some th) (life_frames s) with
           | None => mkLife (life_frames s) LUndefined
           | Some true => mkLife (life_frames s) LResume
           | Some false => then_at LStore (suspend lh (life_frames s)) s
           end
  | LStore => Some (then_at LWait (await_suspend th lh (life_frames s)) s)
  | LWait => if decide (status_at lh s = Some Running) then Some (mkLife (life_frames s) LResume) else None
  | LResume =>
      Some match launch_rest (life_frames s) with
           | Some (e, fs) => mkLife fs (LEnded e)
           | None => mkLife (life_frames s) LUndefined
           end
  | LBody | LEnded _ | LUndefined => None
  end.

(** The call of [RunCoroutine] returns when the task first suspends or ends. *)
Definition returned (s : life) : launch_pc := match at_pc s with LBody => LReady | pc => pc end.

Definition life_act (m : move) (s : life) : option life :=
  match m with
  | Caller => launch_act s
  | TaskResume =>
      if decide (status_at th s = Some AtSuspend) then Some (then_at (at_pc s) (resume th (life_frames s)) s) else None
  | TaskSuspend =>
      if decide (status_at th s = Some Running) then Some (then_at (returned s) (suspend th (life_frames s)) s) else None
  | TaskReturn =>
      if decide (status_at th s = Some Running) then Some (then_at (returned s) (task_return th c (life_frames s)) s) else None
  end.

(** The manager calls the creator, a worker resumes the handle, and the body of
    the launch coroutine calls [RunCoroutine]. *)
Definition life_begin fs : option life :=
  fs1 ← launch_call lh fs;
  fs2 ← resume lh fs1;
  fs3 ← task_call th fs2;
  Some (mkLife fs3 LBody).

(** No other thread runs the task when the caller looks at it in [await_ready],
    and none completes it between that and [await_suspend]. *)
Definition undisturbed (m : move) (s : life) : Prop :=
  match m, at_pc s with
  | Caller, LReady => status_at th s <> Some Running
  | TaskReturn, LStore => False
  | _, _ => True
  end.

Definition life_step (calm : bool) (s s' : life) : Prop :=
  exists m, (calm = true -> undisturbed m s) /\ life_act m s = Some s'.

(** ** Their lives *)

Section Life.
Context (fs : gmap nat frame) (Hlh : fs !! lh = None) (Hth : fs !! th = None) (Hne : lh <> th).

(** The two frames, beside the others. *)
Definition two (l t : frame_status) (k : option nat) (r : R) : frames :=
  <[th := mkFrame t (PromiseOf (mkPromise k r))]> (<[lh := mkFrame l LaunchPromise]> fs).

Lemma two_th l t k r : two l t k r !! th = Some (mkFrame t (PromiseOf (mkPromise k r))).
Proof. apply lookup_insert_eq. Qed.

Lemma two_lh l t k r : two l t k r !! lh = Some (mkFrame l LaunchPromise).
Proof. unfold two. by rewrite lookup_insert_ne, lookup_insert_eq. Qed.

Lemma two_set_th l t k r t' k' r' :
  <[th := mkFrame t' (PromiseOf (mkPromise k' r'))]> (two l t k r) = two l t' k' r'.
Proof. apply insert_insert_eq. Qed.

Lemma two_set_lh l t k r l' : <[lh := mkFrame l' LaunchPromise]> (two l t k r) = two l' t k r.
Proof. unfold two. rewrite (insert_insert_ne _ lh th) by done. by rewrite insert_insert_eq. Qed.

Lemma status_th l t k r pc : status_at th (mkLife (two l t k r) pc) = Some t.
Proof. unfold status_at. simpl. by rewrite two_th. Qed.

Lemma status_lh l t k r pc : status_at lh (mkLife (two l t k r) pc) = Some l.
Proof. unfold status_at. simpl. by rewrite two_lh. Qed.

Lemma begin_two : life_begin fs = Some (mkLife (two Running Running None no_result) LBody).
Proof.
  unfold life_begin, launch_call. rewrite Hlh. simpl. unfold resume. rewrite lookup_insert_eq. simpl.
  rewrite insert_insert_eq. unfold task_call. by rewrite lookup_insert_ne, Hth.
Qed.

(** The end: the [Task] is destroyed at its final suspend point, the launch
    coroutine by running off its end. *)
Definition ended : launch_end * frames :=
  match c with
  | Returns v => (Finished v, fs)
  | Throws e => (Terminated e, <[lh := mkFrame Running LaunchPromise]> fs)
  end.

Definition stored : R := store_result c no_result.

Lemma rest_ends k : launch_rest (two Running AtFinalSuspend k stored) = Some ended.
Proof.
  unfold launch_rest, await_resume, promise_at, task_destructor, destroy. rewrite two_th. simpl.
  unfold task_await_resume. simpl. unfold stored. rewrite read_stored. unfold two.
  rewrite delete_insert_id by (by rewrite lookup_insert_ne). unfold ended. destruct c as [v|e]; simpl; [|done].
  unfold launch_return. rewrite lookup_insert_eq. simpl. by rewrite delete_insert_id.
Qed.

Lemma return_two l k :
  task_return th c (two l Running k no_result) =
  match k with
  | None => Some (two l AtFinalSuspend None stored)
  | Some h => resume h (two l AtFinalSuspend (Some h) stored)
  end.
Proof. unfold task_return. rewrite two_th. simpl. unfold complete. simpl. rewrite two_set_th. by destruct k. Qed.

Definition inside (t : frame_status) : Prop := t = Running \/ t = AtSuspend.

(** What the states of an undisturbed life look like. *)
Inductive life_ok : life -> Prop :=
  | OkBody : life_ok (mkLife (two Running Running None no_result) LBody)
  | OkReady t : inside t -> life_ok (mkLife (two Running t None no_result) LReady)
  | OkReadyDone : life_ok (mkLife (two Running AtFinalSuspend None stored) LReady)
  | OkStore t : inside t -> life_ok (mkLife (two AtSuspend t None no_result) LStore)
  | OkWait t : inside t -> life_ok (mkLife (two AtSuspend t (Some lh) no_result) LWait)
  | OkWaitDone : life_ok (mkLife (two Running AtFinalSuspend (Some lh) stored) LWait)
  | OkResume k : life_ok (mkLife (two Running AtFinalSuspend k stored) LResume)
  | OkEnded : life_ok (mkLife ended.2 (LEnded ended.1)).

Lemma suspend_th l k r : suspend th (two l Running k r) = Some (two l AtSuspend k r).
Proof. unfold suspend. rewrite two_th. simpl. unfold set_status. simpl. by rewrite two_set_th. Qed.

Lemma resume_th l k r : resume th (two l AtSuspend k r) = Some (two l Running k r).
Proof. unfold resume. rewrite two_th. simpl. unfold set_status. simpl. by rewrite two_set_th. Qed.

Lemma suspend_lh t k r : suspend lh (two Running t k r) = Some (two AtSuspend t k r).
Proof. unfold suspend. rewrite two_lh. simpl. unfold set_status. simpl. by rewrite two_set_lh. Qed.

Lemma resume_lh t k r : resume lh (two AtSuspend t k r) = Some (two Running t k r).
Proof. unfold resume. rewrite two_lh. simpl. unfold set_status. simpl. by rewrite two_set_lh. Qed.

Lemma ready_two l t k r : t <> Running -> await_ready (Some th) (two l t k r) = Some (bool_decide (t = AtFinalSuspend)).
Proof. intros Ht. unfold await_ready, done. rewrite two_th. by destruct t. Qed.

Lemma store_two l t k r : await_suspend th lh (two l t k r) = Some (two l t (Some lh) r).
Proof. unfold await_suspend, promise_at, set_promise. rewrite !two_th. simpl. unfold task_await_suspend. simpl. by rewrite two_set_th. Qed.

#[local] Arguments await_ready : simpl never.

Local Abbreviation calm_steps := (rtc (life_step true)).

(** The launch coroutine can come to its end. *)
Definition ends (s : life) : Prop := exists s', calm_steps s s' /\ at_pc s' = LEnded ended.1.

Lemma ends_step m s s' : undisturbed m s -> life_act m s = Some s' -> ends s' -> ends s.
Proof. intros Hu Ha (s'' & Hs & He). exists s''. split; [|done]. eapply rtc_l; [by exists m|done]. Qed.

Ltac two_simpl :=
  simpl; rewrite ?suspend_th, ?resume_th, ?suspend_lh, ?resume_lh, ?return_two, ?resume_lh, ?store_two, ?rest_ends; simpl.

Lemma ended_gone pc : status_at th (mkLife ended.2 pc) = None.
Proof. unfold status_at, ended. destruct c; simpl; [by rewrite Hth|by rewrite lookup_insert_ne, Hth]. Qed.

(** What the task does. *)
Lemma task_step m s s' : m <> Caller -> life_ok s -> undisturbed m s -> life_act m s = Some s' -> life_ok s'.
Proof.
  intros Hm Hok Hu Ha.
  destruct m; [done|..]; unfold life_act in Ha; case_decide as Hd; try done; injection Ha as <-;
    destruct Hok as [|t [-> | ->]| |t [-> | ->]|t [-> | ->]| | |]; rewrite ?status_th, ?ended_gone in Hd; try done;
    unfold returned; two_simpl; try done; by constructor; (left + right).
Qed.

(** What the launch coroutine does. *)
Lemma caller_step s s' : life_ok s -> undisturbed Caller s -> launch_act s = Some s' -> life_ok s'.
Proof.
  intros Hok Hu Ha. unfold launch_act in Ha. destruct Hok as [|t Ht| |t Ht|t Ht| | |]; simpl in *; try done.
  - rewrite status_th in Hu. destruct Ht as [-> | ->]; [done|]. rewrite ready_two in Ha by done. simpl in Ha.
    injection Ha as <-. two_simpl. apply OkStore. by right.
  - rewrite ready_two in Ha by done. injection Ha as <-. apply OkResume.
  - injection Ha as <-. two_simpl. by apply OkWait.
  - by rewrite status_lh, decide_False in Ha.
  - rewrite status_lh, decide_True in Ha by done. injection Ha as <-. apply OkResume.
  - rewrite rest_ends in Ha. injection Ha as <-. destruct ended as [e f] eqn:Ee. replace e with ended.1 by by rewrite Ee.
    replace f with ended.2 by by rewrite Ee. apply OkEnded.
Qed.

Lemma life_reaches s :
  reachable (fun s => life_begin fs = Some s) (life_step true) s -> life_ok s.
Proof.
  intros Hr. refine (reachable_ind _ _ life_ok _ _ s Hr).
  - intros s0 Hs. rewrite begin_two in Hs. injection Hs as <-. apply OkBody.
  - intros s1 s2 _ Hok (m & Hu & Ha). specialize (Hu eq_refl). destruct m; [by eapply caller_step|..]; by apply (task_step _ s1) in Ha.
Qed.

Lemma ends_resume k : ends (mkLife (two Running AtFinalSuspend k stored) LResume).
Proof.
  eexists. split; [apply rtc_once; exists Caller; split; [done|]|]; simpl.
  - unfold launch_act. simpl. by rewrite rest_ends.
  - by destruct ended.
Qed.

Lemma ends_wait t : inside t -> ends (mkLife (two AtSuspend t (Some lh) no_result) LWait).
Proof.
  assert (Hrun : ends (mkLife (two AtSuspend Running (Some lh) no_result) LWait)).
  { eapply (ends_step TaskReturn); [done|simpl; rewrite status_th, decide_True by done; by two_simpl|].
    eapply (ends_step Caller); [done| |apply (ends_resume (Some lh))]. simpl. unfold launch_act. simpl.
    by rewrite status_lh, decide_True. }
  intros [-> | ->]; [done|]. eapply (ends_step TaskResume); [done| |exact Hrun].
  simpl. rewrite status_th, decide_True by done. by two_simpl.
Qed.

Lemma ends_store t : inside t -> ends (mkLife (two AtSuspend t None no_result) LStore).
Proof.
  intros Ht. eapply (ends_step Caller); [done| |by apply (ends_wait t)]. simpl. unfold launch_act. by two_simpl.
Qed.

Lemma ends_ready : ends (mkLife (two Running AtSuspend None no_result) LReady).
Proof.
  eapply (ends_step Caller); [simpl; by rewrite status_th| |apply (ends_store AtSuspend); by right].
  simpl. unfold launch_act. simpl. rewrite ready_two by done. by two_simpl.
Qed.

(** From every one of these states the launch coroutine can come to its end. *)
Lemma life_ends s : life_ok s -> ends s.
Proof.
  assert (Hin : forall pc, pc = LBody \/ pc = LReady -> ends (mkLife (two Running Running None no_result) pc)).
  { intros pc Hpc. eapply (ends_step TaskSuspend); [done| |exact ends_ready]. simpl.
    rewrite status_th, decide_True by done. unfold returned. destruct Hpc as [-> | ->]; by two_simpl. }
  intros [|t [-> | ->]| |t Ht|t Ht| |k|]; auto using ends_ready, ends_store, ends_wait, ends_resume.
  - eapply (ends_step Caller); [simpl; by rewrite status_th| |apply (ends_resume None)].
    simpl. unfold launch_act. simpl. by rewrite ready_two.
  - eapply (ends_step Caller); [done| |apply (ends_resume (Some lh))]. simpl. unfold launch_act. simpl.
    by rewrite status_lh, decide_True.
  - eexists. split; [apply rtc_refl|done].
Qed.

(** The launch coroutine stores itself too late, or looks at a running task. *)
Lemma life_disturbed :
  (exists s, reachable (fun s => life_begin fs = Some s) (life_step false) s /\ at_pc s = LWait /\
     status_at lh s = Some AtSuspend /\ status_at th s = Some AtFinalSuspend /\ forall s', ~ life_step false s s') /\
  (exists s, reachable (fun s => life_begin fs = Some s) (life_step false) s /\ at_pc s = LUndefined).
Proof.
  assert (Hrun : forall ms s, run_schedule life_act ms (mkLife (two Running Running None no_result) LBody) = Some s ->
    reachable (fun s => life_begin fs = Some s) (life_step false) s).
  { intros ms s. apply (run_schedule_reachable _ (life_step false) life_act); [|apply reachable_init, begin_two].
    intros m s1 s2 Ha. by exists m. }
  split; [exists (mkLife (two AtSuspend AtFinalSuspend (Some lh) stored) LWait)|eexists].
  - split; [apply (Hrun [TaskSuspend; Caller; TaskResume; TaskReturn; Caller])|].
    + cbn [run_schedule]. simpl life_act. rewrite status_th, decide_True by done. unfold returned. two_simpl.
      unfold launch_act. simpl. rewrite ready_two by done. two_simpl. rewrite status_th, decide_True by done. two_simpl.
      rewrite status_th, decide_True by done. two_simpl. by rewrite store_two.
    + split; [done|]. rewrite status_lh, status_th. split_and!; try done. intros s' (m & _ & Ha).
      destruct m; simpl in Ha; unfold launch_act in Ha; simpl in Ha; by rewrite ?status_th, ?status_lh, decide_False in Ha.
  - split; [apply (Hrun [TaskSuspend; TaskResume; Caller])|].
    + cbn [run_schedule]. simpl life_act. rewrite status_th, decide_True by done. unfold returned. two_simpl.
      rewrite status_th, decide_True by done. two_simpl. unfold launch_act. simpl.
      unfold await_ready, done. rewrite two_th. reflexivity.
    + done.
Qed.

End Life.

(** C29. The frames of a module's coroutines, as long as no other thread runs the
    module's task when the launch coroutine looks at it in [await_ready], and
    none completes it between that and [await_suspend]. However often the task
    suspends and whichever threads resume it, nothing undefined happens: no
    frame is resumed or destroyed while it runs or after it is gone, and the
    result is read before its frame is destroyed. The launch coroutine can
    always come to its end; when it has, with the module's exit state, both
    frames are gone and all others are as they were. An exception that leaves
    the task ends the process instead. *)
Theorem launch_frames_freed (fs : gmap nat frame) (s : life) :
  fs !! lh = None -> fs !! th = None -> lh <> th ->
  reachable (fun s => life_begin fs = Some s) (life_step true) s ->
  at_pc s <> LUndefined /\
  (exists s', rtc (life_step true) s s' /\ exists e, at_pc s' = LEnded e) /\
  forall e, at_pc s = LEnded e ->
    (e, life_frames s) = match c with
                         | Returns v => (Finished v, fs)
                         | Throws x => (Terminated x, <[lh := mkFrame Running LaunchPromise]> fs)
                         end.
Proof.
  intros Hlh Hth Hne Hr. pose proof (life_reaches fs Hlh Hth Hne s Hr) as Hok. split_and!.
  - by destruct Hok.
  - destruct (life_ends fs Hlh Hth Hne s Hok) as (s' & Hs & He). by exists s'; eauto.
  - intros e He. destruct Hok; simplify_eq/=. fold (ended fs). by destruct (ended fs).
Qed.

(** Without that condition both frames can be lost (the task has ended, the
    launch coroutine is suspended, and nothing can happen any more), and
    [handle_.done()] can be called on a running coroutine, which is undefined. *)
Theorem launch_frames_lost (fs : gmap nat frame) :
  fs !! lh = None -> fs !! th = None -> lh <> th ->
  (exists s, reachable (fun s => life_begin fs = Some s) (life_step false) s /\ at_pc s = LWait /\
     status_at lh s = Some AtSuspend /\ status_at th s = Some AtFinalSuspend /\ forall s', ~ life_step false s s') /\
  (exists s, reachable (fun s => life_begin fs = Some s) (life_step false) s /\ at_pc s = LUndefined).
Proof. apply life_disturbed. Qed.

End Frames.

(** A module task that suspends twice, beside another frame; a worker resumes it
    before the launch coroutine has stored itself. *)
Definition other_frame : gmap nat (frame (R := task_result bool nat)) := {[ 5 := mkFrame AtSuspend LaunchPromise ]}.

Definition calm_life (m : move) (s : life (T := bool) (E := nat) (R := task_result bool nat)) :=
  match m, at_pc s with
  | Caller, LReady => if decide (status_at 2 s = Some Running) then None else life_act 1 2 (Returns true) m s
  | TaskReturn, LStore => None
  | _, _ => life_act 1 2 (Returns true) m s
  end.

Lemma launch_frames_freed_witness :
  exists s0 s, life_begin 1 2 other_frame = Some s0 /\
    run_schedule calm_life [TaskSuspend; Caller; TaskResume; TaskSuspend; Caller; TaskResume; TaskReturn; Caller; Caller] s0 = Some s /\
    exists e, at_pc s = LEnded e /\ (e, life_frames s) = (Finished true, other_frame).
Proof.
  destruct (life_begin (T := bool) (E := nat) 1 2 other_frame) as [s0|] eqn:E0; [|vm_compute in E0; discriminate].
  destruct (run_schedule calm_life [TaskSuspend; Caller; TaskResume; TaskSuspend; Caller; TaskResume; TaskReturn; Caller; Caller] s0)
    as [s|] eqn:E.
  - exists s0, s. split; [reflexivity|]. split; [exact E|].
    assert (He : at_pc s = LEnded (Finished true)).
    { vm_compute in E0. injection E0 as <-. vm_compute in E. injection E as <-. reflexivity. }
    exists (Finished true). split; [exact He|].
    apply (launch_frames_freed (E := nat) (R := task_result bool nat) 1 2 (Returns true) other_frame s eq_refl eq_refl ltac:(lia));
      [|exact He].
    eapply (run_schedule_reachable _ _ calm_life); [|apply (reachable_init _ _ s0 E0)|exact E].
    intros m s1 s2 Hm. exists m. unfold undisturbed. unfold calm_life in Hm.
    destruct m, (at_pc s1); try case_decide; try discriminate; split; done.
  - vm_compute in E0. injection E0 as <-. vm_compute in E. discriminate.
Defined.
