(* ===== verification/ActorModule.v ===== *)
(** * Modules (include/actor_module.h, src/core/actor_module.cc,
      src/modules/network_module/gateway_actor.cc)

    The body of a module's coroutine over its mailbox, its parent's mailbox and
    the message heap, and the gateway module. [ProcessEvent] is virtual: a
    parameter that says whether it throws, and what. *)

From Stdlib Require Import ZArith Lia.
From stdpp Require Import base list gmap strings pretty.
From S2P Require Import Prelude Fifo MailQueue EventMessage MailBox EventBus.

Local Open Scope Z_scope.

Inductive ActorExitState := kExitSuccess | kExitFailure.

#[export] Instance ActorExitState_eq_dec : EqDecision ActorExitState.
Proof. solve_decision. Defined.

(** An address no live object has, as [new] returns. *)
Definition fresh_addr {A} (m : gmap Z A) : Z := 1 + foldr Z.max 0 (map_to_list m).*1.

Lemma fresh_addr_spec {A} (m : gmap Z A) : 0 < fresh_addr m /\ m !! fresh_addr m = None.
Proof.
  unfold fresh_addr. assert (Hmax : forall l x, x ∈ l -> x <= foldr Z.max 0 l).
  { induction l as [|y l IH]; intros x Hx; [by apply not_elem_of_nil in Hx|]. simpl.
    apply elem_of_cons in Hx as [->|Hx]; [lia|]. specialize (IH x Hx). lia. }
  assert (Hpos : forall l, 0 <= foldr Z.max 0 l) by (induction l; simpl; lia).
  split; [specialize (Hpos (map_to_list m).*1); lia|].
  destruct (m !! _) as [v|] eqn:E; [|done]. exfalso.
  assert (fresh_addr m ∈ (map_to_list m).*1) as Hin.
  { apply list_elem_of_fmap. exists (fresh_addr m, v). split; [done|]. by apply elem_of_map_to_list. }
  apply Hmax in Hin. unfold fresh_addr in Hin. lia.
Qed.

(** How the body of the coroutine leaves the [try] block or stops. *)
Inductive body_result :=
  | BReturn (s : ActorExitState)
  | BThrow (what : string)
  | BSuspend.

Section Module.
Context (done : Z -> bool) (process_event : EventMessage -> option string) (self : Z) (actor_id : Z).
Implicit Types (mailbox parent : MailBox) (h : gmap Z EventMessage).

(** The receive loop of [RunCoroutine]; the message in hand ([msg], 0 for
    null) is what a handler of an exception finds. [fuel] bounds the number of
    messages handled in one go. *)
Fixpoint receive_loop (fuel : nat) mailbox h : option (body_result * Z * MailBox * gmap Z EventMessage) :=
  match fuel with
  | O => None
  | S fuel' =>
      '(received, mb1) ← try_receive mailbox;
      match received with
      | Some msg =>
          m ← h !! msg;
          if decide (type_ m = kEventCmdModuleStop) then
            h1 ← event_message_release msg h;
            Some (BReturn kExitSuccess, 0, mb1, h1)
          else
            match process_event m with
            | Some what => Some (BThrow what, msg, mb1, h)
            | None =>
                h1 ← event_message_release msg h;
                receive_loop fuel' mb1 h1
            end
      | None =>
          '(suspended, mb2) ← Wait self mb1;
          if (suspended : bool) then Some (BSuspend, 0, mb2, h) else receive_loop fuel' mb2 h
      end
  end.

(** [throw std::runtime_error("boom!boom!boom!")], the statement before the
    loop. *)
Definition throw_statement : option string := Some "boom!boom!boom!"%string.

(** The [try] block. *)
Definition try_block (fuel : nat) mailbox h : option (body_result * Z * MailBox * gmap Z EventMessage) :=
  match throw_statement with
  | Some what => Some (BThrow what, 0, mailbox, h)
  | None => receive_loop fuel mailbox h
  end.

(** [std::format("[NetActor id: {}] event_type: {}, error: {}", ...)] *)
Definition crash_text (t : EventType) (what : string) : string :=
  ("[NetActor id: " +:+ pretty actor_id +:+ "] event_type: " +:+
   event_type_to_string (event_type_value t) +:+ ", error: " +:+ what)%string.

(** The [catch] block up to the call of [error_handle]: the mailbox of the
    parent, the heap, the handles given to the scheduler. *)
Definition report_crash (what : string) (msg : Z) parent h
    : option (MailBox * gmap Z EventMessage * list Z) :=
  event_type ← (if msg =? 0 then Some kEventNone else type_ <$> h !! msg);
  h1 ← event_message_release msg h;
  let crash_msg := fresh_addr h1 in
  let h2 := <[crash_msg :=
      set_payload (new_message 1 kEventCrashReport actor_id) (crash_text event_type what)]> h1 in
  Send done crash_msg parent h2.

(** Where a resumption of the coroutine ends: it returned, it is suspended, or
    it is in the [catch] block, about to call [error_handle]. *)
Inductive run_state :=
  | RReturned (s : ActorExitState)
  | RSuspended
  | RFailing (what : string).

(** [RunCoroutine] up to its first suspension or up to [error_handle]. *)
Definition run_body (fuel : nat) mailbox parent h
    : option (run_state * MailBox * MailBox * gmap Z EventMessage * list Z) :=
  '(r, msg, mb1, h1) ← try_block fuel (MarkRunning mailbox) h;
  match r with
  | BReturn st => Some (RReturned st, mb1, parent, h1, [])
  | BSuspend => Some (RSuspended, mb1, parent, h1, [])
  | BThrow what =>
      '(parent', h2, woken) ← report_crash what msg parent h1;
      Some (RFailing what, mb1, parent', h2, woken)
  end.

(** [RunCoroutine] up to its first suspension: the exit state when it
    returned, its mailbox, the parent's, the heap, the event bus, the handles
    scheduled. The virtual [error_handle] is a parameter, as a function on the
    event bus. *)
Definition RunCoroutine (error_handle : string -> ActorEventBus -> ActorEventBus) (fuel : nat) mailbox parent h
    (bus : ActorEventBus)
    : option (option ActorExitState * MailBox * MailBox * gmap Z EventMessage * ActorEventBus * list Z) :=
  '(r, mb1, parent1, h1, woken) ← run_body fuel mailbox parent h;
  Some match r with
       | RReturned st => (Some st, mb1, parent1, h1, bus, woken)
       | RSuspended => (None, mb1, parent1, h1, bus, woken)
       | RFailing what => (Some kExitFailure, mb1, parent1, h1, error_handle what bus, woken)
       end.

End Module.

(** ** The gateway module *)

(** [GateWayActor::ProcessEvent] ignores every event and never throws. *)
Definition gateway_process_event (m : EventMessage) : option string :=
  match type_ m with kEventNone => None | _ => None end.

(** [GateWayActor::Init] and [Uninit] *)
Definition gateway_init (mailbox : Z) (b : ActorEventBus) : ActorEventBus :=
  Subscribe kEventCmdModuleStop mailbox b.

Definition gateway_uninit (mailbox : Z) (b : ActorEventBus) : ActorEventBus :=
  Unsubscribe kEventCmdModuleStop mailbox b.

(** [GateWayActor::error_handle] sleeps; it touches nothing. *)
Definition gateway_error_handle (what : string) (b : ActorEventBus) : ActorEventBus := b.

(** ** What the coroutine does *)

Section Behaviour.
Context {F : BoundedFifo Mail.try_enqueue Mail.try_dequeue}.
Context (done : Z -> bool) (process_event : EventMessage -> option string) (self actor_id : Z).
(** [ProcessEvent] does not look at the reference count. *)
Context (process_ref : forall m r, process_event (set_ref m r) = process_event m).

(** A message that is an ordinary event, handled without an exception. *)
Definition ordinary (h : gmap Z EventMessage) (p : Z) : Prop :=
  exists m, h !! p = Some m /\ type_ m <> kEventCmdModuleStop /\ process_event m = None.

Definition is_stop (h : gmap Z EventMessage) (p : Z) : Prop :=
  exists m, h !! p = Some m /\ type_ m = kEventCmdModuleStop.

(** Giving back one reference of several changes nothing but the count. *)
Lemma release_keeps p q l h h' m' :
  holds h (p :: l) -> event_message_release p h = Some h' -> q ∈ l -> h !! q = Some m' ->
  exists r, h' !! q = Some (set_ref m' r).
Proof.
  intros Hh Hr Hq Hm'. destruct (release_one _ _ _ Hh) as (m & h1 & Hm & Hr1 & E1 & Hne & Hh1).
  rewrite Hr in Hr1. simplify_eq. destruct (decide (q = p)) as [->|Hqp].
  - destruct (Hh1 p Hq) as (_ & m1 & Hm1 & _). simplify_eq. rewrite E1 in Hm1.
    unfold after_release in Hm1. destruct (1 =? ref_ m'); simplify_eq. rewrite E1.
    unfold after_release. destruct (Z.eqb_spec 1 (ref_ m')) as [E|]; [|by eexists].
    exfalso. destruct (Hh p ltac:(by left)) as (_ & m2 & Hm2 & Ho). simplify_eq. simpl in Ho.
    rewrite Z.eqb_refl in Ho. apply occurrences_elem in Hq. lia.
  - rewrite Hne by done. exists (ref_ m'). rewrite Hm'. by destruct m'.
Qed.

Lemma receive_loop_stops pre s rest fuel mb h :
  box_wf mb -> letters mb = pre ++ s :: rest -> (length pre < fuel)%nat ->
  holds h (pre ++ [s]) -> Forall (ordinary h) pre -> is_stop h s ->
  exists mb' h', receive_loop process_event self fuel mb h = Some (BReturn kExitSuccess, 0, mb', h') /\
    box_wf mb' /\ letters mb' = rest /\ release_all (pre ++ [s]) h = Some h'.
Proof.
  revert mb h fuel. induction pre as [|p pre IH]; intros mb h fuel Hwf Hl Hf Hh Ho (ms & Hms & Hst);
    (destruct fuel as [|fuel]; [lia|]); simpl in *;
    destruct (receive_letter _ _ mb Hwf Hl) as (q & -> & Hq & Hv & _); simpl.
  - rewrite Hms. simpl. rewrite decide_True by done.
    destruct (release_one _ _ _ Hh) as (m & h1 & _ & Hr & _). rewrite Hr. simpl.
    eexists _, h1. done.
  - inversion Ho as [|? ? (m & Hm & Hty & Hpr) Ho']; subst. rewrite Hm. simpl.
    rewrite decide_False by done. rewrite Hpr.
    destruct (release_one _ _ _ Hh) as (m' & h1 & _ & Hr & _ & _ & Hh1). rewrite Hr. simpl.
    assert (Hkeep : forall x mx, x ∈ pre ++ [s] -> h !! x = Some mx ->
      exists r, h1 !! x = Some (set_ref mx r)).
    { intros x mx Hx Hmx. by apply (release_keeps p x (pre ++ [s]) h). }
    destruct (IH (mkMailBox (discarded_nr_ mb) (add64 (solved_nr_ mb) 1) (consumer_ mb) (scheduled_ mb) q)
                h1 fuel) as (mb' & h' & -> & Hwf' & Hl' & Hrel); try done.
    + lia.
    + rewrite Forall_forall in Ho' |- *. intros x Hx. destruct (Ho' x Hx) as (mx & Hmx & Ht & Hp).
      destruct (Hkeep x mx) as [r Hr']; [apply elem_of_app; by left|done|].
      exists (set_ref mx r). by rewrite process_ref.
    + destruct (Hkeep s ms) as [r Hr']; [apply elem_of_app; right; by left|done|].
      by exists (set_ref ms r).
    + exists mb', h'. done.
Qed.

End Behaviour.

(** The receive loop of a module, as written: it handles the events
    waiting before the first stop command in the order they were sent, gives
    each one's reference back, and on the stop command returns [kExitSuccess]
    with the later messages still in the mailbox. *)
Theorem receive_loop_handles (k : nat) (Hk : (1 <= k)%nat) (process_event : EventMessage -> option string)
    (self : Z) (pre : list Z) (s : Z) (rest : list Z) (mb : MailBox) (h : gmap Z EventMessage) :
  (forall m r, process_event (set_ref m r) = process_event m) ->
  Mail.mq_wf k (mailbox_ mb) -> Mail.waiting k (mailbox_ mb) = pre ++ s :: rest ->
  holds h (pre ++ [s]) -> Forall (ordinary process_event h) pre -> is_stop h s ->
  exists mb' h',
    receive_loop process_event self (S (length pre)) mb h = Some (BReturn kExitSuccess, 0, mb', h') /\
    Mail.waiting k (mailbox_ mb') = rest /\
    release_all (pre ++ [s]) h = Some h'.
Proof.
  intros Hp Hwf Hl Hh Ho Hs.
  destruct (receive_loop_stops (F := Mail.mail_queue_fifo k Hk) process_event self Hp
    pre s rest (S (length pre)) mb h) as (mb' & h' & E & _ & El & Hr); try done; [lia|].
  by exists mb', h'.
Qed.

(** Two ordinary events, then a stop command. *)
Definition busy_box : MailBox :=
  mkMailBox 0 0 0 true (Mail.mkMQ 3 0
    [Mail.mkSlot 1 8; Mail.mkSlot 2 16; Mail.mkSlot 3 24; Mail.mkSlot 3 0] 4 3).

Definition busy_heap : gmap Z EventMessage :=
  {[ 8 := new_message 1 kEventNone 1; 16 := new_message 1 kEventNone 2;
     24 := new_message 2 kEventCmdModuleStop 0 ]}.

Lemma busy_box_wf : Mail.mq_wf 2 (mailbox_ busy_box).
Proof.
  split; simpl; try lia; [done| |].
  - intros i Hi. assert (i = 0 \/ i = 1 \/ i = 2) as [->|[->| ->]] by lia; reflexivity.
  - intros i Hi. assert (i = 3) as -> by lia. reflexivity.
Qed.

Lemma receive_loop_handles_witness :
  exists mb' h',
    receive_loop gateway_process_event 4096 3 busy_box busy_heap
      = Some (BReturn kExitSuccess, 0, mb', h') /\ release_all [8; 16; 24] busy_heap = Some h'.
Proof.
  destruct (receive_loop_handles 2 ltac:(lia) gateway_process_event 4096 [8; 16] 24 [] busy_box busy_heap)
    as (mb' & h' & E & _ & Hr).
  - intros m r. reflexivity.
  - exact busy_box_wf.
  - reflexivity.
  - intros p Hp. vm_compute in Hp.
    repeat (apply elem_of_cons in Hp as [->|Hp]); [..|by apply not_elem_of_nil in Hp];
      (split; [done|]); eexists; (split; [reflexivity|]); done.
  - repeat (apply Forall_cons; split; [eexists; split; [reflexivity|]; done|]). by apply Forall_nil.
  - eexists. split; reflexivity.
  - exists mb', h'. split; [exact E|exact Hr].
Defined.

(** As the code stands the loop is never reached. *)
Lemma run_body_crashes {F : BoundedFifo Mail.try_enqueue Mail.try_dequeue} done process_event self actor_id fuel mailbox parent h :
  box_wf parent -> box_room parent -> 1 <= fifo_budget (mailbox_ parent) ->
  let p := fresh_addr h in
  let h' := <[p := set_payload (new_message 1 kEventCrashReport actor_id)
               (crash_text actor_id kEventNone "boom!boom!boom!")]> h in
  exists parent' woken,
    run_body done process_event self actor_id fuel mailbox parent h
    = Some (RFailing "boom!boom!boom!", MarkRunning mailbox, parent', h', woken) /\
    box_wf parent' /\ letters parent' = letters parent ++ [p] /\
    fifo_budget (mailbox_ parent) - 1 <= fifo_budget (mailbox_ parent').
Proof.
  intros Hwf Hroom Hb p h'. unfold run_body, try_block, throw_statement, report_crash. simpl. fold p h'.
  destruct (send_accepted done p parent h') as (q & -> & Hq & Hv & Hbq); [done|lia|done|].
  simpl. eexists _, _. split; [done|]. split; [exact Hq|]. split; [exact Hv|]. simpl in *. lia.
Qed.

(** Whatever the module and whatever waits in its mailbox, [RunCoroutine] does
    not suspend, receives nothing, sends one crash report (event type
    "NOP Event") to the parent's mailbox, calls [error_handle] and returns
    [kExitFailure]. *)
Theorem run_coroutine_crashes (k : nat) (Hk : (1 <= k)%nat) (done : Z -> bool)
    (process_event : EventMessage -> option string) (self actor_id : Z)
    (error_handle : string -> ActorEventBus -> ActorEventBus) (fuel : nat)
    (mailbox parent : MailBox) (h : gmap Z EventMessage) (bus : ActorEventBus) :
  Mail.mq_wf k (mailbox_ parent) ->
  (length (Mail.waiting k (mailbox_ parent)) < Z.to_nat (2 ^ Z.of_nat k))%nat ->
  Mail.write_index_ (mailbox_ parent) + 1 + 2 ^ Z.of_nat k < 2 ^ 63 ->
  exists parent' woken,
    RunCoroutine done process_event self actor_id error_handle fuel mailbox parent h bus
    = Some (Some kExitFailure, MarkRunning mailbox, parent',
            <[fresh_addr h := set_payload (new_message 1 kEventCrashReport actor_id)
                (crash_text actor_id kEventNone "boom!boom!boom!")]> h, error_handle "boom!boom!boom!" bus, woken) /\
    Mail.waiting k (mailbox_ parent') = Mail.waiting k (mailbox_ parent) ++ [fresh_addr h].
Proof.
  intros Hwf Hroom Hb. unfold RunCoroutine.
  destruct (run_body_crashes (F := Mail.mail_queue_fifo k Hk) done process_event self actor_id fuel mailbox parent h)
    as (parent' & woken & -> & _ & Hv & _); [done|unfold box_room, letters; simpl; lia|simpl; lia|].
  simpl. eexists _, _. split; [done|]. exact Hv.
Qed.

Lemma run_coroutine_crashes_witness :
  exists parent' woken,
    RunCoroutine (fun _ => false) gateway_process_event 4096 5 gateway_error_handle 0 busy_box (new_mailbox 4) busy_heap new_bus
    = Some (Some kExitFailure, MarkRunning busy_box, parent',
            <[25 := set_payload (new_message 1 kEventCrashReport 5)
                "[NetActor id: 5] event_type: NOP Event, error: boom!boom!boom!"]> busy_heap, new_bus, woken) /\
    Mail.waiting 2 (mailbox_ parent') = [25].
Proof.
  apply (run_coroutine_crashes 2 ltac:(lia) (fun _ => false) gateway_process_event 4096 5 gateway_error_handle 0
    busy_box (new_mailbox 4) busy_heap new_bus).
  - apply Mail.new_mail_queue_wf; vm_compute; reflexivity.
  - vm_compute. lia.
  - vm_compute. reflexivity.
Defined.
