(* ===== verification/ActorManager.v ===== *)
(** * The supervisor (src/core/actor_manager.h, src/core/actor_manager.cc)

    The manager's own state, the mailboxes of its children, the message heap
    and the tasks it hands to the scheduler; every handler of its event loop.
    [dlopen] and [dlsym] are parameters, so is the iteration order of
    [childrens_] (an unordered map). *)

From Stdlib Require Import ZArith Lia.
From stdpp Require Import base list gmap strings.
From S2P Require Import Prelude Fifo MailQueue EventMessage MailBox EventBus.
From S2P Require Import PluginManager ActorModule.

Local Open Scope Z_scope.

Module Manager.

(** [struct LoadedModule]; null pointers are 0. *)
Record LoadedModule := mkLM {
  path : string;
  handle : Z;
  create_func : Z;
  destroy_func : Z
}.

(** [creator]: [None] is the empty [std::function]; otherwise the library it
    captures. *)
Record ActorMetaData := mkMD {
  actor_id : Z;
  mailbox : Z;
  module_name : string;
  creator : option LoadedModule
}.

(** A coroutine created by a creator and given to the scheduler. *)
Record launch := mkLaunch {
  l_actor : Z;
  l_mailbox : Z;
  l_module : LoadedModule
}.

Record ActorManager := mkAM {
  is_running_ : bool;
  reload_all_flag_ : bool;
  main_latch_ : Z;
  childrens_ : gmap Z ActorMetaData;
  pending_reload_ : gset Z;
  pending_stop_ : gset Z;
  pending_restart_ : gset Z;
  (* the mailboxes of the children by address, the heap of messages *)
  child_boxes : gmap Z MailBox;
  heap : gmap Z EventMessage;
  (* [generate_unique_id], [PluginManager::config_info_] *)
  next_id : Z;
  config : ac_config;
  (* coroutines given to the scheduler, in order *)
  launched : list launch
}.

(** ** State updates *)

Definition with_flags (run all : bool) (w : ActorManager) : ActorManager :=
  mkAM run all (main_latch_ w) (childrens_ w) (pending_reload_ w) (pending_stop_ w)
    (pending_restart_ w) (child_boxes w) (heap w) (next_id w) (config w) (launched w).

Definition with_children (c : gmap Z ActorMetaData) (w : ActorManager) : ActorManager :=
  mkAM (is_running_ w) (reload_all_flag_ w) (main_latch_ w) c (pending_reload_ w) (pending_stop_ w)
    (pending_restart_ w) (child_boxes w) (heap w) (next_id w) (config w) (launched w).

Definition with_pending (reload stop restart : gset Z) (w : ActorManager) : ActorManager :=
  mkAM (is_running_ w) (reload_all_flag_ w) (main_latch_ w) (childrens_ w) reload stop
    restart (child_boxes w) (heap w) (next_id w) (config w) (launched w).

Definition with_messages (b : gmap Z MailBox) (h : gmap Z EventMessage) (w : ActorManager) : ActorManager :=
  mkAM (is_running_ w) (reload_all_flag_ w) (main_latch_ w) (childrens_ w) (pending_reload_ w)
    (pending_stop_ w) (pending_restart_ w) b h (next_id w) (config w) (launched w).

Definition with_next_id (n : Z) (w : ActorManager) : ActorManager :=
  mkAM (is_running_ w) (reload_all_flag_ w) (main_latch_ w) (childrens_ w) (pending_reload_ w)
    (pending_stop_ w) (pending_restart_ w) (child_boxes w) (heap w) n (config w) (launched w).

Definition with_config (c : ac_config) (w : ActorManager) : ActorManager :=
  mkAM (is_running_ w) (reload_all_flag_ w) (main_latch_ w) (childrens_ w) (pending_reload_ w)
    (pending_stop_ w) (pending_restart_ w) (child_boxes w) (heap w) (next_id w) c (launched w).

(** [ActorScheduler::Enqueue] and [EnqueueBatch] of new coroutines. *)
Definition enqueue_tasks (l : list launch) (w : ActorManager) : ActorManager :=
  mkAM (is_running_ w) (reload_all_flag_ w) (main_latch_ w) (childrens_ w) (pending_reload_ w)
    (pending_stop_ w) (pending_restart_ w) (child_boxes w) (heap w) (next_id w) (config w)
    (launched w ++ l).

(** [main_latch_.count_down()] *)
Definition count_down (w : ActorManager) : ActorManager :=
  mkAM (is_running_ w) (reload_all_flag_ w) (main_latch_ w - 1) (childrens_ w) (pending_reload_ w)
    (pending_stop_ w) (pending_restart_ w) (child_boxes w) (heap w) (next_id w) (config w) (launched w).

(** ** Loading a library *)

Section Manager.
Context (done : Z -> bool).
Context (dlopen : string -> Z) (dlsym : Z -> string -> option Z).
Context (iter : gmap Z ActorMetaData -> list (Z * ActorMetaData)).

(** The module afterwards and the handles passed to [dlclose]. *)
Definition Close (m : LoadedModule) : LoadedModule * list Z :=
  (mkLM (path m) 0 0 0, if handle m =? 0 then [] else [handle m]).

Definition Open (m : LoadedModule) : bool * LoadedModule * list Z :=
  let (m0, closed) := Close m in
  let hd := dlopen (path m0) in
  if hd =? 0 then (false, m0, closed)
  else
    match dlsym hd "CreateModule" with
    | None => let (m1, closed1) := Close (mkLM (path m0) hd 0 0) in (false, m1, closed ++ closed1)
    | Some create =>
        match dlsym hd "DestroyModule" with
        | None =>
            let (m1, closed1) := Close (mkLM (path m0) hd create 0) in (false, m1, closed ++ closed1)
        | Some destroy => (true, mkLM (path m0) hd create destroy, closed)
        end
    end.

(** [__generate_creator] *)
Definition generate_creator (p : string) : option LoadedModule :=
  let '(ok, m, _) := Open (mkLM p 0 0 0) in if (ok : bool) then Some m else None.

(** [std::format("{}/lib{}.so", ...)] *)
Definition module_path (c : ac_config) (m : ac_module) : string :=
  (library_path c +:+ "/lib" +:+ library_name m +:+ ".so")%string.

(** A new [ActorMetaData], its coroutine, and [childrens_.emplace]. *)
Definition new_child (name : string) (lm : LoadedModule) (w : ActorManager) : launch * ActorManager :=
  let (id, nid) := generate_unique_id (next_id w) in
  let addr := fresh_addr (child_boxes w) in
  let metadata := mkMD id addr name (Some lm) in
  let w1 := with_messages (<[addr := new_mailbox Mail.kMailBoxSize]> (child_boxes w)) (heap w)
              (with_next_id nid w) in
  (mkLaunch id addr lm,
   with_children (match childrens_ w !! id with
                  | Some _ => childrens_ w
                  | None => <[id := metadata]> (childrens_ w) end) w1).

(** The loop of [__load_modules]. *)
Fixpoint load_each (ms : list ac_module) (w : ActorManager) : list launch * ActorManager :=
  match ms with
  | [] => ([], w)
  | md0 :: ms' =>
      match generate_creator (module_path (config w) md0) with
      | None => load_each ms' w
      | Some lm =>
          let (t, w1) := new_child (PluginManager.module_name md0) lm w in
          let (ts, w2) := load_each ms' w1 in (t :: ts, w2)
      end
  end.

Definition load_modules (w : ActorManager) : ActorManager :=
  let (tasks, w1) := load_each (modules (config w)) w in enqueue_tasks tasks w1.

Definition find_module (name : string) (l : list ac_module) : option ac_module :=
  List.find (fun md0 => bool_decide (name = PluginManager.module_name md0)) l.

(** [__reload_module]: only the first configured module of that name. *)
Definition reload_module (module_id : Z) (name : string) (w : ActorManager) : ActorManager :=
  match find_module name (modules (config w)) with
  | None => w
  | Some md0 =>
      match generate_creator (module_path (config w) md0) with
      | None => w
      | Some lm =>
          if module_id =? 0 then
            let (t, w1) := new_child (PluginManager.module_name md0) lm w in enqueue_tasks [t] w1
          else
            match childrens_ w !! module_id with
            | None => w
            | Some md =>
                enqueue_tasks [mkLaunch (actor_id md) (mailbox md) lm]
                  (with_children (<[module_id := mkMD (actor_id md) (mailbox md) (module_name md) (Some lm)]>
                                   (childrens_ w)) w)
            end
      end
  end.

Definition find_child (name : string) (l : list (Z * ActorMetaData)) : option (Z * ActorMetaData) :=
  List.find (fun c => bool_decide (module_name c.2 = name)) l.

(** The loop of [__reload_all_modules]. *)
Fixpoint reload_each (ms : list ac_module) (w : ActorManager) : list launch * ActorManager :=
  match ms with
  | [] => ([], w)
  | md0 :: ms' =>
      match generate_creator (module_path (config w) md0) with
      | None => reload_each ms' w
      | Some lm =>
          let (t, w1) :=
            match find_child (PluginManager.module_name md0) (iter (childrens_ w)) with
            | Some (id, md) =>
                (mkLaunch (actor_id md) (mailbox md) lm,
                 with_children (<[id := mkMD (actor_id md) (mailbox md) (module_name md) (Some lm)]>
                                  (childrens_ w)) w)
            | None => new_child (PluginManager.module_name md0) lm w
            end in
          let (ts, w2) := reload_each ms' w1 in (t :: ts, w2)
      end
  end.

Definition reload_all_modules (w : ActorManager) : ActorManager :=
  let (tasks, w1) := reload_each (modules (config w)) w in enqueue_tasks tasks w1.

(** [__restart_module] *)
Definition restart_module (md : ActorMetaData) (w : ActorManager) : ActorManager :=
  match creator md with
  | None => w
  | Some lm => enqueue_tasks [mkLaunch (actor_id md) (mailbox md) lm] w
  end.

(** ** The handlers *)

(** [new EventMessage(ref, type, 0)] *)
Definition new_event (ref : Z) (type : EventType) (w : ActorManager) : Z * ActorManager :=
  let p := fresh_addr (heap w) in
  (p, with_messages (child_boxes w) (<[p := new_message ref type 0]> (heap w)) w).

(** [md.mailbox->Send(p)]; the wake-up it may cause is the subject of
    MailBoxConc.v. *)
Definition send_child (md : ActorMetaData) (p : Z) (w : ActorManager) : option ActorManager :=
  box ← child_boxes w !! mailbox md;
  '(box', h, _) ← Send done p box (heap w);
  Some (with_messages (<[mailbox md := box']> (child_boxes w)) h w).

Definition release (p : Z) (w : ActorManager) : option ActorManager :=
  h ← event_message_release p (heap w); Some (with_messages (child_boxes w) h w).

(** The loop of [__search_module_and_remove]; the boolean: whether it returned
    from inside. *)
Fixpoint remove_loop (all : bool) (name : string) (p : Z) (l : list (Z * ActorMetaData))
    (w : ActorManager) : option (bool * ActorManager) :=
  match l with
  | [] => Some (false, w)
  | (id, md) :: l' =>
      if all || bool_decide (module_name md = name) then
        w1 ← send_child md p w;
        let w2 := with_pending ({[id]} ∪ pending_reload_ w1) (pending_stop_ w1)
                    (pending_restart_ w1 ∖ {[id]}) w1 in
        if all then remove_loop all name p l' w2 else Some (true, w2)
      else remove_loop all name p l' w
  end.

Definition search_module_and_remove (name : string) (w : ActorManager)
    : option (bool * ActorManager) :=
  let all := bool_decide (name = "all"%string) in
  let w0 := with_flags (is_running_ w) all w in
  let ref := if all then Z.max (Z.of_nat (size (childrens_ w))) 1 else 1 in
  let (p, w1) := new_event ref kEventCmdModuleStop w0 in
  '(returned, w2) ← remove_loop all name p (iter (childrens_ w1)) w1;
  if (returned : bool) then Some (true, w2)
  else if all then
    if decide (pending_reload_ w2 = ∅) then
      w3 ← release p w2; Some (true, load_modules w3)
    else Some (true, w2)
  else w3 ← release p w2; Some (false, w3).

Fixpoint exit_loop (p : Z) (l : list (Z * ActorMetaData)) (w : ActorManager) : option ActorManager :=
  match l with
  | [] => Some w
  | (id, md) :: l' =>
      let w1 := with_pending (pending_reload_ w) ({[id]} ∪ pending_stop_ w)
                  (pending_restart_ w ∖ {[id]}) w in
      w2 ← send_child md p w1;
      exit_loop p l' w2
  end.

(** [__handle_cmd_exit] *)
Definition handle_cmd_exit (w : ActorManager) : option (bool * ActorManager) :=
  if decide (childrens_ w = ∅) then Some (true, w)
  else
    let (p, w1) := new_event (Z.of_nat (size (childrens_ w))) kEventCmdModuleStop w in
    w2 ← exit_loop p (iter (childrens_ w1)) w1;
    Some (false, w2).

(** [__handle_cmd_reload]; [new_config] is what [__config_loader] returns. *)
Definition handle_cmd_reload (new_config : option ac_config) (name : string) (w : ActorManager)
    : option ActorManager :=
  match new_config with
  | None => Some w
  | Some c =>
      '(found, w1) ← search_module_and_remove name (with_config c w);
      Some (if (found : bool) then w1 else reload_module 0 name w1)
  end.

(** [__handle_cmd_remove] *)
Definition handle_cmd_remove (name : string) (w : ActorManager) : option ActorManager :=
  match find_child name (iter (childrens_ w)) with
  | None => Some w
  | Some (id, md) =>
      let (p, w1) := new_event 1 kEventCmdModuleStop w in
      send_child md p (with_pending (pending_reload_ w1) ({[id]} ∪ pending_stop_ w1)
                         (pending_restart_ w1 ∖ {[id]}) w1)
  end.

(** [__handle_event_exit] *)
Definition handle_event_exit (sender_id : Z) (w : ActorManager) : bool * ActorManager :=
  let reload_flag := bool_decide (sender_id ∈ pending_reload_ w) in
  let stop_flag := bool_decide (sender_id ∈ pending_stop_ w) in
  let restart_flag := bool_decide (sender_id ∈ pending_restart_ w) in
  let w1 := with_pending (pending_reload_ w ∖ {[sender_id]}) (pending_stop_ w ∖ {[sender_id]})
              (pending_restart_ w ∖ {[sender_id]}) w in
  match childrens_ w1 !! sender_id with
  | None => (false, w1)
  | Some md =>
      if is_running_ w1 && reload_flag then
        (false,
         if reload_all_flag_ w1 then
           if decide (pending_reload_ w1 = ∅) then reload_all_modules w1 else w1
         else reload_module sender_id (module_name md) w1)
      else if is_running_ w1 && (restart_flag && negb stop_flag) then (false, restart_module md w1)
      else
        let w2 := with_children (delete sender_id (childrens_ w1)) w1 in
        (negb (is_running_ w2) && bool_decide (childrens_ w2 = ∅), w2)
  end.

(** [__handle_event_crash]; the text of the report is logged. *)
Definition handle_event_crash (message : EventMessage) (w : ActorManager) : option ActorManager :=
  let sender_id := sender_id_ message in
  match childrens_ w !! sender_id with
  | None => Some w
  | Some _ =>
      _ ← payload_ message;
      Some (if is_running_ w && negb (bool_decide (sender_id ∈ pending_reload_ w))
               && negb (bool_decide (sender_id ∈ pending_stop_ w))
            then with_pending (pending_reload_ w) (pending_stop_ w) ({[sender_id]} ∪ pending_restart_ w) w
            else w)
  end.

(** One turn of the inner loop of [RunCoroutine] on message [p]; the boolean:
    whether the coroutine returned. *)
Definition dispatch (new_config : option ac_config) (p : Z) (w : ActorManager)
    : option (bool * ActorManager) :=
  m ← heap w !! p;
  '(returned, w1) ←
    match type_ m with
    | kEventCmdExit => handle_cmd_exit w
    | kEventCmdModuleReload =>
        name ← payload_ m; w1 ← handle_cmd_reload new_config name w; Some (false, w1)
    | kEventCmdModuleRemove =>
        name ← payload_ m; w1 ← handle_cmd_remove name w; Some (false, w1)
    | kEventModuleExited => Some (handle_event_exit (sender_id_ m) w)
    | kEventCrashReport => w1 ← handle_event_crash m w; Some (false, w1)
    | _ => Some (false, w)
    end;
  let w2 := if (returned : bool) then count_down w1 else w1 in
  w3 ← release p w2;
  Some (returned, w3).

(** The loop of [RunCoroutine]: the messages waiting in the manager's mailbox [own], one
    after the other; the boolean: whether the coroutine returned (otherwise it
    is suspended in [Wait]). [configs] answers the calls of the configuration
    loader. *)
Fixpoint run_loop (fuel : nat) (self : Z) (configs : nat -> option ac_config)
    (own : MailBox) (w : ActorManager) : option (bool * MailBox * ActorManager) :=
  match fuel with
  | O => None
  | S fuel' =>
      '(received, own1) ← try_receive own;
      match received with
      | Some p =>
          '(returned, w1) ← dispatch (configs fuel) p w;
          if (returned : bool) then Some (true, own1, w1)
          else run_loop fuel' self configs own1 w1
      | None =>
          '(suspended, own2) ← Wait self own1;
          if (suspended : bool) then Some (false, own2, w)
          else run_loop fuel' self configs own2 w
      end
  end.

(** [RunCoroutine], from its first resumption. *)
Definition RunCoroutine (fuel : nat) (self : Z) (configs : nat -> option ac_config)
    (own : MailBox) (w : ActorManager) : option (bool * MailBox * ActorManager) :=
  run_loop fuel self configs (MarkRunning own) w.

(** ** The coroutine of a child *)

(** What a module's library supplies: [create_func] (null is 0) and the
    virtual functions of the object it returns. *)
Record module_code := mkCode {
  create : Z -> Z;
  init : Z -> ActorEventBus -> ActorEventBus;
  uninit : Z -> ActorEventBus -> ActorEventBus;
  process_event : EventMessage -> option string;
  error_handle : string -> ActorEventBus -> ActorEventBus
}.

(** What a child's coroutine touches: its mailbox, the manager's, the message
    heap, the event bus, the live module objects, the handles it passed to
    [ActorScheduler::Enqueue]. *)
Record child_world := mkCW {
  cw_mailbox : MailBox;
  cw_parent : MailBox;
  cw_heap : gmap Z EventMessage;
  cw_bus : ActorEventBus;
  cw_objects : gset Z;
  cw_woken : list Z
}.

(** The end of [__launch_actor]: the exit report. *)
Definition send_exited (id : Z) (c : child_world) : option child_world :=
  let p := fresh_addr (cw_heap c) in
  '(parent, h, woken) ← Send done p (cw_parent c)
     (<[p := new_message 1 kEventModuleExited id]> (cw_heap c));
  Some (mkCW (cw_mailbox c) parent h (cw_bus c) (cw_objects c) (cw_woken c ++ woken)).

(** After the await of the module's coroutine. *)
Definition launch_finish (code : module_code) (l : launch) (actor : Z) (c : child_world)
    : option child_world :=
  send_exited (l_actor l)
    (mkCW (cw_mailbox c) (cw_parent c) (cw_heap c) (uninit code (l_mailbox l) (cw_bus c))
       (cw_objects c ∖ {[actor]}) (cw_woken c)).

(** [__launch_actor] up to the first suspension of the module's coroutine; the
    boolean: whether the coroutine finished. *)
Definition launch_actor (code : module_code) (self : Z) (fuel : nat) (l : launch) (c : child_world)
    : option (bool * child_world) :=
  if (create_func (l_module l) =? 0) || (destroy_func (l_module l) =? 0) then
    c1 ← send_exited (l_actor l) c; Some (true, c1)
  else
    let actor := create code (l_actor l) in
    if actor =? 0 then c1 ← send_exited (l_actor l) c; Some (true, c1)
    else
      '(exit_state, mb, parent, h, bus, woken) ←
        ActorModule.RunCoroutine done (process_event code) self (l_actor l) (error_handle code) fuel
          (cw_mailbox c) (cw_parent c) (cw_heap c) (init code (l_mailbox l) (cw_bus c));
      let c1 := mkCW mb parent h bus ({[actor]} ∪ cw_objects c) (cw_woken c ++ woken) in
      match exit_state with
      | None => Some (false, c1)
      | Some _ => c2 ← launch_finish code l actor c1; Some (true, c2)
      end.

(** The same for other threads to see: a module whose coroutine throws is in its
    [error_handle] between its two reports. *)
Inductive launch_state := LEnded | LSuspended | LFailing (actor : Z) (what : string).

Definition launch_begin (code : module_code) (self : Z) (fuel : nat) (l : launch) (c : child_world)
    : option (launch_state * child_world) :=
  if (create_func (l_module l) =? 0) || (destroy_func (l_module l) =? 0) then
    c1 ← send_exited (l_actor l) c; Some (LEnded, c1)
  else
    let actor := create code (l_actor l) in
    if actor =? 0 then c1 ← send_exited (l_actor l) c; Some (LEnded, c1)
    else
      '(r, mb, parent, h, woken) ←
        run_body done (process_event code) self (l_actor l) fuel (cw_mailbox c) (cw_parent c) (cw_heap c);
      let c1 := mkCW mb parent h (init code (l_mailbox l) (cw_bus c)) ({[actor]} ∪ cw_objects c)
                  (cw_woken c ++ woken) in
      match r with
      | RReturned _ => c2 ← launch_finish code l actor c1; Some (LEnded, c2)
      | RSuspended => Some (LSuspended, c1)
      | RFailing what => Some (LFailing actor what, c1)
      end.

(** [error_handle] and what follows. *)
Definition launch_failed (code : module_code) (l : launch) (actor : Z) (what : string) (c : child_world)
    : option child_world :=
  launch_finish code l actor (mkCW (cw_mailbox c) (cw_parent c) (cw_heap c) (error_handle code what (cw_bus c))
    (cw_objects c) (cw_woken c)).

Lemma launch_actor_parts code self fuel l c :
  launch_actor code self fuel l c =
  ('(st, c1) ← launch_begin code self fuel l c;
   match st with
   | LEnded => Some (true, c1)
   | LSuspended => Some (false, c1)
   | LFailing actor what => c2 ← launch_failed code l actor what c1; Some (true, c2)
   end).
Proof.
  unfold launch_actor, launch_begin, ActorModule.RunCoroutine. destruct (_ || _); [by destruct (send_exited _ _)|].
  destruct (create code (l_actor l) =? 0); [by destruct (send_exited _ _)|].
  destruct (run_body _ _ _ _ _ _ _ _) as [[[[[r mb] parent] h] woken]|]; simpl; [|done].
  destruct r as [st| |what]; simpl; [|done|done]. by destruct (launch_finish _ _ _ _).
Qed.

(** [EventLoop] up to the wait for the latch: the event loop's coroutine
    [handle] is armed as the consumer and given to the scheduler before the
    children. *)
Definition EventLoop (handle : Z) (own : MailBox) (w : ActorManager) : MailBox * list Z * ActorManager :=
  let w1 := with_flags true (reload_all_flag_ w) w in
  (ArmConsumer handle own, [handle], load_modules w1).

(** ** Requests from outside *)

(** A message for the manager itself. *)
Definition post (m : EventMessage) (own : MailBox) (w : ActorManager) : option (MailBox * ActorManager) :=
  let p := fresh_addr (heap w) in
  '(own', h, _) ← Send done p own (<[p := m]> (heap w));
  Some (own', with_messages (child_boxes w) h w).

Definition ReloadModule (name : string) (own : MailBox) (w : ActorManager)
    : option (MailBox * ActorManager) :=
  post (set_payload (new_message 1 kEventCmdModuleReload 0) name) own w.

Definition RemoveModule (name : string) (own : MailBox) (w : ActorManager)
    : option (MailBox * ActorManager) :=
  post (set_payload (new_message 1 kEventCmdModuleRemove 0) name) own w.

Definition Shutdown (own : MailBox) (w : ActorManager) : option (MailBox * ActorManager) :=
  if is_running_ w then
    post (new_message 1 kEventCmdExit 0) own (with_flags false (reload_all_flag_ w) w)
  else Some (own, w).

End Manager.

(** The manager as [EventLoop] starts it: nothing loaded yet. *)
Definition started (c : ac_config) : ActorManager :=
  mkAM true false 1 ∅ ∅ ∅ ∅ ∅ ∅ 1 c [].

(** ** Leaving *)

Section Leaving.
Context (dlopen : string -> Z) (dlsym : Z -> string -> option Z).
Context (iter : gmap Z ActorMetaData -> list (Z * ActorMetaData)).

Local Abbreviation event_exit := (handle_event_exit dlopen dlsym iter).

(** The exit reports of [ids], in this order. *)
Fixpoint run_exits (ids : list Z) (w : ActorManager) : list bool * ActorManager :=
  match ids with
  | [] => ([], w)
  | id :: ids' =>
      let (b, w1) := event_exit id w in
      let (bs, w2) := run_exits ids' w1 in (b :: bs, w2)
  end.

Lemma event_exit_stopping id md w :
  is_running_ w = false -> childrens_ w !! id = Some md ->
  event_exit id w =
  (bool_decide (delete id (childrens_ w) = ∅),
   with_children (delete id (childrens_ w))
     (with_pending (pending_reload_ w ∖ {[id]}) (pending_stop_ w ∖ {[id]})
        (pending_restart_ w ∖ {[id]}) w)).
Proof. intros Hr Hc. unfold handle_event_exit. simpl. rewrite Hc, Hr. done. Qed.

Lemma run_exits_spec ids w :
  ids <> [] -> NoDup ids -> is_running_ w = false -> dom (childrens_ w) = list_to_set ids ->
  exists w', run_exits ids w = (replicate (length ids - 1) false ++ [true], w') /\
    childrens_ w' = ∅ /\ is_running_ w' = false /\
    pending_reload_ w' = pending_reload_ w ∖ list_to_set ids /\
    pending_stop_ w' = pending_stop_ w ∖ list_to_set ids /\
    pending_restart_ w' = pending_restart_ w ∖ list_to_set ids /\
    launched w' = launched w.
Proof.
  revert w. induction ids as [|id ids IH]; intros w Hne Hnd Hr Hdom; [done|].
  apply NoDup_cons in Hnd as [Hin Hnd].
  destruct (childrens_ w !! id) as [md|] eqn:Hc.
  2:{ apply not_elem_of_dom in Hc. rewrite Hdom in Hc. set_solver. }
  simpl. rewrite (event_exit_stopping id md) by done.
  set (w1 := with_children _ _).
  assert (Hdom1 : dom (childrens_ w1) = list_to_set ids).
  { simpl. rewrite dom_delete_L, Hdom. simpl. set_solver. }
  destruct ids as [|id2 ids].
  - simpl in *. apply dom_empty_inv_L in Hdom1. rewrite bool_decide_eq_true_2 by done.
    exists w1. simpl. rewrite Hdom1, !union_empty_r_L. done.
  - destruct (IH w1) as (w' & -> & Hc' & Hr' & H1 & H2 & H3 & H4); [done..|].
    rewrite bool_decide_eq_false_2.
    2:{ intros E. assert (Hd2 : dom (childrens_ w1) = ∅) by (simpl; rewrite E; apply dom_empty_L).
        rewrite Hdom1 in Hd2. simpl in Hd2. set_solver. }
    exists w'. split; [simpl; by rewrite Nat.sub_0_r|]. split_and!; try done.
    + rewrite H1. simpl. set_solver.
    + rewrite H2. simpl. set_solver.
    + rewrite H3. simpl. set_solver.
Qed.

End Leaving.

(** Shutdown completes: once the manager is stopping, the exit reports of
    its children may come in any order; each removes its child and its pending
    marks, nothing is restarted, and exactly the last report makes the event
    loop return (which releases the main thread). *)
Theorem manager_shutdown_completes (dlopen : string -> Z) (dlsym : Z -> string -> option Z)
    (iter : gmap Z ActorMetaData -> list (Z * ActorMetaData)) (ids : list Z) (w : ActorManager) :
  ids <> [] -> NoDup ids -> is_running_ w = false -> dom (childrens_ w) = list_to_set ids ->
  exists w', run_exits dlopen dlsym iter ids w = (replicate (length ids - 1) false ++ [true], w') /\
    childrens_ w' = ∅ /\ launched w' = launched w /\
    pending_reload_ w' = pending_reload_ w ∖ list_to_set ids /\
    pending_stop_ w' = pending_stop_ w ∖ list_to_set ids /\
    pending_restart_ w' = pending_restart_ w ∖ list_to_set ids.
Proof.
  intros Hne Hnd Hr Hdom.
  destruct (run_exits_spec dlopen dlsym iter ids w Hne Hnd Hr Hdom) as (w' & E & ? & _ & ? & ? & ? & ?).
  by exists w'.
Qed.

(** Three children, one of them crashed and due for a restart. *)
Definition three_children : ActorManager :=
  mkAM false false 1
    {[ 1 := mkMD 1 11 "a" None; 2 := mkMD 2 12 "b" None; 3 := mkMD 3 13 "c" None ]}
    ∅ {[ 1; 2; 3 ]} {[ 2 ]} ∅ ∅ 4 (mkConfig "" []) [].

Lemma manager_shutdown_completes_witness :
  exists w', run_exits (fun _ => 0) (fun _ _ => None) map_to_list [3; 1; 2] three_children
    = ([false; false; true], w') /\ childrens_ w' = ∅.
Proof.
  destruct (manager_shutdown_completes (fun _ => 0) (fun _ _ => None) map_to_list [3; 1; 2] three_children)
    as (w' & E & Hc & _).
  - discriminate.
  - apply NoDup_cons; split; [vm_compute; intros H; set_solver|].
    apply NoDup_cons; split; [vm_compute; intros H; set_solver|]. apply NoDup_singleton.
  - reflexivity.
  - vm_compute. reflexivity.
  - exists w'. split; [exact E|exact Hc].
Defined.

Definition one_child : ActorManager :=
  mkAM true false 1 {[ 1 := mkMD 1 11 "net" (Some (mkLM "lib/libnet.so" 100 101 102)) ]}
    ∅ ∅ ∅ {[ 11 := new_mailbox 4 ]} ∅ 2 (mkConfig "lib" [mkModule "net" "net"]) [].

(** ** Stopping the children *)

Section Stopping.
Context (done : Z -> bool).

(** The loop of [__handle_cmd_exit] is a [send_all] with bookkeeping. *)
Lemma exit_loop_send_all p l w :
  exit_loop done p l w =
  ('(b, h, _) ← send_all done p (mailbox <$> l.*2) (child_boxes w) (heap w);
   Some (with_messages b h (with_pending (pending_reload_ w) (list_to_set l.*1 ∪ pending_stop_ w)
           (pending_restart_ w ∖ list_to_set l.*1) w))).
Proof.
  revert w. induction l as [|[id md] l IH]; intros w; simpl.
  - destruct w. simpl. unfold with_messages, with_pending. simpl.
    rewrite union_empty_l_L, difference_empty_L. done.
  - unfold send_child. simpl. destruct (child_boxes w !! mailbox md) as [box|]; simpl; [|done].
    destruct (Send done p box (heap w)) as [[[box' h1] ?]|]; simpl; [|done].
    rewrite IH. simpl.
    destruct (send_all done p _ _ h1) as [[[b2 h2] ?]|]; simpl; [|done].
    assert (list_to_set l.*1 ∪ ({[id]} ∪ pending_stop_ w) =@{gset Z}
      {[id]} ∪ list_to_set l.*1 ∪ pending_stop_ w) as -> by set_solver.
    assert ((pending_restart_ w ∖ {[id]}) ∖ list_to_set l.*1 =@{gset Z}
      pending_restart_ w ∖ ({[id]} ∪ list_to_set l.*1)) as -> by set_solver. done.
Qed.

End Stopping.

(** The exit command stops every child: the manager goes on running its
    loop, marks every child as stopping and none for a restart, and sends one
    shared stop message to all of them; each mailbox with room has it
    appended, and its reference count is the number of mailboxes that took it.
    Without children the command ends the loop at once. *)
Theorem manager_exit_stops_all (done : Z -> bool) (k : nat) (Hk : (1 <= k)%nat)
    (iter : gmap Z ActorMetaData -> list (Z * ActorMetaData)) (w : ActorManager) :
  let F := Mail.mail_queue_fifo k Hk in
  let boxes := mailbox <$> (iter (childrens_ w)).*2 in
  (forall m, iter m ≡ₚ map_to_list m) ->
  Z.of_nat (size (childrens_ w)) < 2 ^ 64 ->
  boxes_ready (F := F) (size (childrens_ w)) boxes (child_boxes w) ->
  if decide (childrens_ w = ∅) then handle_cmd_exit done iter w = Some (true, w)
  else exists w' acc,
    handle_cmd_exit done iter w = Some (false, w') /\
    childrens_ w' = childrens_ w /\ launched w' = launched w /\
    pending_stop_ w' = dom (childrens_ w) ∪ pending_stop_ w /\
    pending_restart_ w' = pending_restart_ w ∖ dom (childrens_ w) /\
    acc `sublist_of` boxes /\
    (forall a, box_letters (F := F) a (child_boxes w') = box_letters (F := F) a (child_boxes w)
        ++ replicate (Z.to_nat (occurrences a acc)) (fresh_addr (heap w))) /\
    (forall a, occurrences a acc < occurrences a boxes -> box_full (F := F) a (child_boxes w')) /\
    heap w' !! fresh_addr (heap w) =
      (if decide (acc = []) then None
       else Some (new_message (Z.of_nat (length acc)) kEventCmdModuleStop 0)).
Proof.
  intros F boxes Hiter Hsz Hready. unfold handle_cmd_exit.
  destruct (decide (childrens_ w = ∅)) as [He|He]; [done|].
  destruct (fresh_addr_spec (heap w)) as [Hp Hfresh]. set (p := fresh_addr (heap w)) in *.
  simpl. fold p. rewrite exit_loop_send_all. simpl. fold boxes.
  assert (Hlen : length boxes = size (childrens_ w)).
  { unfold boxes. rewrite !length_fmap, (Hiter (childrens_ w)). apply length_map_to_list. }
  assert (Hids : list_to_set (iter (childrens_ w)).*1 = dom (childrens_ w)).
  { apply set_eq. intros x. rewrite elem_of_list_to_set, elem_of_dom, (Hiter (childrens_ w)).
    rewrite list_elem_of_fmap. split.
    - intros ([i md] & -> & Hin%elem_of_map_to_list). by exists md.
    - intros [md Hmd]. exists (x, md). split; [done|]. by apply elem_of_map_to_list. }
  set (m := new_message (Z.of_nat (size (childrens_ w))) kEventCmdModuleStop 0).
  set (h1 := <[p := m]> (heap w)).
  assert (Hm : h1 !! p = Some m) by apply lookup_insert_eq.
  assert (Hh : forall n, (n <= size (childrens_ w))%nat -> holds h1 (replicate n p)).
  { intros n Hn. eapply holds_replicate; [lia|done|]. simpl. lia. }
  destruct (send_all_spec (F := F) done p boxes (child_boxes w) h1)
    as (b' & h' & woken & acc & -> & Hsub & Hl & Hf & Hrel).
  { by rewrite Hlen. }
  { rewrite Hlen. by apply Hh. }
  simpl. eexists _, acc. split; [done|]. simpl. rewrite Hids. split_and!; try done; [by auto|].
  pose proof (sublist_length _ _ Hsub) as Hle.
  destruct (release_all_spec _ _ (Hh (length boxes - length acc)%nat ltac:(lia))) as (h2 & Hrel2 & Hout & Hin).
  rewrite Hrel in Hrel2. simplify_eq.
  destruct (length boxes - length acc)%nat as [|d] eqn:Ed.
  - simpl in Hrel. simplify_eq. rewrite Hm. assert (length acc = size (childrens_ w)) as E by lia.
    unfold m. rewrite <- E. destruct (decide (acc = [])) as [->|]; [|done].
    simpl in E. symmetry in E. by apply map_size_empty_inv in E.
  - rewrite Hin by (simpl; by left). rewrite Hm, occurrences_replicate.
    cbn [mbind option_bind]. unfold after_release. cbn [ref_ m new_message].
    destruct (Z.eqb_spec (Z.of_nat (S d)) (Z.of_nat (size (childrens_ w)))) as [E|E].
    + assert (acc = []) as -> by (destruct acc; [done|simpl in *; lia]). by rewrite decide_True.
    + destruct (decide (acc = [])) as [->|]; [simpl in *; lia|].
      unfold set_ref, new_message. simpl. do 3 f_equal. lia.
Qed.

Lemma manager_exit_stops_all_witness :
  exists w' acc, handle_cmd_exit (fun _ => false) map_to_list one_child = Some (false, w') /\
    acc `sublist_of` [11] /\ pending_stop_ w' = {[ 1 ]}.
Proof.
  pose proof (manager_exit_stops_all (fun _ => false) 2 ltac:(lia) map_to_list one_child) as H.
  simpl in H. specialize (H ltac:(reflexivity) ltac:(vm_compute; reflexivity)).
  destruct H as (w' & acc & E & _ & _ & Hs & _ & Hacc & _).
  - intros a Ha. vm_compute in Ha. apply elem_of_cons in Ha as [->|Ha]; [|by apply not_elem_of_nil in Ha].
    exists (new_mailbox 4). split; [reflexivity|].
    split; [apply Mail.new_mail_queue_wf; vm_compute; reflexivity|]. vm_compute. discriminate.
  - exists w', acc. split; [exact E|]. split; [exact Hacc|]. rewrite Hs. vm_compute. reflexivity.
Defined.

End Manager.
