(* ===== verification/Libraries.v ===== *)
(** * Libraries, and how long they stay loaded (src/core/actor_manager.cc)

    [LoadedModule] opens a shared library and closes it when the last
    [std::shared_ptr] to it goes: the creator of a child holds one, every
    coroutine frame of [__launch_actor] another. The dynamic loader is an
    interface, [Loader], with what dlopen(3) and dlclose(3) promise; [CountedLoader]
    shows that the interface can be met. *)

From Stdlib Require Import ZArith Lia.
From stdpp Require Import base list gmap strings countable.
From S2P Require Import Prelude ActorManager.

Local Open Scope Z_scope.

Module Libraries.
Import Manager.

(** ** The dynamic loader *)

(** [refs l h]: successful calls of [dlopen] that returned [h], less the calls
    of [dlclose]; [image l h]: the object loaded as [h]; [install]: somebody
    replaces the file. *)
Class Loader (L : Type) := {
  dlopen : string -> L -> Z * L;
  dlclose : Z -> L -> L;
  dlsym : Z -> string -> L -> option Z;
  install : string -> nat -> L -> L;
  refs : L -> Z -> nat;
  image : L -> Z -> nat;
  opened_as : L -> string -> Z -> Prop
}.

(** What is loaded as [h] stays the same. *)
Definition same_object `{!Loader L} (l l' : L) (h : Z) : Prop :=
  image l' h = image l h /\ (forall p, opened_as l p h -> opened_as l' p h) /\
  (forall n, dlsym h n l' = dlsym h n l).

(** An object that was and is referenced was not touched. *)
Definition keeps `{!Loader L} (l l' : L) : Prop :=
  forall h, (0 < refs l h)%nat -> (0 < refs l' h)%nat -> same_object l l' h.

(** dlopen(3): a handle is null when the object cannot be loaded; an object is
    not unloaded, nor changed, until [dlclose] was called as often as [dlopen]
    succeeded. Nothing is said on which handle a path gives. *)
Class LoaderLaws (L : Type) `{!Loader L} := {
  dlopen_refs p l h h' : fst (dlopen p l) = h ->
    refs (snd (dlopen p l)) h' = (refs l h' + if decide (h <> 0%Z /\ h' = h) then 1 else 0)%nat;
  dlopen_keeps p l : keeps l (snd (dlopen p l));
  dlopen_name p l : fst (dlopen p l) <> 0 -> opened_as (snd (dlopen p l)) p (fst (dlopen p l));
  dlclose_refs l h h' : refs (dlclose h l) h' = (refs l h' - if decide (h' = h) then 1 else 0)%nat;
  dlclose_keeps l h : keeps l (dlclose h l);
  install_refs p i l h : refs (install p i l) h = refs l h;
  install_keeps p i l : keeps l (install p i l)
}.

Section Libraries.
Context {L : Type} `{!Loader L}.

(** ** [LoadedModule] *)

Definition Close (m : LoadedModule) (l : L) : LoadedModule * L :=
  (mkLM (path m) 0 0 0, if handle m =? 0 then l else dlclose (handle m) l).

Definition Open (m : LoadedModule) (l : L) : bool * LoadedModule * L :=
  let (m0, l0) := Close m l in
  let (hd, l1) := dlopen (path m0) l0 in
  if hd =? 0 then (false, m0, l1)
  else
    match dlsym hd "CreateModule" l1 with
    | None => let (m1, l2) := Close (mkLM (path m0) hd 0 0) l1 in (false, m1, l2)
    | Some create =>
        match dlsym hd "DestroyModule" l1 with
        | None => let (m1, l2) := Close (mkLM (path m0) hd create 0) l1 in (false, m1, l2)
        | Some destroy => (true, mkLM (path m0) hd create destroy, l1)
        end
    end.

(** ** Shared ownership *)

(** A coroutine of [__launch_actor]: not yet resumed, or with its module object
    (made by [create_func]) alive. *)
Inductive stage := Suspended | Alive.

Record libs := mkLibs {
  loader : L;
  modules : gmap nat (LoadedModule * nat);   (* with their use counts *)
  creators : gmap Z nat;                     (* the creator of each child *)
  frames : gmap nat (nat * stage);           (* the coroutines *)
  next_module : nat;
  next_frame : nat
}.

Definition with_modules (l : L) (ms : gmap nat (LoadedModule * nat)) (w : libs) : libs :=
  mkLibs l ms (creators w) (frames w) (next_module w) (next_frame w).

(** Copying a [shared_ptr]; [None]: the object is gone. *)
Definition share (i : nat) (w : libs) : option libs :=
  '(m, n) ← modules w !! i;
  Some (with_modules (loader w) (<[i := (m, S n)]> (modules w)) w).

(** Destroying a [shared_ptr]; the last one destroys the module. *)
Definition drop (i : nat) (w : libs) : option libs :=
  '(m, n) ← modules w !! i;
  Some (if (n =? 1)%nat then with_modules (snd (Close m (loader w))) (delete i (modules w)) w
        else with_modules (loader w) (<[i := (m, pred n)]> (modules w)) w).

(** [__generate_creator]: the module, with the one reference of the creator. *)
Definition generate_creator (p : string) (w : libs) : option nat * libs :=
  let '(ok, m, l) := Open (mkLM p 0 0 0) (loader w) in
  if ok : bool then
    let i := next_module w in
    (Some i, mkLibs l (<[i := (m, 1%nat)]> (modules w)) (creators w) (frames w) (S i) (next_frame w))
  else (None, with_modules (snd (Close m l)) (modules w) w).

(** Calling the creator: a suspended coroutine with its own reference. *)
Definition launch_actor (i : nat) (w : libs) : option libs :=
  w1 ← share i w;
  Some (mkLibs (loader w1) (modules w1) (creators w1) (<[next_frame w1 := (i, Suspended)]> (frames w1))
          (next_module w1) (S (next_frame w1))).

Definition set_creators (c : gmap Z nat) (w : libs) : libs :=
  mkLibs (loader w) (modules w) c (frames w) (next_module w) (next_frame w).

Definition set_frames (f : gmap nat (nat * stage)) (w : libs) : libs :=
  mkLibs (loader w) (modules w) (creators w) f (next_module w) (next_frame w).

(** The coroutine comes to its end: its parameters go with its frame. *)
Definition end_frame (f i : nat) (w : libs) : option libs := drop i (set_frames (delete f (frames w)) w).

Inductive lib_choice :=
  | Load (id : Z) (p : string)      (* [__load_modules], [__reload_module] of a new module *)
  | Reload (id : Z) (p : string)    (* [__reload_module] and [__reload_all_modules] of a child *)
  | RestartChild (id : Z)           (* [__restart_module] *)
  | Erase (id : Z)                  (* [childrens_.erase] *)
  | Resume (f : nat) (null : bool)  (* the first resume; [create_func] may return null *)
  | Finish (f : nat)                (* [Uninit], [destroy_func], the exit report *)
  | Install (p : string) (i : nat). (* a new file under the same name *)

(** What the functions of [ActorManager] and the coroutines do with the
    references to the libraries. *)
Definition lib_act (c : lib_choice) (w : libs) : option libs :=
  match c with
  | Load id p =>
      match creators w !! id, generate_creator p w with
      | Some _, _ => None
      | None, (Some i, w1) => launch_actor i (set_creators (<[id := i]> (creators w1)) w1)
      | None, (None, w1) => Some w1
      end
  | Reload id p =>
      old ← creators w !! id;
      match generate_creator p w with
      | (Some i, w1) =>
          w2 ← drop old (set_creators (<[id := i]> (creators w1)) w1);
          launch_actor i w2
      | (None, w1) => Some w1
      end
  | RestartChild id => i ← creators w !! id; launch_actor i w
  | Erase id => i ← creators w !! id; drop i (set_creators (delete id (creators w)) w)
  | Resume f null =>
      match frames w !! f with
      | Some (i, Suspended) =>
          '(m, _) ← modules w !! i;
          if (create_func m =? 0) || (destroy_func m =? 0) || null then end_frame f i w
          else Some (set_frames (<[f := (i, Alive)]> (frames w)) w)
      | _ => None
      end
  | Finish f =>
      match frames w !! f with
      | Some (i, Alive) => end_frame f i w
      | _ => None
      end
  | Install p i => Some (with_modules (install p i (loader w)) (modules w) w)
  end.

Definition lib_step (w w' : libs) : Prop := exists c, lib_act c w = Some w'.

Definition lib_start (l : L) : libs := mkLibs l ∅ ∅ ∅ 0 0.

(** ** References and counts *)

Definition is_module (i j : nat) : nat := if decide (j = i) then 1 else 0.

(** References to module [i] held by creators and frames. *)
Definition uses (w : libs) (i : nat) : nat :=
  map_sum (is_module i) (creators w) + map_sum (fun p => is_module i p.1) (frames w).

(** Modules open with handle [h]. *)
Definition loaded (h : Z) (ms : gmap nat (LoadedModule * nat)) : nat :=
  map_sum (fun p => if decide (handle p.1 = h) then 1%nat else 0%nat) ms.

Definition is_open (l : L) (m : LoadedModule) : Prop :=
  handle m <> 0 /\ opened_as l (path m) (handle m) /\
  dlsym (handle m) "CreateModule" l = Some (create_func m) /\
  dlsym (handle m) "DestroyModule" l = Some (destroy_func m).

(** [extra]: references in the hands of the code that runs. *)
Record lib_inv (l0 : L) (extra : nat -> nat) (w : libs) : Prop := {
  li_count i m n : modules w !! i = Some (m, n) -> (n = uses w i + extra i /\ 0 < n)%nat;
  li_used i : (0 < uses w i + extra i)%nat -> is_Some (modules w !! i);
  li_open i m n : modules w !! i = Some (m, n) -> is_open (loader w) m;
  li_refs h : h <> 0 -> refs (loader w) h = (refs l0 h + loaded h (modules w))%nat;
  li_fresh i : is_Some (modules w !! i) -> (i < next_module w)%nat;
  li_frames f : is_Some (frames w !! f) -> (f < next_frame w)%nat
}.

Context `{!LoaderLaws L}.
Implicit Types (w : libs) (l : L) (m : LoadedModule) (ex : nat -> nat).

Lemma is_open_same l l' m : same_object l l' (handle m) -> is_open l m -> is_open l' m.
Proof.
  intros (_ & Hn & Hs) (? & ? & ? & ?). unfold is_open. rewrite !Hs. split_and!; [done|by apply Hn|done|done].
Qed.

Lemma loaded_pos ms i m n : ms !! i = Some (m, n) -> (0 < loaded (handle m) ms)%nat.
Proof.
  intros Hi. unfold loaded. pose proof (map_sum_le (fun p => if decide (handle p.1 = handle m) then 1%nat else 0%nat) ms i _ Hi) as Hle.
  simpl in Hle. rewrite decide_True in Hle by done. lia.
Qed.

(** The library of a module is referenced. *)
Lemma module_refs l0 ex w i m n :
  lib_inv l0 ex w -> modules w !! i = Some (m, n) -> (0 < refs (loader w) (handle m))%nat.
Proof.
  intros Hi Hm. rewrite (li_refs _ _ _ Hi) by apply (li_open _ _ _ Hi _ _ _ Hm). pose proof (loaded_pos _ _ _ _ Hm). lia.
Qed.

Lemma inv_extra l0 ex ex' w c fs nf :
  let w' := mkLibs (loader w) (modules w) c fs (next_module w) nf in
  lib_inv l0 ex w -> (forall i, uses w' i + ex' i = uses w i + ex i)%nat ->
  (forall f, is_Some (fs !! f) -> (f < nf)%nat) -> lib_inv l0 ex' w'.
Proof.
  intros w' Hi He Hf. split; try (apply Hi); try done.
  - intros i m n Hm. rewrite He. by apply (li_count _ _ _ Hi i m).
  - intros i. rewrite He. apply (li_used _ _ _ Hi).
Qed.

Lemma inv_share l0 ex w i :
  lib_inv l0 ex w -> (0 < uses w i + ex i)%nat ->
  exists w', share i w = Some w' /\ lib_inv l0 (fun j => ex j + is_module i j)%nat w' /\
    creators w' = creators w /\ frames w' = frames w /\ next_frame w' = next_frame w /\
    loader w' = loader w /\ forall j, fst <$> modules w' !! j = fst <$> modules w !! j.
Proof.
  intros Hi Hu. destruct (li_used _ _ _ Hi i Hu) as [[m n] Hm]. unfold share. rewrite Hm. simpl.
  eexists. split; [done|]. split_and!; try done.
  2:{ simpl. intros j. destruct (decide (j = i)) as [->|]; [by rewrite lookup_insert_eq, Hm|by rewrite lookup_insert_ne]. }
  assert (Hl : forall h, loaded h (<[i := (m, S n)]> (modules w)) = loaded h (modules w)).
  { intros h. unfold loaded. pose proof (map_sum_update (fun p => if decide (handle p.1 = h) then 1%nat else 0%nat)
      (modules w) i (m, n) (m, S n) Hm) as E. simpl in E. lia. }
  split; simpl; try (apply Hi).
  - intros j m' n' Hj. unfold is_module. change (uses (with_modules _ _ w) j) with (uses w j).
    apply lookup_insert_Some in Hj as [[<- [= <- <-]]|[Hne Hj]].
    + destruct (li_count _ _ _ Hi _ _ _ Hm). rewrite decide_True by done. lia.
    + destruct (li_count _ _ _ Hi _ _ _ Hj). rewrite decide_False by done. lia.
  - intros j Hj. destruct (decide (j = i)) as [->|Hne]; [rewrite lookup_insert_eq; by eexists|].
    rewrite lookup_insert_ne by done. apply (li_used _ _ _ Hi). unfold is_module in Hj.
    rewrite decide_False in Hj by done. change (uses (with_modules _ _ w) j) with (uses w j) in Hj. lia.
  - intros j m' n' Hj. apply lookup_insert_Some in Hj as [[<- [= <- <-]]|[Hne Hj]]; by eapply (li_open _ _ _ Hi).
  - intros h Hh. rewrite Hl. by apply (li_refs _ _ _ Hi).
  - intros j Hj. apply (li_fresh _ _ _ Hi). destruct (decide (j = i)) as [->|]; [by eexists|].
    by rewrite lookup_insert_ne in Hj.
Qed.

Lemma keeps_trans l1 l2 l3 :
  keeps l1 l2 -> keeps l2 l3 -> (forall h, (0 < refs l1 h)%nat -> (0 < refs l2 h)%nat) -> keeps l1 l3.
Proof.
  intros H1 H2 Hp h Hh Hh3. destruct (H1 h Hh (Hp h Hh)) as (E1 & N1 & S1).
  destruct (H2 h (Hp h Hh) Hh3) as (E2 & N2 & S2). split_and!; [congruence|by auto|]. intros n. by rewrite S2, S1.
Qed.

Lemma keeps_refl l : keeps l l.
Proof. intros h _ _. by split_and!. Qed.

Lemma loaded_delete h ms i m n :
  ms !! i = Some (m, n) ->
  loaded h ms = ((if decide (handle m = h) then 1 else 0) + loaded h (delete i ms))%nat.
Proof. intros Hi. unfold loaded. by rewrite (map_sum_delete _ _ _ _ Hi). Qed.

(** The last reference closes the library; the other modules keep theirs. *)
Lemma inv_close l0 ex w i m :
  lib_inv l0 ex w -> modules w !! i = Some (m, 1%nat) -> ex i = 1%nat ->
  lib_inv l0 (fun j => ex j - is_module i j)%nat
    (with_modules (dlclose (handle m) (loader w)) (delete i (modules w)) w).
Proof.
  intros Hi Hm He. pose proof (li_open _ _ _ Hi _ _ _ Hm) as (Hnz & _).
  destruct (li_count _ _ _ Hi _ _ _ Hm) as [Hc _].
  assert (Hrefs : forall h, h <> 0 ->
    refs (dlclose (handle m) (loader w)) h = (refs l0 h + loaded h (delete i (modules w)))%nat).
  { intros h Hh. rewrite dlclose_refs, (li_refs _ _ _ Hi h Hh), (loaded_delete h _ _ _ _ Hm).
    destruct (decide (h = handle m)), (decide (handle m = h)); try congruence; lia. }
  split; simpl; try (apply Hi); try done.
  - intros j m' n' [Hne Hj]%lookup_delete_Some. unfold is_module. rewrite decide_False by done.
    rewrite Nat.sub_0_r. by apply (li_count _ _ _ Hi j m').
  - intros j Hj. unfold is_module in Hj. change (uses (with_modules _ _ w) j) with (uses w j) in Hj.
    destruct (decide (j = i)) as [->|Hne]; [lia|].
    rewrite lookup_delete_ne by done. apply (li_used _ _ _ Hi). lia.
  - intros j m' n' Hd. pose proof Hd as [Hne Hj]%lookup_delete_Some.
    pose proof (li_open _ _ _ Hi _ _ _ Hj) as Ho. apply (is_open_same (loader w)); [|done]. apply dlclose_keeps.
    + by eapply module_refs.
    + rewrite Hrefs by apply Ho. pose proof (loaded_pos _ _ _ _ Hd). lia.
  - intros j Hj. apply (li_fresh _ _ _ Hi). destruct Hj as [x [_ Hj]%lookup_delete_Some]. by eexists.
Qed.

Lemma inv_unref l0 ex w i :
  lib_inv l0 ex w -> (0 < ex i)%nat ->
  exists w', drop i w = Some w' /\ lib_inv l0 (fun j => ex j - is_module i j)%nat w' /\
    creators w' = creators w /\ frames w' = frames w /\ next_frame w' = next_frame w /\
    keeps (loader w) (loader w') /\ forall j, j <> i -> modules w' !! j = modules w !! j.
Proof.
  intros Hi He. destruct (li_used _ _ _ Hi i) as [[m n] Hm]; [lia|]. unfold drop. rewrite Hm. simpl.
  destruct (li_count _ _ _ Hi _ _ _ Hm) as [Hc Hn]. eexists. split; [done|].
  split; [|destruct (n =? 1)%nat; split_and!; try done; try apply keeps_refl; simpl].
  2:{ unfold Close. simpl. destruct (_ =? 0); [apply keeps_refl|apply dlclose_keeps]. }
  2-3: intros j Hj; by rewrite ?lookup_delete_ne, ?lookup_insert_ne.
  destruct (Nat.eqb_spec n 1) as [->|Hne].
  - unfold Close. pose proof (li_open _ _ _ Hi _ _ _ Hm) as (Hnz & _). simpl.
    destruct (Z.eqb_spec (handle m) 0); [done|]. apply inv_close; [done|done|lia].
  - assert (Hl : forall h, loaded h (<[i := (m, pred n)]> (modules w)) = loaded h (modules w)).
    { intros h. rewrite (loaded_delete h (modules w) i m n) by done. unfold loaded.
      rewrite <- insert_delete_eq, map_sum_insert by apply lookup_delete_eq. done. }
    split; simpl; try (apply Hi).
    + intros j m' n' Hj. unfold is_module. change (uses (with_modules _ _ w) j) with (uses w j).
      apply lookup_insert_Some in Hj as [[<- [= <- <-]]|[Hne' Hj]].
      * rewrite decide_True by done. lia.
      * destruct (li_count _ _ _ Hi _ _ _ Hj). rewrite decide_False by done. lia.
    + intros j Hj. destruct (decide (j = i)) as [->|Hne']; [rewrite lookup_insert_eq; by eexists|].
      rewrite lookup_insert_ne by done. apply (li_used _ _ _ Hi). unfold is_module in Hj.
      rewrite decide_False in Hj by done. change (uses (with_modules _ _ w) j) with (uses w j) in Hj. lia.
    + intros j m' n' Hj. apply lookup_insert_Some in Hj as [[<- [= <- <-]]|[_ Hj]]; by eapply (li_open _ _ _ Hi).
    + intros h Hh. rewrite Hl. by apply (li_refs _ _ _ Hi).
    + intros j Hj. apply (li_fresh _ _ _ Hi). destruct (decide (j = i)) as [->|]; [by eexists|].
      by rewrite lookup_insert_ne in Hj.
Qed.

(** ** Opening *)

(** A fresh module: open and new, or as if nothing had happened. *)
Lemma Open_spec p l :
  let '(ok, m, l') := Open (mkLM p 0 0 0) l in
  if ok then is_open l' m /\ path m = p /\ fst (dlopen p l) = handle m /\ l' = snd (dlopen p l)
  else handle m = 0 /\ forall h, h <> 0 -> refs l' h = refs l h.
Proof.
  unfold Open, Close. simpl. pose proof (dlopen_refs p l) as Hr. pose proof (dlopen_name p l) as Hn.
  destruct (dlopen p l) as [hd l1] eqn:E. simpl in *. destruct (Z.eqb_spec hd 0) as [->|Hnz].
  { split; [done|]. intros h Hh. rewrite (Hr 0 h eq_refl). rewrite decide_False by tauto. lia. }
  assert (Hback : forall h, h <> 0 -> refs (dlclose hd l1) h = refs l h).
  { intros h Hh. rewrite dlclose_refs, (Hr hd h eq_refl).
    destruct (decide (h = hd)); [rewrite decide_True by done|rewrite decide_False by tauto]; lia. }
  destruct (dlsym hd "CreateModule" l1) as [c|] eqn:Ec; simpl; [|destruct (Z.eqb_spec hd 0); done].
  destruct (dlsym hd "DestroyModule" l1) as [d|] eqn:Ed; simpl; [|destruct (Z.eqb_spec hd 0); done].
  split_and!; try done. split_and!; try done. by apply Hn.
Qed.

(** Modules stay open over a change of the loader that keeps the counts. *)
Lemma inv_loader l0 ex w l' :
  lib_inv l0 ex w -> keeps (loader w) l' -> (forall h, h <> 0 -> refs l' h = refs (loader w) h) ->
  lib_inv l0 ex (with_modules l' (modules w) w).
Proof.
  intros Hi Hk Hr. split; simpl; try (apply Hi).
  - intros i m n Hm. pose proof (li_open _ _ _ Hi _ _ _ Hm) as Ho. pose proof (module_refs _ _ _ _ _ _ Hi Hm) as Hp.
    apply (is_open_same (loader w)); [|done]. apply Hk; [done|]. rewrite Hr; [done|]. apply Ho.
  - intros h Hh. rewrite Hr by done. by apply (li_refs _ _ _ Hi).
Qed.

Lemma dlopen_more p l h : (refs l h <= refs (snd (dlopen p l)) h)%nat.
Proof. rewrite (dlopen_refs p l _ h eq_refl). lia. Qed.

Lemma Open_keeps p l : keeps l (snd (Open (mkLM p 0 0 0) l)).
Proof.
  unfold Open, Close. simpl. pose proof (dlopen_keeps p l) as Hk. pose proof (dlopen_more p l) as Hm.
  destruct (dlopen p l) as [hd l1]. simpl in *.
  assert (Hc : keeps l (if hd =? 0 then l1 else dlclose hd l1)).
  { destruct (hd =? 0); [done|]. apply (keeps_trans l l1); [done|apply dlclose_keeps|].
    intros h Hh. specialize (Hm h). lia. }
  destruct (hd =? 0) eqn:E; [done|]. destruct (dlsym hd _ l1); simpl; [|done].
  destruct (dlsym hd _ l1); simpl; [done|done].
Qed.

Lemma inv_generate l0 w p :
  lib_inv l0 (fun _ => 0%nat) w ->
  match generate_creator p w with
  | (Some i, w') =>
      lib_inv l0 (is_module i) w' /\ creators w' = creators w /\ frames w' = frames w /\
      next_frame w' = next_frame w /\ modules w !! i = None /\ loader w' = snd (dlopen p (loader w)) /\
      exists m, modules w' = <[i := (m, 1%nat)]> (modules w) /\ path m = p /\ handle m = fst (dlopen p (loader w))
  | (None, w') => lib_inv l0 (fun _ => 0%nat) w'
  end.
Proof.
  intros Hi. unfold generate_creator. pose proof (Open_spec p (loader w)) as Hs. pose proof (Open_keeps p (loader w)) as Hk.
  destruct (Open _ _) as [[ok m] l'] eqn:E. destruct ok; simpl in Hk.
  - destruct Hs as (Ho & Hp & Hh & El). set (i := next_module w).
    assert (Hnone : modules w !! i = None).
    { destruct (modules w !! i) eqn:Em; [|done]. assert (i < next_module w)%nat; [|lia].
      apply (li_fresh _ _ _ Hi). by eexists. }
    split_and!; try done; [|by exists m]. split; simpl.
    + intros j m' n' Hj. change (uses _ j) with (uses w j). unfold is_module.
      apply lookup_insert_Some in Hj as [[<- [= <- <-]]|[Hne Hj]].
      * rewrite decide_True by done. assert (uses w i = 0%nat); [|lia].
        destruct (decide (uses w i = 0%nat)); [done|].
        destruct (li_used _ _ _ Hi i) as [x Hx]; [lia|]. by rewrite Hnone in Hx.
      * rewrite decide_False by done. by apply (li_count _ _ _ Hi j m').
    + intros j Hj. change (uses _ j) with (uses w j) in Hj. unfold is_module in Hj.
      destruct (decide (j = i)) as [->|Hne]; [rewrite lookup_insert_eq; by eexists|].
      rewrite lookup_insert_ne by done. apply (li_used _ _ _ Hi). lia.
    + intros j m' n' Hj. apply lookup_insert_Some in Hj as [[<- [= <- <-]]|[Hne Hj]]; [done|].
      pose proof (module_refs _ _ _ _ _ _ Hi Hj) as Hr. apply (is_open_same (loader w)); [|by eapply (li_open _ _ _ Hi)].
      apply Hk; [done|]. rewrite El. pose proof (dlopen_more p (loader w) (handle m')). lia.
    + intros h Hh0. unfold loaded. rewrite map_sum_insert by done. simpl. fold (loaded h (modules w)).
      rewrite El, (dlopen_refs p (loader w) (handle m) h Hh), (li_refs _ _ _ Hi h Hh0). destruct Ho as [Hnz _].
      destruct (decide (handle m = h)); [rewrite decide_True by done|rewrite decide_False by (intros []; congruence)]; lia.
    + intros j Hj. destruct (decide (j = i)) as [->|]; [lia|]. rewrite lookup_insert_ne in Hj by done.
      apply (li_fresh _ _ _ Hi) in Hj. lia.
    + apply (li_frames _ _ _ Hi).
  - destruct Hs as [Hz Hr]. unfold Close. simpl. rewrite Hz. simpl. by apply inv_loader.
Qed.

(** ** Every step *)

Lemma inv_ext l0 ex ex' w : lib_inv l0 ex w -> (forall i, ex' i = ex i) -> lib_inv l0 ex' w.
Proof.
  intros Hi He. destruct w as [l ms c fs nm nf].
  apply (inv_extra l0 ex ex' (mkLibs l ms c fs nm nf)); [done|intros; by rewrite He|apply Hi].
Qed.

Lemma inv_launch l0 ex w i :
  lib_inv l0 ex w -> (0 < uses w i + ex i)%nat ->
  exists w', launch_actor i w = Some w' /\ lib_inv l0 ex w' /\ creators w' = creators w /\
    loader w' = loader w /\ forall j, fst <$> modules w' !! j = fst <$> modules w !! j.
Proof.
  intros Hi Hu. unfold launch_actor. destruct (inv_share _ _ _ _ Hi Hu) as (w1 & -> & Hi1 & Ec & Ef & En & El & Em).
  simpl. eexists. split; [done|]. split_and!; try done. apply inv_extra with (fun j => ex j + is_module i j)%nat; [done| |].
  - intros j. unfold uses. simpl. rewrite map_sum_insert.
    + simpl. assert (is_module j i = is_module i j) as -> by (unfold is_module; destruct (decide (i = j)), (decide (j = i)); congruence).
      lia.
    + destruct (frames w1 !! next_frame w1) eqn:E; [|done]. assert (next_frame w1 < next_frame w1)%nat; [|lia].
      apply (li_frames _ _ _ Hi1). by eexists.
  - intros f Hf. destruct (decide (f = next_frame w1)) as [->|]; [lia|]. rewrite lookup_insert_ne in Hf by done.
    apply (li_frames _ _ _ Hi1) in Hf. lia.
Qed.

Lemma uses_creator w id i : creators w !! id = Some i -> (0 < uses w i)%nat.
Proof.
  intros Hc. unfold uses. pose proof (map_sum_le (is_module i) _ _ _ Hc) as H. unfold is_module in H at 1.
  rewrite decide_True in H by done. lia.
Qed.

Lemma uses_frame w f i st : frames w !! f = Some (i, st) -> (0 < uses w i)%nat.
Proof.
  intros Hc. unfold uses. pose proof (map_sum_le (fun p => is_module i p.1) _ _ _ Hc) as H.
  unfold is_module in H at 1. simpl in H. rewrite decide_True in H by done. lia.
Qed.

Lemma is_module_sym i j : is_module i j = is_module j i.
Proof. unfold is_module. destruct (decide (i = j)), (decide (j = i)); congruence. Qed.

(** A frame goes, with its reference. *)
Lemma inv_end_frame l0 w f i st :
  lib_inv l0 (fun _ => 0%nat) w -> frames w !! f = Some (i, st) ->
  exists w', end_frame f i w = Some w' /\ lib_inv l0 (fun _ => 0%nat) w'.
Proof.
  intros Hi Hf. unfold end_frame.
  assert (Hi1 : lib_inv l0 (is_module i) (set_frames (delete f (frames w)) w)).
  { apply inv_extra with (fun _ => 0%nat); [done| |].
    - intros j. unfold uses. simpl. rewrite (map_sum_delete _ (frames w) f (i, st)) by done. simpl.
      rewrite (is_module_sym j i). lia.
    - intros f' [x [_ Hx]%lookup_delete_Some]. apply (li_frames _ _ _ Hi). by eexists. }
  destruct (inv_unref _ _ _ i Hi1) as (w' & -> & Hi' & _); [unfold is_module; rewrite decide_True by done; lia|].
  exists w'. split; [done|]. eapply inv_ext; [exact Hi'|]. intros j. simpl. lia.
Qed.

(** Replacing the creator of a child: the old one is in the code's hands. *)
Lemma inv_set_creator l0 w id i old :
  lib_inv l0 (is_module i) w -> creators w !! id = Some old ->
  lib_inv l0 (is_module old) (set_creators (<[id := i]> (creators w)) w).
Proof.
  intros Hi Hc. apply inv_extra with (is_module i); [done| |apply (li_frames _ _ _ Hi)].
  intros j. unfold uses. simpl. pose proof (map_sum_update (is_module j) (creators w) id old i Hc) as E.
  rewrite (is_module_sym i j), (is_module_sym old j). lia.
Qed.

Lemma inv_new_creator l0 w id i :
  lib_inv l0 (is_module i) w -> creators w !! id = None ->
  lib_inv l0 (fun _ => 0%nat) (set_creators (<[id := i]> (creators w)) w).
Proof.
  intros Hi Hc. apply inv_extra with (is_module i); [done| |apply (li_frames _ _ _ Hi)].
  intros j. unfold uses. simpl. rewrite map_sum_insert by done. rewrite (is_module_sym i j). lia.
Qed.

Lemma lib_step_inv l0 w w' :
  lib_inv l0 (fun _ => 0%nat) w -> lib_step w w' -> lib_inv l0 (fun _ => 0%nat) w'.
Proof.
  intros Hi [c Ha]. destruct c as [id p|id p|id|id|f null|f|p im]; simpl in Ha.
  - pose proof (inv_generate l0 w p Hi) as Hg. destruct (creators w !! id) eqn:Ec; [done|].
    destruct (generate_creator p w) as [[i|] w1]; [|by simplify_eq]. destruct Hg as (Hi1 & Ec1 & _).
    rewrite <- Ec1 in Ec. pose proof (inv_new_creator _ _ _ _ Hi1 Ec) as Hi2.
    destruct (inv_launch _ _ _ i Hi2) as (w2 & E & Hi3 & _); [|by rewrite E in Ha; simplify_eq].
    pose proof (uses_creator (set_creators (<[id:=i]> (creators w1)) w1) id i) as Hu. simpl in Hu.
    rewrite lookup_insert_eq in Hu. specialize (Hu eq_refl). lia.
  - pose proof (inv_generate l0 w p Hi) as Hg. destruct (creators w !! id) as [old|] eqn:Ec; [|done]. simpl in Ha.
    destruct (generate_creator p w) as [[i|] w1]; [|by simplify_eq]. destruct Hg as (Hi1 & Ec1 & _).
    rewrite <- Ec1 in Ec. pose proof (inv_set_creator _ _ _ _ _ Hi1 Ec) as Hi2.
    destruct (inv_unref _ _ _ old Hi2) as (w2 & E & Hi3 & Ecr & _); [unfold is_module; rewrite decide_True by done; lia|].
    rewrite E in Ha. simpl in Ha.
    assert (Hi4 : lib_inv l0 (fun _ => 0%nat) w2) by (eapply inv_ext; [exact Hi3|]; intros j; simpl; lia).
    destruct (inv_launch _ _ _ i Hi4) as (w3 & E3 & Hi5 & _); [|by rewrite E3 in Ha; simplify_eq].
    pose proof (uses_creator w2 id i) as Hu. rewrite Ecr in Hu. simpl in Hu.
    rewrite lookup_insert_eq in Hu. specialize (Hu eq_refl). lia.
  - destruct (creators w !! id) as [i|] eqn:Ec; [|done]. simpl in Ha. pose proof (uses_creator _ _ _ Ec).
    destruct (inv_launch _ _ _ i Hi) as (w3 & E3 & Hi5 & _); [lia|]. by rewrite E3 in Ha; simplify_eq.
  - destruct (creators w !! id) as [i|] eqn:Ec; [|done]. simpl in Ha.
    assert (Hi1 : lib_inv l0 (is_module i) (set_creators (delete id (creators w)) w)).
    { apply inv_extra with (fun _ => 0%nat); [done| |apply (li_frames _ _ _ Hi)].
      intros j. unfold uses. simpl. rewrite (map_sum_delete _ (creators w) id i) by done.
      rewrite (is_module_sym j i). lia. }
    destruct (inv_unref _ _ _ i Hi1) as (w2 & E & Hi2 & _); [unfold is_module; rewrite decide_True by done; lia|].
    rewrite E in Ha. simplify_eq. eapply inv_ext; [exact Hi2|]. intros j. simpl. lia.
  - destruct (frames w !! f) as [[i []]|] eqn:Ef; try done. destruct (modules w !! i) as [[m n]|]; [|done]. simpl in Ha.
    destruct (_ || _ || _).
    + destruct (inv_end_frame _ _ _ _ _ Hi Ef) as (w2 & E & Hi2). by rewrite E in Ha; simplify_eq.
    + simplify_eq. apply inv_extra with (fun _ => 0%nat); [done| |].
      * intros j. unfold uses. simpl. pose proof (map_sum_update (fun p => is_module j p.1) (frames w) f _ (i, Alive) Ef) as E.
        simpl in E. lia.
      * intros f' Hf'. apply (li_frames _ _ _ Hi). destruct (decide (f' = f)) as [->|]; [by eexists|].
        by rewrite lookup_insert_ne in Hf'.
  - destruct (frames w !! f) as [[i []]|] eqn:Ef; try done.
    destruct (inv_end_frame _ _ _ _ _ Hi Ef) as (w2 & E & Hi2). by rewrite E in Ha; simplify_eq.
  - simplify_eq. apply inv_loader; [done|apply install_keeps|]. intros. apply install_refs.
Qed.

Lemma lib_reachable_inv l0 w : reachable (fun w => w = lib_start l0) lib_step w -> lib_inv l0 (fun _ => 0%nat) w.
Proof.
  revert w. apply reachable_ind; [|intros w w' _; apply lib_step_inv]. intros w ->.
  split; simpl; try (intros; by rewrite ?lookup_empty in *).
  - intros i. unfold uses. simpl. rewrite !map_sum_empty. lia.
Qed.

(** The library of module [i] is loaded, its two functions are those found. *)
Definition runnable (w : libs) (i : nat) : Prop :=
  exists m n, modules w !! i = Some (m, n) /\ is_open (loader w) m /\ (0 < refs (loader w) (handle m))%nat.

Lemma inv_runnable l0 w i : lib_inv l0 (fun _ => 0%nat) w -> (0 < uses w i)%nat -> runnable w i.
Proof.
  intros Hi Hu. destruct (li_used _ _ _ Hi i) as [[m n] Hm]; [lia|]. exists m, n.
  split_and!; [done|by eapply (li_open _ _ _ Hi)|by eapply module_refs].
Qed.

(** C6. The code of a library is called only while the library is loaded: over
    any sequence of loads, reloads, restarts, removals and runs of coroutines,
    with files replaced at any time, the module of every coroutine and of every
    creator is alive and open. When the last creator and the last coroutine are
    gone, every library was closed as often as it was opened. *)
Theorem libraries_stay_loaded (l0 : L) (w : libs) :
  reachable (fun w => w = lib_start l0) lib_step w ->
  (forall f i st, frames w !! f = Some (i, st) -> runnable w i) /\
  (forall id i, creators w !! id = Some i -> runnable w i) /\
  (creators w = ∅ -> frames w = ∅ -> modules w = ∅ /\ forall h, h <> 0 -> refs (loader w) h = refs l0 h).
Proof.
  intros Hr. apply lib_reachable_inv in Hr as Hi. split_and!.
  - intros f i st Hf. by eapply inv_runnable, uses_frame.
  - intros id i Hc. by eapply inv_runnable, uses_creator.
  - intros Ec Ef. assert (Em : modules w = ∅).
    { apply map_empty. intros i. destruct (modules w !! i) as [[m n]|] eqn:E; [|done].
      destruct (li_count _ _ _ Hi _ _ _ E) as [En Hn]. unfold uses in En. rewrite Ec, Ef, !map_sum_empty in En. lia. }
    split; [done|]. intros h Hh. rewrite (li_refs _ _ _ Hi h Hh), Em. unfold loaded. rewrite map_sum_empty. lia.
Qed.

(** C37. A reload opens the new library before it lets the old one go: when
    [__generate_creator] calls [dlopen], and until after it has returned, the
    library of the child is loaded, held by the old creator. So, whatever file
    was installed since, if the loader answers with the handle it has for it,
    the reloaded child gets the old code. *)
Theorem reload_keeps_old_code (l0 : L) (w w' : libs) (id : Z) (p : string) (i i' : nat) (m m' : LoadedModule) (n n' : nat) :
  reachable (fun w => w = lib_start l0) lib_step w ->
  creators w !! id = Some i -> modules w !! i = Some (m, n) ->
  lib_act (Reload id p) w = Some w' ->
  creators w' !! id = Some i' -> modules w' !! i' = Some (m', n') ->
  (0 < refs (loader w) (handle m))%nat /\ (0 < refs (snd (dlopen p (loader w))) (handle m))%nat /\
  (handle m' = handle m -> image (loader w') (handle m') = image (loader w) (handle m)).
Proof.
  intros Hr Hc Hm Ha Hc' Hm'. apply lib_reachable_inv in Hr as Hi. simpl in Ha. rewrite Hc in Ha. simpl in Ha.
  pose proof (module_refs _ _ _ _ _ _ Hi Hm) as Hp.
  assert (Hp1 : (0 < refs (snd (dlopen p (loader w))) (handle m))%nat).
  { pose proof (dlopen_more p (loader w) (handle m)). lia. }
  split; [done|]. split; [done|]. intros Eh.
  assert (Hw' : lib_inv l0 (fun _ => 0%nat) w').
  { apply (lib_step_inv l0 w); [done|]. exists (Reload id p). simpl. by rewrite Hc. }
  pose proof (inv_generate l0 w p Hi) as Hg. destruct (generate_creator p w) as [[j|] w1] eqn:Eg.
  - destruct Hg as (Hi1 & Ec1 & _ & _ & Hj & El1 & mj & Em1 & _ & Ehj).
    assert (Hold : creators w1 !! id = Some i) by by rewrite Ec1.
    pose proof (inv_set_creator _ _ _ _ _ Hi1 Hold) as Hi2.
    destruct (inv_unref _ _ _ i Hi2) as (w2 & E & Hi3 & Ecr & _ & _ & Hk & Hmod);
      [unfold is_module; rewrite decide_True by done; lia|]. rewrite E in Ha. simpl in Ha.
    assert (Hi4 : lib_inv l0 (fun _ => 0%nat) w2) by (eapply inv_ext; [exact Hi3|]; intros x; simpl; lia).
    assert (Hcj : creators w2 !! id = Some j) by (rewrite Ecr; simpl; apply lookup_insert_eq).
    destruct (inv_launch _ _ _ j Hi4) as (w3 & E3 & _ & Ec3 & El3 & Em3);
      [pose proof (uses_creator _ _ _ Hcj); lia|]. rewrite E3 in Ha. injection Ha as <-.
    rewrite Ec3, Hcj in Hc'. injection Hc' as <-.
    assert (Hmj : modules w2 !! j = Some (mj, 1%nat)).
    { rewrite Hmod by congruence. simpl. rewrite Em1. apply lookup_insert_eq. }
    specialize (Em3 j). rewrite Hm', Hmj in Em3. injection Em3 as ->. rewrite Eh.
    rewrite El3. pose proof (module_refs _ _ _ _ _ _ Hi4 Hmj) as Hp2. rewrite Eh in Hp2. rewrite <- El1 in Hp1.
    destruct (Hk (handle m) Hp1 Hp2) as [-> _]. simpl. rewrite El1 in *.
    by destruct (dlopen_keeps p (loader w) (handle m) Hp Hp1) as [-> _].
  - injection Ha as <-. unfold generate_creator in Eg. pose proof (Open_keeps p (loader w)) as Hk.
    destruct (Open _ _) as [[ok mo] l'] eqn:Eo. destruct ok; [done|]. injection Eg as <-. simpl in *.
    rewrite Hc in Hc'. injection Hc' as <-. rewrite Hm in Hm'. injection Hm' as <- <-.
    pose proof (Open_spec p (loader w)) as Hs. rewrite Eo in Hs. destruct Hs as [Hz _].
    rewrite Hz in Hw' |- *. simpl in *. apply Hk; [done|]. exact (module_refs _ _ _ _ _ _ Hw' Hm).
Qed.

End Libraries.

Arguments libs L : clear implicits.

(** ** A loader that counts *)

(** The files by name, the objects loaded with their counts; an object is known
    by its name. *)
Record CountedLoader := mkCL { files : gmap string nat; objects : gmap Z (nat * nat) }.

Definition handle_of (p : string) : Z := Zpos (encode p).

#[global] Instance counted_loader : Loader CountedLoader := {|
  dlopen p l :=
    let h := handle_of p in
    match objects l !! h, files l !! p with
    | Some (im, n), _ => (h, mkCL (files l) (<[h := (im, S n)]> (objects l)))
    | None, Some im => (h, mkCL (files l) (<[h := (im, 1%nat)]> (objects l)))
    | None, None => (0, l)
    end;
  dlclose h l :=
    match objects l !! h with
    | Some (im, S (S n)) => mkCL (files l) (<[h := (im, S n)]> (objects l))
    | _ => mkCL (files l) (delete h (objects l))
    end;
  dlsym h n l := Some (if decide (n = "CreateModule"%string) then 1 else 2);
  install p i l := mkCL (<[p := i]> (files l)) (objects l);
  refs l h := default 0%nat (snd <$> objects l !! h);
  image l h := default 0%nat (fst <$> objects l !! h);
  opened_as l p h := h = handle_of p
|}.

#[global] Instance counted_loader_laws : LoaderLaws CountedLoader.
Proof.
  assert (Hk : forall l l' : CountedLoader, (forall h x y, objects l !! h = Some x -> objects l' !! h = Some y -> y.1 = x.1) -> keeps l l').
  { intros l l' Hl h Hh Hh'. unfold same_object. simpl in *.
    destruct (objects l !! h) as [x|] eqn:E, (objects l' !! h) as [y|] eqn:E'; simpl in *; try lia.
    by rewrite (Hl h x y). }
  split; simpl.
  - intros p l h h' <-. destruct (objects l !! handle_of p) as [[im n]|] eqn:E; simpl.
    + destruct (decide (h' = handle_of p)) as [->|Hne].
      * rewrite lookup_insert_eq, E, decide_True by done. simpl. lia.
      * rewrite lookup_insert_ne, decide_False by (done || tauto). lia.
    + destruct (files l !! p) as [im|]; simpl; [|lia].
      destruct (decide (h' = handle_of p)) as [->|Hne].
      * rewrite lookup_insert_eq, E, decide_True by done. simpl. lia.
      * rewrite lookup_insert_ne, decide_False by (done || tauto). lia.
  - intros p l. apply Hk. intros h x y. destruct (objects l !! handle_of p) as [[im n]|] eqn:E; [|destruct (files l !! p)]; simpl;
      rewrite ?lookup_insert_Some; naive_solver.
  - intros p l. by destruct (objects l !! handle_of p) as [[im n]|]; [|destruct (files l !! p)].
  - intros l h h'. destruct (objects l !! h) as [[im [|[|n]]]|] eqn:E; simpl;
      (destruct (decide (h' = h)) as [->|]; [rewrite ?lookup_insert_eq, ?lookup_delete_eq, E; simpl; lia|]);
      rewrite ?lookup_insert_ne, ?lookup_delete_ne by done; lia.
  - intros l h. apply Hk. intros h' x y. destruct (objects l !! h) as [[im [|[|n]]]|] eqn:E; simpl;
      rewrite ?lookup_insert_Some, ?lookup_delete_Some; naive_solver.
  - done.
  - intros p i l. apply Hk. simpl. naive_solver.
Qed.

Definition one_file : CountedLoader := mkCL {["libgw.so"%string := 1%nat]} ∅.

Definition one_run : list lib_choice :=
  [Load 7 "libgw.so"; Resume 0 false; Install "libgw.so" 2; Finish 0].

(** Loaded, run to its end, a new file installed, reloaded: version 1 still. *)
Lemma reload_keeps_old_code_witness :
  exists w w' i i' m m' n n',
    run_schedule lib_act one_run (lib_start one_file) = Some w /\
    creators w !! 7 = Some i /\ modules w !! i = Some (m, n) /\
    lib_act (Reload 7 "libgw.so") w = Some w' /\
    creators w' !! 7 = Some i' /\ modules w' !! i' = Some (m', n') /\
    files (loader w') !! "libgw.so"%string = Some 2%nat /\ image (loader w) (handle m) = 1%nat /\
    handle m' = handle m /\ image (loader w') (handle m') = image (loader w) (handle m).
Proof.
  do 8 eexists. split; [vm_compute; reflexivity|]. split; [reflexivity|]. split; [reflexivity|].
  split; [vm_compute; reflexivity|]. split; [reflexivity|]. split; [reflexivity|]. split; [reflexivity|].
  split; [reflexivity|].
  split; [reflexivity|].
  eapply (reload_keeps_old_code one_file _ _ 7 "libgw.so" 0 1).
  - apply (run_schedule_reachable _ lib_step lib_act) with one_run (lib_start one_file).
    + intros c x y Ha. exists c. exact Ha.
    + apply reachable_init. reflexivity.
    + vm_compute. reflexivity.
  - reflexivity.
  - reflexivity.
  - vm_compute. reflexivity.
  - reflexivity.
  - reflexivity.
  - reflexivity.
Defined.

(** A child erased while a second coroutine of it waits. *)
Definition erased_run : list lib_choice :=
  [Load 7 "libgw.so"; RestartChild 7; Erase 7; Resume 0 false; Finish 0].

Lemma libraries_stay_loaded_witness :
  exists w, run_schedule lib_act erased_run (lib_start one_file) = Some w /\
    frames w !! 1%nat = Some (0%nat, Suspended) /\ runnable w 0.
Proof.
  eexists. split; [vm_compute; reflexivity|]. split; [reflexivity|].
  eapply (proj1 (libraries_stay_loaded one_file _ ltac:(
    apply (run_schedule_reachable _ lib_step lib_act) with erased_run (lib_start one_file);
    [intros c x y Ha; exists c; exact Ha|apply reachable_init; reflexivity|vm_compute; reflexivity])) 1%nat).
  reflexivity.
Defined.

End Libraries.
