(* ===== verification/Supervision.v ===== *)
(** * Supervision: the manager and its children together

    Theorems about the manager of ActorManager.v: a crashed module comes back,
    loading and reloading start what the configuration names, the bookkeeping
    stays consistent. *)

From Stdlib Require Import ZArith Lia.
From stdpp Require Import base list gmap strings.
From S2P Require Import Prelude Fifo MailQueue EventMessage MailBox EventBus.
From S2P Require Import PluginManager ActorModule ActorManager.

Local Open Scope Z_scope.

Module Supervision.
Import Manager.

(** ** Crash and restart *)

Section Cycle.
Context (k : nat) (Hk : (1 <= k)%nat) (done : Z -> bool).

Local Instance cycle_fifo : BoundedFifo Mail.try_enqueue Mail.try_dequeue := Mail.mail_queue_fifo k Hk.

(** The manager waits on an empty mailbox: it is suspended. *)
Lemma wait_suspends self mb :
  box_wf mb -> letters mb = [] ->
  exists mb', Wait self mb = Some (true, mb') /\ letters mb' = [] /\ box_wf mb' /\ mailbox_ mb' = mailbox_ mb.
Proof.
  intros Hwf Hl. unfold Wait, await_ready, await_suspend. simpl.
  rewrite (Mail.can_dequeue_spec k) by exact Hwf.
  rewrite bool_decide_eq_false_2 by (intros H; apply H, Hl). simpl.
  eexists. split; [done|]. done.
Qed.

(** The manager handles a crash report and the exit report of a child it has
    no other plans for: it starts the child again. *)
Lemma dispatch_crash dlopen dlsym iter cfg p m id md text w :
  heap w !! p = Some m -> p <> 0 -> ref_ m = 1 -> type_ m = kEventCrashReport -> sender_id_ m = id ->
  payload_ m = Some text ->
  is_running_ w = true -> childrens_ w !! id = Some md ->
  id ∉ pending_reload_ w -> id ∉ pending_stop_ w ->
  dispatch done dlopen dlsym iter cfg p w =
  Some (false, with_messages (child_boxes w) (delete p (heap w))
    (with_pending (pending_reload_ w) (pending_stop_ w) ({[id]} ∪ pending_restart_ w) w)).
Proof.
  intros Hm Hp Hr Ht <- Hpl Hrun Hc H1 H2. unfold dispatch. rewrite Hm. simpl. rewrite Ht. simpl.
  unfold handle_event_crash. rewrite Hc, Hpl, Hrun, !bool_decide_eq_false_2 by done. simpl.
  unfold release, event_message_release. simpl. rewrite Hm. apply Z.eqb_neq in Hp. rewrite Hp. simpl.
  by rewrite Hr.
Qed.

Lemma dispatch_restart dlopen dlsym iter cfg p m id md lm w :
  heap w !! p = Some m -> p <> 0 -> ref_ m = 1 -> type_ m = kEventModuleExited -> sender_id_ m = id ->
  is_running_ w = true -> childrens_ w !! id = Some md -> creator md = Some lm ->
  id ∉ pending_reload_ w -> id ∉ pending_stop_ w -> id ∈ pending_restart_ w ->
  dispatch done dlopen dlsym iter cfg p w =
  Some (false, with_messages (child_boxes w) (delete p (heap w))
    (enqueue_tasks [mkLaunch (actor_id md) (mailbox md) lm]
      (with_pending (pending_reload_ w ∖ {[id]}) (pending_stop_ w ∖ {[id]})
         (pending_restart_ w ∖ {[id]}) w))).
Proof.
  intros Hm Hp Hr Ht <- Hrun Hc Hcr H1 H2 H3. unfold dispatch. rewrite Hm. simpl. rewrite Ht. simpl.
  unfold handle_event_exit. simpl. rewrite Hc, Hrun.
  rewrite (bool_decide_eq_false_2 (_ ∈ pending_reload_ w)), (bool_decide_eq_false_2 (_ ∈ pending_stop_ w)),
    bool_decide_eq_true_2 by done. simpl. unfold restart_module. rewrite Hcr. simpl.
  unfold release, event_message_release. simpl. rewrite Hm. apply Z.eqb_neq in Hp. rewrite Hp. simpl.
  by rewrite Hr.
Qed.

(** A child whose coroutine starts: it crashes and reports the crash. *)
Lemma launch_begin_crashes code self fuel l c :
  box_wf (cw_parent c) -> box_room (cw_parent c) -> 1 <= fifo_budget (mailbox_ (cw_parent c)) ->
  create_func (l_module l) <> 0 -> destroy_func (l_module l) <> 0 -> create code (l_actor l) <> 0 ->
  let p := fresh_addr (cw_heap c) in
  exists c', launch_begin done code self fuel l c = Some (LFailing (create code (l_actor l)) "boom!boom!boom!", c') /\
    box_wf (cw_parent c') /\ letters (cw_parent c') = letters (cw_parent c) ++ [p] /\
    fifo_budget (mailbox_ (cw_parent c)) - 1 <= fifo_budget (mailbox_ (cw_parent c')) /\
    cw_heap c' = <[p := set_payload (new_message 1 kEventCrashReport (l_actor l))
                     (crash_text (l_actor l) kEventNone "boom!boom!boom!")]> (cw_heap c) /\
    cw_bus c' = init code (l_mailbox l) (cw_bus c) /\
    cw_objects c' = {[create code (l_actor l)]} ∪ cw_objects c /\
    cw_mailbox c' = MarkRunning (cw_mailbox c).
Proof.
  intros Hwf Hroom Hb Hc Hd Ha p. unfold launch_begin. apply Z.eqb_neq in Hc, Hd, Ha. rewrite Hc, Hd. simpl. rewrite Ha.
  destruct (run_body_crashes done (process_event code) self (l_actor l) fuel (cw_mailbox c) (cw_parent c) (cw_heap c))
    as (parent' & woken & -> & Hwf' & Hl & Hbud); [done..|].
  simpl. eexists. split; [done|]. done.
Qed.

(** It leaves [error_handle] and reports its exit. *)
Lemma launch_failed_reports code l actor what c :
  box_wf (cw_parent c) -> box_room (cw_parent c) -> 1 <= fifo_budget (mailbox_ (cw_parent c)) ->
  let p := fresh_addr (cw_heap c) in
  exists c', launch_failed done code l actor what c = Some c' /\
    box_wf (cw_parent c') /\ letters (cw_parent c') = letters (cw_parent c) ++ [p] /\
    fifo_budget (mailbox_ (cw_parent c)) - 1 <= fifo_budget (mailbox_ (cw_parent c')) /\
    cw_heap c' = <[p := new_message 1 kEventModuleExited (l_actor l)]> (cw_heap c) /\
    cw_bus c' = uninit code (l_mailbox l) (error_handle code what (cw_bus c)) /\
    cw_objects c' = cw_objects c ∖ {[actor]} /\ cw_mailbox c' = cw_mailbox c.
Proof.
  intros Hwf Hroom Hb p. unfold launch_failed, launch_finish, send_exited. simpl. fold p.
  destruct (send_accepted done p (cw_parent c) (<[p := new_message 1 kEventModuleExited (l_actor l)]> (cw_heap c)))
    as (q & -> & Hq & Hv & Hbq); [done|lia|done|].
  simpl. eexists. split; [done|]. by split_and!.
Qed.

(** One after the other. *)
Lemma launch_actor_reports code self fuel l c :
  box_wf (cw_parent c) -> (length (letters (cw_parent c)) + 2 <= fifo_cap (mailbox_ (cw_parent c)))%nat ->
  2 <= fifo_budget (mailbox_ (cw_parent c)) ->
  create_func (l_module l) <> 0 -> destroy_func (l_module l) <> 0 -> create code (l_actor l) <> 0 ->
  let p := fresh_addr (cw_heap c) in
  let h1 := <[p := set_payload (new_message 1 kEventCrashReport (l_actor l))
               (crash_text (l_actor l) kEventNone "boom!boom!boom!")]> (cw_heap c) in
  exists c', launch_actor done code self fuel l c = Some (true, c') /\
    box_wf (cw_parent c') /\ letters (cw_parent c') = letters (cw_parent c) ++ [p; fresh_addr h1] /\
    fifo_budget (mailbox_ (cw_parent c)) - 2 <= fifo_budget (mailbox_ (cw_parent c')) /\
    cw_heap c' = <[fresh_addr h1 := new_message 1 kEventModuleExited (l_actor l)]> h1 /\
    cw_bus c' = uninit code (l_mailbox l) (error_handle code "boom!boom!boom!" (init code (l_mailbox l) (cw_bus c))) /\
    cw_objects c' = ({[create code (l_actor l)]} ∪ cw_objects c) ∖ {[create code (l_actor l)]} /\
    cw_mailbox c' = MarkRunning (cw_mailbox c).
Proof.
  intros Hwf Hl Hb Hc Hd Ha p h1. rewrite launch_actor_parts.
  destruct (launch_begin_crashes code self fuel l c) as (c1 & -> & Hwf1 & Hl1 & Hb1 & Eh & Eb & Eo & Em); try done;
    [unfold box_room; lia|lia|]. cbn [mbind option_bind].
  destruct (launch_failed_reports code l (create code (l_actor l)) "boom!boom!boom!" c1)
    as (c2 & -> & Hwf2 & Hl2 & Hb2 & Eh2 & Eb2 & Eo2 & Em2); try done;
    [unfold box_room; rewrite Hl1, length_app; simpl in *; lia|lia|].
  simpl. exists c2. rewrite Eh in Hl2, Eh2. rewrite Hl1, <- (assoc_L (++)) in Hl2.
  split; [done|]. split; [done|]. split; [exact Hl2|]. rewrite Eh2, Eb2, Eo2, Em2, Eb, Eo, Em. split; [simpl in *; lia|]. done.
Qed.

End Cycle.

(** A module that crashes comes back. The module's coroutine starts with
    the code as it stands and crashes; it reports the crash and then its exit
    to the manager, its object is destroyed and its [Uninit] undoes its
    [Init]. The manager, resumed on these two messages, starts the module
    again under the same id, with the same mailbox and the same library, frees
    both messages and goes back to waiting on an empty mailbox: the state is
    the one before, with one more start. *)
Theorem crashed_module_restarts (k : nat) (Hk : (1 <= k)%nat) (done : Z -> bool)
    (dlopen : string -> Z) (dlsym : Z -> string -> option Z)
    (iter : gmap Z ActorMetaData -> list (Z * ActorMetaData)) (configs : nat -> option ac_config)
    (code : module_code) (self self' : Z) (fuel : nat) (id : Z) (md : ActorMetaData)
    (lm : LoadedModule) (w : ActorManager) (own mb : MailBox) (bus : ActorEventBus) (objects : gset Z) :
  Mail.mq_wf k (mailbox_ own) -> Mail.waiting k (mailbox_ own) = [] ->
  Mail.write_index_ (mailbox_ own) + 3 + 2 ^ Z.of_nat k <= 2 ^ 63 ->
  is_running_ w = true -> childrens_ w !! id = Some md -> actor_id md = id -> creator md = Some lm ->
  id ∉ pending_reload_ w -> id ∉ pending_stop_ w -> id ∉ pending_restart_ w ->
  create_func lm <> 0 -> destroy_func lm <> 0 -> create code id <> 0 -> create code id ∉ objects ->
  let start := mkLaunch id (mailbox md) lm in
  exists c own' w',
    launch_actor done code self fuel start (mkCW mb own (heap w) bus objects []) = Some (true, c) /\
    cw_objects c = objects /\ cw_mailbox c = MarkRunning mb /\
    cw_bus c = uninit code (mailbox md) (error_handle code "boom!boom!boom!" (init code (mailbox md) bus)) /\
    run_loop done dlopen dlsym iter 3 self' configs (cw_parent c)
      (with_messages (child_boxes w) (cw_heap c) w) = Some (false, own', w') /\
    Mail.mq_wf k (mailbox_ own') /\ Mail.waiting k (mailbox_ own') = [] /\
    Mail.write_index_ (mailbox_ own') <= Mail.write_index_ (mailbox_ own) + 2 /\
    w' = enqueue_tasks [start] w.
Proof.
  intros Hwf Hl Hb Hrun Hc Hid Hcr H1 H2 H3 Hcf Hdf Ha Ho start.
  set (F := Mail.mail_queue_fifo k Hk).
  destruct (launch_actor_reports k Hk done code self fuel start (mkCW mb own (heap w) bus objects []))
    as (c & -> & Hwf' & Hl' & Hbud & Hh & Hbus & Hobj & Hmb); try done.
  { unfold letters. simpl. rewrite Hl. simpl. pose proof (Z.pow_le_mono_r 2 1 (Z.of_nat k)). lia. }
  { simpl. lia. }
  unfold letters in Hl'. simpl in Hl', Hh, Hbus, Hobj. rewrite Hl in Hl'. simpl in Hl'. set (p := fresh_addr (heap w)) in *.
  set (h1 := <[p := _]> (heap w)) in *. set (p2 := fresh_addr h1) in *.
  destruct (fresh_addr_spec (heap w)) as [Hp Hpf]. destruct (fresh_addr_spec h1) as [Hp2 Hp2f].
  fold p in Hp, Hpf. fold p2 in Hp2, Hp2f.
  assert (Hne : p2 <> p).
  { intros E. rewrite E in Hp2f. unfold h1 in Hp2f. by rewrite lookup_insert_eq in Hp2f. }
  destruct (receive_letter (F := F) p [p2] (cw_parent c) Hwf' Hl') as (q & E1 & Hq & Hv & Hb1).
  set (own1 := mkMailBox _ _ _ _ q) in E1.
  destruct (receive_letter (F := F) p2 [] own1 Hq Hv) as (q2 & E2 & Hq2 & Hv2 & Hb2).
  set (own2 := mkMailBox _ _ _ _ q2) in E2.
  destruct (wait_suspends k Hk self' own2 Hq2 Hv2) as (own3 & E3 & Hl3 & Hwf3 & Eq3).
  exists c, own3. eexists. split; [done|]. split; [rewrite Hobj; set_solver|]. split; [done|]. split; [done|].
  split.
  - cbn [run_loop]. rewrite E1. cbn [mbind option_bind].
    rewrite (dispatch_crash done dlopen dlsym iter _ p
      (set_payload (new_message 1 kEventCrashReport id) (crash_text id kEventNone "boom!boom!boom!")) id md
      (crash_text id kEventNone "boom!boom!boom!"));
      try done; simpl; try lia.
    2:{ rewrite Hh. rewrite lookup_insert_ne by done. apply lookup_insert_eq. }
    rewrite E2. cbn [mbind option_bind].
    rewrite (dispatch_restart done dlopen dlsym iter _ p2 (new_message 1 kEventModuleExited id) id md lm);
      try done; simpl; try lia; [|rewrite lookup_delete_ne, Hh by done; apply lookup_insert_eq|set_solver].
    rewrite (receive_nothing (F := F) own2 Hq2 Hv2). cbn [mbind option_bind]. rewrite E3. simpl. done.
  - split; [exact Hwf3|]. split; [exact Hl3|]. split; [rewrite Eq3; simpl in *; lia|]. subst start. rewrite Hid, Hh.
    assert (delete p2 (delete p (<[p2 := new_message 1 kEventModuleExited id]> h1)) = heap w) as ->.
    { rewrite delete_delete, delete_insert_id by done. unfold h1. by apply delete_insert_id. }
    unfold with_messages, with_pending, enqueue_tasks. simpl.
    assert (pending_reload_ w ∖ {[id]} = pending_reload_ w) as -> by set_solver.
    assert (pending_stop_ w ∖ {[id]} = pending_stop_ w) as -> by set_solver.
    assert (({[id]} ∪ pending_restart_ w) ∖ {[id]} = pending_restart_ w) as -> by set_solver.
    done.
Qed.

Definition gateway_code : module_code :=
  mkCode (fun _ => 500) gateway_init gateway_uninit gateway_process_event gateway_error_handle.

Lemma crashed_module_restarts_witness :
  exists c own' w',
    launch_actor (fun _ => false) gateway_code 4096 0 (mkLaunch 1 11 (mkLM "lib/libnet.so" 100 101 102))
      (mkCW (new_mailbox 4) (new_mailbox 4) ∅ new_bus ∅ []) = Some (true, c) /\
    run_loop (fun _ => false) (fun _ => 0) (fun _ _ => None) map_to_list 3 8192 (fun _ => None)
      (cw_parent c) (with_messages (child_boxes one_child) (cw_heap c) one_child) = Some (false, own', w') /\
    launched w' = [mkLaunch 1 11 (mkLM "lib/libnet.so" 100 101 102)] /\ heap w' = ∅.
Proof.
  destruct (crashed_module_restarts 2 ltac:(lia) (fun _ => false) (fun _ => 0) (fun _ _ => None) map_to_list
    (fun _ => None) gateway_code 4096 8192 0 1 (mkMD 1 11 "net" (Some (mkLM "lib/libnet.so" 100 101 102)))
    (mkLM "lib/libnet.so" 100 101 102) one_child (new_mailbox 4) (new_mailbox 4) new_bus ∅)
    as (c & own' & w' & E & _ & _ & _ & Er & _ & _ & _ & Ew).
  - apply Mail.new_mail_queue_wf; vm_compute; reflexivity.
  - vm_compute. reflexivity.
  - vm_compute. discriminate.
  - reflexivity.
  - vm_compute. reflexivity.
  - reflexivity.
  - reflexivity.
  - apply not_elem_of_empty.
  - apply not_elem_of_empty.
  - apply not_elem_of_empty.
  - discriminate.
  - discriminate.
  - discriminate.
  - apply not_elem_of_empty.
  - exists c, own', w'. split; [exact E|]. split; [exact Er|]. rewrite Ew. split; reflexivity.
Defined.

(** ** The bookkeeping stays consistent *)

(** A coroutine was started with an id given out and a mailbox that exists. *)
Definition launch_ok (w : ActorManager) (l : launch) : Prop :=
  1 <= l_actor l < next_id w /\ is_Some (child_boxes w !! l_mailbox l).

(** Every child is stored under its own id, given out before; it has a mailbox
    no other child has and a library; the pending sets only name children. *)
Record children_ok (w : ActorManager) : Prop := {
  co_child id md : childrens_ w !! id = Some md ->
    actor_id md = id /\ 1 <= id < next_id w /\ is_Some (child_boxes w !! mailbox md) /\
    is_Some (creator md);
  co_mailbox i j mi mj : childrens_ w !! i = Some mi -> childrens_ w !! j = Some mj ->
    mailbox mi = mailbox mj -> i = j;
  co_reload : pending_reload_ w ⊆ dom (childrens_ w);
  co_stop : pending_stop_ w ⊆ dom (childrens_ w);
  co_restart : pending_restart_ w ⊆ dom (childrens_ w);
  co_launched : Forall (launch_ok w) (launched w);
  co_next : 1 <= next_id w
}.

Lemma children_ok_messages b h w :
  dom (child_boxes w) ⊆ dom b -> children_ok w -> children_ok (with_messages b h w).
Proof.
  intros Hd [H1 H2 H3 H4 H5 H6 H7]. split; simpl; try done.
  - intros id md Hc. destruct (H1 id md Hc) as (? & ? & Hb & ?). split_and!; try done; try lia.
    apply elem_of_dom, Hd, elem_of_dom, Hb.
  - eapply Forall_impl; [exact H6|]. intros l [? Hb]. split; [done|]. simpl.
    apply elem_of_dom, Hd, elem_of_dom, Hb.
Qed.

Lemma children_ok_pending r s t w :
  r ⊆ dom (childrens_ w) -> s ⊆ dom (childrens_ w) -> t ⊆ dom (childrens_ w) ->
  children_ok w -> children_ok (with_pending r s t w).
Proof. intros Hr Hs Ht []. by split. Qed.

Lemma children_ok_flags run all w : children_ok w -> children_ok (with_flags run all w).
Proof. intros []. by split. Qed.

Lemma children_ok_config c w : children_ok w -> children_ok (with_config c w).
Proof. intros []. by split. Qed.

Lemma children_ok_count_down w : children_ok w -> children_ok (count_down w).
Proof. intros []. by split. Qed.

Lemma children_ok_enqueue l w :
  Forall (launch_ok w) l -> children_ok w -> children_ok (enqueue_tasks l w).
Proof. intros Hl []. split; try done. simpl. apply Forall_app. done. Qed.

Lemma children_ok_delete id r s t w :
  r ⊆ dom (childrens_ w) ∖ {[id]} -> s ⊆ dom (childrens_ w) ∖ {[id]} -> t ⊆ dom (childrens_ w) ∖ {[id]} ->
  children_ok w -> children_ok (with_children (delete id (childrens_ w)) (with_pending r s t w)).
Proof.
  intros Hr Hs Ht []. split; simpl; rewrite ?dom_delete_L; try done.
  - intros j md Hj. apply lookup_delete_Some in Hj as [? Hj]. by apply co_child0.
  - intros i j mi mj Hi Hj. apply lookup_delete_Some in Hi as [? Hi], Hj as [? Hj]. by apply co_mailbox0.
Qed.

(** Giving a child another library. *)
Lemma children_ok_creator id md lm w :
  childrens_ w !! id = Some md -> children_ok w ->
  let w' := with_children (<[id := mkMD (actor_id md) (mailbox md) (module_name md) (Some lm)]>
              (childrens_ w)) w in
  children_ok w' /\ launch_ok w' (mkLaunch (actor_id md) (mailbox md) lm).
Proof.
  intros Hc [H1 H2 H3 H4 H5 H6 H7]. simpl. destruct (H1 id md Hc) as (Hid & Hr & Hb & Hcr).
  split; [|split; simpl; [lia|done]].
  assert (Hd : dom (<[id := mkMD (actor_id md) (mailbox md) (module_name md) (Some lm)]> (childrens_ w))
    = dom (childrens_ w)).
  { rewrite dom_insert_L. apply elem_of_dom_2 in Hc. set_solver. }
  assert (Hold : forall j mj, <[id := mkMD (actor_id md) (mailbox md) (module_name md) (Some lm)]>
      (childrens_ w) !! j = Some mj -> exists mj', childrens_ w !! j = Some mj' /\
      actor_id mj = actor_id mj' /\ mailbox mj = mailbox mj' /\ is_Some (creator mj)).
  { intros j mj Hj. apply lookup_insert_Some in Hj as [[<- <-]|[? Hj]]; [exists md; naive_solver|].
    exists mj. split_and!; try done. by destruct (H1 j mj Hj) as (_ & _ & _ & ?). }
  split; simpl; rewrite ?Hd; try done.
  - intros j mj (mj' & Hj & -> & -> & Hcr')%Hold. destruct (H1 j mj' Hj) as (? & ? & ? & _). done.
  - intros i j mi mj (mi' & Hi & _ & -> & _)%Hold (mj' & Hj & _ & -> & _)%Hold. by apply H2.
Qed.

(** ** Starting children *)

(** The child [new_child] makes. *)
Definition born (name : string) (lm : LoadedModule) (w : ActorManager) : ActorMetaData :=
  mkMD (next_id w) (fresh_addr (child_boxes w)) name (Some lm).

Definition with_born (name : string) (lm : LoadedModule) (w : ActorManager) : ActorManager :=
  with_children (<[next_id w := born name lm w]> (childrens_ w))
    (with_messages (<[fresh_addr (child_boxes w) := new_mailbox Mail.kMailBoxSize]> (child_boxes w)) (heap w)
      (with_next_id (next_id w + 1) w)).

Lemma next_id_fresh w : children_ok w -> childrens_ w !! next_id w = None.
Proof.
  intros Hok. destruct (childrens_ w !! next_id w) as [md|] eqn:E; [|done].
  destruct (co_child _ Hok _ _ E) as (_ & ? & _). lia.
Qed.

Lemma new_child_eq name lm w :
  children_ok w -> next_id w + 1 < 2 ^ 64 ->
  new_child name lm w = (mkLaunch (next_id w) (fresh_addr (child_boxes w)) lm, with_born name lm w).
Proof.
  intros Hok Hn. unfold new_child, generate_unique_id. rewrite next_id_fresh by done.
  rewrite add64_small by (destruct Hok; lia). done.
Qed.

Lemma with_born_ok name lm w :
  children_ok w ->
  children_ok (with_born name lm w) /\
  launch_ok (with_born name lm w) (mkLaunch (next_id w) (fresh_addr (child_boxes w)) lm).
Proof.
  intros Hok. destruct (fresh_addr_spec (child_boxes w)) as [_ Hf].
  pose proof (next_id_fresh w Hok) as Hnew. destruct Hok as [H1 H2 H3 H4 H5 H6 H7].
  assert (Hbox : forall a, is_Some (child_boxes w !! a) ->
    is_Some (<[fresh_addr (child_boxes w) := new_mailbox Mail.kMailBoxSize]> (child_boxes w) !! a)).
  { intros a Ha. apply lookup_insert_is_Some'. by right. }
  assert (Hother : forall j mj, childrens_ w !! j = Some mj -> mailbox mj <> fresh_addr (child_boxes w)).
  { intros j mj Hj E. destruct (H1 j mj Hj) as (_ & _ & [b Hb] & _). by rewrite E, Hf in Hb. }
  split.
  2:{ split; simpl; [lia|]. apply lookup_insert_is_Some'. by left. }
  split; simpl; rewrite ?dom_insert_L; [| |by apply union_subseteq_r'..| |lia].
  - intros id md Hc. apply lookup_insert_Some in Hc as [[<- <-]|[Hne Hc]].
    + simpl. split_and!; try done; try lia. apply lookup_insert_is_Some'. by left.
    + destruct (H1 id md Hc) as (? & ? & ? & ?). split_and!; try done; try lia. by apply Hbox.
  - intros i j mi mj Hi Hj E.
    apply lookup_insert_Some in Hi as [[<- <-]|[? Hi]], Hj as [[<- <-]|[? Hj]]; try done.
    + simpl in E. by destruct (Hother j mj).
    + simpl in E. by destruct (Hother i mi).
    + by apply (H2 i j mi mj).
  - eapply Forall_impl; [exact H6|]. intros l [? Hl]. split; simpl; [lia|]. by apply Hbox.
Qed.

(** What starting children never changes. *)
Definition grows (w w' : ActorManager) : Prop :=
  next_id w <= next_id w' /\ dom (child_boxes w) ⊆ dom (child_boxes w') /\
  dom (childrens_ w) ⊆ dom (childrens_ w') /\ config w' = config w /\ launched w' = launched w /\
  heap w' = heap w /\ pending_reload_ w' = pending_reload_ w /\ pending_stop_ w' = pending_stop_ w /\
  pending_restart_ w' = pending_restart_ w.

#[local] Instance grows_refl : Reflexive grows.
Proof. intros w. unfold grows. split_and!; done || lia. Qed.

#[local] Instance grows_trans : Transitive grows.
Proof.
  intros w1 w2 w3 (?&?&?&?&?&?&?&?&?) (?&?&?&?&?&?&?&?&?). unfold grows.
  split_and!; try congruence; try lia; set_solver.
Qed.

Lemma launch_ok_grows w w' l : grows w w' -> launch_ok w l -> launch_ok w' l.
Proof.
  intros (Hn & Hb & _) [H1 H2]. split; [lia|]. apply elem_of_dom, Hb, elem_of_dom, H2.
Qed.

Lemma with_born_grows name lm w : grows w (with_born name lm w).
Proof. unfold grows. simpl. rewrite !dom_insert_L. split_and!; try done; lia || set_solver. Qed.

Section Loading.
Context (dlopen : string -> Z) (dlsym : Z -> string -> option Z).

Local Abbreviation gen := (generate_creator dlopen dlsym).

(** The configured modules whose library opens, with it. *)
Definition loadable (c : ac_config) (ms : list ac_module) : list (ac_module * LoadedModule) :=
  omap (fun m => pair m <$> gen (module_path c m)) ms.

(** The two loops over the configuration keep the bookkeeping consistent and
    start one coroutine per module that can be loaded. *)
Lemma load_each_ok ms w ts w' :
  children_ok w -> next_id w + Z.of_nat (length ms) < 2 ^ 64 ->
  load_each dlopen dlsym ms w = (ts, w') ->
  children_ok w' /\ Forall (launch_ok w') ts /\ grows w w'.
Proof.
  revert w ts w'. induction ms as [|m ms IH]; intros w ts w' Hok Hn E;
    cbn [load_each] in E; [by simplify_eq|].
  cbn [length] in Hn. destruct (gen _) as [lm|].
  - rewrite new_child_eq in E by (done || lia).
    destruct (with_born_ok (PluginManager.module_name m) lm w Hok) as [Hok1 Hl1].
    destruct (load_each dlopen dlsym ms _) as [ts2 w2] eqn:E2. simplify_eq.
    destruct (IH _ _ _ Hok1 ltac:(simpl; lia) E2) as (Hok2 & Hts & Hg). split; [done|]. split.
    + apply Forall_cons. split; [|done]. by eapply launch_ok_grows.
    + etrans; [|exact Hg]. apply with_born_grows.
  - apply IH; [done|lia|done].
Qed.

Lemma load_modules_ok w :
  children_ok w -> next_id w + Z.of_nat (length (modules (config w))) < 2 ^ 64 ->
  children_ok (load_modules dlopen dlsym w).
Proof.
  intros Hok Hn. unfold load_modules. destruct (load_each _ _ _ w) as [ts w'] eqn:E.
  apply load_each_ok in E as (? & ? & _); [|done..]. by apply children_ok_enqueue.
Qed.

Lemma reload_module_ok id name w :
  children_ok w -> next_id w + 1 < 2 ^ 64 -> children_ok (reload_module dlopen dlsym id name w).
Proof.
  intros Hok Hn. unfold reload_module.
  destruct (find_module _ _) as [m|]; [|done]. destruct (gen _) as [lm|]; [|done].
  destruct (id =? 0).
  - rewrite new_child_eq by done.
    destruct (with_born_ok (PluginManager.module_name m) lm w Hok) as [Hok1 Hl1].
    apply children_ok_enqueue; [|done]. by apply Forall_singleton.
  - destruct (childrens_ w !! id) as [md|] eqn:Hc; [|done].
    destruct (children_ok_creator id md lm w Hc Hok) as [Hok1 Hl1].
    apply children_ok_enqueue; [|done]. by apply Forall_singleton.
Qed.

Context (iter : gmap Z ActorMetaData -> list (Z * ActorMetaData)).
Context (iter_perm : forall m, iter m ≡ₚ map_to_list m).

Lemma find_child_some name m id md :
  find_child name (iter m) = Some (id, md) -> m !! id = Some md /\ module_name md = name.
Proof.
  unfold find_child. intros [Hin Hn]%find_some. apply bool_decide_eq_true in Hn. simpl in Hn.
  split; [|done]. apply list_elem_of_In in Hin. rewrite iter_perm in Hin. by apply elem_of_map_to_list in Hin.
Qed.

Lemma reload_each_ok ms w ts w' :
  children_ok w -> next_id w + Z.of_nat (length ms) < 2 ^ 64 ->
  reload_each dlopen dlsym iter ms w = (ts, w') ->
  children_ok w' /\ Forall (launch_ok w') ts /\ grows w w'.
Proof.
  revert w ts w'. induction ms as [|m ms IH]; intros w ts w' Hok Hn E;
    cbn [reload_each] in E; [by simplify_eq|].
  cbn [length] in Hn. destruct (gen _) as [lm|]; [|apply IH; [done|lia|done]].
  destruct (find_child _ _) as [[id md]|] eqn:Ef.
  - apply find_child_some in Ef as [Hc _].
    destruct (children_ok_creator id md lm w Hc Hok) as [Hok1 Hl1].
    destruct (reload_each dlopen dlsym iter ms _) as [ts2 w2] eqn:E2. simplify_eq.
    destruct (IH _ _ _ Hok1 ltac:(simpl; lia) E2) as (Hok2 & Hts & Hg). split; [done|]. split.
    + apply Forall_cons. split; [|done]. by eapply launch_ok_grows.
    + etrans; [|exact Hg]. unfold grows. simpl. rewrite dom_insert_L.
      split_and!; try done; lia || set_solver.
  - rewrite new_child_eq in E by (done || lia).
    destruct (with_born_ok (PluginManager.module_name m) lm w Hok) as [Hok1 Hl1].
    destruct (reload_each dlopen dlsym iter ms _) as [ts2 w2] eqn:E2. simplify_eq.
    destruct (IH _ _ _ Hok1 ltac:(simpl; lia) E2) as (Hok2 & Hts & Hg). split; [done|]. split.
    + apply Forall_cons. split; [|done]. by eapply launch_ok_grows.
    + etrans; [|exact Hg]. apply with_born_grows.
Qed.

Lemma reload_all_ok w :
  children_ok w -> next_id w + Z.of_nat (length (modules (config w))) < 2 ^ 64 ->
  children_ok (reload_all_modules dlopen dlsym iter w).
Proof.
  intros Hok Hn. unfold reload_all_modules. destruct (reload_each _ _ _ _ w) as [ts w'] eqn:E.
  apply reload_each_ok in E as (? & ? & _); [|done..]. by apply children_ok_enqueue.
Qed.

End Loading.

(** ** The handlers keep the bookkeeping *)

Section Marks.
Context (done : Z -> bool).

(** Only messages moved. *)
Definition only_messages (w w' : ActorManager) : Prop :=
  exists b h, w' = with_messages b h w /\ dom (child_boxes w) ⊆ dom b.

Lemma only_messages_ok w w' : only_messages w w' -> children_ok w -> children_ok w'.
Proof. intros (b & h & -> & Hd). by apply children_ok_messages. Qed.

Lemma send_child_messages md p w w' : send_child done md p w = Some w' -> only_messages w w'.
Proof.
  unfold send_child. destruct (child_boxes w !! mailbox md) as [box|] eqn:Hb; simpl; [|done].
  destruct (Send done p box (heap w)) as [[[box' h] ?]|]; simpl; [|done]. intros [= <-].
  eexists _, _. split; [done|]. rewrite dom_insert_L. set_solver.
Qed.

Lemma release_messages p w w' : release p w = Some w' -> only_messages w w'.
Proof.
  unfold release. destruct (event_message_release p (heap w)) as [h|]; simpl; [|done].
  intros [= <-]. by eexists _, _.
Qed.

Lemma new_event_messages r t w : only_messages w (new_event r t w).2.
Proof. by eexists _, _. Qed.

(** What the stop and reload requests leave alone. *)
Definition marks_only (w w' : ActorManager) : Prop :=
  children_ok w' /\ childrens_ w' = childrens_ w /\ config w' = config w /\ next_id w' = next_id w.

Lemma marks_only_messages w1 w2 w : marks_only w1 w2 -> only_messages w w1 -> marks_only w w2.
Proof. intros (? & ? & ? & ?) (b & h & -> & _). done. Qed.

Lemma children_in l (m : gmap Z ActorMetaData) : l ≡ₚ map_to_list m -> Forall (fun c : Z * ActorMetaData => c.1 ∈ dom m) l.
Proof.
  intros Hp. apply Forall_forall. intros [id md] Hin. rewrite Hp in Hin.
  apply elem_of_map_to_list in Hin. by apply elem_of_dom_2 in Hin.
Qed.

Lemma remove_loop_ok all name p l w b w' :
  Forall (fun c => c.1 ∈ dom (childrens_ w)) l -> children_ok w ->
  remove_loop done all name p l w = Some (b, w') -> marks_only w w'.
Proof.
  revert w. induction l as [|[id md] l IH]; intros w Hl Hok E; simpl in E; [by simplify_eq|].
  apply Forall_cons in Hl as [Hid Hl]. simpl in Hid.
  destruct (all || _); [|by apply IH].
  destruct (send_child done md p w) as [w1|] eqn:Hs; simpl in E; [|done].
  apply send_child_messages in Hs. pose proof (only_messages_ok _ _ Hs Hok) as Hok1.
  destruct Hs as (bx & h & -> & Hd). simpl in E.
  assert (Hok2 : children_ok (with_pending ({[id]} ∪ pending_reload_ w) (pending_stop_ w)
    (pending_restart_ w ∖ {[id]}) (with_messages bx h w))).
  { apply children_ok_pending; try done; simpl; destruct Hok; set_solver. }
  destruct all; [|by simplify_eq]. apply IH in E as (? & ? & ? & ?); done.
Qed.

Lemma exit_loop_ok p l w w' :
  Forall (fun c => c.1 ∈ dom (childrens_ w)) l -> children_ok w ->
  exit_loop done p l w = Some w' -> marks_only w w'.
Proof.
  revert w. induction l as [|[id md] l IH]; intros w Hl Hok E; simpl in E; [by simplify_eq|].
  apply Forall_cons in Hl as [Hid Hl]. simpl in Hid.
  destruct (send_child _ _ _ _) as [w1|] eqn:Hs; simpl in E; [|done].
  apply send_child_messages in Hs.
  assert (Hok1 : children_ok w1).
  { apply (only_messages_ok _ _ Hs), children_ok_pending; try done; destruct Hok; set_solver. }
  destruct Hs as (bx & h & -> & Hd). apply IH in E as (? & ? & ? & ?); done.
Qed.

End Marks.

Section Handlers.
Context (dlopen : string -> Z) (dlsym : Z -> string -> option Z).
Context (iter : gmap Z ActorMetaData -> list (Z * ActorMetaData)).
Context (iter_perm : forall m, iter m ≡ₚ map_to_list m).

Lemma event_exit_ok id w :
  children_ok w -> next_id w + Z.of_nat (length (modules (config w))) < 2 ^ 64 -> next_id w + 1 < 2 ^ 64 ->
  children_ok (handle_event_exit dlopen dlsym iter id w).2.
Proof.
  intros Hok Hn Hn1. unfold handle_event_exit. simpl. set (w1 := with_pending _ _ _ w).
  assert (Hok1 : children_ok w1) by (apply children_ok_pending; try done; destruct Hok; set_solver).
  destruct (childrens_ w !! id) as [md|] eqn:Hc; [|done].
  destruct (is_running_ w && _).
  { simpl. destruct (reload_all_flag_ w); [destruct (decide _); [by apply reload_all_ok|done]|].
    by apply reload_module_ok. }
  destruct (is_running_ w && _).
  { simpl. unfold restart_module. destruct (creator md) as [lm|]; [|done].
    apply children_ok_enqueue; [|done]. apply Forall_singleton.
    destruct (co_child _ Hok _ _ Hc) as (Hid & Hr & Hb & _). split; simpl; [lia|done]. }
  simpl. apply children_ok_delete; try done; destruct Hok; set_solver.
Qed.

Context (done : Z -> bool).

Lemma search_ok name w b w' :
  children_ok w -> next_id w + Z.of_nat (length (modules (config w))) < 2 ^ 64 ->
  search_module_and_remove done dlopen dlsym iter name w = Some (b, w') ->
  children_ok w' /\ (b = false -> next_id w' = next_id w).
Proof.
  intros Hok Hn. unfold search_module_and_remove. set (all := bool_decide _).
  set (ref := if all then _ else _). simpl. set (w1 := with_messages _ _ _).
  assert (Hok1 : children_ok w1) by by apply children_ok_messages, children_ok_flags.
  destruct (remove_loop _ _ _ _ _ w1) as [[ret w2]|] eqn:E; simpl; [|done].
  apply remove_loop_ok in E as (Hok2 & _ & Hc & Hn2); [|by apply children_in, iter_perm|done].
  destruct ret; [by intros [= <- <-]|]. destruct all.
  - destruct (decide _); [|by intros [= <- <-]].
    destruct (release _ w2) as [w3|] eqn:Er; simpl; [|done]. intros [= <- <-]. split; [|done].
    apply release_messages in Er. pose proof (only_messages_ok _ _ Er Hok2).
    destruct Er as (bx & h & -> & _). apply load_modules_ok; [done|]. simpl. rewrite Hc, Hn2. done.
  - destruct (release _ w2) as [w3|] eqn:Er; simpl; [|done]. intros [= <- <-].
    apply release_messages in Er. split; [by eapply only_messages_ok|].
    destruct Er as (bx & h & -> & _). done.
Qed.

End Handlers.

(** C17. Whatever message the manager handles, its bookkeeping stays
    consistent: every child is stored under its own id, an id given out by
    [generate_unique_id] to no other child, with a mailbox no other child has
    and a library to start it from; the pending sets name only children; every
    coroutine started has a mailbox. The ids must not reach the end of the
    64-bit counter. *)
Theorem dispatch_keeps_children (done : Z -> bool) (dlopen : string -> Z) (dlsym : Z -> string -> option Z)
    (iter : gmap Z ActorMetaData -> list (Z * ActorMetaData)) (cfg : option ac_config) (p : Z)
    (w : ActorManager) (b : bool) (w' : ActorManager) :
  (forall m, iter m ≡ₚ map_to_list m) ->
  children_ok w -> next_id w + 1 < 2 ^ 64 ->
  next_id w + Z.of_nat (length (modules (config w))) < 2 ^ 64 ->
  (forall c, cfg = Some c -> next_id w + Z.of_nat (length (modules c)) < 2 ^ 64) ->
  dispatch done dlopen dlsym iter cfg p w = Some (b, w') -> children_ok w'.
Proof.
  intros Hit Hok Hn1 Hn Hcfg. unfold dispatch.
  destruct (heap w !! p) as [m|]; simpl; [|done].
  destruct (match type_ m with kEventCmdExit => _ | _ => _ end) as [[ret w1]|] eqn:E; simpl; [|done].
  assert (Hok1 : children_ok w1).
  { destruct (type_ m); simplify_eq; try done.
    - unfold handle_cmd_exit in E. destruct (decide _); [by simplify_eq|]. simpl in E.
      destruct (exit_loop _ _ _ _) as [w2|] eqn:El; simpl in E; [|done]. simplify_eq.
      apply exit_loop_ok in El as (? & _); [done|by apply children_in, Hit|by apply children_ok_messages].
    - destruct (payload_ m) as [name|]; simpl in E; [|done].
      unfold handle_cmd_reload in E. destruct cfg as [c|]; simpl in E; [|by simplify_eq].
      destruct (search_module_and_remove _ _ _ _ _ _) as [[found w2]|] eqn:Es; simpl in E; [|done].
      simplify_eq. apply search_ok in Es as [Hok2 Hn2]; [|done|by apply children_ok_config|by apply Hcfg].
      destruct found; [done|]. apply reload_module_ok; [done|]. by rewrite Hn2.
    - destruct (payload_ m) as [name|]; simpl in E; [|done].
      unfold handle_cmd_remove in E. destruct (find_child _ _) as [[id md]|] eqn:Ef; simpl in E;
        [|by simplify_eq].
      apply (find_child_some iter Hit) in Ef as [Hc _].
      destruct (send_child _ _ _ _) as [w2|] eqn:Es; simpl in E; [|done]. simplify_eq.
      apply send_child_messages in Es. apply (only_messages_ok _ _ Es), children_ok_pending;
        [..|by apply children_ok_messages]; simpl; apply elem_of_dom_2 in Hc; destruct Hok; set_solver.
    - pose proof (event_exit_ok dlopen dlsym iter Hit (sender_id_ m) w Hok Hn Hn1) as H.
      destruct (handle_event_exit _ _ _ _ _) as [x y]. by simplify_eq.
    - unfold handle_event_crash in E. destruct (childrens_ w !! sender_id_ m) as [md|] eqn:Hc; [|by simplify_eq/=].
      destruct (payload_ m); simpl in E; [|done]. injection E as <- <-. destruct (_ && _); [|done]. apply elem_of_dom_2 in Hc.
      apply children_ok_pending; try done; destruct Hok; set_solver. }
  destruct (release _ _) as [w3|] eqn:Er; simpl; [|done]. intros [= <- <-].
  apply release_messages in Er. apply (only_messages_ok _ _ Er).
  destruct ret; [by apply children_ok_count_down|done].
Qed.

Lemma started_ok c : children_ok (started c).
Proof. split; simpl; try done; intros; rewrite lookup_empty in *; done. Qed.

(** A library that opens: every path has the same handle and symbols. *)
Definition any_dlopen (path : string) : Z := if decide (path = "lib/libbad.so"%string) then 0 else 64.
Definition any_dlsym (handle : Z) (symbol : string) : option Z := Some (handle + 1).

Definition two_modules : ac_config :=
  mkConfig "lib" [mkModule "net" "net"; mkModule "bad" "bad"; mkModule "log" "log"].

(** The manager with [two_modules] loaded and a request to reload everything. *)
Definition reload_requested : ActorManager :=
  let w := load_modules any_dlopen any_dlsym (started two_modules) in
  with_messages (child_boxes w)
    {[ 8 := set_payload (new_message 1 kEventCmdModuleReload 0) "all" ]} w.

Lemma dispatch_keeps_children_witness :
  exists w', dispatch (fun _ => false) any_dlopen any_dlsym map_to_list (Some two_modules) 8
    reload_requested = Some (false, w') /\ children_ok w' /\ pending_reload_ w' = {[ 1; 2 ]}.
Proof.
  eexists. split; [vm_compute; reflexivity|]. split; [|vm_compute; reflexivity].
  apply (dispatch_keeps_children (fun _ => false) any_dlopen any_dlsym map_to_list (Some two_modules) 8
    reload_requested false).
  - intros m. reflexivity.
  - apply children_ok_messages; [reflexivity|]. apply load_modules_ok; [apply started_ok|reflexivity].
  - reflexivity.
  - reflexivity.
  - intros c [= <-]. reflexivity.
  - vm_compute. reflexivity.
Defined.

(** ** What loading starts *)

Section LoadSpec.
Context (dlopen : string -> Z) (dlsym : Z -> string -> option Z).

Lemma load_each_spec c ms w ts w' :
  children_ok w -> next_id w + Z.of_nat (length ms) < 2 ^ 64 -> config w = c ->
  load_each dlopen dlsym ms w = (ts, w') ->
  let libs := loadable dlopen dlsym c ms in
  length ts = length libs /\
  childrens_ w ⊆ childrens_ w' /\ child_boxes w ⊆ child_boxes w' /\ launched w' = launched w /\
  dom (childrens_ w') = dom (childrens_ w) ∪ list_to_set (seqZ (next_id w) (Z.of_nat (length libs))) /\
  forall i m lm, libs !! i = Some (m, lm) ->
    exists a, ts !! i = Some (mkLaunch (next_id w + Z.of_nat i) a lm) /\
      childrens_ w' !! (next_id w + Z.of_nat i) =
        Some (mkMD (next_id w + Z.of_nat i) a (PluginManager.module_name m) (Some lm)) /\
      child_boxes w !! a = None /\ child_boxes w' !! a = Some (new_mailbox Mail.kMailBoxSize).
Proof.
  revert w ts w'. induction ms as [|m ms IH]; intros w ts w' Hok Hn Hc E; cbn [load_each] in E.
  { simplify_eq. simpl. rewrite union_empty_r_L. split_and!; done. }
  cbn [length] in Hn. rewrite Hc in E. cbn [loadable omap list_omap] in *.
  destruct (generate_creator dlopen dlsym (module_path c m)) as [lm0|];
    [|cbn [fmap option_fmap option_map]; apply IH; (done || lia)].
  rewrite new_child_eq in E by (done || lia).
  destruct (with_born_ok (PluginManager.module_name m) lm0 w Hok) as [Hok1 _].
  destruct (load_each dlopen dlsym ms _) as [ts2 w2] eqn:E2. simplify_eq.
  destruct (IH _ _ _ Hok1 ltac:(simpl; lia) eq_refl E2) as (Hlen & Hch & Hbx & Hla & Hdom & Hall).
  destruct (fresh_addr_spec (child_boxes w)) as [_ Hf]. pose proof (next_id_fresh w Hok) as Hnew.
  cbn [fmap option_fmap option_map].
  assert (Hch0 : childrens_ w ⊆ childrens_ w').
  { etrans; [|exact Hch]. by apply insert_subseteq. }
  assert (Hbx0 : child_boxes w ⊆ child_boxes w').
  { etrans; [|exact Hbx]. by apply insert_subseteq. }
  cbn [length]. split_and!; try done.
  - by f_equal.
  - rewrite Hdom. simpl. rewrite dom_insert_L, (seqZ_cons (next_id w)) by lia. simpl.
    rewrite Nat2Z.inj_succ, Z.pred_succ, (comm_L (∪) {[next_id w]}). by rewrite (assoc_L (∪)).
  - intros [|i] m' lm' Hi; simpl in Hi.
    + simplify_eq. exists (fresh_addr (child_boxes w)). rewrite Z.add_0_r. split_and!; try done.
      * eapply lookup_weaken; [|exact Hch]. apply lookup_insert_eq.
      * eapply lookup_weaken; [|exact Hbx]. apply lookup_insert_eq.
    + destruct (Hall i m' lm' Hi) as (a & H1 & H2 & H3 & H4). simpl in H1, H2, H3.
      apply lookup_insert_None in H3 as [H3 _].
      replace (next_id w + Z.of_nat (S i)) with (next_id w + 1 + Z.of_nat i) by lia.
      exists a. done.
Qed.

End LoadSpec.

(** Loading: the modules of the configuration whose library opens and
    exports both functions become children, and no other; the i-th of them
    gets the i-th new id, an empty mailbox of its own and is started with
    that library, in the order of the configuration. The children already
    there stay. *)
Theorem load_modules_starts (dlopen : string -> Z) (dlsym : Z -> string -> option Z) (w : ActorManager) :
  children_ok w -> next_id w + Z.of_nat (length (modules (config w))) < 2 ^ 64 ->
  let libs := loadable dlopen dlsym (config w) (modules (config w)) in
  let w' := load_modules dlopen dlsym w in
  exists ts, launched w' = launched w ++ ts /\ length ts = length libs /\
    childrens_ w ⊆ childrens_ w' /\
    dom (childrens_ w') = dom (childrens_ w) ∪ list_to_set (seqZ (next_id w) (Z.of_nat (length libs))) /\
    forall i m lm, libs !! i = Some (m, lm) ->
      exists a, ts !! i = Some (mkLaunch (next_id w + Z.of_nat i) a lm) /\
        childrens_ w' !! (next_id w + Z.of_nat i) =
          Some (mkMD (next_id w + Z.of_nat i) a (PluginManager.module_name m) (Some lm)) /\
        child_boxes w !! a = None /\ child_boxes w' !! a = Some (new_mailbox Mail.kMailBoxSize).
Proof.
  intros Hok Hn libs w'. subst w'. unfold load_modules.
  destruct (load_each dlopen dlsym _ w) as [ts w'] eqn:E. simpl.
  destruct (load_each_spec dlopen dlsym _ _ _ _ _ Hok Hn eq_refl E) as (? & ? & _ & -> & ? & ?).
  by exists ts.
Qed.

Lemma load_modules_starts_witness :
  dom (childrens_ (load_modules any_dlopen any_dlsym (started two_modules))) = {[ 1; 2 ]}.
Proof.
  destruct (load_modules_starts any_dlopen any_dlsym (started two_modules) (started_ok _) eq_refl)
    as (ts & _ & _ & _ & E & _).
  rewrite E. vm_compute. reflexivity.
Defined.

(** ** What reloading restarts *)

Section ReloadSpec.
Context (dlopen : string -> Z) (dlsym : Z -> string -> option Z).
Context (iter : gmap Z ActorMetaData -> list (Z * ActorMetaData)).
Context (iter_perm : forall m, iter m ≡ₚ map_to_list m).

Local Abbreviation names ms := (PluginManager.module_name <$> ms).

Lemma find_child_none name m id md :
  find_child name (iter m) = None -> m !! id = Some md -> module_name md <> name.
Proof.
  unfold find_child. intros Hf Hm E. apply (find_none _ _) with (x := (id, md)) in Hf.
  - simpl in Hf. by rewrite bool_decide_eq_true_2 in Hf.
  - apply list_elem_of_In. rewrite iter_perm. by apply elem_of_map_to_list.
Qed.

(** One module of the configuration: the child that is started. *)
Definition reload_one (m : ac_module) (lm : LoadedModule) (w : ActorManager) : launch * ActorManager :=
  match find_child (PluginManager.module_name m) (iter (childrens_ w)) with
  | Some (id, md) =>
      (mkLaunch (actor_id md) (mailbox md) lm,
       with_children (<[id := mkMD (actor_id md) (mailbox md) (module_name md) (Some lm)]>
                        (childrens_ w)) w)
  | None => new_child (PluginManager.module_name m) lm w
  end.

(** The child [id] a module is reloaded into: an old one of that name, or a
    new one when there is none. *)
Definition reloaded (m : ac_module) (lm : LoadedModule) (w w' : ActorManager) (l : launch) : Prop :=
  exists md, childrens_ w' !! l_actor l = Some md /\ module_name md = PluginManager.module_name m /\
    creator md = Some lm /\ l = mkLaunch (l_actor l) (mailbox md) lm /\
    ((exists md0, childrens_ w !! l_actor l = Some md0 /\ mailbox md0 = mailbox md /\
        module_name md0 = PluginManager.module_name m) \/
     (childrens_ w !! l_actor l = None /\
        forall j mj, childrens_ w !! j = Some mj -> module_name mj <> PluginManager.module_name m)).

Lemma reload_one_spec m lm w t w1 :
  children_ok w -> next_id w + 1 < 2 ^ 64 -> reload_one m lm w = (t, w1) ->
  children_ok w1 /\ reloaded m lm w w1 t /\ next_id w <= next_id w1 <= next_id w + 1 /\
  config w1 = config w /\ launched w1 = launched w /\
  (forall id md, childrens_ w !! id = Some md -> module_name md <> PluginManager.module_name m ->
     childrens_ w1 !! id = Some md /\ l_actor t <> id) /\
  (forall id md, childrens_ w1 !! id = Some md -> module_name md <> PluginManager.module_name m ->
     childrens_ w !! id = Some md) /\
  (forall id, childrens_ w1 !! id = None -> childrens_ w !! id = None).
Proof.
  intros Hok Hn. unfold reload_one. destruct (find_child _ _) as [[i mi]|] eqn:Ef.
  - apply (find_child_some iter iter_perm) in Ef as [Hc Hnm]. intros [= <- <-].
    destruct (children_ok_creator i mi lm w Hc Hok) as [Hok1 _].
    destruct (co_child _ Hok _ _ Hc) as (Hid & _). split; [done|].
    split; [|split; [simpl; lia|]; split; [done|]; split; [done|]; split; [|split]].
    + eexists. simpl. rewrite Hid, lookup_insert_eq. split; [done|]. simpl. split_and!; try done.
      left. exists mi. rewrite <- Hid at 1. by rewrite Hid.
    + intros id md Hm Hne. simpl. assert (i <> id) by (intros ->; simplify_eq; done).
      rewrite lookup_insert_ne by done. split; [done|]. by rewrite Hid.
    + intros id md Hm Hne. simpl in Hm. apply lookup_insert_Some in Hm as [[<- <-]|[? Hm]]; done.
    + intros id Hm. simpl in Hm. by apply lookup_insert_None in Hm as [? _].
  - rewrite new_child_eq by done. intros [= <- <-].
    destruct (with_born_ok (PluginManager.module_name m) lm w Hok) as [Hok1 _].
    pose proof (next_id_fresh w Hok) as Hnew. split; [done|].
    split; [|split; [simpl; lia|]; split; [done|]; split; [done|]; split; [|split]].
    + eexists. simpl. rewrite lookup_insert_eq. split; [done|]. simpl. split_and!; try done.
      right. split; [done|]. intros j mj Hj. by eapply find_child_none.
    + intros id md Hm Hne. simpl. assert (next_id w <> id) by congruence. by rewrite lookup_insert_ne.
    + intros id md Hm Hne. simpl in Hm. apply lookup_insert_Some in Hm as [[<- <-]|[? Hm]]; done.
    + intros id Hm. simpl in Hm. by apply lookup_insert_None in Hm as [? _].
Qed.

(** A child whose module the configuration no longer names is left alone. *)
Lemma reload_each_keeps ms w ts w' id md :
  children_ok w -> next_id w + Z.of_nat (length ms) < 2 ^ 64 ->
  childrens_ w !! id = Some md -> module_name md ∉ names ms ->
  reload_each dlopen dlsym iter ms w = (ts, w') ->
  childrens_ w' !! id = Some md /\ id ∉ l_actor <$> ts.
Proof.
  revert w ts w'. induction ms as [|m ms IH]; intros w ts w' Hok Hn Hc Hnm E; cbn [reload_each] in E.
  { simplify_eq. split; [done|]. apply not_elem_of_nil. }
  cbn [length] in Hn. rewrite fmap_cons, not_elem_of_cons in Hnm. destruct Hnm as [Hne Hnm].
  destruct (generate_creator _ _ _) as [lm|]; [|apply (IH w); (done || lia)].
  fold (reload_one m lm w) in E. destruct (reload_one m lm w) as [t w1] eqn:E1.
  destruct (reload_each dlopen dlsym iter ms w1) as [ts2 w2] eqn:E2. simplify_eq.
  apply reload_one_spec in E1 as (Hok1 & _ & Hn1 & _ & _ & Hkeep & _); [|done|lia].
  destruct (Hkeep id md Hc Hne) as [Hc1 Ht].
  destruct (IH w1 ts2 w' Hok1 ltac:(lia) Hc1 Hnm E2) as [Hc2 Hts]. split; [done|].
  rewrite fmap_cons, not_elem_of_cons. done.
Qed.

Lemma reload_each_spec c ms w ts w' :
  children_ok w -> next_id w + Z.of_nat (length ms) < 2 ^ 64 -> config w = c -> NoDup (names ms) ->
  reload_each dlopen dlsym iter ms w = (ts, w') ->
  Forall2 (fun ml t => reloaded ml.1 ml.2 w w' t) (loadable dlopen dlsym c ms) ts /\
  launched w' = launched w.
Proof.
  revert w ts w'. induction ms as [|m ms IH]; intros w ts w' Hok Hn Hc Hnd E; cbn [reload_each] in E.
  { simplify_eq. by split. }
  cbn [length] in Hn. rewrite Hc in E. cbn [loadable omap list_omap].
  rewrite fmap_cons, NoDup_cons in Hnd. destruct Hnd as [Hm Hnd].
  destruct (generate_creator _ _ _) as [lm|]; [|apply (IH w); (done || lia)].
  cbn [fmap option_fmap option_map].
  fold (reload_one m lm w) in E. destruct (reload_one m lm w) as [t w1] eqn:E1.
  destruct (reload_each dlopen dlsym iter ms w1) as [ts2 w2] eqn:E2. simplify_eq.
  apply reload_one_spec in E1 as (Hok1 & Hr & Hn1 & Hcfg & Hla & Hkeep & Hback & Hnone); [|done|lia].
  destruct (IH w1 ts2 w' Hok1 ltac:(lia) Hcfg Hnd E2) as [Hall Hl2]. split; [|by rewrite Hl2].
  constructor.
  - destruct Hr as (md & Hmd & Hnm & Hcr & Ht & Hcase). exists md. split_and!; try done.
    apply (reload_each_keeps ms w1 ts2 w' _ md); try done; [lia|]. by rewrite Hnm.
  - apply Forall2_same_length_lookup in Hall as [Hlen Hall].
    apply Forall2_same_length_lookup. split; [done|]. intros i [m' lm'] t' Hi Ht'.
    destruct (Hall i _ _ Hi Ht') as (md & Hmd & Hnm & Hcr & Et & Hcase). simpl in *.
    exists md. split_and!; try done.
    assert (Hne : PluginManager.module_name m' <> PluginManager.module_name m).
    { intros En. apply Hm. rewrite <- En. apply list_elem_of_fmap. exists m'. split; [done|].
      apply list_elem_of_lookup_2, list_elem_of_omap in Hi as (m0 & Hin & Hg).
      apply fmap_Some in Hg as (lm0 & _ & Hg). by simplify_eq. }
    destruct Hcase as [(md0 & H0 & Hmb & Hn0)|[H0 Hno]].
    + left. exists md0. split_and!; try done. apply Hback; congruence.
    + right. split; [by apply Hnone|]. intros j mj Hj En. destruct (Hkeep j mj Hj); [congruence|].
      by destruct (Hno j mj).
Qed.

End ReloadSpec.

(** C22. Reloading everything: when the names in the configuration are
    distinct, one coroutine is started for each configured module whose
    library opens, in the order of the configuration, with that library: in
    the child that has the module's name, which keeps its id and its mailbox,
    or in a new child when there is none. A child whose name the configuration
    no longer has stays in the table, and nothing is started for it. *)
Theorem reload_all_restarts (dlopen : string -> Z) (dlsym : Z -> string -> option Z)
    (iter : gmap Z ActorMetaData -> list (Z * ActorMetaData)) (w : ActorManager) :
  (forall m, iter m ≡ₚ map_to_list m) -> children_ok w ->
  next_id w + Z.of_nat (length (modules (config w))) < 2 ^ 64 ->
  NoDup (PluginManager.module_name <$> modules (config w)) ->
  let w' := reload_all_modules dlopen dlsym iter w in
  exists ts, launched w' = launched w ++ ts /\
    Forall2 (fun ml t => reloaded ml.1 ml.2 w w' t)
      (loadable dlopen dlsym (config w) (modules (config w))) ts /\
    forall id md, childrens_ w !! id = Some md ->
      module_name md ∉ PluginManager.module_name <$> modules (config w) ->
      childrens_ w' !! id = Some md /\ id ∉ l_actor <$> ts.
Proof.
  intros Hit Hok Hn Hnd. unfold reload_all_modules.
  destruct (reload_each dlopen dlsym iter _ w) as [ts w'] eqn:E. simpl. exists ts.
  destruct (reload_each_spec dlopen dlsym iter Hit _ _ w ts w' Hok Hn eq_refl Hnd E) as [H1 ->].
  split; [done|]. split; [exact H1|]. intros id md Hc Hm. by eapply reload_each_keeps.
Qed.

(** Two children, then a configuration that keeps one of them and names a new
    module. *)
Definition reconfigured : ActorManager :=
  with_config (mkConfig "lib" [mkModule "log" "log2"; mkModule "web" "web"])
    (load_modules any_dlopen any_dlsym (started two_modules)).

Lemma reload_all_restarts_witness :
  let w' := reload_all_modules any_dlopen any_dlsym map_to_list reconfigured in
  exists ts, launched w' = launched reconfigured ++ ts /\ length ts = 2%nat /\
    is_Some (childrens_ w' !! 1) /\ 1 ∉ l_actor <$> ts.
Proof.
  destruct (reload_all_restarts any_dlopen any_dlsym map_to_list reconfigured) as (ts & H1 & H2 & H3).
  - intros m. reflexivity.
  - apply children_ok_config, load_modules_ok; [apply started_ok|reflexivity].
  - reflexivity.
  - vm_compute. apply NoDup_cons. split; [|apply NoDup_singleton].
    rewrite list_elem_of_singleton. discriminate.
  - exists ts. split; [exact H1|]. split; [exact (eq_sym (Forall2_length _ _ _ H2))|].
    edestruct (H3 1) as [H4 H5]; [vm_compute; reflexivity| |split; [by eexists|exact H5]].
    vm_compute. intros H. repeat (apply elem_of_cons in H as [H|H]; [discriminate|]).
    by apply not_elem_of_nil in H.
Defined.

(** The reloading of one module ends with its exit report: the library
    the configuration now names for it replaces the old one and it is started
    again in the same child. *)
Theorem reload_replaces_module (dlopen : string -> Z) (dlsym : Z -> string -> option Z)
    (iter : gmap Z ActorMetaData -> list (Z * ActorMetaData)) (id : Z) (md : ActorMetaData)
    (m : ac_module) (lm : LoadedModule) (w : ActorManager) :
  id <> 0 -> is_running_ w = true -> reload_all_flag_ w = false ->
  childrens_ w !! id = Some md -> id ∈ pending_reload_ w ->
  find_module (module_name md) (modules (config w)) = Some m ->
  generate_creator dlopen dlsym (module_path (config w) m) = Some lm ->
  let (returned, w') := handle_event_exit dlopen dlsym iter id w in
  returned = false /\
  childrens_ w' = <[id := mkMD (actor_id md) (mailbox md) (module_name md) (Some lm)]> (childrens_ w) /\
  launched w' = launched w ++ [mkLaunch (actor_id md) (mailbox md) lm] /\
  (id ∉ pending_reload_ w') /\ (id ∉ pending_stop_ w') /\ (id ∉ pending_restart_ w').
Proof.
  intros Hid Hr Ha Hc Hp Hf Hg. unfold handle_event_exit. simpl. rewrite Hc, Hr, Ha.
  rewrite (bool_decide_eq_true_2 (id ∈ pending_reload_ w)) by done. simpl.
  unfold reload_module. simpl. rewrite Hf, Hg. apply Z.eqb_neq in Hid. rewrite Hid, Hc. simpl.
  split_and!; try done; set_solver.
Qed.

Definition reload_pending : ActorManager := with_pending {[ 2 ]} ∅ ∅ reconfigured.

Lemma reload_replaces_module_witness :
  let (returned, w') := handle_event_exit any_dlopen any_dlsym map_to_list 2 reload_pending in
  returned = false /\
  childrens_ w' = <[2 := mkMD 2 2 "log" (Some (mkLM "lib/liblog2.so" 64 65 65))]> (childrens_ reload_pending) /\
  launched w' = launched reload_pending ++ [mkLaunch 2 2 (mkLM "lib/liblog2.so" 64 65 65)] /\
  (2 ∉ pending_reload_ w') /\ (2 ∉ pending_stop_ w') /\ (2 ∉ pending_restart_ w').
Proof.
  apply (reload_replaces_module any_dlopen any_dlsym map_to_list 2
    (mkMD 2 2 "log" (Some (mkLM "lib/liblog.so" 64 65 65))) (mkModule "log" "log2")
    (mkLM "lib/liblog2.so" 64 65 65) reload_pending).
  - discriminate.
  - vm_compute. reflexivity.
  - vm_compute. reflexivity.
  - vm_compute. reflexivity.
  - apply (bool_decide_unpack _). vm_compute. exact I.
  - vm_compute. reflexivity.
  - vm_compute. reflexivity.
Defined.

(** ** A child that never reports its exit *)

Lemma unreported_child_blocks dlopen dlsym iter id ids w :
  is_running_ w = false -> is_Some (childrens_ w !! id) -> id ∉ ids ->
  true ∉ (run_exits dlopen dlsym iter ids w).1.
Proof.
  revert w. induction ids as [|i ids IH]; intros w Hr [md Hc] Hi; simpl; [apply not_elem_of_nil|].
  apply not_elem_of_cons in Hi as [Hne Hi].
  assert (H : exists w1, handle_event_exit dlopen dlsym iter i w = (false, w1) /\
    is_running_ w1 = false /\ childrens_ w1 !! id = Some md).
  { unfold handle_event_exit. simpl. destruct (childrens_ w !! i) as [mi|]; [|by eexists].
    rewrite Hr. simpl. rewrite bool_decide_eq_false_2.
    2:{ intros E. apply (f_equal (lookup id)) in E. by rewrite lookup_delete_ne, Hc, lookup_empty in E. }
    eexists. split; [done|]. simpl. by rewrite lookup_delete_ne. }
  destruct H as (w1 & -> & Hr1 & Hc1). destruct (run_exits dlopen dlsym iter ids w1) as [bs w2] eqn:E.
  simpl. apply not_elem_of_cons. split; [done|].
  change bs with ((bs, w2).1). rewrite <- E. apply IH; [done|by eexists|done].
Qed.

End Supervision.
