(* ===== verification/CrashCycle.v ===== *)
(** * The program as it stands: crash, report, restart

    [GateWayActor] (src/modules/network_module/gateway_actor.cc) under its
    supervisor (src/core/actor_manager.cc): the coroutine of the module crashes
    at its start, the manager starts it again, and so on. A cycle runs the
    coroutine the manager gave to the scheduler last, then the manager. *)

From Stdlib Require Import ZArith Lia.
From stdpp Require Import base list gmap strings.
From S2P Require Import Prelude Fifo MailQueue EventMessage MailBox EventBus ActorModule PluginManager ActorManager Supervision.

Local Open Scope Z_scope.

Module CrashCycle.
Import Manager.

(** ** The library of the gateway *)

(** [CreateModule]: a new object; [objects]: the addresses of those alive. *)
Definition CreateModule (objects : gset Z) : Z := fresh_addr (gset_to_gmap tt objects).

(** [DestroyModule] of a live object. *)
Definition DestroyModule (p : Z) (objects : gset Z) : option (gset Z) :=
  if decide (p ∈ objects) then Some (objects ∖ {[p]}) else None.

Definition gateway (objects : gset Z) : module_code :=
  mkCode (fun _ => CreateModule objects) gateway_init gateway_uninit gateway_process_event gateway_error_handle.

Lemma CreateModule_spec objects : CreateModule objects <> 0 /\ CreateModule objects ∉ objects.
Proof.
  unfold CreateModule. destruct (fresh_addr_spec (gset_to_gmap tt objects)) as [Hp Hf].
  split; [lia|]. intros Hin. by rewrite lookup_gset_to_gmap_None in Hf.
Qed.

Lemma destroy_created objects :
  DestroyModule (CreateModule objects) ({[CreateModule objects]} ∪ objects) = Some objects.
Proof.
  destruct (CreateModule_spec objects) as [_ Hnew]. unfold DestroyModule.
  rewrite decide_True by set_solver. f_equal. set_solver.
Qed.

(** ** A cycle *)

(** The manager's mailbox, the manager, the event bus, the module objects. *)
Record session := mkSession {
  s_own : MailBox;
  s_manager : ActorManager;
  s_bus : ActorEventBus;
  s_objects : gset Z
}.

Section Cycles.
Context (done : Z -> bool) (dlopen : string -> Z) (dlsym : Z -> string -> option Z).
Context (iter : gmap Z ActorMetaData -> list (Z * ActorMetaData)) (configs : nat -> option ac_config).
Context (child manager : Z).

(** The newest coroutine of the scheduler runs to its end, then the manager
    handles what it was sent and waits. *)
Definition cycle (s : session) : option session :=
  let w := s_manager s in
  start ← last (launched w);
  mb ← child_boxes w !! l_mailbox start;
  '(finished, c) ← launch_actor done (gateway (s_objects s)) child 1 start
     (mkCW mb (s_own s) (heap w) (s_bus s) (s_objects s) []);
  let boxes := <[l_mailbox start := cw_mailbox c]> (child_boxes w) in
  '(returned, own, w') ← run_loop done dlopen dlsym iter 3 manager configs (cw_parent c)
     (with_messages boxes (cw_heap c) w);
  if finished && negb returned then Some (mkSession own w' (cw_bus c) (cw_objects c)) else None.

Fixpoint cycles (n : nat) (s : session) : option session :=
  match n with
  | O => Some s
  | S n' => s' ← cycle s; cycles n' s'
  end.

Context (k : nat) (Hk : (1 <= k)%nat) (id : Z) (md : ActorMetaData) (lm : LoadedModule).

Local Abbreviation start := (mkLaunch id (mailbox md) lm).

(** The manager waits with an empty mailbox, the module is about to start. *)
Record resting (s : session) : Prop := {
  r_own : Mail.mq_wf k (mailbox_ (s_own s));
  r_empty : Mail.waiting k (mailbox_ (s_own s)) = [];
  r_running : is_running_ (s_manager s) = true;
  r_child : childrens_ (s_manager s) !! id = Some md;
  r_id : actor_id md = id;
  r_creator : creator md = Some lm;
  r_plans : (id ∉ pending_reload_ (s_manager s)) /\ (id ∉ pending_stop_ (s_manager s)) /\
            (id ∉ pending_restart_ (s_manager s));
  r_code : create_func lm <> 0 /\ destroy_func lm <> 0;
  r_box : is_Some (child_boxes (s_manager s) !! mailbox md);
  r_start : last (launched (s_manager s)) = Some start;
  r_bus : table_wf (event_bus_ (s_bus s))
}.

(** Nothing but the number of starts has changed. *)
Definition like (n : nat) (s s' : session) : Prop :=
  let w := s_manager s in
  let w' := s_manager s' in
  launched w' = launched w ++ replicate n start /\
  childrens_ w' = childrens_ w /\ heap w' = heap w /\ dom (child_boxes w') = dom (child_boxes w) /\
  s_objects s' = s_objects s /\
  (forall type, subscribers type (event_bus_ (s_bus s')) ≡ₚ subscribers type (event_bus_ (s_bus s))).

Lemma like_trans n s s' s'' : like 1 s s' -> like n s' s'' -> like (S n) s s''.
Proof.
  intros (L1 & C1 & H1 & D1 & O1 & B1) (L2 & C2 & H2 & D2 & O2 & B2). unfold like.
  split_and!; try congruence; [|intros type; by rewrite B2].
  rewrite L2, L1, <- (assoc_L (++)). done.
Qed.

Lemma cycle_rests s :
  resting s -> Mail.write_index_ (mailbox_ (s_own s)) + 3 + 2 ^ Z.of_nat k <= 2 ^ 63 ->
  exists s', cycle s = Some s' /\ resting s' /\ like 1 s s' /\
    Mail.write_index_ (mailbox_ (s_own s')) <= Mail.write_index_ (mailbox_ (s_own s)) + 2.
Proof.
  intros Hr Hb. destruct (r_plans s Hr) as (P1 & P2 & P3). destruct (r_code s Hr) as [Hcf Hdf].
  destruct (r_box s Hr) as [mb Hmb]. destruct (CreateModule_spec (s_objects s)) as [Hnz Hnew].
  set (w0 := with_messages (<[mailbox md := MarkRunning mb]> (child_boxes (s_manager s))) (heap (s_manager s)) (s_manager s)).
  destruct (Supervision.crashed_module_restarts k Hk done dlopen dlsym iter configs (gateway (s_objects s)) child manager 1
    id md lm w0 (s_own s) mb (s_bus s) (s_objects s)) as (c & own' & w' & El & Eo & Em & Eb & Er & Hwf & Hl & Hw & Ew);
    try done; try apply Hr.
  unfold cycle. rewrite (r_start s Hr). cbn [mbind option_bind l_mailbox]. rewrite Hmb. cbn [mbind option_bind]. change (heap (s_manager s)) with (heap w0).
  rewrite El. cbn [mbind option_bind]. rewrite Em. change (with_messages _ (cw_heap c) (s_manager s)) with (with_messages (child_boxes w0) (cw_heap c) w0).
  rewrite Er. simpl. eexists. split; [done|]. rewrite Ew, Eo, Eb.
  assert (Hwb : table_wf (event_bus_ (gateway_uninit (mailbox md) (gateway_init (mailbox md) (s_bus s))))).
  { apply unsubscribe_wf, subscribe_wf, Hr. }
  split_and!; [| |done].
  - split; simpl; try done; try apply Hr.
    + rewrite lookup_insert_eq. by eexists.
    + by rewrite last_snoc.
  - unfold like. simpl. split_and!; try done.
    + rewrite dom_insert_lookup_L; [done|by eexists].
    + intros type. apply subscribe_unsubscribe, Hr.
Qed.

End Cycles.

(** C16. The program as it stands, for any number of restarts. The gateway
    module crashes at its start, reports the crash and its exit; the manager
    starts it again and waits. After any number [n] of such cycles (while the
    mailbox has counted fewer than 2^63 messages) the manager has handled them all and waits on an empty
    mailbox; the module has been started [n] times more, with the same id,
    mailbox and library; the children, the live messages, the mailboxes, the
    module objects and the subscriptions are what they were: restarting for
    ever leaks nothing. *)
Theorem crash_restart_forever (done : Z -> bool) (dlopen : string -> Z) (dlsym : Z -> string -> option Z)
    (iter : gmap Z ActorMetaData -> list (Z * ActorMetaData)) (configs : nat -> option ac_config)
    (child manager : Z) (k : nat) (id : Z) (md : ActorMetaData) (lm : LoadedModule) (n : nat) (s : session) :
  (1 <= k)%nat -> resting k id md lm s ->
  Mail.write_index_ (mailbox_ (s_own s)) + 2 * Z.of_nat n + 1 + 2 ^ Z.of_nat k <= 2 ^ 63 ->
  exists s', cycles done dlopen dlsym iter configs child manager n s = Some s' /\
    resting k id md lm s' /\ like id md lm n s s'.
Proof.
  intros Hk. revert s. induction n as [|n IH]; intros s Hr Hb.
  - exists s. split_and!; try done. unfold like. simpl. by rewrite app_nil_r.
  - destruct (cycle_rests done dlopen dlsym iter configs child manager k Hk id md lm s Hr) as (s1 & E & Hr1 & L1 & Hw); [lia|].
    destruct (IH s1 Hr1) as (s2 & E2 & Hr2 & L2); [lia|]. exists s2. simpl. rewrite E. simpl.
    split_and!; [done|done|by eapply like_trans].
Qed.

(** The server after its start: one module configured, the event loop's
    coroutine has run for the first time and waits. *)
Definition started_server : session :=
  let '(own, _, w) := EventLoop (fun _ => 100) (fun _ _ => Some 101) 4096 (new_mailbox 4)
                        (mkAM false false 1 ∅ ∅ ∅ ∅ ∅ ∅ 1 (mkConfig "lib" [mkModule "net" "net"]) []) in
  match RunCoroutine (fun _ => false) (fun _ => 100) (fun _ _ => Some 101) map_to_list 1 4096 (fun _ => None) own w with
  | Some (_, own', w') => mkSession own' w' new_bus ∅
  | None => mkSession own w new_bus ∅
  end.

Lemma crash_restart_forever_witness :
  exists s', cycles (fun _ => false) (fun _ => 100) (fun _ _ => Some 101) map_to_list (fun _ => None) 8192 4096 1000
      started_server = Some s' /\
    length (launched (s_manager s')) = 1001%nat /\ heap (s_manager s') = ∅ /\ s_objects s' = ∅.
Proof.
  set (lm := mkLM "lib/libnet.so" 100 101 101).
  destruct (crash_restart_forever (fun _ => false) (fun _ => 100) (fun _ _ => Some 101) map_to_list (fun _ => None)
    8192 4096 2 1 (mkMD 1 1 "net" (Some lm)) lm 1000 started_server) as (s' & E & _ & El & _ & Eh & _ & Eo & _).
  - lia.
  - split; simpl; try reflexivity.
    + apply (Mail.new_mail_queue_wf 2 4); vm_compute; reflexivity.
    + split_and!; apply not_elem_of_empty.
    + split; discriminate.
    + eexists. vm_compute. reflexivity.
    + apply map_Forall_empty.
  - vm_compute. discriminate.
  - exists s'. split; [exact E|]. rewrite El, Eh, Eo. split; [|split; reflexivity].
    rewrite length_app, length_replicate. reflexivity.
Defined.

End CrashCycle.
