(* ===== verification/Shutdown.v ===== *)
(** * From Shutdown to the end of the event loop

    [ActorManager::Shutdown], the manager's event loop and the coroutines of its
    children (src/core/actor_manager.cc, src/core/actor_module.cc), put together
    as the program stands: a module's coroutine throws at its start, reports
    the crash, is in [error_handle] (the gateway sleeps there), and reports its
    exit. The manager handles one message per step; a child makes one step up to
    [error_handle] and one after it; the steps come in any order. *)

From Stdlib Require Import ZArith Lia.
From stdpp Require Import base list gmap strings.
From S2P Require Import Prelude Fifo MailQueue EventMessage MailBox EventBus.
From S2P Require Import PluginManager ActorModule ActorManager Supervision CrashCycle.

Local Open Scope Z_scope.

Module Shutdown.
Import Manager.

(** ** The manager and its children *)

(** The coroutine of a child: given to the scheduler and not resumed yet;
    suspended in [Wait]; inside [error_handle]. *)
Inductive phase := Starting | Waiting | Failing (actor : Z) (what : string).

Record net := mkNet {
  n_own : MailBox;                       (* the manager's mailbox *)
  n_manager : ActorManager;
  n_bus : ActorEventBus;
  n_objects : gset Z;                    (* the module objects *)
  n_coroutines : gmap Z (launch * phase);
  n_returned : bool                      (* the event loop's coroutine has returned *)
}.

Section Steps.
Context (done : Z -> bool) (dlopen : string -> Z) (dlsym : Z -> string -> option Z).
Context (iter : gmap Z ActorMetaData -> list (Z * ActorMetaData)).
Context (code : gset Z -> module_code) (self : Z).

(** New coroutines. *)
Definition starts (ls : list launch) (cs : gmap Z (launch * phase)) : gmap Z (launch * phase) :=
  foldr (fun l => <[l_actor l := (l, Starting)]>) cs ls.

(** The manager handles the next message of its mailbox. *)
Definition manager_step (cfg : option ac_config) (s : net) : option net :=
  if n_returned s then None
  else
    '(received, own) ← try_receive (n_own s);
    p ← received;
    '(returned, w) ← dispatch done dlopen dlsym iter cfg p (n_manager s);
    Some (mkNet own w (n_bus s) (n_objects s)
            (starts (drop (length (launched (n_manager s))) (launched w)) (n_coroutines s)) returned).

(** What the child's coroutine has done to the rest. *)
Definition after_child (l : launch) (c : child_world) (cs : gmap Z (launch * phase)) (s : net) : net :=
  let w := n_manager s in
  mkNet (cw_parent c) (with_messages (<[l_mailbox l := cw_mailbox c]> (child_boxes w)) (cw_heap c) w)
    (cw_bus c) (cw_objects c) cs (n_returned s).

(** The coroutine of child [id] is resumed, or comes out of [error_handle]. *)
Definition child_step (id : Z) (s : net) : option net :=
  let w := n_manager s in
  '(l, ph) ← n_coroutines s !! id;
  mb ← child_boxes w !! l_mailbox l;
  let c := mkCW mb (n_own s) (heap w) (n_bus s) (n_objects s) [] in
  match ph with
  | Starting =>
      '(st, c1) ← launch_begin done (code (n_objects s)) self (S (Z.to_nat (Mail.size_ (mailbox_ mb)))) l c;
      Some (after_child l c1
              match st with
              | LEnded => delete id (n_coroutines s)
              | LSuspended => <[id := (l, Waiting)]> (n_coroutines s)
              | LFailing actor what => <[id := (l, Failing actor what)]> (n_coroutines s)
              end s)
  | Waiting => None
  | Failing actor what =>
      c1 ← launch_failed done (code (n_objects s)) l actor what c;
      Some (after_child l c1 (delete id (n_coroutines s)) s)
  end.

Definition net_step (s s' : net) : Prop :=
  (exists cfg, manager_step cfg s = Some s') \/ (exists id, child_step id s = Some s').

End Steps.

(** ** The messages in the manager's mailbox *)

Inductive mail := MCrash (id : Z) (text : string) | MExit (id : Z) | MStop.

#[global] Instance mail_eq_dec : EqDecision mail.
Proof. solve_decision. Defined.

Record item := mkItem { addr : Z; content : mail }.

Definition mail_message (m : mail) : EventMessage :=
  match m with
  | MCrash id text => set_payload (new_message 1 kEventCrashReport id) text
  | MExit id => new_message 1 kEventModuleExited id
  | MStop => new_message 1 kEventCmdExit 0
  end.

(** The children whose exit report is there. *)
Definition exits (ms : list item) : list Z :=
  omap (fun i => if content i is MExit id then Some id else None) ms.

Definition stops (ms : list item) : nat := length (filter (fun i => content i = MStop) ms).

Definition item_at (h : gmap Z EventMessage) (i : item) : Prop :=
  addr i <> 0 /\ h !! addr i = Some (mail_message (content i)).

Lemma exits_app l1 l2 : exits (l1 ++ l2) = exits l1 ++ exits l2.
Proof. apply omap_app. Qed.

Lemma stops_app l1 l2 : stops (l1 ++ l2) = (stops l1 + stops l2)%nat.
Proof. unfold stops. by rewrite filter_app, length_app. Qed.

(** Other messages may come and go. *)
Lemma items_kept h h' ms :
  Forall (item_at h) ms -> (forall i, i ∈ ms -> h' !! addr i = h !! addr i) -> Forall (item_at h') ms.
Proof.
  rewrite !Forall_forall. intros Hf Hk i Hi. destruct (Hf i Hi) as [? Hm]. split; [done|]. by rewrite Hk.
Qed.

Lemma items_next h i ms :
  Forall (item_at h) (i :: ms) -> NoDup (addr <$> i :: ms) ->
  Forall (item_at (delete (addr i) h)) ms /\ NoDup (addr <$> ms).
Proof.
  intros Hf Hnd. apply Forall_cons in Hf as [_ Hf]. simpl in Hnd. apply NoDup_cons in Hnd as [Hn Hnd].
  split; [|done]. apply (items_kept h); [done|]. intros x Hx. apply lookup_delete_ne. intros E.
  apply Hn. rewrite E. apply list_elem_of_fmap. by exists x.
Qed.

(** A message sent now, at a new address. *)
Lemma item_new h ms m :
  Forall (item_at h) ms -> NoDup (addr <$> ms) ->
  let i := mkItem (fresh_addr h) m in
  Forall (item_at (<[addr i := mail_message m]> h)) (ms ++ [i]) /\ NoDup (addr <$> ms ++ [i]).
Proof.
  intros Hf Hnd i. destruct (fresh_addr_spec h) as [Hp Hpf]. pose proof Hf as Hf0. rewrite Forall_forall in Hf0.
  assert (Hnew : forall x, x ∈ ms -> addr x <> addr i).
  { intros x Hx E. destruct (Hf0 x Hx) as [_ Hm]. rewrite E in Hm. simpl in Hm. congruence. }
  split.
  - apply Forall_app. split.
    + apply (items_kept h); [done|]. intros x Hx. apply lookup_insert_ne. intros E. by apply (Hnew x Hx).
    + apply Forall_singleton. split; [simpl; lia|apply lookup_insert_eq].
  - rewrite fmap_app. simpl. apply NoDup_app. split; [done|]. split; [|apply NoDup_singleton].
    intros x (y & -> & Hy)%list_elem_of_fmap E%list_elem_of_singleton. by apply (Hnew y Hy).
Qed.

(** ** What the manager does with a message once it is stopping *)

Lemma send_all_dom done p mbs boxes h boxes' h' woken :
  send_all done p mbs boxes h = Some (boxes', h', woken) -> dom boxes ⊆ dom boxes'.
Proof.
  revert boxes h boxes' h' woken. induction mbs as [|a mbs IH]; intros boxes h boxes' h' woken E; simpl in E; [by injection E as <- <- <-|].
  destruct (boxes !! a) as [box|]; simpl in E; [|done]. destruct (Send _ _ _ _) as [[[box' h1] w1]|]; simpl in E; [|done].
  destruct (send_all _ _ _ _ _) as [[[b2 h2] w2]|] eqn:E2; simpl in E; [|done]. injection E as <- <- <-.
  apply IH in E2. rewrite dom_insert_L in E2. set_solver.
Qed.

Section Dispatch.
Context (done : Z -> bool) (dlopen : string -> Z) (dlsym : Z -> string -> option Z).
Context (iter : gmap Z ActorMetaData -> list (Z * ActorMetaData)).

Local Abbreviation disp := (dispatch done dlopen dlsym iter).

Lemma release_item i w : item_at (heap w) i -> release (addr i) w = Some (with_messages (child_boxes w) (delete (addr i) (heap w)) w).
Proof.
  intros [Hp Hm]. unfold release, event_message_release. apply Z.eqb_neq in Hp. rewrite Hp, Hm. simpl.
  by destruct (content i).
Qed.

Lemma dispatch_crash_stopping cfg i id text w :
  is_running_ w = false -> item_at (heap w) i -> content i = MCrash id text ->
  disp cfg (addr i) w = Some (false, with_messages (child_boxes w) (delete (addr i) (heap w)) w).
Proof.
  intros Hr Hi Ec. unfold dispatch. rewrite (proj2 Hi), Ec. simpl.
  assert (handle_event_crash (mail_message (MCrash id text)) w = Some w) as E.
  { unfold handle_event_crash. simpl. rewrite Hr. by destruct (childrens_ w !! id). }
  simpl in E. rewrite E. simpl. by rewrite (release_item i w Hi).
Qed.

(** The state after the exit report of [id] at [p]. *)
Definition after_exit (p id : Z) (w : ActorManager) : ActorManager :=
  with_messages (child_boxes w) (delete p (heap w))
    (with_children (delete id (childrens_ w))
       (with_pending (pending_reload_ w ∖ {[id]}) (pending_stop_ w ∖ {[id]}) (pending_restart_ w ∖ {[id]}) w)).

Lemma dispatch_exit cfg i id w :
  is_running_ w = false -> id ∈ dom (childrens_ w) -> item_at (heap w) i -> content i = MExit id ->
  let last := bool_decide (delete id (childrens_ w) = ∅) in
  disp cfg (addr i) w = Some (last, if last then count_down (after_exit (addr i) id w) else after_exit (addr i) id w).
Proof.
  intros Hr [md Hc]%elem_of_dom Hi Ec last. unfold dispatch. rewrite (proj2 Hi), Ec. cbn [mbind option_bind type_ new_message sender_id_ mail_message].
  rewrite (event_exit_stopping dlopen dlsym iter id md) by done. fold last. cbn [mbind option_bind].
  set (w1 := with_children _ _). assert (Hi1 : item_at (heap (if last then count_down w1 else w1)) i) by (by destruct last).
  rewrite (release_item i _ Hi1). by destruct last.
Qed.

(** The exit command with nobody left. *)
Lemma dispatch_stop_empty cfg i w :
  childrens_ w = ∅ -> item_at (heap w) i -> content i = MStop ->
  disp cfg (addr i) w = Some (true, count_down (with_messages (child_boxes w) (delete (addr i) (heap w)) w)).
Proof.
  intros He Hi Ec. unfold dispatch. rewrite (proj2 Hi), Ec. simpl. unfold handle_cmd_exit. rewrite decide_True by done.
  simpl. by rewrite (release_item i (count_down w) Hi).
Qed.

Context (iter_perm : forall m, iter m ≡ₚ map_to_list m).
Context (k : nat) (Hk : (1 <= k)%nat).

#[local] Hint Extern 0 (BoundedFifo _ _) => exact (Mail.mail_queue_fifo k Hk) : typeclass_instances.

(** Every child has a mailbox in which [n] more sends are well defined. *)
Definition children_ready (n : nat) (w : ActorManager) : Prop :=
  forall id md, childrens_ w !! id = Some md -> exists mb, child_boxes w !! mailbox md = Some mb /\ box_ready n mb.

(** The exit command: the stop message goes to every mailbox with room. *)
Lemma dispatch_stop cfg i n w :
  childrens_ w <> ∅ -> (size (childrens_ w) <= n)%nat -> Z.of_nat n < 2 ^ 64 -> children_ready n w ->
  item_at (heap w) i -> content i = MStop ->
  exists boxes h r t u, disp cfg (addr i) w = Some (false, with_messages boxes (delete (addr i) h) (with_pending r t u w)) /\
    dom (child_boxes w) ⊆ dom boxes /\ (forall q m, heap w !! q = Some m -> h !! q = Some m).
Proof.
  intros Hne Hsz Hn Hready Hi Ec. destruct (fresh_addr_spec (heap w)) as [Hp Hf]. set (p := fresh_addr (heap w)) in *.
  unfold dispatch. rewrite (proj2 Hi), Ec. cbn [mbind option_bind type_ new_message mail_message]. unfold handle_cmd_exit.
  rewrite decide_False by done. cbn [new_event]. fold p. set (m := new_message (Z.of_nat (size (childrens_ w))) kEventCmdModuleStop 0).
  set (h1 := <[p := m]> (heap w)). rewrite exit_loop_send_all. cbn [childrens_ with_messages child_boxes heap].
  set (mbs := mailbox <$> (iter (childrens_ w)).*2).
  assert (Hlen : length mbs = size (childrens_ w)).
  { unfold mbs. rewrite !length_fmap, (iter_perm (childrens_ w)). apply length_map_to_list. }
  assert (Hh : holds h1 (replicate (length mbs) p)).
  { eapply holds_replicate; [lia|apply lookup_insert_eq|]. unfold m. simpl. lia. }
  destruct (send_all_spec done p mbs (child_boxes w) h1) as (b & h & woken & acc & Es & Hsub & _ & _ & Hrel); [|done|].
  { intros a Ha. apply list_elem_of_fmap in Ha as (md & -> & Ha). apply list_elem_of_fmap in Ha as ([j md'] & -> & Ha).
    rewrite iter_perm, elem_of_map_to_list in Ha. destruct (Hready j md' Ha) as (mb & Hmb & Hwf & Hb).
    exists mb. split; [done|]. split; [done|]. simpl in *. lia. }
  assert (Hdom : dom (child_boxes w) ⊆ dom b) by (by eapply send_all_dom).
  rewrite Es. cbn [mbind option_bind].
  assert (Hkeep : forall q x, heap w !! q = Some x -> h !! q = Some x).
  { intros q x Hq. assert (q <> p) as Hqp by (intros ->; congruence).
    destruct (release_all_spec (replicate (length mbs - length acc) p) h1) as (h2 & E2 & Hout & _).
    { eapply holds_replicate; [lia|apply lookup_insert_eq|]. unfold m. simpl. lia. }
    rewrite Hrel in E2. injection E2 as <-. rewrite Hout; [|by intros [-> _]%elem_of_replicate].
    unfold h1. by rewrite lookup_insert_ne by done. }
  set (w1 := with_messages b h _). assert (Hi1 : item_at (heap w1) i) by (split; [apply Hi|apply Hkeep, Hi]).
  rewrite (release_item i w1 Hi1). simpl. eexists b, h, _, _, _. split; [done|]. done.
Qed.

End Dispatch.

(** ** The state while the program stops *)

(** The reports a coroutine has still to send. *)
Definition weight (c : launch * phase) : nat := match c.2 with Starting => 2 | Waiting => 0 | Failing _ _ => 1 end.

(** The module objects: those of others ([base]) and one per coroutine in
    [error_handle]. *)
Record objects_ok (base objects : gset Z) (cs : gmap Z (launch * phase)) : Prop := {
  oo_base : base ⊆ objects;
  oo_owner a : a ∈ objects -> a ∈ base \/ exists id l what, cs !! id = Some (l, Failing a what);
  oo_object id l a what : cs !! id = Some (l, Failing a what) -> a ∈ objects /\ a ∉ base;
  oo_once i j l l' a x y : cs !! i = Some (l, Failing a x) -> cs !! j = Some (l', Failing a y) -> i = j
}.

Lemma objects_start base objects cs id l a what :
  objects_ok base objects cs -> cs !! id = Some (l, Starting) -> a ∉ objects ->
  objects_ok base ({[a]} ∪ objects) (<[id := (l, Failing a what)]> cs).
Proof.
  intros [H1 H2 H3 H4] Hid Ha. split.
  - set_solver.
  - intros x [->%elem_of_singleton|Hx]%elem_of_union; [right; exists id, l, what; apply lookup_insert_eq|].
    destruct (H2 x Hx) as [?|(j & l' & y & Hj)]; [by left|right]. exists j, l', y. rewrite lookup_insert_ne; [done|congruence].
  - intros j l' x y [[<- ?]|[Hne Hj]]%lookup_insert_Some; [simplify_eq; set_solver|]. destruct (H3 _ _ _ _ Hj). set_solver.
  - intros i j li lj x u v [[<- Ei]|[Hi Ei]]%lookup_insert_Some [[<- Ej]|[Hj Ej]]%lookup_insert_Some; simplify_eq; try done.
    + destruct Ha. by eapply H3.
    + destruct Ha. by eapply H3.
    + by eapply H4.
Qed.

Lemma objects_end base objects cs id l a what :
  objects_ok base objects cs -> cs !! id = Some (l, Failing a what) -> objects_ok base (objects ∖ {[a]}) (delete id cs).
Proof.
  intros [H1 H2 H3 H4] Hid. destruct (H3 _ _ _ _ Hid) as [Ha Hb]. split.
  - set_solver.
  - intros x [Hx Hne]%elem_of_difference. rewrite elem_of_singleton in Hne.
    destruct (H2 x Hx) as [?|(j & l' & y & Hj)]; [by left|right]. exists j, l', y. rewrite lookup_delete_ne; [done|congruence].
  - intros j l' x y [Hne Hj]%lookup_delete_Some. destruct (H3 _ _ _ _ Hj). split; [|done].
    apply elem_of_difference. split; [done|]. intros ->%elem_of_singleton. apply Hne. by eapply H4.
  - intros i j li lj x u v [_ Hi]%lookup_delete_Some [_ Hj]%lookup_delete_Some. by eapply H4.
Qed.

Section Stopping.
Context (done : Z -> bool) (dlopen : string -> Z) (dlsym : Z -> string -> option Z).
Context (iter : gmap Z ActorMetaData -> list (Z * ActorMetaData)).
Context (code : gset Z -> module_code) (self : Z).
Context (k : nat) (Hk : (1 <= k)%nat).

#[local] Hint Extern 0 (BoundedFifo _ _) => exact (Mail.mail_queue_fifo k Hk) : typeclass_instances.

(** The coroutines of the children: at their start or in [error_handle], with a
    library that is open and a mailbox; their reports fit into the manager's
    mailbox, beside [ms]. *)
Record crashing (base : gset Z) (ms : list item) (s : net) : Prop := {
  cr_returned : n_returned s = false;
  cr_wf : box_wf (n_own s);
  cr_letters : letters (n_own s) = addr <$> ms;
  cr_items : Forall (item_at (heap (n_manager s))) ms;
  cr_addrs : NoDup (addr <$> ms);
  cr_children : dom (childrens_ (n_manager s)) = dom (n_coroutines s) ∪ list_to_set (exits ms);
  cr_exits : NoDup (exits ms);
  cr_ended id : id ∈ exits ms -> n_coroutines s !! id = None;
  cr_coroutine id l ph : n_coroutines s !! id = Some (l, ph) ->
    l_actor l = id /\ ph <> Waiting /\ create_func (l_module l) <> 0 /\ destroy_func (l_module l) <> 0 /\
    is_Some (child_boxes (n_manager s) !! l_mailbox l);
  cr_room : (length ms + map_sum weight (n_coroutines s) <= fifo_cap (mailbox_ (n_own s)))%nat;
  cr_budget : Z.of_nat (map_sum weight (n_coroutines s)) <= fifo_budget (mailbox_ (n_own s));
  cr_objects : objects_ok base (n_objects s) (n_coroutines s)
}.

(** After [Shutdown]: the exit command is among the messages, or was handled. *)
Record stopping (base : gset Z) (latch : Z) (ls : list launch) (ms : list item) (s : net) : Prop := {
  st_crashing : crashing base ms s;
  st_running : is_running_ (n_manager s) = false;
  st_left : childrens_ (n_manager s) <> ∅ \/ stops ms = 1%nat;
  st_stops : (stops ms <= 1)%nat;
  st_ready : stops ms = 1%nat -> exists n, (size (childrens_ (n_manager s)) <= n)%nat /\ Z.of_nat n < 2 ^ 64 /\
    children_ready k Hk n (n_manager s);
  st_latch : main_latch_ (n_manager s) = latch;
  st_launched : launched (n_manager s) = ls
}.

(** A child's step: its report [m] is new. *)
Lemma crashing_report base ms s id l ph m c cs objects :
  crashing base ms s -> n_coroutines s !! id = Some (l, ph) -> ph <> Waiting ->
  (if m is MExit j then j = id /\ cs = delete id (n_coroutines s)
   else exits [mkItem 0 m] = [] /\ exists ph', ph' <> Waiting /\ cs = <[id := (l, ph')]> (n_coroutines s) /\
     (weight (l, ph') < weight (l, ph))%nat) ->
  let p := fresh_addr (heap (n_manager s)) in
  box_wf (cw_parent c) -> letters (cw_parent c) = letters (n_own s) ++ [p] ->
  fifo_budget (mailbox_ (n_own s)) - 1 <= fifo_budget (mailbox_ (cw_parent c)) ->
  cw_heap c = <[p := mail_message m]> (heap (n_manager s)) -> cw_objects c = objects -> objects_ok base objects cs ->
  crashing base (ms ++ [mkItem p m]) (after_child l c cs s).
Proof.
  intros Hc Hid Hph Hm p Hwf Hl Hb Eh Eo Hobj.
  destruct (item_new _ _ m (cr_items _ _ _ Hc) (cr_addrs _ _ _ Hc)) as [Hi Ha].
  assert (Hw : (map_sum weight cs + 1 <= map_sum weight (n_coroutines s))%nat).
  { destruct m as [j t|j|]; destruct Hm as [_ Hm].
    1, 3: destruct Hm as (ph' & _ & -> & Hlt); pose proof (map_sum_update weight _ _ _ (l, ph') Hid); lia.
    subst cs. rewrite (map_sum_delete weight _ _ _ Hid). destruct ph; simpl; lia || done. }
  assert (Hcs : forall j, j <> id -> cs !! j = n_coroutines s !! j).
  { intros j Hj. destruct m as [i t|i|]; destruct Hm as [_ Hm].
    1, 3: destruct Hm as (ph' & _ & -> & _); by rewrite lookup_insert_ne. subst cs. by rewrite lookup_delete_ne. }
  assert (Hex : id ∉ exits ms) by (intros Hin; by rewrite (cr_ended _ _ _ Hc _ Hin) in Hid).
  assert (Hed : dom cs ∪ list_to_set (exits [mkItem p m]) =@{gset Z} dom (n_coroutines s)).
  { apply elem_of_dom_2 in Hid. destruct m as [i t|i|]; destruct Hm as [E1 Hm].
    1, 3: destruct Hm as (ph' & _ & -> & _); simpl; rewrite dom_insert_L; set_solver.
    subst i cs. simpl. rewrite dom_delete_L, union_empty_r_L. apply set_eq. intros x. destruct (decide (x = id)); set_solver. }
  split; cbn [after_child n_returned n_own n_manager n_coroutines n_objects heap with_messages childrens_ child_boxes].
  - apply Hc.
  - done.
  - by rewrite Hl, (cr_letters _ _ _ Hc), fmap_app.
  - by rewrite Eh.
  - done.
  - rewrite (cr_children _ _ _ Hc), exits_app, list_to_set_app_L, <- Hed. set_solver.
  - rewrite exits_app. destruct m as [i t|i|]; [|destruct Hm as [-> _]|]; simpl; rewrite ?app_nil_r; try apply Hc.
    apply NoDup_app. split; [apply Hc|]. split; [|apply NoDup_singleton]. by intros x Hx ->%list_elem_of_singleton.
  - intros j. rewrite exits_app. intros [Hj|Hj]%elem_of_app.
    + rewrite Hcs by (intros ->; done). by apply (cr_ended _ _ _ Hc).
    + destruct m as [i t|i|]; simpl in Hj; try (by apply not_elem_of_nil in Hj).
      destruct Hm as [-> ->]. apply list_elem_of_singleton in Hj as ->. apply lookup_delete_eq.
  - intros j lj pj Hj. assert (Hbox : forall a, is_Some (child_boxes (n_manager s) !! a) ->
      is_Some (<[l_mailbox l := cw_mailbox c]> (child_boxes (n_manager s)) !! a)) by (intros a Hax; rewrite lookup_insert_is_Some'; by right).
    destruct (decide (j = id)) as [->|Hne].
    + destruct (cr_coroutine _ _ _ Hc _ _ _ Hid) as (? & _ & ? & ? & ?).
      destruct m as [i t|i|]; destruct Hm as [_ Hm]; [|subst cs; by rewrite lookup_delete_eq in Hj|];
        destruct Hm as (ph' & Hw' & -> & _); rewrite lookup_insert_eq in Hj; injection Hj as <- <-; split_and!; auto.
    + rewrite Hcs in Hj by done. destruct (cr_coroutine _ _ _ Hc _ _ _ Hj) as (? & ? & ? & ? & ?). split_and!; auto.
  - pose proof (cr_room _ _ _ Hc) as Hr. rewrite length_app. simpl in *. lia.
  - pose proof (cr_budget _ _ _ Hc) as Hr. simpl in *. lia.
  - by rewrite Eo.
Qed.

Context (code_new : forall objects id, create (code objects) id <> 0 /\ create (code objects) id ∉ objects).

Definition cost (c : launch * phase) : nat := match c.2 with Starting => 4 | Waiting => 0 | Failing _ _ => 2 end.

Lemma stopping_report base latch ls ms s i l mb c cs :
  stopping base latch ls ms s -> crashing base (ms ++ [i]) (after_child l c cs s) -> content i <> MStop ->
  child_boxes (n_manager s) !! l_mailbox l = Some mb -> mailbox_ (cw_mailbox c) = mailbox_ mb ->
  stopping base latch ls (ms ++ [i]) (after_child l c cs s).
Proof.
  intros Hs Hc Hi Hmb Em. assert (E0 : stops (ms ++ [i]) = stops ms).
  { rewrite stops_app. unfold stops at 2. rewrite filter_cons_False by done. simpl. lia. }
  destruct Hs as [_ H2 H3 H4 H5 H6 H7]. split; rewrite ?E0; try done.
  intros H1. destruct (H5 H1) as (n & Hn & Hn2 & Hr). exists n. split; [done|]. split; [done|].
  intros id md Hmd. destruct (Hr id md Hmd) as (mb' & Hmb' & Hrd). simpl.
  destruct (decide (mailbox md = l_mailbox l)) as [E|]; [|exists mb'; by rewrite lookup_insert_ne].
  exists (cw_mailbox c). rewrite E, lookup_insert_eq. split; [done|]. rewrite E, Hmb in Hmb'. injection Hmb' as <-.
  unfold box_ready, box_wf. by rewrite Em.
Qed.

Lemma child_step_stopping base latch ls ms s id l ph :
  stopping base latch ls ms s -> n_coroutines s !! id = Some (l, ph) ->
  exists s' i, child_step done code self id s = Some s' /\ stopping base latch ls (ms ++ [i]) s' /\
    (map_sum cost (n_coroutines s') + 1 < map_sum cost (n_coroutines s))%nat.
Proof.
  intros Hs Hid. pose proof (st_crashing _ _ _ _ _ Hs) as Hc.
  destruct (cr_coroutine _ _ _ Hc _ _ _ Hid) as (El & Hph & Hcf & Hdf & [mb Hmb]).
  pose proof (map_sum_le weight _ _ _ Hid) as Hw. pose proof (cr_room _ _ _ Hc) as Hroom. pose proof (cr_budget _ _ _ Hc) as Hbud.
  assert (Hone : (1 <= weight (l, ph))%nat) by (unfold weight; destruct ph; simpl; lia || done).
  set (c := mkCW mb (n_own s) (heap (n_manager s)) (n_bus s) (n_objects s) []).
  assert (Hbr : box_room (n_own s)) by (unfold box_room; rewrite (cr_letters _ _ _ Hc), length_fmap; lia).
  assert (Hbb : 1 <= fifo_budget (mailbox_ (n_own s))) by lia.
  unfold child_step. rewrite Hid. cbn [mbind option_bind]. rewrite Hmb. cbn [mbind option_bind]. fold c.
  destruct ph as [| |a what]; [|done|].
  - destruct (code_new (n_objects s) (l_actor l)) as [Hnz Hnew].
    destruct (Supervision.launch_begin_crashes k Hk done (code (n_objects s)) self (S (Z.to_nat (Mail.size_ (mailbox_ mb)))) l c)
      as (c1 & -> & Hwf1 & Hl1 & Hb1 & Eh & _ & Eo & Em); [apply Hc|done..|]. cbn [mbind option_bind].
    eexists _, _. split; [done|]. split.
    + eapply (stopping_report _ _ _ _ _ (mkItem _ (MCrash (l_actor l) _))); [done| |done|done|by rewrite Em].
      eapply (crashing_report base ms s id l Starting (MCrash (l_actor l) _)); [done..| |exact Hwf1|exact Hl1|exact Hb1|exact Eh|exact Eo|].
      * split; [done|]. eexists (Failing _ _). split; [done|]. split; [done|]. unfold weight. simpl. lia.
      * by apply objects_start; [apply Hc|..].
    + simpl. pose proof (map_sum_update cost _ _ _ (l, Failing (create (code (n_objects s)) (l_actor l)) "boom!boom!boom!") Hid) as Hu.
      change (cost (l, Starting)) with 4%nat in Hu. change (cost (l, Failing _ _)) with 2%nat in Hu. lia.
  - destruct (Supervision.launch_failed_reports k Hk done (code (n_objects s)) l a what c)
      as (c1 & -> & Hwf1 & Hl1 & Hb1 & Eh & _ & Eo & Em); [apply Hc|done..|]. cbn [mbind option_bind].
    eexists _, _. split; [done|]. split.
    + eapply (stopping_report _ _ _ _ _ (mkItem _ (MExit (l_actor l)))); [done| |done|done|by rewrite Em].
      eapply (crashing_report base ms s id l (Failing a what) (MExit (l_actor l))); [done..| |exact Hwf1|exact Hl1|exact Hb1|exact Eh|exact Eo|].
      * by rewrite El.
      * eapply objects_end; [apply Hc|done].
    + simpl. rewrite (map_sum_delete cost _ _ _ Hid). change (cost (l, Failing _ _)) with 2%nat. lia.
Qed.

(** The event loop has returned, nobody is left. *)
Definition finished (base : gset Z) (latch : Z) (ls : list launch) (s : net) : Prop :=
  n_returned s = true /\ childrens_ (n_manager s) = ∅ /\ n_coroutines s = ∅ /\
  main_latch_ (n_manager s) = latch - 1 /\ launched (n_manager s) = ls /\ n_objects s = base.

(** The manager has handled the oldest message. *)
Lemma crashing_next base i ms s own w :
  crashing base (i :: ms) s -> box_wf own -> letters own = addr <$> ms ->
  fifo_budget (mailbox_ (n_own s)) <= fifo_budget (mailbox_ own) ->
  dom (child_boxes (n_manager s)) ⊆ dom (child_boxes w) ->
  (forall q m, q <> addr i -> heap (n_manager s) !! q = Some m -> heap w !! q = Some m) ->
  childrens_ w = (if content i is MExit id then delete id (childrens_ (n_manager s)) else childrens_ (n_manager s)) ->
  crashing base ms (mkNet own w (n_bus s) (n_objects s) (n_coroutines s) false).
Proof.
  intros [H1 H2 H3 H4 H5 H6 H7 H8 H9 H10 H11 H12] Hwf Hl Hb Hd Hh Ech. destruct (items_next _ _ _ H4 H5) as [Hi Ha].
  assert (Hex : forall id, content i = MExit id -> exits (i :: ms) = id :: exits ms) by (intros id E; unfold exits; simpl; by rewrite E).
  assert (Hno : (forall id, content i <> MExit id) -> exits (i :: ms) = exits ms).
  { intros E. unfold exits. simpl. destruct (content i) as [| |]; try done. by destruct (E id). }
  split; cbn [n_returned n_own n_manager n_coroutines n_objects]; try done.
  - rewrite Forall_forall in Hi |- *. intros x Hx. destruct (Hi x Hx) as [? [Hne Hm]%lookup_delete_Some]. split; [done|]. by apply Hh.
  - rewrite Ech. destruct (content i) as [j t|j|] eqn:Ei; [by rewrite H6, Hno| |by rewrite H6, Hno].
    rewrite (Hex j eq_refl) in H6, H7, H8. apply NoDup_cons in H7 as [Hj _]. rewrite dom_delete_L, H6. simpl.
    assert (j ∉ dom (n_coroutines s)) by (apply not_elem_of_dom, H8; by left).
    rewrite <- (not_elem_of_list_to_set (C := gset Z)) in Hj. set_solver.
  - destruct (content i) as [j t|j|]; [by rewrite <- Hno| |by rewrite <- Hno]. rewrite (Hex j eq_refl) in H7. by apply NoDup_cons in H7 as [_ ?].
  - intros id Hid. apply H8. destruct (content i) as [j t|j|]; [by rewrite Hno| |by rewrite Hno]. rewrite (Hex j eq_refl). by right.
  - intros id l ph Hid. destruct (H9 id l ph Hid) as (? & ? & ? & ? & Hbx). split_and!; try done.
    by apply elem_of_dom, Hd, elem_of_dom.
  - simpl in *. lia.
  - lia.
Qed.

(** Nobody left: the coroutines have ended and destroyed their objects. *)
Lemma crashing_empty base ms s :
  crashing base ms s -> childrens_ (n_manager s) = ∅ -> n_coroutines s = ∅ /\ n_objects s = base.
Proof.
  intros Hc He. pose proof (cr_children _ _ _ Hc) as Hd. rewrite He, dom_empty_L in Hd.
  assert (n_coroutines s = ∅) as Ec by (apply dom_empty_inv_L; set_solver). split; [done|].
  destruct (cr_objects _ _ _ Hc) as [H1 H2 _ _]. apply set_eq. intros a. split; [|set_solver].
  intros [?|(id & l & what & Hid)]%H2; [done|]. by rewrite Ec, lookup_empty in Hid.
Qed.

Context (iter_perm : forall m, iter m ≡ₚ map_to_list m).

Lemma stops_cons i ms : stops (i :: ms) = ((if decide (content i = MStop) then 1 else 0) + stops ms)%nat.
Proof.
  unfold stops. destruct (decide _); [by rewrite filter_cons_True|by rewrite filter_cons_False].
Qed.

(** A message other than the exit command that does not end the loop. *)
Lemma stopping_next base latch ls i ms s own w b :
  stopping base latch ls (i :: ms) s -> content i <> MStop ->
  crashing base ms (mkNet own w (n_bus s) (n_objects s) (n_coroutines s) b) ->
  childrens_ w <> ∅ \/ stops ms = 1%nat -> childrens_ w ⊆ childrens_ (n_manager s) -> child_boxes w = child_boxes (n_manager s) ->
  is_running_ w = false -> main_latch_ w = latch -> launched w = ls ->
  stopping base latch ls ms (mkNet own w (n_bus s) (n_objects s) (n_coroutines s) b).
Proof.
  intros [_ _ _ H4 H5 _ _] Hi Hc Hleft Hsub Eb Hr Hla Hls. rewrite stops_cons, decide_False in H4, H5 by done.
  split; try done. intros H1. destruct (H5 H1) as (n & Hn & Hn2 & Hrd). exists n. simpl. split; [|split; [done|]].
  - pose proof (map_subseteq_size _ _ Hsub). lia.
  - intros id md Hmd. simpl in *. rewrite Eb. apply (Hrd id). by eapply lookup_weaken.
Qed.

Lemma dispatch_stopping base latch ls i ms s own :
  stopping base latch ls (i :: ms) s -> box_wf own -> letters own = addr <$> ms ->
  fifo_budget (mailbox_ (n_own s)) <= fifo_budget (mailbox_ own) ->
  exists b w, dispatch done dlopen dlsym iter None (addr i) (n_manager s) = Some (b, w) /\ launched w = ls /\
    let s' := mkNet own w (n_bus s) (n_objects s) (n_coroutines s) b in
    finished base latch ls s' \/ stopping base latch ls ms s'.
Proof.
  intros Hs Hwf Hl Hb. pose proof Hs as [Hc Hr Hleft Hst Hrd Hla Hls]. pose proof (cr_items _ _ _ Hc) as Hit.
  apply Forall_cons in Hit as [Hi _].
  assert (Hnext : forall w, dom (child_boxes (n_manager s)) ⊆ dom (child_boxes w) ->
    (forall q m, q <> addr i -> heap (n_manager s) !! q = Some m -> heap w !! q = Some m) ->
    childrens_ w = (if content i is MExit id then delete id (childrens_ (n_manager s)) else childrens_ (n_manager s)) ->
    crashing base ms (mkNet own w (n_bus s) (n_objects s) (n_coroutines s) false)) by (intros; by eapply crashing_next).
  assert (Hdel : forall q m, q <> addr i -> heap (n_manager s) !! q = Some m -> delete (addr i) (heap (n_manager s)) !! q = Some m).
  { intros q m Hq Hm. by rewrite lookup_delete_ne. }
  pose proof (stops_cons i ms) as E1. destruct (content i) as [id text|id|] eqn:Ei.
  - rewrite decide_False in E1 by done. rewrite (dispatch_crash_stopping _ _ _ _ _ i id text) by done.
    eexists _, _. split; [done|]. split; [done|]. right. eapply stopping_next; try done; [congruence|by apply Hnext|].
    by rewrite E1 in Hleft.
  - rewrite decide_False in E1 by done. assert (id ∈ dom (childrens_ (n_manager s))) as Hid.
    { rewrite (cr_children _ _ _ Hc). unfold exits. simpl. rewrite Ei. set_solver. }
    rewrite (dispatch_exit _ _ _ _ _ i id) by done. eexists _, _. split; [done|].
    assert (Hcr : crashing base ms (mkNet own (after_exit (addr i) id (n_manager s)) (n_bus s) (n_objects s) (n_coroutines s) false))
      by (by apply Hnext). case_bool_decide as Ed.
    + split; [done|]. left. destruct (crashing_empty _ _ _ Hcr Ed) as [Ec Eo]. unfold finished. simpl in *. rewrite Hla. by split_and!.
    + split; [done|]. right. eapply stopping_next; try done; [congruence|by left|apply delete_subseteq].
  - rewrite decide_True in E1 by done. destruct (decide (childrens_ (n_manager s) = ∅)) as [He|Hne].
    + rewrite (dispatch_stop_empty _ _ _ _ _ i) by done. eexists _, _. split; [done|]. split; [done|]. left.
      destruct (crashing_empty _ _ _ Hc He) as [Ec Eo]. unfold finished. simpl. rewrite Hla. by split_and!.
    + destruct Hrd as (n & Hn & Hn2 & Hrd); [lia|].
      destruct (dispatch_stop done dlopen dlsym iter iter_perm k Hk None i n (n_manager s)) as (bx & h & r & t & u & -> & Hd & Hh); try done.
      eexists _, _. split; [done|]. split; [done|]. right. split; try done; [|by left|lia|lia].
      apply Hnext; try done. intros q m Hq Hm. simpl. rewrite lookup_delete_ne by done. by apply Hh.
Qed.

Lemma manager_step_stopping base latch ls i ms s :
  stopping base latch ls (i :: ms) s ->
  exists s', (forall cfg, manager_step done dlopen dlsym iter cfg s = Some s') /\ n_coroutines s' = n_coroutines s /\
    (finished base latch ls s' \/ stopping base latch ls ms s').
Proof.
  intros Hs. pose proof (st_crashing _ _ _ _ _ Hs) as Hc. pose proof (cr_items _ _ _ Hc) as Hit. apply Forall_cons in Hit as [Hi _].
  pose proof (cr_letters _ _ _ Hc) as Hl. rewrite fmap_cons in Hl.
  destruct (receive_letter _ _ (n_own s) (cr_wf _ _ _ Hc) Hl) as (q & Er & Hq & Hv & Hb).
  set (own := mkMailBox _ _ _ _ q) in Er. destruct (dispatch_stopping base latch ls i ms s own Hs Hq Hv Hb) as (b & w & Ed & El & Hres).
  eexists. split; [|split; [|exact Hres]]; [|done]. intros cfg. unfold manager_step. rewrite (cr_returned _ _ _ Hc), Er. cbn [mbind option_bind].
  assert (dispatch done dlopen dlsym iter cfg (addr i) (n_manager s) = Some (b, w)) as ->.
  { rewrite <- Ed. unfold dispatch. rewrite (proj2 Hi). by destruct (content i). }
  cbn [mbind option_bind]. rewrite El, (st_launched _ _ _ _ _ Hs), drop_all. done.
Qed.

(** Whatever the order of the steps. *)
Lemma stopping_ends base latch ls ms s :
  stopping base latch ls ms s -> inevitable (net_step done dlopen dlsym iter code self) (finished base latch ls) s.
Proof.
  intros Hs. apply (inevitable_measure _ _ (fun n x => finished base latch ls x \/ exists ms, stopping base latch ls ms x /\
    n = (length ms + map_sum cost (n_coroutines x))%nat)) with (n := (length ms + map_sum cost (n_coroutines s))%nat);
    [|right; by exists ms]. clear s ms Hs. intros n s [Hf|(ms & Hs & ->)]; [by left|right].
  pose proof (st_crashing _ _ _ _ _ Hs) as Hc. split.
  - destruct ms as [|i ms].
    + destruct (map_choose (n_coroutines s)) as (id & [l ph] & Hid).
      { intros E. pose proof (cr_children _ _ _ Hc) as Hd. rewrite E, dom_empty_L in Hd.
        destruct (st_left _ _ _ _ _ Hs) as [Hne|]; [|done]. apply Hne, dom_empty_inv_L. rewrite Hd. set_solver. }
      destruct (child_step_stopping _ _ _ _ _ _ _ _ Hs Hid) as (s' & _ & E & _). exists s'. right. by exists id.
    + destruct (manager_step_stopping _ _ _ _ _ _ Hs) as (s' & E & _). exists s'. left. by exists None.
  - intros s' [[cfg E]|[id E]].
    + destruct ms as [|i ms].
      { unfold manager_step in E. rewrite (cr_returned _ _ _ Hc), (receive_nothing (n_own s)) in E by (apply Hc || by rewrite (cr_letters _ _ _ Hc)). done. }
      destruct (manager_step_stopping _ _ _ _ _ _ Hs) as (s1 & E1 & Ec & Hres). rewrite E1 in E. injection E as <-.
      exists (length ms + map_sum cost (n_coroutines s1))%nat. split; [rewrite Ec; simpl; lia|].
      destruct Hres as [?|?]; [by left|right; by exists ms].
    + destruct (n_coroutines s !! id) as [[l ph]|] eqn:Hid; [|unfold child_step in E; by rewrite Hid in E].
      destruct (child_step_stopping _ _ _ _ _ _ _ _ Hs Hid) as (s1 & i & E1 & Hs1 & Hlt). rewrite E1 in E. injection E as <-.
      exists (length (ms ++ [i]) + map_sum cost (n_coroutines s1))%nat. rewrite length_app. simpl. split; [lia|]. right.
      exists (ms ++ [i]). split; [done|]. by rewrite length_app.
Qed.

(** The program when [Shutdown] is called: children that wait to be started,
    children in [error_handle], reports the manager has not handled yet ([ms]);
    its mailbox has room for their reports and for the exit command. *)
Record before_shutdown (base : gset Z) (ms : list item) (s : net) : Prop := {
  bs_crashing : crashing base ms s;
  bs_running : is_running_ (n_manager s) = true;
  bs_stops : stops ms = 0%nat;
  bs_ready : children_ready k Hk (size (childrens_ (n_manager s))) (n_manager s);
  bs_many : Z.of_nat (size (childrens_ (n_manager s))) < 2 ^ 64;
  bs_room : (length ms + map_sum weight (n_coroutines s) + 1 <= fifo_cap (mailbox_ (n_own s)))%nat;
  bs_budget : Z.of_nat (map_sum weight (n_coroutines s)) + 1 <= fifo_budget (mailbox_ (n_own s))
}.

Lemma shutdown_posts base ms s :
  before_shutdown base ms s ->
  exists own w i, Manager.Shutdown done (n_own s) (n_manager s) = Some (own, w) /\
    stopping base (main_latch_ (n_manager s)) (launched (n_manager s)) (ms ++ [i])
      (mkNet own w (n_bus s) (n_objects s) (n_coroutines s) false).
Proof.
  intros [Hc Hr Hst Hrd Hm Hroom Hbud]. set (w := n_manager s) in *. set (p := fresh_addr (heap w)).
  destruct (item_new (heap w) ms MStop (cr_items _ _ _ Hc) (cr_addrs _ _ _ Hc)) as [Hi Ha]. fold p in Hi, Ha.
  destruct (send_accepted done p (n_own s) (<[p := mail_message MStop]> (heap w))) as (q & Es & Hq & Hv & Hb);
    [apply Hc|lia|unfold box_room; rewrite (cr_letters _ _ _ Hc), length_fmap; lia|].
  unfold Manager.Shutdown, post. rewrite Hr. simpl in Es |- *. fold p. rewrite Es. simpl. eexists _, _, (mkItem p MStop). split; [done|].
  assert (E1 : stops (ms ++ [mkItem p MStop]) = 1%nat) by (rewrite stops_app, Hst; done).
  assert (Ee : exits (ms ++ [mkItem p MStop]) = exits ms) by (rewrite exits_app; apply app_nil_r).
  split; rewrite ?E1; try done; [|by right|by exists (size (childrens_ w))].
  destruct Hc as [H1 H2 H3 H4 H5 H6 H7 H8 H9 H10 H11 H12]. split; simpl; rewrite ?Ee; try done.
  - transitivity (fifo_view q); [done|]. by rewrite Hv, H3, fmap_app.
  - rewrite length_app. simpl in *. lia.
  - simpl in *. lia.
Qed.

End Stopping.

(** C8. Shutdown of the program as it stands, end to end. The modules crash at
    their start: when [Shutdown] is called, each child is waiting to be started
    (again), or is in its [error_handle], or has reported its exit to the
    manager, which may not have handled the reports yet. From then on every
    execution of the manager and the coroutines, message by message and in any
    order, comes to an end: no step is undefined, nothing gets stuck, every
    child makes its two reports and destroys its module object, nothing is
    started again, and the event loop returns with nobody left and the latch
    counted down. The manager's mailbox must have room for the exit command and
    all these reports ([lost_report_blocks_shutdown] shows what happens otherwise) and no other
    request may be waiting in it. *)
Theorem crashing_shutdown_ends_loop (k : nat) (Hk : (1 <= k)%nat) (done : Z -> bool)
    (dlopen : string -> Z) (dlsym : Z -> string -> option Z)
    (iter : gmap Z ActorMetaData -> list (Z * ActorMetaData))
    (code : gset Z -> module_code) (self : Z) (base : gset Z) (ms : list item) (s : net) :
  (forall m, iter m ≡ₚ map_to_list m) ->
  (forall objects id, create (code objects) id <> 0 /\ create (code objects) id ∉ objects) ->
  before_shutdown k Hk base ms s ->
  exists own w, Manager.Shutdown done (n_own s) (n_manager s) = Some (own, w) /\
    inevitable (net_step done dlopen dlsym iter code self)
      (fun s' => n_returned s' = true /\ childrens_ (n_manager s') = ∅ /\ n_coroutines s' = ∅ /\
         main_latch_ (n_manager s') = main_latch_ (n_manager s) - 1 /\
         launched (n_manager s') = launched (n_manager s) /\ n_objects s' = base)
      (mkNet own w (n_bus s) (n_objects s) (n_coroutines s) false).
Proof.
  intros Hiter Hcode Hb. destruct (shutdown_posts done k Hk base ms s Hb) as (own & w & i & E & Hs).
  exists own, w. split; [done|]. exact (stopping_ends done dlopen dlsym iter code self k Hk Hcode Hiter _ _ _ _ _ Hs).
Qed.

(** Two children: one waits to be started, the other is in [error_handle]. *)
Definition two_children : ActorManager :=
  mkAM true false 1
    {[ 1 := mkMD 1 11 "net" (Some (mkLM "lib/libnet.so" 100 101 102));
       2 := mkMD 2 12 "log" (Some (mkLM "lib/liblog.so" 200 201 202)) ]}
    ∅ ∅ ∅ {[ 11 := new_mailbox 4; 12 := new_mailbox 4 ]} ∅ 3 (mkConfig "lib" []) [].

Definition crashing_pair : net :=
  mkNet (new_mailbox 4) two_children new_bus {[ 500 ]}
    {[ 1 := (mkLaunch 1 11 (mkLM "lib/libnet.so" 100 101 102), Starting);
       2 := (mkLaunch 2 12 (mkLM "lib/liblog.so" 200 201 202), Failing 500 "boom!boom!boom!") ]} false.

Lemma lookup_pair {A} (i j n : Z) (x y z : A) :
  ({[ i := x; j := y ]} : gmap Z A) !! n = Some z -> n = i /\ z = x \/ n = j /\ z = y.
Proof. intros [[<- <-]|[_ [<- <-]%lookup_singleton_Some]]%lookup_insert_Some; auto. Qed.

Lemma crashing_pair_before (Hk : (1 <= 2)%nat) : before_shutdown 2 Hk ∅ [] crashing_pair.
Proof.
  assert (Hnew : Mail.mq_wf 2 (mailbox_ (new_mailbox 4))) by (apply Mail.new_mail_queue_wf; vm_compute; reflexivity).
  split; try done.
  - split; try done; [constructor|constructor|by intros id ?%not_elem_of_nil| | |].
    + intros id l ph [[-> E]|[-> E]]%lookup_pair; simplify_eq/=;
        (split_and!; [done..|]; eexists; vm_compute; reflexivity).
    + vm_compute. lia.
    + split; [done| | |].
      * intros a Ha. simpl in Ha. apply elem_of_singleton in Ha as ->. right. exists 2. eexists _, _. vm_compute. reflexivity.
      * intros id l a what [[-> E]|[-> E]]%lookup_pair; simplify_eq/=. simpl; set_solver.
      * intros i j li lj a x y [[-> E]|[-> E]]%lookup_pair [[-> E']|[-> E']]%lookup_pair; by simplify_eq/=.
  - intros id md [[-> ->]|[-> ->]]%lookup_pair; exists (new_mailbox 4);
      (split; [reflexivity|]; split; [exact Hnew|vm_compute; discriminate]).
Qed.

Lemma crashing_shutdown_ends_loop_witness :
  exists own w, Manager.Shutdown (fun _ => false) (new_mailbox 4) two_children = Some (own, w) /\
    inevitable (net_step (fun _ => false) (fun _ => 0) (fun _ _ => None) map_to_list CrashCycle.gateway 4096)
      (fun s' => n_returned s' = true /\ childrens_ (n_manager s') = ∅ /\ n_coroutines s' = ∅ /\
         main_latch_ (n_manager s') = 0 /\ launched (n_manager s') = [] /\ n_objects s' = ∅)
      (mkNet own w new_bus {[ 500 ]} (n_coroutines crashing_pair) false).
Proof.
  apply (crashing_shutdown_ends_loop 2 ltac:(lia) (fun _ => false) (fun _ => 0) (fun _ _ => None) map_to_list
    CrashCycle.gateway 4096 ∅ [] crashing_pair).
  - done.
  - intros objects id. apply CrashCycle.CreateModule_spec.
  - apply crashing_pair_before.
Defined.

(** ** Reports and commands that go astray *)

(** C36. An exit report can be lost: when the manager's mailbox is full, the
    [Send] at the end of a child's coroutine drops the report. The child's
    coroutine is gone, the manager still counts it, and once it is stopping no
    reports of other children make the event loop return. *)
Theorem lost_report_blocks_shutdown (k : nat) (Hk : (1 <= k)%nat) (done : Z -> bool)
    (dlopen : string -> Z) (dlsym : Z -> string -> option Z)
    (iter : gmap Z ActorMetaData -> list (Z * ActorMetaData)) (code : module_code)
    (l : launch) (actor : Z) (c : child_world) (w : ActorManager) (ids : list Z) :
  Mail.mq_wf k (mailbox_ (cw_parent c)) ->
  length (Mail.waiting k (mailbox_ (cw_parent c))) = Z.to_nat (2 ^ Z.of_nat k) ->
  is_running_ w = false -> is_Some (childrens_ w !! l_actor l) -> l_actor l ∉ ids ->
  exists c', launch_finish done code l actor c = Some c' /\
    mailbox_ (cw_parent c') = mailbox_ (cw_parent c) /\ cw_heap c' = cw_heap c /\
    discarded_nr_ (cw_parent c') = add64 (discarded_nr_ (cw_parent c)) 1 /\
    true ∉ (run_exits dlopen dlsym iter ids w).1.
Proof.
  intros Hwf Hfull Hr Hch Hids. set (F := Mail.mail_queue_fifo k Hk).
  destruct (fresh_addr_spec (cw_heap c)) as [Hp Hpf]. unfold launch_finish, send_exited. simpl.
  set (p := fresh_addr (cw_heap c)) in *. set (m := new_message 1 kEventModuleExited (l_actor l)).
  destruct (send_dropped (F := F) done p [] (cw_parent c) (<[p := m]> (cw_heap c))) as (h & E & Erel & _).
  - exact Hwf.
  - unfold box_room, letters. simpl. lia.
  - intros q Hq. apply list_elem_of_singleton in Hq as ->. split; [lia|]. exists m.
    split; [apply lookup_insert_eq|]. simpl. rewrite Z.eqb_refl. lia.
  - rewrite E. simpl. eexists. split; [done|]. simpl. split; [done|]. split.
    + unfold event_message_release in Erel. rewrite (proj2 (Z.eqb_neq p 0)), lookup_insert_eq in Erel by lia.
      simpl in Erel. injection Erel as <-. by rewrite delete_insert_id.
    + split; [done|]. by apply (Supervision.unreported_child_blocks dlopen dlsym iter (l_actor l)).
Qed.

(** A mailbox of two slots, both taken. *)
Definition full_box : MailBox :=
  mkMailBox 0 0 0 true (Mail.mkMQ 2 0 [Mail.mkSlot 1 8; Mail.mkSlot 2 16] 2 1).

Lemma lost_report_blocks_shutdown_witness :
  exists c', launch_finish (fun _ => false) Supervision.gateway_code
      (mkLaunch 2 12 (mkLM "lib/liblog.so" 200 201 202)) 500
      (mkCW (new_mailbox 4) full_box ∅ new_bus ∅ []) = Some c' /\
    cw_heap c' = ∅ /\
    true ∉ (run_exits (fun _ => 0) (fun _ _ => None) map_to_list [1] (with_flags false false two_children)).1.
Proof.
  destruct (lost_report_blocks_shutdown 1 ltac:(lia) (fun _ => false) (fun _ => 0) (fun _ _ => None) map_to_list
    Supervision.gateway_code (mkLaunch 2 12 (mkLM "lib/liblog.so" 200 201 202)) 500
    (mkCW (new_mailbox 4) full_box ∅ new_bus ∅ []) (with_flags false false two_children) [1])
    as (c' & E & _ & Hh & _ & Hb).
  - split; simpl; try lia; [done|].
    intros i Hi. assert (i = 0 \/ i = 1) as [->| ->] by lia; reflexivity.
  - reflexivity.
  - reflexivity.
  - vm_compute. eexists. reflexivity.
  - rewrite list_elem_of_singleton. discriminate.
  - exists c'. split; [exact E|]. split; [exact Hh|exact Hb].
Defined.

(** One child, no library problems; "net" is to be reloaded, but its coroutine
    crashes before it has seen the stop message. *)
Definition any_handle (path : string) : Z := 64.
Definition any_symbol (handle : Z) (symbol : string) : option Z := Some (handle + 1).

Definition crash_during_reload : option ActorManager :=
  w1 ← handle_cmd_reload (fun _ => false) any_handle any_symbol map_to_list
         (Some (mkConfig "lib" [mkModule "net" "net"])) "net" one_child;
  w2 ← handle_event_crash (set_payload (new_message 1 kEventCrashReport 1) "boom!boom!boom!") w1;
  Some (handle_event_exit any_handle any_symbol map_to_list 1 w2).2.

(** A stop message can outlive the coroutine it was meant for: a module
    that crashes between the reload command and its receipt of the stop message
    is started again with the same mailbox, finds the old stop message first
    and leaves at once; nothing is pending for it any more, so its exit report
    removes the module that was to be reloaded. *)
Theorem stale_stop_ends_reloaded_module :
  exists w mb mb' h', crash_during_reload = Some w /\
    launched w = [mkLaunch 1 11 (mkLM "lib/libnet.so" 64 65 65)] /\
    child_boxes w !! 11 = Some mb /\
    receive_loop gateway_process_event 4096 1 mb (heap w) = Some (BReturn kExitSuccess, 0, mb', h') /\
    childrens_ (handle_event_exit any_handle any_symbol map_to_list 1 w).2 = ∅ /\ is_running_ w = true.
Proof.
  eexists _, _, _, _. split; [vm_compute; reflexivity|]. split; [reflexivity|].
  split; [vm_compute; reflexivity|]. split; [vm_compute; reflexivity|]. split; [vm_compute; reflexivity|reflexivity].
Qed.

End Shutdown.
