(* ===== verification/OneCoroutine.v ===== *)
(** * One coroutine per child (src/core/actor_manager.cc)

    The manager starts coroutines when it loads, reloads and restarts modules.
    This file follows, over all messages it can handle, which children have a
    coroutine: one that has been started and whose exit report the manager has
    not handled yet. *)

From Stdlib Require Import ZArith Lia.
From stdpp Require Import base list gmap strings relations.
From S2P Require Import Prelude EventMessage MailBox PluginManager ActorModule ActorManager Supervision.

Local Open Scope Z_scope.

Module OneCoroutine.
Import Manager Supervision.

(** [l] without one occurrence of [id]; [None]: there is none. *)
Fixpoint take_out (id : Z) (l : list Z) : option (list Z) :=
  match l with
  | [] => None
  | x :: l' => if decide (x = id) then Some l' else (x ::.) <$> take_out id l'
  end.

Lemma take_out_perm id l l' : take_out id l = Some l' -> l ≡ₚ id :: l'.
Proof.
  revert l'. induction l as [|x l IH]; intros l' E; simpl in E; [done|].
  destruct (decide (x = id)) as [->|]; [by simplify_eq|].
  apply fmap_Some in E as (l1 & E & ->). rewrite (IH l1 E). apply Permutation_swap.
Qed.

Section Coroutines.
Context (done : Z -> bool) (dlopen : string -> Z) (dlsym : Z -> string -> option Z).
Context (iter : gmap Z ActorMetaData -> list (Z * ActorMetaData)).

(** The manager, the children with a coroutine, whether the event loop has
    returned. *)
Record system := mkSystem { manager : ActorManager; live : list Z; returned : bool }.

(** The manager handles the message at [p]. An exit report is the last act of a
    coroutine: it must come from a child that has one. *)
Definition handle (cfg : option ac_config) (p : Z) (s : system) : option system :=
  let w := manager s in
  m ← heap w !! p;
  live0 ← match type_ m with
          | kEventModuleExited => take_out (sender_id_ m) (live s)
          | _ => Some (live s)
          end;
  '(b, w') ← dispatch done dlopen dlsym iter cfg p w;
  Some (mkSystem w' ((l_actor <$> drop (length (launched w)) (launched w')) ++ live0) b).

(** Module names are unique in a configuration, and the ids do not run out. *)
Definition config_ok (c : ac_config) (w : ActorManager) : Prop :=
  NoDup (PluginManager.module_name <$> modules c) /\ next_id w + Z.of_nat (length (modules c)) + 1 < 2 ^ 64.

#[global] Instance config_ok_dec c w : Decision (config_ok c w).
Proof. unfold config_ok. apply _. Defined.

(** The manager handles a message; somebody sends or receives messages; somebody
    calls [Shutdown]. *)
Inductive system_step : system -> system -> Prop :=
  | StepHandle cfg p s s' :
      returned s = false -> config_ok (config (manager s)) (manager s) ->
      (forall c, cfg = Some c -> config_ok c (manager s)) ->
      handle cfg p s = Some s' -> system_step s s'
  | StepMessages b h s :
      dom (child_boxes (manager s)) ⊆ dom b ->
      system_step s (mkSystem (with_messages b h (manager s)) (live s) (returned s))
  | StepStop s :
      system_step s (mkSystem (with_flags false (reload_all_flag_ (manager s)) (manager s)) (live s) (returned s)).

(** After [EventLoop] has loaded the modules. *)
Definition system_init (s : system) : Prop :=
  exists c, config_ok c (started c) /\
    let w := load_modules dlopen dlsym (started c) in
    s = mkSystem w (l_actor <$> launched w) false.

(** ** The invariant *)

Record coroutines (w : ActorManager) (l : list Z) : Prop := {
  cs_ok : children_ok w;
  cs_nodup : NoDup l;
  cs_child id : id ∈ l -> id ∈ dom (childrens_ w);
  (* while everything is being reloaded, only children to be reloaded run *)
  cs_all : reload_all_flag_ w = true -> pending_reload_ w = ∅ \/ forall id, id ∈ l -> id ∈ pending_reload_ w
}.

(** What the handling of a message comes to. *)
Definition handled (w : ActorManager) (l : list Z) (w' : ActorManager) : Prop :=
  exists ts, launched w' = launched w ++ ts /\ coroutines w' ((l_actor <$> ts) ++ l).

Context (iter_perm : forall m, iter m ≡ₚ map_to_list m).

#[global] Instance coroutines_proper w : Proper ((≡ₚ) ==> impl) (coroutines w).
Proof.
  intros l l' E [H1 H2 H3 H4]. split; [done|by rewrite <- E| |]; intros *; [rewrite <- E; apply H3|].
  intros Hf. destruct (H4 Hf) as [?|Hl]; [by left|right]. intros i. rewrite <- E. apply Hl.
Qed.

Lemma handled_same w l w' :
  coroutines w l -> children_ok w' -> childrens_ w' = childrens_ w -> reload_all_flag_ w' = reload_all_flag_ w ->
  pending_reload_ w' = pending_reload_ w -> launched w' = launched w -> handled w l w'.
Proof.
  intros [H1 H2 H3 H4] Hok Ec Ef Ep El. exists []. rewrite app_nil_r. split; [done|]. simpl.
  split; try done; [by rewrite Ec|by rewrite Ef, Ep].
Qed.

(** Coroutines for children that have none. *)
Lemma handled_starts w l w1 ts :
  coroutines w l -> children_ok (enqueue_tasks ts w1) -> launched w1 = launched w ->
  dom (childrens_ w) ⊆ dom (childrens_ w1) ->
  NoDup (l_actor <$> ts) -> (forall id, id ∈ l_actor <$> ts -> id ∈ dom (childrens_ w1) /\ id ∉ l) ->
  (reload_all_flag_ w1 = true -> pending_reload_ w1 = ∅) -> handled w l (enqueue_tasks ts w1).
Proof.
  intros [H1 H2 H3 H4] Hok El Hd Hn Hts Hall. exists ts. simpl. split; [by rewrite El|]. split; simpl.
  - done.
  - apply NoDup_app. split; [done|]. split; [|done]. intros id Hid. by apply Hts.
  - intros id [Hid|Hid]%elem_of_app; [by apply Hts|]. by apply Hd, H3.
  - intros Hf. left. by apply Hall.
Qed.

Lemma load_handled w l :
  coroutines w l -> next_id w + Z.of_nat (length (modules (config w))) < 2 ^ 64 -> pending_reload_ w = ∅ ->
  handled w l (load_modules dlopen dlsym w).
Proof.
  intros Hc Hn Hp. pose proof (load_modules_ok dlopen dlsym w (cs_ok _ _ Hc) Hn) as Hok. unfold load_modules in *.
  destruct (load_each _ _ _ w) as [ts w1] eqn:E.
  pose proof (load_each_ok _ _ _ _ _ _ (cs_ok _ _ Hc) Hn E) as (_ & _ & Hg).
  destruct (load_each_spec _ _ _ _ _ _ _ (cs_ok _ _ Hc) Hn eq_refl E) as (Hlen & _ & _ & El & Hdom & Hall).
  destruct Hg as (_ & _ & Hd & _ & _ & _ & Ep & _).
  assert (Hts : forall i id, (l_actor <$> ts) !! i = Some id -> id = next_id w + Z.of_nat i /\ id ∈ dom (childrens_ w1)).
  { intros i id Hi. apply list_lookup_fmap_Some in Hi as (t & -> & Hi).
    assert (is_Some (loadable dlopen dlsym (config w) (modules (config w)) !! i)) as [[m lm] Hm].
    { apply lookup_lt_is_Some. rewrite <- Hlen. by eapply lookup_lt_Some. }
    destruct (Hall i m lm Hm) as (a & Ht & Hch & _). rewrite Hi in Ht. injection Ht as ->. simpl. split; [done|].
    by apply elem_of_dom_2 in Hch. }
  apply (handled_starts w l); try done.
  - apply NoDup_alt. intros i j id Hi Hj. apply Hts in Hi as [-> _], Hj as [Hj _]. lia.
  - intros id [i Hi]%list_elem_of_lookup. apply Hts in Hi as [-> Hd1]. split; [done|]. intros Hl.
    apply (cs_child _ _ Hc) in Hl as [md Hmd]%elem_of_dom. destruct (co_child _ (cs_ok _ _ Hc) _ _ Hmd) as (_ & ? & _). lia.
  - by rewrite Ep.
Qed.

Lemma reload_handled id name w l :
  coroutines w l -> next_id w + 1 < 2 ^ 64 -> reload_all_flag_ w = false -> id ∉ l ->
  handled w l (reload_module dlopen dlsym id name w).
Proof.
  intros Hc Hn Hf Hid. pose proof (reload_module_ok dlopen dlsym id name w (cs_ok _ _ Hc) Hn) as Hok.
  assert (Hsame : handled w l w) by (apply handled_same; try done; apply Hc).
  unfold reload_module in *. destruct (find_module _ _) as [m|]; [|done].
  destruct (generate_creator _ _ _) as [lm|]; [|done]. destruct (id =? 0).
  - rewrite new_child_eq in Hok |- * by (done || apply Hc).
    apply (handled_starts w l); try done; simpl; [rewrite dom_insert_L; set_solver|apply NoDup_singleton| |congruence].
    intros i ->%list_elem_of_singleton. rewrite dom_insert_L. split; [set_solver|]. intros Hl.
    apply (cs_child _ _ Hc) in Hl as [md Hmd]%elem_of_dom. by rewrite (next_id_fresh w (cs_ok _ _ Hc)) in Hmd.
  - destruct (childrens_ w !! id) as [md|] eqn:Hmd; [|done].
    destruct (co_child _ (cs_ok _ _ Hc) _ _ Hmd) as (Eid & _).
    apply (handled_starts w l); try done; simpl; [rewrite dom_insert_L; set_solver|apply NoDup_singleton| |congruence].
    intros i ->%list_elem_of_singleton. rewrite Eid, dom_insert_L. split; [set_solver|done].
Qed.

Lemma loadable_names c ms :
  NoDup (PluginManager.module_name <$> ms) ->
  NoDup ((PluginManager.module_name ∘ fst) <$> loadable dlopen dlsym c ms).
Proof.
  intros Hnd. eapply sublist_NoDup; [exact Hnd|]. clear Hnd. induction ms as [|m ms IH]; [constructor|].
  cbn [loadable omap list_omap]. destruct (generate_creator _ _ _) as [lm|]; simpl; by constructor.
Qed.

(** When everything has stopped, each child gets at most one new coroutine. *)
Lemma reload_all_handled w :
  coroutines w [] -> next_id w + Z.of_nat (length (modules (config w))) < 2 ^ 64 ->
  NoDup (PluginManager.module_name <$> modules (config w)) -> pending_reload_ w = ∅ ->
  handled w [] (reload_all_modules dlopen dlsym iter w).
Proof.
  intros Hc Hn Hnd Hp. pose proof (reload_all_ok dlopen dlsym iter iter_perm w (cs_ok _ _ Hc) Hn) as Hok.
  unfold reload_all_modules in *. destruct (reload_each _ _ _ _ w) as [ts w1] eqn:E.
  pose proof (reload_each_ok _ _ iter iter_perm _ _ _ _ (cs_ok _ _ Hc) Hn E) as (_ & _ & Hg).
  destruct (reload_each_spec _ _ iter iter_perm _ _ _ _ _ (cs_ok _ _ Hc) Hn eq_refl Hnd E) as [Hall El].
  destruct Hg as (_ & _ & Hd & _ & _ & _ & Ep & _). apply Forall2_same_length_lookup in Hall as [Hlen Hall].
  assert (Hts : forall i id, (l_actor <$> ts) !! i = Some id -> exists m lm md,
    loadable dlopen dlsym (config w) (modules (config w)) !! i = Some (m, lm) /\
    childrens_ w1 !! id = Some md /\ module_name md = PluginManager.module_name m).
  { intros i id Hi. apply list_lookup_fmap_Some in Hi as (t & -> & Hi).
    assert (is_Some (loadable dlopen dlsym (config w) (modules (config w)) !! i)) as [[m lm] Hm].
    { apply lookup_lt_is_Some. rewrite Hlen. by eapply lookup_lt_Some. }
    destruct (Hall i _ _ Hm Hi) as (md & Hmd & Hnm & _). by exists m, lm, md. }
  apply (handled_starts w []); try done.
  - apply NoDup_alt. intros i j id (m & lm & md & Hi & Hmd & Hm)%Hts (m' & lm' & md' & Hj & Hmd' & Hm')%Hts.
    eapply NoDup_lookup; [exact (loadable_names (config w) _ Hnd)|..]; apply list_lookup_fmap_Some; [exists (m, lm)|exists (m', lm')]; (split; [|done]);
      [reflexivity|]. simpl. congruence.
  - intros id [i Hi]%list_elem_of_lookup. apply Hts in Hi as (m & lm & md & _ & Hmd & _). split; [by apply elem_of_dom_2 in Hmd|].
    apply not_elem_of_nil.
  - by rewrite Ep.
Qed.

(** The exit report of child [id]: its coroutine has ended. *)
Lemma exit_handled id w l b w' :
  coroutines w (id :: l) -> config_ok (config w) w ->
  handle_event_exit dlopen dlsym iter id w = (b, w') -> handled w l w' /\ (b = true -> childrens_ w' = ∅).
Proof.
  intros Hc [Hnd Hn] E. pose proof (cs_nodup _ _ Hc) as Hnl. apply NoDup_cons in Hnl as [Hid Hnl].
  set (w1 := with_pending (pending_reload_ w ∖ {[id]}) (pending_stop_ w ∖ {[id]}) (pending_restart_ w ∖ {[id]}) w).
  assert (Hall : reload_all_flag_ w = true -> pending_reload_ w1 = ∅ \/ forall i, i ∈ l -> i ∈ pending_reload_ w1).
  { intros Hf. destruct (cs_all _ _ Hc Hf) as [Hp|Hp]; [left; simpl; rewrite Hp; set_solver|right].
    intros i Hi. simpl. specialize (Hp i ltac:(by right)). set_solver. }
  assert (Hc1 : coroutines w1 l).
  { pose proof (cs_ok _ _ Hc) as Hok. split; try done; [apply children_ok_pending; try done; destruct Hok; set_solver|].
    intros i Hi. apply (cs_child _ _ Hc). by right. }
  pose proof (cs_ok _ _ Hc1) as Hok1. assert (Hsame : handled w l w1) by (exists []; by rewrite app_nil_r).
  unfold handle_event_exit in E. fold w1 in E. cbn [childrens_ is_running_ reload_all_flag_ w1 with_pending] in E.
  destruct (childrens_ w !! id) as [md|] eqn:Hmd; [|by simplify_eq]. destruct (is_running_ w && bool_decide (id ∈ pending_reload_ w)) eqn:E1.
  { apply andb_true_iff in E1 as [_ Hp%bool_decide_eq_true]. injection E as <- <-. split; [|done].
    destruct (reload_all_flag_ w) eqn:Ef; [|apply (reload_handled id _ w1 l Hc1); [simpl; lia|exact Ef|exact Hid]].
    destruct (decide _) as [Ep|]; [|done].
    assert (l = []) as ->.
    { destruct (cs_all _ _ Hc Ef) as [E0|Hl]; [set_solver|]. destruct l as [|i l]; [done|]. exfalso.
      specialize (Hl i ltac:(right; by left)). apply not_elem_of_cons in Hid as [Hne _].
      set_solver. }
    apply (reload_all_handled w1 Hc1); (done || (simpl; lia)). }
  destruct (is_running_ w && (bool_decide (id ∈ pending_restart_ w) && negb (bool_decide (id ∈ pending_stop_ w)))) eqn:E2.
  { injection E as <- <-. split; [|done]. unfold restart_module. destruct (creator md) as [lm|]; [|done].
    destruct (co_child _ (cs_ok _ _ Hc) _ _ Hmd) as (Eid & Hr & Hb & _).
    apply (handled_starts w1 l w1); try done; simpl; rewrite ?Eid.
    - apply children_ok_enqueue; [|done]. apply Forall_singleton. split; simpl; [lia|done].
    - apply NoDup_singleton.
    - intros i ->%list_elem_of_singleton. split; [by apply elem_of_dom_2 in Hmd|done].
    - intros Ef. apply andb_true_iff in E2 as [Hrun _]. rewrite Hrun in E1. simpl in E1. apply bool_decide_eq_false in E1.
      destruct (cs_all _ _ Hc Ef) as [->|Hl]; [set_solver|]. destruct E1. apply Hl. by left. }
  injection E as <- <-. split.
  - exists []. rewrite app_nil_r. split; [done|]. simpl. split; simpl; try done.
    + pose proof (cs_ok _ _ Hc) as Hok. apply (children_ok_delete id _ _ _ w); try done; destruct Hok; set_solver.
    + intros i Hi. rewrite dom_delete_L. assert (i <> id) by (intros ->; done).
      pose proof (cs_child _ _ Hc1 i Hi). simpl in *. set_solver.
  - by intros [_ Eb%bool_decide_eq_true]%andb_true_iff.
Qed.

(** The marks [__search_module_and_remove] leaves. *)
Lemma remove_loop_marks all name p cs w b w' :
  remove_loop done all name p cs w = Some (b, w') ->
  launched w' = launched w /\ reload_all_flag_ w' = reload_all_flag_ w /\ pending_reload_ w ⊆ pending_reload_ w' /\
  (all = true -> Forall (fun c => c.1 ∈ pending_reload_ w') cs /\ (cs = [] -> pending_reload_ w' = pending_reload_ w)).
Proof.
  revert w. induction cs as [|[id md] cs IH]; intros w E; simpl in E.
  { injection E as <- <-. by split_and!. }
  destruct (all || _) eqn:Ea.
  - destruct (send_child done md p w) as [w1|] eqn:Es; simpl in E; [|done].
    apply send_child_messages in Es as (bx & h & -> & _). destruct all.
    + apply IH in E as (El & Ef & Hp & Hall). simpl in *. destruct (Hall eq_refl) as [Hcs _].
      split_and!; try done; [set_solver|]. intros _. split; [|done]. apply Forall_cons. split; [simpl; set_solver|done].
    + injection E as <- <-. simpl. split_and!; try done. set_solver.
  - destruct all; [done|]. apply IH in E as (El & Ef & Hp & _). by split_and!.
Qed.

Lemma search_handled name w l found w' :
  coroutines w l -> next_id w + Z.of_nat (length (modules (config w))) < 2 ^ 64 ->
  search_module_and_remove done dlopen dlsym iter name w = Some (found, w') ->
  handled w l w' /\ (found = false -> reload_all_flag_ w' = false /\ launched w' = launched w /\
    next_id w' = next_id w).
Proof.
  intros Hc Hn E. destruct (search_ok dlopen dlsym iter iter_perm done name w found w' (cs_ok _ _ Hc) Hn E) as [Hok' Hid].
  unfold search_module_and_remove in E. set (all := bool_decide _) in E. simpl in E. set (w1 := with_messages _ _ _) in E.
  destruct (remove_loop _ _ _ _ _ w1) as [[ret w2]|] eqn:Er; simpl in E; [|done].
  assert (Hok1 : children_ok w1) by (apply children_ok_messages, children_ok_flags; [done|apply Hc]).
  pose proof (remove_loop_ok done _ _ _ _ _ _ _ ltac:(by apply children_in, iter_perm) Hok1 Er) as (Hok2 & Ech & Ecf & En).
  apply remove_loop_marks in Er as (El & Ef & Hp & Hall). cbn [w1 with_messages with_flags childrens_ config next_id
    launched reload_all_flag_ pending_reload_] in *.
  assert (Hc2 : coroutines w2 l).
  { split; try done; [apply Hc|by rewrite Ech; apply Hc|]. intros Ef2. rewrite Ef in Ef2. destruct (Hall Ef2) as [Hin _].
    right. intros id Hl. apply (cs_child _ _ Hc) in Hl as [md Hmd]%elem_of_dom.
    rewrite Forall_forall in Hin. apply (Hin (id, md)). rewrite iter_perm. by apply elem_of_map_to_list. }
  assert (Hh : handled w l w2) by (exists []; rewrite app_nil_r; done).
  destruct ret; [by injection E as <- <-|]. destruct all.
  - destruct (decide (pending_reload_ w2 = ∅)) as [Ep|]; [|by injection E as <- <-].
    destruct (release _ w2) as [w3|] eqn:Erl; simpl in E; [|done]. injection E as <- <-. split; [|done].
    apply release_messages in Erl as (bx & h & -> & Hdom).
    destruct (load_handled (with_messages bx h w2) l) as (ts & E1 & Hcs); simpl; [|by rewrite Ecf, En|done|].
    + destruct Hc2 as [H1 H2 H3 H4]. split; try done. by apply children_ok_messages.
    + exists ts. split; [|done]. rewrite E1. simpl. by rewrite El.
  - destruct (release _ w2) as [w3|] eqn:Erl; simpl in E; [|done]. injection E as <- <-.
    apply release_messages in Erl as (bx & h & -> & Hdom). split; [|done]. exists []. rewrite app_nil_r. split; [done|].
    destruct Hc2 as [H1 H2 H3 H4]. by split.
Qed.

(** A handler that only sends messages and marks children. *)
Lemma handled_messages w l w1 w' :
  handled w l w1 -> only_messages w1 w' -> handled w l w'.
Proof.
  intros (ts & El & [H1 H2 H3 H4]) Hm. exists ts. pose proof (only_messages_ok _ _ Hm H1).
  destruct Hm as (b & h & -> & _). by split.
Qed.

Lemma exit_loop_keeps p cs w w' :
  exit_loop done p cs w = Some w' ->
  launched w' = launched w /\ reload_all_flag_ w' = reload_all_flag_ w /\ pending_reload_ w' = pending_reload_ w.
Proof.
  revert w. induction cs as [|[id md] cs IH]; intros w E; simpl in E; [by injection E as <-|].
  destruct (send_child _ _ _ _) as [w1|] eqn:Es; simpl in E; [|done].
  apply send_child_messages in Es as (b & h & -> & _). apply IH in E as (-> & -> & ->). done.
Qed.

Lemma cmd_exit_handled w l b w' :
  coroutines w l -> handle_cmd_exit done iter w = Some (b, w') -> handled w l w' /\ (b = true -> childrens_ w' = ∅).
Proof.
  intros Hc E. pose proof (cs_ok _ _ Hc) as Hok. unfold handle_cmd_exit in E.
  destruct (decide (childrens_ w = ∅)) as [Ech|].
  { injection E as <- <-. split; [by apply handled_same|done]. }
  simpl in E. set (w1 := with_messages _ _ w) in E. destruct (exit_loop _ _ _ w1) as [w2|] eqn:El; simpl in E; [|done].
  injection E as <- <-. split; [|done].
  assert (Hok1 : children_ok w1) by (by apply children_ok_messages).
  pose proof (exit_loop_ok done _ _ _ _ ltac:(by apply children_in, iter_perm) Hok1 El) as (Hok2 & Ech & _).
  apply exit_loop_keeps in El as (E1 & E2 & E3). by apply handled_same.
Qed.

Lemma cmd_remove_handled name w l w' :
  coroutines w l -> handle_cmd_remove done iter name w = Some w' -> handled w l w'.
Proof.
  intros Hc E. pose proof (cs_ok _ _ Hc) as Hok. unfold handle_cmd_remove in E.
  destruct (find_child _ _) as [[id md]|] eqn:Ef; [|injection E as <-; by apply handled_same].
  apply (find_child_some iter iter_perm) in Ef as [Ef _]. apply elem_of_dom_2 in Ef. simpl in E.
  apply send_child_messages in E. eapply handled_messages; [|exact E]. apply handled_same; try done.
  apply children_ok_pending; try done; [..|by apply children_ok_messages]; destruct Hok; simpl; set_solver.
Qed.

Lemma cmd_reload_handled cfg name w l w' :
  coroutines w l -> (forall c, cfg = Some c -> config_ok c w) ->
  handle_cmd_reload done dlopen dlsym iter cfg name w = Some w' -> handled w l w'.
Proof.
  intros Hc Hcfg E. destruct cfg as [c|]; [|injection E as <-; apply handled_same; (done || apply Hc)].
  destruct (Hcfg c eq_refl) as [_ Hn]. unfold handle_cmd_reload in E.
  destruct (search_module_and_remove _ _ _ _ _ _) as [[found w1]|] eqn:Es; simpl in E; [|done]. injection E as <-.
  destruct (search_handled name (with_config c w) l found w1 ltac:(destruct Hc; split; by try apply children_ok_config) ltac:(simpl; lia) Es) as [Hh Hf].
  destruct found; [done|]. destruct (Hf eq_refl) as (Hfl & El & En). destruct Hh as (ts & El1 & Hc1).
  assert (ts = []) as -> by (apply (app_inv_head (launched w)); rewrite app_nil_r; simpl in *; congruence).
  destruct (reload_handled 0 name w1 l Hc1) as (us & Eu & Hcu); [by rewrite En; simpl; lia|done| |].
  - intros [md Hmd]%(cs_child _ _ Hc1)%elem_of_dom. destruct (co_child _ (cs_ok _ _ Hc1) _ _ Hmd) as (_ & ? & _). lia.
  - exists us. split; [|done]. by rewrite Eu, El.
Qed.

Lemma event_crash_handled m w l w' :
  coroutines w l -> handle_event_crash m w = Some w' -> handled w l w'.
Proof.
  intros Hc E. pose proof (cs_ok _ _ Hc) as Hok. unfold handle_event_crash in E.
  destruct (childrens_ w !! sender_id_ m) as [md|] eqn:Hmd; [|injection E as <-; by apply handled_same].
  apply elem_of_dom_2 in Hmd. destruct (payload_ m); simpl in E; [|done]. injection E as <-.
  destruct (_ && _); apply handled_same; try done. apply children_ok_pending; try done; destruct Hok; set_solver.
Qed.

(** Every message. *)
Lemma handle_coroutines cfg p s s' :
  coroutines (manager s) (live s) -> config_ok (config (manager s)) (manager s) ->
  (forall c, cfg = Some c -> config_ok c (manager s)) ->
  handle cfg p s = Some s' -> coroutines (manager s') (live s') /\ (returned s' = true -> live s' = []).
Proof.
  destruct s as [w l r]. simpl. intros Hc Hcf Hcfg E. unfold handle, dispatch in E. simpl in E.
  destruct (heap w !! p) as [m|]; simpl in E; [|done].
  destruct (match type_ m with kEventModuleExited => take_out (sender_id_ m) l | _ => Some l end) as [l0|] eqn:El; simpl in E; [|done].
  destruct (match type_ m with kEventCmdExit => handle_cmd_exit done iter w | _ => _ end) as [[b w1]|] eqn:E1; simpl in E; [|done].
  assert (Hsame : handled w l w) by (apply handled_same; (done || apply Hc)).
  assert (Hh : handled w l0 w1 /\ (b = true -> childrens_ w1 = ∅)).
  { destruct (type_ m); try (injection El as <-); try (injection E1 as <- <-; split; [exact Hsame|discriminate]).
    - by apply (cmd_exit_handled w l b w1).
    - destruct (payload_ m) as [name|]; simpl in E1; [|done]. destruct (handle_cmd_reload _ _ _ _ _ _ _) as [w2|] eqn:E2; simpl in E1; [|done].
      injection E1 as <- <-. split; [|done]. by eapply cmd_reload_handled.
    - destruct (payload_ m) as [name|]; simpl in E1; [|done]. destruct (handle_cmd_remove _ _ _ _) as [w2|] eqn:E2; simpl in E1; [|done].
      injection E1 as <- <-. split; [|done]. by eapply cmd_remove_handled.
    - injection E1 as E1. apply (exit_handled (sender_id_ m) w l0 b w1); try done.
      apply take_out_perm in El. by rewrite El in Hc.
    - destruct (handle_event_crash m w) as [w2|] eqn:E2; simpl in E1; [|done]. injection E1 as <- <-. split; [|done].
      by eapply event_crash_handled. }
  destruct (release _ _) as [w3|] eqn:Er; simpl in E; [|done]. injection E as <-. simpl.
  destruct Hh as [Hh Hb]. apply release_messages in Er.
  assert (Ech : childrens_ w3 = childrens_ w1) by (destruct Er as (? & ? & -> & _); by destruct b).
  assert (handled w l0 w3) as (ts & Ets & Hcs).
  { eapply handled_messages; [|exact Er]. destruct b; [|done]. destruct Hh as (ts & Ets & Hcs). exists ts. split; [done|].
    destruct Hcs. split; try done. by apply children_ok_count_down. }
  rewrite Ets, drop_app_length. split; [done|]. intros ->.
  apply elem_of_nil_inv. intros id Hid%(cs_child _ _ Hcs). rewrite Ech, Hb in Hid by done. set_solver.
Qed.

Lemma init_coroutines s :
  system_init s -> coroutines (manager s) (live s) /\ (returned s = true -> live s = []).
Proof.
  intros (c & [_ Hn] & ->). simpl. split; [|done].
  destruct (load_handled (started c) []) as (ts & E & Hc); [|simpl in *; lia|done|].
  - split; [apply started_ok|constructor|by intros ? ?%not_elem_of_nil|done].
  - rewrite E. by rewrite app_nil_r in Hc.
Qed.

Lemma step_coroutines s s' :
  system_step s s' -> coroutines (manager s) (live s) -> (returned s = true -> live s = []) ->
  coroutines (manager s') (live s') /\ (returned s' = true -> live s' = []).
Proof.
  intros [cfg p s1 s1' Hr Hcf Hcfg E|b h s1 Hb|s1] Hc Hret; simpl.
  - by eapply handle_coroutines.
  - split; [|done]. destruct Hc. split; try done. by apply children_ok_messages.
  - split; [|done]. destruct Hc. split; try done. by apply children_ok_flags.
Qed.

Lemma system_coroutines s0 s :
  system_init s0 -> rtc system_step s0 s -> coroutines (manager s) (live s) /\ (returned s = true -> live s = []).
Proof.
  intros Hi Hr. refine (rtc_ind_r (fun x => coroutines (manager x) (live x) /\ (returned x = true -> live x = [])) s0 _ _ s Hr);
    [by apply init_coroutines|]. intros s1 s2 _ Hs [H1 H2]. by eapply step_coroutines.
Qed.

End Coroutines.

(** C9. A child never has two coroutines. In every state the server reaches once
    the modules are loaded, whatever messages the manager handles and whoever
    sends them, the children with a coroutine (started, its exit report not
    handled yet) are pairwise different, are all in [childrens_], and no other
    child has the mailbox of one of them: a mailbox has one consumer. When the
    event loop returns there is no coroutine left. The module names of a
    configuration must be unique and the ids must not run out. *)
Theorem one_coroutine_per_child (done : Z -> bool) (dlopen : string -> Z) (dlsym : Z -> string -> option Z)
    (iter : gmap Z ActorMetaData -> list (Z * ActorMetaData)) (s0 s : system) :
  (forall m, iter m ≡ₚ map_to_list m) ->
  system_init dlopen dlsym s0 -> rtc (system_step done dlopen dlsym iter) s0 s ->
  NoDup (live s) /\ (returned s = true -> live s = []) /\
  forall id, id ∈ live s -> exists md, childrens_ (manager s) !! id = Some md /\ actor_id md = id /\
    forall j mj, childrens_ (manager s) !! j = Some mj -> mailbox mj = mailbox md -> j = id.
Proof.
  intros Hit Hi Hr. destruct (system_coroutines done dlopen dlsym iter Hit s0 s Hi Hr) as [Hc Hret].
  split; [apply Hc|]. split; [done|]. intros id [md Hmd]%(cs_child _ _ Hc)%elem_of_dom. exists md.
  destruct (co_child _ (cs_ok _ _ Hc) _ _ Hmd) as (Eid & _). split_and!; try done.
  intros j mj Hj E. by eapply (co_mailbox _ (cs_ok _ _ Hc)).
Qed.

(** Both modules of [two_modules] run and are asked to reload. *)
Definition before_reload : system := mkSystem (load_modules any_dlopen any_dlsym (started two_modules)) [1; 2] false.

Definition reload_message : gmap Z EventMessage := {[ 8 := set_payload (new_message 1 kEventCmdModuleReload 0) "all" ]}.

Definition exit_message (id : Z) : gmap Z EventMessage := {[ 9 := new_message 1 kEventModuleExited id ]}.

(** [h] is the message heap, and the manager handles the message at [p]. *)
Definition next (c : ac_config) (p : Z) (h : gmap Z EventMessage) (s : system) : system :=
  default s (handle (fun _ => false) any_dlopen any_dlsym map_to_list (Some c) p
    (mkSystem (with_messages (child_boxes (manager s)) h (manager s)) (live s) (returned s))).

Lemma next_step c p h s :
  is_Some (handle (fun _ => false) any_dlopen any_dlsym map_to_list (Some c) p
    (mkSystem (with_messages (child_boxes (manager s)) h (manager s)) (live s) (returned s))) ->
  returned s = false -> config_ok (config (manager s)) (manager s) -> config_ok c (manager s) ->
  rtc (system_step (fun _ => false) any_dlopen any_dlsym map_to_list) s (next c p h s).
Proof.
  intros [s' E] Hr Hc Hok.
  eapply rtc_l; [by apply (StepMessages _ _ _ _ (child_boxes (manager s)) h s)|]. apply rtc_once.
  unfold next. rewrite E. simpl. eapply StepHandle; [..|exact E]; simpl; [done|done|by intros c' [= <-]].
Qed.

Lemma one_coroutine_per_child_witness :
  exists s, rtc (system_step (fun _ => false) any_dlopen any_dlsym map_to_list) before_reload s /\
    live s = [1; 2] /\ length (launched (manager s)) = 4%nat /\ NoDup (live s).
Proof.
  set (s1 := next two_modules 8 reload_message before_reload). set (s2 := next two_modules 9 (exit_message 2) s1).
  set (s3 := next two_modules 9 (exit_message 1) s2). exists s3.
  assert (Hr : rtc (system_step (fun _ => false) any_dlopen any_dlsym map_to_list) before_reload s3).
  { transitivity s1; [|transitivity s2]; apply next_step; try (vm_compute; reflexivity); by apply (bool_decide_unpack _); vm_compute. }
  split; [exact Hr|]. split; [vm_compute; reflexivity|]. split; [vm_compute; reflexivity|].
  apply (one_coroutine_per_child (fun _ => false) any_dlopen any_dlsym map_to_list before_reload s3); [done| |exact Hr].
  exists two_modules. split; [|vm_compute; reflexivity].
  split; [|vm_compute; reflexivity]. apply (bool_decide_unpack _). vm_compute. done.
Defined.

(** ** Two requests that break the rule *)

(** [__reload_all_modules] looks for a child by module name and takes the first:
    with a name used twice it starts two coroutines for one child, on one
    mailbox, and none for the other. *)
Example same_name_two_coroutines :
  let c := mkConfig "lib" [mkModule "net" "net"; mkModule "net" "net2"] in
  let w := load_modules any_dlopen any_dlsym (started c) in
  let started_ids w := (fun t => (l_actor t, l_mailbox t)) <$> launched w in
  started_ids w = [(1, 1); (2, 2)] /\
  started_ids (reload_all_modules any_dlopen any_dlsym map_to_list w) = started_ids w ++ [(2, 2); (2, 2)].
Proof. vm_compute. split; reflexivity. Qed.

(** The exit command, a reload request for a module that is not loaded, and the
    exit report of the one module loaded, after a call of [Shutdown]. *)
Definition exit_handled_state : system :=
  let w := load_modules any_dlopen any_dlsym (started (mkConfig "lib" [mkModule "log" "log"])) in
  next two_modules 8 {[ 8 := new_message 1 kEventCmdExit 0 ]} (mkSystem (with_flags false false w) [1] false).

Definition late_reload_state : system :=
  next two_modules 8 {[ 8 := set_payload (new_message 1 kEventCmdModuleReload 0) "net" ]} exit_handled_state.

Definition others_left_state : system := next two_modules 9 (exit_message 1) late_reload_state.

(** [__handle_cmd_reload] does not test [is_running_]: it starts the module, and
    the new child never gets a stop message. When the other child has left, the
    event loop goes on and waits for the report of a child nobody stops. *)
Example late_reload_blocks_shutdown :
  pending_stop_ (manager exit_handled_state) = {[ 1 ]} /\ live late_reload_state = [2; 1] /\
  live others_left_state = [2] /\ returned others_left_state = false /\
  is_running_ (manager others_left_state) = false /\ pending_stop_ (manager others_left_state) = ∅ /\
  dom (childrens_ (manager others_left_state)) = {[ 2 ]} /\
  (md ← childrens_ (manager others_left_state) !! 2; box ← child_boxes (manager others_left_state) !! mailbox md;
   fst <$> try_receive box) = Some None.
Proof. split_and!; vm_compute; reflexivity. Qed.

End OneCoroutine.
