(* ===== verification/Blocked.v ===== *)
(** * A child without a coroutine (src/core/actor_manager.cc)

    [__reload_module] leaves the child in [childrens_] when the new library does
    not open, although its coroutine has ended. This file follows such a child
    over all messages the manager can handle once it is stopping, the exit
    command included, in the system of OneCoroutine.v. *)

From Stdlib Require Import ZArith Lia.
From stdpp Require Import base list gmap strings relations.
From S2P Require Import Prelude EventMessage MailBox EventBus PluginManager ActorModule ActorManager Supervision OneCoroutine.

Local Open Scope Z_scope.

Module Blocked.
Import Manager Supervision OneCoroutine.

Section Blocked.
Context (done : Z -> bool) (dlopen : string -> Z) (dlsym : Z -> string -> option Z).
Context (iter : gmap Z ActorMetaData -> list (Z * ActorMetaData)).
Context (iter_perm : forall m, iter m ≡ₚ map_to_list m).
Context (id : Z).

(** Child [id] stays, and gets no coroutine. *)
Definition kept (w w' : ActorManager) : Prop :=
  is_running_ w' = is_running_ w /\ id ∈ dom (childrens_ w') /\
  exists ts, launched w' = launched w ++ ts /\ id ∉ l_actor <$> ts.

Lemma kept_same w w' :
  id ∈ dom (childrens_ w) -> is_running_ w' = is_running_ w -> childrens_ w' = childrens_ w ->
  launched w' = launched w -> kept w w'.
Proof.
  intros Hid Hr Ec El. split; [done|]. split; [by rewrite Ec|]. exists []. rewrite app_nil_r. split; [done|].
  apply not_elem_of_nil.
Qed.

Lemma kept_messages w w1 w' : kept w w1 -> only_messages w1 w' -> kept w w'.
Proof. intros (Hr & Hd & Hl) (b & h & -> & _). done. Qed.

Lemma child_old w : children_ok w -> id ∈ dom (childrens_ w) -> 1 <= id < next_id w.
Proof. intros Hok [md Hmd]%elem_of_dom. by destruct (co_child _ Hok _ _ Hmd) as (_ & ? & _). Qed.

Lemma load_each_running ms w ts w' : load_each dlopen dlsym ms w = (ts, w') -> is_running_ w' = is_running_ w.
Proof.
  revert w ts w'. induction ms as [|m ms IH]; intros w ts w' E; cbn [load_each] in E; [by injection E as <- <-|].
  destruct (generate_creator _ _ _) as [lm|]; [|by eapply IH].
  destruct (new_child _ lm w) as [t w1] eqn:E1. destruct (load_each _ _ ms w1) as [ts2 w2] eqn:E2. injection E as <- <-.
  apply IH in E2. rewrite E2. unfold new_child in E1. destruct (generate_unique_id _). by injection E1 as _ <-.
Qed.

Lemma load_kept w :
  children_ok w -> next_id w + Z.of_nat (length (modules (config w))) < 2 ^ 64 -> id ∈ dom (childrens_ w) ->
  kept w (load_modules dlopen dlsym w).
Proof.
  intros Hok Hn Hid. pose proof (child_old w Hok Hid) as Hold. unfold load_modules. destruct (load_each _ _ _ w) as [ts w1] eqn:E.
  destruct (load_each_spec _ _ _ _ _ _ _ Hok Hn eq_refl E) as (Hlen & Hsub & _ & El & _ & Hall).
  split; [simpl; by eapply load_each_running|]. split; [simpl; by apply (subseteq_dom _ _ Hsub)|]. exists ts. simpl. split; [by rewrite El|].
  intros [i Hi]%list_elem_of_lookup. apply list_lookup_fmap_Some in Hi as (t & -> & Hi).
  assert (is_Some (loadable dlopen dlsym (config w) (modules (config w)) !! i)) as [[m lm] Hm].
  { apply lookup_lt_is_Some. rewrite <- Hlen. by eapply lookup_lt_Some. }
  destruct (Hall i m lm Hm) as (a & Ht & _). rewrite Hi in Ht. injection Ht as ->. simpl in *. lia.
Qed.

Lemma reload_new_kept name w :
  children_ok w -> next_id w + 1 < 2 ^ 64 -> id ∈ dom (childrens_ w) -> kept w (reload_module dlopen dlsym 0 name w).
Proof.
  intros Hok Hn Hid. pose proof (child_old w Hok Hid) as Hold. unfold reload_module.
  destruct (find_module _ _) as [m|]; [|by apply kept_same]. destruct (generate_creator _ _ _) as [lm|]; [|by apply kept_same].
  rewrite new_child_eq by done. split; [done|]. split; [simpl; rewrite dom_insert_L; set_solver|].
  eexists. split; [done|]. simpl. intros ->%list_elem_of_singleton. lia.
Qed.

Lemma remove_loop_kept all name p cs w b w' :
  id ∈ dom (childrens_ w) -> remove_loop done all name p cs w = Some (b, w') -> kept w w'.
Proof.
  intros Hid E. assert (is_running_ w' = is_running_ w /\ childrens_ w' = childrens_ w /\ launched w' = launched w) as (? & ? & ?).
  { clear Hid. revert w E. induction cs as [|[j md] cs IH]; intros w E; simpl in E; [by injection E as <- <-|].
    destruct (all || _); [|by apply IH]. destruct (send_child done md p w) as [w1|] eqn:Es; simpl in E; [|done].
    apply send_child_messages in Es as (bx & h & -> & _). destruct all; [by apply IH in E|by injection E as <- <-]. }
  by apply kept_same.
Qed.

Lemma search_kept name w b w' :
  children_ok w -> next_id w + Z.of_nat (length (modules (config w))) < 2 ^ 64 -> id ∈ dom (childrens_ w) ->
  search_module_and_remove done dlopen dlsym iter name w = Some (b, w') ->
  kept w w' /\ (b = false -> launched w' = launched w).
Proof.
  intros Hok Hn Hid E. unfold search_module_and_remove in E. set (all := bool_decide _) in E. simpl in E. set (w1 := with_messages _ _ _) in E.
  destruct (remove_loop _ _ _ _ _ w1) as [[ret w2]|] eqn:Er; simpl in E; [|done].
  assert (Hok1 : children_ok w1) by (apply children_ok_messages, children_ok_flags; done).
  pose proof (remove_loop_ok done _ _ _ _ _ _ _ ltac:(by apply children_in, iter_perm) Hok1 Er) as (Hok2 & Ech & Ecf & En).
  assert (El : launched w2 = launched w) by (by eapply remove_loop_marks in Er as (El & _)).
  assert (Hk : kept w w2) by (apply (remove_loop_kept _ _ _ _ w1) in Er; [|done]; exact Er).
  destruct ret; [by injection E as <- <-|]. destruct all.
  - destruct (decide (pending_reload_ w2 = ∅)) as [Ep|]; [|by injection E as <- <-].
    destruct (release _ w2) as [w3|] eqn:Erl; simpl in E; [|done]. injection E as <- <-. split; [|done].
    apply release_messages in Erl. pose proof (only_messages_ok _ _ Erl Hok2) as Hok3. destruct Erl as (bx & h & -> & _).
    destruct Hk as (Hr & Hd & _).
    destruct (load_kept (with_messages bx h w2) Hok3) as (Hr3 & Hd3 & ts & Hl3 & Hts); [simpl; by rewrite Ecf, En|done|].
    split; [by rewrite Hr3|]. split; [done|]. exists ts. split; [|done]. rewrite Hl3. simpl. by rewrite El.
  - destruct (release _ w2) as [w3|] eqn:Erl; simpl in E; [|done]. injection E as <- <-.
    apply release_messages in Erl. split; [by eapply kept_messages|]. destruct Erl as (bx & h & -> & _). by intros _.
Qed.

Lemma cmd_reload_kept cfg name w w' :
  children_ok w -> id ∈ dom (childrens_ w) -> (forall c, cfg = Some c -> config_ok c w) ->
  handle_cmd_reload done dlopen dlsym iter cfg name w = Some w' -> kept w w'.
Proof.
  intros Hok Hid Hcfg E. destruct cfg as [c|]; [|injection E as <-; by apply kept_same].
  destruct (Hcfg c eq_refl) as [_ Hn]. unfold handle_cmd_reload in E.
  destruct (search_module_and_remove _ _ _ _ _ _) as [[found w1]|] eqn:Es; simpl in E; [|done]. injection E as <-.
  pose proof (children_ok_config c w Hok) as Hokc.
  destruct (search_ok dlopen dlsym iter iter_perm done name _ found w1 Hokc ltac:(simpl; lia) Es) as [Hok1 Hn1].
  destruct (search_kept name _ found w1 Hokc ltac:(simpl; lia) Hid Es) as [Hk Hf].
  destruct found; [exact Hk|]. destruct Hk as (Hr & Hd & _).
  destruct (reload_new_kept name w1 Hok1) as (Hr1 & Hd1 & ts & Hl & Hts); [rewrite Hn1 by done; simpl; lia|done|].
  split; [by rewrite Hr1|]. split; [done|]. exists ts. split; [|done]. by rewrite Hl, Hf.
Qed.

Lemma cmd_exit_kept w b w' :
  children_ok w -> id ∈ dom (childrens_ w) -> handle_cmd_exit done iter w = Some (b, w') -> b = false /\ kept w w'.
Proof.
  intros Hok Hid E. unfold handle_cmd_exit in E. destruct (decide (childrens_ w = ∅)) as [Ee|]; [rewrite Ee in Hid; set_solver|].
  simpl in E. set (w1 := with_messages _ _ w) in E. destruct (exit_loop _ _ _ w1) as [w2|] eqn:El; simpl in E; [|done].
  injection E as <- <-. split; [done|]. rewrite exit_loop_send_all in El.
  destruct (send_all _ _ _ _ _) as [[[bx h] ?]|]; simpl in El; [|done]. injection El as <-. by apply kept_same.
Qed.

(** While the manager is stopping, nothing it handles but the exit report of
    [id] removes [id]. *)
Lemma event_exit_kept j w b w' :
  is_running_ w = false -> id ∈ dom (childrens_ w) -> j <> id ->
  handle_event_exit dlopen dlsym iter j w = (b, w') -> b = false /\ kept w w'.
Proof.
  intros Hr Hid Hj E. destruct (childrens_ w !! j) as [md|] eqn:Hmd.
  - rewrite (event_exit_stopping dlopen dlsym iter j md) in E by done.
    assert (Hin : id ∈ dom (delete j (childrens_ w))) by (rewrite dom_delete_L; set_solver).
    injection E as <- <-. split; [apply bool_decide_eq_false_2; intros E; rewrite E in Hin; set_solver|].
    split; [done|]. split; [done|]. exists []. rewrite app_nil_r. split; [done|apply not_elem_of_nil].
  - unfold handle_event_exit in E. simpl in E. rewrite Hmd in E. injection E as <- <-. split; [done|]. by apply kept_same.
Qed.

(** Child [id] has no coroutine, and the manager is stopping. *)
Definition blocked (s : system) : Prop :=
  coroutines (manager s) (live s) /\ is_running_ (manager s) = false /\ id ∈ dom (childrens_ (manager s)) /\
  (id ∉ live s) /\ returned s = false.

Lemma handle_blocked cfg p s s' :
  blocked s -> config_ok (config (manager s)) (manager s) -> (forall c, cfg = Some c -> config_ok c (manager s)) ->
  handle done dlopen dlsym iter cfg p s = Some s' -> blocked s'.
Proof.
  intros (Hc & Hr & Hid & Hl & _) Hcf Hcfg E.
  destruct (handle_coroutines done dlopen dlsym iter iter_perm cfg p s s' Hc Hcf Hcfg E) as [Hc' _].
  destruct s as [w l r]. simpl in *. pose proof (cs_ok _ _ Hc) as Hok. unfold handle, dispatch in E. simpl in E.
  destruct (heap w !! p) as [m|]; simpl in E; [|done].
  destruct (match type_ m with kEventModuleExited => take_out (sender_id_ m) l | _ => Some l end) as [l0|] eqn:El; simpl in E; [|done].
  destruct (match type_ m with kEventCmdExit => handle_cmd_exit done iter w | _ => _ end) as [[b w1]|] eqn:E1; simpl in E; [|done].
  assert (Hsame : kept w w) by (by apply kept_same).
  assert (Hkb : b = false /\ kept w w1 /\ id ∉ l0).
  { destruct (type_ m); try (injection El as <-); try (injection E1 as <- <-; done).
    - by destruct (cmd_exit_kept w b w1 Hok Hid E1).
    - destruct (payload_ m) as [name|]; simpl in E1; [|done]. destruct (handle_cmd_reload _ _ _ _ _ _ _) as [w2|] eqn:E2; simpl in E1; [|done].
      injection E1 as <- <-. split_and!; try done. by eapply cmd_reload_kept.
    - destruct (payload_ m) as [name|]; simpl in E1; [|done]. unfold handle_cmd_remove in E1.
      destruct (find_child _ _) as [[j md]|]; simpl in E1; [|injection E1 as <- <-; done].
      destruct (send_child _ _ _ _) as [w2|] eqn:E2; simpl in E1; [|done]. injection E1 as <- <-. split_and!; try done.
      apply send_child_messages in E2. eapply kept_messages; [|exact E2]. by apply kept_same.
    - apply take_out_perm in El. rewrite El in Hl. apply not_elem_of_cons in Hl as [Hne Hl0]. injection E1 as E1.
      destruct (event_exit_kept (sender_id_ m) w b w1 Hr Hid ltac:(congruence) E1). done.
    - destruct (handle_event_crash m w) as [w2|] eqn:E2; simpl in E1; [|done]. injection E1 as <- <-. split_and!; try done.
      unfold handle_event_crash in E2. destruct (childrens_ w !! sender_id_ m); [|by injection E2 as <-].
      destruct (payload_ m); simpl in E2; [|done]. injection E2 as <-. destruct (_ && _); by apply kept_same. }
  destruct Hkb as (-> & Hk & Hl0). destruct (release _ _) as [w3|] eqn:Er; simpl in E; [|done]. injection E as <-.
  apply release_messages in Er. destruct (kept_messages _ _ _ Hk Er) as (Hr3 & Hd3 & ts & Hts & Hin).
  split; [done|]. simpl in *. rewrite Hts, drop_app_length, not_elem_of_app in *. split_and!; try done. by rewrite Hr3.
Qed.

Lemma step_blocked s s' : blocked s -> system_step done dlopen dlsym iter s s' -> blocked s'.
Proof.
  intros Hb Hs. destruct Hs as [cfg p s1 s1' Hr Hcf Hcfg E|b h s1 Hd|s1]; [by eapply handle_blocked|..];
    destruct Hb as ([H1 H2 H3 H4] & Hr & Hid & Hl & Hret); (split; [split; try done|done]).
  - by apply children_ok_messages.
  - by apply children_ok_flags.
Qed.

(** The child's exit report, when its reload fails. *)
Lemma failed_reload w md :
  is_running_ w = true -> reload_all_flag_ w = false -> childrens_ w !! id = Some md -> id ∈ pending_reload_ w ->
  (forall m, find_module (module_name md) (modules (config w)) = Some m ->
     generate_creator dlopen dlsym (module_path (config w) m) = None) ->
  handle_event_exit dlopen dlsym iter id w =
    (false, with_pending (pending_reload_ w ∖ {[id]}) (pending_stop_ w ∖ {[id]}) (pending_restart_ w ∖ {[id]}) w).
Proof.
  intros Hr Ha Hc Hp Hg. unfold handle_event_exit. simpl. rewrite Hc, Hr, Ha.
  rewrite (bool_decide_eq_true_2 (id ∈ pending_reload_ w)) by done. simpl. unfold reload_module. simpl.
  destruct (find_module _ _) as [m|]; [|done]. by rewrite (Hg m eq_refl).
Qed.

End Blocked.

(** C38. A failed reload blocks the shutdown. The coroutine of child [id], which
    is being reloaded, has ended and the manager handles its exit report, but
    the new library does not open (or is no longer configured). Then the child
    stays in the table without a coroutine. When [Shutdown] is called after
    that, then whatever messages the manager handles (the exit command, reports,
    reload and remove requests) and whoever sends them, the event loop does not
    return and the child stays: nobody is left who would report its exit. The
    module names of a configuration must be unique and the ids must not run
    out, as in OneCoroutine.v. *)
Theorem failed_reload_blocks_shutdown (done : Z -> bool) (dlopen : string -> Z) (dlsym : Z -> string -> option Z)
    (iter : gmap Z ActorMetaData -> list (Z * ActorMetaData)) (cfg : option ac_config) (p : Z) (md : ActorMetaData)
    (m : EventMessage) (s0 s1 s s' : system) :
  (forall m, iter m ≡ₚ map_to_list m) ->
  system_init dlopen dlsym s0 -> rtc (system_step done dlopen dlsym iter) s0 s ->
  let w := manager s in
  let id := sender_id_ m in
  heap w !! p = Some m -> type_ m = kEventModuleExited ->
  is_running_ w = true -> reload_all_flag_ w = false -> childrens_ w !! id = Some md -> id ∈ pending_reload_ w ->
  (forall x, find_module (module_name md) (modules (config w)) = Some x ->
     generate_creator dlopen dlsym (module_path (config w) x) = None) ->
  config_ok (config w) w -> handle done dlopen dlsym iter cfg p s = Some s1 ->
  rtc (system_step done dlopen dlsym iter)
    (mkSystem (with_flags false (reload_all_flag_ (manager s1)) (manager s1)) (live s1) false) s' ->
  (id ∉ live s1) /\ (id ∉ live s') /\ id ∈ dom (childrens_ (manager s')) /\ returned s' = false.
Proof.
  intros Hit Hi Hr w id Hm Ht Hrun Ha Hmd Hp Hg Hcf E Hs.
  destruct (system_coroutines done dlopen dlsym iter Hit s0 s Hi Hr) as [Hc _].
  assert (Hb : blocked id (mkSystem (with_flags false (reload_all_flag_ (manager s1)) (manager s1)) (live s1) false)).
  { unfold handle, dispatch in E. simpl in E. fold w in E, Hc. rewrite Hm in E. simpl in E. rewrite Ht in E. fold id in E.
    destruct (take_out id (live s)) as [l0|] eqn:El; simpl in E; [|done].
    rewrite (failed_reload dlopen dlsym iter id w md) in E by done. simpl in E.
    destruct (release p _) as [w3|] eqn:Er; simpl in E; [|done]. injection E as <-. apply release_messages in Er as (b & h & -> & Hd).
    simpl. rewrite drop_all. simpl. apply take_out_perm in El. rewrite El in Hc. destruct Hc as [H1 H2 H3 H4].
    apply NoDup_cons in H2 as [Hn H2]. split; [|split; [done|split; [by apply elem_of_dom_2 in Hmd|done]]].
    split; simpl; try done; [|intros i Hin; apply H3; by right|congruence].
    apply children_ok_flags, children_ok_messages; [done|]. apply children_ok_pending; try done; destruct H1; set_solver. }
  assert (blocked id s') as (_ & _ & Hin & Hl & Hret).
  { clear -Hs Hb Hit. induction Hs as [|x y z Hxy _ IH]; [done|]. apply IH. by eapply step_blocked. }
  split; [by destruct Hb as (_ & _ & _ & ? & _)|]. done.
Qed.

(** Module "log" of [two_modules] is reloaded from a library that does not open;
    its coroutine has ended. *)
Definition broken : ac_config := mkConfig "lib" [mkModule "net" "net"; mkModule "log" "bad"].

Definition reload_asked : system :=
  next broken 8 {[ 8 := set_payload (new_message 1 kEventCmdModuleReload 0) "log" ]} before_reload.

Definition reload_ended : system :=
  mkSystem (with_messages (child_boxes (manager reload_asked)) (exit_message 2) (manager reload_asked)) (live reload_asked) false.

(** [Shutdown], the exit command, the exit report of the other module. *)
Definition shutdown_called : system :=
  let s := default reload_ended (handle (fun _ => false) any_dlopen any_dlsym map_to_list None 9 reload_ended) in
  mkSystem (with_flags false (reload_all_flag_ (manager s)) (manager s)) (live s) false.

Definition others_reported : system :=
  next broken 9 (exit_message 1) (next broken 8 {[ 8 := new_message 1 kEventCmdExit 0 ]} shutdown_called).

Lemma failed_reload_blocks_shutdown_witness :
  live others_reported = [] /\ 2 ∈ dom (childrens_ (manager others_reported)) /\ returned others_reported = false.
Proof.
  destruct (handle (fun _ => false) any_dlopen any_dlsym map_to_list None 9 reload_ended) as [s1|] eqn:E1; [|vm_compute in E1; discriminate].
  assert (Es : shutdown_called = mkSystem (with_flags false (reload_all_flag_ (manager s1)) (manager s1)) (live s1) false)
    by (unfold shutdown_called; rewrite E1; reflexivity).
  split; [vm_compute; reflexivity|].
  apply (failed_reload_blocks_shutdown (fun _ => false) any_dlopen any_dlsym map_to_list None 9
    (mkMD 2 2 "log" (Some (mkLM "lib/liblog.so" 64 65 65))) (new_message 1 kEventModuleExited 2) before_reload s1 reload_ended others_reported).
  - done.
  - exists two_modules. split; [apply (bool_decide_unpack _); vm_compute; exact I|vm_compute; reflexivity].
  - transitivity reload_asked.
    + apply next_step; [vm_compute; eexists; reflexivity|reflexivity|apply (bool_decide_unpack _); vm_compute; exact I..].
    + apply rtc_once, StepMessages. done.
  - vm_compute. reflexivity.
  - reflexivity.
  - vm_compute. reflexivity.
  - vm_compute. reflexivity.
  - vm_compute. reflexivity.
  - apply (bool_decide_unpack _). vm_compute. exact I.
  - intros x Hx. vm_compute in Hx. injection Hx as <-. vm_compute. reflexivity.
  - apply (bool_decide_unpack _). vm_compute. exact I.
  - exact E1.
  - rewrite <- Es. unfold others_reported. etransitivity; apply next_step;
      first [vm_compute; eexists; reflexivity|vm_compute; reflexivity|apply (bool_decide_unpack _); vm_compute; exact I].
Defined.

End Blocked.
