(* ===== verification/Process.v ===== *)
(** * The life of the process

    The objects with static storage duration: [manager] (src/core/main.cc), the
    scheduler, the plugin manager, the event bus and the logger, which are
    constructed when [Instance] is first called; and the handler [main]
    registers with [atexit]. At exit they go in the reverse order of their
    construction, while the worker threads are still there until the destructor
    of the scheduler has joined them. The files on the manager and on the
    scheduler say what the coroutines do; here it matters which of these objects
    they use, and when. *)

From Stdlib Require Import Lia.
From stdpp Require Import base list relations gmap.
From S2P Require Import Prelude.

Module Process.

Inductive static := SManager | SPidFile | SScheduler | SPlugins | SLogger | SBus.

#[global] Instance static_eq_dec : EqDecision static.
Proof. solve_decision. Defined.

(** What a worker thread does: search for a task, run the coroutine of a child
    before its exit report is sent, or after; run the manager's coroutine
    before the latch is counted down, or after; it has ended. *)
Inductive worker := WLoop | WChild | WReported | WManager | WReturned | WGone.

#[global] Instance worker_eq_dec : EqDecision worker.
Proof. solve_decision. Defined.

Inductive mgr_state := MgNone | MgReady | MgRunning | MgDone.

(** Where the main thread is in [main] and [EventLoop]. *)
Inductive mpc := MBegin | MLoop | MEnqueue | MLoad | MWait | MStop | MExit.

Record proc := mkProc {
  p_main : mpc;
  alive : list static;       (* constructed, the newest first *)
  dead : list static;        (* destroyed *)
  faults : list static;      (* destroyed objects that were used *)
  is_running_ : bool;        (* of the manager *)
  running_ : bool;           (* of the scheduler *)
  latch : bool;              (* [main_latch_] was counted down *)
  mgr : mgr_state;
  children : nat;            (* the size of [childrens_] *)
  resting : nat;             (* their coroutines, suspended or in the run queues *)
  reports : nat;             (* their exit reports in the manager's mailbox *)
  exit_posted : bool;        (* the exit command is there *)
  commands : nat;            (* reload commands there *)
  workers : gmap nat worker
}.

Definition set_main (m : mpc) (p : proc) : proc :=
  mkProc m (alive p) (dead p) (faults p) (is_running_ p) (running_ p) (latch p) (mgr p) (children p) (resting p)
    (reports p) (exit_posted p) (commands p) (workers p).

Definition set_statics (a d : list static) (p : proc) : proc :=
  mkProc (p_main p) a d (faults p) (is_running_ p) (running_ p) (latch p) (mgr p) (children p) (resting p)
    (reports p) (exit_posted p) (commands p) (workers p).

Definition add_fault (x : static) (p : proc) : proc :=
  mkProc (p_main p) (alive p) (dead p) (x :: faults p) (is_running_ p) (running_ p) (latch p) (mgr p) (children p) (resting p)
    (reports p) (exit_posted p) (commands p) (workers p).

Definition set_flags (r sr l : bool) (p : proc) : proc :=
  mkProc (p_main p) (alive p) (dead p) (faults p) r sr l (mgr p) (children p) (resting p)
    (reports p) (exit_posted p) (commands p) (workers p).

Definition set_mgr (m : mgr_state) (p : proc) : proc :=
  mkProc (p_main p) (alive p) (dead p) (faults p) (is_running_ p) (running_ p) (latch p) m (children p) (resting p)
    (reports p) (exit_posted p) (commands p) (workers p).

Definition set_children (c r rep : nat) (p : proc) : proc :=
  mkProc (p_main p) (alive p) (dead p) (faults p) (is_running_ p) (running_ p) (latch p) (mgr p) c r
    rep (exit_posted p) (commands p) (workers p).

Definition set_posted (e : bool) (c : nat) (p : proc) : proc :=
  mkProc (p_main p) (alive p) (dead p) (faults p) (is_running_ p) (running_ p) (latch p) (mgr p) (children p) (resting p)
    (reports p) e c (workers p).

Definition set_workers (ws : gmap nat worker) (p : proc) : proc :=
  mkProc (p_main p) (alive p) (dead p) (faults p) (is_running_ p) (running_ p) (latch p) (mgr p) (children p) (resting p)
    (reports p) (exit_posted p) (commands p) ws.

Definition move (w : nat) (x : worker) (p : proc) : proc := set_workers (<[w := x]> (workers p)) p.

(** A use of an object; one that does not exist yet is constructed ([static] in
    a function), a destroyed one is not constructed again. *)
Definition use (x : static) (p : proc) : proc :=
  if decide (x ∈ alive p) then p
  else if decide (x ∈ dead p) then add_fault x p
  else set_statics (x :: alive p) (dead p) p.

(** [Instance] of the four classes *)
Definition ActorScheduler_Instance : proc -> proc := use SScheduler.
Definition PluginManager_Instance : proc -> proc := use SPlugins.
Definition ActorEventBus_Instance : proc -> proc := use SBus.
Definition Logger_Instance : proc -> proc := use SLogger.

(** ** The main thread *)

Section Threads.
Context (thread_entries_ : nat).

Definition all_gone (p : proc) : bool := bool_decide (map_Forall (fun _ x => x = WGone) (workers p)).

(** [ActorManager::Shutdown]; the [Send] goes to the scheduler when the
    manager's coroutine may be asleep. *)
Definition Shutdown (p : proc) : proc :=
  let p1 := use SManager p in
  if is_running_ p1 then
    let p2 := set_posted true (commands p1) (set_flags false (running_ p1) (latch p1) p1) in
    match mgr p2 with MgReady => ActorScheduler_Instance p2 | _ => p2 end
  else p1.

(** The destructors: what remains to be done before the object [x] is gone;
    [l]: the objects older than it; [None]: it waits. *)
Definition gone (x : static) (l : list static) (p : proc) : proc := set_statics l (x :: dead p) p.

Definition ActorManager_destroy (l : list static) (p : proc) : option proc := Some (gone SManager l (Shutdown p)).

(** It joins the threads. *)
Definition ActorScheduler_destroy (l : list static) (p : proc) : option proc :=
  if all_gone p then Some (gone SScheduler l (set_flags (is_running_ p) false (latch p) p)) else None.

(** [quill::Backend::stop] *)
Definition Logger_destroy (l : list static) (p : proc) : option proc := Some (gone SLogger l p).

(** The newest object at exit: the objects above, the handler that deletes the
    pid file, and the two objects with a defaulted destructor. *)
Definition destroy (x : static) (l : list static) (p : proc) : option proc :=
  match x with
  | SManager => ActorManager_destroy l p
  | SScheduler => ActorScheduler_destroy l p
  | SLogger => Logger_destroy l p
  | SPidFile | SPlugins | SBus => Some (gone x l p)
  end.

(** [loaded]: [None] when no module is configured, else how many were loaded. *)
Definition main_act (loaded : option nat) (p : proc) : option proc :=
  match p_main p with
  | MBegin => Some (set_main MLoop (set_statics (SPidFile :: alive p) (dead p) p))
  | MLoop => Some (set_main MEnqueue (set_flags true (running_ p) (latch p) (use SManager p)))
  | MEnqueue =>
      let p1 := ActorScheduler_Instance p in
      Some (set_main MLoad (set_mgr MgReady (set_workers (list_to_map ((., WLoop) <$> seq 0 thread_entries_))
              (set_flags (is_running_ p1) true (latch p1) p1))))
  | MLoad =>
      let p1 := PluginManager_Instance p in
      Some (set_main MWait
        match loaded with
        | None => p1
        | Some m =>
            let p2 := Logger_Instance p1 in
            ActorScheduler_Instance (set_children (children p2 + m) (resting p2 + m) (reports p2) p2)
        end)
  | MWait => if latch p then Some (set_main MStop p) else None
  | MStop =>
      let p1 := ActorScheduler_Instance p in
      Some (set_main MExit (Logger_Instance (set_flags (is_running_ p1) false (latch p1) p1)))
  | MExit =>
      match alive p with
      | [] => None
      | x :: l => destroy x l p
      end
  end.

(** ** The worker threads *)

(** What becomes of a child that reported its exit: [n] coroutines are started
    for children in the table (one, or after the last report of a reload of
    everything one for every module configured that is found there) and [m] for
    new children; the child stays without a coroutine; it is removed; or it is
    not in the table. *)
Inductive fate := Restarted (n m : nat) | Kept | Removed | Unknown.

Inductive action :=
  | Search | TakeChild | TakeManager | Leave
  | Uses (x : static)
  | Suspend | Report | Finish
  | ExitReport (f : fate) | ExitCommand | ReloadCommand (n : nat).

(** Workers that run the coroutine of a child, of the manager. *)
Definition busy (p : proc) : nat := map_sum (fun x => if x is WChild then 1 else 0) (workers p).
Definition managing (p : proc) : nat := map_sum (fun x => if x is WManager then 1 else 0) (workers p).

(** The manager's coroutine counts the latch down and returns. *)
Definition finish_loop (w : nat) (p : proc) : proc :=
  move w WReturned (set_mgr MgDone (set_flags (is_running_ p) (running_ p) true p)).

(** The event loop of the manager, one message at a time. *)
Definition manager_act (a : action) (w : nat) (p : proc) : option proc :=
  match a with
  | ExitReport f =>
      match reports p, f with
      | O, _ => None
      | S r, Restarted n m =>
          if is_running_ p
          then Some (ActorScheduler_Instance (set_children (children p + m) (resting p + n + m) r p)) else None
      | S r, Kept => if is_running_ p then Some (set_children (children p) (resting p) r p) else None
      | S r, Removed =>
          match children p with
          | O => None
          | S c =>
              let p1 := Logger_Instance (set_children c (resting p) r p) in
              Some (if negb (is_running_ p1) && (children p1 =? 0) then finish_loop w p1 else p1)
          end
      | S r, Unknown => Some (Logger_Instance (set_children (children p) (resting p) r p))
      end
  | ExitCommand =>
      if exit_posted p then
        let p1 := set_posted false (commands p) p in
        Some (if children p1 =? 0 then finish_loop w p1 else ActorScheduler_Instance p1)
      else None
  | ReloadCommand n =>
      match commands p with
      | O => None
      | S c =>
          let p1 := Logger_Instance (PluginManager_Instance (set_posted (exit_posted p) c p)) in
          Some (ActorScheduler_Instance (set_children (children p1 + n) (resting p1 + n) (reports p1) p1))
      end
  | Suspend => Some (move w WLoop (set_mgr MgReady p))
  | _ => None
  end.

Definition worker_act (a : action) (w : nat) (p : proc) : option proc :=
  x ← workers p !! w;
  match x, a with
  | WLoop, Search => Some (ActorScheduler_Instance p)
  | WLoop, TakeChild =>
      match resting p with
      | O => None
      | S r => Some (move w WChild (Logger_Instance (set_children (children p) r (reports p) p)))
      end
  | WLoop, TakeManager =>
      match mgr p with MgReady => Some (move w WManager (Logger_Instance (set_mgr MgRunning p))) | _ => None end
  | WLoop, Leave => if running_ p then None else Some (move w WGone p)
  | (WChild | WManager), Uses SPidFile => None
  | (WChild | WManager), Uses x => Some (use x p)
  | WChild, Suspend => Some (move w WLoop (set_children (children p) (S (resting p)) (reports p) p))
  | WChild, Report => Some (move w WReported (set_children (children p) (resting p) (S (reports p)) (use SManager p)))
  | (WReported | WReturned), Uses ((SManager | SScheduler) as x) => Some (use x p)
  | (WReported | WReturned), Finish => Some (move w WLoop p)
  | WManager, a => manager_act a w p
  | _, _ => None
  end.

(** ** Signals *)

(** [sigal_handle] with a command to stop, or to reload a module. A command to
    remove one uses the same objects, less the plugin manager. *)
Inductive signal := SigStop | SigReload.

Definition handle_signal (sg : signal) (p : proc) : proc :=
  match sg with
  | SigStop => Shutdown p
  | SigReload => let p1 := use SManager (Logger_Instance p) in set_posted (exit_posted p1) (S (commands p1)) p1
  end.

Inductive choice := Main (loaded : option nat) | Work (a : action) (w : nat) | Signal (sg : signal).

(** [open]: where the main thread may be when a signal is handled. *)
Definition proc_act (open : mpc -> bool) (c : choice) (p : proc) : option proc :=
  match c with
  | Main loaded => main_act loaded p
  | Work a w => worker_act a w p
  | Signal sg => if open (p_main p) then Some (handle_signal sg p) else None
  end.

(** Coroutines are started only for children that have none: what
    OneCoroutine.v shows of the manager when the module names of a configuration
    are unique ([one_coroutine_per_child]), and only then
    ([same_name_two_coroutines]). *)
Definition one_each (c : choice) (p : proc) : Prop :=
  match c with
  | Work (ExitReport (Restarted n _)) _ => resting p + busy p + pred (reports p) + n <= children p
  | _ => True
  end.

(** [unique]: the module names are. *)
Definition proc_step (unique : bool) (open : mpc -> bool) (p p' : proc) : Prop :=
  exists c, (unique = true -> one_each c p) /\ proc_act open c p = Some p'.

End Threads.

(** [manager] is constructed before [main]. *)
Definition proc_start : proc :=
  mkProc MBegin [SManager] [] [] false false false MgNone 0 0 0 false 0 ∅.

Definition in_wait (m : mpc) : bool := match m with MWait => true | _ => false end.
Definition any_time (m : mpc) : bool := true.

(** ** What holds while the process runs *)

Definition base : list static := [SScheduler; SPidFile; SManager].

(** The scheduler exists, and what was constructed after it. *)
Definition started (a : list static) : Prop := exists l, a = l ++ base /\ Forall (fun x => x ∉ base) l.

Lemma started_elem a x : started a -> x ∈ base -> x ∈ a.
Proof. intros (l & -> & _) Hx. apply elem_of_app. by right. Qed.

Lemma started_cons a x : started a -> x ∉ a -> started (x :: a).
Proof.
  intros (l & -> & Hl) Hx. exists (x :: l). split; [done|]. apply Forall_cons. split; [|done].
  intros Hb. apply Hx, elem_of_app. by right.
Qed.

(** Before anything is destroyed a use changes nothing but what exists. *)
Lemma use_started x p :
  dead p = [] -> started (alive p) -> exists a, use x p = set_statics a [] p /\ started a.
Proof.
  intros Hd Ha. unfold use. rewrite Hd. destruct (decide (x ∈ alive p)) as [|Hx].
  - exists (alive p). split; [|done]. rewrite <- Hd. by destruct p.
  - rewrite decide_False by apply not_elem_of_nil. exists (x :: alive p). split; [done|]. by apply started_cons.
Qed.

Lemma use_alive x p : x ∈ alive p -> use x p = p.
Proof. intros Hx. unfold use. by rewrite decide_True. Qed.

Definition main_ok (p : proc) : Prop :=
  match p_main p with
  | MBegin | MLoop => alive p = (if p_main p is MBegin then [SManager] else [SPidFile; SManager]) /\
      workers p = ∅ /\ mgr p = MgNone /\ latch p = false /\ exit_posted p = false
  | MEnqueue => alive p = [SPidFile; SManager] /\ workers p = ∅ /\ mgr p = MgNone /\ latch p = false /\
      exit_posted p = false /\ is_running_ p = true
  | MLoad => started (alive p) /\ latch p = false /\ exit_posted p = false /\ is_running_ p = true
  | MWait => started (alive p)
  | MStop => started (alive p) /\ latch p = true
  | MExit => latch p = true /\ running_ p = false /\
      (started (alive p) \/ map_Forall (fun _ x => x = WGone) (workers p) /\
         (alive p = [SPidFile; SManager] \/ alive p = [SManager] \/ alive p = []))
  end.

Record proc_inv (p : proc) : Prop := {
  pi_fault : faults p = [];
  pi_dead : p_main p <> MExit -> dead p = [];
  pi_count : resting p + busy p + reports p <= children p;
  pi_mgr : managing p = (if mgr p is MgRunning then 1 else 0);
  pi_latch : latch p = true -> mgr p = MgDone /\ children p = 0 /\ is_running_ p = false;
  pi_exit : exit_posted p = true -> is_running_ p = false;
  pi_sched : (exists i x, workers p !! i = Some x /\ x <> WGone) -> SScheduler ∉ dead p;
  pi_main : main_ok p
}.

Section Exit.
Context (thread_entries_ : nat).
Implicit Types (p : proc) (a : action) (w : nat).

Lemma busy_move p w x y :
  workers p !! w = Some x ->
  busy (move w y p) + (if x is WChild then 1 else 0) = busy p + (if y is WChild then 1 else 0).
Proof. apply map_sum_update. Qed.

Lemma managing_move p w x y :
  workers p !! w = Some x ->
  managing (move w y p) + (if x is WManager then 1 else 0) = managing p + (if y is WManager then 1 else 0).
Proof. apply map_sum_update. Qed.

Lemma busy_worker p w : workers p !! w = Some WChild -> 1 <= busy p.
Proof. apply (map_sum_le (fun x => if x is WChild then 1 else 0)). Qed.

Lemma managing_worker p w : workers p !! w = Some WManager -> 1 <= managing p.
Proof. apply (map_sum_le (fun x => if x is WManager then 1 else 0)). Qed.

(** The process while it works: the main thread loads the modules or waits. *)
Definition phase p : Prop :=
  p_main p = MWait \/ p_main p = MLoad /\ latch p = false /\ exit_posted p = false /\ is_running_ p = true.

Lemma phase_inv p :
  phase p -> faults p = [] -> dead p = [] -> started (alive p) -> resting p + busy p + reports p <= children p ->
  managing p = (if mgr p is MgRunning then 1 else 0) ->
  (latch p = true -> mgr p = MgDone /\ children p = 0 /\ is_running_ p = false) ->
  (exit_posted p = true -> is_running_ p = false) -> proc_inv p.
Proof.
  intros Hp Hf Hd Ha Hc Hm Hl He. split; try done.
  - intros _. rewrite Hd. apply not_elem_of_nil.
  - unfold main_ok. by destruct Hp as [->|(-> & ?)].
Qed.

(** As long as the latch is up, a worker finds the process in such a phase. *)
Lemma inv_phase p w x :
  proc_inv p -> workers p !! w = Some x -> latch p = false -> phase p /\ dead p = [] /\ started (alive p).
Proof.
  intros Hi Hw Hl. pose proof (pi_main p Hi) as Hm. unfold main_ok in Hm.
  assert (He : workers p <> ∅) by (intros E; by rewrite E, lookup_empty in Hw).
  destruct (p_main p) eqn:E; try (by destruct Hm as (_ & Hw0 & _)); try (destruct Hm as [Hm Hm']; congruence).
  - destruct Hm as [? ?]. split; [by right|]. split; [|done]. apply (pi_dead p Hi). congruence.
  - split; [by left|]. split; [|done]. apply (pi_dead p Hi). congruence.
Qed.

(** Once it is down, no coroutine is left. *)
Lemma inv_latched p w x :
  proc_inv p -> workers p !! w = Some x -> latch p = true ->
  x <> WChild /\ x <> WManager /\ resting p = 0 /\ mgr p = MgDone /\ (x <> WGone -> started (alive p)).
Proof.
  intros Hi Hw Hl. destruct (pi_latch p Hi Hl) as (Hm & Hc & _). pose proof (pi_count p Hi) as Hcount.
  pose proof (pi_mgr p Hi) as Hmgr. rewrite Hm in Hmgr. pose proof (pi_main p Hi) as Hmain. unfold main_ok in Hmain.
  split_and!; [intros ->; apply busy_worker in Hw; lia|intros ->; apply managing_worker in Hw; lia|lia|done|].
  intros Hx. destruct (p_main p) eqn:E; try (by destruct Hmain as (_ & Hw0 & _); rewrite Hw0 in Hw); try tauto.
  destruct Hmain as (_ & _ & [?|[Hg _]]); [done|]. by destruct Hx, (Hg w x Hw).
Qed.

Ltac use_static :=
  match goal with
  | |- context [use ?x ?q] =>
      let a := fresh "a" in let Ha := fresh "Ha" in let E := fresh "E" in
      destruct (use_started x q) as (a & E & Ha); [simpl; done..|]; rewrite E; clear E; simpl
  end.

Lemma latched_step p a w p' :
  proc_inv p -> latch p = true -> worker_act a w p = Some p' -> proc_inv p'.
Proof.
  intros Hi Hl Ha. unfold worker_act in Ha. destruct (workers p !! w) as [x|] eqn:Hw; [|done]. simpl in Ha.
  destruct (inv_latched p w x Hi Hw Hl) as (Hx1 & Hx2 & Hr & Hm & Hs).
  assert (Hmove : forall y, y <> WChild -> y <> WManager -> (x <> WGone) -> proc_inv (move w y p)).
  { intros y Hy1 Hy2 Hg. pose proof (busy_move p w x y Hw) as Hb. pose proof (managing_move p w x y Hw) as Hmg.
    pose proof (Hs Hg) as Hst. destruct Hi as [H1 H2 H3 H4 H5 He H6 H7].
    assert (busy (move w y p) = busy p) as Eb by (destruct x, y; simpl in Hb; try done; lia).
    assert (managing (move w y p) = managing p) as Em by (destruct x, y; simpl in Hmg; try done; lia).
    split; try done; [simpl; rewrite Eb; done|rewrite Em; done| |].
    - intros _. apply H6. by exists w, x.
    - unfold main_ok in *. simpl. destruct (p_main p); try tauto.
      1-3: destruct H7 as (_ & _ & _ & Hl0 & _); congruence. }
  unfold ActorScheduler_Instance in Ha. destruct x, a; try done; try (destruct x; try done); rewrite ?Hr, ?Hm in Ha; try done;
    try (injection Ha as <-; rewrite use_alive; [done|]; apply started_elem; [by apply Hs|unfold base; set_solver]);
    try (injection Ha as <-; by apply Hmove).
  destruct (running_ p); [done|]. injection Ha as <-. by apply Hmove.
Qed.

(** The event loop ends with no child left. *)
Lemma finish_inv p q w :
  proc_inv p -> workers p !! w = Some WManager -> phase p -> is_running_ p = false ->
  q = set_statics (alive q) [] (set_children 0 (resting p) (reports q) (set_posted (exit_posted q) (commands p) p)) ->
  started (alive q) -> resting p + busy p + reports q = 0 -> proc_inv (finish_loop w q).
Proof.
  intros Hi Hw Hph Hrun -> Hst Hz. pose proof (pi_mgr p Hi) as Hm. pose proof (managing_worker p w Hw) as Hmw.
  pose proof (busy_move p w WManager WReturned Hw) as Hb. pose proof (managing_move p w WManager WReturned Hw) as Hmg.
  unfold busy, managing in *. simpl in *. apply phase_inv; unfold busy, managing; simpl; try done; [|apply Hi|lia|].
  - destruct Hph as [?|(_ & _ & _ & ?)]; [by left|congruence].
  - destruct (mgr p); lia.
Qed.

(** The manager handles a message. *)
Lemma manager_step p a w p' :
  proc_inv p -> workers p !! w = Some WManager -> latch p = false -> one_each (Work a w) p -> manager_act a w p = Some p' ->
  proc_inv p'.
Proof.
  intros Hi Hw Hl Hone Ha. destruct (inv_phase p w _ Hi Hw Hl) as (Hph & Hd & Hst).
  pose proof (pi_count p Hi) as Hc. pose proof (pi_mgr p Hi) as Hm. pose proof (pi_fault p Hi) as Hf.
  assert (Hkeep : forall q, q = set_statics (alive q) [] (set_children (children q) (resting q) (reports q)
      (set_posted (exit_posted p) (commands q) p)) ->
    started (alive q) -> resting q + busy p + reports q <= children q -> proc_inv q).
  { intros q -> Hq Hle. simpl in *. apply phase_inv; try done; simpl; [congruence|apply Hi]. }
  unfold manager_act, Logger_Instance, ActorScheduler_Instance, PluginManager_Instance in Ha. destruct a; try done.
  - injection Ha as <-. pose proof (busy_move p w _ WLoop Hw) as Hb. pose proof (managing_move p w _ WLoop Hw) as Hmg.
    pose proof (managing_worker p w Hw). unfold busy, managing in *. simpl in *.
    apply phase_inv; unfold busy, managing; simpl; try done; [lia| |congruence|apply Hi]. destruct (mgr p); lia.
  - destruct (reports p) as [|r] eqn:Er; [done|]. destruct f as [n m| | |].
    + destruct (is_running_ p); [|done]. injection Ha as <-. simpl in Hone. rewrite Er in Hone. simpl in Hone.
      use_static. by apply Hkeep; simpl; [..|lia].
    + destruct (is_running_ p); [|done]. injection Ha as <-. apply Hkeep; simpl; try done; [|lia]. by rewrite <- Hd; destruct p.
    + destruct (children p) as [|c] eqn:Ec; [done|].
      destruct (use_started SLogger (set_children c (resting p) r p)) as (l & E1 & Hs); [done..|]. rewrite E1 in Ha.
      cbn [is_running_ children set_statics set_children] in Ha. destruct (negb _ && _) eqn:E; injection Ha as <-.
      * apply andb_true_iff in E as [Er1%negb_true_iff E2%Nat.eqb_eq]. rewrite E2.
        apply (finish_inv p); simpl; try done; lia.
      * apply Hkeep; simpl; try done; lia.
    + injection Ha as <-. use_static. by apply Hkeep; simpl; [..|lia].
  - destruct (exit_posted p) eqn:Ep; [|done]. destruct Hph as [Hph|(_ & _ & ? & _)]; [|congruence]. cbn [children set_posted] in Ha.
    destruct (Nat.eqb_spec (children p) 0) as [E|E]; injection Ha as <-.
    + apply (finish_inv p); simpl; try done; [by left|by apply (pi_exit p Hi)|by rewrite <- Hd, <- E; destruct p|lia].
    + use_static. apply phase_inv; simpl; try done; [by left|congruence].
  - destruct (commands p) as [|c] eqn:Ec; [done|]. injection Ha as <-. do 3 use_static.
    by apply Hkeep; simpl; [..|lia].
Qed.

(** A worker that stays a worker of the same phase. *)
Lemma moved_inv p q w x y :
  proc_inv p -> workers p !! w = Some x -> latch p = false ->
  q = set_statics (alive q) [] (set_mgr (mgr q) (set_children (children p) (resting q) (reports q) p)) ->
  started (alive q) -> resting q + (if y is WChild then 1 else 0) + reports q =
    resting p + (if x is WChild then 1 else 0) + reports p ->
  (if x is WManager then 1 else 0) + (if mgr q is MgRunning then 1 else 0) =
    (if y is WManager then 1 else 0) + (if mgr p is MgRunning then 1 else 0) ->
  proc_inv (move w y q).
Proof.
  intros Hi Hw Hl -> Hst Hr Hm. destruct (inv_phase p w _ Hi Hw Hl) as (Hph & Hd & _).
  pose proof (busy_move p w x y Hw) as Hb. pose proof (managing_move p w x y Hw) as Hmg.
  pose proof (pi_count p Hi) as Hc. pose proof (pi_mgr p Hi) as Hmi. unfold busy, managing in *. simpl in *.
  apply phase_inv; unfold busy, managing; simpl; try done; try apply Hi; [lia|lia|congruence].
Qed.

Lemma use_inv p w z x :
  proc_inv p -> workers p !! w = Some z -> latch p = false -> proc_inv (use x p).
Proof.
  intros Hi Hw Hl. destruct (inv_phase p w _ Hi Hw Hl) as (Hph & Hd & Hst). use_static.
  apply phase_inv; simpl; try done; apply Hi.
Qed.

Lemma working_step p a w p' :
  proc_inv p -> latch p = false -> one_each (Work a w) p -> worker_act a w p = Some p' -> proc_inv p'.
Proof.
  intros Hi Hl Hone Ha. unfold worker_act in Ha. destruct (workers p !! w) as [x|] eqn:Hw; [|done]. simpl in Ha.
  destruct (inv_phase p w _ Hi Hw Hl) as (Hph & Hd & Hst).
  assert (Hself : p = set_statics (alive p) [] (set_mgr (mgr p) (set_children (children p) (resting p) (reports p) p)))
    by (rewrite <- Hd; by destruct p).
  destruct x, a as [| | | |z| | | |f| |n]; try done;
    try (by eapply manager_step); try (destruct z; try done; injection Ha as <-; by eapply use_inv).
  - injection Ha as <-. by eapply use_inv.
  - destruct (resting p) as [|r] eqn:Er; [done|]. injection Ha as <-. unfold Logger_Instance. use_static.
    eapply (moved_inv p _ w _ WChild Hi Hw Hl); simpl; try done. lia.
  - destruct (mgr p) eqn:Em; try done. injection Ha as <-. unfold Logger_Instance. use_static.
    eapply (moved_inv p _ w _ WManager Hi Hw Hl); simpl; try done. by rewrite Em.
  - destruct (running_ p); [done|]. injection Ha as <-. by eapply (moved_inv p p w _ WGone Hi Hw Hl).
  - injection Ha as <-. eapply (moved_inv p _ w _ WLoop Hi Hw Hl); simpl; try done; [by rewrite <- Hd; destruct p|lia].
  - injection Ha as <-. use_static. eapply (moved_inv p _ w _ WReported Hi Hw Hl); simpl; try done. lia.
  - injection Ha as <-. by eapply (moved_inv p p w _ WLoop Hi Hw Hl).
  - injection Ha as <-. by eapply (moved_inv p p w _ WLoop Hi Hw Hl).
Qed.

(** The worker threads as they are created. *)
Lemma new_workers (f : worker -> nat) n :
  f WLoop = 0 -> map_sum f (list_to_map ((., WLoop) <$> seq 0 n) : gmap nat worker) = 0.
Proof.
  intros Hf. destruct (map_sum f _) eqn:E; [done|]. destruct (map_sum_pos f (list_to_map ((., WLoop) <$> seq 0 n)))
    as (i & x & Hi & Hx); [lia|]. apply elem_of_list_to_map_2, list_elem_of_fmap in Hi as (j & [= -> ->] & _). lia.
Qed.

(** A destructor that has come to its end. *)
Lemma destroy_step p x l p' :
  proc_inv p -> p_main p = MExit -> alive p = x :: l -> destroy x l p = Some p' -> proc_inv p'.
Proof.
  intros Hi Em Ea Hd. pose proof (pi_main p Hi) as Hm. unfold main_ok in Hm. rewrite Em in Hm. destruct Hm as (Hl & Hsr & Hm).
  destruct (pi_latch p Hi Hl) as (_ & _ & Hrun).
  assert (Hgone : (x = SScheduler -> map_Forall (fun _ y => y = WGone) (workers p)) ->
    (started l \/ map_Forall (fun _ y => y = WGone) (workers p) /\
       (l = [SPidFile; SManager] \/ l = [SManager] \/ l = [])) ->
    proc_inv (set_statics l (x :: dead p) (set_flags (is_running_ p) false (latch p) p))).
  { intros Hx Hq. destruct Hi as [H1 H2 H3 H4 H5 He H6 H7]. split; simpl; try done.
    - intros (i & y & Hy & Hne). apply not_elem_of_cons. split; [|apply H6; by exists i, y].
      intros <-. by destruct Hne, (Hx eq_refl i y).
    - unfold main_ok. simpl. by rewrite Em. }
  assert (Hsh : x = SManager -> Shutdown p = p).
  { intros ->. unfold Shutdown. rewrite use_alive by (rewrite Ea; by left). by rewrite Hrun. }
  assert (Hsame : p = set_flags (is_running_ p) (running_ p) (latch p) p) by by destruct p.
  rewrite Hsr in Hsame. unfold destroy, ActorManager_destroy, ActorScheduler_destroy, Logger_destroy, gone in Hd. destruct Hm as [([|y l'] & El & Hl')|[Hg Hm]].
  - rewrite El in Ea. injection Ea as <- <-. destruct (all_gone p) eqn:Eg; [|done].
    injection Hd as <-. apply bool_decide_eq_true in Eg. apply Hgone; [done|]. right. split; [done|by left].
  - rewrite El in Ea. injection Ea as <- <-. apply Forall_cons in Hl' as [Hy Hl'].
    assert (Hst : started (l' ++ base)) by by exists l'.
    destruct y; try (by destruct Hy; unfold base; set_solver); injection Hd as <-; rewrite Hsame; apply Hgone; auto; done.
  - destruct Hm as [Hm|[Hm|Hm]]; rewrite Hm in Ea; try done; injection Ea as <- <-; [|rewrite Hsh in Hd by done];
      injection Hd as <-; rewrite Hsame; apply Hgone; auto.
Qed.

Lemma main_step p m p' : proc_inv p -> main_act thread_entries_ m p = Some p' -> proc_inv p'.
Proof.
  intros Hi Ha. pose proof (pi_main p Hi) as Hm. pose proof (pi_dead p Hi) as Hd. unfold main_ok in Hm. unfold main_act in Ha.
  unfold ActorScheduler_Instance, PluginManager_Instance, Logger_Instance in Ha.
  destruct (p_main p) eqn:Em; try (specialize (Hd ltac:(done))).
  - injection Ha as <-. destruct Hm as (Ea & ?). destruct Hi. split; try done. unfold main_ok. simpl. by rewrite Ea.
  - destruct Hm as (Ea & Hw & Hg & Hl & He). rewrite use_alive in Ha by (rewrite Ea; set_solver). injection Ha as <-.
    destruct Hi. split; simpl; try done; [congruence|congruence].
  - destruct Hm as (Ea & Hw & _ & Hl & He & Hr). injection Ha as <-.
    assert (use SScheduler p = set_statics (SScheduler :: alive p) [] p) as ->.
    { unfold use. rewrite Ea, Hd, !decide_False; [done|apply not_elem_of_nil|set_solver]. }
    pose proof (pi_count p Hi) as Hc. unfold busy in Hc. rewrite Hw, map_sum_empty in Hc.
    apply (phase_inv (set_main MLoad _)); unfold busy, managing; simpl; rewrite ?new_workers by done; try done; try apply Hi.
    + by right.
    + rewrite Ea. by exists [].
    + congruence.
  - destruct Hm as (Hst & Hl & He & Hr). injection Ha as <-. pose proof (pi_count p Hi) as Hc. unfold busy in Hc. use_static.
    destruct m as [n|]; [do 2 use_static|];
      (apply phase_inv; unfold busy, managing; simpl; try done; try apply Hi; [by left|try lia..]; congruence).
  - destruct (latch p) eqn:El; [|done]. injection Ha as <-. destruct Hi. split; try done; by rewrite <- El.
  - destruct Hm as [Hst Hl]. injection Ha as <-. do 2 use_static. destruct Hi as [H1 H2 H3 H4 H5 He H6 H7].
    split; try done; simpl; [intros _; apply not_elem_of_nil|]. unfold main_ok. simpl. split; [done|]. split; [done|by left].
  - destruct (alive p) as [|x l] eqn:Ea; [done|]. by eapply destroy_step.
Qed.

Lemma signal_step p sg : proc_inv p -> p_main p = MWait -> proc_inv (handle_signal sg p).
Proof.
  intros Hi Em. pose proof (pi_main p Hi) as Hst. unfold main_ok in Hst. rewrite Em in Hst.
  assert (Hd : dead p = []) by (apply (pi_dead p Hi); congruence).
  destruct sg; simpl.
  - unfold Shutdown. rewrite use_alive by (apply started_elem; [done|unfold base; set_solver]).
    destruct (is_running_ p) eqn:Er; [|done].
    assert (Hq : proc_inv (set_posted true (commands p) (set_flags false (running_ p) (latch p) p))).
    { apply phase_inv; simpl; try done; try apply Hi; [by left|]. intros Hl. by destruct (pi_latch p Hi Hl) as (? & ? & ?). }
    simpl. destruct (mgr p); try done. unfold ActorScheduler_Instance. rewrite use_alive; [done|].
    apply started_elem; [done|unfold base; set_solver].
  - unfold Logger_Instance. do 2 use_static. apply phase_inv; simpl; try done; try apply Hi. by left.
Qed.

Local Abbreviation steps := (rtc (proc_step thread_entries_ true in_wait)).

Lemma steps_inv p p' : proc_inv p -> steps p p' -> proc_inv p'.
Proof.
  intros Hi Hs. induction Hs as [|p p1 p' [c [Hone Hc]] _ IH]; [done|]. specialize (Hone eq_refl). apply IH. destruct c as [m|a w|sg]; simpl in Hc.
  - by eapply main_step.
  - destruct (latch p) eqn:El; [by eapply latched_step|by eapply working_step].
  - unfold in_wait in Hc. destruct (p_main p) eqn:Em; try done. injection Hc as <-. by apply signal_step.
Qed.

Lemma proc_reachable_inv p :
  reachable (fun p => p = proc_start) (proc_step thread_entries_ true in_wait) p -> proc_inv p.
Proof.
  intros (p0 & -> & Hs). eapply steps_inv; [|exact Hs].
  split; simpl; try done. intros (i & x & Hx & _). by rewrite lookup_empty in Hx.
Qed.

(** ** The process comes to its end *)

Lemma main_takes p p' :
  main_act thread_entries_ None p = Some p' -> proc_step thread_entries_ true in_wait p p'.
Proof. intros E. by exists (Main None). Qed.

Definition togo (x : worker) : nat := match x with WGone => 0 | WLoop => 1 | _ => 2 end.

(** The worker threads leave. *)
Lemma workers_leave p :
  proc_inv p -> p_main p = MExit ->
  exists ws, steps p (set_workers ws p) /\ map_Forall (fun _ x => x = WGone) ws.
Proof.
  remember (map_sum togo (workers p)) as n eqn:En. revert p En.
  induction (lt_wf n) as [n _ IH]. intros p -> Hi Em.
  pose proof (pi_main p Hi) as Hm. unfold main_ok in Hm. rewrite Em in Hm. destruct Hm as (Hl & Hsr & _).
  destruct (decide (map_sum togo (workers p) = 0)) as [Ez|Hnz].
  { exists (workers p). split; [destruct p; apply rtc_refl|]. intros w x Hx.
    pose proof (map_sum_le togo _ _ _ Hx). destruct x; simpl in *; lia || done. }
  destruct (map_sum_pos togo (workers p)) as (w & x & Hw & Hx); [lia|].
  destruct (inv_latched p w x Hi Hw Hl) as (H1 & H2 & _).
  assert (exists y a, togo y < togo x /\ one_each (Work a w) p /\ worker_act a w p = Some (move w y p)) as (y & a & Hy & Ho & Ha).
  { unfold worker_act. rewrite Hw. simpl.
    destruct x; try done; simpl in Hx; try lia; [exists WGone, Leave; rewrite Hsr|exists WLoop, Finish..]; simpl; (split; [lia|by split]). }
  assert (Hs : proc_step thread_entries_ true in_wait p (move w y p)) by (by exists (Work a w)).
  pose proof (map_sum_update togo (workers p) w x y Hw) as Hu.
  destruct (IH (map_sum togo (workers (move w y p)))) with (p := move w y p) as (ws & Hss & Hg); try done.
  - simpl. lia.
  - eapply steps_inv; [done|]. by apply rtc_once.
  - exists ws. split; [|done]. eapply rtc_l; [exact Hs|]. exact Hss.
Qed.

(** The objects are destroyed. *)
Lemma statics_go p :
  proc_inv p -> p_main p = MExit -> map_Forall (fun _ x => x = WGone) (workers p) ->
  exists p', steps p p' /\ p_main p' = MExit /\ alive p' = [] /\ workers p' = workers p.
Proof.
  remember (length (alive p)) as n eqn:En. revert p En. induction n as [|n IH]; intros p En Hi Em Hg.
  { exists p. split_and!; [apply rtc_refl|done|by destruct (alive p)|done]. }
  destruct (alive p) as [|x l] eqn:Ea; [done|]. injection En as En.
  pose proof (pi_main p Hi) as Hm. unfold main_ok in Hm. rewrite Em in Hm. destruct Hm as (Hl & _ & _).
  assert (exists p1, destroy x l p = Some p1 /\ alive p1 = l /\ p_main p1 = MExit /\ workers p1 = workers p)
    as (p1 & E & Ea1 & Em1 & Ew).
  { destruct x; simpl; try (eexists; split; [done|]; done).
    - eexists. split; [done|]. simpl. unfold Shutdown. rewrite use_alive by (rewrite Ea; by left).
      destruct (pi_latch p Hi Hl) as (_ & _ & ->). done.
    - unfold ActorScheduler_destroy, all_gone. rewrite bool_decide_eq_true_2 by done. eexists. split; [done|]. done. }
  assert (Hs : proc_step thread_entries_ true in_wait p p1) by (apply main_takes; unfold main_act; by rewrite Em, Ea).
  destruct (IH p1) as (p' & Hss & ? & ? & Ew'); try done; [congruence|eapply steps_inv; [done|by apply rtc_once]|by rewrite Ew|].
  exists p'. split_and!; try done; [by eapply rtc_l|congruence].
Qed.

Lemma exit_ends p :
  proc_inv p -> latch p = true ->
  exists p', steps p p' /\ p_main p' = MExit /\ alive p' = [] /\ map_Forall (fun _ x => x = WGone) (workers p').
Proof.
  intros Hi Hl.
  assert (exists p1, steps p p1 /\ p_main p1 = MExit) as (p1 & Hs1 & Em).
  { pose proof (pi_main p Hi) as Hm. unfold main_ok in Hm. destruct (p_main p) eqn:Em.
    1-4: destruct_and?; congruence.
    - eexists. split; [eapply rtc_l; [|apply rtc_once]|].
      + apply main_takes. unfold main_act. by rewrite Em, Hl.
      + by apply main_takes.
      + done.
    - eexists. split; [apply rtc_once, main_takes; unfold main_act; by rewrite Em|done].
    - exists p. split; [apply rtc_refl|done]. }
  pose proof (steps_inv _ _ Hi Hs1) as Hi1. destruct (workers_leave p1 Hi1 Em) as (ws & Hs2 & Hg).
  pose proof (steps_inv _ _ Hi1 Hs2) as Hi2. destruct (statics_go _ Hi2) as (p' & Hs3 & ? & ? & Ew); [done..|].
  exists p'. split_and!; try done; [etrans; [done|]; by etrans|by rewrite Ew].
Qed.

End Exit.

(** C13. The end of the process, when the module names of a configuration are
    unique and signals are handled while the main thread waits. In every
    interleaving of the main thread, the worker threads, the coroutines of the
    manager and of its children and the signal handler, no object with static
    storage duration is used after its destructor, although the logger, the
    event bus and the plugin manager are destroyed while worker threads run;
    the scheduler is destroyed only when every worker thread has ended; when the
    destructors run, no coroutine is left. And once the event loop has returned,
    the process can come to its end: every object is destroyed. *)
Theorem process_exit_safe (thread_entries_ : nat) (p : proc) :
  reachable (fun p => p = proc_start) (proc_step thread_entries_ true in_wait) p ->
  faults p = [] /\
  (SScheduler ∈ dead p -> map_Forall (fun _ x => x = WGone) (workers p)) /\
  (p_main p = MExit -> resting p = 0 /\ busy p = 0 /\ managing p = 0) /\
  (latch p = true -> exists p', rtc (proc_step thread_entries_ true in_wait) p p' /\ p_main p' = MExit /\ alive p' = []).
Proof.
  intros Hr. pose proof (proc_reachable_inv thread_entries_ p Hr) as Hi. split_and!.
  - apply Hi.
  - intros Hd w x Hw. destruct (decide (x = WGone)) as [|Hx]; [done|]. exfalso. apply (pi_sched p Hi); [|done]. by exists w, x.
  - intros Em. pose proof (pi_main p Hi) as Hm. unfold main_ok in Hm. rewrite Em in Hm. destruct Hm as (Hl & _).
    destruct (pi_latch p Hi Hl) as (Hg & Hc & _). pose proof (pi_count p Hi). pose proof (pi_mgr p Hi) as Hmg.
    rewrite Hg in Hmg. lia.
  - intros Hl. destruct (exit_ends thread_entries_ p Hi Hl) as (p' & ? & ? & ? & _). by exists p'.
Qed.

#[local] Instance one_each_dec c p : Decision (one_each c p).
Proof. destruct c as [|[] |]; simpl; try apply _. destruct f; apply _. Defined.

(** A schedule with two workers; with [unique] it stops at a choice that gives a
    child a second coroutine. *)
Definition scheduled (unique : bool) (open : mpc -> bool) (c : choice) (p : proc) : option proc :=
  if decide (unique = true -> one_each c p) then proc_act 2 open c p else None.

Lemma scheduled_reachable unique open cs p :
  run_schedule (scheduled unique open) cs proc_start = Some p ->
  reachable (fun p => p = proc_start) (proc_step 2 unique open) p.
Proof.
  apply (run_schedule_reachable _ (proc_step 2 unique open) (scheduled unique open)); [|by apply reachable_init].
  intros c x y. unfold scheduled. destruct (decide _); [|done]. intros Hc. by exists c.
Qed.

(** One module; it is restarted, stopped, reports, and the process exits. *)
Definition one_session : list choice :=
  [Main None; Main None; Main None; Main (Some 1); Work TakeManager 0; Work Suspend 0;
   Work TakeChild 1; Work (Uses SBus) 1; Work Report 1; Work TakeManager 0; Work (ExitReport (Restarted 1 0)) 0;
   Work Finish 1; Work TakeChild 1; Signal SigStop; Work ExitCommand 0;
   Work Report 1; Work (ExitReport Removed) 0; Main None; Main None; Main None; Main None].

Lemma process_exit_safe_witness :
  exists p, run_schedule (scheduled true in_wait) one_session proc_start = Some p /\
    p_main p = MExit /\ workers p !! 1 = Some WReported /\ dead p = [SLogger; SBus] /\ faults p = [].
Proof.
  destruct (run_schedule (scheduled true in_wait) one_session proc_start) as [p|] eqn:E.
  - exists p. split; [reflexivity|].
    assert (p_main p = MExit /\ workers p !! 1 = Some WReported /\ dead p = [SLogger; SBus]) as (H1 & H2 & H3).
    { vm_compute in E. injection E as <-. vm_compute. split; [reflexivity|]. split; reflexivity. }
    split; [exact H1|]. split; [exact H2|]. split; [exact H3|].
    apply (process_exit_safe 2 p). exact (scheduled_reachable _ _ _ _ E).
  - vm_compute in E. discriminate.
Defined.

(** A stop that arrives while the modules are being loaded: the event loop finds
    no children and returns; the modules are loaded and started all the same.
    The module publishes and logs before and after the destructors. *)
Definition early_stop : list choice :=
  [Main None; Main None; Main None; Signal SigStop; Work TakeManager 0; Work ExitCommand 0;
   Main (Some 1); Work TakeChild 1; Work (Uses SBus) 1; Main None; Main None; Main None; Main None; Main None;
   Work (Uses SLogger) 1; Work (Uses SBus) 1].

(** A command that arrives at the end: the logger is gone. *)
Definition late_reload : list choice :=
  take 19 one_session ++ [Main None; Main None; Signal SigReload].

(** One module runs; the configuration is changed to name it twice and everything
    is reloaded. The module is stopped, one of its two coroutines reports, and
    the other one runs on. *)
Definition named_twice : list choice :=
  [Main None; Main None; Main None; Main (Some 1); Work TakeManager 0; Work TakeChild 1; Signal SigReload;
   Work (ReloadCommand 0) 0; Work Report 1; Work (ExitReport (Restarted 2 0)) 0; Work Finish 1; Work TakeChild 1;
   Signal SigStop; Work ExitCommand 0; Work Report 1; Work (ExitReport Removed) 0; Work Finish 1; Work TakeChild 1;
   Main None; Main None; Main None; Work (Uses SLogger) 1].

(** C39. Each of the two conditions is needed. A stop command handled while the
    main thread is still loading the modules ends the event loop before the
    modules are in the table; they are started nevertheless, and such a module
    uses the logger and the event bus after their destructors. A reload command
    handled after the event loop has returned uses the logger after its
    destructor. And with signals at their time but a module named twice in the
    configuration, the event loop returns while a coroutine of that module
    runs, which then uses the logger after its destructor. *)
Theorem signals_outlive_objects :
  (exists p, reachable (fun p => p = proc_start) (proc_step 2 true any_time) p /\
     SLogger ∈ faults p /\ SBus ∈ faults p /\ latch p = true /\ children p = 1 /\ workers p !! 1 = Some WChild) /\
  (exists p, reachable (fun p => p = proc_start) (proc_step 2 true any_time) p /\
     SLogger ∈ faults p /\ latch p = true /\ children p = 0 /\ p_main p = MExit) /\
  (exists p, reachable (fun p => p = proc_start) (proc_step 2 false in_wait) p /\
     SLogger ∈ faults p /\ latch p = true /\ children p = 0 /\ workers p !! 1 = Some WChild).
Proof.
  split_and!; eexists.
  - split; [apply (scheduled_reachable _ _ early_stop); vm_compute; reflexivity|].
    split_and!; try done; apply (bool_decide_unpack _); by vm_compute.
  - split; [apply (scheduled_reachable _ _ late_reload); vm_compute; reflexivity|].
    split_and!; try done; apply (bool_decide_unpack _); by vm_compute.
  - split; [apply (scheduled_reachable _ _ named_twice); vm_compute; reflexivity|].
    split_and!; try done; apply (bool_decide_unpack _); by vm_compute.
Qed.

End Process.
