(* ===== verification/CommandLine.v ===== *)
(** * The command line and the signal handler (src/core/main.cc)

    The client process ([acnet -s command]) leaves a command in the control
    file and sends SIGHUP to the process named in the pid file; the server's
    handler turns the file into a request to the manager. Both are programs
    over the files, what they print, the signals they send and their exit
    handlers; a program may end in [std::exit]. What [getopt_long] returns is a
    parameter, and so is the outcome of the system calls. *)

From Stdlib Require Import ZArith Lia.
From Stdlib Require Import Ascii.
From stdpp Require Import base list gmap strings pretty.
From S2P Require Import Prelude Fifo MailQueue EventMessage MailBox PluginManager ActorModule ActorManager.

Local Open Scope Z_scope.

(** ** Processes *)

Inductive node := Directory | Regular (content : string) | Special.

#[global] Instance node_eq_dec : EqDecision node.
Proof. solve_decision. Defined.

Inductive line := Out (text : string) | Err (text : string).

Record process := mkProcess {
  files : gmap string node;
  signalled : list Z;         (* processes sent SIGHUP *)
  printed : list line;
  exit_handler : bool;        (* the handler of [std::atexit] is registered *)
  hup_handler : bool          (* [sigal_handle] is the handler of SIGHUP *)
}.

Definition set_files (f : gmap string node) (p : process) : process :=
  mkProcess f (signalled p) (printed p) (exit_handler p) (hup_handler p).

(** A program returns a value or calls [std::exit]. *)
Inductive ending (A : Type) := Returned (a : A) | Exited (code : Z).
Arguments Returned {A} a.
Arguments Exited {A} code.

Definition prog (A : Type) : Type := process -> ending A * process.

#[global] Instance prog_ret : MRet prog := fun A a p => (Returned a, p).

#[global] Instance prog_bind : MBind prog := fun A B k m p =>
  match m p with
  | (Returned a, p') => k a p'
  | (Exited c, p') => (Exited c, p')
  end.

Definition exit {A} (code : Z) : prog A := fun p => (Exited code, p).

Definition print (l : line) : prog unit := fun p =>
  (Returned (), mkProcess (files p) (signalled p) (printed p ++ [l]) (exit_handler p) (hup_handler p)).

Definition kill (pid : Z) : prog unit := fun p =>
  (Returned (), mkProcess (files p) (signalled p ++ [pid]) (printed p) (exit_handler p) (hup_handler p)).

Definition atexit : prog unit := fun p =>
  (Returned (), mkProcess (files p) (signalled p) (printed p) true (hup_handler p)).

Definition sigaction : prog unit := fun p =>
  (Returned (), mkProcess (files p) (signalled p) (printed p) (exit_handler p) true).

Definition stat (path : string) : prog (option node) := fun p => (Returned (files p !! path), p).

Definition write_node (path : string) (n : node) : prog unit := fun p =>
  (Returned (), set_files (<[path := n]> (files p)) p).

Definition remove_node (path : string) : prog unit := fun p =>
  (Returned (), set_files (delete path (files p)) p).

(** Whether system calls succeed, by path, and the text of their errors, by
    the name of the call. *)
Record system := mkSystem {
  mkdir_ok : string -> bool;
  fopen_w : string -> bool;
  fopen_r : string -> bool;
  read_ok : string -> bool;
  unlink_ok : string -> bool;
  strerror : string -> string
}.

Definition kControlFile : string := "logs/acnet.control".
Definition kPidFile : string := "logs/acnet.pid".

Section Calls.
Context (os : system).

Definition report (what call : string) : prog unit :=
  print (Err (what +:+ "() failed, error: " +:+ strerror os call)%string).

Definition mkdir_if_not_exists (dir : string) : prog bool :=
  s ← stat dir;
  match s with
  | Some Directory => mret true
  | Some _ => mret false
  | None =>
      if mkdir_ok os dir then _ ← write_node dir Directory; mret true
      else _ ← report "mkdir" "mkdir"; mret false
  end.

Definition delete_if_exists (filepath : string) : prog unit :=
  s ← stat filepath;
  match s with
  | None => report "stat" "stat"
  | Some (Regular _) =>
      if unlink_ok os filepath then remove_node filepath else report "unlink" "unlink"
  | Some _ => print (Err "not regular file.")
  end.

(** [fopen(path, "w")], which truncates; then [fprintf] of the whole text. *)
Definition fopen_write (path : string) : prog bool :=
  if fopen_w os path then _ ← write_node path (Regular EmptyString); mret true else mret false.

Definition fprintf (path text : string) : prog unit := write_node path (Regular text).

(** [fopen(path, "r")]: the content. *)
Definition fopen_read (path : string) : prog (option string) :=
  s ← stat path;
  mret (match s with
        | Some (Regular content) => if fopen_r os path then Some content else None
        | _ => None
        end).

End Calls.

(** The exit handlers run when [main] returns and in [std::exit]. *)
Definition run_process (os : system) (m : prog Z) (p : process) : Z * process :=
  let '(e, p1) := m p in
  let code := match e with Returned c => c | Exited c => c end in
  (code, if exit_handler p1 then (delete_if_exists os kPidFile p1).2 else p1).

(** ** The C library functions used *)

Definition newline : ascii := "010"%char.

(** [fgets]: at most [n] characters, up to and including a newline; [None] for
    NULL, at the end of the file. *)
Fixpoint get_line (n : nat) (s : string) : string :=
  match n, s with
  | S n', String c s' => if decide (c = newline) then String c EmptyString else String c (get_line n' s')
  | _, _ => EmptyString
  end.

Definition fgets (size : nat) (s : string) : option string :=
  match s with EmptyString => None | _ => Some (get_line (size - 1) s) end.

(** [strchr] and the split at the character found. *)
Fixpoint split_at (c : ascii) (s : string) : option (string * string) :=
  match s with
  | EmptyString => None
  | String d s' =>
      if decide (d = c) then Some (EmptyString, s')
      else '(a, b) ← split_at c s'; Some (String d a, b)
  end.

Definition digit_value (c : ascii) : option Z :=
  let n := Z.of_nat (nat_of_ascii c) in
  if (48 <=? n) && (n <=? 57) then Some (n - 48) else None.

Fixpoint read_digits (acc : Z) (s : string) : Z :=
  match s with
  | EmptyString => acc
  | String c s' => match digit_value c with Some d => read_digits (acc * 10 + d) s' | None => acc end
  end.

(** The white space of the C locale. *)
Definition is_space (c : ascii) : bool :=
  let n := Z.of_nat (nat_of_ascii c) in (n =? 32) || ((9 <=? n) && (n <=? 13)).

Fixpoint skip_spaces (s : string) : string :=
  match s with
  | String c s' => if is_space c then skip_spaces s' else s
  | EmptyString => EmptyString
  end.

(** [strtol(s, NULL, 10)]: saturates at the ends of the range of [long]. *)
Definition strtol (s : string) : Z :=
  let v :=
    match skip_spaces s with
    | String "-" s' => - read_digits 0 s'
    | String "+" s' => read_digits 0 s'
    | s' => read_digits 0 s'
    end in
  Z.max (- 2 ^ 63) (Z.min v (2 ^ 63 - 1)).

(** [static_cast<pid_t>] *)
Definition to_pid (x : Z) : Z := (x + 2 ^ 31) mod 2 ^ 32 - 2 ^ 31.

(** ** The client *)

(** What [getopt_long] reports: the option character, [optarg] ([None] when it
    is null), [optopt]. *)
Record opt_event := mkOpt { opt : ascii; optarg : option string; optopt : ascii }.

Section Main.
Context (os : system) (version : string).

Definition print_usage (file_name : string) : prog unit :=
  print (Out ("Usage: " +:+ file_name +:+ " [options]" +:+ String newline
    ("Version: " +:+ version +:+ String newline (String newline
    ("Options:" +:+ String newline
    ("-h | --help                Print this message" +:+ String newline
    ("-s | --signal              Send signal to the service, stop | reload [module] | remove module" +:+
     String newline EmptyString))))))%string).

(** The loop over the options: the code when it returns from inside, otherwise
    the last [command]. *)
Fixpoint scan_options (argv0 : string) (opts : list opt_event) (command : option string)
    : prog (Z + option string) :=
  match opts with
  | [] => mret (inr command)
  | o :: opts' =>
      if decide (opt o = "h"%char) then _ ← print_usage argv0; mret (inl 0)
      else if decide (opt o = "s"%char) then scan_options argv0 opts' (optarg o)
      else if decide (opt o = ":"%char) then
        _ ← print (Err ("option -" +:+ String (optopt o) " required arguments")%string); mret (inl (-1))
      else if decide (opt o = "?"%char) then
        _ ← print (Err ("unknown arguments: -" +:+ String (optopt o) EmptyString)%string); mret (inl (-1))
      else scan_options argv0 opts' command
  end.

(** What the branches on [command] write to the control file: the text, or the
    message with which they give up. [rest]: the arguments from [optind] on. *)
Definition control_text (command : string) (rest : list string) : string + string :=
  if decide (command = "stop"%string) then inl "stop"%string
  else if decide (command = "reload"%string) then
    inl (match rest with name :: _ => ("reload " +:+ name)%string | [] => "reload all"%string end)
  else if decide (command = "remove"%string) then
    match rest with
    | name :: _ => inl ("remove " +:+ name)%string
    | [] => inr "command remove required an argument as module name"%string
    end
  else inr ("unsupported command: " +:+ command)%string.

(** Reading the pid file and signalling the server. *)
Definition signal_server : prog unit :=
  content ← fopen_read os kPidFile;
  match content with
  | None => _ ← report os "pid file: fopen" "fopen"; exit 1
  | Some s =>
      if read_ok os kPidFile then
        match fgets 32 s with
        | None => _ ← print (Err "pid file: fgets() failed, empty file"); exit 1
        | Some pid_str => kill (to_pid (strtol pid_str))
        end
      else _ ← report os "pid file: fgets" "fgets"; exit 1
  end.

Definition parse_command_line (argv0 : string) (opts : list opt_event) (rest : list string) : prog Z :=
  scanned ← scan_options argv0 opts None;
  match scanned with
  | inl code => mret code
  | inr None => mret 0
  | inr (Some command) =>
      made ← mkdir_if_not_exists os "logs";
      if (made : bool) then
        opened ← fopen_write os kControlFile;
        if (opened : bool) then
          match control_text command rest with
          | inr message => _ ← print (Err message); mret (-1)
          | inl text => _ ← fprintf kControlFile text; _ ← signal_server; mret 0
          end
        else
          _ ← print (Err ("control file: fopen() failed. error: " +:+ strerror os "fopen")%string); exit 1
      else exit 1
  end.

(** ** The server *)

(** [sigal_handle], with the manager's mailbox and state; [None]: undefined. *)
Definition sigal_handle (done : Z -> bool) (own : MailBox) (w : Manager.ActorManager) (p : process)
    : option (process * MailBox * Manager.ActorManager) :=
  match (fopen_read os kControlFile p).1 with
  | Returned (Some content) =>
      if read_ok os kControlFile then
        match fgets 64 content with
        | None => Some (p, own, w)
        | Some cmd =>
            let p1 := (delete_if_exists os kControlFile p).2 in
            '(own', w') ←
              match split_at " "%char cmd with
              | Some (verb, name) =>
                  if decide (verb = "reload"%string) then Manager.ReloadModule done name own w
                  else if decide (verb = "remove"%string) then Manager.RemoveModule done name own w
                  else Some (own, w)
              | None =>
                  if decide (cmd = "stop"%string) then Manager.Shutdown done own w else Some (own, w)
              end;
            Some (p1, own', w')
        end
      else Some (p, own, w)
  | _ => Some (p, own, w)
  end.

(** [main]; [event_loop] is what happens to the process during
    [manager.EventLoop()], the signal handlers that run meanwhile included. *)
Definition main (argc : nat) (argv0 : string) (opts : list opt_event) (rest : list string)
    (pid : Z) (event_loop : prog unit) : prog Z :=
  if decide (1 < argc)%nat then
    code ← parse_command_line argv0 opts rest;
    _ ← (if decide (code = 0) then mret () else print_usage argv0);
    mret 0
  else
    made ← mkdir_if_not_exists os "logs";
    if (made : bool) then
      opened ← fopen_write os kPidFile;
      if (opened : bool) then
        _ ← fprintf kPidFile (pretty (Z.to_N pid));
        _ ← atexit;
        _ ← sigaction;
        _ ← event_loop;
        mret 0
      else _ ← report os "fopen" "fopen"; exit 1
    else _ ← print (Err "failed to create directory: ./logs/"); exit 1.

End Main.

(** ** Reading back what was written *)

Fixpoint all_chars (P : ascii -> bool) (s : string) : bool :=
  match s with EmptyString => true | String c s' => P c && all_chars P s' end.

Definition is_digit (c : ascii) : bool := if digit_value c is Some _ then true else false.
Definition no_newline (s : string) : bool := all_chars (fun c => negb (bool_decide (c = newline))) s.

Lemma all_chars_impl (P Q : ascii -> bool) s :
  (forall c, P c = true -> Q c = true) -> all_chars P s = true -> all_chars Q s = true.
Proof.
  intros HPQ. induction s as [|c s IH]; simpl; [done|]. intros [H1 H2]%andb_true_iff.
  apply andb_true_iff. auto.
Qed.

Lemma digit_plain c :
  is_digit c = true -> is_space c = false /\ c <> "-"%char /\ c <> "+"%char /\ c <> newline.
Proof. destruct c as [[] [] [] [] [] [] [] []]; vm_compute; done. Qed.

Lemma get_line_all n s : (String.length s <= n)%nat -> no_newline s = true -> get_line n s = s.
Proof.
  revert n. induction s as [|c s IH]; intros [|n] Hl Hn; simpl in *; try done; [lia|].
  apply andb_true_iff in Hn as [Hc Hn]. apply negb_true_iff, bool_decide_eq_false in Hc.
  rewrite decide_False by done. f_equal. apply IH; [lia|done].
Qed.

Lemma fgets_all size s :
  s <> EmptyString -> (String.length s < size)%nat -> no_newline s = true -> fgets size s = Some s.
Proof. intros Hs Hl Hn. destruct s as [|c s]; [done|]. unfold fgets. f_equal. apply get_line_all; [lia|done]. Qed.

Lemma pretty_char_value x : (x < 10)%N -> digit_value (pretty_N_char x) = Some (Z.of_N x).
Proof.
  intros. assert (x = 0 \/ x = 1 \/ x = 2 \/ x = 3 \/ x = 4 \/ x = 5 \/ x = 6 \/ x = 7 \/ x = 8 \/ x = 9)%N
    as Hx by lia. destruct_or! Hx; subst; reflexivity.
Qed.

Lemma pretty_go_digits x s :
  all_chars is_digit s = true -> all_chars is_digit (pretty_N_go x s) = true.
Proof.
  revert s. induction (N.lt_wf_0 x) as [x _ IH]; intros s Hs.
  destruct (decide (x = 0)%N) as [->|]; [by rewrite pretty_N_go_0|].
  rewrite pretty_N_go_step by lia. apply IH; [apply N.div_lt; lia|]. simpl. rewrite Hs.
  unfold is_digit. by rewrite pretty_char_value by (apply N.mod_lt; lia).
Qed.

Lemma read_pretty_go x s : read_digits 0 (pretty_N_go x s) = read_digits (Z.of_N x) s.
Proof.
  revert s. induction (N.lt_wf_0 x) as [x _ IH]; intros s.
  destruct (decide (x = 0)%N) as [->|]; [by rewrite pretty_N_go_0|].
  rewrite pretty_N_go_step, IH by (try apply N.div_lt; lia). cbn [read_digits].
  rewrite pretty_char_value by (apply N.mod_lt; lia). f_equal.
  pose proof (N.div_mod x 10 ltac:(lia)). lia.
Qed.

Lemma pretty_go_length k x s :
  (x < 10 ^ N.of_nat k)%N -> (String.length (pretty_N_go x s) <= k + String.length s)%nat.
Proof.
  revert x s. induction k as [|k IH]; intros x s Hx.
  { assert (x = 0)%N as -> by (simpl in Hx; lia). by rewrite pretty_N_go_0. }
  destruct (decide (x = 0)%N) as [->|]; [rewrite pretty_N_go_0; lia|].
  rewrite pretty_N_go_step by lia. etrans; [apply IH|simpl; lia].
  apply N.Div0.div_lt_upper_bound. rewrite Nat2N.inj_succ, N.pow_succ_r' in Hx. lia.
Qed.

Lemma strtol_digits s : all_chars is_digit s = true -> strtol s = Z.max (- 2 ^ 63) (Z.min (read_digits 0 s) (2 ^ 63 - 1)).
Proof.
  intros Hs. destruct s as [|c s]; [done|]. simpl in Hs. apply andb_true_iff in Hs as [Hc _].
  destruct (digit_plain c Hc) as (Hsp & Hm & Hp & _). unfold strtol. cbn [skip_spaces]. rewrite Hsp.
  f_equal. f_equal. destruct c as [[] [] [] [] [] [] [] []]; done.
Qed.

(** The pid survives being written with ["%d"] and read back. *)
Lemma pid_roundtrip pid :
  0 < pid < 2 ^ 31 ->
  exists s, fgets 32 (pretty (Z.to_N pid)) = Some s /\ to_pid (strtol s) = pid.
Proof.
  intros Hp. exists (pretty (Z.to_N pid)). unfold pretty, pretty_N. rewrite decide_False by lia.
  set (s := pretty_N_go (Z.to_N pid) ""). assert (Hd : all_chars is_digit s = true) by by apply pretty_go_digits.
  split.
  - apply fgets_all.
    + intros E. pose proof (read_pretty_go (Z.to_N pid) "") as H. fold s in H. rewrite E in H. simpl in H. lia.
    + pose proof (pretty_go_length 10 (Z.to_N pid) ""). fold s in H. simpl in H. lia.
    + eapply all_chars_impl; [|exact Hd]. intros c Hc. apply negb_true_iff, bool_decide_eq_false.
      by destruct (digit_plain c Hc) as (_ & _ & _ & ?).
  - rewrite strtol_digits by done. unfold s. rewrite read_pretty_go. simpl.
    rewrite Z2N.id by lia. unfold to_pid. rewrite Z.mod_small by lia. lia.
Qed.

(** ** From the command line to the manager *)

Inductive command := Stop | Reload (name : option string) | Remove (name : string).

Definition command_verb (c : command) : string :=
  match c with Stop => "stop" | Reload _ => "reload" | Remove _ => "remove" end.

Definition command_args (c : command) : list string :=
  match c with Stop | Reload None => [] | Reload (Some name) | Remove name => [name] end.

(** What the 64 bytes of the handler's buffer leave of it. *)
Definition received (c : command) : command :=
  match c with
  | Stop => Stop
  | Reload None => Reload (Some "all"%string)
  | Reload (Some name) => Reload (Some (get_line 56 name))
  | Remove name => Remove (get_line 56 name)
  end.

Definition request (done : Z -> bool) (c : command) (own : MailBox) (w : Manager.ActorManager)
    : option (MailBox * Manager.ActorManager) :=
  match c with
  | Stop => Manager.Shutdown done own w
  | Reload None => Manager.ReloadModule done "all" own w
  | Reload (Some name) => Manager.ReloadModule done name own w
  | Remove name => Manager.RemoveModule done name own w
  end.

Fixpoint requests (done : Z -> bool) (cs : list command) (own : MailBox) (w : Manager.ActorManager)
    : option (MailBox * Manager.ActorManager) :=
  match cs with
  | [] => Some (own, w)
  | c :: cs' => '(own', w') ← request done c own w; requests done cs' own' w'
  end.

(** The names arrive complete. *)
Definition fits (c : command) : Prop :=
  Forall (fun name => (String.length name <= 56)%nat /\ no_newline name = true) (command_args c).

Definition control_of (c : command) : string :=
  match c with
  | Stop => "stop"
  | Reload None => "reload all"
  | Reload (Some name) => "reload " +:+ name
  | Remove name => "remove " +:+ name
  end.

Lemma control_text_command c : control_text (command_verb c) (command_args c) = inl (control_of c).
Proof. by destruct c as [|[name|]|name]. Qed.

Lemma request_received done c own w : fits c -> request done (received c) own w = request done c own w.
Proof.
  intros Hf. unfold fits in Hf. destruct c as [|[name|]|name]; try done;
    cbn [received request command_args] in *; apply Forall_singleton in Hf as [? ?]; by rewrite get_line_all.
Qed.

Section Session.
Context (os : system) (version : string) (done : Z -> bool).

(** The calls that [main] and the handler make on their two files succeed. *)
Record os_works : Prop := {
  ok_mkdir : mkdir_ok os "logs" = true;
  ok_write path : path = kControlFile \/ path = kPidFile -> fopen_w os path = true;
  ok_open path : path = kControlFile \/ path = kPidFile -> fopen_r os path = true;
  ok_read path : path = kControlFile \/ path = kPidFile -> read_ok os path = true;
  ok_unlink path : path = kControlFile \/ path = kPidFile -> unlink_ok os path = true
}.

(** A client process: [acnet -s verb args]. *)
Definition client (c : command) (f : gmap string node) : Z * process :=
  run_process os
    (main os version (3 + length (command_args c)) "acnet"
       [mkOpt "s" (Some (command_verb c)) "000"] (command_args c) 0 (mret ()))
    (mkProcess f [] [] false false).

Lemma bind_returned {A B} (m : prog A) (k : A -> prog B) p a p' :
  m p = (Returned a, p') -> (m ≫= k) p = k a p'.
Proof. intros E. unfold mbind, prog_bind. by rewrite E. Qed.

Lemma mkdir_makes dir p :
  (files p !! dir = None /\ mkdir_ok os dir = true) \/ files p !! dir = Some Directory ->
  mkdir_if_not_exists os dir p = (Returned true, set_files (<[dir := Directory]> (files p)) p).
Proof.
  intros Hd. unfold mkdir_if_not_exists. erewrite bind_returned; [|done]. destruct Hd as [[-> ->]|Hd]; [done|].
  rewrite Hd, insert_id by done. by destruct p.
Qed.

Lemma signal_server_runs (Hos : os_works) pid p :
  0 < pid < 2 ^ 31 -> files p !! kPidFile = Some (Regular (pretty (Z.to_N pid))) ->
  signal_server os p = kill pid p.
Proof.
  intros Hp Hpf. destruct (pid_roundtrip pid Hp) as (s & Hs & Hpid). unfold signal_server.
  erewrite bind_returned.
  2: { unfold fopen_read. erewrite bind_returned; [|done]. rewrite Hpf, (ok_open Hos) by (by right). done. }
  rewrite (ok_read Hos) by (by right). by rewrite Hs, Hpid.
Qed.

(** The command given with [-s], however [main] came by it. *)
Lemma parse_runs (Hos : os_works) pid argv0 c p :
  0 < pid < 2 ^ 31 -> files p !! "logs"%string = Some Directory ->
  files p !! kPidFile = Some (Regular (pretty (Z.to_N pid))) ->
  parse_command_line os version argv0 [mkOpt "s" (Some (command_verb c)) "000"] (command_args c) p =
  (Returned 0, (kill pid (set_files (<[kControlFile := Regular (control_of c)]> (files p)) p)).2).
Proof.
  intros Hp Hl Hpf. unfold parse_command_line.
  erewrite bind_returned; [|done]. cbn [optarg].
  erewrite bind_returned; [|apply mkdir_makes; by right]. cbv beta iota.
  rewrite insert_id by done.
  erewrite bind_returned; [|unfold fopen_write; rewrite (ok_write Hos) by (by left); done]. cbv beta iota.
  rewrite control_text_command. erewrite bind_returned; [|done].
  erewrite bind_returned; [|rewrite (signal_server_runs Hos pid); [done|done|]].
  2: { simpl. by rewrite !lookup_insert_ne. }
  unfold kill, set_files. simpl. by rewrite insert_insert_eq.
Qed.

Lemma client_sends (Hos : os_works) pid c f :
  0 < pid < 2 ^ 31 -> f !! "logs"%string = Some Directory ->
  f !! kPidFile = Some (Regular (pretty (Z.to_N pid))) ->
  client c f = (0, mkProcess (<[kControlFile := Regular (control_of c)]> f) [pid] [] false false).
Proof.
  intros Hp Hl Hpf. unfold client, run_process, main. rewrite decide_True by lia.
  erewrite bind_returned; [|by apply (parse_runs Hos pid)]. by rewrite decide_True.
Qed.

(** The handler on the text the client wrote. *)
Lemma handler_takes (Hos : os_works) c p own w :
  files p !! kControlFile = Some (Regular (control_of c)) ->
  sigal_handle os done own w p =
  ('(own', w') ← request done (received c) own w;
   Some (set_files (delete kControlFile (files p)) p, own', w')).
Proof.
  intros Hc. unfold sigal_handle, fopen_read, delete_if_exists, stat, mbind, prog_bind, mret, prog_ret.
  rewrite Hc, (ok_open Hos), (ok_read Hos), (ok_unlink Hos) by (by left).
  destruct c as [|[name|]|name]; reflexivity.
Qed.

(** What happens to a server: a client gives a command, or the signal that is
    pending is delivered. *)
Inductive happening := Issue (c : command) | Deliver.

(** Each client finds the files as they are, writes its command and signals the
    server. A signal that is pending already is not pending twice; the server's
    handler runs when it is delivered. *)
Fixpoint session (pid : Z) (es : list happening) (pending : bool) (p : process) (own : MailBox)
    (w : Manager.ActorManager) : option (process * MailBox * Manager.ActorManager) :=
  match es with
  | [] => Some (p, own, w)
  | Issue c :: es' =>
      let (code, cl) := client c (files p) in
      if decide (code = 0 /\ signalled cl = [pid] /\ hup_handler p = true)
      then session pid es' true (set_files (files cl) p) own w else None
  | Deliver :: es' =>
      if pending then
        '(p', own', w') ← sigal_handle os done own w p;
        session pid es' false p' own' w'
      else session pid es' false p own w
  end.

(** The commands the handler finds, in order, and the one it has not found yet:
    the control file holds one command, the last one given. *)
Fixpoint found (waiting : option command) (es : list happening) : list command * option command :=
  match es with
  | [] => ([], waiting)
  | Issue c :: es' => found (Some c) es'
  | Deliver :: es' =>
      let (cs, last) := found None es' in
      (match waiting with Some c => c :: cs | None => cs end, last)
  end.

Definition control_file (waiting : option command) : option node := (fun c => Regular (control_of c)) <$> waiting.

(** [given]: a command has been given, so that the control file is the clients'. *)
Lemma session_requests (Hos : os_works) pid es waiting given p own w own' w' :
  0 < pid < 2 ^ 31 -> files p !! "logs"%string = Some Directory ->
  files p !! kPidFile = Some (Regular (pretty (Z.to_N pid))) -> hup_handler p = true ->
  (given -> files p !! kControlFile = control_file waiting) -> (is_Some waiting -> given) ->
  requests done (received <$> (found waiting es).1) own w = Some (own', w') ->
  exists f, session pid es (if waiting is Some _ then true else false) p own w = Some (set_files f p, own', w') /\
    (given \/ Exists (fun e => e <> Deliver) es -> f !! kControlFile = control_file (found waiting es).2) /\
    (forall path, path <> kControlFile -> f !! path = files p !! path).
Proof.
  intros Hp. revert waiting given p own w. induction es as [|[c|] es IH]; intros waiting given p own w Hl Hpf Hh Hc Hg Hr; simpl in *.
  - exists (files p). simplify_eq. split_and!; [by destruct p| |done]. intros [?|?%Exists_nil]; [by apply Hc|done].
  - rewrite (client_sends Hos pid) by done. rewrite decide_True by done. set (p1 := set_files _ _).
    assert (E1 : forall path, path <> kControlFile -> files p1 !! path = files p !! path)
      by (intros path Hne; simpl; by rewrite lookup_insert_ne).
    destruct (IH (Some c) True p1 own w) as (f & Es & Hf & Ho); try done; [by rewrite E1..|intros _; apply lookup_insert_eq|].
    exists f. split_and!; [exact Es|intros _; apply Hf; by left|intros path Hne; by rewrite Ho, E1].
  - destruct (found None es) as [cs last] eqn:Ef. cbn [fst snd] in *.
    assert (Hex : Exists (fun e => e <> Deliver) (Deliver :: es) -> Exists (fun e => e <> Deliver) es)
      by (intros [?|?]%Exists_cons; done).
    destruct waiting as [c|]; cbn [fmap list_fmap requests] in Hr.
    + destruct (request done (received c) own w) as [[own1 w1]|] eqn:Er; [|done]. simpl in Hr.
      rewrite (handler_takes Hos c) by (apply Hc, Hg; done). rewrite Er. simpl. set (p1 := set_files _ _).
      assert (E1 : forall path, path <> kControlFile -> files p1 !! path = files p !! path)
        by (intros path Hne; simpl; by rewrite lookup_delete_ne).
      destruct (IH None True p1 own1 w1) as (f & Es & Hf & Ho); try done;
        [by rewrite E1..|intros _; apply lookup_delete_eq|by rewrite Ef|]. rewrite Ef in Hf.
      exists f. split_and!; [exact Es|intros _; apply Hf; by left|intros path Hne; by rewrite Ho, E1].
    + destruct (IH None given p own w) as (f & Es & Hf & Ho); try done; [by rewrite Ef|]. rewrite Ef in Hf.
      exists f. split_and!; [exact Es|intros [?|?]; apply Hf; auto|done].
Qed.

(** The event loop of a server to which this happens. *)
Definition serving (pid : Z) (es : list happening) (own : MailBox) (w : Manager.ActorManager) : prog unit := fun p =>
  match session pid es false p own w with
  | Some (p', _, _) => (Returned (), p')
  | None => (Exited 134, p)
  end.

(** The start of the server. *)
Lemma server_starts (Hos : os_works) pid e f :
  f !! "logs"%string = None \/ f !! "logs"%string = Some Directory ->
  run_process os (main os version 1 "acnet" [] [] pid e) (mkProcess f [] [] false false) =
  (let p1 := mkProcess (<[kPidFile := Regular (pretty (Z.to_N pid))]> (<["logs"%string := Directory]> f))
               [] [] true true in
   match e p1 with
   | (Returned _, p2) => (0, if exit_handler p2 then (delete_if_exists os kPidFile p2).2 else p2)
   | (Exited c, p2) => (c, if exit_handler p2 then (delete_if_exists os kPidFile p2).2 else p2)
   end).
Proof.
  intros Hl. unfold run_process, main. rewrite decide_False by lia.
  erewrite bind_returned; [|apply mkdir_makes; destruct Hl as [Hl|Hl]; [left|by right]; split; [done|apply Hos]].
  cbv beta iota. erewrite bind_returned; [|unfold fopen_write; rewrite (ok_write Hos) by (by right); done].
  cbv beta iota. do 3 (erewrite bind_returned; [|done]). unfold set_files. cbn [files signalled printed].
  rewrite insert_insert_eq. cbn [exit_handler hup_handler]. unfold mbind, prog_bind. by destruct (e _) as [[]].
Qed.

End Session.

(** C18. A command given to the client reaches the manager of the server. With
    a server running under [pid], [acnet -s stop], [-s reload [module]] and
    [-s remove module] exit with success, print nothing and signal exactly that
    process; its handler consumes the control file and makes the request the
    user gave, "reload" without a module meaning all of them. The module's name
    arrives complete when it has at most 56 characters and no newline; a longer
    one is cut there. *)
Theorem command_reaches_manager (os : system) (version : string) (done : Z -> bool) (pid : Z) (c : command)
    (p : process) (own : MailBox) (w : Manager.ActorManager) :
  os_works os -> 0 < pid < 2 ^ 31 -> files p !! "logs"%string = Some Directory ->
  files p !! kPidFile = Some (Regular (pretty (Z.to_N pid))) ->
  exists cl, client os version c (files p) = (0, cl) /\ signalled cl = [pid] /\ printed cl = [] /\
    sigal_handle os done own w (set_files (files cl) p) =
      ('(own', w') ← request done (received c) own w;
       Some (set_files (delete kControlFile (files p)) p, own', w')) /\
    (fits c -> request done (received c) own w = request done c own w).
Proof.
  intros Hos Hp Hl Hpf. eexists. split; [by apply (client_sends os version Hos pid)|]. split; [done|]. split; [done|].
  split; [|apply request_received]. rewrite (handler_takes os done Hos c); [|apply lookup_insert_eq]. simpl.
  by rewrite delete_insert_eq.
Qed.

(** A machine on which everything works. *)
Definition sound_system : system :=
  mkSystem (fun _ => true) (fun _ => true) (fun _ => true) (fun _ => true) (fun _ => true) (fun _ => "error"%string).

Lemma sound_works : os_works sound_system.
Proof. by split. Qed.

Definition running_files : gmap string node :=
  {[ "logs"%string := Directory; kPidFile := Regular "4242" ]}.

Lemma command_reaches_manager_witness :
  exists cl, client sound_system "1.0" (Reload (Some "net"%string)) running_files = (0, cl) /\
    signalled cl = [4242] /\ files cl !! kControlFile = Some (Regular "reload net").
Proof.
  destruct (command_reaches_manager sound_system "1.0" (fun _ => false) 4242 (Reload (Some "net"%string))
    (mkProcess running_files [] [] true true) (new_mailbox 4) (Manager.started (mkConfig "lib" [])))
    as (cl & E & Hs & _).
  - exact sound_works.
  - lia.
  - vm_compute. reflexivity.
  - vm_compute. reflexivity.
  - exists cl. split; [exact E|]. split; [exact Hs|]. vm_compute in E. injection E as <-. reflexivity.
Defined.

(** When each command is handled before the next one is given, and the names are
    short enough, all of them are found as they were given. *)
Lemma handled_in_turn done cs own w :
  Forall fits cs ->
  requests done (received <$> (found None (cs ≫= fun c => [Issue c; Deliver])).1) own w = requests done cs own w /\
  (found None (cs ≫= fun c => [Issue c; Deliver])).2 = None.
Proof.
  intros Hf. revert own w. induction Hf as [|c cs Hc _ IH]; intros own w; [done|]. simpl.
  destruct (found None _) as [l last] eqn:E. simpl in *. rewrite request_received by done. split.
  - destruct (request done c own w) as [[own1 w1]|]; [|done]. apply IH.
  - by apply (IH own w).
Qed.

(** C19. A whole session. A server is started (no other file in the place of its
    directory), clients give commands and pending signals are delivered in any
    order, each client running to its end between two runs of the handler, and
    the event loop ends. Then the manager has had exactly the requests the
    handler found, in order: for every delivery of the signal the last command
    given since the one before, its module name cut at 56 characters or a
    newline. A command given before the previous one was handled replaces it.
    The server exits with success; its exit handler has removed the pid file;
    if a command was given, the control file is gone or holds the one command
    not handled; and no other file has changed, but for the directory. *)
Theorem server_session (os : system) (version : string) (done : Z -> bool) (pid : Z) (es : list happening)
    (f : gmap string node) (own own' : MailBox) (w w' : Manager.ActorManager) :
  os_works os -> 0 < pid < 2 ^ 31 ->
  f !! "logs"%string = None \/ f !! "logs"%string = Some Directory ->
  requests done (received <$> (found None es).1) own w = Some (own', w') ->
  let start := mkProcess (<[kPidFile := Regular (pretty (Z.to_N pid))]> (<["logs"%string := Directory]> f))
                 [] [] true true in
  exists p1 p2, session os version done pid es false start own w = Some (p1, own', w') /\
    run_process os (main os version 1 "acnet" [] [] pid (serving os version done pid es own w))
      (mkProcess f [] [] false false) = (0, p2) /\
    printed p2 = [] /\ files p2 !! kPidFile = None /\
    (Exists (fun e => e <> Deliver) es -> files p2 !! kControlFile = control_file (found None es).2) /\
    forall path, path <> kPidFile -> path <> kControlFile ->
      files p2 !! path = <["logs"%string := Directory]> f !! path.
Proof.
  intros Hos Hp Hl Hr start.
  assert (Hlogs : files start !! "logs"%string = Some Directory).
  { simpl. rewrite lookup_insert_ne by done. apply lookup_insert_eq. }
  assert (Hpid : files start !! kPidFile = Some (Regular (pretty (Z.to_N pid)))) by apply lookup_insert_eq.
  destruct (session_requests os version done Hos pid es None False start own w own' w' Hp Hlogs Hpid eq_refl)
    as (f1 & Es & Hc & Ho); [done|by intros []|done|].
  assert (E : (delete_if_exists os kPidFile (set_files f1 start)).2 = set_files (delete kPidFile f1) start).
  { unfold delete_if_exists, stat, mbind, prog_bind. simpl. rewrite Ho, Hpid by done.
    by rewrite (ok_unlink _ Hos) by (by right). }
  exists (set_files f1 start), (set_files (delete kPidFile f1) start). split; [exact Es|]. split_and!.
  - rewrite (server_starts os version Hos) by done. fold start. unfold serving. cbv zeta. rewrite Es. simpl. by rewrite E.
  - done.
  - apply lookup_delete_eq.
  - intros He. simpl. rewrite lookup_delete_ne by done. apply Hc. by right.
  - intros path H1 H2. simpl. rewrite lookup_delete_ne, Ho by done. simpl. by rewrite lookup_insert_ne.
Qed.

(** A reload, then a removal which a stop replaces before it is handled. *)
Definition hasty : list happening := [Issue (Reload (Some "net"%string)); Deliver; Issue (Remove "net"); Issue Stop; Deliver; Deliver].

Lemma server_session_witness :
  exists p1 p2 own w, session sound_system "1.0" (fun _ => false) 4242 hasty false
      (mkProcess (<[kPidFile := Regular "4242"]> {[ "logs"%string := Directory ]}) [] [] true true)
      (new_mailbox 4) (Manager.started (mkConfig "lib" [])) = Some (p1, own, w) /\
    requests (fun _ => false) [Reload (Some "net"%string); Stop] (new_mailbox 4)
      (Manager.started (mkConfig "lib" [])) = Some (own, w) /\
    Manager.is_running_ w = false /\
    run_process sound_system (main sound_system "1.0" 1 "acnet" [] [] 4242
      (serving sound_system "1.0" (fun _ => false) 4242 hasty
         (new_mailbox 4) (Manager.started (mkConfig "lib" [])))) (mkProcess ∅ [] [] false false) = (0, p2) /\
    files p2 !! kControlFile = None.
Proof.
  destruct (requests (fun _ => false) [Reload (Some "net"%string); Stop] (new_mailbox 4)
    (Manager.started (mkConfig "lib" []))) as [[own w]|] eqn:Er; [|vm_compute in Er; discriminate].
  destruct (server_session sound_system "1.0" (fun _ => false) 4242 hasty ∅
    (new_mailbox 4) own (Manager.started (mkConfig "lib" [])) w) as (p1 & p2 & E1 & E2 & _ & _ & E3 & _).
  - exact sound_works.
  - lia.
  - left. reflexivity.
  - exact Er.
  - exists p1, p2, own, w. split; [exact E1|]. split; [reflexivity|]. split; [|split; [exact E2|]].
    + vm_compute in Er. injection Er as _ <-. reflexivity.
    + apply E3. apply Exists_cons_hd. discriminate.
Defined.

(** A command the client does not know (or "remove" without a module): an error
    and the usage are printed, nobody is signalled, and the exit code is that
    of success; the control file is left empty, a command waiting in it is
    lost, and the handler ignores an empty file. *)
Theorem bad_command (os : system) (version : string) (done : Z -> bool) (cmd : string) (rest : list string)
    (message : string) (argc : nat) (f : gmap string node) (own : MailBox) (w : Manager.ActorManager) (p : process) :
  os_works os -> (1 < argc)%nat -> f !! "logs"%string = Some Directory -> control_text cmd rest = inr message ->
  exists cl usage, run_process os
      (main os version argc "acnet" [mkOpt "s" (Some cmd) "000"] rest 0 (mret ()))
      (mkProcess f [] [] false false) = (0, cl) /\
    printed cl = [Err message; Out usage] /\ signalled cl = [] /\
    files cl = <[kControlFile := Regular EmptyString]> f /\
    sigal_handle os done own w (set_files (files cl) p) = Some (set_files (files cl) p, own, w).
Proof.
  intros Hos Ha Hl Hc.
  assert (E : parse_command_line os version "acnet" [mkOpt "s" (Some cmd) "000"] rest (mkProcess f [] [] false false) =
    (Returned (-1), mkProcess (<[kControlFile := Regular EmptyString]> f) [] [Err message] false false)).
  { unfold parse_command_line. erewrite bind_returned; [|done]. cbn [optarg].
    erewrite bind_returned; [|apply mkdir_makes; by right]. cbv beta iota. simpl. rewrite insert_id by done.
    erewrite bind_returned; [|unfold fopen_write; rewrite (ok_write _ Hos) by (by left); done]. cbv beta iota.
    by rewrite Hc. }
  eexists _, _. split.
  - unfold run_process, main. rewrite decide_True by done. erewrite bind_returned; [|exact E].
    rewrite decide_False by done. reflexivity.
  - split; [done|]. split; [done|]. split; [done|]. simpl.
    unfold sigal_handle, fopen_read, stat, mbind, prog_bind, mret, prog_ret. simpl. rewrite lookup_insert_eq.
    by rewrite (ok_open _ Hos), (ok_read _ Hos) by (by left).
Qed.

(** The long form of the option does nothing: [long_options] declares
    "signal" without an argument, so [getopt_long] reports it with a null
    [optarg], and then, whatever follows on the command line, the command is
    dropped: nothing is written, printed or signalled, and the exit code is
    that of success. *)
Theorem long_signal_ignored (os : system) (version : string) (argc : nat) (opts : list opt_event)
    (rest : list string) (p : process) :
  Forall (fun o => opt o = "s"%char /\ optarg o = None) opts -> (1 < argc)%nat ->
  main os version argc "acnet" opts rest 0 (mret ()) p = (Returned 0, p).
Proof.
  intros Ho Ha. unfold main. rewrite decide_True by done.
  assert (scan_options version "acnet" opts None p = (Returned (inr None), p)) as E.
  { induction Ho as [|o opts [E1 E2] _ IH]; [done|]. simpl. rewrite E1, E2. exact IH. }
  assert (parse_command_line os version "acnet" opts rest p = (Returned 0, p)) as E'.
  { unfold parse_command_line. by erewrite bind_returned; [|exact E]. }
  erewrite bind_returned; [|exact E']. by rewrite decide_True.
Qed.
