(* ===== verification/WeakMem.v ===== *)
(** * Memory with release and acquire

    The interleavings of the other files take every access in one global
    order. Here a location is the list of all writes to it, in modification
    order, and a thread has a view: for each location the newest write it is
    bound to know. A load may return any write that is not older than the
    view; an acquire load also takes over the view stored with the write, a
    release store leaves the thread's view there. A read-modify-write acts on
    the newest write. Stores are appended to the modification order (the strong
    release/acquire model): for locations whose plain stores are ordered by
    happens-before, as all those used here, these are all the executions.
    A release fence is the view a later relaxed store carries ([store_fenced]);
    a seq_cst fence joins the view of the thread with one that all such fences
    share, which is part of the state that uses it.

    A location that is not atomic may only be accessed by a thread that has seen
    the previous access to it, of either kind; otherwise the access is a data
    race. *)

From Stdlib Require Import Lia.
From stdpp Require Import base list.
From S2P Require Import Prelude.

Section Views.
Context {loc : Type} `{!EqDecision loc}.

Definition view : Type := loc -> nat.

Definition vbot : view := fun _ => 0.

Definition vjoin (a b : view) : view := fun l => a l `max` b l.

Definition vset (l : loc) (n : nat) (a : view) : view := fun l' => if decide (l' = l) then n else a l'.

Definition vle (a b : view) : Prop := forall l, a l <= b l.

#[global] Instance vle_preorder : PreOrder vle.
Proof. split; [by intros a l|]. intros a b c Hab Hbc l. specialize (Hab l); specialize (Hbc l). lia. Qed.

Lemma vjoin_l a b : vle a (vjoin a b).
Proof. intros l. unfold vjoin. lia. Qed.

Lemma vjoin_r a b : vle b (vjoin a b).
Proof. intros l. unfold vjoin. lia. Qed.

Lemma vset_eq l n a : vset l n a l = n.
Proof. unfold vset. by rewrite decide_True. Qed.

Lemma vset_ne l l' n a : l' <> l -> vset l n a l' = a l'.
Proof. intros. unfold vset. by rewrite decide_False. Qed.

Lemma vset_le l n a : a l <= n -> vle a (vset l n a).
Proof. intros Hn l'. unfold vset. destruct (decide (l' = l)) as [->|]; lia. Qed.

End Views.

Arguments view loc : clear implicits.
#[global] Arguments vset : simpl never.
#[global] Arguments vjoin : simpl never.
#[global] Arguments vbot : simpl never.

Section Memory.
Context {loc V : Type} `{!EqDecision loc}.

Record write := mkWrite { w_val : V; w_view : view loc }.

Definition memory : Type := loc -> list write.

Definition append (l : loc) (w : write) (M : memory) : memory :=
  fun l' => if decide (l' = l) then M l ++ [w] else M l'.

(** [load] of the [i]-th write; [None] when that write does not exist or the
    thread knows a newer one. *)
Definition load (acquire : bool) (l : loc) (i : nat) (T : view loc) (M : memory) : option (V * view loc) :=
  w ← M l !! i;
  if decide (T l <= i) then
    Some (w_val w, let T1 := vset l i T in if acquire then vjoin T1 (w_view w) else T1)
  else None.

Definition store (release : bool) (l : loc) (v : V) (T : view loc) (M : memory) : view loc * memory :=
  let T1 := vset l (length (M l)) T in
  (T1, append l (mkWrite v (if release then T1 else vset l (length (M l)) vbot)) M).

(** [exchange] with [memory_order_acq_rel]: the old value. *)
Definition exchange (l : loc) (v : V) (T : view loc) (M : memory) : option (V * view loc * memory) :=
  w ← last (M l);
  let T1 := vset l (length (M l)) (vjoin T (w_view w)) in
  Some (w_val w, T1, append l (mkWrite v T1) M).

(** Relaxed store of a thread that has executed fences: [R] is its view at the
    last release or seq_cst fence. *)
Definition store_fenced (l : loc) (v : V) (R T : view loc) (M : memory) : view loc * memory :=
  let n := length (M l) in
  (vset l n T, append l (mkWrite v (vset l n R)) M).

(** Strong compare-exchange that reads the [i]-th write: whether it succeeded.
    It succeeds on the newest write only, with [memory_order_acq_rel] or
    [memory_order_relaxed]; a failure is a relaxed load of another value.
    Whatever its order, the write passes on the view of the one it replaces. *)
Definition compare_exchange `{!EqDecision V} (acq_rel : bool) (l : loc) (i : nat) (expected v : V)
    (T : view loc) (M : memory) : option (bool * view loc * memory) :=
  w ← M l !! i;
  if decide (T l <= i) then
    if decide (w_val w = expected) then
      if decide (S i = length (M l)) then
        let T1 := vset l (length (M l)) (if acq_rel then vjoin T (w_view w) else T) in
        let W := if acq_rel then T1 else vset l (length (M l)) (w_view w) in
        Some (true, T1, append l (mkWrite v W) M)
      else None
    else Some (false, vset l i T, M)
  else None.

(** Read-modify-write with [memory_order_release]: the old value. *)
Definition fetch_release (l : loc) (f : V -> V) (T : view loc) (M : memory) : option (V * view loc * memory) :=
  w ← last (M l);
  let T1 := vset l (length (M l)) T in
  Some (w_val w, T1, append l (mkWrite (f (w_val w)) (vjoin T1 (w_view w))) M).

(** The newest value of a location. *)
Definition newest (l : loc) (d : V) (M : memory) : V := default d (w_val <$> last (M l)).

(** Whether an access to a location that is not atomic is ordered after every
    other access to it. *)
Definition exclusive (l : loc) (T : view loc) (M : memory) : bool := S (T l) =? length (M l).

(** A read ([f] the identity) or write of such a location; [None]: a race. *)
Definition access (l : loc) (f : V -> V) (T : view loc) (M : memory) : option (V * view loc * memory) :=
  if exclusive l T M then
    w ← last (M l);
    Some (w_val w, vset l (length (M l)) T, append l (mkWrite (f (w_val w)) vbot) M)
  else None.

(** ** What every operation keeps *)

(** A view names writes that exist. *)
Definition closed (T : view loc) (M : memory) : Prop := forall l, T l < length (M l).

Definition mem_closed (M : memory) : Prop :=
  forall l w, w ∈ M l -> closed (w_view w) M.

Lemma append_eq l w M : append l w M l = M l ++ [w].
Proof. unfold append. by rewrite decide_True. Qed.

Lemma append_ne l l' w M : l' <> l -> append l w M l' = M l'.
Proof. intros. unfold append. by rewrite decide_False. Qed.

Lemma append_length l w M l' :
  length (append l w M l') = length (M l') + (if decide (l' = l) then 1 else 0).
Proof.
  unfold append. destruct (decide (l' = l)) as [->|]; [rewrite length_app|]; simpl; lia.
Qed.

Lemma append_lookup l w M l' i x : M l' !! i = Some x -> append l w M l' !! i = Some x.
Proof.
  intros Hi. unfold append. destruct (decide (l' = l)) as [->|]; [|done]. by apply lookup_app_l_Some.
Qed.

Lemma append_lookup_inv l w M l' i x :
  append l w M l' !! i = Some x -> M l' !! i = Some x \/ (l' = l /\ i = length (M l) /\ x = w).
Proof.
  unfold append. destruct (decide (l' = l)) as [->|]; [|by left].
  intros Hi. apply lookup_app_Some in Hi as [?|[Hle Hi]]; [by left|]. right.
  apply list_lookup_singleton_Some in Hi as [Hz <-]. split_and!; try done. lia.
Qed.

Lemma closed_append T l w M : closed T M -> closed T (append l w M).
Proof. intros Hc l'. rewrite append_length. specialize (Hc l'). lia. Qed.

Lemma closed_new T l w M : closed T M -> closed (vset l (length (M l)) T) (append l w M).
Proof.
  intros Hc l'. rewrite append_length. unfold vset. specialize (Hc l').
  destruct (decide (l' = l)) as [->|]; lia.
Qed.

Lemma closed_join T1 T2 M : closed T1 M -> closed T2 M -> closed (vjoin T1 T2) M.
Proof. intros H1 H2 l. specialize (H1 l); specialize (H2 l). unfold vjoin. lia. Qed.

Lemma mem_closed_append l w M :
  mem_closed M -> closed (w_view w) (append l w M) -> mem_closed (append l w M).
Proof.
  intros Hm Hw l' w' Hin. apply list_elem_of_lookup in Hin as [i Hi].
  apply append_lookup_inv in Hi as [Hi|(_ & _ & ->)]; [|done].
  apply closed_append, (Hm l'). by eapply list_elem_of_lookup_2.
Qed.

Lemma closed_bot M : (forall l, M l <> []) -> closed vbot M.
Proof. intros Hne l. unfold vbot. specialize (Hne l). destruct (M l); simpl; [done|lia]. Qed.

Lemma closed_nonempty T M l : closed T M -> exists w, last (M l) = Some w.
Proof. intros Hc. specialize (Hc l). destruct (last (M l)) eqn:E; [by eexists|]. apply last_None in E. rewrite E in Hc. simpl in Hc. lia. Qed.

(** The thread has seen the newest write (of a location that is not atomic:
    the newest access). *)
Definition latest (T : view loc) (l : loc) (M : memory) : Prop := S (T l) = length (M l).

Lemma exclusive_latest l T M : latest T l M -> exclusive l T M = true.
Proof. unfold exclusive, latest. intros ->. apply Nat.eqb_refl. Qed.

Lemma latest_mono T T' l M : closed T' M -> vle T T' -> latest T l M -> latest T' l M.
Proof. unfold latest. intros Hc Hle Hl. specialize (Hc l). specialize (Hle l). lia. Qed.

Lemma latest_append_ne T l l' w M : l' <> l -> latest T l' M -> latest T l' (append l w M).
Proof. intros Hne. unfold latest. by rewrite append_ne. Qed.

Lemma latest_new T l w M : latest (vset l (length (M l)) T) l (append l w M).
Proof. unfold latest. by rewrite vset_eq, append_eq, length_app, Nat.add_comm. Qed.

Lemma latest_vset_ne T l l' n M : l' <> l -> latest T l' M -> latest (vset l n T) l' M.
Proof. intros Hne. unfold latest. by rewrite vset_ne. Qed.

Lemma last_append l w M : last (append l w M l) = Some w.
Proof. rewrite append_eq. apply last_snoc. Qed.

Lemma newest_append_eq l d w M : newest l d (append l w M) = w_val w.
Proof. unfold newest. by rewrite last_append. Qed.

Lemma newest_append_ne l l' d w M : l' <> l -> newest l' d (append l w M) = newest l' d M.
Proof. intros. unfold newest. by rewrite append_ne. Qed.

(** Who knows the newest write can only load it. *)
Lemma latest_load T l d M i w :
  latest T l M -> M l !! i = Some w -> T l <= i -> i = T l /\ newest l d M = w_val w.
Proof.
  unfold latest, newest. intros Hl Hi Hle. pose proof (lookup_lt_Some _ _ _ Hi).
  assert (i = T l) as -> by lia. split; [done|].
  rewrite last_lookup, <- Hl. simpl. by rewrite Hi.
Qed.

Lemma access_latest l f T M :
  latest T l M ->
  exists w, last (M l) = Some w /\
    access l f T M = Some (w_val w, vset l (length (M l)) T, append l (mkWrite (f (w_val w)) vbot) M).
Proof.
  intros Hl. unfold access. rewrite exclusive_latest by done.
  destruct (last (M l)) as [w|] eqn:E; [by exists w|].
  apply last_None in E. unfold latest in Hl. by rewrite E in Hl.
Qed.

Lemma load_spec acq l i T M v T' :
  load acq l i T M = Some (v, T') ->
  exists w, M l !! i = Some w /\ v = w_val w /\ T l <= i /\
    T' = (if acq then vjoin (vset l i T) (w_view w) else vset l i T).
Proof.
  unfold load. destruct (M l !! i) as [w|]; simpl; [|done].
  destruct (decide _); [|done]. intros [= <- <-]. by exists w.
Qed.

Lemma load_closed acq l i T M v T' :
  load acq l i T M = Some (v, T') -> closed T M -> mem_closed M -> closed T' M /\ vle T T'.
Proof.
  intros (w & Hi & _ & Hle & ->)%load_spec Hc Hm.
  assert (closed (vset l i T) M) as Hs.
  { intros l'. unfold vset. destruct (decide (l' = l)) as [->|]; [by eapply lookup_lt_Some|apply Hc]. }
  assert (vle T (vset l i T)) by by apply vset_le.
  destruct acq; [|done]. split.
  - apply closed_join; [done|]. eapply Hm, list_elem_of_lookup_2, Hi.
  - etrans; [done|]. apply vjoin_l.
Qed.

Lemma compare_exchange_spec `{!EqDecision V} ar l i expected v T M ok T' M' :
  compare_exchange ar l i expected v T M = Some (ok, T', M') ->
  exists w, M l !! i = Some w /\ T l <= i /\
    ((ok = true /\ w_val w = expected /\ S i = length (M l) /\
      T' = vset l (length (M l)) (if ar then vjoin T (w_view w) else T) /\
      M' = append l (mkWrite v (if ar then T' else vset l (length (M l)) (w_view w))) M) \/
     (ok = false /\ w_val w <> expected /\ T' = vset l i T /\ M' = M)).
Proof.
  unfold compare_exchange. destruct (M l !! i) as [w|]; simpl; [|done].
  destruct (decide _); [|done]. intros Hc. exists w. split_and!; try done.
  destruct (decide _); [destruct (decide _); [|done]|]; injection Hc as <- <- <-; [left|right]; done.
Qed.

Lemma closed_vset l i T M : closed T M -> i < length (M l) -> closed (vset l i T) M.
Proof. intros Hc Hi l'. unfold vset. destruct (decide (l' = l)) as [->|]; [done|apply Hc]. Qed.

Lemma closed_view l i w M : mem_closed M -> M l !! i = Some w -> closed (w_view w) M.
Proof. intros Hm Hi. eapply Hm, list_elem_of_lookup_2, Hi. Qed.

End Memory.

Arguments write loc V : clear implicits.
Arguments memory loc V : clear implicits.
#[global] Arguments append : simpl never.
