(* ===== verification/SpscConc.v ===== *)
(** * The producer and the consumer of an [SPSCQueue], under release/acquire

    [try_enqueue] and [try_dequeue] of include/queue.h access by access, with
    the memory orders of the code: the other side's index may be read late.
    The slots are not atomic. *)

From Stdlib Require Import ZArith Lia.
From stdpp Require Import base list relations.
From S2P Require Import Prelude Fifo SpscQueue WeakMem.

Local Open Scope u64_scope.

Module SpscConc.
Import Spsc.

Inductive location := LWrite | LRead | LSlot (j : nat).

#[global] Instance location_eq_dec : EqDecision location.
Proof. solve_decision. Defined.

(** The producer in [try_enqueue], the consumer in [try_dequeue]. *)
Inductive prod_pc :=
  | PIdle
  | PTail (item : Z)
  | PFront (item tail : Z)
  | PWrite (item tail : Z)
  | PPublish (item tail : Z).

Inductive cons_pc :=
  | CIdle
  | CFront
  | CTail (front : Z)
  | CRead (front : Z)
  | CPublish (item front : Z).

Record ring := mkRing {
  mem : memory location Z;
  pview : view location;
  cview : view location;
  ppc : prod_pc;
  cpc : cons_pc;
  (* history: items accepted and handed out *)
  sent : list Z;
  received : list Z
}.

Section Steps.
Context (k : nat).

Definition slot_at (i : Z) : location := LSlot (mask_index i (kMask k)).

(** [i]: which write a load returns. *)
Definition prod_act (i : nat) (s : ring) : option ring :=
  match ppc s with
  | PIdle => None
  | PTail item =>
      '(tail, T) ← load false LWrite i (pview s) (mem s);
      Some (mkRing (mem s) T (cview s) (PFront item tail) (cpc s) (sent s) (received s))
  | PFront item tail =>
      '(front, T) ← load true LRead i (pview s) (mem s);
      Some (mkRing (mem s) T (cview s)
        (if (Z.land (tail ⊕ 1) (kMask k) =? Z.land front (kMask k))%Z then PIdle else PWrite item tail)
        (cpc s) (sent s) (received s))
  | PWrite item tail =>
      '(_, T, M) ← access (slot_at tail) (fun _ => item) (pview s) (mem s);
      Some (mkRing M T (cview s) (PPublish item tail) (cpc s) (sent s) (received s))
  | PPublish item tail =>
      let (T, M) := store true LWrite (tail ⊕ 1) (pview s) (mem s) in
      Some (mkRing M T (cview s) PIdle (cpc s) (sent s ++ [item]) (received s))
  end.

Definition cons_act (i : nat) (s : ring) : option ring :=
  match cpc s with
  | CIdle => None
  | CFront =>
      '(front, T) ← load false LRead i (cview s) (mem s);
      Some (mkRing (mem s) (pview s) T (ppc s) (CTail front) (sent s) (received s))
  | CTail front =>
      '(tail, T) ← load true LWrite i (cview s) (mem s);
      Some (mkRing (mem s) (pview s) T (ppc s) (if (front =? tail)%Z then CIdle else CRead front)
        (sent s) (received s))
  | CRead front =>
      '(item, T, M) ← access (slot_at front) id (cview s) (mem s);
      Some (mkRing M (pview s) T (ppc s) (CPublish item front) (sent s) (received s))
  | CPublish item front =>
      let (T, M) := store true LRead (front ⊕ 1) (cview s) (mem s) in
      Some (mkRing M (pview s) T (ppc s) CIdle (sent s) (received s ++ [item]))
  end.

Inductive choice := CallEnqueue (item : Z) | ProdGo (i : nat) | CallDequeue | ConsGo (i : nat).

Definition ring_act (c : choice) (s : ring) : option ring :=
  match c with
  | CallEnqueue item =>
      match ppc s with
      | PIdle => Some (mkRing (mem s) (pview s) (cview s) (PTail item) (cpc s) (sent s) (received s))
      | _ => None
      end
  | ProdGo i => prod_act i s
  | CallDequeue =>
      match cpc s with
      | CIdle => Some (mkRing (mem s) (pview s) (cview s) (ppc s) CFront (sent s) (received s))
      | _ => None
      end
  | ConsGo i => cons_act i s
  end.

Definition ring_step (s s' : ring) : Prop := exists c, ring_act c s = Some s'.

(** Freshly constructed, known to both threads. *)
Definition ring_start : ring :=
  mkRing (fun _ => [mkWrite 0%Z vbot]) vbot vbot PIdle CIdle [] [].

Definition ring_init (s : ring) : Prop := s = ring_start.

(** The next access is a data race. *)
Definition racy (s : ring) : bool :=
  match ppc s with PWrite _ tail => negb (exclusive (slot_at tail) (pview s) (mem s)) | _ => false end ||
  match cpc s with CRead front => negb (exclusive (slot_at front) (cview s) (mem s)) | _ => false end.

End Steps.

(** ** Who knows what *)

Section Invariant.
Context (k : nat) (Hk : (k <= 64)%nat).

Definition cap : nat := Z.to_nat (2 ^ Z.of_nat k).

Definition slot (i : nat) : location := slot_at k (Z.of_nat i).

(** Items published and consumed; items written and read. *)
Definition n_pub (s : ring) : nat := pred (length (mem s LWrite)).
Definition n_con (s : ring) : nat := pred (length (mem s LRead)).
Definition n_wr (s : ring) : nat := n_pub s + match ppc s with PPublish _ _ => 1 | _ => 0 end.
Definition n_rd (s : ring) : nat := n_con s + match cpc s with CPublish _ _ => 1 | _ => 0 end.

Definition items (s : ring) : list Z :=
  sent s ++ match ppc s with PPublish item _ => [item] | _ => [] end.

Definition prod_ok (s : ring) : Prop :=
  match ppc s with
  | PFront _ tail => tail = u64 (Z.of_nat (n_pub s))
  | PWrite _ tail | PPublish _ tail =>
      tail = u64 (Z.of_nat (n_pub s)) /\ S (n_pub s) < pview s LRead + cap
  | _ => True
  end.

Definition cons_ok (s : ring) : Prop :=
  match cpc s with
  | CTail front => front = u64 (Z.of_nat (n_con s))
  | CRead front => front = u64 (Z.of_nat (n_con s)) /\ n_con s < cview s LWrite
  | CPublish item front =>
      front = u64 (Z.of_nat (n_con s)) /\ n_con s < cview s LWrite /\ sent s !! n_con s = Some item
  | _ => True
  end.

(** Slot of an item written and not yet read: the producer made the last
    access; whoever has seen the publication has seen it. *)
Record full_ok (s : ring) (i : nat) : Prop := {
  fo_prod : latest (pview s) (slot i) (mem s);
  fo_item : exists w, last (mem s (slot i)) = Some w /\ items s !! i = Some (w_val w);
  fo_pub n w : mem s LWrite !! n = Some w -> i < n -> latest (w_view w) (slot i) (mem s);
  fo_cons : i < cview s LWrite -> latest (cview s) (slot i) (mem s)
}.

(** Slot the item [i] will go to: the consumer made the last access; whoever
    has seen it consume [i - cap] has seen it. *)
Record empty_ok (s : ring) (i : nat) : Prop := {
  eo_cons : latest (cview s) (slot i) (mem s);
  eo_con m w : mem s LRead !! m = Some w -> i < m + cap -> latest (w_view w) (slot i) (mem s);
  eo_prod : i < pview s LRead + cap -> latest (pview s) (slot i) (mem s)
}.

Record ring_inv (s : ring) : Prop := {
  ri_pclosed : closed (pview s) (mem s);
  ri_cclosed : closed (cview s) (mem s);
  ri_mem : mem_closed (mem s);
  ri_wval n w : mem s LWrite !! n = Some w -> w_val w = u64 (Z.of_nat n);
  ri_rval n w : mem s LRead !! n = Some w -> w_val w = u64 (Z.of_nat n);
  ri_wself n w : mem s LWrite !! n = Some w -> w_view w LWrite <= n;
  ri_rself n w : mem s LRead !! n = Some w -> w_view w LRead <= n;
  ri_pw : latest (pview s) LWrite (mem s);
  ri_cr : latest (cview s) LRead (mem s);
  ri_order : n_con s <= cview s LWrite;
  ri_room : n_pub s < pview s LRead + cap;
  ri_sent : length (sent s) = n_pub s;
  ri_received : received s = take (n_con s) (sent s);
  ri_prod : prod_ok s;
  ri_cons : cons_ok s;
  ri_full i : n_rd s <= i < n_wr s -> full_ok s i;
  ri_empty i : n_wr s <= i < n_rd s + cap -> empty_ok s i
}.

Lemma slot_inj b i j : b <= i < b + cap -> b <= j < b + cap -> slot i = slot j -> i = j.
Proof.
  unfold slot, slot_at, cap. intros Hi Hj [= E]. apply mask_index_inj in E; lia.
Qed.

Lemma slot_u64 n : slot_at k (u64 (Z.of_nat n)) = slot n.
Proof. unfold slot, slot_at. by rewrite mask_index_u64. Qed.

Lemma slot_ne i : slot i <> LWrite /\ slot i <> LRead.
Proof. done. Qed.

Lemma cap_pos : 0 < cap.
Proof. unfold cap. pose proof (pow2_pos k). lia. Qed.

Lemma cap_bound : (Z.of_nat cap <= 2 ^ 64)%Z.
Proof. unfold cap. pose proof (pow2_pos k). rewrite Z2Nat.id by lia. apply Z.pow_le_mono_r; lia. Qed.

(** The test for a full ring, on an index that may be old. *)
Lemma ring_full_test n f :
  f <= n -> n < f + cap ->
  (Z.land (u64 (Z.of_nat n) ⊕ 1) (kMask k) =? Z.land (u64 (Z.of_nat f)) (kMask k))%Z = false ->
  S n < f + cap.
Proof.
  intros Hf Hn E. destruct (decide (S n = f + cap)) as [En|]; [|lia]. exfalso.
  apply Z.eqb_neq in E. apply E.
  assert (u64 (Z.of_nat n) ⊕ 1 = u64 (Z.of_nat n + 1)) as ->.
  { unfold add64, u64. apply Zplus_mod_idemp_l. }
  rewrite !land_u64 by done.
  unfold kMask. rewrite !land_mask. unfold cap in En. pose proof (pow2_pos k).
  replace (Z.of_nat n + 1)%Z with (Z.of_nat f + 1 * 2 ^ Z.of_nat k)%Z by lia.
  apply Z.mod_add. lia.
Qed.

(** The test for an empty ring. *)
Lemma ring_empty_test r t :
  r <= t -> t < r + cap -> (u64 (Z.of_nat r) =? u64 (Z.of_nat t))%Z = false -> r < t.
Proof.
  intros Hr Ht E. destruct (decide (r = t)) as [->|]; [|lia]. by rewrite Z.eqb_refl in E.
Qed.

Lemma ring_start_inv : ring_inv ring_start.
Proof.
  pose proof cap_pos. split; simpl; try done; try (intros l; simpl; unfold vbot; lia).
  - intros l w Hw. apply list_elem_of_singleton in Hw as ->. intros l'. simpl. unfold vbot. lia.
  - intros [|n] w; [|done]. by intros [= <-].
  - intros [|n] w; [|done]. by intros [= <-].
  - intros [|n] w; [|done]. by intros [= <-].
  - intros [|n] w; [|done]. by intros [= <-].
  - intros i Hi. unfold n_rd, n_wr in Hi. simpl in Hi. lia.
  - intros i Hi. split; try done. intros [|m] w; [|done]. by intros [= <-].
Qed.

(** ** Loads *)

Definition p_publishing (pc : prod_pc) : bool := if pc is PPublish _ _ then true else false.
Definition c_publishing (pc : cons_pc) : bool := if pc is CPublish _ _ then true else false.

(** The producer learns something and moves on. *)
Lemma inv_prod_view s T pc :
  ring_inv s -> closed T (mem s) -> vle (pview s) T ->
  (forall i, n_wr s <= i < n_rd s + cap -> i < T LRead + cap -> latest T (slot i) (mem s)) ->
  p_publishing (ppc s) = false -> p_publishing pc = false ->
  prod_ok (mkRing (mem s) T (cview s) pc (cpc s) (sent s) (received s)) ->
  ring_inv (mkRing (mem s) T (cview s) pc (cpc s) (sent s) (received s)).
Proof.
  intros Hi Hc Hle He Hp Hp' Hok.
  assert (Ew : forall s', ppc s' = pc -> mem s' = mem s -> n_wr s' = n_wr s).
  { intros s' E1 E2. unfold n_wr, n_pub. rewrite E1, E2. by destruct pc, (ppc s). }
  assert (Ei : forall s', ppc s' = pc -> sent s' = sent s -> items s' = items s).
  { intros s' E1 E2. unfold items. rewrite E1, E2. by destruct pc, (ppc s). }
  split; try exact Hok; try (apply Hi); try exact Hc; simpl.
  - eapply latest_mono; [done..|apply Hi].
  - pose proof (ri_room _ Hi). specialize (Hle LRead). unfold n_pub in *. simpl. lia.
  - intros i. rewrite Ew by done. intros Hr. destruct (ri_full _ Hi i Hr) as [H1 H2 H3 H4].
    split; simpl; try done; [by eapply latest_mono|]. by rewrite Ei.
  - intros i. rewrite Ew by done. intros Hr. destruct (ri_empty _ Hi i Hr) as [H1 H2 H3].
    split; simpl; try done. by apply He.
Qed.

Lemma inv_cons_view s T pc :
  ring_inv s -> closed T (mem s) -> vle (cview s) T ->
  (forall i, n_rd s <= i < n_wr s -> i < T LWrite -> latest T (slot i) (mem s)) ->
  c_publishing (cpc s) = false -> c_publishing pc = false ->
  cons_ok (mkRing (mem s) (pview s) T (ppc s) pc (sent s) (received s)) ->
  ring_inv (mkRing (mem s) (pview s) T (ppc s) pc (sent s) (received s)).
Proof.
  intros Hi Hc Hle He Hp Hp' Hok.
  assert (Er : forall s', cpc s' = pc -> mem s' = mem s -> n_rd s' = n_rd s).
  { intros s' E1 E2. unfold n_rd, n_con. rewrite E1, E2. by destruct pc, (cpc s). }
  split; try exact Hok; try (apply Hi); try exact Hc; simpl.
  - eapply latest_mono; [done..|apply Hi].
  - pose proof (ri_order _ Hi). specialize (Hle LWrite). unfold n_con in *. simpl. lia.
  - intros i. rewrite Er by done. intros Hr. destruct (ri_full _ Hi i Hr) as [H1 H2 H3 H4].
    split; simpl; try done. by apply He.
  - intros i. rewrite Er by done. intros Hr. destruct (ri_empty _ Hi i Hr) as [H1 H2 H3].
    split; simpl; try done. by eapply latest_mono.
Qed.

Lemma inv_prod_load s i s' :
  ring_inv s -> (exists item, ppc s = PTail item) \/ (exists item tail, ppc s = PFront item tail) ->
  prod_act k i s = Some s' -> ring_inv s'.
Proof.
  intros Hi Hpc Ha. unfold prod_act in Ha.
  assert (Hp : p_publishing (ppc s) = false) by (destruct Hpc as [(? & ->)|(? & ? & ->)]; done).
  destruct Hpc as [(item & E)|(item & tail & E)]; rewrite E in Ha.
  - destruct (load false LWrite i _ _) as [[tail T]|] eqn:El; simplify_eq/=.
    destruct (load_closed _ _ _ _ _ _ _ El (ri_pclosed _ Hi) (ri_mem _ Hi)) as [Hc Hle].
    apply load_spec in El as (w & Hw & -> & Hge & ET).
    apply inv_prod_view; try done.
    + subst T. intros j Hj Hlt. apply latest_vset_ne; [done|]. by apply (ri_empty _ Hi j Hj).
    + unfold prod_ok. simpl. rewrite (ri_wval _ Hi _ _ Hw). unfold n_pub. simpl. do 2 f_equal.
      apply lookup_lt_Some in Hw. pose proof (ri_pw _ Hi) as Hl. unfold latest in Hl. lia.
  - destruct (load true LRead i _ _) as [[front T]|] eqn:El; simplify_eq/=.
    destruct (load_closed _ _ _ _ _ _ _ El (ri_pclosed _ Hi) (ri_mem _ Hi)) as [Hc Hle].
    apply load_spec in El as (w & Hw & -> & Hge & ET).
    pose proof (lookup_lt_Some _ _ _ Hw) as Hlt. pose proof (ri_order _ Hi) as Hord.
    pose proof (ri_cclosed _ Hi LWrite) as Hcw. pose proof (ri_room _ Hi) as Hroom.
    pose proof (Hle LRead) as HleR.
    apply inv_prod_view; try done.
    + intros j Hj Hjl. destruct (ri_empty _ Hi j Hj) as [H1 H2 H3].
      destruct (decide (j < pview s LRead + cap)) as [Hd|Hd]; [eapply latest_mono; eauto|].
      rewrite ET in *. eapply latest_mono; [done|apply vjoin_r|]. apply (H2 i w Hw).
      unfold vjoin in Hjl. rewrite vset_eq in Hjl. pose proof (ri_rself _ Hi _ _ Hw). lia.
    + by destruct (_ =? _)%Z.
    + pose proof (ri_prod _ Hi) as Hprod. unfold prod_ok in *. rewrite E in Hprod. simpl.
      rewrite (ri_rval _ Hi _ _ Hw). destruct (_ =? _)%Z eqn:Et; [done|]. unfold n_pub in *. simpl.
      split; [done|]. rewrite Hprod in Et. unfold n_con in *.
      assert (i <= T LRead) by (rewrite ET; unfold vjoin; rewrite vset_eq; lia).
      apply ring_full_test in Et; lia.
Qed.

Lemma inv_cons_load s i s' :
  ring_inv s -> cpc s = CFront \/ (exists front, cpc s = CTail front) ->
  cons_act k i s = Some s' -> ring_inv s'.
Proof.
  intros Hi Hpc Ha. unfold cons_act in Ha.
  assert (Hp : c_publishing (cpc s) = false) by (destruct Hpc as [->|(? & ->)]; done).
  destruct Hpc as [E|(front & E)]; rewrite E in Ha.
  - destruct (load false LRead i _ _) as [[front T]|] eqn:El; simplify_eq/=.
    destruct (load_closed _ _ _ _ _ _ _ El (ri_cclosed _ Hi) (ri_mem _ Hi)) as [Hc Hle].
    apply load_spec in El as (w & Hw & -> & Hge & ET).
    apply inv_cons_view; try done.
    + subst T. intros j Hj Hlt. apply latest_vset_ne; [done|]. by apply (ri_full _ Hi j Hj).
    + unfold cons_ok. simpl. rewrite (ri_rval _ Hi _ _ Hw). unfold n_con. simpl. do 2 f_equal.
      apply lookup_lt_Some in Hw. pose proof (ri_cr _ Hi) as Hl. unfold latest in Hl. lia.
  - destruct (load true LWrite i _ _) as [[tail T]|] eqn:El; simplify_eq/=.
    destruct (load_closed _ _ _ _ _ _ _ El (ri_cclosed _ Hi) (ri_mem _ Hi)) as [Hc Hle].
    apply load_spec in El as (w & Hw & -> & Hge & ET).
    pose proof (lookup_lt_Some _ _ _ Hw) as Hlt. pose proof (ri_order _ Hi) as Hord.
    pose proof (ri_pclosed _ Hi LRead) as Hpr. pose proof (ri_room _ Hi) as Hroom.
    apply inv_cons_view; try done.
    + intros j Hj Hjl. destruct (ri_full _ Hi j Hj) as [H1 H2 H3 H4].
      rewrite ET in *. eapply latest_mono; [done|apply vjoin_r|]. apply (H3 i w Hw).
      unfold vjoin in Hjl. rewrite vset_eq in Hjl. pose proof (ri_wself _ Hi _ _ Hw). lia.
    + by destruct (_ =? _)%Z.
    + pose proof (ri_cons _ Hi) as Hcons. unfold cons_ok in *. rewrite E in Hcons. simpl.
      rewrite (ri_wval _ Hi _ _ Hw). destruct (_ =? _)%Z eqn:Et; [done|]. unfold n_con in *. simpl.
      split; [done|]. rewrite Hcons in Et. unfold n_pub in *.
      assert (i <= T LWrite) by (rewrite ET; unfold vjoin; rewrite vset_eq; lia).
      apply ring_empty_test in Et; lia.
Qed.

(** ** Slots and publications *)

Lemma closed_vbot T (M : memory location Z) : closed T M -> closed vbot M.
Proof. intros Hc l. specialize (Hc l). unfold vbot. lia. Qed.

(** An access to the slot of item [n] does not touch the slots of the others. *)
Lemma full_frame s s' n w i :
  full_ok s i -> slot i <> slot n -> mem s' = append (slot n) w (mem s) ->
  (pview s' = pview s \/ pview s' = vset (slot n) (length (mem s (slot n))) (pview s)) ->
  (cview s' = cview s \/ cview s' = vset (slot n) (length (mem s (slot n))) (cview s)) ->
  (forall x, items s !! i = Some x -> items s' !! i = Some x) -> full_ok s' i.
Proof.
  intros [H1 (x & Hx & Hit) H3 H4] Hne Em Ep Ec Hi. split; rewrite Em.
  - apply latest_append_ne; [done|]. destruct Ep as [->| ->]; [done|]. by apply latest_vset_ne.
  - exists x. rewrite append_ne by done. split; [done|]. by apply Hi.
  - intros m y Hy Hlt. rewrite append_ne in Hy by done. apply latest_append_ne; [done|]. by eapply H3.
  - intros Hlt. apply latest_append_ne; [done|].
    destruct Ec as [E|E]; rewrite E in *; [by apply H4|].
    rewrite vset_ne in Hlt by done. apply latest_vset_ne; [done|]. by apply H4.
Qed.

Lemma empty_frame s s' n w i :
  empty_ok s i -> slot i <> slot n -> mem s' = append (slot n) w (mem s) ->
  (pview s' = pview s \/ pview s' = vset (slot n) (length (mem s (slot n))) (pview s)) ->
  (cview s' = cview s \/ cview s' = vset (slot n) (length (mem s (slot n))) (cview s)) ->
  empty_ok s' i.
Proof.
  intros [H1 H2 H3] Hne Em Ep Ec. split; rewrite Em.
  - apply latest_append_ne; [done|]. destruct Ec as [->| ->]; [done|]. by apply latest_vset_ne.
  - intros m y Hy Hlt. rewrite append_ne in Hy by done. apply latest_append_ne; [done|]. by eapply H2.
  - intros Hlt. apply latest_append_ne; [done|].
    destruct Ep as [E|E]; rewrite E in *; [by apply H3|].
    rewrite vset_ne in Hlt by done. apply latest_vset_ne; [done|]. by apply H3.
Qed.

(** The counts of both sides, in range. *)
Lemma inv_counts s :
  ring_inv s -> n_con s <= n_pub s /\ n_wr s <= n_con s + cap /\ n_rd s <= n_wr s /\
  pview s LRead <= n_con s /\ cview s LWrite <= n_pub s /\
  0 < length (mem s LWrite) /\ 0 < length (mem s LRead).
Proof.
  intros Hi. pose proof (ri_order _ Hi). pose proof (ri_room _ Hi).
  pose proof (ri_cclosed _ Hi LWrite). pose proof (ri_pclosed _ Hi LRead).
  pose proof (ri_prod _ Hi) as Hp. pose proof (ri_cons _ Hi) as Hc.
  unfold prod_ok, cons_ok, n_wr, n_rd, n_pub, n_con in *.
  destruct (ppc s), (cpc s); simpl in *; lia.
Qed.

Lemma inv_prod_write s i item tail s' :
  ring_inv s -> ppc s = PWrite item tail -> prod_act k i s = Some s' -> ring_inv s'.
Proof.
  intros Hi E Ha. unfold prod_act in Ha. rewrite E in Ha.
  pose proof (ri_prod _ Hi) as Hok. unfold prod_ok in Hok. rewrite E in Hok. destruct Hok as [Et Hroom].
  destruct (inv_counts s Hi) as (Hc1 & Hc2 & Hc3 & Hc4 & Hc5 & Hc6 & Hc7).
  assert (Ew : n_wr s = n_pub s) by (unfold n_wr; rewrite E; lia).
  assert (Er : n_con s <= n_rd s) by (unfold n_rd; lia).
  assert (Hsl : slot_at k tail = slot (n_pub s)) by by rewrite Et, slot_u64.
  destruct (access_latest (slot (n_pub s)) (fun _ => item) (pview s) (mem s)) as (w & _ & Eacc).
  { apply (ri_empty _ Hi); lia. }
  rewrite Hsl, Eacc in Ha. simplify_eq/=.
  assert (Hdis : forall j, n_rd s <= j < n_rd s + cap -> j <> n_pub s -> slot j <> slot (n_pub s)).
  { intros j Hj Hne Es. apply Hne. eapply slot_inj; [exact Hj| |exact Es]. lia. }
  pose proof (closed_vbot _ _ (ri_pclosed _ Hi)) as Hbot.
  split; simpl; try (apply Hi).
  - apply closed_new, Hi.
  - apply closed_append, Hi.
  - apply mem_closed_append; [apply Hi|]. by apply closed_append.
  - unfold prod_ok, n_pub. simpl. rewrite vset_ne by done. done.
  - intros j. unfold n_wr, n_rd. simpl. intros Hj.
    change (n_rd s <= j < n_pub s + 1) in Hj.
    destruct (decide (j = n_pub s)) as [->|Hne].
    + split; simpl.
      * apply latest_new.
      * eexists. split; [apply last_append|]. unfold items. simpl.
        rewrite list_lookup_middle; [done|]. by rewrite (ri_sent _ Hi).
      * intros m y Hy Hlt. rewrite append_ne in Hy by done. apply lookup_lt_Some in Hy.
        unfold n_pub in Hlt. lia.
      * intros Hlt. lia.
    + apply (full_frame s _ (n_pub s) (mkWrite item vbot)); simpl; try done; try tauto.
      * apply (ri_full _ Hi). lia.
      * apply Hdis; lia.
      * intros x Hx. unfold items in *. rewrite E, app_nil_r in Hx. simpl. by apply lookup_app_l_Some.
  - intros j. unfold n_wr, n_rd. simpl. intros Hj.
    change (n_pub s + 1 <= j < n_rd s + cap) in Hj.
    apply (empty_frame s _ (n_pub s) (mkWrite item vbot)); simpl; try done; try tauto.
    + apply (ri_empty _ Hi). lia.
    + apply Hdis; lia.
Qed.

Lemma u64_succ n : u64 (Z.of_nat n) ⊕ 1 = u64 (Z.of_nat (S n)).
Proof. unfold add64, u64. rewrite Zplus_mod_idemp_l. f_equal. lia. Qed.

Lemma inv_prod_publish s i item tail s' :
  ring_inv s -> ppc s = PPublish item tail -> prod_act k i s = Some s' -> ring_inv s'.
Proof.
  intros Hi E Ha. unfold prod_act in Ha. rewrite E in Ha.
  pose proof (ri_prod _ Hi) as Hok. unfold prod_ok in Hok. rewrite E in Hok. destruct Hok as [Et Hroom].
  destruct (inv_counts s Hi) as (Hc1 & Hc2 & Hc3 & Hc4 & Hc5 & Hc6 & Hc7).
  assert (Ew : n_wr s = S (n_pub s)) by (unfold n_wr; rewrite E; lia).
  assert (Elen : length (mem s LWrite) = S (n_pub s)) by (unfold n_pub; lia).
  unfold store in Ha. simplify_eq/=. rewrite Elen, u64_succ.
  set (T := vset LWrite (S (n_pub s)) (pview s)).
  set (w := mkWrite (u64 (Z.of_nat (S (n_pub s)))) T).
  set (s' := mkRing _ _ _ _ _ _ _).
  assert (Epub : n_pub s' = S (n_pub s)).
  { unfold n_pub at 1. simpl. rewrite append_eq, length_app, Elen. simpl. lia. }
  assert (Ewr : n_wr s' = n_wr s) by (unfold n_wr at 1; rewrite Epub; simpl; lia).
  assert (Eit : items s' = items s) by (unfold items; simpl; by rewrite E, app_nil_r).
  assert (HT : closed T (append LWrite w (mem s))) by (unfold T; rewrite <- Elen; apply closed_new, Hi).
  split; try (apply Hi); simpl; try done.
  - apply closed_append, Hi.
  - by apply mem_closed_append; [apply Hi|].
  - intros n x Hx. apply append_lookup_inv in Hx as [Hx|(_ & -> & ->)]; [by apply (ri_wval _ Hi)|].
    by rewrite Elen.
  - intros n x Hx. apply append_lookup_inv in Hx as [Hx|(_ & -> & ->)]; [by apply (ri_wself _ Hi)|].
    simpl. unfold T. rewrite vset_eq. lia.
  - unfold latest, T. by rewrite vset_eq, append_eq, length_app, Elen, Nat.add_comm.
  - rewrite Epub. done.
  - rewrite Epub, length_app, (ri_sent _ Hi). simpl. lia.
  - rewrite take_app_le; [apply Hi|]. rewrite (ri_sent _ Hi). done.
  - pose proof (ri_cons _ Hi) as Hcons. unfold cons_ok in *. simpl. destruct (cpc s); try done.
    destruct Hcons as (? & ? & ?). split_and!; try done. by apply lookup_app_l_Some.
  - intros j Hj. rewrite Ewr in Hj. destruct (ri_full _ Hi j Hj) as [H1 H2 H3 H4].
    split; simpl; try done; [by rewrite Eit|].
    intros n x Hx Hlt. apply append_lookup_inv in Hx as [Hx|(_ & -> & ->)].
    + apply latest_append_ne; [done|]. by eapply H3.
    + apply latest_append_ne; [done|]. simpl. by apply latest_vset_ne.
  - intros j Hj. rewrite Ewr in Hj. destruct (ri_empty _ Hi j Hj) as [H1 H2 H3]. by split.
Qed.

Lemma inv_cons_read s i front s' :
  ring_inv s -> cpc s = CRead front -> cons_act k i s = Some s' -> ring_inv s'.
Proof.
  intros Hi E Ha. unfold cons_act in Ha. rewrite E in Ha.
  pose proof (ri_cons _ Hi) as Hok. unfold cons_ok in Hok. rewrite E in Hok. destruct Hok as [Et Hlt].
  destruct (inv_counts s Hi) as (Hc1 & Hc2 & Hc3 & Hc4 & Hc5 & Hc6 & Hc7).
  assert (Er : n_rd s = n_con s) by (unfold n_rd; rewrite E; lia).
  assert (Ew : n_pub s <= n_wr s) by (unfold n_wr; lia).
  assert (Hsl : slot_at k front = slot (n_con s)) by by rewrite Et, slot_u64.
  destruct (ri_full _ Hi (n_con s) ltac:(lia)) as [Hf1 (w & Hw & Hit) _ Hf4].
  destruct (access_latest (slot (n_con s)) id (cview s) (mem s) (Hf4 Hlt)) as (w' & Hw' & Eacc).
  rewrite Hsl, Eacc in Ha. simplify_eq/=.
  assert (Hdis : forall j, n_con s <= j < n_con s + cap -> j <> n_con s -> slot j <> slot (n_con s)).
  { intros j Hj Hne Es. apply Hne. eapply slot_inj; [exact Hj| |exact Es]. lia. }
  pose proof (closed_vbot _ _ (ri_pclosed _ Hi)) as Hbot.
  set (s' := mkRing _ _ _ _ _ _ _).
  assert (Erd : n_rd s' = S (n_con s)) by (unfold n_rd, n_con; simpl; rewrite append_ne by done; lia).
  split; try (apply Hi); simpl.
  - apply closed_append, Hi.
  - apply closed_new, Hi.
  - apply mem_closed_append; [apply Hi|]. by apply closed_append.
  - unfold cons_ok, n_con. simpl. rewrite vset_ne by done. split_and!; [done|done|].
    unfold items in Hit. rewrite lookup_app_l in Hit; [done|]. rewrite (ri_sent _ Hi). unfold n_con in *. lia.
  - intros j. rewrite Erd. change (n_wr s') with (n_wr s). intros Hj.
    apply (full_frame s _ (n_con s) (mkWrite (w_val w) vbot)); simpl; try done; try tauto.
    + apply (ri_full _ Hi). lia.
    + apply Hdis; lia.
  - intros j. rewrite Erd. change (n_wr s') with (n_wr s). intros Hj.
    destruct (decide (j = n_con s + cap)) as [->|Hne].
    + assert (Es : slot (n_con s + cap) = slot (n_con s)).
      { unfold slot, slot_at, cap. rewrite Nat2Z.inj_add, Z2Nat.id by (pose proof (pow2_pos k); lia).
        unfold kMask. by rewrite mask_index_lap. }
      split; rewrite Es; simpl.
      * apply latest_new.
      * intros m x Hx Hm. rewrite append_ne in Hx by done. apply lookup_lt_Some in Hx.
        unfold n_con in Hm. simpl in *. lia.
      * intros Hm. lia.
    + apply (empty_frame s _ (n_con s) (mkWrite (w_val w) vbot)); simpl; try done; try tauto.
      * apply (ri_empty _ Hi). lia.
      * apply Hdis; lia.
Qed.

Lemma inv_cons_publish s i item front s' :
  ring_inv s -> cpc s = CPublish item front -> cons_act k i s = Some s' -> ring_inv s'.
Proof.
  intros Hi E Ha. unfold cons_act in Ha. rewrite E in Ha.
  pose proof (ri_cons _ Hi) as Hok. unfold cons_ok in Hok. rewrite E in Hok.
  destruct Hok as (Et & Hlt & Hit).
  destruct (inv_counts s Hi) as (Hc1 & Hc2 & Hc3 & Hc4 & Hc5 & Hc6 & Hc7).
  assert (Er : n_rd s = S (n_con s)) by (unfold n_rd; rewrite E; lia).
  assert (Elen : length (mem s LRead) = S (n_con s)) by (unfold n_con; lia).
  unfold store in Ha. simplify_eq/=. rewrite Elen, u64_succ.
  set (T := vset LRead (S (n_con s)) (cview s)).
  set (w := mkWrite (u64 (Z.of_nat (S (n_con s)))) T).
  set (s' := mkRing _ _ _ _ _ _ _).
  assert (Econ : n_con s' = S (n_con s)).
  { unfold n_con at 1. simpl. rewrite append_eq, length_app, Elen. simpl. lia. }
  assert (Erd : n_rd s' = n_rd s) by (unfold n_rd at 1; rewrite Econ; simpl; lia).
  assert (HT : closed T (append LRead w (mem s))) by (unfold T; rewrite <- Elen; apply closed_new, Hi).
  split; try (apply Hi); simpl; try done.
  - apply closed_append, Hi.
  - by apply mem_closed_append; [apply Hi|].
  - intros n x Hx. apply append_lookup_inv in Hx as [Hx|(_ & -> & ->)]; [by apply (ri_rval _ Hi)|].
    by rewrite Elen.
  - intros n x Hx. apply append_lookup_inv in Hx as [Hx|(_ & -> & ->)]; [by apply (ri_rself _ Hi)|].
    simpl. unfold T. rewrite vset_eq. lia.
  - unfold latest, T. by rewrite vset_eq, append_eq, length_app, Elen, Nat.add_comm.
  - rewrite Econ. unfold T. by rewrite vset_ne.
  - rewrite Econ, (ri_received _ Hi). symmetry. by apply take_S_r.
  - intros j Hj. rewrite Erd in Hj. by destruct (ri_full _ Hi j Hj) as [H1 H2 H3 H4].
  - intros j Hj. rewrite Erd in Hj. destruct (ri_empty _ Hi j Hj) as [H1 H2 H3].
    split; simpl; try done.
    intros n x Hx Hj2. apply append_lookup_inv in Hx as [Hx|(_ & -> & ->)].
    + apply latest_append_ne; [done|]. by eapply H2.
    + apply latest_append_ne; [done|]. simpl. by apply latest_vset_ne.
Qed.

Lemma ring_step_inv s s' : ring_inv s -> ring_step k s s' -> ring_inv s'.
Proof.
  intros Hi [c Ha]. destruct c as [item|i| |i]; simpl in Ha.
  - destruct (ppc s) eqn:E; simplify_eq. destruct Hi as [].
    unfold n_wr, items in *. split; simpl; try done.
    + intros j Hj. unfold n_wr, n_rd in *. rewrite E in *. destruct (ri_full0 j Hj) as [H1 H2 H3 H4].
      split; try done. unfold items in *. by rewrite E in H2.
    + intros j Hj. unfold n_wr, n_rd in *. rewrite E in *. by destruct (ri_empty0 j Hj).
  - destruct (ppc s) as [|item|item tail|item tail|item tail] eqn:E.
    + unfold prod_act in Ha. by rewrite E in Ha.
    + eapply inv_prod_load; eauto.
    + eapply inv_prod_load; eauto.
    + by eapply inv_prod_write.
    + by eapply inv_prod_publish.
  - destruct (cpc s) eqn:E; simplify_eq. destruct Hi as []. split; simpl; try done.
    + intros j Hj. unfold n_wr, n_rd in *. rewrite E in *. by destruct (ri_full0 j Hj).
    + intros j Hj. unfold n_wr, n_rd in *. rewrite E in *. by destruct (ri_empty0 j Hj).
  - destruct (cpc s) as [| |front|front|item front] eqn:E.
    + unfold cons_act in Ha. by rewrite E in Ha.
    + eapply inv_cons_load; eauto.
    + eapply inv_cons_load; eauto.
    + by eapply inv_cons_read.
    + by eapply inv_cons_publish.
Qed.

Lemma ring_reachable_inv s : reachable ring_init (ring_step k) s -> ring_inv s.
Proof.
  revert s. apply reachable_ind; [intros s ->; apply ring_start_inv|].
  intros s s' _. apply ring_step_inv.
Qed.

End Invariant.

(** C14. With the memory orders of the code, a producer and a consumer that run
    at the same time never race on a slot, although each may read an old value
    of the other's index; the items handed out are the items accepted, in
    order and without a gap, and fewer than [N] items are waiting. *)
Theorem spsc_release_acquire (k : nat) (s : ring) :
  (k <= 64)%nat -> reachable ring_init (ring_step k) s ->
  racy k s = false /\
  received s `prefix_of` sent s /\
  (Z.of_nat (length (sent s)) < Z.of_nat (length (received s)) + 2 ^ Z.of_nat k)%Z.
Proof.
  intros Hk Hr. apply (ring_reachable_inv k Hk) in Hr as Hi.
  destruct (inv_counts k Hk s Hi) as (Hc1 & Hc2 & Hc3 & Hc4 & Hc5 & _).
  split; [|split].
  - unfold racy. apply orb_false_iff. split.
    + pose proof (ri_prod _ _ Hi) as Hok. unfold prod_ok in Hok. destruct (ppc s) eqn:E; try done.
      destruct Hok as [-> Hroom]. rewrite slot_u64 by done. rewrite exclusive_latest; [done|].
      apply (ri_empty _ _ Hi); unfold n_wr, n_rd in *; rewrite E in *; lia.
    + pose proof (ri_cons _ _ Hi) as Hok. unfold cons_ok in Hok. destruct (cpc s) eqn:E; try done.
      destruct Hok as [-> Hlt]. rewrite slot_u64 by done. rewrite exclusive_latest; [done|].
      apply (ri_full _ _ Hi); unfold n_wr, n_rd in *; rewrite E in *; lia.
  - rewrite (ri_received _ _ Hi). apply prefix_take.
  - rewrite (ri_received _ _ Hi), length_take, (ri_sent _ _ Hi). pose proof (ri_room _ _ Hi) as Hroom.
    unfold cap in Hroom. pose proof (pow2_pos k). lia.
Qed.

(** One item through a ring of two slots; the consumer first reads the old
    write index and finds the ring empty. *)
Definition late_schedule : list choice :=
  [CallEnqueue 7; ProdGo 0; ProdGo 0; ProdGo 0; ProdGo 0;
   CallDequeue; ConsGo 0; ConsGo 0; CallDequeue; ConsGo 0; ConsGo 1; ConsGo 0; ConsGo 0].

Lemma spsc_release_acquire_witness :
  exists s, run_schedule (ring_act 1) late_schedule ring_start = Some s /\
    racy 1 s = false /\ received s `prefix_of` sent s /\ received s = [7%Z].
Proof.
  destruct (run_schedule (ring_act 1) late_schedule ring_start) as [s|] eqn:E.
  - exists s. destruct (spsc_release_acquire 1 s) as (H1 & H2 & _).
    + lia.
    + apply (run_schedule_reachable ring_init (ring_step 1) (ring_act 1)) with late_schedule ring_start.
      * intros c x y Ha. exists c. exact Ha.
      * apply reachable_init. reflexivity.
      * exact E.
    + split; [reflexivity|]. split; [exact H1|]. split; [exact H2|].
      vm_compute in E. injection E as <-. reflexivity.
  - vm_compute in E. discriminate.
Defined.
End SpscConc.
