(* ===== verification/MailBoxWeak.v ===== *)
(** * Sleeping and waking the consumer of a mailbox, under release/acquire

    The protocol of MailBoxConc.v with the memory orders of include/mail_box.h,
    include/queue.h and src/core/mail_box.cc: loads may return old values, and
    only acquire operations pass on what another thread has done. Each ticket
    of the queue has a cell: 0 before its message is published, 1 after (the
    sequence number of its slot, whose older values the consumer overwrote
    itself). Loads of [read_index_] and of a sequence number in one call are one
    step: what the first may return, it may still return at the time of the
    second. A thread starts a call with the empty view, which allows most; a
    coroutine is resumed with the view of the thread that scheduled it, which
    the run queues pass on. *)

From Stdlib Require Import Lia.
From stdpp Require Import base list relations gmap.
From S2P Require Import Prelude WeakMem.

Module WakeWeak.

Inductive location := LCell (w : nat) | LRead | LSched | LConsumer.

#[global] Instance location_eq_dec : EqDecision location.
Proof. solve_decision. Defined.

(** The agents of MailBoxConc.v. *)
Inductive agent :=
  | SEnqueue
  | SPublish (w : nat)
  | SExchange
  | SLoadConsumer
  | SSchedule
  | CMarkRunning
  | CRun
  | CReady
  | CStoreConsumer
  | CClear
  | RCheck
  | RExchange
  | CDone.

#[global] Instance agent_eq_dec : EqDecision agent.
Proof. solve_decision. Defined.

Record mailbox := mkW {
  mem : memory location nat;
  tickets : nat;              (* tickets given out *)
  runq : list (view location);
  started : bool;
  agents : gmap nat (agent * view location)
}.

Definition move (t : nat) (a : agent) (T : view location) (s : mailbox) : mailbox :=
  mkW (mem s) (tickets s) (runq s) (started s) (<[t := (a, T)]> (agents s)).

Definition leave (t : nat) (s : mailbox) : mailbox :=
  mkW (mem s) (tickets s) (runq s) (started s) (delete t (agents s)).

Definition with_mem (M : memory location nat) (s : mailbox) : mailbox :=
  mkW M (tickets s) (runq s) (started s) (agents s).

(** The loads of [try_dequeue] and [can_dequeue]: the index and whether its
    message is published. *)
Definition look (i j : nat) (T : view location) (M : memory location nat)
    : option (nat * bool * view location) :=
  '(r, T1) ← load false LRead i T M;
  '(v, T2) ← load true (LCell r) j T1 M;
  Some (r, v =? 1, T2).

(** The next step of agent [a] of thread [t], whose view is [T]; [i] and [j]
    choose what loads return, [b] is what the step leaves open otherwise. *)
Definition agent_act (t : nat) (a : agent) (T : view location) (i j : nat) (b : bool) (s : mailbox)
    : option mailbox :=
  match a with
  | SEnqueue =>
      if b then Some (leave t s)
      else Some (mkW (mem s) (S (tickets s)) (runq s) (started s) (<[t := (SPublish (tickets s), T)]> (agents s)))
  | SPublish w =>
      let (T', M) := store true (LCell w) 1 T (mem s) in
      Some (move t SExchange T' (with_mem M s))
  | SExchange =>
      '(old, T', M) ← exchange LSched 1 T (mem s);
      Some (if old =? 1 then leave t (with_mem M s) else move t SLoadConsumer T' (with_mem M s))
  | SLoadConsumer =>
      '(h, T') ← load false LConsumer i T (mem s);
      Some (if h =? 0 then leave t s else move t SSchedule T' s)
  | SSchedule =>
      Some (leave t (mkW (mem s) (tickets s) (runq s ++ [T]) (started s) (agents s)))
  | CMarkRunning =>
      let (T', M) := store true LSched 1 T (mem s) in
      Some (move t CRun T' (with_mem M s))
  | CRun =>
      if b then Some (move t CDone T s)
      else
        '(r, published, T1) ← look i j T (mem s);
        if (published : bool) then
          let (T2, M) := store false LRead (S r) T1 (mem s) in
          Some (move t CRun T2 (with_mem M s))
        else Some (move t CReady T1 s)
  | CReady =>
      '(_, published, T1) ← look i j T (mem s);
      Some (move t (if (published : bool) then CRun else CStoreConsumer) T1 s)
  | CStoreConsumer =>
      let (T', M) := store false LConsumer 1 T (mem s) in
      Some (move t CClear T' (with_mem M s))
  | CClear =>
      '(_, T', M) ← exchange LSched 0 T (mem s);
      Some (move t RCheck T' (with_mem M s))
  | RCheck =>
      '(_, published, T1) ← look i j T (mem s);
      Some (if (published : bool) then move t RExchange T1 s else leave t s)
  | RExchange =>
      '(old, T', M) ← exchange LSched 1 T (mem s);
      Some (if old =? 1 then leave t (with_mem M s) else move t CRun T' (with_mem M s))
  | CDone => None
  end.

Inductive choice :=
  | Begin (t : nat)                       (* a thread calls [Send] *)
  | Resume (t : nat)                      (* a worker resumes the coroutine *)
  | Go (t : nat) (i j : nat) (b : bool).

Definition wake_act (c : choice) (s : mailbox) : option mailbox :=
  match c with
  | Begin t =>
      match agents s !! t with
      | Some _ => None
      | None => Some (move t SEnqueue vbot s)
      end
  | Resume t =>
      match agents s !! t, runq s with
      | None, V :: rest =>
          Some (move t (if started s then CRun else CMarkRunning) V
                  (mkW (mem s) (tickets s) rest true (agents s)))
      | _, _ => None
      end
  | Go t i j b => '(a, T) ← agents s !! t; agent_act t a T i j b s
  end.

Definition wake_step (s s' : mailbox) : Prop := exists c, wake_act c s = Some s'.

(** A new mailbox; [armed]: after [ArmConsumer]. *)
Definition start_mem (armed : bool) : memory location nat := fun l =>
  match l with
  | LSched | LConsumer => [mkWrite (if armed then 1 else 0) vbot]
  | _ => [mkWrite 0 vbot]
  end.

(** The coroutine was put into a run queue for the first time. *)
Definition start (armed : bool) : mailbox := mkW (start_mem armed) 0 [vbot] false ∅.

Definition armed_start : mailbox := start true.



(** Tickets consumed. *)
Definition consumed (s : mailbox) : nat := pred (length (mem s LRead)).

Definition last_val (l : location) (M : memory location nat) : nat := default 0 (w_val <$> last (M l)).

(** ** [MarkRunning] can lose a message *)

(** A sender finds [scheduled_] set by [ArmConsumer]; then the coroutine starts,
    overwrites the sender's [exchange] with [MarkRunning], reads the old
    sequence number three times and goes to sleep. *)
Definition lost_schedule : list choice :=
  [Begin 1; Go 1 0 0 false; Go 1 0 0 false; Go 1 0 0 false;
   Resume 2; Go 2 0 0 false; Go 2 0 0 false; Go 2 0 0 false; Go 2 0 0 false; Go 2 0 0 false;
   Go 2 0 0 false].

(** C34. Under the memory orders of the code, [MarkRunning] can lose a message:
    it is a plain store to [scheduled_], so the [exchange] by which the consumer
    goes to sleep reads that store and not the [exchange] of a sender that came
    between [ArmConsumer] and [MarkRunning]. The consumer need not see the
    message then; the state reached has a published message, nobody inside a
    call, no run queue holding the coroutine, and [scheduled_] clear. *)
Theorem mark_running_loses_message :
  exists s, reachable (fun s => s = armed_start) wake_step s /\
    agents s = ∅ /\ runq s = [] /\ tickets s = 1 /\ consumed s = 0 /\
    last_val (LCell 0) (mem s) = 1 /\ last_val LSched (mem s) = 0.
Proof.
  destruct (run_schedule wake_act lost_schedule armed_start) as [s|] eqn:E.
  - exists s. split.
    + apply (run_schedule_reachable _ wake_step wake_act) with lost_schedule armed_start.
      * intros c x y Ha. by exists c.
      * by apply reachable_init.
      * done.
    + vm_compute in E. injection E as <-. split_and!; reflexivity.
  - vm_compute in E. discriminate.
Qed.

(** ** Who knows what *)

Definition published (w : nat) (M : memory location nat) : Prop := length (M (LCell w)) = 2.



(** What the right to run comes with: the newest [read_index_], and, when it
    came from a sleeping coroutine, its handle. *)
Definition entitled (a : agent) (T : view location) (M : memory location nat) : Prop :=
  latest T LRead M /\ match a with SLoadConsumer | CClear => 1 <= T LConsumer | _ => True end.










(** ** One agent moves *)










(** ** What the loads of the queue say *)



(** ** Operations on [scheduled_] *)





Lemma entitled_le a T T' M :
  closed T' M -> vle T T' -> entitled a T M -> entitled a T' M.
Proof.
  intros Hc Hle [H1 H2]. split; [by eapply latest_mono|]. specialize (Hle LConsumer). destruct a; try done; lia.
Qed.












(** ** Stores of the one that holds the right to run *)




(** ** Senders *)






(** ** The run queue *)



(** ** Every step *)













End WakeWeak.
