(* ===== verification/WorkStealingWeak.v ===== *)
(** * The owner and the thieves of a deque, under release/acquire

    [push], [pop] and [steal] of [WorkStealingQueue] (include/queue.h) access by
    access on the memory of WeakMem, with the orders and the fences of the
    code. The owner's relaxed stores publish what it knew at its last fence
    ([orel]); a seq_cst fence joins the view of its thread with the view of all
    earlier such fences ([sc]). A seq_cst compare-exchange is taken as acq_rel,
    which allows more executions. The theorem: whatever the threads see, the
    calls return what a sequential deque returns. *)

From Stdlib Require Import ZArith Lia.
From stdpp Require Import base list list_numbers relations gmap.
From S2P Require Import Prelude WorkStealing WeakMem.

Local Open Scope Z_scope.
Local Open Scope u64_scope.

Module WsWeak.

(** [LFrame h]: the frame of coroutine [h], which is not atomic. *)
Inductive location := LTop | LBottom | LSlot (j : nat) | LFrame (h : Z).

#[global] Instance location_eq_dec : EqDecision location.
Proof. solve_decision. Defined.

(** The owner in [push] or [pop], a thief in [steal]; the values are locals. *)
Inductive owner_pc :=
  | OIdle
  | PushLoadBottom (h : Z)
  | PushLoadTop (h bt : Z)
  | PushStoreSlot (h bt : Z)
  | PushFence (h bt : Z)
  | PushStoreBottom (h bt : Z)
  | PopLoadBottom
  | PopStoreBottom (bt : Z)
  | PopFence (bt : Z)
  | PopLoadTop (bt : Z)
  | PopLoadSlot (bt tp : Z)
  | PopCas (bt tp ptr : Z)
  | PopRestore (bt ptr : Z).

Inductive thief_pc :=
  | TLoadTop
  | TFence (tp : Z)
  | TLoadBottom (tp : Z)
  | TLoadSlot (tp : Z)
  | TCas (tp ptr : Z).

(** What calls returned. A push records what its thread knew, a steal what
    the thief knows when it has the handle. *)
Inductive event :=
  | EPush (h : Z) (V : view location)
  | EPop (h : Z)
  | EPopEmpty
  | ESteal (h : Z) (V : view location).

Record deque := mkD {
  mem : memory location Z;
  sc : view location;
  oview : view location;
  orel : view location;
  owner : owner_pc;
  thieves : gmap nat (thief_pc * view location);
  log : list event
}.

Section Steps.
Context (k : nat).

Definition slot (i : Z) : location := LSlot (mask_index i (kMask k)).

(** The owner goes on at [pc] with view [T]. *)
Definition owner_to (pc : owner_pc) (T : view location) (s : deque) : deque :=
  mkD (mem s) (sc s) T (orel s) pc (thieves s) (log s).

Definition owner_returns (pc : owner_pc) (e : event) (s : deque) : deque :=
  mkD (mem s) (sc s) (oview s) (orel s) pc (thieves s) (log s ++ [e]).

Definition with_mem (M : memory location Z) (s : deque) : deque :=
  mkD M (sc s) (oview s) (orel s) (owner s) (thieves s) (log s).

Definition pop_event (ptr : Z) : event :=
  match pop_result ptr with kSuccess => EPop ptr | _ => EPopEmpty end.

(** [i]: which write a load returns. *)
Definition owner_act (i : nat) (s : deque) : option deque :=
  match owner s with
  | OIdle => None
  | PushLoadBottom h =>
      '(bt, T) ← load false LBottom i (oview s) (mem s);
      Some (owner_to (PushLoadTop h bt) T s)
  | PushLoadTop h bt =>
      '(tp, T) ← load true LTop i (oview s) (mem s);
      Some (owner_to (if qsize k <=? (bt ⊖ tp) then OIdle else PushStoreSlot h bt) T s)
  | PushStoreSlot h bt =>
      let (T, M) := store_fenced (slot bt) h (orel s) (oview s) (mem s) in
      Some (owner_to (PushFence h bt) T (with_mem M s))
  | PushFence h bt =>
      Some (mkD (mem s) (sc s) (oview s) (oview s) (PushStoreBottom h bt) (thieves s) (log s))
  | PushStoreBottom h bt =>
      let (T, M) := store_fenced LBottom (bt ⊕ 1) (orel s) (oview s) (mem s) in
      Some (mkD M (sc s) T (orel s) OIdle (thieves s) (log s ++ [EPush h (oview s)]))
  | PopLoadBottom =>
      '(b, T) ← load false LBottom i (oview s) (mem s);
      Some (owner_to (PopStoreBottom (b ⊖ 1)) T s)
  | PopStoreBottom bt =>
      let (T, M) := store_fenced LBottom bt (orel s) (oview s) (mem s) in
      Some (owner_to (PopFence bt) T (with_mem M s))
  | PopFence bt =>
      let F := vjoin (oview s) (sc s) in
      Some (mkD (mem s) F F F (PopLoadTop bt) (thieves s) (log s))
  | PopLoadTop bt =>
      '(tp, T) ← load false LTop i (oview s) (mem s);
      Some (owner_to (if s64 tp <=? s64 bt then PopLoadSlot bt tp else PopRestore bt nullptr) T s)
  | PopLoadSlot bt tp =>
      '(ptr, T) ← load false (slot bt) i (oview s) (mem s);
      Some (if tp =? bt then owner_to (PopCas bt tp ptr) T s
            else owner_returns OIdle (pop_event ptr) (owner_to OIdle T s))
  | PopCas bt tp ptr =>
      '(ok, T, M) ← compare_exchange true LTop i tp (tp ⊕ 1) (oview s) (mem s);
      Some (owner_to (PopRestore bt (if ok : bool then ptr else nullptr)) T (with_mem M s))
  | PopRestore bt ptr =>
      let (T, M) := store_fenced LBottom (bt ⊕ 1) (orel s) (oview s) (mem s) in
      Some (owner_returns OIdle (pop_event ptr) (owner_to OIdle T (with_mem M s)))
  end.

Definition thief_to (t : nat) (pc : thief_pc) (T : view location) (s : deque) : deque :=
  mkD (mem s) (sc s) (oview s) (orel s) (owner s) (<[t := (pc, T)]> (thieves s)) (log s).

(** [steal] returns. *)
Definition thief_leaves (t : nat) (s : deque) : deque :=
  mkD (mem s) (sc s) (oview s) (orel s) (owner s) (delete t (thieves s)) (log s).

Definition thief_act (t : nat) (pc : thief_pc) (T : view location) (i : nat) (s : deque) : option deque :=
  match pc with
  | TLoadTop =>
      '(tp, T1) ← load true LTop i T (mem s);
      Some (thief_to t (TFence tp) T1 s)
  | TFence tp =>
      let F := vjoin T (sc s) in
      Some (mkD (mem s) F (oview s) (orel s) (owner s) (<[t := (TLoadBottom tp, F)]> (thieves s)) (log s))
  | TLoadBottom tp =>
      '(bt, T1) ← load true LBottom i T (mem s);
      Some (if s64 tp <? s64 bt then thief_to t (TLoadSlot tp) T1 s else thief_leaves t s)
  | TLoadSlot tp =>
      '(ptr, T1) ← load false (slot tp) i T (mem s);
      Some (thief_to t (TCas tp ptr) T1 s)
  | TCas tp ptr =>
      '(ok, T1, M) ← compare_exchange true LTop i tp (tp ⊕ 1) T (mem s);
      Some (if ok : bool then
              mkD M (sc s) (oview s) (orel s) (owner s) (delete t (thieves s)) (log s ++ [ESteal ptr T1])
            else thief_leaves t s)
  end.

Inductive choice :=
  | Touch (h : Z)             (* the owner runs [h] up to its suspension *)
  | CallPush (h : Z)
  | CallPop
  | OwnerGo (i : nat)
  | CallSteal (t : nat)
  | ThiefGo (t i : nat).

Definition deque_act (c : choice) (s : deque) : option deque :=
  match c with
  | Touch h =>
      match owner s with
      | OIdle =>
          let (T, M) := store_fenced (LFrame h) 0 (orel s) (oview s) (mem s) in
          Some (owner_to OIdle T (with_mem M s))
      | _ => None
      end
  | CallPush h =>
      match owner s with
      | OIdle => if h =? nullptr then None else Some (owner_to (PushLoadBottom h) (oview s) s)
      | _ => None
      end
  | CallPop =>
      match owner s with
      | OIdle => Some (owner_to PopLoadBottom (oview s) s)
      | _ => None
      end
  | OwnerGo i => owner_act i s
  | CallSteal t =>
      match thieves s !! t with
      | None => Some (thief_to t TLoadTop vbot s)
      | Some _ => None
      end
  | ThiefGo t i => '(pc, T) ← thieves s !! t; thief_act t pc T i s
  end.

Definition deque_step (s s' : deque) : Prop := exists c, deque_act c s = Some s'.

Definition deque_start : deque :=
  mkD (fun _ => [mkWrite 0 vbot]) vbot vbot vbot OIdle ∅ [].

Definition deque_init (s : deque) : Prop := s = deque_start.

End Steps.

(** ** What a sequential deque returns *)

(** [history l q]: the calls [l] are those of a sequential deque that now holds
    [q]: pushes add at the end, pops take from the end and report empty only
    when it is, steals take from the front. Who steals a handle knows all that
    was known when it was pushed. *)
Inductive history : list event -> list (Z * view location) -> Prop :=
  | history_nil : history [] []
  | history_push l q h V : history l q -> history (l ++ [EPush h V]) (q ++ [(h, V)])
  | history_pop l q h V : history l (q ++ [(h, V)]) -> history (l ++ [EPop h]) q
  | history_pop_empty l : history l [] -> history (l ++ [EPopEmpty]) []
  | history_steal l q h U V : history l ((h, U) :: q) -> vle U V -> history (l ++ [ESteal h V]) q.

Definition is_push (e : event) : bool := if e is EPush _ _ then true else false.

(** Handles pushed so far. *)
Definition n_pushed (s : deque) : Z := Z.of_nat (length (List.filter is_push (log s))).

(** The handles given to [push], and those [pop] and [steal] returned. *)
Definition pushed (l : list event) : list Z :=
  omap (fun e => match e with EPush h _ => Some h | _ => None end) l.

Definition returned (l : list event) : list Z :=
  omap (fun e => match e with EPop h | ESteal h _ => Some h | _ => None end) l.

Lemma history_conserves l q : history l q -> pushed l ≡ₚ returned l ++ q.*1.
Proof.
  assert (Hp : forall a b, pushed (a ++ b) = pushed a ++ pushed b) by (intros; apply omap_app).
  assert (Hr : forall a b, returned (a ++ b) = returned a ++ returned b) by (intros; apply omap_app).
  induction 1 as [|l q h V _ IH|l q h V _ IH|l _ IH|l q h U V _ IH _]; rewrite ?Hp, ?Hr; [done|..];
    rewrite IH, ?fmap_app, ?fmap_cons; cbn [pushed returned omap list_omap fst]; rewrite ?app_nil_r, <- ?app_assoc.
  - done.
  - f_equiv. apply Permutation_app_comm.
  - done.
  - done.
Qed.

End WsWeak.
