(* ===== verification/WorkStealingWeakInv.v ===== *)
(** * The deque under release/acquire: the invariant and the theorem

    What the owner, the thieves and the writes of [bottom_] know in every
    reachable state of WorkStealingWeak.v, step by step. *)

From Stdlib Require Import ZArith Lia.
From stdpp Require Import base list list_numbers relations gmap.
From S2P Require Import Prelude WorkStealing WeakMem WorkStealingWeak.

Local Open Scope Z_scope.
Local Open Scope u64_scope.

Module WsWeakInv.
Import WsWeak.

Section Invariant.
Context (k : nat).
Local Abbreviation slot := (slot k).
Implicit Types (s : deque) (q : list (Z * view location)) (T V : view location).

Definition top s : Z := Z.of_nat (pred (length (mem s LTop))).

Definition bot s : Z := newest LBottom 0 (mem s).

(** The handle at index [i]. *)
Definition at_ s (i : Z) : Z := newest (slot i) 0 (mem s).

(** The end of the deque: inside [pop] the handle at [bt] still belongs to it. *)
Definition end_ s : Z :=
  match owner s with
  | PopFence bt | PopLoadTop bt | PopLoadSlot bt _ | PopCas bt _ _ | PopRestore bt _ => s64 bt + 1
  | _ => s64 (bot s)
  end.

(** How far thieves can get: once [pop] has passed its fence without knowing
    that [top_] has reached [bt], the handle at [bt] is the owner's. *)
Definition limit s : Z :=
  match owner s with
  | PopLoadTop bt => if Z.of_nat (oview s LTop) <? s64 bt then s64 bt else s64 bt + 1
  | PopLoadSlot bt tp => if tp <? bt then s64 bt else s64 bt + 1
  | _ => end_ s
  end.

Definition content s : list Z :=
  (at_ s <$> seqZ (top s) (end_ s - top s)) ++
  match owner s with PopRestore _ ptr => if ptr =? nullptr then [] else [ptr] | _ => [] end.

(** A thread with view [V] that takes the handle at [i] gets the right one, and
    knows what its push knew. *)
Definition knows s q (i : Z) V : Prop :=
  latest V (slot i) (mem s) /\ forall h U, q !! Z.to_nat (i - top s) = Some (h, U) -> vle U V.

(** A write of [bottom_] that a thief may act on. *)
Definition sound s q (w : write location Z) : Prop :=
  s64 (w_val w) <= limit s /\ forall i, top s <= i < s64 (w_val w) -> knows s q i (w_view w).

Definition owner_ok s : Prop :=
  match owner s with
  | OIdle | PopLoadBottom => True
  | PushLoadBottom h => h <> nullptr
  | PushLoadTop h bt => h <> nullptr /\ bt = bot s
  | PushStoreSlot h bt => h <> nullptr /\ bt = bot s /\ bt - top s < qsize k
  | PushFence h bt => h <> nullptr /\ bt = bot s /\ bt - top s < qsize k /\ at_ s bt = h
  | PushStoreBottom h bt =>
      h <> nullptr /\ bt = bot s /\ bt - top s < qsize k /\ at_ s bt = h /\ vle (oview s) (orel s)
  | PopStoreBottom bt => bt = bot s ⊖ 1
  | PopFence bt | PopLoadTop bt => bt = bot s
  | PopLoadSlot bt tp => bt = bot s /\ 0 <= tp <= s64 bt /\ tp <= Z.of_nat (oview s LTop)
  | PopCas bt tp ptr =>
      bt = bot s /\ 0 <= bt /\ tp = bt /\ ptr = at_ s bt /\ tp <= Z.of_nat (oview s LTop)
  | PopRestore bt ptr => bt = bot s /\ top s = s64 bt + 1
  end.

(** A thief matters only while [top_] is still what it read. *)
Definition thief_ok s q (pc : thief_pc) T : Prop :=
  match pc with
  | TLoadTop => True
  | TFence tp => 0 <= tp <= Z.of_nat (T LTop)
  | TLoadBottom tp =>
      0 <= tp <= Z.of_nat (sc s LTop) /\ tp <= Z.of_nat (T LTop) /\
      (tp = top s -> forall j w, mem s LBottom !! j = Some w -> (T LBottom <= j)%nat ->
        tp < s64 (w_val w) -> tp < limit s /\ knows s q tp (w_view w))
  | TLoadSlot tp =>
      0 <= tp <= Z.of_nat (sc s LTop) /\ tp <= Z.of_nat (T LTop) /\
      (tp = top s -> tp < limit s /\ knows s q tp T)
  | TCas tp ptr =>
      0 <= tp <= Z.of_nat (sc s LTop) /\ tp <= Z.of_nat (T LTop) /\
      (tp = top s -> tp < limit s /\ knows s q tp T /\ ptr = at_ s tp)
  end.

(** The views and the memory, whatever the queue does with them. *)
Record views_ok s : Prop := {
  vo_mem : mem_closed (mem s);
  vo_owner : closed (oview s) (mem s);
  vo_rel : closed (orel s) (mem s);
  vo_rel_le : vle (orel s) (oview s);
  vo_sc : closed (sc s) (mem s);
  vo_thieves : map_Forall (fun _ p => closed p.2 (mem s)) (thieves s)
}.

Record deque_inv s q : Prop := {
  di_views : views_ok s;
  di_top n w : mem s LTop !! n = Some w -> w_val w = Z.of_nat n;
  di_bottom n w : mem s LBottom !! n = Some w -> exists b, w_val w = u64 b /\ -1 <= b < 2 ^ 63;
  di_own_bottom : latest (oview s) LBottom (mem s);
  di_own_slots j : latest (oview s) (LSlot j) (mem s);
  di_rel_slots j : (forall h bt, owner s <> PushFence h bt) -> latest (orel s) (LSlot j) (mem s);
  di_rel_views h U : (h, U) ∈ q -> vle U (orel s);
  di_sc_top : top s - 1 <= Z.of_nat (sc s LTop `max` oview s LTop);
  di_range : top s <= limit s <= end_ s;
  di_cap : end_ s - top s <= qsize k;
  di_count : end_ s <= n_pushed s;
  di_sound j w : mem s LBottom !! j = Some w -> (sc s LBottom <= j)%nat -> sound s q w;
  di_owner : owner_ok s;
  di_thieves : map_Forall (fun _ p => thief_ok s q p.1 p.2) (thieves s);
  di_history : history (log s) q;
  di_content : q.*1 = content s;
  di_nonnull : Forall (fun p => p.1 <> nullptr) q
}.

(** ** Indices and slots *)

Lemma ring_slot_inj a i j : a <= i < a + qsize k -> a <= j < a + qsize k -> slot i = slot j -> i = j.
Proof.
  intros Hi Hj [= E]. unfold kMask, qsize in *. apply mask_index_inj in E; [done|lia].
Qed.

Lemma top_bound T s q : deque_inv s q -> closed T (mem s) -> Z.of_nat (T LTop) <= top s.
Proof. intros Hi Hc. specialize (Hc LTop). unfold top. lia. Qed.

Lemma bottom_val s q j w :
  deque_inv s q -> mem s LBottom !! j = Some w -> -1 <= s64 (w_val w) < 2 ^ 63 /\ w_val w = u64 (s64 (w_val w)).
Proof.
  intros Hi Hj. destruct (di_bottom _ _ Hi _ _ Hj) as (b & -> & Hb). rewrite s64_u64 by lia. done.
Qed.

Lemma bot_write s q :
  deque_inv s q -> exists w, mem s LBottom !! oview s LBottom = Some w /\ w_val w = bot s.
Proof.
  intros Hi. pose proof (di_own_bottom _ _ Hi) as Hl. unfold latest in Hl.
  destruct (mem s LBottom !! oview s LBottom) as [w|] eqn:E; [|apply lookup_ge_None in E; lia].
  exists w. split; [done|]. symmetry. by eapply latest_load; [apply (di_own_bottom _ _ Hi)|exact E|lia].
Qed.

Lemma bot_val s q : deque_inv s q -> -1 <= s64 (bot s) < 2 ^ 63 /\ bot s = u64 (s64 (bot s)).
Proof. intros Hi. destruct (bot_write s q Hi) as (w & Hw & <-). by eapply bottom_val. Qed.

(** A count below [2^63] is its own signed reading. *)
Lemma s64_nonneg v : v = u64 (s64 v) -> 0 <= s64 v < 2 ^ 63 -> v = s64 v.
Proof. intros E Hv. rewrite u64_small in E; lia. Qed.

Lemma load_bottom acq i T s q v T' :
  deque_inv s q -> latest T LBottom (mem s) -> load acq LBottom i T (mem s) = Some (v, T') -> v = bot s.
Proof.
  intros Hi Hl (w & Hw & -> & Hle & _)%load_spec. symmetry. by eapply latest_load.
Qed.

Lemma load_top acq i T s q v T' :
  deque_inv s q -> load acq LTop i T (mem s) = Some (v, T') ->
  v = Z.of_nat i /\ Z.of_nat (T LTop) <= v <= top s /\ (i <= T' LTop)%nat.
Proof.
  intros Hi (w & Hw & -> & Hle & ->)%load_spec. rewrite (di_top _ _ Hi _ _ Hw).
  apply lookup_lt_Some in Hw. unfold top. split_and!; try lia.
  destruct acq; unfold vjoin; rewrite vset_eq; lia.
Qed.

(** ** What thieves rely on *)

Lemma thief_ok_step s s' q q' pc T :
  closed (sc s) (mem s) -> (sc s LTop <= sc s' LTop)%nat -> top s <= top s' ->
  (top s' = top s ->
    (top s <= Z.of_nat (sc s LTop) -> top s < limit s ->
      top s < limit s' /\ at_ s' (top s) = at_ s (top s) /\
      forall V, knows s q (top s) V -> knows s' q' (top s) V) /\
    (forall j w, mem s' LBottom !! j = Some w -> mem s LBottom !! j = Some w \/
      (top s < s64 (w_val w) -> top s < limit s' /\ knows s' q' (top s) (w_view w)))) ->
  thief_ok s q pc T -> thief_ok s' q' pc T.
Proof.
  intros Hcl Hsc Ht Hs. assert (Hst : Z.of_nat (sc s LTop) <= top s) by (specialize (Hcl LTop); unfold top; lia).
  destruct pc as [|tp|tp|tp|tp ptr]; simpl; [done|done| | |].
  - intros (Hr & HT & H). split_and!; [lia|lia|lia|]. intros ->. assert (E : top s' = top s) by lia.
    rewrite E in *. destruct (Hs eq_refl) as [H1 H2]. intros j w Hj Hle Hlt.
    destruct (H2 j w Hj) as [Hj'|Hn]; [|by apply Hn].
    destruct (H eq_refl j w Hj' Hle Hlt) as [Hlim Hk].
    destruct (H1 ltac:(lia) Hlim) as (? & _ & Hk'). eauto.
  - intros (Hr & HT & H). split_and!; [lia|lia|lia|]. intros ->. assert (E : top s' = top s) by lia.
    rewrite E in *. destruct (Hs eq_refl) as [H1 _]. destruct (H eq_refl) as [Hlim Hk].
    destruct (H1 ltac:(lia) Hlim) as (? & _ & Hk'). eauto.
  - intros (Hr & HT & H). split_and!; [lia|lia|lia|]. intros ->. assert (E : top s' = top s) by lia.
    rewrite E in *. destruct (Hs eq_refl) as [H1 _]. destruct (H eq_refl) as (Hlim & Hk & Hp).
    destruct (H1 ltac:(lia) Hlim) as (? & Ha & Hk'). rewrite Ha. eauto.
Qed.

(** A step of the owner that leaves the memory alone. *)
Lemma inv_weak_owner_step s q s' q' :
  deque_inv s q -> mem s' = mem s -> sc s' = sc s -> thieves s' = thieves s ->
  closed (oview s') (mem s) -> vle (oview s) (oview s') ->
  closed (orel s') (mem s) -> vle (orel s) (orel s') -> vle (orel s') (oview s') ->
  (forall j, latest (orel s') (LSlot j) (mem s)) ->
  limit s <= limit s' <= end_ s' -> end_ s' <= end_ s -> n_pushed s' = n_pushed s -> owner_ok s' ->
  (forall p, p ∈ q' -> p ∈ q) ->
  (forall i, top s <= i < limit s -> q' !! Z.to_nat (i - top s) = q !! Z.to_nat (i - top s)) ->
  history (log s') q' -> q'.*1 = content s' -> deque_inv s' q'.
Proof.
  intros Hi Em Es Eth Hc Hle HcR HleR HRT HR Hlim He En Hok Hq Hqq Hh Hct.
  pose proof (di_views _ _ Hi) as []. pose proof (di_range _ _ Hi) as Hr. pose proof (di_cap _ _ Hi).
  pose proof (di_count _ _ Hi).
  assert (Et : top s' = top s) by (unfold top; by rewrite Em).
  assert (Hk : forall i V, top s <= i < limit s -> knows s q i V -> knows s' q' i V).
  { intros i V Hi' [H1 H2]. unfold knows. by rewrite Em, Et, Hqq. }
  split; rewrite ?Em, ?Es, ?Eth, ?Et, ?En; try done; try (apply Hi); try lia.
  - split; rewrite ?Em, ?Es, ?Eth; done.
  - apply (latest_mono (oview s)); [done..|]. apply (di_own_bottom _ _ Hi).
  - intros. apply (latest_mono (oview s)); [done..|]. apply (di_own_slots _ _ Hi).
  - intros h U HU. etrans; [by apply (di_rel_views _ _ Hi h), Hq|done].
  - pose proof (di_sc_top _ _ Hi). specialize (Hle LTop). lia.
  - intros j w Hj Hs. destruct (di_sound _ _ Hi j w Hj Hs) as [H1 H2]. split; [lia|]. rewrite Et.
    intros i Hi'. apply Hk; [lia|]. by apply H2.
  - eapply map_Forall_impl; [apply (di_thieves _ _ Hi)|]. intros t [pc' T'] Hth.
    eapply thief_ok_step; [done|by rewrite Es|lia| |exact Hth]. intros _. split; [|rewrite Em; by left].
    intros _ ?. split_and!; [lia|unfold at_; by rewrite Em|]. intros V. apply Hk. lia.
  - pose proof (di_nonnull _ _ Hi) as Hnn. rewrite Forall_forall in *. intros p Hp. by apply Hnn, Hq.
Qed.

Lemma inv_owner_local s q pc T R :
  let s' := mkD (mem s) (sc s) T R pc (thieves s) (log s) in
  deque_inv s q -> closed T (mem s) -> vle (oview s) T ->
  closed R (mem s) -> vle (orel s) R -> vle R T -> (forall j, latest R (LSlot j) (mem s)) ->
  end_ s' = end_ s -> content s' = content s ->
  limit s <= limit s' <= end_ s -> owner_ok s' -> deque_inv s' q.
Proof.
  intros s' Hi Hc Hle HcR HleR HRT HR Ee Ec Hlim Hok.
  apply inv_weak_owner_step with s q; try done; try lia; [apply Hi|]. rewrite Ec. apply Hi.
Qed.

Lemma inv_owner_move s q pc T :
  let s' := owner_to pc T s in
  deque_inv s q -> closed T (mem s) -> vle (oview s) T -> (forall h bt, owner s <> PushFence h bt) ->
  end_ s' = end_ s -> content s' = content s ->
  limit s <= limit s' <= end_ s -> owner_ok s' -> deque_inv s' q.
Proof.
  intros s' Hi Hc Hle Hpc. pose proof (di_views _ _ Hi) as [].
  apply inv_owner_local; try done; [by etrans|]. intros j. by apply (di_rel_slots _ _ Hi).
Qed.

(** A thief moves on with a view that has grown. *)
Lemma inv_thief_move s q t pc T :
  deque_inv s q -> closed T (mem s) -> thief_ok s q pc T -> deque_inv (thief_to t pc T s) q.
Proof.
  intros Hi Hc Hok. pose proof (di_views _ _ Hi) as [].
  split; try done; try (apply Hi); [split; try done|]; apply map_Forall_insert_2; try done. apply Hi.
Qed.

Lemma inv_thief_leaves s q t : deque_inv s q -> deque_inv (thief_leaves t s) q.
Proof.
  intros Hi. pose proof (di_views _ _ Hi) as [].
  split; try done; try (apply Hi); [split; try done|]; apply map_Forall_delete; try done. apply Hi.
Qed.

(** ** Stores of the owner *)

Lemma views_store s s' l v :
  let n := length (mem s l) in
  views_ok s -> mem s' = append l (mkWrite v (vset l n (orel s))) (mem s) ->
  oview s' = vset l n (oview s) -> orel s' = orel s -> sc s' = sc s -> thieves s' = thieves s ->
  views_ok s'.
Proof.
  intros n [Hm Ho Hr Hrl Hs Ht] Em Eo Er Es Et.
  split; rewrite ?Em, ?Eo, ?Er, ?Es, ?Et; try (by apply closed_append); try (by apply closed_new).
  - apply mem_closed_append; [done|]. by apply closed_new.
  - etrans; [done|]. apply vset_le. specialize (Ho l). lia.
  - eapply map_Forall_impl; [exact Ht|]. intros t [pc T] Hc. by apply closed_append.
Qed.

Lemma content_window s :
  (forall bt ptr, owner s <> PopRestore bt ptr) -> content s = at_ s <$> seqZ (top s) (end_ s - top s).
Proof.
  intros Hn. unfold content. destruct (owner s) as [| | | | | | | | | | | |bt ptr] eqn:E;
    try apply app_nil_r. by destruct (Hn bt ptr).
Qed.

Lemma content_length s q :
  deque_inv s q -> (forall bt ptr, owner s <> PopRestore bt ptr) -> length q = Z.to_nat (end_ s - top s).
Proof.
  intros Hi Hpc. by rewrite <- (length_fmap fst), (di_content _ _ Hi), content_window, length_fmap, length_seqZ.
Qed.

(** [bottom_] becomes [b]. The handles up to [limit] stay where they are. *)
Lemma inv_bottom_store s q s' q' b :
  let n := length (mem s LBottom) in
  deque_inv s q -> (forall h bt, owner s <> PushFence h bt) -> (forall h bt, owner s' <> PushFence h bt) ->
  mem s' = append LBottom (mkWrite (u64 b) (vset LBottom n (orel s))) (mem s) ->
  oview s' = vset LBottom n (oview s) -> orel s' = orel s -> sc s' = sc s -> thieves s' = thieves s ->
  -1 <= b < 2 ^ 63 -> b <= limit s' -> limit s <= limit s' <= end_ s' ->
  end_ s' - top s <= qsize k -> end_ s' <= n_pushed s' ->
  (forall h U, (h, U) ∈ q' -> vle U (orel s)) ->
  (forall i, top s <= i < limit s -> q' !! Z.to_nat (i - top s) = q !! Z.to_nat (i - top s)) ->
  owner_ok s' -> history (log s') q' -> q'.*1 = content s' -> Forall (fun p => p.1 <> nullptr) q' ->
  deque_inv s' q'.
Proof.
  intros n Hi Hpc Hpc' Em Eo Er Es Et Hb Hbl Hlim Hcap Hn Hq Hqq Hok Hh Hc Hnn.
  assert (Etop : top s' = top s) by (unfold top; by rewrite Em, append_ne).
  assert (Hk : forall i V, top s <= i < limit s -> knows s q i V -> knows s' q' i V).
  { intros i V Hlt [H1 H2]. unfold knows. rewrite Em, Etop, Hqq by done. split; [by apply latest_append_ne|done]. }
  assert (Hnew : forall i, knows s' q' i (vset LBottom n (orel s))).
  { intros i. unfold knows. rewrite Em. split.
    - apply latest_append_ne; [done|]. apply latest_vset_ne; [done|]. by apply (di_rel_slots _ _ Hi).
    - intros h U HU. apply list_elem_of_lookup_2, Hq in HU. etrans; [exact HU|]. apply vset_le.
      pose proof (vo_rel _ (di_views _ _ Hi) LBottom). unfold n. lia. }
  split; rewrite ?Em, ?Eo, ?Er, ?Es, ?Et, ?Etop; try done.
  - eapply views_store; eauto. apply Hi.
  - intros m w. rewrite append_ne by done. apply (di_top _ _ Hi).
  - intros m w [Hm|(_ & _ & ->)]%append_lookup_inv; [by eapply (di_bottom _ _ Hi)|by exists b].
  - apply latest_new.
  - intros j. apply latest_append_ne; [done|]. apply latest_vset_ne; [done|]. apply (di_own_slots _ _ Hi).
  - intros j _. apply latest_append_ne; [done|]. by apply (di_rel_slots _ _ Hi).
  - rewrite vset_ne by done. apply (di_sc_top _ _ Hi).
  - pose proof (di_range _ _ Hi). lia.
  - intros m w [Hm|(_ & _ & ->)]%append_lookup_inv Hs; unfold sound; rewrite Etop.
    + destruct (di_sound _ _ Hi m w Hm Hs) as [H1 H2]. split; [lia|]. intros i Hr. apply Hk; [lia|]. by apply H2.
    + simpl. rewrite s64_u64 by lia. split; [done|]. intros i _. apply Hnew.
  - eapply map_Forall_impl; [apply (di_thieves _ _ Hi)|]. intros t [pc' T'] Hth.
    eapply thief_ok_step; [apply (di_views _ _ Hi)|by rewrite Es|lia| |exact Hth]. intros _. split.
    + intros _ Hlt. split_and!; [lia| |intros V; apply Hk; lia].
      unfold at_. by rewrite Em, newest_append_ne.
    + intros j w. rewrite Em. intros [Hm|(_ & _ & ->)]%append_lookup_inv; [by left|right].
      simpl. rewrite s64_u64 by lia. intros. split; [lia|apply Hnew].
Qed.

(** [top_] advances by one. *)
Lemma inv_top_advance s q s' q' w :
  deque_inv s q -> (forall h bt, owner s = PushFence h bt -> owner s' = PushFence h bt) ->
  mem s' = append LTop w (mem s) -> w_val w = top s + 1 -> closed (w_view w) (mem s') ->
  closed (oview s') (mem s') -> vle (oview s) (oview s') -> orel s' = orel s -> sc s' = sc s ->
  (forall t p, thieves s' !! t = Some p -> thieves s !! t = Some p) ->
  top s < limit s -> limit s' = limit s -> end_ s' = end_ s -> n_pushed s' = n_pushed s ->
  top s <= Z.of_nat (sc s LTop `max` oview s' LTop) ->
  (forall p, p ∈ q' -> p ∈ q) ->
  (forall i, top s < i < limit s -> q' !! Z.to_nat (i - (top s + 1)) = q !! Z.to_nat (i - top s)) ->
  owner_ok s' -> history (log s') q' -> q'.*1 = content s' -> deque_inv s' q'.
Proof.
  intros Hi Hpc Em Ew Hcw Hco Hle Er Es Et Hlt El Ee En Hsc Hq Hqq Hok Hh Hc.
  pose proof (di_views _ _ Hi) as Hv. pose proof (vo_owner _ Hv LTop) as Hlen.
  assert (Etop : top s' = top s + 1).
  { unfold top. rewrite Em, append_length, decide_True by done. lia. }
  pose proof (di_range _ _ Hi) as Hr.
  assert (Hk : forall i V, top s < i < limit s -> knows s q i V -> knows s' q' i V).
  { intros i V Hlt' [H1 H2]. unfold knows. rewrite Em, Etop, Hqq by done.
    split; [by apply latest_append_ne|done]. }
  split; rewrite ?Em, ?Er, ?Es, ?Etop, ?El, ?Ee, ?En; try done.
  - destruct Hv as [Hm _ Hrel Hrl Hs Ht]. split; rewrite ?Er, ?Es, ?Em in *; try done; try (by apply closed_append).
    + by apply mem_closed_append.
    + by etrans.
    + intros t p Hp. apply closed_append, (Ht t), Et, Hp.
  - intros m x [Hm|(_ & -> & ->)]%append_lookup_inv; [by apply (di_top _ _ Hi)|].
    rewrite Ew. unfold top. lia.
  - intros m x. rewrite append_ne by done. apply (di_bottom _ _ Hi).
  - rewrite Em in Hco. eapply latest_mono; [done..|]. apply latest_append_ne; [done|]. apply (di_own_bottom _ _ Hi).
  - intros j. rewrite Em in Hco. eapply latest_mono; [done..|]. apply latest_append_ne; [done|]. apply (di_own_slots _ _ Hi).
  - intros j Hn. apply latest_append_ne; [done|]. apply (di_rel_slots _ _ Hi). intros h bt Eq.
    by apply (Hn h bt), Hpc.
  - intros h U HU. by apply (di_rel_views _ _ Hi h), Hq.
  - lia.
  - lia.
  - pose proof (di_cap _ _ Hi). lia.
  - apply (di_count _ _ Hi).
  - intros m x. rewrite append_ne by done. intros Hm Hs. unfold sound. rewrite Etop, El.
    destruct (di_sound _ _ Hi m x Hm Hs) as [H1 H2]. split; [done|]. intros i Hi'. apply Hk; [lia|]. apply H2. lia.
  - intros t [pc T] Hp. apply Et in Hp. pose proof (di_thieves _ _ Hi _ _ Hp) as Hth.
    eapply thief_ok_step; [apply Hv|by rewrite Es|lia|lia|exact Hth].
  - pose proof (di_nonnull _ _ Hi) as Hnn. rewrite Forall_forall in *. intros p Hp. by apply Hnn, Hq.
Qed.

(** What an update of [top_] leaves alone. *)
Lemma owner_ok_advance s s' w :
  mem s' = append LTop w (mem s) -> owner s' = owner s -> oview s' = oview s -> orel s' = orel s ->
  top s < limit s -> owner_ok s -> owner_ok s'.
Proof.
  intros Em Eo Ev Er Hlt. assert (top s <= top s').
  { unfold top. rewrite Em, append_length. destruct (decide _); lia. }
  assert (Eb : bot s' = bot s) by (unfold bot; by rewrite Em, newest_append_ne).
  assert (Ea : forall i, at_ s' i = at_ s i) by (intros i; unfold at_; by rewrite Em, newest_append_ne).
  unfold owner_ok. rewrite Eo, Ev, Er, Eb. unfold limit, end_ in Hlt.
  destruct (owner s) eqn:E; rewrite ?Ea; intuition lia.
Qed.

Lemma top_nonneg s : 0 <= top s.
Proof. unfold top. lia. Qed.

(** Between calls of [pop] the deque ends at [bottom_]. *)
Lemma bot_end s q : deque_inv s q -> end_ s = s64 (bot s) -> bot s = end_ s /\ 0 <= end_ s < 2 ^ 63.
Proof.
  intros Hi Ee. pose proof (bot_val s q Hi) as [Hb Eb]. pose proof (di_range _ _ Hi).
  pose proof (top_nonneg s). split; [|lia]. rewrite Ee. apply s64_nonneg; [done|lia].
Qed.

(** ** The steps of [push] *)

Lemma inv_push_slot s q h bt :
  let '(T, M) := store_fenced (slot bt) h (orel s) (oview s) (mem s) in
  deque_inv s q -> owner s = PushStoreSlot h bt ->
  deque_inv (owner_to (PushFence h bt) T (with_mem M s)) q.
Proof.
  simpl. intros Hi E. set (s' := owner_to _ _ _).
  pose proof (di_owner _ _ Hi) as Hok. unfold owner_ok in Hok. rewrite E in Hok.
  destruct Hok as (Hh & Ebt & Hroom).
  assert (Ee0 : end_ s = s64 (bot s)) by (unfold end_; by rewrite E).
  destruct (bot_end s q Hi Ee0) as [Eb Hb].
  pose proof (di_range _ _ Hi) as Hr. pose proof (di_cap _ _ Hi) as Hcap.
  assert (Ebot : bot s' = bot s) by (unfold bot; simpl; by rewrite newest_append_ne).
  assert (Ee : end_ s' = end_ s) by (rewrite Ee0; unfold end_; simpl; by rewrite Ebot).
  assert (El : limit s' = limit s) by (unfold limit; rewrite E, Ee; done).
  assert (Et : top s' = top s) by (unfold top; simpl; by rewrite append_ne).
  assert (Hne : forall i, top s <= i < end_ s -> slot i <> slot bt).
  { intros i Hi' Es. apply (ring_slot_inj (top s)) in Es; lia. }
  assert (Ea : forall i, top s <= i < end_ s -> at_ s' i = at_ s i).
  { intros i Hi'. unfold at_. simpl. rewrite newest_append_ne; [done|]. by apply Hne. }
  assert (Hk : forall i V, top s <= i < end_ s -> knows s q i V -> knows s' q i V).
  { intros i V Hi' [H1 H2]. split; [|by rewrite Et]. apply latest_append_ne; [|done]. by apply Hne. }
  split; rewrite ?El, ?Ee, ?Et; try (apply Hi).
  - eapply views_store; [apply (di_views _ _ Hi)|done..].
  - intros j. simpl. destruct (decide (LSlot j = slot bt)) as [->|Hj]; [apply latest_new|].
    apply latest_append_ne; [done|]. apply latest_vset_ne; [done|]. apply (di_own_slots _ _ Hi).
  - intros j Hn. by destruct (Hn h bt).
  - intros j w. simpl. rewrite append_ne by done. intros Hj Hs. destruct (di_sound _ _ Hi j w Hj Hs) as [H1 H2].
    split; [by rewrite El|]. rewrite Et. intros i Hi'. apply Hk; [lia|]. by apply H2.
  - unfold owner_ok. simpl. rewrite Ebot, Et. split_and!; try done. unfold at_. simpl. by rewrite newest_append_eq.
  - eapply map_Forall_impl; [apply (di_thieves _ _ Hi)|]. intros t [pc T] Hth.
    eapply thief_ok_step; [apply (di_views _ _ Hi)|done|lia| |exact Hth]. intros _. split.
    + intros _ Hlt. rewrite El. split_and!; [done|apply Ea; lia|intros V; apply Hk; lia].
    + intros j w. simpl. rewrite append_ne by done. by left.
  - rewrite (di_content _ _ Hi). unfold content. rewrite E, Ee, Et. simpl. rewrite !app_nil_r.
    apply fmap_seqZ_ext. intros i Hi'. symmetry. apply Ea. lia.
Qed.

Lemma inv_push_fence s q h bt :
  deque_inv s q -> owner s = PushFence h bt ->
  deque_inv (mkD (mem s) (sc s) (oview s) (oview s) (PushStoreBottom h bt) (thieves s) (log s)) q.
Proof.
  intros Hi E. pose proof (di_owner _ _ Hi) as Hok. pose proof (di_views _ _ Hi) as [].
  unfold owner_ok in Hok. rewrite E in Hok. destruct Hok as (? & ? & ? & ?).
  set (s' := mkD _ _ _ _ _ _ _).
  assert (Ee : end_ s' = end_ s) by (unfold end_, bot; by rewrite E).
  apply inv_owner_local; try done; try (apply Hi).
  - unfold content. rewrite E. fold s'. by rewrite Ee.
  - unfold limit. rewrite E. fold s'. simpl. by rewrite Ee.
Qed.

Lemma n_pushed_snoc s s' e :
  log s' = log s ++ [e] -> n_pushed s' = n_pushed s + (if is_push e then 1 else 0).
Proof.
  unfold n_pushed. intros ->. rewrite List.filter_app, length_app. simpl. destruct (is_push e); simpl; lia.
Qed.

(** The handle becomes part of the deque. *)
Lemma inv_push_publish s q h bt :
  let '(T, M) := store_fenced LBottom (bt ⊕ 1) (orel s) (oview s) (mem s) in
  let s' := mkD M (sc s) T (orel s) OIdle (thieves s) (log s ++ [EPush h (oview s)]) in
  deque_inv s q -> owner s = PushStoreBottom h bt -> n_pushed s' < 2 ^ 63 ->
  deque_inv s' (q ++ [(h, oview s)]).
Proof.
  simpl. set (s' := mkD _ _ _ _ _ _ _). intros Hi E Hb.
  pose proof (di_owner _ _ Hi) as Hok. unfold owner_ok in Hok. rewrite E in Hok.
  destruct Hok as (Hh & Ebt & Hroom & Hat & Hview).
  assert (Ee0 : end_ s = s64 (bot s)) by (unfold end_; by rewrite E).
  destruct (bot_end s q Hi Ee0) as [Eb Hb0].
  pose proof (di_range _ _ Hi) as Hr. pose proof (di_count _ _ Hi) as Hn.
  assert (El0 : limit s = end_ s) by (unfold limit; by rewrite E).
  assert (Ens : n_pushed s' = n_pushed s + 1) by by apply (n_pushed_snoc s s' (EPush h (oview s))).
  assert (Ebt' : bt ⊕ 1 = u64 (end_ s + 1)) by (rewrite Ebt, Eb, <- (u64_add (end_ s) 1); f_equal; symmetry; apply u64_small; lia).
  assert (Ee : end_ s' = end_ s + 1).
  { change (end_ s') with (s64 (bot s')). unfold bot at 1. simpl. rewrite newest_append_eq. simpl.
    rewrite Ebt', s64_u64; lia. }
  assert (El : limit s' = end_ s') by done.
  assert (Hlen : length q = Z.to_nat (end_ s - top s)) by (apply content_length; [done|by rewrite E]).
  apply inv_bottom_store with s q (end_ s + 1); rewrite ?Ee, ?El; try done; try (by rewrite E); try lia.
  - simpl. by rewrite Ebt'.
  - intros h' U [Hin|Heq]%elem_of_app; [by apply (di_rel_views _ _ Hi h')|].
    apply list_elem_of_singleton in Heq. by injection Heq as -> ->.
  - intros i Hi'. apply lookup_app_l. lia.
  - apply history_push, Hi.
  - rewrite fmap_app, (di_content _ _ Hi). unfold content. rewrite E, !app_nil_r, Ee. simpl.
    assert (Et : top s' = top s) by (unfold top; simpl; by rewrite append_ne).
    assert (Ea : forall i, at_ s' i = at_ s i) by (intros i; unfold at_; simpl; by rewrite newest_append_ne).
    rewrite Et. replace (end_ s + 1 - top s) with (end_ s - top s + 1) by lia.
    rewrite seqZ_snoc, fmap_app by lia. simpl. f_equal.
    rewrite Ea. replace (top s + (end_ s - top s)) with bt by lia. by rewrite Hat.
  - apply Forall_app. split; [apply Hi|]. by apply Forall_singleton.
Qed.

(** ** The steps of [pop] *)

Lemma pop_event_success ptr : ptr <> nullptr -> pop_event ptr = EPop ptr.
Proof. intros. unfold pop_event. by rewrite pop_result_nonnull. Qed.

Lemma inv_pop_store s q bt :
  let '(T, M) := store_fenced LBottom bt (orel s) (oview s) (mem s) in
  deque_inv s q -> owner s = PopStoreBottom bt ->
  deque_inv (owner_to (PopFence bt) T (with_mem M s)) q.
Proof.
  simpl. set (s' := owner_to _ _ _). intros Hi E.
  pose proof (di_owner _ _ Hi) as Hok. unfold owner_ok in Hok. rewrite E in Hok.
  assert (Ee0 : end_ s = s64 (bot s)) by (unfold end_; by rewrite E).
  destruct (bot_end s q Hi Ee0) as [Eb Hb0]. pose proof (di_range _ _ Hi) as Hr.
  assert (Ebt : bt = u64 (end_ s - 1)) by (by rewrite Hok, Eb).
  assert (Ebs : s64 bt = end_ s - 1) by (rewrite Ebt, s64_u64; lia).
  assert (Ee : end_ s' = end_ s) by (unfold end_ at 1; simpl; lia).
  assert (El : limit s' = limit s) by (unfold limit; rewrite E; simpl; done).
  assert (Et : top s' = top s) by (unfold top; simpl; by rewrite append_ne).
  apply inv_bottom_store with s q (end_ s - 1); rewrite ?Ee, ?El; try done; try (by rewrite E);
    try (apply Hi); try lia.
  - simpl. by rewrite <- Ebt.
  - unfold limit. rewrite E. lia.
  - unfold owner_ok. simpl. unfold bot. simpl. by rewrite newest_append_eq.
  - rewrite (di_content _ _ Hi). unfold content. rewrite E, Ee, Et. simpl. f_equal.
Qed.

(** The fence tells the owner of every thief that may win the last handle. *)
Lemma inv_pop_fence s q bt :
  let F := vjoin (oview s) (sc s) in
  deque_inv s q -> owner s = PopFence bt ->
  deque_inv (mkD (mem s) F F F (PopLoadTop bt) (thieves s) (log s)) q.
Proof.
  simpl. set (F := vjoin _ _). set (s' := mkD _ _ _ _ _ _ _). intros Hi E.
  pose proof (di_owner _ _ Hi) as Hok. unfold owner_ok in Hok. rewrite E in Hok.
  pose proof (di_views _ _ Hi) as []. pose proof (di_range _ _ Hi) as Hr. pose proof (di_sc_top _ _ Hi) as Hsc.
  assert (HF : closed F (mem s)) by by apply closed_join.
  assert (HoF : vle (oview s) F) by apply vjoin_l. assert (HsF : vle (sc s) F) by apply vjoin_r.
  assert (Ee : end_ s' = end_ s) by (unfold end_; by rewrite E).
  assert (Ee0 : end_ s = s64 bt + 1) by (unfold end_; by rewrite E).
  assert (El0 : limit s = s64 bt + 1) by (unfold limit; by rewrite E).
  assert (El : limit s' = if Z.of_nat (F LTop) <? s64 bt then s64 bt else s64 bt + 1) by done.
  assert (HFt : top s - 1 <= Z.of_nat (F LTop)) by (unfold F, vjoin; lia).
  assert (Hlim : top s <= limit s' /\ s64 bt <= limit s' <= end_ s).
  { rewrite El. destruct (Z.ltb_spec (Z.of_nat (F LTop)) (s64 bt)); lia. }
  assert (Hlat : latest F LBottom (mem s)) by (apply (latest_mono (oview s)); [done..|apply (di_own_bottom _ _ Hi)]).
  split; try done; try (apply Hi); rewrite ?Ee; try (apply Hi).
  - intros j. apply (latest_mono (oview s)); [done..|]. apply (di_own_slots _ _ Hi).
  - intros j _. apply (latest_mono (oview s)); [done..|]. apply (di_own_slots _ _ Hi).
  - intros h U HU. etrans; [by apply (di_rel_views _ _ Hi h)|]. by etrans.
  - simpl. change (top s') with (top s). lia.
  - change (top s') with (top s). lia.
  - intros j w Hj Hs. simpl in Hj, Hs. destruct (latest_load F LBottom 0 (mem s) j w Hlat Hj Hs) as [_ Ew].
    assert (Hsj : (sc s LBottom <= j)%nat) by (specialize (HsF LBottom); lia).
    destruct (di_sound _ _ Hi j w Hj Hsj) as [_ H2]. fold (bot s) in Ew. split; [|done].
    rewrite <- Ew, <- Hok. lia.
  - eapply map_Forall_impl; [apply (di_thieves _ _ Hi)|]. intros t [pc T] Hth.
    eapply thief_ok_step; [done|apply HsF|done| |exact Hth]. intros _. split; [|by left].
    intros Hts Hlt. split_and!; [|done|done]. specialize (HsF LTop). rewrite El, El0 in *.
    destruct (Z.ltb_spec (Z.of_nat (F LTop)) (s64 bt)); lia.
  - rewrite (di_content _ _ Hi). unfold content. by rewrite E, Ee.
Qed.

Lemma inv_weak_pop_load_top s q bt i tp T :
  deque_inv s q -> owner s = PopLoadTop bt -> load false LTop i (oview s) (mem s) = Some (tp, T) ->
  n_pushed s < 2 ^ 63 ->
  deque_inv (owner_to (if s64 tp <=? s64 bt then PopLoadSlot bt tp else PopRestore bt nullptr) T s) q.
Proof.
  intros Hi E El Hb. pose proof (di_views _ _ Hi) as [].
  destruct (load_top _ _ _ _ _ _ _ Hi El) as (Etp & Htp & HT).
  destruct (load_closed _ _ _ _ _ _ _ El vo_owner0 vo_mem0) as [HcT HleT].
  pose proof (di_owner _ _ Hi) as Hok. unfold owner_ok in Hok. rewrite E in Hok.
  pose proof (di_range _ _ Hi) as Hr. pose proof (di_count _ _ Hi) as Hn.
  pose proof (bot_val s q Hi) as [Hbv Ebv]. rewrite <- Hok in Hbv, Ebv.
  assert (Ee : end_ s = s64 bt + 1) by (unfold end_; by rewrite E).
  assert (Elim : limit s = if Z.of_nat (oview s LTop) <? s64 bt then s64 bt else s64 bt + 1)
    by (unfold limit; by rewrite E).
  rewrite (s64_small tp) by lia.
  destruct (Z.leb_spec tp (s64 bt)) as [Hle|Hgt]; apply inv_owner_move; try done; try (by rewrite E);
    try (unfold end_; by rewrite E); try (unfold content, end_; by rewrite E).
  - assert (Eb0 : bt = s64 bt) by (apply s64_nonneg; [done|lia]).
    rewrite Elim, Ee. unfold limit. simpl. rewrite <- Eb0 in *.
    destruct (Z.ltb_spec (Z.of_nat (oview s LTop)) bt), (Z.ltb_spec tp bt); lia.
  - unfold owner_ok. simpl. split_and!; [done|lia|lia|lia].
  - rewrite Elim in *. unfold limit, end_. simpl. rewrite E.
    destruct (Z.ltb_spec (Z.of_nat (oview s LTop)) (s64 bt)); lia.
  - unfold owner_ok. simpl. split; [done|]. rewrite Elim in *. change (top s = s64 bt + 1).
    destruct (Z.ltb_spec (Z.of_nat (oview s LTop)) (s64 bt)); lia.
Qed.

Lemma load_slot acq i T s bt v T' :
  latest T (slot bt) (mem s) -> load acq (slot bt) i T (mem s) = Some (v, T') -> v = at_ s bt.
Proof. intros Hl (w & Hw & -> & Hle & _)%load_spec. symmetry. by eapply latest_load. Qed.

(** The owner returns a handle no thief can get. *)
Lemma inv_pop_take s q bt tp i ptr T :
  deque_inv s q -> owner s = PopLoadSlot bt tp -> tp <> bt ->
  load false (slot bt) i (oview s) (mem s) = Some (ptr, T) ->
  exists q', deque_inv (owner_returns OIdle (pop_event ptr) (owner_to OIdle T s)) q'.
Proof.
  intros Hi E Hne El. pose proof (di_views _ _ Hi) as [].
  pose proof (load_slot _ _ _ _ _ _ _ (di_own_slots _ _ Hi _) El) as Eptr.
  destruct (load_closed _ _ _ _ _ _ _ El vo_owner0 vo_mem0) as [HcT HleT].
  pose proof (di_owner _ _ Hi) as Hok. unfold owner_ok in Hok. rewrite E in Hok. destruct Hok as (Ebt & Htp & HTt).
  pose proof (bot_val s q Hi) as [Hbv Ebv]. rewrite <- Ebt in Hbv, Ebv.
  assert (Eb0 : s64 bt = bt) by (symmetry; apply s64_nonneg; [done|lia]).
  pose proof (di_range _ _ Hi) as Hr.
  assert (Ee : end_ s = bt + 1) by (unfold end_; by rewrite E, Eb0).
  assert (Elim : limit s = bt).
  { unfold limit. rewrite E, Eb0. destruct (Z.ltb_spec tp bt); lia. }
  set (s' := owner_returns _ _ _).
  assert (Ee' : end_ s' = bt) by (change (end_ s') with (s64 (bot s)); by rewrite <- Ebt).
  pose proof (di_content _ _ Hi) as Hc. unfold content in Hc. rewrite E, app_nil_r, Ee in Hc.
  replace (bt + 1 - top s) with (bt - top s + 1) in Hc by lia.
  rewrite seqZ_snoc, fmap_app in Hc by lia. simpl in Hc.
  replace (top s + (bt - top s)) with bt in Hc by lia. rewrite <- Eptr in Hc.
  apply fmap_app_inv in Hc as (q' & q1 & Hq' & Hq1 & ->).
  destruct q1 as [|[h U] [|]]; try done. simpl in Hq1. injection Hq1 as <-.
  assert (Hptr : ptr <> nullptr).
  { pose proof (di_nonnull _ _ Hi) as Hnn. apply Forall_app in Hnn as [_ Hnn]. by inversion Hnn. }
  assert (Hlen : length q' = Z.to_nat (bt - top s)).
  { rewrite <- (length_fmap fst), <- Hq', length_fmap, length_seqZ. done. }
  exists q'. apply inv_weak_owner_step with s (q' ++ [(ptr, U)]); rewrite ?Ee', ?Elim; try done; try lia.
  - by etrans.
  - intros j. apply (di_rel_slots _ _ Hi). by rewrite E.
  - change (bt <= end_ s' <= bt). lia.
  - rewrite (n_pushed_snoc s s' (pop_event ptr)) by done.
    rewrite pop_event_success by done. simpl. lia.
  - intros p Hp. apply elem_of_app. by left.
  - intros j Hj. rewrite lookup_app_l; [done|lia].
  - simpl. rewrite pop_event_success by done. apply history_pop with U, Hi.
  - rewrite <- Hq'. unfold content. rewrite Ee', app_nil_r. done.
Qed.

(** The owner loads the last handle and goes on to race for it. *)
Lemma inv_pop_last s q bt i ptr T :
  deque_inv s q -> owner s = PopLoadSlot bt bt ->
  load false (slot bt) i (oview s) (mem s) = Some (ptr, T) ->
  deque_inv (owner_to (PopCas bt bt ptr) T s) q.
Proof.
  intros Hi E El. pose proof (di_views _ _ Hi) as [].
  pose proof (load_slot _ _ _ _ _ _ _ (di_own_slots _ _ Hi _) El) as ->.
  destruct (load_closed _ _ _ _ _ _ _ El vo_owner0 vo_mem0) as [HcT HleT].
  pose proof (di_owner _ _ Hi) as Hok. unfold owner_ok in Hok. rewrite E in Hok. destruct Hok as (Ebt & Htp & HTt).
  specialize (HleT LTop). apply inv_owner_move; try done; try (by rewrite E);
    try (unfold end_; by rewrite E); try (unfold content, end_; by rewrite E).
  - by eapply load_closed.
  - unfold limit, end_. rewrite E. simpl. rewrite Z.ltb_irrefl. lia.
  - unfold owner_ok. simpl. split_and!; [done|lia|done|done|lia].
Qed.

(** The compare-exchange on [top_] succeeds exactly when [top_] is what the
    thread read. *)
Lemma cas_top s q i tp T ok T' M' :
  deque_inv s q -> n_pushed s < 2 ^ 63 -> closed T (mem s) -> 0 <= tp <= Z.of_nat (T LTop) ->
  compare_exchange true LTop i tp (tp ⊕ 1) T (mem s) = Some (ok, T', M') ->
  closed T' M' /\ vle T T' /\
  ((ok = true /\ tp = top s /\ M' = append LTop (mkWrite (top s + 1) T') (mem s) /\ top s < Z.of_nat (T' LTop)) \/
   (ok = false /\ tp < top s /\ M' = mem s)).
Proof.
  intros Hi Hb HcT Htp (w & Hw & Hle & Hcase)%compare_exchange_spec.
  pose proof (di_top _ _ Hi _ _ Hw) as Ew. pose proof (lookup_lt_Some _ _ _ Hw) as Hlen.
  pose proof (di_range _ _ Hi). pose proof (di_count _ _ Hi). pose proof (di_views _ _ Hi) as [].
  destruct Hcase as [(-> & E & El & -> & ->)|(-> & E & -> & ->)].
  - assert (Et : tp = top s) by (unfold top; lia). split_and!.
    + apply closed_new, closed_join; [done|]. by eapply closed_view.
    + etrans; [apply (vjoin_l T (w_view w))|]. apply vset_le.
      pose proof (closed_join _ _ _ HcT (closed_view _ _ _ _ vo_mem0 Hw) LTop). lia.
    + left. split_and!; [done|done| |].
      * rewrite Et, add64_small; [done|]. pose proof (top_nonneg s). lia.
      * rewrite vset_eq. unfold top. lia.
  - split_and!; [by apply closed_vset|by apply vset_le|]. right. split_and!; [done| |done]. unfold top. lia.
Qed.

Lemma inv_pop_cas s q bt tp ptr i ok T M :
  deque_inv s q -> n_pushed s < 2 ^ 63 -> owner s = PopCas bt tp ptr ->
  compare_exchange true LTop i tp (tp ⊕ 1) (oview s) (mem s) = Some (ok, T, M) ->
  deque_inv (owner_to (PopRestore bt (if ok : bool then ptr else nullptr)) T (with_mem M s)) q.
Proof.
  intros Hi Hb E Hcas. pose proof (di_views _ _ Hi) as [].
  pose proof (di_owner _ _ Hi) as Hok. unfold owner_ok in Hok. rewrite E in Hok.
  destruct Hok as (Ebt & Hbt & -> & Eptr & Hview).
  destruct (cas_top _ _ _ _ _ _ _ _ Hi Hb vo_owner0 (conj Hbt Hview) Hcas) as (HcT & HleT & Hcase).
  pose proof (di_range _ _ Hi) as Hr. pose proof (di_count _ _ Hi).
  pose proof (top_bound (oview s) s q Hi vo_owner0) as Hvt.
  assert (Eb0 : s64 bt = bt) by (apply s64_small; lia).
  assert (Ee : end_ s = bt + 1) by (unfold end_; by rewrite E, Eb0).
  assert (El : limit s = bt + 1) by (unfold limit; by rewrite E, Ee).
  pose proof (di_content _ _ Hi) as Hc.
  destruct Hcase as [(-> & Etop & -> & HT)|(-> & Hlt & ->)].
  - set (s' := owner_to _ _ _).
    assert (Hc1 : q.*1 = [ptr]).
    { rewrite Hc. unfold content. rewrite E, Ee, <- Etop. replace (bt + 1 - bt) with 1 by lia. by rewrite Eptr. }
    assert (Hptr : ptr <> nullptr).
    { destruct q as [|[h U] [|]]; try done. injection Hc1 as ->.
      pose proof (di_nonnull _ _ Hi) as Hnn. by inversion Hnn. }
    assert (Etop' : top s' = top s + 1).
    { pose proof (vo_owner0 LTop). unfold top. simpl. rewrite append_length, decide_True by done. lia. }
    assert (Ee' : end_ s' = end_ s) by (rewrite Ee; unfold end_; simpl; by rewrite Eb0).
    apply inv_top_advance with s q (mkWrite (top s + 1) T); try done; try lia; try (by rewrite E).
    + change (limit s') with (end_ s'). lia.
    + simpl. lia.
    + unfold owner_ok. rewrite Etop'. simpl. unfold bot. simpl. rewrite newest_append_ne by done.
      fold (bot s). split; [done|lia].
    + apply Hi.
    + rewrite Hc1. unfold content. rewrite Etop', Ee', Ee, <- Etop. replace (bt + 1 - (bt + 1)) with 0 by lia.
      simpl. by destruct (Z.eqb_spec ptr nullptr).
  - change (deque_inv (owner_to (PopRestore bt nullptr) T s) q).
    apply inv_owner_move; try done; try (by rewrite E).
    + unfold end_. by rewrite E.
    + unfold content, end_. by rewrite E.
    + rewrite El, Ee. unfold limit, end_. simpl. lia.
    + unfold owner_ok. simpl. split; [done|]. change (top s = s64 bt + 1). lia.
Qed.

(** [bottom_] is put back and [pop] returns. *)
Lemma inv_weak_pop_restore s q bt ptr :
  let '(T, M) := store_fenced LBottom (bt ⊕ 1) (orel s) (oview s) (mem s) in
  deque_inv s q -> n_pushed s < 2 ^ 63 -> owner s = PopRestore bt ptr ->
  deque_inv (owner_returns OIdle (pop_event ptr) (owner_to OIdle T (with_mem M s))) [].
Proof.
  simpl. set (s' := owner_returns _ _ _). intros Hi Hb E.
  pose proof (di_owner _ _ Hi) as Hok. unfold owner_ok in Hok. rewrite E in Hok. destruct Hok as [Ebt Et0].
  pose proof (bot_val s q Hi) as [Hbv Ebv]. rewrite <- Ebt in Hbv, Ebv.
  pose proof (di_range _ _ Hi) as Hr. pose proof (di_count _ _ Hi) as Hn. pose proof (pow2_pos k).
  assert (Ee : end_ s = top s) by (rewrite Et0; unfold end_; by rewrite E).
  assert (El : limit s = top s) by lia.
  assert (Ev : bt ⊕ 1 = u64 (top s)) by (rewrite Ebv, u64_add; f_equal; lia).
  assert (Et : top s' = top s) by (unfold top; simpl; by rewrite append_ne).
  assert (Ee' : end_ s' = top s).
  { change (end_ s') with (s64 (bot s')). unfold bot. simpl. rewrite newest_append_eq. simpl.
    rewrite Ev, s64_u64; [done|]. pose proof (top_nonneg s). lia. }
  assert (El' : limit s' = top s) by (rewrite <- Ee'; done).
  assert (Hq : q.*1 = if ptr =? nullptr then [] else [ptr]).
  { rewrite (di_content _ _ Hi). unfold content. rewrite E, Ee. by replace (top s - top s) with 0 by lia. }
  assert (Hh : history (log s') []).
  { simpl. pose proof (di_history _ _ Hi) as Hh. destruct (Z.eqb_spec ptr nullptr) as [->|Hne].
    - apply fmap_nil_inv in Hq as ->. by apply history_pop_empty.
    - rewrite pop_event_success by done. destruct q as [|[h U] [|]]; try done. injection Hq as ->.
      by apply history_pop with U. }
  assert (En : n_pushed s' = n_pushed s).
  { rewrite (n_pushed_snoc s s' (pop_event ptr)) by done. unfold pop_event. destruct (pop_result ptr); simpl; lia. }
  apply inv_bottom_store with s q (top s); rewrite ?Ee', ?El', ?En, ?El; try done; try (by rewrite E);
    try lia; pose proof (top_nonneg s); try lia.
  - simpl. by rewrite Ev.
  - unfold qsize. lia.
  - intros h U HU. by apply elem_of_nil in HU.
  - unfold content. rewrite Ee', Et. by replace (top s - top s) with 0 by lia.
Qed.

(** ** The steps of [steal] *)

(** After its fence a thief acts only on what [pop] has not given up. *)
Lemma inv_thief_fence s q t tp T :
  let F := vjoin T (sc s) in
  deque_inv s q -> thieves s !! t = Some (TFence tp, T) ->
  deque_inv (mkD (mem s) F (oview s) (orel s) (owner s) (<[t := (TLoadBottom tp, F)]> (thieves s)) (log s)) q.
Proof.
  simpl. set (F := vjoin _ _). set (s' := mkD _ _ _ _ _ _ _). intros Hi Ht.
  pose proof (di_views _ _ Hi) as []. pose proof (di_sc_top _ _ Hi).
  assert (HcT : closed T (mem s)) by apply (vo_thieves0 t _ Ht).
  assert (HF : closed F (mem s)) by by apply closed_join.
  assert (HTF : vle T F) by apply vjoin_l. assert (HsF : vle (sc s) F) by apply vjoin_r.
  pose proof (HTF LTop). pose proof (HsF LTop). pose proof (HsF LBottom).
  destruct (di_thieves _ _ Hi t _ Ht) as [Htp0 Htp]. simpl in Htp.
  split; try done; try (apply Hi).
  - split; try done. by apply map_Forall_insert_2.
  - change (top s') with (top s). simpl. lia.
  - intros j w Hj Hs. simpl in Hs. apply (di_sound _ _ Hi j w Hj). lia.
  - apply map_Forall_insert_2.
    + simpl. split_and!; [lia|lia|lia|]. change (top s') with (top s). intros -> j w Hj Hs Hlt.
      destruct (di_sound _ _ Hi j w Hj ltac:(lia)) as [Hd1 Hd2].
      split; [change (limit s') with (limit s); lia|]. apply Hd2. lia.
    + eapply map_Forall_impl; [apply (di_thieves _ _ Hi)|]. intros t' [pc T'] Hth.
      eapply thief_ok_step; [done|simpl; lia|done| |exact Hth]. intros _. split; [done|by left].
Qed.

Lemma inv_thief_load s q t pc T i s' :
  deque_inv s q -> n_pushed s < 2 ^ 63 -> thieves s !! t = Some (pc, T) ->
  match pc with TCas _ _ | TFence _ => False | _ => True end ->
  thief_act k t pc T i s = Some s' -> deque_inv s' q.
Proof.
  intros Hi Hb Ht Hpc Ha. pose proof (di_views _ _ Hi) as [].
  assert (HcT : closed T (mem s)) by apply (vo_thieves0 t _ Ht).
  pose proof (di_thieves _ _ Hi t _ Ht) as Hok. simpl in Hok.
  destruct pc as [|tp|tp|tp|tp ptr]; try done; simpl in Ha.
  - destruct (load true LTop i T (mem s)) as [[tp T1]|] eqn:El; simplify_eq/=.
    destruct (load_closed _ _ _ _ _ _ _ El HcT vo_mem0) as [Hc Hle].
    destruct (load_top _ _ _ _ _ _ _ Hi El) as (-> & ? & ?). apply inv_thief_move; [done..|]. simpl. lia.
  - destruct (load true LBottom i T (mem s)) as [[bt T1]|] eqn:El; simplify_eq/=.
    destruct (load_closed _ _ _ _ _ _ _ El HcT vo_mem0) as [Hc Hle]. pose proof (Hle LTop).
    destruct (s64 tp <? s64 bt) eqn:Ecmp; [|by apply inv_thief_leaves].
    apply load_spec in El as (w & Hw & -> & Hge & ->). destruct Hok as (Hr & HT & Hok).
    pose proof (top_bound (sc s) s q Hi vo_sc0). pose proof (di_range _ _ Hi). pose proof (di_count _ _ Hi).
    apply Z.ltb_lt in Ecmp. rewrite s64_small in Ecmp by lia.
    apply inv_thief_move; [done..|]. simpl. split_and!; [lia|lia|lia|]. intros Et.
    destruct (Hok Et i w Hw Hge Ecmp) as [Hlim [Hk1 Hk2]]. split; [done|]. split.
    + apply (latest_mono (w_view w)); [done|apply vjoin_r|done].
    + intros h U HU. etrans; [by eapply Hk2|apply vjoin_r].
  - destruct (load false (slot tp) i T (mem s)) as [[ptr T1]|] eqn:El; simplify_eq/=.
    destruct (load_closed _ _ _ _ _ _ _ El HcT vo_mem0) as [Hc Hle]. pose proof (Hle LTop).
    destruct Hok as (Hr & HT & Hok). apply inv_thief_move; [done..|]. simpl. split_and!; [lia|lia|lia|].
    intros Et. destruct (Hok Et) as [Hlim [Hk1 Hk2]]. split_and!; [done| |by eapply load_slot].
    split; [by apply (latest_mono T)|]. intros h U HU. etrans; [by eapply Hk2|done].
Qed.

Lemma inv_thief_cas s q t tp ptr T i s' :
  deque_inv s q -> n_pushed s < 2 ^ 63 -> thieves s !! t = Some (TCas tp ptr, T) ->
  thief_act k t (TCas tp ptr) T i s = Some s' -> exists q', deque_inv s' q'.
Proof.
  intros Hi Hb Ht Ha. pose proof (di_views _ _ Hi) as [].
  assert (HcT : closed T (mem s)) by apply (vo_thieves0 t _ Ht).
  destruct (di_thieves _ _ Hi t _ Ht) as (Hr & HT & Hok). simpl in HT, Ha.
  destruct (compare_exchange _ _ _ _ _ _ _) as [[[ok T'] M']|] eqn:Hcas; simplify_eq/=.
  destruct (cas_top _ _ _ _ _ _ _ _ Hi Hb HcT ltac:(split; [apply Hr|exact HT]) Hcas) as (HcT' & HleT & Hcase).
  destruct Hcase as [(-> & Etop & -> & HT')|(-> & Hlt & ->)]; [|exists q; by apply inv_thief_leaves].
  destruct (Hok Etop) as (Hlim & [_ Hk] & Eptr). set (s' := mkD _ _ _ _ _ _ _).
  pose proof (di_range _ _ Hi) as Hrange. pose proof (di_content _ _ Hi) as Hc.
  assert (Etop' : top s' = top s + 1).
  { pose proof (vo_owner0 LTop). unfold top. simpl. rewrite append_length, decide_True by done. lia. }
  assert (Ebot : bot s' = bot s) by (unfold bot; simpl; by rewrite newest_append_ne).
  assert (Ee : end_ s' = end_ s) by (unfold end_; simpl; by rewrite Ebot).
  assert (El : limit s' = limit s) by (unfold limit; simpl; by rewrite Ee).
  assert (Hnr : forall bt p, owner s <> PopRestore bt p).
  { intros bt p E. pose proof (di_owner _ _ Hi) as Ho. unfold owner_ok in Ho. rewrite E in Ho.
    unfold limit, end_ in Hlim. rewrite E in Hlim. lia. }
  rewrite Etop in *.
  assert (Hc' : q.*1 = at_ s (top s) :: (at_ s <$> seqZ (top s + 1) (end_ s - (top s + 1)))).
  { rewrite Hc, content_window, seqZ_cons by (done || lia). simpl.
    replace (Z.pred (end_ s - top s)) with (end_ s - (top s + 1)) by lia. by rewrite <- Z.add_1_r. }
  destruct q as [|[h U] q']; [done|]. rewrite fmap_cons in Hc'. injection Hc' as Eh Eq'.
  exists q'. apply inv_top_advance with s ((h, U) :: q') (mkWrite (top s + 1) T'); try done; try lia.
  - by apply closed_append.
  - intros t' p Hp. simpl in Hp. by apply lookup_delete_Some in Hp as [_ Hp].
  - rewrite (n_pushed_snoc s s' (ESteal ptr T')) by done. simpl. lia.
  - intros p Hp. by apply list_elem_of_further.
  - intros j Hj. replace (Z.to_nat (j - top s)) with (S (Z.to_nat (j - (top s + 1)))) by lia. done.
  - eapply owner_ok_advance; [done..|apply Hi].
  - simpl. rewrite Eptr, <- Eh. apply history_steal with U; [apply Hi|]. etrans; [|exact HleT].
    apply (Hk h). by replace (Z.to_nat (top s - top s)) with 0%nat by lia.
  - rewrite Eq', content_window by done. by rewrite Ee, Etop'.
Qed.

(** ** Every step *)

Lemma n_pushed_mono s s' : deque_step k s s' -> n_pushed s <= n_pushed s'.
Proof.
  assert (Happ : forall l1 l2, (length (List.filter is_push l1) <= length (List.filter is_push (l1 ++ l2)))%nat).
  { intros. rewrite List.filter_app, length_app. lia. }
  intros [c Ha]. unfold n_pushed. destruct c as [h|h| |i|t|t i]; simpl in Ha.
  - destruct (owner s); simplify_eq. done.
  - destruct (owner s), (h =? nullptr); simplify_eq. done.
  - destruct (owner s); simplify_eq. done.
  - unfold owner_act in Ha. destruct (owner s); simplify_option_eq; simplify_eq/=; try done;
      repeat case_match; simplify_eq/=; try done; specialize (Happ (log s)); apply inj_le, Happ.
  - destruct (thieves s !! t); simplify_eq. done.
  - destruct (thieves s !! t) as [[pc T]|]; simplify_eq/=.
    destruct pc; simpl in Ha; simplify_option_eq; simplify_eq/=; try done;
      repeat case_match; simplify_eq/=; try done; specialize (Happ (log s)); apply inj_le, Happ.
Qed.

Lemma inv_touch s q h :
  let '(T, M) := store_fenced (LFrame h) 0 (orel s) (oview s) (mem s) in
  deque_inv s q -> owner s = OIdle -> deque_inv (owner_to OIdle T (with_mem M s)) q.
Proof.
  simpl. set (s' := owner_to _ _ _). intros Hi E.
  assert (Ee : end_ s' = end_ s) by (unfold end_; by rewrite E).
  assert (El : limit s' = limit s) by (unfold limit; by rewrite E).
  assert (Hl : forall T l, l <> LFrame h -> latest T l (mem s) -> latest T l (mem s')).
  { intros. by apply latest_append_ne. }
  assert (Hk : forall i V, knows s q i V -> knows s' q i V).
  { intros i V [H1 H2]. split; [by apply Hl|done]. }
  split; try (apply Hi); rewrite ?Ee, ?El; try (apply Hi).
  - eapply views_store; [apply (di_views _ _ Hi)|done..].
  - intros j _. apply Hl; [done|]. apply (di_rel_slots _ _ Hi). by rewrite E.
  - intros j w Hj Hs. destruct (di_sound _ _ Hi j w Hj Hs) as [H1 H2]. split; [by rewrite El|].
    intros i Hi'. by apply Hk, H2.
  - done.
  - eapply map_Forall_impl; [apply (di_thieves _ _ Hi)|]. intros t [pc T] Hth.
    eapply thief_ok_step; [apply (di_views _ _ Hi)|done|done| |exact Hth]. intros _. rewrite El.
    split; [|by left]. intros _ ?. split_and!; [done|done|]. intros V. apply Hk.
  - rewrite (di_content _ _ Hi). unfold content. by rewrite E, Ee.
Qed.

Lemma inv_owner_load s q i s' :
  deque_inv s q -> n_pushed s < 2 ^ 63 ->
  match owner s with PushLoadBottom _ | PushLoadTop _ _ | PopLoadBottom => True | _ => False end ->
  owner_act k i s = Some s' -> deque_inv s' q.
Proof.
  intros Hi Hb Hpc Ha. pose proof (di_views _ _ Hi) as [].
  pose proof (di_owner _ _ Hi) as Hok. unfold owner_ok in Hok. unfold owner_act in Ha.
  pose proof (di_range _ _ Hi) as Hr. pose proof (di_count _ _ Hi) as Hn.
  assert (Ee : end_ s = s64 (bot s)) by (unfold end_; by destruct (owner s)).
  assert (El : limit s = end_ s) by (unfold limit, end_; by destruct (owner s)).
  destruct (bot_end s q Hi Ee) as [Eb Hb0].
  assert (Hmove : forall pc T, closed T (mem s) -> vle (oview s) T ->
    end_ (owner_to pc T s) = s64 (bot s) -> limit (owner_to pc T s) = s64 (bot s) ->
    (forall bt ptr, pc <> PopRestore bt ptr) -> owner_ok (owner_to pc T s) -> deque_inv (owner_to pc T s) q).
  { intros pc T Hc Hle Ee' El' Hnr Ho. apply inv_owner_move; try done; rewrite ?Ee', ?El', ?El, ?Ee; try done.
    - intros h bt Eo. by rewrite Eo in Hpc.
    - rewrite !content_window by (done || by destruct (owner s)). by rewrite Ee', Ee. }
  destruct (owner s) as [|h|h bt| | | | | | | | | |] eqn:E; try done.
  - destruct (load false LBottom i _ _) as [[bt T]|] eqn:Eld; simplify_eq/=.
    destruct (load_closed _ _ _ _ _ _ _ Eld vo_owner0 vo_mem0) as [Hc Hle].
    rewrite (load_bottom _ _ _ _ _ _ _ Hi (di_own_bottom _ _ Hi) Eld). by apply Hmove.
  - destruct (load true LTop i _ _) as [[tp T]|] eqn:Eld; simplify_eq/=. destruct Hok as [Hh ->].
    destruct (load_closed _ _ _ _ _ _ _ Eld vo_owner0 vo_mem0) as [Hc Hle].
    destruct (load_top _ _ _ _ _ _ _ Hi Eld) as (Etp & Htp & _). rewrite sub64_small by lia.
    destruct (Z.leb_spec (qsize k) (bot s - tp)) as [|Hroom]; apply Hmove; try done.
    unfold owner_ok. simpl. split_and!; [done|done|]. change (bot s - top s < qsize k). lia.
  - destruct (load false LBottom i _ _) as [[bt T]|] eqn:Eld; simplify_eq/=.
    destruct (load_closed _ _ _ _ _ _ _ Eld vo_owner0 vo_mem0) as [Hc Hle].
    rewrite (load_bottom _ _ _ _ _ _ _ Hi (di_own_bottom _ _ Hi) Eld). by apply Hmove.
Qed.

Lemma inv_owner_act s q i s' :
  deque_inv s q -> n_pushed s <= n_pushed s' < 2 ^ 63 -> owner_act k i s = Some s' -> exists q', deque_inv s' q'.
Proof.
  intros Hi Hb Ha. assert (Hb0 : n_pushed s < 2 ^ 63) by lia. pose proof Ha as Ha0. unfold owner_act in Ha.
  destruct (owner s) as [|h|h bt|h bt|h bt|h bt| |bt|bt|bt|bt tp|bt tp ptr|bt ptr] eqn:E; simpl in Ha; try done.
  - exists q. eapply inv_owner_load; [done|done|by rewrite E|done].
  - exists q. eapply inv_owner_load; [done|done|by rewrite E|done].
  - simplify_eq. exists q. by apply inv_push_slot.
  - simplify_eq. exists q. by apply inv_push_fence.
  - simplify_eq. eexists. apply (inv_push_publish s q h bt); [done|done|apply Hb].
  - exists q. eapply inv_owner_load; [done|done|by rewrite E|done].
  - simplify_eq. exists q. by apply inv_pop_store.
  - simplify_eq. exists q. by apply inv_pop_fence.
  - destruct (load _ _ _ _ _) as [[tp T]|] eqn:El; simplify_eq/=. exists q. by eapply inv_weak_pop_load_top.
  - destruct (load _ _ _ _ _) as [[ptr T]|] eqn:El; simplify_eq/=.
    destruct (Z.eqb_spec tp bt) as [->|Hne]; [|by eapply inv_pop_take].
    exists q. by eapply inv_pop_last.
  - destruct (compare_exchange _ _ _ _ _ _ _) as [[[ok T] M]|] eqn:El; simplify_eq/=.
    exists q. by eapply inv_pop_cas.
  - simplify_eq. exists []. by eapply inv_weak_pop_restore.
Qed.

Lemma deque_step_inv s q s' :
  deque_inv s q -> n_pushed s' < 2 ^ 63 -> deque_step k s s' -> exists q', deque_inv s' q'.
Proof.
  intros Hi Hb Hs. pose proof (n_pushed_mono s s' Hs) as Hm. destruct Hs as [c Ha].
  pose proof (di_views _ _ Hi) as [].
  destruct c as [h|h| |i|t|t i]; simpl in Ha.
  - destruct (owner s) eqn:E; simplify_eq. exists q. by apply inv_touch.
  - destruct (owner s) eqn:E; try done. destruct (Z.eqb_spec h nullptr); simplify_eq. exists q.
    apply inv_owner_move; try done; unfold limit, content, end_; rewrite E; try done.
  - destruct (owner s) eqn:E; simplify_eq. exists q.
    apply inv_owner_move; try done; unfold limit, content, end_; rewrite E; try done.
  - eapply inv_owner_act; [done|split; [exact Hm|done]|done].
  - destruct (thieves s !! t) eqn:E; simplify_eq. exists q. apply inv_thief_move; try done.
    apply closed_bot. intros l El. specialize (vo_owner0 l). rewrite El in vo_owner0. simpl in *. lia.
  - destruct (thieves s !! t) as [[pc T]|] eqn:E; simplify_eq/=. assert (Hb0 : n_pushed s < 2 ^ 63) by lia.
    destruct pc as [|tp|tp|tp|tp ptr] eqn:Epc; try (exists q; by eapply inv_thief_load).
    + simpl in Ha. simplify_eq. exists q. by apply inv_thief_fence.
    + by eapply inv_thief_cas.
Qed.

Lemma deque_start_inv : deque_inv deque_start [].
Proof.
  split; simpl; try done; try (intros [|n] w; [|done]; intros [= <-]).
  - split; try (intros l; simpl; unfold vbot; lia); try done. intros l w Hw.
    apply list_elem_of_singleton in Hw as ->. intros l'. simpl. unfold vbot. lia.
  - done.
  - exists 0. done.
  - intros h U HU. by apply elem_of_nil in HU.
  - unfold qsize. pose proof (pow2_pos k). change (0 - 0 <= 2 ^ Z.of_nat k). lia.
  - intros _. split; [done|]. intros i Hi. change (0 <= i < 0) in Hi. lia.
  - constructor.
Qed.

Lemma deque_reachable_inv s :
  reachable deque_init (deque_step k) s -> n_pushed s < 2 ^ 63 -> exists q, deque_inv s q.
Proof.
  revert s. apply (reachable_ind _ _ (fun s => n_pushed s < 2 ^ 63 -> exists q, deque_inv s q)).
  - intros s -> _. exists []. apply deque_start_inv.
  - intros s s' _ IH Hs Hb. pose proof (n_pushed_mono s s' Hs). destruct IH as [q Hi]; [lia|].
    by eapply deque_step_inv.
Qed.

End Invariant.

(** C3. With the memory orders and fences of the code, one owner and any number
    of thieves at the same time, each of whom may read old values: as long as
    fewer than [2^63] handles were pushed, the calls return what a sequential
    deque returns. A pop takes the last handle and reports empty only when the
    deque is; a steal takes the first, and the thief then knows all that the
    pushing thread knew; what remains is in the slots. So every handle pushed
    was returned once or is still there. *)
Theorem deque_release_acquire (k : nat) (s : deque) :
  reachable deque_init (deque_step k) s -> n_pushed s < 2 ^ 63 ->
  (exists q, history (log s) q /\ q.*1 = content k s) /\
  pushed (log s) ≡ₚ returned (log s) ++ content k s.
Proof.
  intros Hr Hb. destruct (deque_reachable_inv k s Hr Hb) as [q Hi].
  pose proof (di_content _ _ _ Hi) as Hc. pose proof (di_history _ _ _ Hi) as Hh.
  split; [by exists q|]. rewrite <- Hc. by apply history_conserves.
Qed.

(** Thief 0 sees the old [bottom_] and gives up; thief 1 and the owner race for
    the only handle; the thief wins. *)
Definition weak_race : list choice :=
  [Touch 7; CallPush 7; OwnerGo 0; OwnerGo 0; OwnerGo 0; OwnerGo 0; OwnerGo 0;
   CallSteal 0; ThiefGo 0 0; ThiefGo 0 0; ThiefGo 0 0;
   CallSteal 1; ThiefGo 1 0; ThiefGo 1 0; ThiefGo 1 1; ThiefGo 1 1;
   CallPop; OwnerGo 1; OwnerGo 0; OwnerGo 0; OwnerGo 0; OwnerGo 1; ThiefGo 1 0; OwnerGo 1; OwnerGo 0].

Lemma deque_release_acquire_witness :
  exists s, run_schedule (deque_act 1) weak_race deque_start = Some s /\
    (exists q, history (log s) q /\ q.*1 = content 1 s) /\
    returned (log s) = [7] /\ thieves s = ∅ /\ owner s = OIdle.
Proof.
  destruct (run_schedule (deque_act 1) weak_race deque_start) as [s|] eqn:E.
  - exists s. destruct (deque_release_acquire 1 s) as (H1 & _).
    + apply (run_schedule_reachable deque_init (deque_step 1) (deque_act 1)) with weak_race deque_start.
      * intros c x y Ha. exists c. exact Ha.
      * apply reachable_init. reflexivity.
      * exact E.
    + vm_compute in E. injection E as <-. reflexivity.
    + split; [reflexivity|]. split; [exact H1|]. vm_compute in E. injection E as <-. split_and!; reflexivity.
  - vm_compute in E. discriminate.
Defined.

End WsWeakInv.
