(* ===== verification/MailQueueWeak.v ===== *)
(** * Producers and the consumer of a [MailQueue], under release/acquire

    [try_enqueue], [try_dequeue] and [can_dequeue] of [MailQueue]
    (include/queue.h) access by access on the memory of WeakMem, with the orders
    of the code: indices are relaxed, sequence numbers pass views on, the
    messages in the slots are not atomic. *)

From Stdlib Require Import ZArith Lia.
From stdpp Require Import base list list_numbers relations gmap.
From S2P Require Import Prelude WeakMem.

Local Open Scope Z_scope.
Local Open Scope u64_scope.

Module MqWeak.

(** [LBody m]: what the message [m] points to. *)
Inductive location := LWrite | LRead | LSeq (j : nat) | LMsg (j : nat) | LBody (m : Z).

#[global] Instance location_eq_dec : EqDecision location.
Proof. solve_decision. Defined.

(** A producer in [try_enqueue] of [m], the consumer in [try_dequeue] or
    [can_dequeue]. *)
Inductive prod_pc :=
  | PIdle
  | ELoadIndex (m : Z)
  | ELoadSeq (m w : Z)
  | ECas (m w : Z)
  | EStoreMsg (m w : Z)
  | EPublish (m w : Z).

Inductive cons_pc :=
  | CIdle
  | DLoadIndex
  | DLoadSeq (r : Z)
  | DLoadMsg (r : Z)
  | DClearMsg (r m : Z)
  | DStoreIndex (r m : Z)
  | DStoreSeq (r m : Z)
  | QLoadIndex
  | QLoadSeq (r : Z).

Record mail := mkMail {
  mem : memory location Z;
  producers : gmap nat (prod_pc * view location);
  consumer : cons_pc;
  cview : view location;
  polled : bool;   (* what [can_dequeue] said, since the last message taken *)
  (* history: messages with what their sender knew, in the order of the
     tickets; messages returned, with what the consumer knew *)
  tickets : list (Z * view location);
  received : list (Z * view location)
}.

Section Steps.
Context (k : nat).
Local Abbreviation N := (2 ^ Z.of_nat k).

Definition slot (i : Z) : nat := mask_index i (N - 1).

Definition prod_to (t : nat) (pc : prod_pc) (T : view location) (s : mail) : mail :=
  mkMail (mem s) (<[t := (pc, T)]> (producers s)) (consumer s) (cview s) (polled s) (tickets s) (received s).

Definition cons_to (pc : cons_pc) (T : view location) (s : mail) : mail :=
  mkMail (mem s) (producers s) pc T (polled s) (tickets s) (received s).

Definition with_mem (M : memory location Z) (s : mail) : mail :=
  mkMail M (producers s) (consumer s) (cview s) (polled s) (tickets s) (received s).

(** [i]: which write a load returns; an access to a message is [None] when it
    races with another one. *)
Definition prod_act (t : nat) (pc : prod_pc) (T : view location) (i : nat) (s : mail) : option mail :=
  match pc with
  | PIdle => None
  | ELoadIndex m =>
      '(w, T1) ← load false LWrite i T (mem s);
      Some (prod_to t (ELoadSeq m w) T1 s)
  | ELoadSeq m w =>
      '(q, T1) ← load true (LSeq (slot w)) i T (mem s);
      diff ← ssub64 q w;
      Some (prod_to t (if diff <? 0 then PIdle
                       else if diff =? 0 then ECas m w else ELoadIndex m) T1 s)
  | ECas m w =>
      '(ok, T1, M) ← compare_exchange false LWrite i w (w ⊕ 1) T (mem s);
      Some (if ok : bool then
              mkMail M (<[t := (EStoreMsg m w, T1)]> (producers s)) (consumer s) (cview s)
                (polled s) (tickets s ++ [(m, T)]) (received s)
            else prod_to t (ELoadIndex m) T1 s)
  | EStoreMsg m w =>
      '(_, T1, M) ← access (LMsg (slot w)) (fun _ => m) T (mem s);
      Some (prod_to t (EPublish m w) T1 (with_mem M s))
  | EPublish m w =>
      let (T1, M) := store true (LSeq (slot w)) (w ⊕ 1) T (mem s) in
      Some (prod_to t PIdle T1 (with_mem M s))
  end.

Definition cons_act (i : nat) (s : mail) : option mail :=
  match consumer s with
  | CIdle => None
  | DLoadIndex =>
      '(r, T) ← load false LRead i (cview s) (mem s);
      Some (cons_to (DLoadSeq r) T s)
  | DLoadSeq r =>
      '(q, T) ← load true (LSeq (slot r)) i (cview s) (mem s);
      diff ← ssub64 q (r ⊕ 1);
      Some (cons_to (if diff <? 0 then CIdle else DLoadMsg r) T s)
  | DLoadMsg r =>
      '(m, T, M) ← access (LMsg (slot r)) id (cview s) (mem s);
      Some (cons_to (DClearMsg r m) T (with_mem M s))
  | DClearMsg r m =>
      '(_, T, M) ← access (LMsg (slot r)) (fun _ => 0) (cview s) (mem s);
      Some (cons_to (DStoreIndex r m) T (with_mem M s))
  | DStoreIndex r m =>
      let (T, M) := store false LRead (r ⊕ 1) (cview s) (mem s) in
      Some (cons_to (DStoreSeq r m) T (with_mem M s))
  | DStoreSeq r m =>
      let (T, M) := store true (LSeq (slot r)) (r ⊕ N) (cview s) (mem s) in
      Some (mkMail M (producers s) CIdle T false (tickets s) (received s ++ [(m, cview s)]))
  | QLoadIndex =>
      '(r, T) ← load false LRead i (cview s) (mem s);
      Some (cons_to (QLoadSeq r) T s)
  | QLoadSeq r =>
      '(q, T) ← load true (LSeq (slot r)) i (cview s) (mem s);
      diff ← ssub64 q (r ⊕ 1);
      Some (mkMail (mem s) (producers s) CIdle T (0 <=? diff) (tickets s) (received s))
  end.

Inductive choice :=
  | Prepare (t : nat) (m : Z)            (* thread [t] fills the message [m] *)
  | CallEnqueue (t : nat) (m : Z)
  | ProdGo (t i : nat)
  | ProdSpurious (t : nat)               (* the weak compare-exchange fails without reason *)
  | CallDequeue
  | CallCanDequeue
  | ConsGo (i : nat).

(** A thread not met before knows nothing. *)
Definition thread (t : nat) (s : mail) : prod_pc * view location :=
  default (PIdle, vbot) (producers s !! t).

Definition mail_act (c : choice) (s : mail) : option mail :=
  match c with
  | Prepare t m =>
      match thread t s with
      | (PIdle, T) =>
          let (T1, M) := store false (LBody m) 0 T (mem s) in
          Some (prod_to t PIdle T1 (with_mem M s))
      | _ => None
      end
  | CallEnqueue t m =>
      match thread t s with (PIdle, T) => Some (prod_to t (ELoadIndex m) T s) | _ => None end
  | ProdGo t i => let (pc, T) := thread t s in prod_act t pc T i s
  | ProdSpurious t =>
      match thread t s with (ECas m w, T) => Some (prod_to t (ELoadIndex m) T s) | _ => None end
  | CallDequeue =>
      match consumer s with CIdle => Some (cons_to DLoadIndex (cview s) s) | _ => None end
  | CallCanDequeue =>
      match consumer s with CIdle => Some (cons_to QLoadIndex (cview s) s) | _ => None end
  | ConsGo i => cons_act i s
  end.

Definition mail_step (s s' : mail) : Prop := exists c, mail_act c s = Some s'.

(** The constructor's values, known to all. *)
Definition start_mem : memory location Z := fun l =>
  [mkWrite match l with LSeq j => Z.of_nat j | _ => 0 end vbot].

Definition mail_start : mail := mkMail start_mem ∅ CIdle vbot false [] [].

Definition mail_init (s : mail) : Prop := s = mail_start.

(** The next access of a thread to a message in a slot is a data race. *)
Definition prod_racy (s : mail) (p : prod_pc * view location) : bool :=
  match p.1 with EStoreMsg _ w => negb (exclusive (LMsg (slot w)) p.2 (mem s)) | _ => false end.

Definition cons_racy (s : mail) : bool :=
  match consumer s with
  | DLoadMsg r | DClearMsg r _ => negb (exclusive (LMsg (slot r)) (cview s) (mem s))
  | _ => false
  end.

End Steps.

End MqWeak.
