(* ===== verification/MailQueueWeakInv.v ===== *)
(** * The mail queue under release/acquire: the invariant and the theorems

    What producers, consumer and sequence numbers know in every reachable state
    of MailQueueWeak.v, step by step. *)

From Stdlib Require Import ZArith Lia.
From stdpp Require Import base list list_numbers relations gmap.
From S2P Require Import Prelude WeakMem MailQueueWeak.

Local Open Scope Z_scope.
Local Open Scope u64_scope.

Module MqWeakInv.
Import MqWeak.

Section Invariant.
Context (k : nat) (Hk : (1 <= k)%nat).
Local Abbreviation N := (2 ^ Z.of_nat k).
Local Abbreviation slot := (slot k).
Implicit Types (s : mail) (T V : view location) (wr : write location Z).

(** Tickets given out, slots handed back. *)
Definition n_taken s : Z := Z.of_nat (length (tickets s)).
Definition n_back s : Z := Z.of_nat (length (received s)).

Definition ticket s (i : Z) : option (Z * view location) := tickets s !! Z.to_nat i.

(** The newest sequence number of the slot of [i]. *)
Definition seq_last s (i : Z) wr : Prop := last (mem s (LSeq (slot i))) = Some wr.

Definition msg s (i : Z) : Z := newest (LMsg (slot i)) 0 (mem s).

Definition knows_msg s (i : Z) T : Prop := latest T (LMsg (slot i)) (mem s).

(** The consumer has begun to empty the slot of ticket [i]. *)
Definition touching (c : cons_pc) (i : Z) : Prop :=
  match c with DClearMsg r _ | DStoreIndex r _ | DStoreSeq r _ => r = i | _ => False end.

(** What the newest sequence number of the slot of ticket [i] stands for: a free
    slot, a slot being filled, or a published message. *)
Definition seq_ok s (i : Z) wr : Prop :=
  if decide (n_taken s <= i) then w_val wr = i /\ knows_msg s i (w_view wr)
  else w_val wr = i \/
    (w_val wr = i + 1 /\
     exists m V, ticket s i = Some (m, V) /\ vle V (w_view wr) /\
       (~ touching (consumer s) i -> knows_msg s i (w_view wr) /\ msg s i = m)).

(** Thread with view [T] holds ticket [w] for message [m]. *)
Definition holds s (m w : Z) T : Prop :=
  n_back s <= w < n_taken s /\ (exists V, ticket s w = Some (m, V) /\ vle V T) /\
  (exists wr, seq_last s w wr /\ w_val wr = w) /\ knows_msg s w T.

Definition prod_ok s (pc : prod_pc) T : Prop :=
  match pc with
  | PIdle | ELoadIndex _ => True
  | ELoadSeq _ w => 0 <= w <= n_taken s
  | ECas _ w =>
      0 <= w <= n_taken s /\
      exists n wr, mem s (LSeq (slot w)) !! n = Some wr /\ w_val wr = w /\ vle (w_view wr) T
  | EStoreMsg m w => holds s m w T
  | EPublish m w => holds s m w T /\ msg s w = m
  end.

(** The ticket a thread holds. *)
Definition held (pc : prod_pc) : option Z :=
  match pc with EStoreMsg _ w | EPublish _ w => Some w | _ => None end.

Definition cons_ok s : Prop :=
  let R := n_back s in
  let has := R < n_taken s /\ (exists wr, seq_last s R wr /\ w_val wr = R + 1) /\
             knows_msg s R (cview s) in
  let got m := exists V, ticket s R = Some (m, V) /\ vle V (cview s) in
  match consumer s with
  | CIdle | DLoadIndex | QLoadIndex => True
  | DLoadSeq r | QLoadSeq r => r = R
  | DLoadMsg r => r = R /\ has /\ got (msg s R)
  | DClearMsg r m | DStoreIndex r m | DStoreSeq r m => r = R /\ has /\ got m
  end.

Record mviews_ok s : Prop := {
  mv_mem : mem_closed (mem s);
  mv_cons : closed (cview s) (mem s);
  mv_prods : map_Forall (fun _ p => closed p.2 (mem s)) (producers s)
}.

Record mail_inv s : Prop := {
  mi_views : mviews_ok s;
  mi_write n wr : mem s LWrite !! n = Some wr -> w_val wr = Z.of_nat n;
  mi_taken : length (mem s LWrite) = S (length (tickets s));
  mi_read : newest LRead 0 (mem s) = match consumer s with DStoreSeq _ _ => n_back s + 1 | _ => n_back s end;
  mi_cread : latest (cview s) LRead (mem s);
  mi_order : n_back s <= n_taken s <= n_back s + N;
  mi_sorted j n1 n2 w1 w2 :
    mem s (LSeq j) !! n1 = Some w1 -> mem s (LSeq j) !! n2 = Some w2 -> (n1 < n2)%nat -> w_val w1 < w_val w2;
  mi_nonneg j n wr : mem s (LSeq j) !! n = Some wr -> 0 <= w_val wr;
  mi_slots i : n_back s <= i < n_back s + N -> exists wr, seq_last s i wr /\ seq_ok s i wr;
  mi_prods t pc T : producers s !! t = Some (pc, T) -> prod_ok s pc T;
  mi_unique t1 t2 p1 p2 w :
    producers s !! t1 = Some p1 -> producers s !! t2 = Some p2 ->
    held p1.1 = Some w -> held p2.1 = Some w -> t1 = t2;
  mi_cons : cons_ok s;
  mi_polled : polled s = true ->
    n_back s < n_taken s /\ latest (cview s) (LSeq (slot (n_back s))) (mem s) /\
    exists wr, seq_last s (n_back s) wr /\ w_val wr = n_back s + 1;
  mi_received : Forall2 (fun a b => a.1 = b.1 /\ vle b.2 a.2) (received s) (take (length (received s)) (tickets s))
}.

(** ** Slots and sequence numbers *)

Lemma two_le_size : 2 <= N.
Proof. change 2 with (2 ^ 1) at 1. apply Z.pow_le_mono_r; lia. Qed.

(** Two tickets of one slot are a lap apart. *)
Lemma slot_lap_le i j : slot i = slot j -> i <= j + 1 -> i <= j.
Proof.
  intros E Hle. destruct (decide (i = j + 1)) as [->|]; [exfalso|lia].
  pose proof two_le_size. assert (j + 1 = j); [|lia]. apply (mask_index_inj k); [exact E|lia].
Qed.

Lemma mail_slot_inj a i j : a <= i < a + N -> a <= j < a + N -> slot i = slot j -> i = j.
Proof. intros Hi Hj E. apply (mask_index_inj k); [exact E|lia]. Qed.

(** The ticket of the window whose slot is that of [w]. *)
Lemma window_ticket a w : exists i, a <= i < a + N /\ slot i = slot w.
Proof.
  exists (a + (w - a) mod N). pose proof (Z.mod_pos_bound (w - a) N (pow2_pos k)). split; [lia|].
  unfold slot, mask_index. rewrite !land_mask. f_equal. rewrite Zplus_mod_idemp_r. f_equal. lia.
Qed.

Lemma last_lookup_Some {A} (l : list A) x : last l = Some x <-> l !! pred (length l) = Some x.
Proof. by rewrite last_lookup. Qed.

(** An older sequence number is smaller. *)
Lemma seq_bound s j n wr wl :
  mail_inv s -> mem s (LSeq j) !! n = Some wr -> last (mem s (LSeq j)) = Some wl ->
  w_val wr <= w_val wl /\ (w_val wr = w_val wl -> wr = wl /\ S n = length (mem s (LSeq j))).
Proof.
  intros Hi Hn Hl. apply last_lookup_Some in Hl. pose proof (lookup_lt_Some _ _ _ Hn) as Hlt.
  destruct (decide (n = pred (length (mem s (LSeq j))))) as [E|Hne].
  - rewrite <- E in Hl. simplify_eq. split; [done|]. intros _. split; [done|lia].
  - assert (w_val wr < w_val wl) by (eapply (mi_sorted _ Hi); [exact Hn|exact Hl|lia]). lia.
Qed.

(** The newest number of a slot, whatever ticket names the slot. *)
Lemma seq_window s w :
  mail_inv s -> exists i wl, n_back s <= i < n_back s + N /\ slot i = slot w /\
    seq_last s w wl /\ seq_ok s i wl /\ i <= w_val wl <= i + 1.
Proof.
  intros Hi. destruct (window_ticket (n_back s) w) as (i & Hr & Es).
  destruct (mi_slots _ Hi i Hr) as (wl & Hl & Hok). exists i, wl. split_and!; try lia; try done.
  - unfold seq_last. by rewrite <- Es.
  - unfold seq_ok in Hok. destruct (decide _); lia.
  - unfold seq_ok in Hok. destruct (decide _); lia.
Qed.

Lemma n_back_nonneg s : 0 <= n_back s.
Proof. unfold n_back. lia. Qed.

(** A sequence number [w] in the slot of [w]: tickets before the lap of [w]
    have been handed back; if [w] is not taken it is the newest one. *)
Lemma seq_value_ticket s w n wr :
  mail_inv s -> 0 <= w <= n_taken s -> mem s (LSeq (slot w)) !! n = Some wr -> w_val wr = w ->
  w < n_back s + N /\ (w = n_taken s -> seq_last s w wr /\ knows_msg s w (w_view wr)).
Proof.
  intros Hi Hw Hn Ev. destruct (seq_window s w Hi) as (i & wl & Hr & Es & Hl & Hok & Hv).
  destruct (seq_bound _ _ _ _ _ Hi Hn Hl) as [Hle Heq]. pose proof (n_back_nonneg s).
  assert (w <= i) by (apply slot_lap_le; try lia; by rewrite Es). split; [lia|].
  intros Et. unfold seq_ok in Hok. rewrite decide_True in Hok by lia. destruct Hok as [Ei Hk'].
  assert (Eiw : i = w).
  { apply (mail_slot_inj (n_back s)); [lia| |done]. pose proof (mi_order _ Hi). lia. }
  destruct (Heq ltac:(lia)) as [-> _]. split; [done|]. by rewrite <- Eiw.
Qed.

(** All sequence numbers are small. *)
Lemma seq_small s j n wr :
  mail_inv s -> (exists w, slot w = j) -> mem s (LSeq j) !! n = Some wr -> 0 <= w_val wr <= n_back s + N.
Proof.
  intros Hi [w <-] Hn. destruct (seq_window s w Hi) as (i & wl & Hr & Es & Hl & Hok & Hv).
  destruct (seq_bound _ _ _ _ _ Hi Hn Hl) as [Hle _]. pose proof (mi_nonneg _ Hi _ _ _ Hn). lia.
Qed.

(** ** Steps that leave the slots alone *)

Lemma seq_ok_frame s s' i wr :
  n_taken s' = n_taken s -> ticket s' i = ticket s i ->
  mem s' (LMsg (slot i)) = mem s (LMsg (slot i)) ->
  (touching (consumer s) i -> touching (consumer s') i) -> seq_ok s i wr -> seq_ok s' i wr.
Proof.
  intros En Et Em Hc. unfold seq_ok, knows_msg, msg, latest, newest. rewrite En, Et, Em.
  destruct (decide _); [done|]. intros [?|(? & m & V & ? & ? & Hn)]; [by left|right].
  split; [done|]. exists m, V. split_and!; [done..|]. intros Hn'. apply Hn. intros Ht. by apply Hn', Hc.
Qed.

Lemma holds_frame s s' m w T T' :
  n_back s' <= w -> n_taken s <= n_taken s' -> ticket s' w = ticket s w ->
  mem s' (LSeq (slot w)) = mem s (LSeq (slot w)) -> mem s' (LMsg (slot w)) = mem s (LMsg (slot w)) ->
  vle T T' -> closed T' (mem s') -> holds s m w T -> holds s' m w T'.
Proof.
  intros Hb Hn Et Es Em Hle Hc (Hr & (V & HV & HVT) & Hs & Hm). unfold holds, seq_last. rewrite Et, Es.
  split_and!; [lia|lia| |done|].
  - exists V. split; [done|by etrans].
  - apply (latest_mono T); [done|done|]. unfold latest. by rewrite Em.
Qed.

Lemma prod_ok_frame s s' pc T :
  n_back s' = n_back s -> n_taken s <= n_taken s' -> (forall i, 0 <= i < n_taken s -> ticket s' i = ticket s i) ->
  (forall j, mem s' (LSeq j) = mem s (LSeq j)) -> (forall j, mem s' (LMsg j) = mem s (LMsg j)) ->
  closed T (mem s') -> prod_ok s pc T -> prod_ok s' pc T.
Proof.
  intros Eb Hn Et Es Em Hc.
  assert (Hh : forall m w, holds s m w T -> holds s' m w T).
  { intros m w H. pose proof H as (? & _). pose proof (n_back_nonneg s). eapply holds_frame; try exact H; try done; [lia|apply Et; lia]. }
  destruct pc; simpl; rewrite ?Es; try done; [lia|intros [? ?]; split; [lia|done]|by auto|].
  unfold msg, newest. rewrite Em. intros [? ?]. auto.
Qed.

(** Producer [t] moves on without a ticket. *)
Lemma inv_prod_move s t pc T :
  mail_inv s -> closed T (mem s) -> held pc = None -> prod_ok s pc T -> mail_inv (prod_to t pc T s).
Proof.
  intros Hi Hc Hh Hok. pose proof (mi_views _ Hi) as []. split; try (apply Hi).
  - split; try done. by apply map_Forall_insert_2.
  - intros t' pc' T'. simpl. rewrite lookup_insert_Some. intros [[_ ?]|[_ Ht]]; [by simplify_eq|].
    by apply (mi_prods _ Hi t').
  - intros t1 t2 p1 p2 w. simpl. rewrite !lookup_insert_Some.
    intros [[? <-]|[? H1]] [[? <-]|[? H2]]; simpl; try congruence. by apply (mi_unique _ Hi).
Qed.

Lemma inv_cons_move s pc T b :
  let s' := mkMail (mem s) (producers s) pc T b (tickets s) (received s) in
  mail_inv s -> closed T (mem s) -> vle (cview s) T ->
  newest LRead 0 (mem s) = match pc with DStoreSeq _ _ => n_back s + 1 | _ => n_back s end ->
  (forall i, touching (consumer s) i -> touching pc i) -> cons_ok s' ->
  (b = true -> polled s = true \/ n_back s < n_taken s /\ latest T (LSeq (slot (n_back s))) (mem s) /\
    exists wr, seq_last s (n_back s) wr /\ w_val wr = n_back s + 1) -> mail_inv s'.
Proof.
  intros s' Hi Hc Hle Hr Ht Hok Hb. pose proof (mi_views _ Hi) as []. split; try (apply Hi); try done.
  - eapply latest_mono; [done..|apply Hi].
  - intros i Hw. destruct (mi_slots _ Hi i Hw) as (wr & Hl & Hs). exists wr. split; [done|].
    by apply (seq_ok_frame s); [..|exact Hs]; [| | |apply Ht].
  - simpl. intros Eb. destruct (Hb Eb) as [Hp|Hp]; [|done].
    destruct (mi_polled _ Hi Hp) as (? & Hl & ?). split_and!; [done| |done]. by eapply latest_mono.
Qed.

(** A store to a location that is neither a sequence number nor a message. *)
Lemma inv_other_store s s' l wr :
  mail_inv s -> (match l with LBody _ | LRead => True | _ => False end) ->
  mem s' = append l wr (mem s) -> closed (w_view wr) (append l wr (mem s)) ->
  tickets s' = tickets s -> received s' = received s -> polled s' = polled s ->
  closed (cview s') (mem s') -> vle (cview s) (cview s') -> latest (cview s') LRead (mem s') ->
  (forall t p, producers s' !! t = Some p -> closed p.2 (mem s') /\
     (producers s !! t = Some p \/ p.1 = PIdle)) ->
  newest LRead 0 (mem s') = match consumer s' with DStoreSeq _ _ => n_back s + 1 | _ => n_back s end ->
  (forall i, touching (consumer s) i -> touching (consumer s') i) -> cons_ok s' -> mail_inv s'.
Proof.
  intros Hi Hl Em Hcw Et Er Ep Hc Hle Hlr Hp Hr Htc Hok. pose proof (mi_views _ Hi) as [].
  assert (En : n_taken s' = n_taken s) by (unfold n_taken; by rewrite Et).
  assert (Eb : n_back s' = n_back s) by (unfold n_back; by rewrite Er).
  assert (Hne : forall l', match l' with LWrite | LSeq _ | LMsg _ => True | _ => False end -> mem s' l' = mem s l').
  { intros l' Hl'. rewrite Em, append_ne; [done|]. by intros ->; destruct l. }
  split; rewrite ?(Hne LWrite), ?Et, ?Er, ?En, ?Eb by done; try (apply Hi); try done.
  - split; try done; [rewrite Em; by apply mem_closed_append|]. intros t p Ht. by apply (Hp t p).
  - intros j n1 n2 w1 w2. rewrite Hne by done. apply (mi_sorted _ Hi).
  - intros j n x. rewrite Hne by done. apply (mi_nonneg _ Hi).
  - intros i Hw. destruct (mi_slots _ Hi i Hw) as (x & Hx & Hs). exists x. unfold seq_last.
    rewrite Hne by done. split; [done|]. apply (seq_ok_frame s); try done; [|by apply Hne|apply Htc].
    unfold ticket. by rewrite Et.
  - intros t pc T Ht. destruct (Hp t _ Ht) as [Hct [Hs|Hs]]; [|simpl in Hs; by subst pc].
    apply (prod_ok_frame s); try done; try lia; try (intros; by apply Hne).
    + intros. unfold ticket. by rewrite Et.
    + by apply (mi_prods _ Hi t).
  - intros t1 t2 p1 p2 w H1 H2 E1 E2. destruct (Hp _ _ H1) as [_ [Hs1|Hs1]]; [|by rewrite Hs1 in E1].
    destruct (Hp _ _ H2) as [_ [Hs2|Hs2]]; [|by rewrite Hs2 in E2]. by eapply (mi_unique _ Hi).
  - rewrite Ep. intros Hpo. destruct (mi_polled _ Hi Hpo) as (? & Hlt & ?). unfold seq_last. rewrite Hne by done.
    split_and!; [done| |done]. eapply latest_mono; [done..|]. unfold latest. by rewrite Hne.
Qed.

(** ** Taking a ticket *)

Lemma held_holds s pc T w : prod_ok s pc T -> held pc = Some w -> exists m, holds s m w T.
Proof. destruct pc as [|m|m v|m v|m v|m v]; simpl; intros Hok [= <-]; exists m; apply Hok. Qed.

Lemma held_window s pc T w :
  prod_ok s pc T -> held pc = Some w -> n_back s <= w < n_taken s.
Proof. destruct pc; simpl; intros Hok [= <-]; apply Hok. Qed.

Lemma ticket_views s t (m : prod_pc) (w : Z) T (x : write location Z) s' :
  mviews_ok s -> closed T (mem s) -> closed (w_view x) (mem s) ->
  let n := length (mem s LWrite) in
  mem s' = append LWrite (mkWrite w (vset LWrite n (w_view x))) (mem s) -> cview s' = cview s ->
  producers s' = <[t := (m, vset LWrite n T)]> (producers s) ->
  mviews_ok s' /\ closed (vset LWrite n T) (mem s') /\ vle T (vset LWrite n T).
Proof.
  intros [Hm Hc Hp] HcT Hx n Em Ec Ep.
  assert (HT1 : closed (vset LWrite n T) (mem s')) by (rewrite Em; by apply closed_new).
  split_and!; [|done|apply vset_le; specialize (HcT LWrite); lia].
  split; rewrite ?Ec, ?Ep; [rewrite Em..|].
  - apply mem_closed_append; [done|]. by apply closed_new.
  - by apply closed_append.
  - apply map_Forall_insert_2; [done|]. intros t' p Hp'. rewrite Em. by apply closed_append, (Hp t').
Qed.

Lemma ticket_unique s t m w T t1 t2 p1 p2 v :
  let ps := <[t := (EStoreMsg m w, T)]> (producers s) in
  mail_inv s -> n_taken s <= w -> ps !! t1 = Some p1 -> ps !! t2 = Some p2 ->
  held p1.1 = Some v -> held p2.1 = Some v -> t1 = t2.
Proof.
  intros ps Hi Hw. unfold ps. rewrite !lookup_insert_Some.
  assert (Hlt : forall t' p, producers s !! t' = Some p -> held p.1 = Some v -> v < n_taken s).
  { intros t' [pc' T'] Hp Hh. by eapply held_window; [apply (mi_prods _ Hi t')|]. }
  intros [[? <-]|[? H1]] [[? <-]|[? H2]] E1 E2; simpl in *; simplify_eq; try done.
  - apply (Hlt _ _ H2) in E2. lia.
  - apply (Hlt _ _ H1) in E1. lia.
  - by eapply (mi_unique _ Hi).
Qed.

Lemma inv_ticket_taken s t m w T i T1 M :
  mail_inv s -> n_taken s + N < 2 ^ 63 -> producers s !! t = Some (ECas m w, T) ->
  compare_exchange false LWrite i w (w ⊕ 1) T (mem s) = Some (true, T1, M) ->
  mail_inv (mkMail M (<[t := (EStoreMsg m w, T1)]> (producers s)) (consumer s) (cview s)
              (polled s) (tickets s ++ [(m, T)]) (received s)).
Proof.
  intros Hi Hb Ht (x & Hx & Hle & [(_ & Ex & El & -> & ->)|(? & _)])%compare_exchange_spec; [|done].
  pose proof (mi_views _ Hi) as []. pose proof (mi_order _ Hi) as Ho. pose proof (pow2_pos k).
  pose proof (n_back_nonneg s) as Hnb.
  pose proof (mi_taken _ Hi) as Etk. rewrite (mi_write _ Hi _ _ Hx) in Ex.
  assert (Ew : w = n_taken s) by (unfold n_taken; lia).
  destruct (mi_prods _ Hi _ _ _ Ht) as (Hw & n & wr & Hn & Ev & HwT).
  destruct (seq_value_ticket s w n wr Hi Hw Hn Ev) as [Hroom Hnew]. destruct (Hnew Ew) as [Hl Hkm].
  assert (HcT : closed T (mem s)) by apply (mv_prods0 t _ Ht).
  set (T1 := vset LWrite _ T). set (s' := mkMail _ _ _ _ _ _ _).
  destruct (ticket_views s t (EStoreMsg m w) (w ⊕ 1) T x s') as (Hv' & HT1 & HTT); try done.
  { by eapply closed_view. }
  assert (En : n_taken s' = n_taken s + 1) by (unfold n_taken; simpl; rewrite length_app; simpl; lia).
  assert (Etk' : forall j, 0 <= j < n_taken s -> ticket s' j = ticket s j).
  { intros j Hj. unfold ticket. simpl. apply lookup_app_l. unfold n_taken in *. lia. }
  assert (Ets : ticket s' w = Some (m, T)).
  { unfold ticket. simpl. rewrite list_lookup_middle; [done|]. unfold n_taken in *. lia. }
  split; rewrite ?En; try (apply Hi); try done.
  - simpl. intros j y [Hy|(_ & -> & ->)]%append_lookup_inv; [by apply (mi_write _ Hi)|]. simpl.
    rewrite add64_small by lia. unfold n_taken in *. lia.
  - simpl. rewrite append_length, length_app, decide_True by done. simpl. lia.
  - change (n_back s') with (n_back s). lia.
  - intros j Hj. change (n_back s <= j < n_back s + N) in Hj.
    destruct (mi_slots _ Hi j Hj) as (y & Hy & Hok). exists y. split; [done|].
    unfold seq_ok in *. rewrite En. destruct (decide (n_taken s + 1 <= j)) as [Hlt|Hge].
    + by rewrite decide_True in Hok by lia.
    + destruct (decide (n_taken s <= j)) as [Hej|]; [left; apply Hok|]. rewrite Etk' by lia. exact Hok.
  - intros t' pc' T'. simpl. rewrite lookup_insert_Some. intros [[_ ?]|[_ Ht']].
    + simplify_eq. simpl. split_and!; [change (n_back s') with (n_back s); lia|lia| | |].
      * exists T. split; [done|]. exact HTT.
      * exists wr. done.
      * apply (latest_mono (w_view wr)); [done|by etrans|done].
    + apply (prod_ok_frame s); try done; [lia| |by apply (mi_prods _ Hi t')].
      apply closed_append. by apply (mv_prods0 t' _ Ht').
  - intros t1 t2 p1 p2 v. apply (ticket_unique s t m w T1); [done|lia].
  - pose proof (mi_cons _ Hi) as Hc. unfold cons_ok in *. change (n_back s') with (n_back s). rewrite En. simpl.
    destruct (consumer s); simpl in *; try done; intuition (try lia); rewrite Etk' by lia; done.
  - intros Hp. destruct (mi_polled _ Hi Hp) as (? & ? & ?). split_and!; try done.
    change (n_back s') with (n_back s). lia.
  - simpl. rewrite take_app_le; [apply Hi|]. unfold n_back, n_taken in *. lia.
Qed.

(** ** Messages in the slots *)

(** The thread that holds a ticket and the consumer are at different slots. *)
Lemma holds_apart s m w T wr :
  holds s m w T -> seq_last s (n_back s) wr -> w_val wr = n_back s + 1 -> w <> n_back s.
Proof. intros (_ & _ & (x & Hx & Ex) & _) Hl Ev ->. unfold seq_last in *. simplify_eq. lia. Qed.

(** What others know survives an access to the slot of ticket [a]. *)
Lemma prod_ok_msg s s' a v pc T :
  mail_inv s -> n_back s <= a < n_back s + N ->
  mem s' = append (LMsg (slot a)) (mkWrite v vbot) (mem s) ->
  tickets s' = tickets s -> received s' = received s ->
  closed T (mem s') -> prod_ok s pc T -> held pc <> Some a -> prod_ok s' pc T.
Proof.
  intros Hi Ha Em Et Er Hc Hok Hne. pose proof (mi_order _ Hi).
  assert (En : n_taken s' = n_taken s) by (unfold n_taken; by rewrite Et).
  assert (Eb : n_back s' = n_back s) by (unfold n_back; by rewrite Er).
  assert (Hh : forall w, held pc = Some w -> mem s' (LMsg (slot w)) = mem s (LMsg (slot w))).
  { intros w Hw. pose proof (held_window _ _ _ _ Hok Hw). rewrite Em, append_ne; [done|]. intros [= Es].
    apply (mail_slot_inj (n_back s)) in Es; [|lia|lia]. by subst. }
  assert (Hs : forall j, mem s' (LSeq j) = mem s (LSeq j)) by (intros; rewrite Em; by apply append_ne).
  assert (Hhold : forall m w, held pc = Some w -> holds s m w T -> holds s' m w T).
  { intros m w Hw Hd. pose proof Hd as (? & _). eapply holds_frame; try exact Hd; try done; rewrite ?Eb, ?En; try lia.
    - unfold ticket. by rewrite Et. - by apply Hh. }
  destruct pc as [|m|m w|m w|m w|m w]; simpl in *; rewrite ?Hs, ?En; try done; [by auto|].
  destruct Hok as [Hok <-]. unfold msg, newest. rewrite (Hh w) by done. split; [by auto|done].
Qed.

Lemma inv_msg s s' a v :
  mail_inv s -> n_back s <= a < n_back s + N -> a < n_taken s ->
  mem s' = append (LMsg (slot a)) (mkWrite v vbot) (mem s) ->
  tickets s' = tickets s -> received s' = received s -> polled s' = polled s ->
  mviews_ok s' -> vle (cview s) (cview s') ->
  newest LRead 0 (mem s) = match consumer s' with DStoreSeq _ _ => n_back s + 1 | _ => n_back s end ->
  (forall i, touching (consumer s) i -> touching (consumer s') i) ->
  (forall wr, seq_last s a wr -> w_val wr = a \/ touching (consumer s') a) ->
  (forall t pc T, producers s' !! t = Some (pc, T) -> prod_ok s' pc T) ->
  (forall t1 t2 p1 p2 w, producers s' !! t1 = Some p1 -> producers s' !! t2 = Some p2 ->
    held p1.1 = Some w -> held p2.1 = Some w -> t1 = t2) ->
  cons_ok s' -> mail_inv s'.
Proof.
  intros Hi Ha Hat Em Et Er Ep Hv Hle Hr Htc Hsa Hp Hu Hok.
  assert (En : n_taken s' = n_taken s) by (unfold n_taken; by rewrite Et).
  assert (Eb : n_back s' = n_back s) by (unfold n_back; by rewrite Er).
  assert (Hne : forall l', match l' with LMsg _ => False | _ => True end -> mem s' l' = mem s l').
  { intros l' Hl'. rewrite Em, append_ne; [done|]. by intros ->. }
  split; rewrite ?(Hne LWrite), ?Et, ?Er, ?En, ?Eb by done; try (apply Hi); try done.
  - unfold newest. rewrite Hne by done. exact Hr.
  - eapply latest_mono; [apply Hv|done|]. unfold latest. rewrite Hne by done. apply (mi_cread _ Hi).
  - intros j n1 n2 w1 w2. rewrite Hne by done. apply (mi_sorted _ Hi).
  - intros j n x. rewrite Hne by done. apply (mi_nonneg _ Hi).
  - intros i Hw. destruct (mi_slots _ Hi i Hw) as (x & Hx & Hs). exists x. unfold seq_last.
    rewrite Hne by done. split; [done|]. destruct (decide (i = a)) as [->|Hia].
    + unfold seq_ok in *. rewrite En. rewrite decide_False in Hs |- * by lia.
      destruct (Hsa x Hx) as [?|Htch]; [by left|]. destruct Hs as [?|(? & m & V & ? & ? & _)]; [by left|right].
      split; [done|]. exists m, V. unfold ticket in *. rewrite Et. split_and!; [done..|]. by intros [].
    + apply (seq_ok_frame s); try done; [unfold ticket; by rewrite Et| |apply Htc].
      rewrite Em, append_ne; [done|]. intros [= Es]. apply Hia. eapply mail_slot_inj; [exact Hw|exact Ha|done].
  - rewrite Ep. intros Hpo. destruct (mi_polled _ Hi Hpo) as (? & Hlt & ?). unfold seq_last. rewrite Hne by done.
    split_and!; [done| |done]. eapply latest_mono; [apply Hv|done|]. unfold latest. by rewrite Hne.
Qed.

(** The access itself, by a thread that has seen the last one. *)
Lemma access_views s a f T :
  mviews_ok s -> closed T (mem s) -> knows_msg s a T ->
  let n := length (mem s (LMsg (slot a))) in
  exists M T1, access (LMsg (slot a)) f T (mem s) = Some (msg s a, T1, M) /\
    M = append (LMsg (slot a)) (mkWrite (f (msg s a)) vbot) (mem s) /\ T1 = vset (LMsg (slot a)) n T /\
    mem_closed M /\ closed T1 M /\ vle T T1 /\ (forall V, closed V (mem s) -> closed V M).
Proof.
  intros [Hm Hc Hp] HcT Hl n. destruct (access_latest _ f _ _ Hl) as (w & Hw & ->).
  assert (Ew : msg s a = w_val w) by (unfold msg, newest; by rewrite Hw). rewrite Ew.
  eexists _, _. split_and!; try done.
  - apply mem_closed_append; [done|]. simpl. apply closed_append. intros l. specialize (HcT l). unfold vbot. lia.
  - by apply closed_new.
  - apply vset_le. specialize (HcT (LMsg (slot a))). lia.
  - intros V HV. by apply closed_append.
Qed.

Lemma inv_store_msg s t m w T i s' :
  mail_inv s -> producers s !! t = Some (EStoreMsg m w, T) ->
  prod_act k t (EStoreMsg m w) T i s = Some s' -> mail_inv s'.
Proof.
  intros Hi Ht Ha. pose proof (mi_views _ Hi) as Hv. pose proof (mi_order _ Hi) as Ho.
  pose proof (mi_prods _ Hi _ _ _ Ht) as Hh. simpl in Hh. pose proof Hh as (Hr & HV & Hs & Hkm).
  destruct (access_views s w (fun _ => m) T Hv (mv_prods _ Hv t _ Ht) Hkm)
    as (M & T1 & Hacc & EM & ET & Hmc & HcT1 & HTT & Hcl).
  simpl in Ha. rewrite Hacc in Ha. simplify_eq/=. set (s' := prod_to _ _ _ _).
  assert (Hother : forall t' pc T', t' <> t -> producers s !! t' = Some (pc, T') -> held pc <> Some w).
  { intros t' pc T' Hne Ht' Eh. apply Hne. by eapply (mi_unique _ Hi); [exact Ht'|exact Ht|exact Eh|]. }
  apply (inv_msg s s' w m); try done; try lia.
  - destruct Hv as [? Hc ?]. split; [done|by apply Hcl|]. simpl. apply map_Forall_insert_2; [done|].
    intros t' p Hp. apply Hcl. by apply (mv_prods0 t').
  - apply (mi_read _ Hi).
  - intros wr Hwr. destruct Hs as (x & Hx & Ex). unfold seq_last in *. simplify_eq. by left.
  - intros t' pc T'. simpl. rewrite lookup_insert_Some. intros [[_ ?]|[Hne Ht']].
    + simplify_eq. split.
      * destruct HV as (V & HV & HVT). split; [exact Hr|]. split_and!.
        -- exists V. split; [done|by etrans].
        -- destruct Hs as (x & Hx & Ex). by exists x.
        -- apply latest_new.
      * unfold msg. simpl. by rewrite newest_append_eq.
    + apply (prod_ok_msg s s' w m); try done; [lia| |by apply (mi_prods _ Hi t')|by eapply Hother].
      apply Hcl. by apply (mv_prods _ Hv t' _ Ht').
  - intros t1 t2 p1 p2 v. simpl. rewrite !lookup_insert_Some.
    intros [[? <-]|[Hn1 H1]] [[? <-]|[Hn2 H2]] E1 E2; simpl in *; simplify_eq; try done.
    + destruct p2. by destruct (Hother _ _ _ (not_eq_sym Hn2) H2).
    + destruct p1. by destruct (Hother _ _ _ (not_eq_sym Hn1) H1).
    + by eapply (mi_unique _ Hi).
  - pose proof (mi_cons _ Hi) as Hc. unfold cons_ok in *. simpl.
    assert (Hsame : forall wr, seq_last s (n_back s) wr -> w_val wr = n_back s + 1 ->
      mem s' (LMsg (slot (n_back s))) = mem s (LMsg (slot (n_back s)))).
    { intros wr Hwr Ev. pose proof (holds_apart _ _ _ _ _ Hh Hwr Ev) as Hne. simpl. apply append_ne.
      intros [= Es]. apply Hne. eapply (mail_slot_inj (n_back s)); [| |by symmetry]; lia. }
    unfold knows_msg, latest, msg, newest in *. change (n_back s') with (n_back s).
    destruct (consumer s); try done; destruct Hc as (-> & (? & (wr & Hwr & Ev) & Hl) & Hg);
      rewrite (Hsame wr Hwr Ev); (split; [done|]); (split; [|done]); (split; [done|]); (split; [|done]); by exists wr.
Qed.

(** The consumer reads the message, then clears the slot. *)
Lemma inv_cons_msg s r m f pc i s' :
  (consumer s = DLoadMsg r /\ f = id /\ pc = DClearMsg r (msg s r)) \/
  (consumer s = DClearMsg r m /\ f = (fun _ => 0) /\ pc = DStoreIndex r m) ->
  mail_inv s -> cons_act k i s = Some s' -> mail_inv s'.
Proof.
  intros Hpc Hi Ha. pose proof (mi_views _ Hi) as Hv. pose proof (mi_order _ Hi) as Ho.
  pose proof (mi_cons _ Hi) as Hc.
  assert (Hcc : r = n_back s /\ r < n_taken s /\ (exists wr, seq_last s r wr /\ w_val wr = r + 1) /\
    knows_msg s r (cview s) /\ exists m', ticket s r = Some m' /\ vle m'.2 (cview s) /\
      (pc = DClearMsg r m'.1 \/ pc = DStoreIndex r m'.1)).
  { unfold cons_ok in Hc. destruct Hpc as [(E & _ & ->)|(E & _ & ->)]; rewrite E in Hc;
      destruct Hc as (-> & (? & ? & ?) & V & ? & ?); split_and!; try done; eexists; split_and!; try done; auto. }
  destruct Hcc as (Er & Hlt & (wr & Hwr & Ev) & Hkm & [m' V] & Htk & HV & Epc). simpl in Epc, HV.
  destruct (access_views s r f (cview s) Hv (mv_cons _ Hv) Hkm)
    as (M & T1 & Hacc & EM & ET & Hmc & HcT1 & HTT & Hcl).
  assert (Es' : s' = cons_to pc T1 (with_mem M s)).
  { unfold cons_act in Ha. destruct Hpc as [(E & -> & ->)|(E & -> & ->)]; rewrite E in Ha; rewrite Hacc in Ha;
      by simplify_eq/=. }
  assert (Htch : touching pc r) by (by destruct Epc as [-> | ->]).
  rewrite Es'. clear Es' Ha s'. set (s' := cons_to _ _ _). pose proof (pow2_pos k).
  apply (inv_msg s s' r (f (msg s r))); try done; try lia.
  - destruct Hv as [? ? Hp]. split; [done|done|]. intros t p Ht. apply Hcl. by apply (Hp t).
  - rewrite (mi_read _ Hi). simpl. destruct Hpc as [(E & _ & ->)|(E & _ & ->)]; by rewrite E.
  - intros j. destruct Hpc as [(E & _ & ->)|(E & _ & ->)]; rewrite E; done.
  - intros x _. by right.
  - intros t pc' T' Ht. simpl in Ht. apply (prod_ok_msg s s' r (f (msg s r))); try done; try lia.
    + apply Hcl. by apply (mv_prods _ Hv t _ Ht).
    + by apply (mi_prods _ Hi t).
    + intros Eh. pose proof (mi_prods _ Hi _ _ _ Ht) as Hok.
      destruct (held_holds _ _ _ _ Hok Eh) as [m0 Hh]. rewrite Er in Hh, Hwr, Ev.
      by destruct (holds_apart _ _ _ _ _ Hh Hwr Ev).
  - apply (mi_unique _ Hi).
  - unfold cons_ok. change (n_back s') with (n_back s). rewrite <- Er.
    assert (Hhas : knows_msg s' r (cview s')) by (unfold knows_msg; simpl; rewrite EM, ET; apply latest_new).
    assert (Hsl : seq_last s' r wr) by (unfold seq_last; simpl; by rewrite EM, append_ne).
    simpl. destruct Epc as [-> | ->]; (split; [done|]); (split; [split_and!; [done|by exists wr|done]|]);
      exists V; (split; [done|by etrans]).
Qed.

Lemma inv_index_stored s r m i s' :
  mail_inv s -> n_taken s + N < 2 ^ 63 -> consumer s = DStoreIndex r m ->
  cons_act k i s = Some s' -> mail_inv s'.
Proof.
  intros Hi Hb E Ha. unfold cons_act in Ha. rewrite E in Ha. unfold store in Ha. simplify_eq/=.
  set (s' := cons_to _ _ _). pose proof (mi_views _ Hi) as Hv. destruct Hv as [Hm Hc Hp].
  pose proof (mi_cons _ Hi) as Hok. unfold cons_ok in Hok. rewrite E in Hok.
  destruct Hok as (Er & (Hlt & Hs & Hkm) & V & HV & HVc).
  assert (Hbot : closed vbot (mem s)) by (intros l; specialize (Hc l); unfold vbot; lia).
  assert (Hle : vle (cview s) (cview s')) by (apply vset_le; specialize (Hc LRead); lia).
  eapply (inv_other_store s s' LRead); try done.
  - by apply closed_new.
  - by apply closed_new.
  - apply latest_new.
  - intros t p Ht. split; [|by left]. by apply closed_append, (Hp t).
  - simpl. rewrite newest_append_eq. simpl. pose proof (n_back_nonneg s). pose proof (pow2_pos k).
    rewrite Er, add64_small; lia.
  - intros j. rewrite E. done.
  - unfold cons_ok. simpl. change (n_back s') with (n_back s). split; [done|]. split.
    + split_and!; [done|done|]. eapply latest_mono; [by apply closed_new|exact Hle|done].
    + exists V. split; [done|by etrans].
Qed.

(** ** Sequence numbers *)

Lemma seq_append s a v V wl :
  let M := append (LSeq (slot a)) (mkWrite v V) (mem s) in
  mail_inv s -> seq_last s a wl -> 0 <= w_val wl < v ->
  (forall j n1 n2 w1 w2, M (LSeq j) !! n1 = Some w1 -> M (LSeq j) !! n2 = Some w2 -> (n1 < n2)%nat ->
     w_val w1 < w_val w2) /\
  (forall j n wr, M (LSeq j) !! n = Some wr -> 0 <= w_val wr).
Proof.
  intros M Hi Hl Hv. split.
  - intros j n1 n2 w1 w2 H1 H2 Hlt.
    apply append_lookup_inv in H1 as [H1|(Ej & En & Ew)], H2 as [H2|(Ej' & En' & Ew')].
    + by eapply (mi_sorted _ Hi).
    + injection Ej' as ->. subst. destruct (seq_bound _ _ _ _ _ Hi H1 Hl). simpl. lia.
    + apply lookup_lt_Some in H2. injection Ej as ->. lia.
    + lia.
  - intros j n wr [Hn|(_ & _ & ->)]%append_lookup_inv; [by eapply (mi_nonneg _ Hi)|]. simpl. lia.
Qed.

(** What others know survives a new sequence number in the slot of ticket [a]. *)
Lemma prod_ok_seq s s' a v V pc T :
  mail_inv s -> n_back s <= a < n_back s + N ->
  mem s' = append (LSeq (slot a)) (mkWrite v V) (mem s) ->
  tickets s' = tickets s -> n_back s <= n_back s' <= a + 1 ->
  closed T (mem s') -> prod_ok s pc T -> held pc <> Some a ->
  (n_back s' = n_back s \/ a = n_back s) -> prod_ok s' pc T.
Proof.
  intros Hi Ha Em Et Er Hc Hok Hne Hba. pose proof (mi_order _ Hi).
  assert (En : n_taken s' = n_taken s) by (unfold n_taken; by rewrite Et).
  assert (Hmsg : forall j, mem s' (LMsg j) = mem s (LMsg j)) by (intros; rewrite Em; by apply append_ne).
  assert (Hhold : forall m w, held pc = Some w -> holds s m w T -> holds s' m w T).
  { intros m w Hw Hd. pose proof Hd as (? & _).
    assert (w <> a) by congruence.
    eapply holds_frame; try exact Hd; try done; rewrite ?En; try lia.
    - unfold ticket. by rewrite Et.
    - rewrite Em, append_ne; [done|]. intros [= Es]. apply (mail_slot_inj (n_back s)) in Es; lia. }
  destruct pc as [|m|m w|m w|m w|m w]; simpl in *; rewrite ?En; try done.
  - destruct Hok as (? & n & x & Hx & ? & ?). split; [done|]. exists n, x. split_and!; [|done..].
    rewrite Em. by apply append_lookup.
  - by auto.
  - destruct Hok as [Hok <-]. unfold msg, newest. rewrite Hmsg. split; [by auto|done].
Qed.

Lemma inv_ticket_published s t m w T i s' :
  mail_inv s -> n_taken s + N < 2 ^ 63 -> producers s !! t = Some (EPublish m w, T) ->
  prod_act k t (EPublish m w) T i s = Some s' -> mail_inv s'.
Proof.
  intros Hi Hb Ht Ha. pose proof (mi_views _ Hi) as [Hm Hc Hp]. pose proof (mi_order _ Hi) as Ho.
  destruct (mi_prods _ Hi _ _ _ Ht) as [Hh Emsg]. pose proof Hh as (Hr & (V & HV & HVT) & (wl & Hwl & Ewl) & Hkm).
  pose proof (Hp t _ Ht) as HcT. simpl in HcT. pose proof (n_back_nonneg s).
  simpl in Ha. unfold store in Ha. injection Ha as <-. rewrite add64_small by lia.
  set (T1 := vset _ _ T). set (s' := prod_to _ _ _ _).
  assert (HT1 : closed T1 (mem s')) by by apply closed_new.
  assert (HTT : vle T T1) by (apply vset_le; specialize (HcT (LSeq (slot w))); lia).
  destruct (seq_append s w (w + 1) T1 wl Hi Hwl ltac:(lia)) as [Hsort Hnn].
  assert (Hseq : forall j, n_back s <= j < n_back s + N -> j <> w -> mem s' (LSeq (slot j)) = mem s (LSeq (slot j))).
  { intros j Hj Hne. simpl. apply append_ne. intros [= Es]. apply Hne. eapply (mail_slot_inj (n_back s)); [| |done]; lia. }
  assert (Hother : forall t' pc T', t' <> t -> producers s !! t' = Some (pc, T') -> held pc <> Some w).
  { intros t' pc T' Hne Ht' Eh. apply Hne. by eapply (mi_unique _ Hi); [exact Ht'|exact Ht|exact Eh|]. }
  assert (Hnb : forall wr, seq_last s (n_back s) wr -> w_val wr = n_back s + 1 -> seq_last s' (n_back s) wr).
  { intros wr Hwr Ev. unfold seq_last. rewrite Hseq; [done|lia|]. intros E. symmetry in E. by eapply holds_apart in E. }
  split; try (apply Hi); try done.
  - split; [by apply mem_closed_append|by apply closed_append|]. apply map_Forall_insert_2; [done|].
    intros t' p Hp'. by apply closed_append, (Hp t').
  - intros j Hj. change (n_back s <= j < n_back s + N) in Hj. destruct (decide (j = w)) as [->|Hne].
    + exists (mkWrite (w + 1) T1). split; [apply last_append|]. unfold seq_ok.
      change (n_taken s') with (n_taken s). rewrite decide_False by lia. right. split; [done|].
      exists m, V. split_and!; [done|by etrans|]. intros _. split; [|done]. by apply (latest_mono T).
    + destruct (mi_slots _ Hi j Hj) as (x & Hx & Hok). exists x. unfold seq_last. rewrite Hseq by done. done.
  - intros t' pc T'. simpl. rewrite lookup_insert_Some. intros [[_ ?]|[Hne Ht']]; [by simplify_eq|].
    apply (prod_ok_seq s s' w (w + 1) T1); try done; try (by left);
      [lia|change (n_back s') with (n_back s); lia| |by apply (mi_prods _ Hi t')|by eapply Hother].
    by apply closed_append, (Hp t' _ Ht').
  - intros t1 t2 p1 p2 v. simpl. rewrite !lookup_insert_Some.
    intros [[? <-]|[Hn1 H1]] [[? <-]|[Hn2 H2]] E1 E2; simpl in *; try done. by eapply (mi_unique _ Hi).
  - pose proof (mi_cons _ Hi) as Hok. unfold cons_ok in *. change (n_back s') with (n_back s). simpl.
    destruct (consumer s); try done; destruct Hok as (-> & (? & (wr & Hwr & Ev) & Hl) & Hg);
      (split; [done|]); (split; [|done]); (split; [done|]); (split; [|done]); exists wr; by auto.
  - intros Hpo. destruct (mi_polled _ Hi Hpo) as (? & Hlt & wr & Hwr & Ev). change (n_back s') with (n_back s).
    split_and!; [done| |exists wr; by auto]. unfold latest. rewrite Hseq; [done|lia|].
    intros E. symmetry in E. by eapply holds_apart in E.
Qed.

Lemma slot_next_lap a : slot (a + N) = slot a.
Proof. apply mask_index_lap. Qed.

(** The consumer hands the slot back; its next ticket is a lap further. *)
Lemma inv_release s r m i s' :
  mail_inv s -> n_taken s + N < 2 ^ 63 -> consumer s = DStoreSeq r m ->
  cons_act k i s = Some s' -> mail_inv s'.
Proof.
  intros Hi Hb E Ha. pose proof (mi_views _ Hi) as [Hm Hc Hp]. pose proof (mi_order _ Hi) as Ho.
  pose proof (mi_cons _ Hi) as Hok. unfold cons_ok in Hok. rewrite E in Hok.
  destruct Hok as (Er & (Hlt & (wl & Hwl & Ewl) & Hkm) & V & HV & HVc).
  pose proof (n_back_nonneg s). pose proof two_le_size.
  unfold cons_act in Ha. rewrite E in Ha. unfold store in Ha. injection Ha as <-.
  rewrite Er, add64_small by lia. set (R := n_back s) in *.
  set (T1 := vset _ _ (cview s)). set (s' := mkMail _ _ _ _ _ _ _).
  assert (HT1 : closed T1 (mem s')) by by apply closed_new.
  assert (HTT : vle (cview s) T1) by (apply vset_le; specialize (Hc (LSeq (slot R))); lia).
  destruct (seq_append s R (R + N) T1 wl Hi Hwl ltac:(lia)) as [Hsort Hnn].
  assert (Eb : n_back s' = R + 1) by (unfold n_back; simpl; rewrite length_app; simpl; unfold R, n_back; lia).
  split; rewrite ?Eb; try (apply Hi); try done.
  - split; [by apply mem_closed_append|done|]. intros t p Ht. by apply closed_append, (Hp t).
  - simpl. rewrite newest_append_ne by done. rewrite (mi_read _ Hi), E. done.
  - change (n_taken s') with (n_taken s). lia.
  - intros j Hj. destruct (decide (j = R + N)) as [->|Hne].
    + exists (mkWrite (R + N) T1). unfold seq_last. rewrite slot_next_lap. split; [apply last_append|].
      unfold seq_ok. rewrite decide_True by (change (n_taken s') with (n_taken s); lia). split; [done|].
      unfold knows_msg. rewrite slot_next_lap. by apply (latest_mono (cview s)).
    + destruct (mi_slots _ Hi j ltac:(fold R; lia)) as (x & Hx & Hok). exists x.
      assert (Esj : mem s' (LSeq (slot j)) = mem s (LSeq (slot j))).
      { simpl. apply append_ne. intros [= Es]. apply (mail_slot_inj R) in Es; lia. }
      unfold seq_last. rewrite Esj. split; [done|]. apply (seq_ok_frame s); try done. rewrite E. simpl. lia.
  - intros t pc T Ht. simpl in Ht. pose proof (mi_prods _ Hi _ _ _ Ht) as Hpo.
    apply (prod_ok_seq s s' R (R + N) T1); try done; fold R; try lia; try (by right).
    + by apply closed_append, (Hp t _ Ht).
    + intros Eh. destruct (held_holds _ _ _ _ Hpo Eh) as [m0 Hh]. by destruct (holds_apart _ _ _ _ _ Hh Hwl Ewl).
  - simpl. rewrite length_app. simpl. rewrite Nat.add_1_r.
    assert (Htk : tickets s !! length (received s) = Some (m, V)).
    { unfold ticket, R, n_back in HV. by rewrite Nat2Z.id in HV. }
    rewrite (take_S_r _ _ _ Htk). apply Forall2_app; [apply Hi|]. by apply Forall2_cons.
Qed.

(** ** Every step *)

Lemma inv_prod_act s t pc T i s' :
  mail_inv s -> n_taken s + N < 2 ^ 63 -> producers s !! t = Some (pc, T) ->
  prod_act k t pc T i s = Some s' -> mail_inv s'.
Proof.
  intros Hi Hb Ht Ha. pose proof (mi_views _ Hi) as [Hm Hc Hp]. pose proof (Hp t _ Ht) as HcT.
  pose proof (mi_prods _ Hi _ _ _ Ht) as Hok. pose proof (mi_order _ Hi) as Ho. pose proof (n_back_nonneg s).
  simpl in HcT. destruct pc as [|m|m w|m w|m w|m w]; simpl in Ha; try done.
  - destruct (load false LWrite i T (mem s)) as [[w T1]|] eqn:El; simplify_eq/=.
    destruct (load_closed _ _ _ _ _ _ _ El HcT Hm) as [Hc1 _].
    apply load_spec in El as (x & Hx & -> & _ & _). apply inv_prod_move; [done..|]. simpl.
    rewrite (mi_write _ Hi _ _ Hx). apply lookup_lt_Some in Hx. pose proof (mi_taken _ Hi). unfold n_taken. lia.
  - destruct (load true _ i T (mem s)) as [[q T1]|] eqn:El; simplify_eq/=.
    destruct (load_closed _ _ _ _ _ _ _ El HcT Hm) as [Hc1 _].
    apply load_spec in El as (x & Hx & -> & _ & ->). simpl in Hok.
    pose proof (seq_small s _ _ _ Hi (ex_intro _ w eq_refl) Hx).
    rewrite ssub64_small in Ha by lia. simplify_eq/=.
    destruct (Z.ltb_spec (w_val x - w) 0); [by apply inv_prod_move|].
    destruct (Z.eqb_spec (w_val x - w) 0); [|by apply inv_prod_move].
    apply inv_prod_move; [done..|]. simpl. split; [done|]. exists i, x. split_and!; [done|lia|]. apply vjoin_r.
  - destruct (compare_exchange _ _ _ _ _ _ _) as [[[ok T1] M]|] eqn:El; simplify_eq/=.
    destruct ok; [by eapply inv_ticket_taken|].
    apply compare_exchange_spec in El as (x & Hx & _ & [(? & _)|(_ & _ & -> & _)]); [done|].
    apply inv_prod_move; try done. apply closed_vset; [done|]. by eapply lookup_lt_Some.
  - by eapply (inv_store_msg _ _ _ _ _ i).
  - by eapply (inv_ticket_published _ _ _ _ _ i).
Qed.

(** The sequence number the consumer reads: not yet published, or the newest. *)
Lemma cons_load_seq s i q T :
  mail_inv s -> n_taken s + N < 2 ^ 63 ->
  load true (LSeq (slot (n_back s))) i (cview s) (mem s) = Some (q, T) ->
  exists d, ssub64 q (n_back s ⊕ 1) = Some d /\ closed T (mem s) /\ vle (cview s) T /\
    (0 <= d -> n_back s < n_taken s /\ latest T (LSeq (slot (n_back s))) (mem s) /\
      exists wr, seq_last s (n_back s) wr /\ w_val wr = n_back s + 1 /\ vle (w_view wr) T) /\
    (latest (cview s) (LSeq (slot (n_back s))) (mem s) -> newest (LSeq (slot (n_back s))) 0 (mem s) = q).
Proof.
  intros Hi Hb El. pose proof (mi_views _ Hi) as [Hm Hc Hp]. pose proof (mi_order _ Hi) as Ho.
  destruct (load_closed _ _ _ _ _ _ _ El Hc Hm) as [HcT HleT].
  apply load_spec in El as (x & Hx & -> & Hge & ->). pose proof (n_back_nonneg s). pose proof (pow2_pos k).
  pose proof (seq_small s _ _ _ Hi (ex_intro _ (n_back s) eq_refl) Hx).
  rewrite add64_small, ssub64_small by lia. eexists. split_and!; [done|done|done| |].
  - intros Hd. destruct (mi_slots _ Hi (n_back s) ltac:(lia)) as (wl & Hwl & Hok).
    destruct (seq_bound _ _ _ _ _ Hi Hx Hwl) as [Hle Heq].
    unfold seq_ok in Hok. destruct (decide _) as [|Hlt]; [lia|]. destruct Hok as [|[Ev _]]; [lia|].
    destruct (Heq ltac:(lia)) as [-> Hlen]. split_and!; [lia| |].
    + pose proof (HcT (LSeq (slot (n_back s)))) as Hcs. unfold latest. unfold vjoin in *. rewrite vset_eq in *. lia.
    + exists wl. split_and!; [done|done|apply vjoin_r].
  - intros Hl. by eapply latest_load.
Qed.

Lemma inv_cons_act s i s' :
  mail_inv s -> n_taken s + N < 2 ^ 63 -> cons_act k i s = Some s' -> mail_inv s'.
Proof.
  intros Hi Hb Ha. pose proof Ha as Ha0. unfold cons_act in Ha. pose proof (mi_views _ Hi) as [Hm Hc Hp].
  pose proof (mi_cons _ Hi) as Hok. unfold cons_ok in Hok. pose proof (mi_read _ Hi) as Hrd.
  assert (Hidx : forall r T, load false LRead i (cview s) (mem s) = Some (r, T) ->
    r = newest LRead 0 (mem s) /\ closed T (mem s) /\ vle (cview s) T).
  { intros r T El. destruct (load_closed _ _ _ _ _ _ _ El Hc Hm). split; [|done].
    apply load_spec in El as (x & Hx & -> & Hge & _). symmetry. eapply latest_load; [apply (mi_cread _ Hi)|done..]. }
  destruct (consumer s) as [| |r|r|r m|r m|r m| |r] eqn:E; try done.
  - destruct (load _ _ _ _ _) as [[r T]|] eqn:El; simplify_eq/=. destruct (Hidx _ _ eq_refl) as (-> & ? & ?).
    apply inv_cons_move; try done; [by rewrite E|by left].
  - destruct (load _ _ _ _ _) as [[q T]|] eqn:El; simplify_eq/=.
    destruct (cons_load_seq s i q T Hi Hb El) as (d & Ed & HcT & HleT & Hpos & _). rewrite Ed in Ha. simplify_eq/=.
    destruct (Z.ltb_spec d 0) as [|Hd]; apply inv_cons_move; try done; try (by rewrite E); try (by left).
    destruct (Hpos Hd) as (Hlt & _ & wr & Hwr & Ev & Hvw). unfold cons_ok. simpl. split; [done|].
    pose proof (pow2_pos k). pose proof (mi_order _ Hi).
    destruct (mi_slots _ Hi (n_back s) ltac:(lia)) as (wl & Hwl & Hs). unfold seq_last in *. simplify_eq.
    unfold seq_ok in Hs. rewrite decide_False in Hs by lia.
    destruct Hs as [|(_ & m & V & HV & HVw & Hmsg)]; [lia|]. rewrite E in Hmsg. destruct Hmsg as [Hkm <-]; [by intros []|].
    split; [split_and!; [done|by exists wr|by apply (latest_mono (w_view wr))]|]. exists V. split; [done|by etrans].
  - apply (inv_cons_msg s r 0 id (DClearMsg r (msg s r)) i); [left; by split_and!|done|done].
  - apply (inv_cons_msg s r m (fun _ => 0) (DStoreIndex r m) i); [right; by split_and!|done|done].
  - by eapply inv_index_stored.
  - by eapply inv_release.
  - destruct (load _ _ _ _ _) as [[r T]|] eqn:El; simplify_eq/=. destruct (Hidx _ _ eq_refl) as (-> & ? & ?).
    apply inv_cons_move; try done; [by rewrite E|by left].
  - destruct (load _ _ _ _ _) as [[q T]|] eqn:El; simplify_eq/=.
    destruct (cons_load_seq s i q T Hi Hb El) as (d & Ed & HcT & HleT & Hpos & _). rewrite Ed in Ha. simplify_eq/=.
    apply inv_cons_move; try done; [by rewrite E|]. intros Hd%Z.leb_le. right.
    destruct (Hpos Hd) as (? & ? & wr & ? & ? & _). split_and!; [done|done|by exists wr].
Qed.

Lemma n_taken_mono s s' : mail_step k s s' -> n_taken s <= n_taken s'.
Proof.
  intros [c Ha]. unfold n_taken. destruct c as [t m|t m|t i|t| | |i]; simpl in Ha.
  - destruct (thread t s) as [[] T]; simplify_eq/=; done.
  - destruct (thread t s) as [[] T]; simplify_eq/=; done.
  - destruct (thread t s) as [pc T], pc as [|m|m w|m w|m w|m w]; simpl in Ha; simplify_option_eq; try done;
      repeat (case_match; simplify_option_eq); simpl; rewrite ?length_app; simpl; try done; lia.
  - destruct (thread t s) as [[] T]; simplify_eq/=; done.
  - destruct (consumer s); simplify_eq/=; done.
  - destruct (consumer s); simplify_eq/=; done.
  - unfold cons_act in Ha. destruct (consumer s); simplify_option_eq; try done;
      repeat (case_match; simplify_option_eq); done.
Qed.

(** A thread not met before is an idle one. *)
Lemma thread_inv s t pc T :
  mail_inv s -> thread t s = (pc, T) ->
  closed T (mem s) /\ (producers s !! t = Some (pc, T) \/ producers s !! t = None /\ pc = PIdle).
Proof.
  intros Hi E. pose proof (mi_views _ Hi) as [Hm Hc Hp]. unfold thread in E.
  destruct (producers s !! t) as [p|] eqn:Ep; simpl in E; simplify_eq.
  - split; [by apply (Hp t _ Ep)|by left].
  - split; [|by right]. intros l. specialize (Hc l). unfold vbot. lia.
Qed.

Lemma inv_prepare s t T m :
  let '(T1, M) := store false (LBody m) 0 T (mem s) in
  mail_inv s -> closed T (mem s) -> (producers s !! t = Some (PIdle, T) \/ producers s !! t = None) ->
  mail_inv (prod_to t PIdle T1 (with_mem M s)).
Proof.
  simpl. intros Hi HcT Ht. pose proof (mi_views _ Hi) as [Hm Hc Hp]. set (s' := prod_to _ _ _ _).
  assert (Hbot : closed vbot (mem s)) by (intros l; specialize (HcT l); unfold vbot; lia).
  eapply (inv_other_store s s' (LBody m)); try done.
  - by apply closed_new.
  - by apply closed_append.
  - apply latest_append_ne; [done|]. apply (mi_cread _ Hi).
  - intros t' p. simpl. rewrite lookup_insert_Some. intros [[_ <-]|[_ Ht']].
    + split; [by apply closed_new|by right].
    + split; [by apply closed_append, (Hp t')|by left].
  - simpl. rewrite newest_append_ne by done. apply (mi_read _ Hi).
  - apply (mi_cons _ Hi).
Qed.

Lemma mail_step_inv s s' : mail_inv s -> n_taken s + N < 2 ^ 63 -> mail_step k s s' -> mail_inv s'.
Proof.
  intros Hi Hb [c Ha]. pose proof (mi_views _ Hi) as [Hm Hc Hp].
  destruct c as [t m|t m|t i|t| | |i]; simpl in Ha.
  - destruct (thread t s) as [[] T] eqn:E; simplify_eq/=. destruct (thread_inv _ _ _ _ Hi E) as [HcT Ht].
    apply inv_prepare; [done|done|]. destruct Ht as [?|[? _]]; [by left|by right].
  - destruct (thread t s) as [[] T] eqn:E; simplify_eq/=. destruct (thread_inv _ _ _ _ Hi E) as [HcT Ht].
    by apply inv_prod_move.
  - destruct (thread t s) as [pc T] eqn:E. destruct (thread_inv _ _ _ _ Hi E) as [HcT [Ht|[_ ->]]]; [|done].
    by eapply inv_prod_act.
  - destruct (thread t s) as [[] T] eqn:E; simplify_eq/=. destruct (thread_inv _ _ _ _ Hi E) as [HcT Ht].
    by apply inv_prod_move.
  - destruct (consumer s) eqn:E; simplify_eq/=. pose proof (mi_read _ Hi) as Hr. rewrite E in Hr.
    apply inv_cons_move; try done; [by rewrite E|by left].
  - destruct (consumer s) eqn:E; simplify_eq/=. pose proof (mi_read _ Hi) as Hr. rewrite E in Hr.
    apply inv_cons_move; try done; [by rewrite E|by left].
  - by eapply inv_cons_act.
Qed.

Lemma mail_start_inv : mail_inv mail_start.
Proof.
  pose proof (pow2_pos k).
  split; try done.
  - split; [|intros l; simpl; unfold vbot; lia|done]. intros l w Hw. apply list_elem_of_singleton in Hw as ->.
    intros l'. simpl. unfold vbot. lia.
  - intros [|n] w; [|done]. by intros [= <-].
  - unfold n_back, n_taken. simpl. lia.
  - intros j [|n1] [|n2] w1 w2; simpl; try done; lia.
  - intros j [|n] w; [|done]. intros [= <-]. simpl. lia.
  - intros i Hi. change (0 <= i < 0 + N) in Hi. eexists. split; [reflexivity|]. unfold seq_ok.
    rewrite decide_True by (unfold n_taken; simpl; lia). split; [|done]. simpl. unfold slot, mask_index.
    rewrite land_mask, Z.mod_small by lia. lia.
Qed.

Lemma mail_reachable_inv s :
  reachable mail_init (mail_step k) s -> n_taken s + N < 2 ^ 63 -> mail_inv s.
Proof.
  revert s. apply (reachable_ind _ _ (fun s => n_taken s + N < 2 ^ 63 -> mail_inv s)).
  - intros s -> _. apply mail_start_inv.
  - intros s s' _ IH Hs Hb. pose proof (n_taken_mono s s' Hs). eapply mail_step_inv; [apply IH; lia|lia|done].
Qed.

End Invariant.

(** C4. With the memory orders of the code, any number of producers and the
    consumer of a [MailQueue] of [2^k] slots never race on a message in a slot,
    although they may read old indices and old sequence numbers; the messages
    received are those of the first tickets, in order and without a gap, and
    whoever receives a message knows all that its sender knew; at most [2^k]
    messages are outstanding. *)
Theorem mail_release_acquire (k : nat) (s : mail) :
  (1 <= k)%nat -> reachable mail_init (mail_step k) s ->
  Z.of_nat (length (tickets s)) + 2 ^ Z.of_nat k < 2 ^ 63 ->
  (forall t p, producers s !! t = Some p -> prod_racy k s p = false) /\ cons_racy k s = false /\
  Forall2 (fun a b => a.1 = b.1 /\ vle b.2 a.2) (received s) (take (length (received s)) (tickets s)) /\
  Z.of_nat (length (tickets s)) <= Z.of_nat (length (received s)) + 2 ^ Z.of_nat k.
Proof.
  intros Hk Hr Hb. pose proof (mail_reachable_inv k Hk s Hr Hb) as Hi. split_and!.
  - intros t [pc T] Ht. pose proof (mi_prods _ _ Hi _ _ _ Ht) as Hok. unfold prod_racy.
    destruct pc; try done. simpl. rewrite exclusive_latest; [done|]. apply Hok.
  - pose proof (mi_cons _ _ Hi) as Hok. unfold cons_ok in Hok. unfold cons_racy.
    destruct (consumer s); try done; destruct Hok as (-> & (_ & _ & Hl) & _); by rewrite exclusive_latest.
  - apply Hi.
  - apply (mi_order _ _ Hi).
Qed.

(** Two threads fill messages and take tickets 0 and 1; the second publishes
    first. The consumer reads the old sequence number of slot 0 and finds
    nothing, then receives both messages. *)
Definition late_publication : list choice :=
  [Prepare 0 100; CallEnqueue 0 100; ProdGo 0 0; ProdGo 0 0; ProdGo 0 0;
   Prepare 1 200; CallEnqueue 1 200; ProdGo 1 1; ProdGo 1 0; ProdGo 1 1; ProdGo 1 0; ProdGo 1 0;
   ProdGo 0 0; ProdGo 0 0;
   CallDequeue; ConsGo 0; ConsGo 0; CallCanDequeue; ConsGo 0; ConsGo 1;
   CallDequeue; ConsGo 0; ConsGo 1; ConsGo 0; ConsGo 0; ConsGo 0; ConsGo 0;
   CallDequeue; ConsGo 1; ConsGo 1; ConsGo 0; ConsGo 0; ConsGo 0; ConsGo 0].

Lemma mail_release_acquire_witness :
  exists s, run_schedule (mail_act 1) late_publication mail_start = Some s /\
    Forall2 (fun a b => a.1 = b.1 /\ vle b.2 a.2) (received s) (take (length (received s)) (tickets s)) /\
    (received s).*1 = [100; 200].
Proof.
  destruct (run_schedule (mail_act 1) late_publication mail_start) as [s|] eqn:E.
  - exists s. destruct (mail_release_acquire 1 s) as (_ & _ & H3 & _).
    + lia.
    + apply (run_schedule_reachable mail_init (mail_step 1) (mail_act 1)) with late_publication mail_start.
      * intros c x y Ha. exists c. exact Ha.
      * apply reachable_init. reflexivity.
      * exact E.
    + vm_compute in E. injection E as <-. reflexivity.
    + split; [reflexivity|]. split; [exact H3|]. vm_compute in E. injection E as <-. reflexivity.
  - vm_compute in E. discriminate.
Defined.

(** What [can_dequeue] promised holds: once it has answered true, the next
    [try_dequeue] of the consumer returns a message. *)
Theorem polled_dequeue_succeeds (k : nat) (s s' : mail) (i : nat) (r : Z) :
  (1 <= k)%nat -> reachable mail_init (mail_step k) s ->
  Z.of_nat (length (tickets s)) + 2 ^ Z.of_nat k < 2 ^ 63 ->
  polled s = true -> consumer s = DLoadSeq r -> cons_act k i s = Some s' -> consumer s' = DLoadMsg r.
Proof.
  intros Hk Hr Hb Hp E Ha. pose proof (mail_reachable_inv k Hk s Hr Hb) as Hi.
  pose proof (mi_cons _ _ Hi) as Hok. unfold cons_ok in Hok. unfold cons_act in Ha. rewrite E in Hok, Ha. subst r.
  destruct (load _ _ _ _ _) as [[q T]|] eqn:El; simplify_eq/=.
  destruct (cons_load_seq k Hk s i q T Hi Hb El) as (d & Ed & _ & _ & _ & Hnew). rewrite Ed in Ha. simplify_eq/=.
  destruct (mi_polled _ _ Hi Hp) as (Hlt & Hl & wr & Hwr & Ev). specialize (Hnew Hl).
  unfold newest in Hnew. unfold seq_last in Hwr. rewrite Hwr in Hnew. simpl in Hnew.
  assert (0 <= n_back s) by (unfold n_back; lia). pose proof (pow2_pos k). pose proof (mi_order _ _ Hi) as Ho.
  change (Z.of_nat (length (tickets s))) with (n_taken s) in Hb.
  rewrite <- Hnew, Ev, add64_small, ssub64_small in Ed by lia. injection Ed as <-.
  by destruct (Z.ltb_spec (n_back s + 1 - (n_back s + 1)) 0); [lia|].
Qed.

Lemma polled_dequeue_succeeds_witness :
  exists s s', run_schedule (mail_act 1) (take 22 late_publication) mail_start = Some s /\
    cons_act 1 1 s = Some s' /\ consumer s' = DLoadMsg 0.
Proof.
  destruct (run_schedule (mail_act 1) (take 22 late_publication) mail_start) as [s|] eqn:E.
  - destruct (cons_act 1 1 s) as [s'|] eqn:Ea.
    + exists s, s'. split; [reflexivity|]. split; [exact Ea|].
      apply (polled_dequeue_succeeds 1 s s' 1 0).
      * lia.
      * apply (run_schedule_reachable mail_init (mail_step 1) (mail_act 1)) with (take 22 late_publication) mail_start.
        -- intros c x y Hc. exists c. exact Hc.
        -- apply reachable_init. reflexivity.
        -- exact E.
      * vm_compute in E. injection E as <-. reflexivity.
      * vm_compute in E. injection E as <-. reflexivity.
      * vm_compute in E. injection E as <-. reflexivity.
      * exact Ea.
    + vm_compute in E. injection E as <-. vm_compute in Ea. discriminate.
  - vm_compute in E. discriminate.
Defined.

End MqWeakInv.
