(* ===== verification/EventBusWeak.v ===== *)
(** * Subscriptions and publishers, under release/acquire

    [Subscribe], [Unsubscribe] and [Publish] of [ActorEventBus]
    (src/core/event_bus.cc) on the memory of WeakMem. A publisher compares its
    version with a relaxed load of [version_] and copies the table under the
    mutex when it is behind. The mutex is a location: locking acquires,
    unlocking releases. The table is not atomic; its location holds the number
    of the table in [hist]. [Unsubscribe] erases an emptied entry of the table
    after bumping the version, still inside the mutex: here both edits of the
    table are one access, before the bump. *)

From Stdlib Require Import ZArith Lia.
From stdpp Require Import base list relations gmap.
From S2P Require Import Prelude EventMessage EventBus WeakMem.

Local Open Scope Z_scope.
Local Open Scope u64_scope.

Module BusWeak.

Inductive location := LVersion | LMutex | LTable.

#[global] Instance location_eq_dec : EqDecision location.
Proof. solve_decision. Defined.

Inductive edit := ESubscribe (type : EventType) (mb : Z) | EUnsubscribe (type : EventType) (mb : Z).

(** The table after an edit; [None]: [Unsubscribe] found nothing, the version
    stays. *)
Definition apply_edit (e : edit) (tb : route_table) : option route_table :=
  let b := mkBus tb 0 in
  let b' := match e with
            | ESubscribe type mb => Subscribe type mb b
            | EUnsubscribe type mb => Unsubscribe type mb b
            end in
  if version_ b' =? 0 then None else Some (event_bus_ b').

(** [seen]: the newest version the thread was bound to know when it called
    [Publish]. *)
Inductive pc :=
  | Idle
  | SLock (e : edit)
  | SEdit (e : edit)
  | SBump
  | SUnlock
  | PCheck (seen : nat)
  | YLock (seen : nat)
  | YCopy (seen : nat)
  | YLoad (seen : nat)
  | YUnlock (seen : nat)
  | PRoute (seen : nat).

Record thread := mkT { t_pc : pc; t_view : view location; t_cache : local_cache }.

Record bus := mkB {
  mem : memory location Z;
  threads : gmap nat thread;
  hist : list route_table    (* every table there has been *)
}.

Definition new_thread : thread := mkT Idle vbot new_cache.

Definition thread_of (s : bus) (t : nat) : thread := default new_thread (threads s !! t).

Definition table_at (s : bus) (j : Z) : route_table := hist s !!! Z.to_nat j.

Definition put (t : nat) (x : thread) (s : bus) : bus := mkB (mem s) (<[t := x]> (threads s)) (hist s).

Definition with_mem (M : memory location Z) (s : bus) : bus := mkB M (threads s) (hist s).

(** The next step of thread [t]; [i]: which write a load returns. *)
Definition thread_act (t : nat) (i : nat) (s : bus) : option bus :=
  let '(mkT p T c) := thread_of s t in
  match p with
  | Idle => None
  | SLock e =>
      '(old, T1, M) ← exchange LMutex 1 T (mem s);
      if old =? 0 then Some (put t (mkT (SEdit e) T1 c) (with_mem M s)) else None
  | SEdit e =>
      '(j, T1, M) ← access LTable (fun j => if apply_edit e (table_at s j) is Some _
                                            then Z.of_nat (length (hist s)) else j) T (mem s);
      Some (match apply_edit e (table_at s j) with
            | Some tb => mkB M (<[t := mkT SBump T1 c]> (threads s)) (hist s ++ [tb])
            | None => put t (mkT SUnlock T1 c) (with_mem M s)
            end)
  | SBump =>
      '(_, T1, M) ← fetch_release LVersion (fun v => v ⊕ 1) T (mem s);
      Some (put t (mkT SUnlock T1 c) (with_mem M s))
  | SUnlock =>
      let (T1, M) := store true LMutex 0 T (mem s) in
      Some (put t (mkT Idle T1 c) (with_mem M s))
  | PCheck seen =>
      '(v, T1) ← load false LVersion i T (mem s);
      Some (put t (mkT (if local_version c <? v then YLock seen else PRoute seen) T1 c) s)
  | YLock seen =>
      '(old, T1, M) ← exchange LMutex 1 T (mem s);
      if old =? 0 then Some (put t (mkT (YCopy seen) T1 c) (with_mem M s)) else None
  | YCopy seen =>
      '(j, T1, M) ← access LTable id T (mem s);
      Some (put t (mkT (YLoad seen) T1 (mkCache (table_at s j) (local_version c))) (with_mem M s))
  | YLoad seen =>
      '(v, T1) ← load false LVersion i T (mem s);
      Some (put t (mkT (YUnlock seen) T1 (mkCache (local_event_bus c) v)) s)
  | YUnlock seen =>
      let (T1, M) := store true LMutex 0 T (mem s) in
      Some (put t (mkT (PRoute seen) T1 c) (with_mem M s))
  | PRoute _ => Some (put t (mkT Idle T c) s)
  end.

Inductive choice :=
  | CallEdit (t : nat) (e : edit)
  | CallPublish (t : nat)
  | Go (t i : nat)
  | Handoff (t t' : nat).    (* thread [t'] learns what [t] knows: a message, a task *)

Definition bus_act (ch : choice) (s : bus) : option bus :=
  match ch with
  | CallEdit t e =>
      let '(mkT p T c) := thread_of s t in
      match p with Idle => Some (put t (mkT (SLock e) T c) s) | _ => None end
  | CallPublish t =>
      let '(mkT p T c) := thread_of s t in
      match p with Idle => Some (put t (mkT (PCheck (T LVersion)) T c) s) | _ => None end
  | Go t i => thread_act t i s
  | Handoff t t' =>
      match thread_of s t, thread_of s t' with
      | mkT Idle T _, mkT Idle T' c' => Some (put t' (mkT Idle (vjoin T' T) c') s)
      | _, _ => None
      end
  end.

Definition bus_wstep (s s' : bus) : Prop := exists ch, bus_act ch s = Some s'.

Definition bus_wstart : bus := mkB (fun _ => [mkWrite 0 vbot]) ∅ [∅].

(** The next access of the thread to the table is a data race. *)
Definition bus_racy (s : bus) (x : thread) : bool :=
  match t_pc x with
  | SEdit _ | YCopy _ => negb (exclusive LTable (t_view x) (mem s))
  | _ => false
  end.

(** ** Who knows what *)

Implicit Types (s : bus) (x : thread) (T : view location) (h : option nat).

(** The thread is inside the mutex. *)
Definition in_cs (p : pc) : bool :=
  match p with SEdit _ | SBump | SUnlock | YCopy _ | YLoad _ | YUnlock _ => true | _ => false end.

(** The newest version. *)
Definition version s : nat := pred (length (mem s LVersion)).

Definition knows_bus s T : Prop := latest T LVersion (mem s) /\ latest T LTable (mem s).

(** The copy of a thread is the table of its version; a publisher that routes
    has at least the version it was bound to know. *)
Definition thread_ok s x : Prop :=
  let lv := local_version (t_cache x) in
  let copy := local_event_bus (t_cache x) in
  0 <= lv <= Z.of_nat (version s) /\
  match t_pc x with
  | YLoad seen => copy = table_at s (Z.of_nat (version s)) /\ (seen <= t_view x LVersion)%nat
  | PCheck seen | YLock seen | YCopy seen => copy = table_at s lv /\ (seen <= t_view x LVersion)%nat
  | YUnlock seen | PRoute seen => copy = table_at s lv /\ Z.of_nat seen <= lv
  | _ => copy = table_at s lv
  end.

(** A table without a version yet. *)
Definition ahead (p : pc) : nat := match p with SBump => 1 | _ => 0 end.

(** The mutex is free and its last release knows everything, or thread [t]
    holds it and does. *)
Definition mutex_ok s h : Prop :=
  match h with
  | None =>
      (exists wl, last (mem s LMutex) = Some wl /\ w_val wl = 0 /\ knows_bus s (w_view wl)) /\
      length (hist s) = length (mem s LVersion)
  | Some t =>
      (exists wl, last (mem s LMutex) = Some wl /\ w_val wl = 1) /\
      in_cs (t_pc (thread_of s t)) = true /\ knows_bus s (t_view (thread_of s t)) /\
      length (hist s) = (length (mem s LVersion) + ahead (t_pc (thread_of s t)))%nat
  end.

Record bus_winv s h : Prop := {
  bi_mem : mem_closed (mem s);
  bi_closed t : closed (t_view (thread_of s t)) (mem s);
  bi_version n w : mem s LVersion !! n = Some w -> w_val w = Z.of_nat n;
  bi_table : newest LTable 0 (mem s) = Z.of_nat (pred (length (hist s)));
  bi_mutex : mutex_ok s h;
  bi_holder t : in_cs (t_pc (thread_of s t)) = true -> h = Some t;
  bi_threads t : thread_ok s (thread_of s t)
}.

Lemma thread_of_insert (M : memory location Z) ts hs t x t' :
  thread_of (mkB M (<[t := x]> ts) hs) t' = if decide (t' = t) then x else thread_of (mkB M ts hs) t'.
Proof.
  unfold thread_of. simpl. destruct (decide (t' = t)) as [->|]; [by rewrite lookup_insert_eq|by rewrite lookup_insert_ne].
Qed.

Lemma version_positive s h : bus_winv s h -> length (mem s LVersion) = S (version s).
Proof. intros Hi. pose proof (bi_closed _ _ Hi 0%nat LVersion). unfold version. lia. Qed.

Lemma hist_length s h : bus_winv s h -> (S (version s) <= length (hist s))%nat.
Proof.
  intros Hi. pose proof (version_positive _ _ Hi). pose proof (bi_mutex _ _ Hi) as Hm.
  destruct h; simpl in Hm; [destruct Hm as (_ & _ & _ & ->)|destruct Hm as [_ ->]]; lia.
Qed.

(** What a thread relies on survives new versions, unless it is copying. *)
Lemma thread_ok_mono s s' x :
  (version s < length (hist s))%nat -> hist s `prefix_of` hist s' -> (version s <= version s')%nat ->
  (forall seen, t_pc x <> YLoad seen) -> thread_ok s x -> thread_ok s' x.
Proof.
  intros Hl [l Hh] Hv Hny [Hr Hok]. split; [lia|].
  assert (Ht : table_at s' (local_version (t_cache x)) = table_at s (local_version (t_cache x))).
  { unfold table_at. rewrite Hh. rewrite !list_lookup_total_alt. f_equal. apply lookup_app_l. lia. }
  rewrite Ht. destruct x as [[] T c]; simpl in *; try done. by destruct (Hny seen).
Qed.

(** A step outside the mutex. *)
Lemma inv_outside s h t x :
  bus_winv s h -> in_cs (t_pc (thread_of s t)) = false -> in_cs (t_pc x) = false ->
  closed (t_view x) (mem s) -> thread_ok s x -> bus_winv (put t x s) h.
Proof.
  intros Hi Ho Hx Hc Hok.
  assert (E : forall t', thread_of (put t x s) t' = if decide (t' = t) then x else thread_of s t').
  { intros t'. unfold put. rewrite thread_of_insert. done. }
  split; try (apply Hi).
  - intros t'. rewrite E. destruct (decide _); [done|apply (bi_closed _ _ Hi)].
  - pose proof (bi_mutex _ _ Hi) as Hm. destruct h as [t0|]; [|done]. simpl in *. rewrite E.
    destruct (decide (t0 = t)) as [->|]; [|done]. destruct Hm as (_ & Hcs & _). congruence.
  - intros t'. rewrite E. destruct (decide _); [congruence|apply (bi_holder _ _ Hi)].
  - intros t'. rewrite E. destruct (decide _); [done|apply (bi_threads _ _ Hi)].
Qed.

(** A step of a thread that enters, holds or leaves the mutex. *)
Lemma inv_mutex s h s' h' t x :
  bus_winv s h -> (h = Some t \/ h = None) -> (h' = Some t \/ h' = None) ->
  threads s' = <[t := x]> (threads s) -> mem_closed (mem s') ->
  (forall T, closed T (mem s) -> closed T (mem s')) -> closed (t_view x) (mem s') ->
  (forall n w, mem s' LVersion !! n = Some w -> w_val w = Z.of_nat n) ->
  newest LTable 0 (mem s') = Z.of_nat (pred (length (hist s'))) ->
  hist s `prefix_of` hist s' -> (version s <= version s')%nat ->
  thread_ok s' x -> in_cs (t_pc x) = bool_decide (h' = Some t) -> mutex_ok s' h' -> bus_winv s' h'.
Proof.
  intros Hi Hh Hh' Eth Hm Hc Hcx Hv Ht Hhi Hve Hok Hcs Hmu.
  assert (E : forall t', thread_of s' t' = if decide (t' = t) then x else thread_of s t').
  { intros t'. unfold thread_of. rewrite Eth. destruct (decide (t' = t)) as [->|];
      [by rewrite lookup_insert_eq|by rewrite lookup_insert_ne]. }
  assert (Hother : forall t', t' <> t -> in_cs (t_pc (thread_of s t')) = false).
  { intros t' Hne. destruct (in_cs (t_pc (thread_of s t'))) eqn:Ecs; [|done]. apply (bi_holder _ _ Hi) in Ecs.
    destruct Hh as [->| ->]; congruence. }
  split; try done.
  - intros t'. rewrite E. destruct (decide _); [done|apply Hc, (bi_closed _ _ Hi)].
  - intros t'. rewrite E. destruct (decide (t' = t)) as [->|Hne].
    + rewrite Hcs. apply bool_decide_eq_true.
    + by rewrite (Hother t' Hne).
  - intros t'. rewrite E. destruct (decide (t' = t)) as [->|Hne]; [done|].
    apply (thread_ok_mono s); try done; [|intros seen Ey|apply (bi_threads _ _ Hi)].
    + pose proof (hist_length _ _ Hi). lia.
    + pose proof (Hother t' Hne) as Ho. by rewrite Ey in Ho.
Qed.

(** What the thread in the mutex knows. *)
Lemma holder_knows s h t :
  bus_winv s h -> in_cs (t_pc (thread_of s t)) = true -> h = Some t /\ mutex_ok s (Some t).
Proof. intros Hi Hcs. pose proof (bi_holder _ _ Hi _ Hcs) as ->. split; [done|apply Hi]. Qed.

(** Locking: the thread learns what the last holder knew. *)
Lemma inv_lock s h t p T c p' T1 M :
  bus_winv s h -> thread_of s t = mkT p T c -> in_cs p = false -> in_cs p' = true -> ahead p' = 0%nat ->
  exchange LMutex 1 T (mem s) = Some (0, T1, M) ->
  (vle T T1 -> thread_ok s (mkT p' T1 c)) ->
  bus_winv (put t (mkT p' T1 c) (with_mem M s)) (Some t).
Proof.
  intros Hi Et Hp Hp' Ha Hx Hok. pose proof (bi_closed _ _ Hi t) as Hc. rewrite Et in Hc. simpl in Hc.
  unfold exchange in Hx. destruct (last (mem s LMutex)) as [w|] eqn:El; [|done]. simpl in Hx.
  injection Hx as Hw <- <-.
  assert (Hwc : closed (w_view w) (mem s)) by (eapply closed_view; [apply Hi|by rewrite <- last_lookup]).
  pose proof (closed_join _ _ _ Hc Hwc) as Hj.
  assert (Hle : vle (vjoin T (w_view w)) (vset LMutex (length (mem s LMutex)) (vjoin T (w_view w)))).
  { apply vset_le. specialize (Hj LMutex). lia. }
  pose proof (bi_mutex _ _ Hi) as Hm. destruct h as [t0|].
  { destruct Hm as [(wl & Hl & Hv) _]. rewrite El in Hl. injection Hl as <-. lia. }
  destruct Hm as [(wl & Hl & _ & Hkv & Hkt) Hlen]. rewrite El in Hl. injection Hl as <-.
  eapply (inv_mutex s None _ (Some t) t _ Hi); try done; simpl; try auto.
  - apply mem_closed_append; [apply Hi|]. by apply closed_new.
  - intros T0. apply closed_append.
  - by apply closed_new.
  - apply Hi.
  - rewrite newest_append_ne by done. apply Hi.
  - apply Hok. etrans; [apply vjoin_l|done].
  - rewrite Hp'. by rewrite bool_decide_true.
  - unfold put. rewrite thread_of_insert, decide_True by done. simpl. split_and!.
    + eexists. by rewrite last_append.
    + done.
    + split; apply latest_append_ne; try done; apply latest_vset_ne; try done;
        (eapply latest_mono; [apply Hj|apply vjoin_r|done]).
    + rewrite Ha. change (length (hist s) = (length (mem s LVersion) + 0)%nat). lia.
Qed.

(** Unlocking: the next holder can learn what this one knows. *)
Lemma inv_unlock s h t p T c p' :
  bus_winv s h -> thread_of s t = mkT p T c -> in_cs p = true -> ahead p = 0%nat -> in_cs p' = false ->
  let '(T1, M) := store true LMutex 0 T (mem s) in
  thread_ok s (mkT p' T1 c) ->
  bus_winv (put t (mkT p' T1 c) (with_mem M s)) None.
Proof.
  intros Hi Et Hp Ha Hp'. simpl. intros Hok. pose proof (bi_closed _ _ Hi t) as Hc. rewrite Et in Hc. simpl in Hc.
  destruct (holder_knows s h t Hi) as [-> (_ & _ & [Hkv Hkt] & Hlen)]; [by rewrite Et|].
  rewrite Et in Hkv, Hkt, Hlen. simpl in *. rewrite Ha in Hlen.
  eapply (inv_mutex s (Some t) _ None t _ Hi); try done; simpl; try auto.
  - apply mem_closed_append; [apply Hi|]. by apply closed_new.
  - intros T0. apply closed_append.
  - by apply closed_new.
  - apply Hi.
  - rewrite newest_append_ne by done. apply Hi.
  - split.
    + eexists. rewrite last_append. split_and!; [done..|]. simpl.
      split; (apply latest_append_ne; [done|]; by apply latest_vset_ne).
    + change (length (hist s) = length (mem s LVersion)). lia.
Qed.

(** An access to the table in the mutex; [tbs]: the table it leaves, when it
    is a new one. *)
Lemma inv_access s h t p T c f j T1 M p' c' tbs :
  bus_winv s h -> thread_of s t = mkT p T c -> in_cs p = true -> ahead p = 0%nat -> in_cs p' = true ->
  access LTable f T (mem s) = Some (j, T1, M) ->
  let s' := mkB M (<[t := mkT p' T1 c']> (threads s)) (hist s ++ tbs) in
  ahead p' = length tbs -> f j = Z.of_nat (pred (length (hist s ++ tbs))) ->
  thread_ok s' (mkT p' T1 c') -> bus_winv s' (Some t).
Proof.
  intros Hi Et Hp Ha Hp' Hx s' Ha' Hf Hok. pose proof (bi_closed _ _ Hi t) as Hc. rewrite Et in Hc. simpl in Hc.
  destruct (holder_knows s h t Hi) as [-> (Hmx & _ & [Hkv Hkt] & Hlen)]; [by rewrite Et|].
  rewrite Et in Hkv, Hkt, Hlen. simpl in *. rewrite Ha in Hlen.
  destruct (access_latest LTable f T (mem s) Hkt) as (w & Hl & Hx'). rewrite Hx in Hx'.
  injection Hx' as -> -> ->.
  assert (Hbot : closed vbot (append LTable (mkWrite (f (w_val w)) vbot) (mem s))).
  { apply closed_append, closed_bot. intros l El. specialize (Hc l). rewrite El in Hc. simpl in Hc. lia. }
  eapply (inv_mutex s (Some t) _ (Some t) t _ Hi); try done; simpl; try auto.
  - apply mem_closed_append; [apply Hi|done].
  - intros T0. apply closed_append.
  - by apply closed_new.
  - apply Hi.
  - by rewrite newest_append_eq.
  - by apply prefix_app_r.
  - rewrite Hp'. by rewrite bool_decide_true.
  - unfold s'. rewrite thread_of_insert, decide_True by done. simpl. split_and!; try done.
    + split; [|by apply latest_new]. apply latest_append_ne; [done|]. by apply latest_vset_ne.
    + rewrite length_app, Ha'. change (append LTable _ (mem s) LVersion) with (mem s LVersion). lia.
Qed.

(** The number of the table the holder of the mutex finds. *)
Lemma access_current s h t p T c f j T1 M :
  bus_winv s h -> thread_of s t = mkT p T c -> in_cs p = true -> ahead p = 0%nat ->
  access LTable f T (mem s) = Some (j, T1, M) ->
  j = Z.of_nat (version s) /\ length (hist s) = S (version s) /\ T1 LVersion = T LVersion /\
  mem s LVersion = M LVersion.
Proof.
  intros Hi Et Hp Ha Hx.
  destruct (holder_knows s h t Hi) as [-> (_ & _ & [Hkv Hkt] & Hlen)]; [by rewrite Et|].
  rewrite Et in Hkv, Hkt, Hlen. simpl in *. rewrite Ha in Hlen. pose proof (version_positive _ _ Hi) as Hvp.
  destruct (access_latest LTable f T (mem s) Hkt) as (w & Hl & Hx'). rewrite Hx in Hx'.
  injection Hx' as -> -> ->. pose proof (bi_table _ _ Hi) as Ht. unfold newest in Ht. rewrite Hl in Ht.
  simpl in Ht. split_and!; try done; [|lia]. rewrite Ht. f_equal. lia.
Qed.

(** The new table gets its version. *)
Lemma inv_bump s h t T c v T1 M :
  bus_winv s h -> thread_of s t = mkT SBump T c -> Z.of_nat (length (hist s)) <= 2 ^ 64 ->
  fetch_release LVersion (fun v => v ⊕ 1) T (mem s) = Some (v, T1, M) ->
  bus_winv (put t (mkT SUnlock T1 c) (with_mem M s)) (Some t).
Proof.
  intros Hi Et Hb Hx. pose proof (bi_closed _ _ Hi t) as Hc. rewrite Et in Hc. simpl in Hc.
  destruct (holder_knows s h t Hi) as [-> (Hmx & _ & [Hkv Hkt] & Hlen)]; [by rewrite Et|].
  rewrite Et in Hkv, Hkt, Hlen. simpl in *. pose proof (version_positive _ _ Hi) as Hvp.
  pose proof (bi_threads _ _ Hi t) as Hok. rewrite Et in Hok.
  unfold fetch_release in Hx. destruct (last (mem s LVersion)) as [w|] eqn:El; [|done]. simpl in Hx.
  injection Hx as Hw <- <-. rewrite last_lookup in El. pose proof (bi_version _ _ Hi _ _ El) as Hwv.
  assert (Hcw : closed (w_view w) (mem s)) by (eapply closed_view; [apply Hi|done]).
  eapply (inv_mutex s (Some t) _ (Some t) t _ Hi); try done; simpl; try auto.
  - apply mem_closed_append; [apply Hi|]. apply closed_join; [by apply closed_new|by apply closed_append].
  - intros T0. apply closed_append.
  - by apply closed_new.
  - intros n w' Hn. apply append_lookup_inv in Hn as [Hn|(_ & -> & ->)]; [by apply (bi_version _ _ Hi)|].
    simpl. rewrite add64_small; lia.
  - rewrite newest_append_ne by done. apply Hi.
  - unfold version. simpl. rewrite append_length. lia.
  - apply (thread_ok_mono s); try done; simpl; [lia|]. unfold version. simpl. rewrite append_length. lia.
  - by rewrite bool_decide_true.
  - unfold put. rewrite thread_of_insert, decide_True by done. simpl. split_and!; try done.
    + split; [by apply latest_new|]. apply latest_append_ne; [done|]. by apply latest_vset_ne.
    + rewrite append_length. simpl. lia.
Qed.

(** The version the publisher stores with its copy. *)
Lemma inv_version s h t seen T c i v T1 :
  bus_winv s h -> thread_of s t = mkT (YLoad seen) T c -> load false LVersion i T (mem s) = Some (v, T1) ->
  bus_winv (put t (mkT (YUnlock seen) T1 (mkCache (local_event_bus c) v)) s) (Some t).
Proof.
  intros Hi Et Hx. pose proof (bi_closed _ _ Hi t) as Hc. rewrite Et in Hc. simpl in Hc.
  destruct (holder_knows s h t Hi) as [-> (Hmx & _ & [Hkv Hkt] & Hlen)]; [by rewrite Et|].
  rewrite Et in Hkv, Hkt, Hlen. simpl in *. pose proof (version_positive _ _ Hi) as Hvp.
  pose proof (bi_threads _ _ Hi t) as Hth. rewrite Et in Hth. destruct Hth as [_ [Hok Hs]]. simpl in Hok, Hs.
  pose proof (load_closed _ _ _ _ _ _ _ Hx Hc (bi_mem _ _ Hi)) as [Hc1 Hle].
  apply load_spec in Hx as (w & Hw & -> & Hi' & ->). destruct (latest_load T LVersion 0 _ _ _ Hkv Hw Hi') as [-> _].
  pose proof (bi_version _ _ Hi _ _ Hw) as Hv. unfold latest in Hkv.
  assert (T LVersion = version s) as HT by lia. rewrite HT in *.
  eapply (inv_mutex s (Some t) _ (Some t) t _ Hi); try done; simpl; try auto; try apply Hi.
  - split; simpl; [unfold version in *; simpl; lia|]. rewrite Hv. split; [done|lia].
  - by rewrite bool_decide_true.
  - unfold put. rewrite thread_of_insert, decide_True by done. done.
Qed.

(** [Subscribe] or [Unsubscribe] edits the newest table. *)
Lemma inv_edit s h t e T c j T1 M :
  bus_winv s h -> thread_of s t = mkT (SEdit e) T c ->
  access LTable (fun j => if apply_edit e (table_at s j) is Some _
                          then Z.of_nat (length (hist s)) else j) T (mem s) = Some (j, T1, M) ->
  last (hist s) = Some (table_at s j) /\
  match apply_edit e (table_at s j) with
  | Some tb => bus_winv (mkB M (<[t := mkT SBump T1 c]> (threads s)) (hist s ++ [tb])) (Some t)
  | None => bus_winv (put t (mkT SUnlock T1 c) (with_mem M s)) (Some t)
  end.
Proof.
  intros Hi Et Hx. destruct (access_current _ _ _ _ _ _ _ _ _ _ Hi Et eq_refl eq_refl Hx) as (Hj & Hl & _ & HM).
  pose proof (bi_threads _ _ Hi t) as Hok. rewrite Et in Hok. split.
  { unfold table_at. rewrite last_lookup, Hl, Hj, Nat2Z.id. simpl. apply list_lookup_lookup_total_lt. lia. }
  destruct (apply_edit e (table_at s j)) as [tb|] eqn:Ee.
  - eapply (inv_access s h t _ _ _ _ _ _ _ _ _ [tb]); try done; simpl; rewrite ?Ee, ?length_app; simpl; [f_equal; lia|].
    apply (thread_ok_mono s); simpl; try done; [lia|by apply prefix_app_r|]. unfold version. simpl. rewrite HM. lia.
  - unfold put, with_mem. simpl. rewrite <- (app_nil_r (hist s)).
    eapply (inv_access s h t _ _ _ _ _ _ _ _ _ []); try done; simpl; rewrite ?Ee, ?app_nil_r; simpl; [rewrite Hj; f_equal; lia|].
    apply (thread_ok_mono s); simpl; try done; [lia|]. unfold version. simpl. rewrite HM. lia.
Qed.

(** The publisher copies the newest table. *)
Lemma inv_copy s h t seen T c j T1 M :
  bus_winv s h -> thread_of s t = mkT (YCopy seen) T c -> access LTable id T (mem s) = Some (j, T1, M) ->
  bus_winv (put t (mkT (YLoad seen) T1 (mkCache (table_at s j) (local_version c))) (with_mem M s)) (Some t).
Proof.
  intros Hi Et Hx. destruct (access_current _ _ _ _ _ _ _ _ _ _ Hi Et eq_refl eq_refl Hx) as (Hj & Hl & HT & HM).
  pose proof (bi_threads _ _ Hi t) as Hok. rewrite Et in Hok. destruct Hok as [Hr [_ Hs]]. simpl in Hr, Hs.
  unfold put, with_mem. simpl. rewrite <- (app_nil_r (hist s)).
  eapply (inv_access s h t _ _ _ _ _ _ _ _ _ []); try done; simpl; rewrite ?app_nil_r.
  - unfold id. rewrite Hj. f_equal. lia.
  - assert (Ev : version (mkB M (<[t := mkT (YLoad seen) T1 (mkCache (table_at s j) (local_version c))]> (threads s))
                              (hist s)) = version s) by (unfold version; simpl; by rewrite HM).
    split; simpl; rewrite Ev; [done|]. rewrite Hj, HT. done.
Qed.

(** The relaxed check before routing. *)
Lemma inv_check s h t seen T c i v T1 :
  bus_winv s h -> thread_of s t = mkT (PCheck seen) T c -> load false LVersion i T (mem s) = Some (v, T1) ->
  bus_winv (put t (mkT (if local_version c <? v then YLock seen else PRoute seen) T1 c) s) h.
Proof.
  intros Hi Et Hx. pose proof (bi_closed _ _ Hi t) as Hc. rewrite Et in Hc.
  pose proof (load_closed _ _ _ _ _ _ _ Hx Hc (bi_mem _ _ Hi)) as [Hc1 Hle].
  pose proof (bi_threads _ _ Hi t) as Hok. rewrite Et in Hok. destruct Hok as [Hr [Hcp Hs]]. simpl in Hr, Hcp, Hs.
  apply load_spec in Hx as (w & Hw & -> & Hi' & ->). pose proof (bi_version _ _ Hi _ _ Hw) as Hv.
  apply inv_outside; [done|by rewrite Et|by destruct (_ <? _)|done|]. split; [done|]. simpl.
  destruct (Z.ltb_spec (local_version c) (w_val w)); (split; [done|]); [rewrite vset_eq|]; lia.
Qed.

(** The table stays, or gets the result of one edit of the newest one. *)
Definition hist_step (hs hs' : list route_table) : Prop :=
  hs' = hs \/ exists e tb tb', last hs = Some tb /\ apply_edit e tb = Some tb' /\ hs' = hs ++ [tb'].

Definition step_ok s s' : Prop := (exists h, bus_winv s' h) /\ hist_step (hist s) (hist s').

Lemma lock_of_exchange T (M : memory location Z) r :
  ('(old, T1, M1) ← exchange LMutex 1 T M; if old =? 0 then Some (r T1 M1) else None) = None \/
  exists T1 M1, exchange LMutex 1 T M = Some (0, T1, M1) /\
    ('(old, T1, M1) ← exchange LMutex 1 T M; if old =? 0 then Some (r T1 M1) else None) = Some (r T1 M1 : bus).
Proof.
  destruct (exchange LMutex 1 T M) as [[[old T1] M1]|]; simpl; [|by left].
  destruct (Z.eqb_spec old 0) as [->|]; [|by left]. right. by exists T1, M1.
Qed.

Lemma thread_act_ok s h t i s' :
  bus_winv s h -> Z.of_nat (length (hist s)) <= 2 ^ 64 -> thread_act t i s = Some s' -> step_ok s s'.
Proof.
  intros Hi Hb Ha. unfold thread_act in Ha. pose proof (bi_threads _ _ Hi t) as Hok.
  pose proof (bi_closed _ _ Hi t) as Hc.
  destruct (thread_of s t) as [p T c] eqn:Et. destruct p as [|e|e| | |seen|seen|seen|seen|seen|seen]; simpl in *; try done.
  - destruct (lock_of_exchange T (mem s) (fun T1 M => put t (mkT (SEdit e) T1 c) (with_mem M s)))
      as [Hn|(T1 & M & Hx & Hr)]; [congruence|]. rewrite Hr in Ha. injection Ha as <-.
    split; [exists (Some t)|by left]. by eapply inv_lock.
  - destruct (access _ _ _ _) as [[[j T1] M]|] eqn:Hx; simplify_eq/=.
    destruct (inv_edit _ _ _ _ _ _ _ _ _ Hi Et Hx) as [Hl Hinv].
    destruct (apply_edit e (table_at s j)) as [tb|] eqn:Ee; (split; [by eexists|]); [right|by left].
    by exists e, (table_at s j), tb.
  - destruct (fetch_release _ _ _ _) as [[[v T1] M]|] eqn:Hx; simplify_eq/=.
    split; [exists (Some t)|by left]. by eapply inv_bump.
  - injection Ha as <-. split; [exists None|by left]. by eapply (inv_unlock s h t SUnlock T c Idle).
  - destruct (load _ _ _ _ _) as [[v T1]|] eqn:Hx; simplify_eq/=.
    split; [exists h|by left]. by eapply inv_check.
  - destruct (lock_of_exchange T (mem s) (fun T1 M => put t (mkT (YCopy seen) T1 c) (with_mem M s)))
      as [Hn|(T1 & M & Hx & Hr)]; [congruence|]. rewrite Hr in Ha. injection Ha as <-.
    split; [exists (Some t)|by left]. eapply inv_lock; try done. intros Hle. destruct Hok as (? & ? & ?).
    split; [done|]. split; [done|]. specialize (Hle LVersion). simpl in *. lia.
  - destruct (access _ _ _ _) as [[[j T1] M]|] eqn:Hx; simplify_eq/=.
    split; [exists (Some t)|by left]. by eapply inv_copy.
  - destruct (load _ _ _ _ _) as [[v T1]|] eqn:Hx; simplify_eq/=.
    split; [exists (Some t)|by left]. by eapply inv_version.
  - injection Ha as <-. split; [exists None|by left]. by eapply (inv_unlock s h t (YUnlock seen) T c (PRoute seen)).
  - injection Ha as <-. split; [exists h|by left]. apply inv_outside; try done; [by rewrite Et|].
    destruct Hok as (? & ? & _). by split.
Qed.

Lemma bus_act_ok s h ch s' :
  bus_winv s h -> Z.of_nat (length (hist s)) <= 2 ^ 64 -> bus_act ch s = Some s' -> step_ok s s'.
Proof.
  intros Hi Hb Ha. destruct ch as [t e|t|t i|t t']; simpl in Ha; [| |by eapply thread_act_ok|];
    pose proof (bi_threads _ _ Hi t) as Hok; pose proof (bi_closed _ _ Hi t) as Hc;
    destruct (thread_of s t) as [[] T c] eqn:Et; try done.
  - injection Ha as <-. split; [exists h|by left]. apply inv_outside; try done. by rewrite Et.
  - injection Ha as <-. split; [exists h|by left]. apply inv_outside; try done; [by rewrite Et|].
    destruct Hok. split; [done|]. simpl. split; [done|lia].
  - pose proof (bi_threads _ _ Hi t') as Hok'. pose proof (bi_closed _ _ Hi t') as Hc'.
    destruct (thread_of s t') as [[] T' c'] eqn:Et'; try done. injection Ha as <-.
    split; [exists h|by left]. apply inv_outside; try done; [by rewrite Et'|]. by apply closed_join.
Qed.

Lemma bus_act_hist s ch s' : bus_act ch s = Some s' -> (length (hist s) <= length (hist s'))%nat.
Proof.
  intros Ha. unfold bus_act, thread_act in Ha. repeat (case_match; simplify_eq/=; try done);
    repeat (apply bind_Some in Ha as (? & ? & Ha); repeat (case_match; simplify_eq/=; try done));
    simpl; rewrite ?length_app; lia.
Qed.

Definition bus_winit s : Prop := s = bus_wstart.

(** Every table is the result of one edit of the one before it. *)
Definition edits (hs : list route_table) : Prop :=
  forall k tb tb', hs !! k = Some tb -> hs !! S k = Some tb' -> exists e, apply_edit e tb = Some tb'.

Lemma edits_step hs hs' : edits hs -> hist_step hs hs' -> edits hs'.
Proof.
  intros He [->|(e & tb0 & tb1 & Hl & Ha & ->)]; [done|]. intros k tb tb' Hk Hk'.
  pose proof (lookup_lt_Some _ _ _ Hk') as Hlt. rewrite length_app in Hlt. simpl in Hlt.
  rewrite lookup_app_l in Hk by lia. destruct (decide (S k = length hs)) as [Ek|].
  - rewrite Ek in Hk'. rewrite list_lookup_middle in Hk' by done. rewrite last_lookup, <- Ek in Hl. simpl in Hl.
    exists e. congruence.
  - rewrite lookup_app_l in Hk' by lia. by eapply He.
Qed.

Lemma bus_winv_start : bus_winv bus_wstart None.
Proof.
  split.
  - intros l w Hw. apply list_elem_of_singleton in Hw as ->. apply closed_bot. intros []; done.
  - intros t l. unfold thread_of. simpl. rewrite lookup_empty. simpl. unfold vbot. lia.
  - intros n w Hw. apply list_lookup_singleton_Some in Hw as [-> <-]. done.
  - done.
  - split; [|done]. eexists. split_and!; try done.
  - intros t. unfold thread_of. simpl. by rewrite lookup_empty.
  - intros t. unfold thread_of. simpl. rewrite lookup_empty. simpl. split; simpl; [lia|done].
Qed.

Lemma bus_reachable_winv s :
  reachable bus_winit bus_wstep s -> Z.of_nat (length (hist s)) <= 2 ^ 64 ->
  (exists h, bus_winv s h) /\ edits (hist s).
Proof.
  revert s. apply (reachable_ind _ _ (fun s => Z.of_nat (length (hist s)) <= 2 ^ 64 -> _)).
  - intros s -> _. split; [exists None; apply bus_winv_start|]. intros [] tb tb'; simpl; done.
  - intros s s' _ IH [ch Ha] Hb. pose proof (bus_act_hist _ _ _ Ha).
    destruct IH as [[h Hi] He]; [lia|]. destruct (bus_act_ok _ _ _ _ Hi ltac:(lia) Ha) as [Hi' Hh].
    split; [done|by eapply edits_step].
Qed.

(** C24. Route tables under release/acquire, for up to 2^64 versions. Any
    number of threads may be in [Subscribe], [Unsubscribe] and [Publish] of the
    event bus, with every load returning any write the C++ memory model allows.
    No access to the shared table is a data race and at most one thread is
    inside the mutex; no edit is lost: each table is one [Subscribe] or
    [Unsubscribe] applied to the table before it, and the newest version is the
    number of the newest table, but for an edit that has not bumped it yet. The
    relaxed check of [Publish] is enough: a publisher that routes uses a
    complete table, whose version is the one stored with the copy, and no older
    than any version that happened before its call. *)
Theorem bus_release_acquire (s : bus) (t : nat) :
  reachable bus_winit bus_wstep s -> Z.of_nat (length (hist s)) <= 2 ^ 64 ->
  let x := thread_of s t in
  bus_racy s x = false /\
  (in_cs (t_pc x) = true -> t_view x LVersion = version s /\
     forall t', in_cs (t_pc (thread_of s t')) = true -> t' = t) /\
  edits (hist s) /\ (version s < length (hist s) <= S (S (version s)))%nat /\
  match t_pc x with
  | PRoute seen =>
      exists k, local_version (t_cache x) = Z.of_nat k /\ (seen <= k <= version s)%nat /\
        hist s !! k = Some (local_event_bus (t_cache x))
  | _ => True
  end.
Proof.
  intros Hr Hb x. destruct (bus_reachable_winv s Hr Hb) as [[h Hi] He].
  pose proof (hist_length _ _ Hi) as Hl. pose proof (version_positive _ _ Hi) as Hv.
  assert (Hk : in_cs (t_pc x) = true -> knows_bus s (t_view x)) by (intros Hcs; by apply (holder_knows s h t Hi)).
  split_and!; try done.
  - unfold bus_racy. destruct (t_pc x); try done; rewrite exclusive_latest; try done; by apply Hk.
  - intros Hcs. destruct (Hk Hcs) as [Hl1 _]. split; [unfold latest in Hl1; lia|].
    intros t' Hcs'. apply (bi_holder _ _ Hi) in Hcs, Hcs'. congruence.
  - pose proof (bi_mutex _ _ Hi) as Hm. destruct h as [t0|]; simpl in Hm; [|lia].
    destruct Hm as (_ & _ & _ & ->). destruct (t_pc (thread_of s t0)); simpl; lia.
  - pose proof (bi_threads _ _ Hi t) as [Hrg Hok]. fold x in Hrg, Hok. destruct (t_pc x); try done.
    destruct Hok as [Hc Hs]. exists (Z.to_nat (local_version (t_cache x))). split_and!; try lia.
    rewrite Hc. unfold table_at. apply list_lookup_lookup_total_lt. lia.
Qed.

(** Thread 1 publishes with an empty table, thread 0 subscribes, hands on, and
    the next publication of thread 1 copies. *)
Definition subscribe_then_publish : list choice :=
  [CallPublish 1; Go 1 0; Go 1 0; CallEdit 0 (ESubscribe kEventCmdExit 7);
   Go 0 0; Go 0 0; Go 0 0; Go 0 0; Handoff 0 1; CallPublish 1; Go 1 1; Go 1 0; Go 1 0; Go 1 1; Go 1 0].

Lemma bus_release_acquire_witness :
  exists s, run_schedule bus_act subscribe_then_publish bus_wstart = Some s /\
    t_pc (thread_of s 1) = PRoute 1 /\
    exists k, (1 <= k)%nat /\ hist s !! k = Some (local_event_bus (t_cache (thread_of s 1))).
Proof.
  destruct (run_schedule bus_act subscribe_then_publish bus_wstart) as [s|] eqn:E.
  - exists s. split; [reflexivity|].
    assert (Hp : t_pc (thread_of s 1) = PRoute 1) by (vm_compute in E; injection E as <-; reflexivity).
    split; [exact Hp|].
    destruct (bus_release_acquire s 1) as (_ & _ & _ & _ & Hk).
    + apply (run_schedule_reachable bus_winit bus_wstep bus_act) with subscribe_then_publish bus_wstart.
      * intros c x y Hc. exists c. exact Hc.
      * apply reachable_init. reflexivity.
      * exact E.
    + vm_compute in E. injection E as <-. vm_compute. discriminate.
    + rewrite Hp in Hk. destruct Hk as (k & _ & [Hk _] & Hh). exists k. split; [exact Hk|exact Hh].
  - vm_compute in E. discriminate.
Defined.

End BusWeak.
